(** * WikiSort: a shallow embedding of [WikiSort.c]

    The sorter works on a [char *array] of [len] items of [size] bytes
    each and reaches the items only through pointers [&array[size * i]],
    the [Swap] macro, [memcpy] and [memmove].  The embedding keeps that
    interface: the algorithm is written once over a [Store], with byte
    offsets computed in [size_t] arithmetic, and is then read either on
    a list of items (one item per [size] bytes) or on raw bytes. *)

From Stdlib Require Import ZArith List Lia Bool Permutation Sorted.
From Stdlib Require Strings.Byte.
From Stdlib Require SpecFloat.
Import ListNotations.
Local Open Scope Z_scope.

(** ** [size_t] arithmetic (LP64: 64 bits, wrapping) *)

Definition SIZE_MAX1 : Z := 2 ^ 64.
Definition wrap (x : Z) : Z := x mod SIZE_MAX1.

Definition add (a b : Z) : Z := wrap (a + b).
Definition sub (a b : Z) : Z := wrap (a - b).
Definition mul (a b : Z) : Z := wrap (a * b).

Declare Scope size_t_scope.
Delimit Scope size_t_scope with size_t.
Infix "+%" := add (at level 50, left associativity).
Infix "-%" := sub (at level 50, left associativity).
Infix "*%" := mul (at level 40, left associativity).

(** ** Outcomes of running a piece of C

    [Undefined] is an access outside an object, a division by zero or a
    conversion to an integer type that cannot hold the value;
    [OutOfFuel] is a loop that was cut after [fuel] iterations. *)

Inductive outcome (A : Type) : Type :=
| Done (a : A)
| Undefined
| OutOfFuel.
Arguments Done {A} a.
Arguments Undefined {A}.
Arguments OutOfFuel {A}.

Definition bind {A B : Type} (m : outcome A) (k : A -> outcome B) : outcome B :=
  match m with
  | Done a => k a
  | Undefined => Undefined
  | OutOfFuel => OutOfFuel
  end.

Notation "x <- m ;; k" := (bind m (fun x => k))
  (at level 61, m at next level, right associativity).
Notation "' pat <- m ;; k" := (bind m (fun x => match x with pat => k end))
  (at level 61, pat pattern, m at next level, right associativity).

Definition lift {A : Type} (o : option A) : outcome A :=
  match o with Some a => Done a | None => Undefined end.

(** ** The memory interface

    [Arr] is an allocated object addressed by byte offsets, [Val] is
    what a comparison callback reads through a pointer into it. *)

Class Store (Arr Val : Type) : Type := {
  (* the pointer [&array[off]]; [None] when it does not point to an item *)
  ptr : Arr -> Z -> option Val;
  (* [Swap(&array[a], &array[b], size)] *)
  Swap : Arr -> Z -> Z -> Z -> option Arr;
  (* [memcpy(&dst[d], &src[s], n)], two different objects *)
  memcpy : Arr -> Z -> Arr -> Z -> Z -> option Arr;
  (* [memmove(&array[d], &array[s], n)] *)
  memmove : Arr -> Z -> Z -> Z -> option Arr;
  (* the object of no bytes a NULL pointer stands for *)
  NULL : Arr
}.

(** The [Comparison] callback type: two item pointers to an [int]. *)
Definition Comparison (Val : Type) : Type := Val -> Val -> Z.

(** A comparison called on two pointers. *)
Definition call {Val : Type} (compare : Comparison Val)
    (item1 item2 : option Val) : outcome Z :=
  match item1, item2 with
  | Some a, Some b => Done (compare a b)
  | _, _ => Undefined
  end.

Definition Min (a b : Z) : Z := if a <=? b then a else b.
Definition Max (a b : Z) : Z := if a >? b then a else b.

(** ** Ranges *)

Record Range : Type := Range_new { start : Z; end_ : Z }.

Definition Range_length (range : Range) : Z := end_ range -% start range.

(** ** Items as a list: one list cell per [width] bytes *)

Section ListStore.
Context {T : Type}.
Variable width : Z.

(* the cell a byte offset falls on, when it is the first byte of one of
   the first [bound] cells *)
Definition cell (bound : nat) (off : Z) : option nat :=
  if (0 <? width) && (0 <=? off) && (off mod width =? 0)
     && (off / width <? Z.of_nat bound)
  then Some (Z.to_nat (off / width)) else None.

Definition list_ptr (array : list T) (off : Z) : option T :=
  match cell (length array) off with
  | Some i => nth_error array i
  | None => None
  end.

Fixpoint set_nth (array : list T) (i : nat) (x : T) : list T :=
  match array, i with
  | [], _ => []
  | _ :: l, O => x :: l
  | y :: l, S i' => y :: set_nth l i' x
  end.

Definition list_Swap (array : list T) (a b size : Z) : option (list T) :=
  if size =? width then
    match cell (length array) a, cell (length array) b with
    | Some i, Some j =>
        match nth_error array i, nth_error array j with
        | Some x, Some y => Some (set_nth (set_nth array i y) j x)
        | _, _ => None
        end
    | _, _ => None
    end
  else None.

(* [k] cells of [src] from cell [s] written over [dst] from cell [d] *)
Definition blit (dst : list T) (d : nat) (src : list T) (s k : nat) : list T :=
  firstn d dst ++ firstn k (skipn s src) ++ skipn (d + k) dst.

(* copying no bytes leaves the object as it is, whatever the pointers;
   otherwise both blocks are whole cells inside their objects *)
Definition list_memcpy (dst : list T) (d : Z) (src : list T) (s n : Z)
  : option (list T) :=
  if n =? 0 then Some dst else
  match cell (length dst) d, cell (length src) s, cell (S (length dst)) n with
  | Some i, Some j, Some k =>
      if (Nat.leb (i + k) (length dst)) && (Nat.leb (j + k) (length src))
      then Some (blit dst i src j k) else None
  | _, _, _ => None
  end.

Definition list_memmove (array : list T) (d s n : Z) : option (list T) :=
  list_memcpy array d array s n.

Definition list_store : Store (list T) T := {|
  ptr := list_ptr;
  Swap := list_Swap;
  memcpy := list_memcpy;
  memmove := list_memmove;
  NULL := []
|}.
End ListStore.

(** ** Items as raw bytes: what a comparison reads through a pointer is
    the rest of the object from that byte on *)

Definition byte_ptr (mem : list Byte.byte) (off : Z) : option (list Byte.byte) :=
  if (0 <=? off) && (off <? Z.of_nat (length mem))
  then Some (skipn (Z.to_nat off) mem) else None.

(* the do-while of the Swap macro, one byte at a time, [n] bytes to go *)
Fixpoint swap_bytes (mem : list Byte.byte) (a b n : nat)
  : option (list Byte.byte) :=
  match n with
  | O => Some mem
  | S n' =>
      match nth_error mem a, nth_error mem b with
      | Some x, Some y => swap_bytes (set_nth (set_nth mem a y) b x) (S a) (S b) n'
      | _, _ => None
      end
  end.

(* with [size] zero the do-while runs off the object *)
Definition byte_Swap (mem : list Byte.byte) (a b size : Z)
  : option (list Byte.byte) :=
  if (0 <? size) && (0 <=? a) && (0 <=? b)
     && (a + size <=? Z.of_nat (length mem))
     && (b + size <=? Z.of_nat (length mem))
  then swap_bytes mem (Z.to_nat a) (Z.to_nat b) (Z.to_nat size) else None.

Definition byte_memcpy (dst : list Byte.byte) (d : Z) (src : list Byte.byte)
    (s n : Z) : option (list Byte.byte) :=
  if n =? 0 then Some dst else
  if (0 <=? d) && (0 <=? s) && (0 <? n)
     && (d + n <=? Z.of_nat (length dst)) && (s + n <=? Z.of_nat (length src))
  then Some (blit dst (Z.to_nat d) src (Z.to_nat s) (Z.to_nat n)) else None.

Definition byte_memmove (mem : list Byte.byte) (d s n : Z)
  : option (list Byte.byte) :=
  byte_memcpy mem d mem s n.

Definition byte_store : Store (list Byte.byte) (list Byte.byte) := {|
  ptr := byte_ptr;
  Swap := byte_Swap;
  memcpy := byte_memcpy;
  memmove := byte_memmove;
  NULL := []
|}.

(** ** The toolbox functions of the sorter *)

Section Toolbox.
Context {Arr Val : Type} {ST : Store Arr Val}.


(* 63 -> 32, 64 -> 64, etc. *)
Definition FloorPowerOfTwo (value : Z) : Z :=
  let x := value in
  let x := Z.lor x (Z.shiftr x 1) in
  let x := Z.lor x (Z.shiftr x 2) in
  let x := Z.lor x (Z.shiftr x 4) in
  let x := Z.lor x (Z.shiftr x 8) in
  let x := Z.lor x (Z.shiftr x 16) in
  let x := Z.lor x (Z.shiftr x 32) in
  x -% Z.shiftr x 1.

(* the [while (start < end)] loop of BinaryFirst *)
Fixpoint BinaryFirst_while (fuel : nat) (array : Arr) (value : option Val)
    (size : Z) (compare : Comparison Val) (start end' : Z) : outcome Z :=
  if start <? end' then
    match fuel with
    | O => OutOfFuel
    | S fuel' =>
        let mid := start +% (end' -% start) / 2 in
        c <- call compare (ptr array (size *% mid)) value ;;
        if c <? 0
        then BinaryFirst_while fuel' array value size compare (mid +% 1) end'
        else BinaryFirst_while fuel' array value size compare start mid
    end
  else Done start.

Definition BinaryFirst (fuel : nat) (array : Arr) (value : option Val)
    (size : Z) (range : Range) (compare : Comparison Val) : outcome Z :=
  let start0 := start range in
  let end0 := end_ range -% 1 in
  if start range >=? end_ range then Done (start range) else
  s <- BinaryFirst_while fuel array value size compare start0 end0 ;;
  if s =? end_ range -% 1 then
    c <- call compare (ptr array (size *% s)) value ;;
    if c <? 0 then Done (s +% 1) else Done s
  else Done s.

Fixpoint BinaryLast_while (fuel : nat) (array : Arr) (value : option Val)
    (size : Z) (compare : Comparison Val) (start end' : Z) : outcome Z :=
  if start <? end' then
    match fuel with
    | O => OutOfFuel
    | S fuel' =>
        let mid := start +% (end' -% start) / 2 in
        c <- call compare value (ptr array (size *% mid)) ;;
        if c >=? 0
        then BinaryLast_while fuel' array value size compare (mid +% 1) end'
        else BinaryLast_while fuel' array value size compare start mid
    end
  else Done start.

Definition BinaryLast (fuel : nat) (array : Arr) (value : option Val)
    (size : Z) (range : Range) (compare : Comparison Val) : outcome Z :=
  let start0 := start range in
  let end0 := end_ range -% 1 in
  if start range >=? end_ range then Done (end_ range) else
  s <- BinaryLast_while fuel array value size compare start0 end0 ;;
  if s =? end_ range -% 1 then
    c <- call compare value (ptr array (size *% s)) ;;
    if c >=? 0 then Done (s +% 1) else Done s
  else Done s.

(* [Range_length(range) / unique]; dividing by zero is undefined *)
Definition skip_of (range : Range) (unique : Z) : outcome Z :=
  if unique =? 0 then Undefined
  else Done (Max (Range_length range / unique) 1).

Fixpoint FindFirstForward_for (fuel : nat) (array : Arr) (value : option Val)
    (size : Z) (range : Range) (compare : Comparison Val) (skip index : Z)
    : outcome Z :=
  c <- call compare (ptr array (size *% (index -% 1))) value ;;
  if c <? 0 then
    if index >=? end_ range -% skip
    then BinaryFirst fuel array value size (Range_new index (end_ range)) compare
    else
      match fuel with
      | O => OutOfFuel
      | S fuel' =>
          FindFirstForward_for fuel' array value size range compare skip
            (index +% skip)
      end
  else BinaryFirst fuel array value size (Range_new (index -% skip) index) compare.

Definition FindFirstForward (fuel : nat) (array : Arr) (value : option Val)
    (size : Z) (range : Range) (compare : Comparison Val) (unique : Z)
    : outcome Z :=
  if Range_length range =? 0 then Done (start range) else
  skip <- skip_of range unique ;;
  FindFirstForward_for fuel array value size range compare skip
    (start range +% skip).

Fixpoint FindLastForward_for (fuel : nat) (array : Arr) (value : option Val)
    (size : Z) (range : Range) (compare : Comparison Val) (skip index : Z)
    : outcome Z :=
  c <- call compare value (ptr array (size *% (index -% 1))) ;;
  if c >=? 0 then
    if index >=? end_ range -% skip
    then BinaryLast fuel array value size (Range_new index (end_ range)) compare
    else
      match fuel with
      | O => OutOfFuel
      | S fuel' =>
          FindLastForward_for fuel' array value size range compare skip
            (index +% skip)
      end
  else BinaryLast fuel array value size (Range_new (index -% skip) index) compare.

Definition FindLastForward (fuel : nat) (array : Arr) (value : option Val)
    (size : Z) (range : Range) (compare : Comparison Val) (unique : Z)
    : outcome Z :=
  if Range_length range =? 0 then Done (start range) else
  skip <- skip_of range unique ;;
  FindLastForward_for fuel array value size range compare skip
    (start range +% skip).

Fixpoint FindFirstBackward_for (fuel : nat) (array : Arr) (value : option Val)
    (size : Z) (range : Range) (compare : Comparison Val) (skip index : Z)
    : outcome Z :=
  let stop := BinaryFirst fuel array value size
                (Range_new index (index +% skip)) compare in
  if index >? start range then
    c <- call compare (ptr array (size *% (index -% 1))) value ;;
    if c >=? 0 then
      if index <? start range +% skip
      then BinaryFirst fuel array value size (Range_new (start range) index) compare
      else
        match fuel with
        | O => OutOfFuel
        | S fuel' =>
            FindFirstBackward_for fuel' array value size range compare skip
              (index -% skip)
        end
    else stop
  else stop.

Definition FindFirstBackward (fuel : nat) (array : Arr) (value : option Val)
    (size : Z) (range : Range) (compare : Comparison Val) (unique : Z)
    : outcome Z :=
  if Range_length range =? 0 then Done (start range) else
  skip <- skip_of range unique ;;
  FindFirstBackward_for fuel array value size range compare skip
    (end_ range -% skip).

Fixpoint FindLastBackward_for (fuel : nat) (array : Arr) (value : option Val)
    (size : Z) (range : Range) (compare : Comparison Val) (skip index : Z)
    : outcome Z :=
  let stop := BinaryLast fuel array value size
                (Range_new index (index +% skip)) compare in
  if index >? start range then
    c <- call compare value (ptr array (size *% (index -% 1))) ;;
    if c <? 0 then
      if index <? start range +% skip
      then BinaryLast fuel array value size (Range_new (start range) index) compare
      else
        match fuel with
        | O => OutOfFuel
        | S fuel' =>
            FindLastBackward_for fuel' array value size range compare skip
              (index -% skip)
        end
    else stop
  else stop.

Definition FindLastBackward (fuel : nat) (array : Arr) (value : option Val)
    (size : Z) (range : Range) (compare : Comparison Val) (unique : Z)
    : outcome Z :=
  if Range_length range =? 0 then Done (start range) else
  skip <- skip_of range unique ;;
  FindLastBackward_for fuel array value size range compare skip
    (end_ range -% skip).

(* the inner [for (j = i; j > range.start && ...; j--)] of InsertionSort *)
Fixpoint InsertionSort_inner (fuel : nat) (array : Arr) (size : Z)
    (range : Range) (compare : Comparison Val) (j : Z) : outcome Arr :=
  if j >? start range then
    c <- call compare (ptr array (size *% j)) (ptr array (size *% (j -% 1))) ;;
    if c <? 0 then
      match fuel with
      | O => OutOfFuel
      | S fuel' =>
          array' <- lift (Swap array (size *% j) (size *% (j -% 1)) size) ;;
          InsertionSort_inner fuel' array' size range compare (j -% 1)
      end
    else Done array
  else Done array.

Fixpoint InsertionSort_outer (fuel inner : nat) (array : Arr) (size : Z)
    (range : Range) (compare : Comparison Val) (i : Z) : outcome Arr :=
  if i <? end_ range then
    match fuel with
    | O => OutOfFuel
    | S fuel' =>
        array' <- InsertionSort_inner inner array size range compare i ;;
        InsertionSort_outer fuel' inner array' size range compare (i +% 1)
    end
  else Done array.

(* n^2 sorting algorithm used to sort tiny chunks of the full array *)
Definition InsertionSort (fuel : nat) (array : Arr) (size : Z)
    (range : Range) (compare : Comparison Val) : outcome Arr :=
  InsertionSort_outer fuel fuel array size range compare (start range +% 1).

Fixpoint Reverse_for (fuel : nat) (array : Arr) (size : Z) (range : Range)
    (index : Z) : outcome Arr :=
  if index >? 0 then
    match fuel with
    | O => OutOfFuel
    | S fuel' =>
        array' <- lift (Swap array (size *% (start range +% index -% 1))
                          (size *% (end_ range -% index)) size) ;;
        Reverse_for fuel' array' size range (index -% 1)
    end
  else Done array.

(* reverse a range of values within the array *)
Definition Reverse (fuel : nat) (array : Arr) (size : Z) (range : Range)
    : outcome Arr :=
  Reverse_for fuel array size range (Range_length range / 2).

Fixpoint BlockSwap_for (fuel : nat) (array : Arr) (size start1 start2
    block_size index : Z) : outcome Arr :=
  if index <? block_size then
    match fuel with
    | O => OutOfFuel
    | S fuel' =>
        array' <- lift (Swap array (size *% (start1 +% index))
                          (size *% (start2 +% index)) size) ;;
        BlockSwap_for fuel' array' size start1 start2 block_size (index +% 1)
    end
  else Done array.

(* swap a series of values in the array *)
Definition BlockSwap (fuel : nat) (array : Arr) (size start1 start2
    block_size : Z) : outcome Arr :=
  BlockSwap_for fuel array size start1 start2 block_size 0.

(* rotate the values in an array ([0 1 2 3] becomes [1 2 3 0] if we rotate by 1) *)
(* this assumes that 0 <= amount <= range.length() *)
Definition Rotate (fuel : nat) (array : Arr) (size amount : Z) (range : Range)
    (cache : Arr) (cache_size : Z) : outcome (Arr * Arr) :=
  if Range_length range =? 0 then Done (array, cache) else
  let split := start range +% amount in
  let range1 := Range_new (start range) split in
  let range2 := Range_new split (end_ range) in
  let reversals :=
    array1 <- Reverse fuel array size range1 ;;
    array2 <- Reverse fuel array1 size range2 ;;
    array3 <- Reverse fuel array2 size range ;;
    Done (array3, cache) in
  if Range_length range1 <=? Range_length range2 then
    if Range_length range1 <=? cache_size then
      cache1 <- lift (memcpy cache 0 array (size *% start range1)
                        (Range_length range1 *% size)) ;;
      array1 <- lift (memmove array (size *% start range1)
                        (size *% start range2) (Range_length range2 *% size)) ;;
      array2 <- lift (memcpy array1
                        (size *% (start range1 +% Range_length range2))
                        cache1 0 (Range_length range1 *% size)) ;;
      Done (array2, cache1)
    else reversals
  else
    if Range_length range2 <=? cache_size then
      cache1 <- lift (memcpy cache 0 array (size *% start range2)
                        (Range_length range2 *% size)) ;;
      array1 <- lift (memmove array
                        (size *% (end_ range2 -% Range_length range1))
                        (size *% start range1) (Range_length range1 *% size)) ;;
      array2 <- lift (memcpy array1 (size *% start range1) cache1 0
                        (Range_length range2 *% size)) ;;
      Done (array2, cache1)
    else reversals.

(* calculate how to scale the index value to the range within the array *)
Record WikiIterator : Type := {
  size : Z; power_of_two : Z;
  numerator : Z; decimal : Z;
  denominator : Z; decimal_step : Z; numerator_step : Z
}.

Definition WikiIterator_begin (me : WikiIterator) : WikiIterator :=
  {| size := size me; power_of_two := power_of_two me;
     numerator := 0; decimal := 0;
     denominator := denominator me; decimal_step := decimal_step me;
     numerator_step := numerator_step me |}.

Definition WikiIterator_nextRange (me : WikiIterator) : Range * WikiIterator :=
  let start0 := decimal me in
  let decimal1 := decimal me +% decimal_step me in
  let numerator1 := numerator me +% numerator_step me in
  let carry := numerator1 >=? denominator me in
  let numerator2 := if carry then numerator1 -% denominator me else numerator1 in
  let decimal2 := if carry then decimal1 +% 1 else decimal1 in
  (Range_new start0 decimal2,
   {| size := size me; power_of_two := power_of_two me;
      numerator := numerator2; decimal := decimal2;
      denominator := denominator me; decimal_step := decimal_step me;
      numerator_step := numerator_step me |}).

Definition WikiIterator_finished (me : WikiIterator) : bool :=
  decimal me >=? size me.

Definition WikiIterator_nextLevel (me : WikiIterator) : bool * WikiIterator :=
  let decimal_step1 := decimal_step me +% decimal_step me in
  let numerator_step1 := numerator_step me +% numerator_step me in
  let carry := numerator_step1 >=? denominator me in
  let numerator_step2 :=
    if carry then numerator_step1 -% denominator me else numerator_step1 in
  let decimal_step2 := if carry then decimal_step1 +% 1 else decimal_step1 in
  (decimal_step2 <? size me,
   {| size := size me; power_of_two := power_of_two me;
      numerator := numerator me; decimal := decimal me;
      denominator := denominator me; decimal_step := decimal_step2;
      numerator_step := numerator_step2 |}).

Definition WikiIterator_length (me : WikiIterator) : Z := decimal_step me.

(* the two divisions are undefined when the divisor is zero *)
Definition WikiIterator_new (size2 min_level : Z) : outcome WikiIterator :=
  let p := FloorPowerOfTwo size2 in
  if min_level =? 0 then Undefined else
  let d := p / min_level in
  if d =? 0 then Undefined else
  Done (WikiIterator_begin
          {| size := size2; power_of_two := p;
             numerator := 0; decimal := 0;
             denominator := d; decimal_step := size2 / d;
             numerator_step := size2 mod d |}).

(* merge two ranges from one array and save the results into a different array;
   the pointers are byte offsets, [into] is the object written to and
   [insert_index] the offset of the destination in it *)
Fixpoint MergeInto_while (fuel : nat) (from : Arr) (size : Z)
    (compare : Comparison Val) (into : Arr)
    (A_index B_index A_last B_last insert_index : Z) : outcome Arr :=
  match fuel with
  | O => OutOfFuel
  | S fuel' =>
      c <- call compare (ptr from B_index) (ptr from A_index) ;;
      if c >=? 0 then
        into1 <- lift (memcpy into insert_index from A_index size) ;;
        let A_index := A_index +% size in
        let insert_index := insert_index +% size in
        if A_index =? A_last then
          (* copy the remainder of B into the final array *)
          lift (memcpy into1 insert_index from B_index (B_last -% B_index))
        else MergeInto_while fuel' from size compare into1
               A_index B_index A_last B_last insert_index
      else
        into1 <- lift (memcpy into insert_index from B_index size) ;;
        let B_index := B_index +% size in
        let insert_index := insert_index +% size in
        if B_index =? B_last then
          (* copy the remainder of A into the final array *)
          lift (memcpy into1 insert_index from A_index (A_last -% A_index))
        else MergeInto_while fuel' from size compare into1
               A_index B_index A_last B_last insert_index
  end.

Definition MergeInto (fuel : nat) (from : Arr) (size : Z) (A B : Range)
    (compare : Comparison Val) (into : Arr) (into_offset : Z) : outcome Arr :=
  MergeInto_while fuel from size compare into
    (size *% start A) (size *% start B) (size *% end_ A) (size *% end_ B)
    into_offset.

(* the loop of MergeExternal: [A_index] runs in the cache, [B_index] and
   [insert_index] in the array; it yields the array and the two offsets
   the final memcpy needs *)
Fixpoint MergeExternal_while (fuel : nat) (array : Arr) (size : Z)
    (compare : Comparison Val) (cache : Arr)
    (A_index B_index A_last B_last insert_index : Z)
    : outcome (Arr * Z * Z) :=
  match fuel with
  | O => OutOfFuel
  | S fuel' =>
      c <- call compare (ptr array B_index) (ptr cache A_index) ;;
      if c >=? 0 then
        array1 <- lift (memcpy array insert_index cache A_index size) ;;
        let A_index := A_index +% size in
        let insert_index := insert_index +% size in
        if A_index =? A_last then Done (array1, A_index, insert_index)
        else MergeExternal_while fuel' array1 size compare cache
               A_index B_index A_last B_last insert_index
      else
        array1 <- lift (memmove array insert_index B_index size) ;;
        let B_index := B_index +% size in
        let insert_index := insert_index +% size in
        if B_index =? B_last then Done (array1, A_index, insert_index)
        else MergeExternal_while fuel' array1 size compare cache
               A_index B_index A_last B_last insert_index
  end.

(* merge operation using an external buffer *)
Definition MergeExternal (fuel : nat) (array : Arr) (size : Z) (A B : Range)
    (compare : Comparison Val) (cache : Arr) : outcome Arr :=
  let A_index := 0 in
  let B_index := size *% start B in
  let insert_index := size *% start A in
  let A_last := size *% Range_length A in
  let B_last := size *% end_ B in
  '(array1, A_index, insert_index) <-
    (if (Range_length B >? 0) && (Range_length A >? 0)
     then MergeExternal_while fuel array size compare cache
            A_index B_index A_last B_last insert_index
     else Done (array, A_index, insert_index)) ;;
  (* copy the remainder of A into the final array *)
  lift (memcpy array1 insert_index cache A_index (A_last -% A_index)).

Fixpoint MergeInternal_while (fuel : nat) (array : Arr) (size : Z)
    (A B : Range) (compare : Comparison Val) (buffer : Range)
    (A_count B_count insert : Z) : outcome (Arr * Z * Z) :=
  match fuel with
  | O => OutOfFuel
  | S fuel' =>
      c <- call compare (ptr array (size *% (start B +% B_count)))
                        (ptr array (size *% (start buffer +% A_count))) ;;
      if c >=? 0 then
        array1 <- lift (Swap array (size *% (start A +% insert))
                          (size *% (start buffer +% A_count)) size) ;;
        let A_count := A_count +% 1 in
        let insert := insert +% 1 in
        if A_count >=? Range_length A then Done (array1, A_count, insert)
        else MergeInternal_while fuel' array1 size A B compare buffer
               A_count B_count insert
      else
        array1 <- lift (Swap array (size *% (start A +% insert))
                          (size *% (start B +% B_count)) size) ;;
        let B_count := B_count +% 1 in
        let insert := insert +% 1 in
        if B_count >=? Range_length B then Done (array1, A_count, insert)
        else MergeInternal_while fuel' array1 size A B compare buffer
               A_count B_count insert
  end.

(* merge operation using an internal buffer *)
Definition MergeInternal (fuel : nat) (array : Arr) (size : Z) (A B : Range)
    (compare : Comparison Val) (buffer : Range) : outcome Arr :=
  '(array1, A_count, insert) <-
    (if (Range_length B >? 0) && (Range_length A >? 0)
     then MergeInternal_while fuel array size A B compare buffer 0 0 0
     else Done (array, 0, 0)) ;;
  (* swap the remainder of A into the final array *)
  BlockSwap fuel array1 size (start buffer +% A_count) (start A +% insert)
    (Range_length A -% A_count).

Fixpoint MergeInPlace_while (fuel : nat) (array : Arr) (size : Z)
    (A B : Range) (compare : Comparison Val) (cache : Arr) (cache_size : Z)
    : outcome (Arr * Arr) :=
  match fuel with
  | O => OutOfFuel
  | S fuel' =>
      (* find the first place in B where the first item in A needs to be inserted *)
      mid <- BinaryFirst fuel array (ptr array (size *% start A)) size B compare ;;
      (* rotate A into place *)
      let amount := mid -% end_ A in
      '(array1, cache1) <- Rotate fuel array size (Range_length A)
                             (Range_new (start A) mid) cache cache_size ;;
      if end_ B =? mid then Done (array1, cache1) else
      (* calculate the new A and B ranges *)
      let B := Range_new mid (end_ B) in
      let A := Range_new (start A +% amount) (start B) in
      s <- BinaryLast fuel array1 (ptr array1 (size *% start A)) size A compare ;;
      let A := Range_new s (end_ A) in
      if Range_length A =? 0 then Done (array1, cache1)
      else MergeInPlace_while fuel' array1 size A B compare cache1 cache_size
  end.

(* merge operation without a buffer *)
Definition MergeInPlace (fuel : nat) (array : Arr) (size : Z) (A B : Range)
    (compare : Comparison Val) (cache : Arr) (cache_size : Z)
    : outcome (Arr * Arr) :=
  if (Range_length A =? 0) || (Range_length B =? 0) then Done (array, cache)
  else MergeInPlace_while fuel array size A B compare cache cache_size.
End Toolbox.

(** ** The sorter *)

(* the book-keeping of one internal buffer: [pull[k]] *)
Record Pull : Type := {
  pull_from : Z; pull_to : Z; pull_count : Z; pull_range : Range
}.

(* what the search for internal buffers keeps between (A, B) pairs *)
Record Buffers : Type := {
  buffer1 : Range; buffer2 : Range;
  find : Z; find_separately : bool;
  pull_index : Z; pull0 : Pull; pull1 : Pull
}.

(* the ranges the block rolling loop keeps *)
Record Rolling : Type := {
  blockA : Range; blockB : Range; lastA : Range; lastB : Range; indexA : Z
}.

(* [#define CACHE_SIZE 0], with DYNAMIC_CACHE false *)
Definition CACHE_SIZE : Z := 0.

(* [sizeof(Test)]: two [size_t] fields, VERIFY being true *)
Definition sizeof_Test : Z := 16.

(* the comparator sequences of the sorting networks *)
Definition network8 : list (Z * Z) :=
  [(0,1);(2,3);(4,5);(6,7);(0,2);(1,3);(4,6);(5,7);(1,2);(5,6);(0,4);(3,7);
   (1,5);(2,6);(1,4);(3,6);(2,4);(3,5);(3,4)].
Definition network7 : list (Z * Z) :=
  [(1,2);(3,4);(5,6);(0,2);(3,5);(4,6);(0,1);(4,5);(2,6);(0,4);(1,5);(0,3);
   (2,5);(1,3);(2,4);(2,3)].
Definition network6 : list (Z * Z) :=
  [(1,2);(4,5);(0,2);(3,5);(0,1);(3,4);(2,5);(0,3);(1,4);(2,4);(1,3);(2,3)].
Definition network5 : list (Z * Z) :=
  [(0,1);(3,4);(2,4);(2,3);(1,4);(0,3);(0,2);(1,3);(1,2)].
Definition network4 : list (Z * Z) :=
  [(0,1);(2,3);(0,2);(1,3);(1,2)].

Definition network_of (length : Z) : list (Z * Z) :=
  if length =? 8 then network8
  else if length =? 7 then network7
  else if length =? 6 then network6
  else if length =? 5 then network5
  else if length =? 4 then network4
  else [].

(* [uint8_t order[]]: reading and swapping two of its eight bytes *)
Definition order_get (order : list Z) (x : Z) : Z := nth (Z.to_nat x) order 0.

Fixpoint order_set (order : list Z) (i : nat) (v : Z) : list Z :=
  match order, i with
  | [], _ => []
  | _ :: l, O => v :: l
  | y :: l, S i' => y :: order_set l i' v
  end.

Definition order_swap (order : list Z) (x y : Z) : list Z :=
  order_set (order_set order (Z.to_nat x) (order_get order y))
    (Z.to_nat y) (order_get order x).

Definition set_pull (s : Buffers) (p : Pull) : Buffers :=
  if pull_index s =? 0 then
    {| buffer1 := buffer1 s; buffer2 := buffer2 s; find := find s;
       find_separately := find_separately s; pull_index := pull_index s;
       pull0 := p; pull1 := pull1 s |}
  else
    {| buffer1 := buffer1 s; buffer2 := buffer2 s; find := find s;
       find_separately := find_separately s; pull_index := pull_index s;
       pull0 := pull0 s; pull1 := p |}.

Definition set_pull_index (s : Buffers) (i : Z) : Buffers :=
  {| buffer1 := buffer1 s; buffer2 := buffer2 s; find := find s;
     find_separately := find_separately s; pull_index := i;
     pull0 := pull0 s; pull1 := pull1 s |}.

Definition set_buffer1 (s : Buffers) (r : Range) : Buffers :=
  {| buffer1 := r; buffer2 := buffer2 s; find := find s;
     find_separately := find_separately s; pull_index := pull_index s;
     pull0 := pull0 s; pull1 := pull1 s |}.

Definition set_buffer2 (s : Buffers) (r : Range) : Buffers :=
  {| buffer1 := buffer1 s; buffer2 := r; find := find s;
     find_separately := find_separately s; pull_index := pull_index s;
     pull0 := pull0 s; pull1 := pull1 s |}.

Definition set_find (s : Buffers) (f : Z) : Buffers :=
  {| buffer1 := buffer1 s; buffer2 := buffer2 s; find := f;
     find_separately := find_separately s; pull_index := pull_index s;
     pull0 := pull0 s; pull1 := pull1 s |}.

Definition set_find_separately (s : Buffers) (b : bool) : Buffers :=
  {| buffer1 := buffer1 s; buffer2 := buffer2 s; find := find s;
     find_separately := b; pull_index := pull_index s;
     pull0 := pull0 s; pull1 := pull1 s |}.

(* [pull[0].range.end -= pull[1].count] *)
Definition shrink_pull0 (s : Buffers) : Buffers :=
  let p := pull0 s in
  {| buffer1 := buffer1 s; buffer2 := buffer2 s; find := find s;
     find_separately := find_separately s; pull_index := pull_index s;
     pull0 := {| pull_from := pull_from p; pull_to := pull_to p;
                 pull_count := pull_count p;
                 pull_range := Range_new (start (pull_range p))
                                 (end_ (pull_range p) -% pull_count (pull1 s)) |};
     pull1 := pull1 s |}.

(* the PULL macro *)
Definition PULL (s : Buffers) (A B : Range) (count index to : Z) : Buffers :=
  set_pull s {| pull_range := Range_new (start A) (end_ B);
                pull_count := count; pull_from := index; pull_to := to |}.

Definition set_pull_from (p : Pull) (from : Z) : Pull :=
  {| pull_from := from; pull_to := pull_to p; pull_count := pull_count p;
     pull_range := pull_range p |}.

(** ** The square root

    [sqrt] is the function of the C library on [double]: a [size_t]
    argument is converted to the nearest double, the tie going to the
    even one, the root is the double nearest to the real root (IEEE 754,
    binary64: 53 bits of precision), and the conversion of the result
    back to [size_t] cuts the fraction.  The doubles and their root are
    those of the standard library's [SpecFloat]. *)

(* (double) x for a size_t x *)
Definition double_of_size_t (x : Z) : SpecFloat.spec_float :=
  SpecFloat.binary_normalize 53 1024 x 0 false.

(* (size_t) f: undefined when the whole part of [f] is not a size_t *)
Definition size_t_of_double (f : SpecFloat.spec_float) : option Z :=
  match f with
  | SpecFloat.S754_zero _ => Some 0
  | SpecFloat.S754_finite s m e =>
      let whole := Z.shiftl (Z.pos m) e in
      if whole =? 0 then Some 0
      else if s then None
      else if whole <? SIZE_MAX1 then Some whole else None
  | _ => None
  end.

(* size_t root = sqrt(x), for a size_t x *)
Definition sqrt_size_t (x : Z) : option Z :=
  size_t_of_double (SpecFloat.SFsqrt 53 1024 (double_of_size_t x)).

Section Sorter.
Context {Arr Val : Type} {ST : Store Arr Val}.

(* the NEW_SWAP macro of the sorting networks *)
Definition NEW_SWAP (array : Arr) (size : Z) (range : Range)
    (compare : Comparison Val) (order : list Z) (x y : Z)
    : outcome (Arr * list Z) :=
  let swap :=
    array1 <- lift (Swap array (size *% (start range +% x))
                      (size *% (start range +% y)) size) ;;
    Done (array1, order_swap order x y) in
  c <- call compare (ptr array (size *% (start range +% y)))
                    (ptr array (size *% (start range +% x))) ;;
  if c <? 0 then swap
  else if order_get order x >? order_get order y then
    c' <- call compare (ptr array (size *% (start range +% x)))
                       (ptr array (size *% (start range +% y))) ;;
    if c' >=? 0 then swap else Done (array, order)
  else Done (array, order).

Fixpoint run_network (net : list (Z * Z)) (array : Arr) (size : Z)
    (range : Range) (compare : Comparison Val) (order : list Z)
    : outcome (Arr * list Z) :=
  match net with
  | [] => Done (array, order)
  | (x, y) :: net' =>
      '(array1, order1) <- NEW_SWAP array size range compare order x y ;;
      run_network net' array1 size range compare order1
  end.

(* sort groups of 4-8 items at a time using an unstable sorting network,
   but keep track of the original item orders to force it to be stable *)
Fixpoint sort_groups (fuel : nat) (array : Arr) (size : Z)
    (compare : Comparison Val) (iterator : WikiIterator)
    : outcome (Arr * WikiIterator) :=
  if WikiIterator_finished iterator then Done (array, iterator) else
  match fuel with
  | O => OutOfFuel
  | S fuel' =>
      let order := [0; 1; 2; 3; 4; 5; 6; 7] in
      let '(range, iterator1) := WikiIterator_nextRange iterator in
      '(array1, _) <- run_network (network_of (Range_length range))
                        array size range compare order ;;
      sort_groups fuel' array1 size compare iterator1
  end.

(* if the array is of len 0, 1, 2, or 3, just sort them like so *)
Definition sort_small (array : Arr) (len size : Z) (compare : Comparison Val)
    : outcome Arr :=
  if len =? 3 then
    (* hard-coded insertion sort *)
    c <- call compare (ptr array (size *% 1)) (ptr array (size *% 0)) ;;
    array1 <- (if c <? 0 then lift (Swap array (size *% 0) (size *% 1) size)
               else Done array) ;;
    c <- call compare (ptr array1 (size *% 2)) (ptr array1 (size *% 1)) ;;
    if c <? 0 then
      array2 <- lift (Swap array1 (size *% 1) (size *% 2) size) ;;
      c <- call compare (ptr array2 (size *% 1)) (ptr array2 (size *% 0)) ;;
      if c <? 0 then lift (Swap array2 (size *% 0) (size *% 1) size)
      else Done array2
    else Done array1
  else if len =? 2 then
    (* swap the items if they're out of order *)
    c <- call compare (ptr array (size *% 1)) (ptr array (size *% 0)) ;;
    if c <? 0 then lift (Swap array (size *% 0) (size *% 1) size)
    else Done array
  else Done array.

(* the branch that merges four subarrays through the cache *)
Fixpoint merge_four (fuel : nat) (array : Arr) (size : Z)
    (compare : Comparison Val) (cache : Arr) (iterator : WikiIterator)
    : outcome (Arr * Arr * WikiIterator) :=
  if WikiIterator_finished iterator then Done (array, cache, iterator) else
  match fuel with
  | O => OutOfFuel
  | S fuel' =>
      let '(A1, it) := WikiIterator_nextRange iterator in
      let '(B1, it) := WikiIterator_nextRange it in
      let '(A2, it) := WikiIterator_nextRange it in
      let '(B2, it) := WikiIterator_nextRange it in
      (* merge A1 and B1 into the cache; [None] is the [continue] *)
      c <- call compare (ptr array (size *% (end_ B1 -% 1)))
                        (ptr array (size *% start A1)) ;;
      first <-
        (if c <? 0 then
           cache1 <- lift (memcpy cache (size *% Range_length B1) array
                             (size *% start A1) (Range_length A1 *% size)) ;;
           cache2 <- lift (memcpy cache1 0 array (size *% start B1)
                             (Range_length B1 *% size)) ;;
           Done (Some cache2)
         else
           c <- call compare (ptr array (size *% start B1))
                             (ptr array (size *% (end_ A1 -% 1))) ;;
           if c <? 0 then
             cache1 <- MergeInto fuel array size A1 B1 compare cache 0 ;;
             Done (Some cache1)
           else
             c1 <- call compare (ptr array (size *% start B2))
                                (ptr array (size *% (end_ A2 -% 1))) ;;
             ordered <-
               (if c1 >=? 0 then
                  c2 <- call compare (ptr array (size *% start A2))
                                     (ptr array (size *% (end_ B1 -% 1))) ;;
                  Done (c2 >=? 0)
                else Done false) ;;
             if (ordered : bool) then Done None else
             cache1 <- lift (memcpy cache 0 array (size *% start A1)
                               (Range_length A1 *% size)) ;;
             cache2 <- lift (memcpy cache1 (size *% Range_length A1) array
                               (size *% start B1) (Range_length B1 *% size)) ;;
             Done (Some cache2)) ;;
      match first with
      | None => merge_four fuel' array size compare cache it
      | Some cache =>
          let A1 := Range_new (start A1) (end_ B1) in
          (* merge A2 and B2 into the cache *)
          c <- call compare (ptr array (size *% (end_ B2 -% 1)))
                            (ptr array (size *% start A2)) ;;
          cache <-
            (if c <? 0 then
               cache1 <- lift (memcpy cache
                                 (size *% (Range_length A1 +% Range_length B2))
                                 array (size *% start A2)
                                 (Range_length A2 *% size)) ;;
               lift (memcpy cache1 (size *% Range_length A1) array
                       (size *% start B2) (Range_length B2 *% size))
             else
               c <- call compare (ptr array (size *% start B2))
                                 (ptr array (size *% (end_ A2 -% 1))) ;;
               if negb (c =? 0) then
                 MergeInto fuel array size A2 B2 compare cache
                   (size *% Range_length A1)
               else
                 cache1 <- lift (memcpy cache (size *% Range_length A1) array
                                   (size *% start A2)
                                   (Range_length A2 *% size)) ;;
                 lift (memcpy cache1
                         (size *% (Range_length A1 +% Range_length A2))
                         array (size *% start B2)
                         (Range_length B2 *% size))) ;;
          let A2 := Range_new (start A2) (end_ B2) in
          (* merge A1 and A2 from the cache into the array *)
          let A3 := Range_new 0 (Range_length A1) in
          let B3 := Range_new (Range_length A1)
                      (Range_length A1 +% Range_length A2) in
          c <- call compare (ptr cache (size *% (end_ B3 -% 1)))
                            (ptr cache (size *% start A3)) ;;
          array <-
            (if c <? 0 then
               array1 <- lift (memcpy array
                                 (size *% (start A1 +% Range_length A2))
                                 cache (size *% start A3)
                                 (Range_length A3 *% size)) ;;
               lift (memcpy array1 (size *% start A1) cache
                       (size *% start B3) (Range_length B3 *% size))
             else
               c <- call compare (ptr cache (size *% start B3))
                                 (ptr cache (size *% (end_ A3 -% 1))) ;;
               if c <? 0 then
                 MergeInto fuel cache size A3 B3 compare array
                   (size *% start A1)
               else
                 array1 <- lift (memcpy array (size *% start A1) cache
                                   (size *% start A3)
                                   (Range_length A3 *% size)) ;;
                 lift (memcpy array1
                         (size *% (start A1 +% Range_length A1)) cache
                         (size *% start B3) (Range_length B3 *% size))) ;;
          merge_four fuel' array size compare cache it
      end
  end.

(* the branch that merges two subarrays through the cache *)
Fixpoint merge_two (fuel : nat) (array : Arr) (size : Z)
    (compare : Comparison Val) (cache : Arr) (cache_size : Z)
    (iterator : WikiIterator) : outcome (Arr * Arr * WikiIterator) :=
  if WikiIterator_finished iterator then Done (array, cache, iterator) else
  match fuel with
  | O => OutOfFuel
  | S fuel' =>
      let '(A, it) := WikiIterator_nextRange iterator in
      let '(B, it) := WikiIterator_nextRange it in
      c <- call compare (ptr array (size *% (end_ B -% 1)))
                        (ptr array (size *% start A)) ;;
      '(array1, cache1) <-
        (if c <? 0 then
           (* the two ranges are in reverse order, so a simple rotation should fix it *)
           Rotate fuel array size (Range_length A)
             (Range_new (start A) (end_ B)) cache cache_size
         else
           c <- call compare (ptr array (size *% start B))
                             (ptr array (size *% (end_ A -% 1))) ;;
           if c <? 0 then
             cache1 <- lift (memcpy cache 0 array (size *% start A)
                               (Range_length A *% size)) ;;
             array1 <- MergeExternal fuel array size A B compare cache1 ;;
             Done (array1, cache1)
           else Done (array, cache)) ;;
      merge_two fuel' array1 size compare cache1 cache_size it
  end.

(* check A for the number of unique values we need to fill an internal
   buffer; yields [last] and [count] as the loop leaves them *)
Fixpoint count_A (fuel : nat) (array : Arr) (size : Z)
    (compare : Comparison Val) (A : Range) (find last count : Z)
    : outcome (Z * Z) :=
  if count <? find then
    index <- FindLastForward fuel array (ptr array (size *% last)) size
               (Range_new (last +% 1) (end_ A)) compare (find -% count) ;;
    if index =? end_ A then Done (last, count)
    else
      match fuel with
      | O => OutOfFuel
      | S fuel' => count_A fuel' array size compare A find index (count +% 1)
      end
  else Done (last, count).

(* check B for the number of unique values we need to fill an internal buffer *)
Fixpoint count_B (fuel : nat) (array : Arr) (size : Z)
    (compare : Comparison Val) (B : Range) (find last count : Z)
    : outcome (Z * Z) :=
  if count <? find then
    index <- FindFirstBackward fuel array (ptr array (size *% last)) size
               (Range_new (start B) last) compare (find -% count) ;;
    if index =? start B then Done (last, count)
    else
      match fuel with
      | O => OutOfFuel
      | S fuel' =>
          count_B fuel' array size compare B find (index -% 1) (count +% 1)
      end
  else Done (last, count).

(* what is done with the values counted in A; the boolean is the [break] *)
Definition found_in_A (s : Buffers) (A B : Range)
    (block_size buffer_size cache_size count index : Z) : Buffers * bool :=
  if count >=? buffer_size then
    let s := PULL s A B count index (start A) in
    let s := set_pull_index s 1 in
    if count =? buffer_size +% buffer_size then
      (set_buffer2
         (set_buffer1 s (Range_new (start A) (start A +% buffer_size)))
         (Range_new (start A +% buffer_size) (start A +% count)), true)
    else if find s =? buffer_size +% buffer_size then
      (set_find (set_buffer1 s (Range_new (start A) (start A +% count)))
         buffer_size, false)
    else if block_size <=? cache_size then
      (set_buffer1 s (Range_new (start A) (start A +% count)), true)
    else if find_separately s then
      (set_find_separately
         (set_buffer1 s (Range_new (start A) (start A +% count))) false, false)
    else
      (set_buffer2 s (Range_new (start A) (start A +% count)), true)
  else if (pull_index s =? 0) && (count >? Range_length (buffer1 s)) then
    (* keep track of the largest buffer we were able to find *)
    (PULL (set_buffer1 s (Range_new (start A) (start A +% count)))
       A B count index (start A), false)
  else (s, false).

Definition found_in_B (s : Buffers) (A B : Range)
    (block_size buffer_size cache_size count index : Z) : Buffers * bool :=
  if count >=? buffer_size then
    let s := PULL s A B count index (end_ B) in
    let s := set_pull_index s 1 in
    if count =? buffer_size +% buffer_size then
      (set_buffer2
         (set_buffer1 s (Range_new (end_ B -% count) (end_ B -% buffer_size)))
         (Range_new (end_ B -% buffer_size) (end_ B)), true)
    else if find s =? buffer_size +% buffer_size then
      (set_find (set_buffer1 s (Range_new (end_ B -% count) (end_ B)))
         buffer_size, false)
    else if block_size <=? cache_size then
      (set_buffer1 s (Range_new (end_ B -% count) (end_ B)), true)
    else if find_separately s then
      (set_find_separately
         (set_buffer1 s (Range_new (end_ B -% count) (end_ B))) false, false)
    else
      let s := if start (pull_range (pull0 s)) =? start A
               then shrink_pull0 s else s in
      (set_buffer2 s (Range_new (end_ B -% count) (end_ B)), true)
  else if (pull_index s =? 0) && (count >? Range_length (buffer1 s)) then
    (PULL (set_buffer1 s (Range_new (end_ B -% count) (end_ B)))
       A B count index (end_ B), false)
  else (s, false).

(* find two internal buffers of len 'buffer_size' each *)
Fixpoint find_buffers (fuel : nat) (array : Arr) (size : Z)
    (compare : Comparison Val) (block_size buffer_size cache_size : Z)
    (s : Buffers) (iterator : WikiIterator) : outcome (Buffers * WikiIterator) :=
  if WikiIterator_finished iterator then Done (s, iterator) else
  match fuel with
  | O => OutOfFuel
  | S fuel' =>
      let '(A, it) := WikiIterator_nextRange iterator in
      let '(B, it) := WikiIterator_nextRange it in
      '(last, count) <- count_A fuel array size compare A (find s) (start A) 1 ;;
      let '(s1, stop) :=
        found_in_A s A B block_size buffer_size cache_size count last in
      if stop then Done (s1, it) else
      '(last, count) <- count_B fuel array size compare B (find s1)
                          (end_ B -% 1) 1 ;;
      let '(s2, stop) :=
        found_in_B s1 A B block_size buffer_size cache_size count last in
      if stop then Done (s2, it)
      else find_buffers fuel' array size compare block_size buffer_size
             cache_size s2 it
  end.

(* we're pulling the values out to the left, which means the start of an A subarray *)
Fixpoint pull_left (fuel : nat) (array : Arr) (size : Z)
    (compare : Comparison Val) (cache : Arr) (cache_size : Z) (p : Pull)
    (length index count : Z) : outcome (Arr * Arr * Pull) :=
  if count <? length then
    match fuel with
    | O => OutOfFuel
    | S fuel' =>
        index1 <- FindFirstBackward fuel array
                    (ptr array (size *% (index -% 1))) size
                    (Range_new (pull_to p) (pull_from p -% (count -% 1)))
                    compare (length -% count) ;;
        let range := Range_new (index1 +% 1) (pull_from p +% 1) in
        '(array1, cache1) <- Rotate fuel array size (Range_length range -% count)
                               range cache cache_size ;;
        pull_left fuel' array1 size compare cache1 cache_size
          (set_pull_from p (index1 +% count)) length index1 (count +% 1)
    end
  else Done (array, cache, p).

(* we're pulling values out to the right, which means the end of a B subarray *)
Fixpoint pull_right (fuel : nat) (array : Arr) (size : Z)
    (compare : Comparison Val) (cache : Arr) (cache_size : Z) (p : Pull)
    (length index count : Z) : outcome (Arr * Arr * Pull) :=
  if count <? length then
    match fuel with
    | O => OutOfFuel
    | S fuel' =>
        index1 <- FindLastForward fuel array (ptr array (size *% index)) size
                    (Range_new index (pull_to p)) compare (length -% count) ;;
        let range := Range_new (pull_from p) (index1 -% 1) in
        '(array1, cache1) <- Rotate fuel array size count range cache cache_size ;;
        pull_right fuel' array1 size compare cache1 cache_size
          (set_pull_from p (index1 -% 1 -% count)) length index1 (count +% 1)
    end
  else Done (array, cache, p).

(* pull out one range so we can use it as an internal buffer *)
Definition pull_out (fuel : nat) (array : Arr) (size : Z)
    (compare : Comparison Val) (cache : Arr) (cache_size : Z) (p : Pull)
    : outcome (Arr * Arr * Pull) :=
  let length := pull_count p in
  if pull_to p <? pull_from p then
    pull_left fuel array size compare cache cache_size p length (pull_from p) 1
  else if pull_to p >? pull_from p then
    pull_right fuel array size compare cache cache_size p length
      (pull_from p +% 1) 1
  else Done (array, cache, p).

(* remove any parts of A or B that are being used by an internal buffer;
   the boolean is the [continue] *)
Definition strip (p : Pull) (start0 : Z) (A B : Range) : Range * Range * bool :=
  if start0 =? start (pull_range p) then
    if pull_from p >? pull_to p then
      let A := Range_new (start A +% pull_count p) (end_ A) in
      (A, B, Range_length A =? 0)
    else if pull_from p <? pull_to p then
      let B := Range_new (start B) (end_ B -% pull_count p) in
      (A, B, Range_length B =? 0)
    else (A, B, false)
  else (A, B, false).

(* swap the first value of each A block with the value in buffer1 *)
Fixpoint tag_blocks (fuel : nat) (array : Arr) (size block_size blockA_end
    indexA index : Z) : outcome Arr :=
  if index <? blockA_end then
    match fuel with
    | O => OutOfFuel
    | S fuel' =>
        array1 <- lift (Swap array (size *% indexA) (size *% index) size) ;;
        tag_blocks fuel' array1 size block_size blockA_end (indexA +% 1)
          (index +% block_size)
    end
  else Done array.

(* the linear search for the minimum A block *)
Fixpoint find_minA (fuel : nat) (array : Arr) (size : Z)
    (compare : Comparison Val) (block_size blockA_end minA findA : Z)
    : outcome Z :=
  if findA <? blockA_end then
    match fuel with
    | O => OutOfFuel
    | S fuel' =>
        c <- call compare (ptr array (size *% findA)) (ptr array (size *% minA)) ;;
        find_minA fuel' array size compare block_size blockA_end
          (if c <? 0 then findA else minA) (findA +% block_size)
    end
  else Done minA.

(* locally merge an A block with the B values that follow it: with the
   cache, or the second internal buffer, or strictly in place *)
Definition local_merge (fuel : nat) (array : Arr) (size : Z) (lastA B : Range)
    (compare : Comparison Val) (cache : Arr) (cache_size : Z) (buffer2 : Range)
    : outcome (Arr * Arr) :=
  if Range_length lastA <=? cache_size then
    array1 <- MergeExternal fuel array size lastA B compare cache ;;
    Done (array1, cache)
  else if Range_length buffer2 >? 0 then
    array1 <- MergeInternal fuel array size lastA B compare buffer2 ;;
    Done (array1, cache)
  else MergeInPlace fuel array size lastA B compare cache cache_size.

(* start rolling the A blocks through the B blocks! *)
Fixpoint roll_blocks (fuel : nat) (array : Arr) (size : Z)
    (compare : Comparison Val) (cache : Arr) (cache_size block_size : Z)
    (buffer2 B : Range) (r : Rolling) : outcome (Arr * Arr * Rolling) :=
  match fuel with
  | O => OutOfFuel
  | S fuel' =>
      let blockA0 := blockA r in
      let blockB0 := blockB r in
      drop <-
        (if Range_length (lastB r) >? 0 then
           c <- call compare (ptr array (size *% (end_ (lastB r) -% 1)))
                             (ptr array (size *% indexA r)) ;;
           if c >=? 0 then Done true else Done (Range_length blockB0 =? 0)
         else Done (Range_length blockB0 =? 0)) ;;
      if (drop : bool) then
        (* figure out where to split the previous B block, and rotate it at the split *)
        B_split <- BinaryFirst fuel array (ptr array (size *% indexA r)) size
                     (lastB r) compare ;;
        let B_remaining := end_ (lastB r) -% B_split in
        (* swap the minimum A block to the beginning of the rolling A blocks *)
        minA <- find_minA fuel array size compare block_size (end_ blockA0)
                  (start blockA0) (start blockA0 +% block_size) ;;
        array1 <- BlockSwap fuel array size (start blockA0) minA block_size ;;
        (* swap the first item of the previous A block back with its original value *)
        array2 <- lift (Swap array1 (size *% start blockA0)
                          (size *% indexA r) size) ;;
        let indexA1 := indexA r +% 1 in
        '(array3, cache1) <- local_merge fuel array2 size (lastA r)
                               (Range_new (end_ (lastA r)) B_split) compare
                               cache cache_size buffer2 ;;
        '(array4, cache2) <-
          (if (Range_length buffer2 >? 0) || (block_size <=? cache_size) then
             '(a, c) <-
               (if block_size <=? cache_size then
                  c <- lift (memcpy cache1 0 array3 (size *% start blockA0)
                               (block_size *% size)) ;;
                  Done (array3, c)
                else
                  a <- BlockSwap fuel array3 size (start blockA0)
                         (start buffer2) block_size ;;
                  Done (a, cache1)) ;;
             a' <- BlockSwap fuel a size B_split
                     (start blockA0 +% block_size -% B_remaining) B_remaining ;;
             Done (a', c)
           else
             Rotate fuel array3 size (start blockA0 -% B_split)
               (Range_new B_split (start blockA0 +% block_size))
               cache1 cache_size) ;;
        (* update the range for the remaining A blocks, and the range
           remaining from the B block after it was split *)
        let lastA1 := Range_new (start blockA0 -% B_remaining)
                        (start blockA0 -% B_remaining +% block_size) in
        let lastB1 := Range_new (end_ lastA1) (end_ lastA1 +% B_remaining) in
        let blockA1 := Range_new (start blockA0 +% block_size) (end_ blockA0) in
        let r1 := {| blockA := blockA1; blockB := blockB0; lastA := lastA1;
                     lastB := lastB1; indexA := indexA1 |} in
        (* if there are no more A blocks remaining, this step is finished! *)
        if Range_length blockA1 =? 0 then Done (array4, cache2, r1)
        else roll_blocks fuel' array4 size compare cache2 cache_size block_size
               buffer2 B r1
      else if Range_length blockB0 <? block_size then
        (* move the last B block, which is unevenly sized, to before the
           remaining A blocks, by using a rotation; the cache is disabled here *)
        '(array1, cache1) <- Rotate fuel array size
                               (start blockB0 -% start blockA0)
                               (Range_new (start blockA0) (end_ blockB0))
                               cache 0 ;;
        let lastB1 := Range_new (start blockA0)
                        (start blockA0 +% Range_length blockB0) in
        let blockA1 := Range_new (start blockA0 +% Range_length blockB0)
                         (end_ blockA0 +% Range_length blockB0) in
        let blockB1 := Range_new (start blockB0) (start blockB0) in
        roll_blocks fuel' array1 size compare cache1 cache_size block_size
          buffer2 B
          {| blockA := blockA1; blockB := blockB1; lastA := lastA r;
             lastB := lastB1; indexA := indexA r |}
      else
        (* roll the leftmost A block to the end by swapping it with the next B block *)
        array1 <- BlockSwap fuel array size (start blockA0) (start blockB0)
                    block_size ;;
        let lastB1 := Range_new (start blockA0) (start blockA0 +% block_size) in
        let blockA1 := Range_new (start blockA0 +% block_size)
                         (end_ blockA0 +% block_size) in
        let blockB1 :=
          Range_new (start blockB0 +% block_size)
            (if end_ blockB0 >? end_ B -% block_size then end_ B
             else end_ blockB0 +% block_size) in
        roll_blocks fuel' array1 size compare cache cache_size block_size
          buffer2 B
          {| blockA := blockA1; blockB := blockB1; lastA := lastA r;
             lastB := lastB1; indexA := indexA r |}
  end.

(* merge one A+B combination at this level, with the internal buffers *)
Definition block_merge (fuel : nat) (array : Arr) (size : Z)
    (compare : Comparison Val) (cache : Arr) (cache_size block_size : Z)
    (buffer1 buffer2 A B : Range) : outcome (Arr * Arr) :=
  if block_size =? 0 then Undefined else
  (* break the remainder of A into blocks. firstA is the uneven-sized first A block *)
  let blockA0 := Range_new (start A) (end_ A) in
  let firstA := Range_new (start A)
                  (start A +% Range_length blockA0 mod block_size) in
  array1 <- tag_blocks fuel array size block_size (end_ blockA0)
              (start buffer1) (end_ firstA) ;;
  let lastA0 := firstA in
  let lastB0 := Range_new 0 0 in
  let blockB0 := Range_new (start B)
                   (start B +% Min block_size (Range_length B)) in
  let blockA1 := Range_new (start blockA0 +% Range_length firstA)
                   (end_ blockA0) in
  let indexA0 := start buffer1 in
  (* if the first unevenly sized A block fits into the cache, copy it there;
     otherwise, if the second buffer is available, block swap the contents into that *)
  '(array2, cache1) <-
    (if Range_length lastA0 <=? cache_size then
       c <- lift (memcpy cache 0 array1 (size *% start lastA0)
                    (Range_length lastA0 *% size)) ;;
       Done (array1, c)
     else if Range_length buffer2 >? 0 then
       a <- BlockSwap fuel array1 size (start lastA0) (start buffer2)
              (Range_length lastA0) ;;
       Done (a, cache)
     else Done (array1, cache)) ;;
  let r0 := {| blockA := blockA1; blockB := blockB0; lastA := lastA0;
               lastB := lastB0; indexA := indexA0 |} in
  '(array3, cache2, r) <-
    (if Range_length blockA1 >? 0
     then roll_blocks fuel array2 size compare cache1 cache_size block_size
            buffer2 B r0
     else Done (array2, cache1, r0)) ;;
  (* merge the last A block with the remaining B values *)
  local_merge fuel array3 size (lastA r) (Range_new (end_ (lastA r)) (end_ B))
    compare cache2 cache_size buffer2.

Definition merge_pair (fuel : nat) (array : Arr) (size : Z)
    (compare : Comparison Val) (cache : Arr) (cache_size block_size : Z)
    (s : Buffers) (A B : Range) : outcome (Arr * Arr) :=
  let start0 := start A in
  let '(A, B, skip0) := strip (pull0 s) start0 A B in
  if skip0 then Done (array, cache) else
  let '(A, B, skip1) := strip (pull1 s) start0 A B in
  if skip1 then Done (array, cache) else
  c <- call compare (ptr array (size *% (end_ B -% 1)))
                    (ptr array (size *% start A)) ;;
  if c <? 0 then
    (* the two ranges are in reverse order, so a simple rotation should fix it *)
    Rotate fuel array size (Range_length A) (Range_new (start A) (end_ B))
      cache cache_size
  else
    c <- call compare (ptr array (size *% end_ A))
                      (ptr array (size *% (end_ A -% 1))) ;;
    if c <? 0 then
      (* these two ranges weren't already in order, so we'll need to merge them! *)
      block_merge fuel array size compare cache cache_size block_size
        (buffer1 s) (buffer2 s) A B
    else Done (array, cache).

Fixpoint merge_pairs (fuel : nat) (array : Arr) (size : Z)
    (compare : Comparison Val) (cache : Arr) (cache_size block_size : Z)
    (s : Buffers) (iterator : WikiIterator)
    : outcome (Arr * Arr * WikiIterator) :=
  if WikiIterator_finished iterator then Done (array, cache, iterator) else
  match fuel with
  | O => OutOfFuel
  | S fuel' =>
      let '(A, it) := WikiIterator_nextRange iterator in
      let '(B, it) := WikiIterator_nextRange it in
      '(array1, cache1) <- merge_pair fuel array size compare cache cache_size
                             block_size s A B ;;
      merge_pairs fuel' array1 size compare cache1 cache_size block_size s it
  end.

(* the values were pulled out to the left, so redistribute them back to the right *)
Fixpoint redistribute_right (fuel : nat) (array : Arr) (size : Z)
    (compare : Comparison Val) (cache : Arr) (cache_size : Z) (p : Pull)
    (buffer : Range) (unique : Z) : outcome (Arr * Arr) :=
  if Range_length buffer >? 0 then
    match fuel with
    | O => OutOfFuel
    | S fuel' =>
        index <- FindFirstForward fuel array (ptr array (size *% start buffer))
                   size (Range_new (end_ buffer) (end_ (pull_range p)))
                   compare unique ;;
        let amount := index -% end_ buffer in
        '(array1, cache1) <- Rotate fuel array size (Range_length buffer)
                               (Range_new (start buffer) index)
                               cache cache_size ;;
        redistribute_right fuel' array1 size compare cache1 cache_size p
          (Range_new (start buffer +% (amount +% 1)) (end_ buffer +% amount))
          (unique -% 2)
    end
  else Done (array, cache).

(* the values were pulled out to the right, so redistribute them back to the left *)
Fixpoint redistribute_left (fuel : nat) (array : Arr) (size : Z)
    (compare : Comparison Val) (cache : Arr) (cache_size : Z) (p : Pull)
    (buffer : Range) (unique : Z) : outcome (Arr * Arr) :=
  if Range_length buffer >? 0 then
    match fuel with
    | O => OutOfFuel
    | S fuel' =>
        index <- FindLastBackward fuel array
                   (ptr array (size *% (end_ buffer -% 1))) size
                   (Range_new (start (pull_range p)) (start buffer))
                   compare unique ;;
        let amount := start buffer -% index in
        '(array1, cache1) <- Rotate fuel array size amount
                               (Range_new index (end_ buffer))
                               cache cache_size ;;
        redistribute_left fuel' array1 size compare cache1 cache_size p
          (Range_new (start buffer -% amount) (end_ buffer -% (amount +% 1)))
          (unique -% 2)
    end
  else Done (array, cache).

Definition redistribute (fuel : nat) (array : Arr) (size : Z)
    (compare : Comparison Val) (cache : Arr) (cache_size : Z) (p : Pull)
    : outcome (Arr * Arr) :=
  let unique := pull_count p *% 2 in
  if pull_from p >? pull_to p then
    redistribute_right fuel array size compare cache cache_size p
      (Range_new (start (pull_range p)) (start (pull_range p) +% pull_count p))
      unique
  else if pull_from p <? pull_to p then
    redistribute_left fuel array size compare cache cache_size p
      (Range_new (end_ (pull_range p) -% pull_count p) (end_ (pull_range p)))
      unique
  else Done (array, cache).

(* this is where the in-place merge logic starts! *)
Definition merge_in_place (fuel : nat) (array : Arr) (size : Z)
    (compare : Comparison Val) (cache : Arr) (cache_size : Z)
    (iterator : WikiIterator) : outcome (Arr * Arr * WikiIterator) :=
  block_size <- lift (sqrt_size_t (WikiIterator_length iterator)) ;;
  if block_size =? 0 then Undefined else
  let buffer_size := WikiIterator_length iterator / block_size +% 1 in
  let no_pull := {| pull_from := 0; pull_to := 0; pull_count := 0;
                    pull_range := Range_new 0 0 |} in
  (* find two internal buffers of len 'buffer_size' each *)
  let find0 := buffer_size +% buffer_size in
  let '(find1, find_separately1) :=
    if block_size <=? cache_size then (buffer_size, false)
    else if find0 >? WikiIterator_length iterator then (buffer_size, true)
    else (find0, false) in
  let s0 := {| buffer1 := Range_new 0 0; buffer2 := Range_new 0 0;
               find := find1; find_separately := find_separately1;
               pull_index := 0; pull0 := no_pull; pull1 := no_pull |} in
  '(s1, iterator1) <- find_buffers fuel array size compare block_size
                        buffer_size cache_size s0 (WikiIterator_begin iterator) ;;
  (* pull out the two ranges so we can use them as internal buffers *)
  '(array1, cache1, p0) <- pull_out fuel array size compare cache cache_size
                             (pull0 s1) ;;
  '(array2, cache2, p1) <- pull_out fuel array1 size compare cache1 cache_size
                             (pull1 s1) ;;
  let s2 := {| buffer1 := buffer1 s1; buffer2 := buffer2 s1; find := find s1;
               find_separately := find_separately s1; pull_index := 2;
               pull0 := p0; pull1 := p1 |} in
  (* adjust block_size and buffer_size based on the values we were able to pull out *)
  let buffer_size := Range_length (buffer1 s2) in
  if buffer_size =? 0 then Undefined else
  let block_size := WikiIterator_length iterator1 / buffer_size +% 1 in
  (* now that the two internal buffers have been created, it's time to
     merge each A+B combination at this level of the merge sort! *)
  '(array3, cache3, iterator2) <-
    merge_pairs fuel array2 size compare cache2 cache_size block_size s2
      (WikiIterator_begin iterator1) ;;
  (* insertion sort the second buffer, then redistribute the buffers back
     into the array using the opposite process used for creating the buffer *)
  array4 <- InsertionSort fuel array3 size (buffer2 s2) compare ;;
  '(array5, cache4) <- redistribute fuel array4 size compare cache3 cache_size p0 ;;
  '(array6, cache5) <- redistribute fuel array5 size compare cache4 cache_size p1 ;;
  Done (array6, cache5, iterator2).

(* then merge sort the higher levels, which can be 8-15, 16-31, 32-63, 64-127, etc. *)
Fixpoint merge_levels (fuel : nat) (array : Arr) (len size : Z)
    (compare : Comparison Val) (cache : Arr) (cache_size : Z)
    (iterator : WikiIterator) : outcome Arr :=
  match fuel with
  | O => OutOfFuel
  | S fuel' =>
      '(array1, cache1, iterator1) <-
        (if WikiIterator_length iterator <? cache_size then
           if ((WikiIterator_length iterator +% 1) *% 4 <=? cache_size)
              && (WikiIterator_length iterator *% 4 <=? len)
           then
             '(a, c, it) <- merge_four fuel array size compare cache
                              (WikiIterator_begin iterator) ;;
             (* we merged two levels at the same time *)
             Done (a, c, snd (WikiIterator_nextLevel it))
           else
             merge_two fuel array size compare cache cache_size
               (WikiIterator_begin iterator)
         else
           merge_in_place fuel array size compare cache cache_size iterator) ;;
      (* double the size of each A and B subarray that will be merged in the next level *)
      let '(more, iterator2) := WikiIterator_nextLevel iterator1 in
      if more
      then merge_levels fuel' array1 len size compare cache1 cache_size iterator2
      else Done array1
  end.

(* bottom-up merge sort combined with an in-place merge algorithm for O(1) memory use *)
Definition new_WikiSort (fuel : nat) (array : Arr) (len size : Z)
    (compare : Comparison Val) : outcome Arr :=
  let cache_size := CACHE_SIZE in
  let cache := NULL in
  if len <? 4 then sort_small array len size compare else
  iterator <- WikiIterator_new len 4 ;;
  '(array1, iterator1) <- sort_groups fuel array size compare
                            (WikiIterator_begin iterator) ;;
  if len <? 8 then Done array1 else
  merge_levels fuel array1 len size compare cache cache_size iterator1.

(* the three entry points: [size], [buffer] and [buffer_len] are not used *)
Definition WikiSort (fuel : nat) (array : Arr) (len size : Z)
    (compare : Comparison Val) : outcome Arr :=
  new_WikiSort fuel array len sizeof_Test compare.

Definition WikiSort_with_buffer (fuel : nat) (array : Arr) (len size : Z)
    (compare : Comparison Val) (buffer : Arr) (buffer_len : Z) : outcome Arr :=
  new_WikiSort fuel array len sizeof_Test compare.

Definition WikiSort_with_dynamic_buffer (fuel : nat) (array : Arr)
    (len size : Z) (compare : Comparison Val) : outcome Arr :=
  new_WikiSort fuel array len sizeof_Test compare.
End Sorter.

(** * The test program around the sorter *)

(** The items of the tests: a value to sort by and, with [VERIFY] on, the
    place the item had in the array before the sort. *)
Record Test : Type := { value : Z; index : Z }.

(** The conversion of a [size_t] to [int] at the [return] of
    [new_compare]: the low 32 bits read as a two's complement number, which
    is what the compilers do where C leaves the choice to them. *)
Definition to_int (x : Z) : Z :=
  let low := x mod 2 ^ 32 in
  if low <? 2 ^ 31 then low else low - 2 ^ 32.

(** [new_compare], with [SLOW_COMPARISONS] off: the difference of the two
    values, computed in [size_t] and returned as an [int]. The counter
    [comparisons] of the profile, which no result depends on, is left
    out. *)
Definition new_compare (item1 item2 : Test) : Z :=
  to_int (value item1 -% value item2).

Definition TestCompare (item1 item2 : Test) : bool :=
  new_compare item1 item2 <? 0.

(** [WikiVerify]: the loop over the items of the range from the second
    one, on the typed array; the result is [false] when the loop reaches
    [assert(false)], and [true] when the function returns. *)
Fixpoint WikiVerify_for (fuel : nat) (array : list Test) (range : Range)
    (compare : Comparison Test) (index0 : Z) : outcome bool :=
  if index0 <? end_ range then
    match fuel with
    | O => OutOfFuel
    | S fuel' =>
        before <- lift (nth_error array (Z.to_nat (index0 -% 1))) ;;
        here <- lift (nth_error array (Z.to_nat index0)) ;;
        (* if it's in ascending order then we're good;
           if both values are equal, we need to make sure the index values
           are ascending *)
        if negb ((compare before here <? 0)
                 || ((compare here before >=? 0)
                     && (index here >? index before)))
        then Done false
        else WikiVerify_for fuel' array range compare (index0 +% 1)
    end
  else Done true.

Definition WikiVerify (fuel : nat) (array : list Test) (range : Range)
    (compare : Comparison Test) : outcome bool :=
  WikiVerify_for fuel array range compare (start range +% 1).

(** The items [main] makes of the values of a test case: each with its
    place in the array. *)
Fixpoint tagged_from (i : Z) (values : list Z) : list Test :=
  match values with
  | [] => []
  | v :: values' => {| value := v; index := i |} :: tagged_from (i +% 1) values'
  end.

(** * The merge sort the tests measure the sorter against *)

Section Baseline.
Context {Arr Val : Type} {ST : Store Arr Val}.

(** [memcpy(&array[d], &array[s], n)] with both pointers into the same
    object: the two blocks of [n] bytes must not overlap. *)
Definition memcpy_within (array : Arr) (d s n : Z) : option Arr :=
  if (n =? 0) || (d + n <=? s) || (s + n <=? d)
  then memmove array d s n else None.

(** The [while (A_count < Range_length(A) && B_count < Range_length(B))]
    of [MergeSortR]; it yields the array with the two counters the copy
    after the loop reads. *)
Fixpoint MergeSortR_while (fuel : nat) (array : Arr) (size : Z)
    (A B : Range) (compare : Comparison Val) (buffer : Arr)
    (A_count B_count insert : Z) : outcome (Arr * Z * Z) :=
  if (A_count <? Range_length A) && (B_count <? Range_length B) then
    match fuel with
    | O => OutOfFuel
    | S fuel' =>
        c <- call compare (ptr array (size *% (end_ A +% B_count)))
                          (ptr buffer (size *% A_count)) ;;
        if c >=? 0 then
          array1 <- lift (memcpy array (size *% (start A +% insert))
                            buffer (size *% A_count) size) ;;
          MergeSortR_while fuel' array1 size A B compare buffer
            (A_count +% 1) B_count (insert +% 1)
        else
          array1 <- lift (memcpy_within array (size *% (start A +% insert))
                            (size *% (end_ A +% B_count)) size) ;;
          MergeSortR_while fuel' array1 size A B compare buffer
            A_count (B_count +% 1) (insert +% 1)
    end
  else Done (array, A_count, insert).

(** [MergeSortR]: the result is the array and the buffer, both written
    to. The fuel bounds the depth of the recursion and each loop. *)
Fixpoint MergeSortR (fuel : nat) (array : Arr) (range : Range) (size : Z)
    (compare : Comparison Val) (buffer : Arr) : outcome (Arr * Arr) :=
  if Range_length range <? 32 then
    array1 <- InsertionSort fuel array size range compare ;;
    Done (array1, buffer)
  else
    match fuel with
    | O => OutOfFuel
    | S fuel' =>
        let mid := start range +% (end_ range -% start range) / 2 in
        let A := Range_new (start range) mid in
        let B := Range_new mid (end_ range) in
        '(array1, buffer1) <- MergeSortR fuel' array A size compare buffer ;;
        '(array2, buffer2) <- MergeSortR fuel' array1 B size compare buffer1 ;;
        (* only A is copied to the buffer, and of it only the items that
           are not where they should be already *)
        first <- BinaryLast fuel array2 (ptr array2 (size *% start B)) size A
                   compare ;;
        let A := Range_new first (end_ A) in
        buffer3 <- lift (memcpy buffer2 0 array2 (size *% start A)
                           (Range_length A *% size)) ;;
        '(array3, A_count, insert) <-
          MergeSortR_while fuel array2 size A B compare buffer3 0 0 0 ;;
        array4 <- lift (memcpy array3 (size *% (start A +% insert))
                          buffer3 (size *% A_count)
                          ((Range_length A -% A_count) *% size)) ;;
        Done (array4, buffer3)
    end.

(** [MergeSort]: [buffer] stands for the block that [malloc] returns for
    [((len + 1) / 2) * size] bytes, whatever it holds; the block is freed
    at the end, so that the array is the whole result. *)
Definition MergeSort (fuel : nat) (array : Arr) (len size : Z)
    (compare : Comparison Val) (buffer : Arr) : outcome Arr :=
  '(array1, _) <- MergeSortR fuel array (Range_new 0 len) size compare
                    buffer ;;
  Done array1.
End Baseline.

(** * Running the iterator

    What the claims about the iterator quantify over: the iterator after
    [k] calls of [WikiIterator_nextLevel] that all returned true, and the
    ranges [WikiIterator_nextRange] hands out until
    [WikiIterator_finished]. *)

Fixpoint after_levels (k : nat) (me : WikiIterator) : option WikiIterator :=
  match k with
  | O => Some me
  | S k' =>
      let '(more, me') := WikiIterator_nextLevel me in
      if more then after_levels k' me' else None
  end.

Fixpoint emitted (fuel : nat) (me : WikiIterator) : option (list Range) :=
  if WikiIterator_finished me then Some [] else
  match fuel with
  | O => None
  | S fuel' =>
      let '(range, me') := WikiIterator_nextRange me in
      match emitted fuel' me' with
      | Some l => Some (range :: l)
      | None => None
      end
  end.

(* consecutive half-open intervals from [lo] to [hi] *)
Fixpoint consecutive (lo : Z) (l : list Range) (hi : Z) : Prop :=
  match l with
  | [] => lo = hi
  | r :: l' => start r = lo /\ start r <= end_ r /\ consecutive (end_ r) l' hi
  end.

Definition total_length (l : list Range) : Z :=
  fold_right (fun r acc => Range_length r + acc) 0 l.

(* the iterator of an array of [N] items with denominator [D] whose steps
   add up to [W] times the item count: level [log2 W] *)
Definition at_level (N D W : Z) (me : WikiIterator) : Prop :=
  size me = N /\ denominator me = D /\
  4 * D <= N < 8 * D /\
  0 <= numerator_step me < D /\
  decimal_step me * D + numerator_step me = N * W.

(* [j] ranges were handed out at this level *)
Definition handed_out (N D W j : Z) (me : WikiIterator) : Prop :=
  at_level N D W me /\
  0 <= numerator me < D /\
  decimal me * D + numerator me = j * (N * W).

(** * Items of 32 bytes ordered by their first byte *)

Definition first_byte (p : list Byte.byte) : Z :=
  match p with
  | b :: _ => Z.of_N (Strings.Byte.to_N b)
  | [] => 0
  end.

Definition by_first_byte : Comparison (list Byte.byte) :=
  fun item1 item2 => first_byte item1 - first_byte item2.

(* key 1, with a 9 in the middle of the item *)
Definition item_one : list Byte.byte :=
  Byte.x01 :: repeat Byte.x00 15 ++ Byte.x09 :: repeat Byte.x00 15.

(* key 0 *)
Definition item_zero : list Byte.byte := repeat Byte.x00 32.

(** * Arrays of items *)

(* an array of items of [size] bytes each is an object of the address space *)
Definition fits {T : Type} (size : Z) (array : list T) : Prop :=
  0 < size /\ size * Z.of_nat (length array) < SIZE_MAX1.

(* the items [lo], ..., [hi - 1] *)
Definition slice {T : Type} (array : list T) (lo hi : Z) : list T :=
  firstn (Z.to_nat (hi - lo)) (skipn (Z.to_nat lo) array).

(** * Comparators and sorted ranges *)

(* what the sorter asks of a comparison callback: the sign of the result
   flips with the arguments, and "not above" is transitive *)
Record total_order {T : Type} (compare : Comparison T) : Prop := {
  sign_flips : forall a b, compare a b < 0 <-> 0 < compare b a;
  le_transitive :
    forall a b c, compare a b <= 0 -> compare b c <= 0 -> compare a c <= 0
}.

(* the items [lo], ..., [hi - 1] are in order: for all i < j in the range,
   compare(A[i], A[j]) <= 0 *)
Definition sorted_range {T : Type} (compare : Comparison T) (array : list T)
    (lo hi : Z) : Prop :=
  forall i j x y,
    lo <= i -> i < j -> j < hi ->
    nth_error array (Z.to_nat i) = Some x ->
    nth_error array (Z.to_nat j) = Some y ->
    compare x y <= 0.

(** * The binary and the galloping searches, over an abstract test

    [BinaryFirst] and [BinaryLast] are one loop around two different
    comparisons, and so are the forward and the backward searches.  The
    schemes below name that loop; [test i] stands for the comparison the
    search makes on item [i]. *)

Fixpoint search_while (test : Z -> outcome bool) (fuel : nat)
    (start end' : Z) : outcome Z :=
  if start <? end' then
    match fuel with
    | O => OutOfFuel
    | S fuel' =>
        let mid := start +% (end' -% start) / 2 in
        b <- test mid ;;
        if (b : bool) then search_while test fuel' (mid +% 1) end'
        else search_while test fuel' start mid
    end
  else Done start.

(* [first] tells BinaryFirst (an empty range gives its start) from
   BinaryLast (an empty range gives its end) *)
Definition search (test : Z -> outcome bool) (first : bool) (fuel : nat)
    (range : Range) : outcome Z :=
  if start range >=? end_ range
  then Done (if first then start range else end_ range) else
  s <- search_while test fuel (start range) (end_ range -% 1) ;;
  if s =? end_ range -% 1 then
    b <- test s ;;
    if (b : bool) then Done (s +% 1) else Done s
  else Done s.

Fixpoint forward_for (test : Z -> outcome bool) (first : bool) (fuel : nat)
    (range : Range) (skip index : Z) : outcome Z :=
  b <- test (index -% 1) ;;
  if (b : bool) then
    if index >=? end_ range -% skip
    then search test first fuel (Range_new index (end_ range))
    else
      match fuel with
      | O => OutOfFuel
      | S fuel' => forward_for test first fuel' range skip (index +% skip)
      end
  else search test first fuel (Range_new (index -% skip) index).

Fixpoint backward_for (test : Z -> outcome bool) (first : bool) (fuel : nat)
    (range : Range) (skip index : Z) : outcome Z :=
  let stop := search test first fuel (Range_new index (index +% skip)) in
  if index >? start range then
    b <- test (index -% 1) ;;
    if negb b then
      if index <? start range +% skip
      then search test first fuel (Range_new (start range) index)
      else
        match fuel with
        | O => OutOfFuel
        | S fuel' => backward_for test first fuel' range skip (index -% skip)
        end
    else stop
  else stop.

(* the comparison of BinaryFirst and of the FindFirst searches on item [i] *)
Definition test_first {Arr Val : Type} {ST : Store Arr Val}
    (array : Arr) (value : option Val) (size : Z) (compare : Comparison Val)
    (i : Z) : outcome bool :=
  c <- call compare (ptr array (size *% i)) value ;; Done (c <? 0).

(* the comparison of BinaryLast and of the FindLast searches on item [i] *)
Definition test_last {Arr Val : Type} {ST : Store Arr Val}
    (array : Arr) (value : option Val) (size : Z) (compare : Comparison Val)
    (i : Z) : outcome bool :=
  c <- call compare value (ptr array (size *% i)) ;; Done (c >=? 0).

(* a test that holds on the items of [lo, p) and fails on those of [p, hi) *)
Definition split_at (holds : Z -> bool) (lo hi p : Z) : Prop :=
  lo <= p <= hi /\
  (forall j, lo <= j < p -> holds j = true) /\
  (forall j, p <= j < hi -> holds j = false).

(* item [j] of the array compares below the value *)
Definition below {T : Type} (compare : Comparison T) (array : list T) (v : T)
    (j : Z) : bool :=
  match nth_error array (Z.to_nat j) with
  | Some x => compare x v <? 0
  | None => false
  end.

(* item [j] of the array does not compare above the value *)
Definition not_above {T : Type} (compare : Comparison T) (array : list T)
    (v : T) (j : Z) : bool :=
  match nth_error array (Z.to_nat j) with
  | Some x => compare v x >=? 0
  | None => false
  end.

(** * The sorting networks as compare-exchanges on keyed items

    A key is an item together with its byte of the [order] vector. *)

(* the condition under which NEW_SWAP(x, y) swaps: the key at [y] comes
   before the key at [x] *)
Definition swaps {T : Type} (compare : Comparison T) (kx ky : T * Z) : bool :=
  (compare (fst ky) (fst kx) <? 0)
  || ((snd kx >? snd ky) && (compare (fst kx) (fst ky) >=? 0)).

Definition exchange {K : Type} (swapb : K -> K -> bool) (ks : list K)
    (x y : nat) : list K :=
  match nth_error ks x, nth_error ks y with
  | Some kx, Some ky =>
      if swapb kx ky then set_nth (set_nth ks x ky) y kx else ks
  | _, _ => ks
  end.

Fixpoint exchanges {K : Type} (swapb : K -> K -> bool) (net : list (Z * Z))
    (ks : list K) : list K :=
  match net with
  | [] => ks
  | (x, y) :: net' =>
      exchanges swapb net' (exchange swapb ks (Z.to_nat x) (Z.to_nat y))
  end.

(* on bits: swap when the bit at [x] is set and the one at [y] is not *)
Definition swaps_bits (bx by' : bool) : bool := bx && negb by'.

(* no set bit before a clear one *)
Fixpoint bits_sorted (bs : list bool) : bool :=
  match bs with
  | [] => true
  | b :: bs' => (negb b || forallb (fun c => c) bs') && bits_sorted bs'
  end.

(* the comparators of a network stay inside [n] items *)
Definition network_within (n : nat) (net : list (Z * Z)) : bool :=
  forallb (fun xy => (0 <=? fst xy) && (fst xy <? Z.of_nat n)
                     && (0 <=? snd xy) && (snd xy <? Z.of_nat n)
                     && negb (fst xy =? snd xy)) net.

(** * Sorted lists and the stable merge of two of them *)

(* every item is not above every later one *)
Definition sorted_list {T : Type} (compare : Comparison T) (l : list T) : Prop :=
  StronglySorted (fun x y => compare x y <= 0) l.

(* the merge that takes the head of [a] unless the head of [b] compares
   below it: on a tie the item of [a] comes first *)
Fixpoint merge {T : Type} (compare : Comparison T) (a : list T)
  : list T -> list T :=
  fix merge_b (b : list T) : list T :=
    match a, b with
    | [], _ => b
    | _, [] => a
    | x :: a', y :: b' =>
        if compare y x >=? 0 then x :: merge compare a' b else y :: merge_b b'
    end.

(* the items that compare equal to [x] *)
Definition equal_to {T : Type} (compare : Comparison T) (x y : T) : bool :=
  compare x y =? 0.

(* the test of a search on item [j], read off the list *)
Definition holds_at {T : Type} (accepts : T -> bool) (array : list T) (j : Z)
  : bool :=
  match nth_error array (Z.to_nat j) with
  | Some x => accepts x
  | None => false
  end.

(* an array with two windows that do not meet: the ranges being merged and
   an internal buffer, which lies before or after them *)
Definition two_windows {T : Type} (buffer_first : bool)
    (p0 w p1 buf p2 : list T) : list T :=
  if buffer_first then p0 ++ buf ++ p1 ++ w ++ p2
  else p0 ++ w ++ p1 ++ buf ++ p2.

Definition window_start {T : Type} (buffer_first : bool)
    (p0 buf p1 : list T) : Z :=
  if buffer_first then Z.of_nat (length p0 + length buf + length p1)
  else Z.of_nat (length p0).

Definition buffer_start {T : Type} (buffer_first : bool)
    (p0 w p1 : list T) : Z :=
  if buffer_first then Z.of_nat (length p0)
  else Z.of_nat (length p0 + length w + length p1).

(** * What the sorter is to produce *)

(* the array with the items from place [lo] on replaced by those of [w] *)
Definition splice {T : Type} (array : list T) (lo : Z) (w : list T) : list T :=
  firstn (Z.to_nat lo) array ++ w ++ skipn (Z.to_nat lo + length w) array.

(* the stable sort: every item goes before the first item of the sorted
   rest that does not compare below it *)
Definition stable_sort {T : Type} (compare : Comparison T) (l : list T)
  : list T :=
  fold_right (fun x sorted => merge compare [x] sorted) [] l.

(* every item compares below every later one *)
Definition strictly_sorted {T : Type} (compare : Comparison T) (l : list T)
  : Prop :=
  StronglySorted (fun x y => compare x y < 0) l.

(** * The items an internal buffer is made of *)

(* at the start of a run: each segment is the first item of a group of
   equal items, followed by the rest of the group *)
Definition flat {T : Type} (segs : list (T * list T)) : list T :=
  flat_map (fun s => fst s :: snd s) segs.

(* the rest of each segment does not compare above its first item, and all
   that comes after the segment does *)
Fixpoint grouped {T : Type} (compare : Comparison T)
    (segs : list (T * list T)) (rest : list T) : Prop :=
  match segs with
  | [] => True
  | s :: segs' =>
      Forall (fun z => compare (fst s) z >= 0) (snd s) /\
      Forall (fun z => compare (fst s) z < 0) (flat segs' ++ rest) /\
      grouped compare segs' rest
  end.

(* at the end of a run: each segment is a group of equal items given by
   its last item and the items before it *)
Definition flat_right {T : Type} (segs : list (list T * T)) : list T :=
  flat_map (fun s => fst s ++ [snd s]) segs.

(* no item of a segment compares below its last item, and all that comes
   before the segment does *)
Fixpoint grouped_right {T : Type} (compare : Comparison T)
    (before : list T) (segs : list (list T * T)) : Prop :=
  match segs with
  | [] => True
  | s :: segs' =>
      Forall (fun z => compare z (snd s) >= 0) (fst s) /\
      Forall (fun z => compare z (snd s) < 0) before /\
      grouped_right compare (before ++ fst s ++ [snd s]) segs'
  end.

(* the array [base] with three windows replaced: the ranges being merged
   (from [r]) and the two internal buffers (from [b1] and from [b2]) *)
Definition three_windows {T : Type} (base : list T) (r b1 b2 : Z)
    (R B1 B2 : list T) : list T :=
  splice (splice (splice base r R) b1 B1) b2 B2.

(* the three windows lie inside [base] and do not meet *)
Definition windows_ok {T : Type} (size : Z) (base : list T) (r b1 b2 : Z)
    (nR n1 n2 : nat) : Prop :=
  fits size base /\
  (0 <= r /\ r + Z.of_nat nR <= Z.of_nat (length base)) /\
  (0 <= b1 /\ b1 + Z.of_nat n1 <= Z.of_nat (length base)) /\
  (0 <= b2 /\ b2 + Z.of_nat n2 <= Z.of_nat (length base)) /\
  (r + Z.of_nat nR <= b1 \/ b1 + Z.of_nat n1 <= r) /\
  (r + Z.of_nat nR <= b2 \/ b2 + Z.of_nat n2 <= r) /\
  (b1 + Z.of_nat n1 <= b2 \/ b2 + Z.of_nat n2 <= b1).

(** * The state of the block rolling loop *)

(* what is known of the previous B block when the A blocks are not dropped:
   it is empty, or its last item compares below the first item of the
   least A block; [r] is where the region starts and [P] what precedes the
   B block in it *)
Definition passes {T : Type} (compare : Comparison T) (r : Z)
    (P Bl : list T) (f : T) (rl : Rolling) : Prop :=
  Range_length (lastB rl) = 0 \/
  (exists l z, Bl = l ++ [z] /\ compare z f < 0 /\
     start (lastB rl) = r + Z.of_nat (length P) /\
     end_ (lastB rl) = start (lastB rl) + Z.of_nat (length Bl)).

(* what the second internal buffer holds of a list: the list when there is
   such a buffer, of [n2] items, and nothing when there is none *)
Definition stash {T : Type} (n2 : nat) (l : list T) : list T :=
  if (n2 =? 0)%nat then [] else l.

(* the A blocks that remain once the block at place [length tb1] is taken
   out: the first block has gone to its place *)
Definition remaining {T : Type} (tb1 tb2 : list (T * list T))
  : list (T * list T) :=
  match tb1 with
  | [] => tb2
  | e :: tb1' => tb1' ++ e :: tb2
  end.

(* the state of the rolling loop.  The region being merged holds: [Mo], the
   values merged so far; [held], the place of the last A block dropped,
   whose items [aj] wait in the second buffer when there is one; [Bm], the
   B values passed since; [Bl], the B block passed last; [tb], the A blocks
   still rolling, each with its first item replaced by a tag; [Bb], the
   next B block; [Br], the B values after it.  The first buffer holds [Ud],
   the tags given back, then the first items of [blocks], the A blocks in
   their order, then [Ur]. *)
Record rolling {T : Type} (compare : Comparison T) (r b1 : Z)
    (nR n1 n2 bs : nat) (Mo held aj Bm Bl : list T)
    (tb : list (T * list T)) (Bb Br Ud tags : list T)
    (blocks : list (T * list T)) (Ur V2 : list T) (rl : Rolling) : Prop := {
  rolling_region :
    length (Mo ++ held ++ Bm ++ Bl ++ flat tb ++ Bb ++ Br) = nR;
  rolling_buffer1 : length (Ud ++ map fst blocks ++ Ur) = n1;
  rolling_buffer2 : length (stash n2 aj ++ V2) = n2;
  rolling_held : length held = length aj;
  rolling_in_place : n2 = 0%nat -> held = aj;
  rolling_uniform : Forall (fun e => S (length (snd e)) = bs) blocks;
  rolling_tags : length tags = length blocks;
  rolling_tagged : Permutation tb (combine tags (map snd blocks));
  rolling_tag_order : strictly_sorted compare tags;
  rolling_left : sorted_list compare (aj ++ flat blocks);
  rolling_right : sorted_list compare (Bm ++ Bl ++ Bb ++ Br);
  rolling_passed :
    forall f t rest, blocks = (f, t) :: rest ->
      Forall (fun z => compare z f < 0) Bm;
  rolling_lastB_short : (length Bl <= bs)%nat;
  rolling_blockB_short : (length Bb <= bs)%nat;
  rolling_blockB_whole : Br <> [] -> length Bb = bs;
  rolling_blockA_start :
    start (blockA rl) = r + Z.of_nat (length (Mo ++ held ++ Bm ++ Bl));
  rolling_blockA_end :
    end_ (blockA rl)
    = r + Z.of_nat (length (Mo ++ held ++ Bm ++ Bl) + bs * length tb);
  rolling_blockB :
    (Bb = [] /\ Range_length (blockB rl) = 0) \/
    (Bb <> [] /\ start (blockB rl) = end_ (blockA rl) /\
     end_ (blockB rl) = start (blockB rl) + Z.of_nat (length Bb));
  rolling_lastA_start : start (lastA rl) = r + Z.of_nat (length Mo);
  rolling_lastA_end :
    end_ (lastA rl) = start (lastA rl) + Z.of_nat (length held);
  rolling_lastB :
    (start (lastB rl) = r + Z.of_nat (length (Mo ++ held ++ Bm)) /\
     end_ (lastB rl) = start (lastB rl) + Z.of_nat (length Bl)) \/
    (Range_length (lastB rl) = 0 /\ Bl = [] /\ Bb <> []);
  rolling_indexA : indexA rl = b1 + Z.of_nat (length Ud)
}.

(** * One level of the merge sort *)

(* the pairs of ranges the iterator hands out until it is finished, and the
   iterator as it is then *)
Fixpoint pairs_from (fuel : nat) (me : WikiIterator)
  : option (list (Range * Range) * WikiIterator) :=
  if WikiIterator_finished me then Some ([], me) else
  match fuel with
  | O => None
  | S fuel' =>
      let '(A, me1) := WikiIterator_nextRange me in
      let '(B, me2) := WikiIterator_nextRange me1 in
      match pairs_from fuel' me2 with
      | Some (l, me') => Some ((A, B) :: l, me')
      | None => None
      end
  end.

(* pairs of ranges side by side from [lo] to [hi], none of them empty *)
Fixpoint side_by_side (lo : Z) (l : list (Range * Range)) (hi : Z) : Prop :=
  match l with
  | [] => lo = hi
  | (A, B) :: l' =>
      start A = lo /\ start A < end_ A /\ end_ A = start B /\
      start B < end_ B /\ side_by_side (end_ B) l' hi
  end.

(* the items that a pull leaves aside at the front of the A range, or at
   the back of the B range, of the pair that starts at [start0] *)
Definition lead (p : Pull) (start0 : Z) : Z :=
  if (start0 =? start (pull_range p)) && (pull_from p >? pull_to p)
  then pull_count p else 0.

Definition trail (p : Pull) (start0 : Z) : Z :=
  if (start0 =? start (pull_range p)) && (pull_from p <? pull_to p)
  then pull_count p else 0.

(* where the runs of the pair [(A, B)] start and end once the pulls have
   left their items aside *)
Definition body_start (s : Buffers) (A : Range) : Z :=
  start A + lead (pull0 s) (start A) + lead (pull1 s) (start A).

Definition body_end (s : Buffers) (A B : Range) : Z :=
  end_ B - trail (pull0 s) (start A) - trail (pull1 s) (start A).

(* the runs of a pair are neither in order nor in reverse order *)
Definition mixed {T : Type} (compare : Comparison T) (a b : list T) : Prop :=
  exists xa za yb zb a1 a2 b1 b2,
    a = xa :: a1 /\ a = a2 ++ [za] /\ b = yb :: b1 /\ b = b2 ++ [zb] /\
    compare zb xa >= 0 /\ compare yb za < 0.

(* a pair of ranges is ready to be merged: what the pulls leave of its two
   runs is sorted and away from the internal buffers, of [n1] items from
   [b1] and [n2] items from [b2], which serve if the runs are mixed *)
Definition pair_ready {T : Type} (compare : Comparison T) (array : list T)
    (s : Buffers) (bs : nat) (b1 b2 : Z) (n1 n2 : nat) (A B : Range)
  : Prop :=
  let r := body_start s A in
  let e := body_end s A B in
  0 <= lead (pull0 s) (start A) /\ 0 <= lead (pull1 s) (start A) /\
  0 <= trail (pull0 s) (start A) /\ 0 <= trail (pull1 s) (start A) /\
  r <= end_ A /\ start B <= e /\
  (e <= b1 \/ b1 + Z.of_nat n1 <= r) /\
  (e <= b2 \/ b2 + Z.of_nat n2 <= r) /\
  sorted_list compare (slice array r (end_ A)) /\
  sorted_list compare (slice array (start B) e) /\
  (mixed compare (slice array r (end_ A)) (slice array (start B) e) ->
   (1 <= bs)%nat /\ start (buffer1 s) = b1 /\ start (buffer2 s) = b2 /\
   Range_length (buffer2 s) = Z.of_nat n2 /\
   (n2 <> 0%nat -> (bs <= n2)%nat) /\
   (Z.to_nat (end_ A - r) / bs <= n1)%nat).

(* the pairs of runs are merged, each where it lies *)
Definition pairs_merged {T : Type} (compare : Comparison T)
    (before after : list T) (s : Buffers) (l : list (Range * Range)) : Prop :=
  Forall (fun AB =>
            slice after (body_start s (fst AB)) (body_end s (fst AB) (snd AB))
            = merge compare
                (slice before (body_start s (fst AB)) (end_ (fst AB)))
                (slice before (start (snd AB))
                   (body_end s (fst AB) (snd AB)))) l.

(* the items from [lo'] to [hi'] lie away from the [n] items from [lo] *)
Definition away (lo' hi' lo : Z) (n : nat) : Prop :=
  hi' <= lo \/ lo + Z.of_nat n <= lo'.

(** * The search for the internal buffers *)

Definition no_pull : Pull :=
  {| pull_from := 0; pull_to := 0; pull_count := 0;
     pull_range := Range_new 0 0 |}.

(* the items of a run all compare equal *)
Definition constant {T : Type} (compare : Comparison T) (a : list T) : Prop :=
  forall x y, In x a -> In y a -> compare x y >= 0.

Section Search.
Context {T : Type} (compare : Comparison T) (array : list T).

(* [c] values that differ are to be pulled to the front of the run [A]:
   the first of each of its first [c] groups of equal items; the pull is for
   the items from the start of [A] to [E] *)
Definition left_pull (A : Range) (E : Z) (p : Pull) (c : Z) : Prop :=
  exists segs x tail,
    slice array (start A) (end_ A) = flat segs ++ x :: tail /\
    grouped compare segs (x :: tail) /\
    c = Z.of_nat (length segs) + 1 /\
    pull_from p = start A + Z.of_nat (length (flat segs)) /\
    pull_to p = start A /\ pull_count p = c /\
    pull_range p = Range_new (start A) E.

(* [c] values that differ are to be pulled to the back of the run [B]: the
   last of each of its last [c] groups of equal items *)
Definition right_pull (A B : Range) (p : Pull) (c : Z) : Prop :=
  exists front y segs,
    slice array (start B) (end_ B) = front ++ y :: flat_right segs /\
    grouped_right compare (front ++ [y]) segs /\
    c = Z.of_nat (length segs) + 1 /\
    pull_from p = start B + Z.of_nat (length front) /\
    pull_to p = end_ B /\ pull_count p = c /\
    pull_range p = Range_new (start A) (end_ B).

(* the part of the array that the items of a pull take once they are
   pulled: at the front of [A], or at the back of [B] *)
Definition part (left : bool) (A B : Range) (c : Z) : Range :=
  if left then Range_new (start A) (start A + c)
  else Range_new (end_ B - c) (end_ B).

(* a pull of [c] items found in the pair [(A, B)], one of the pairs [l],
   with the runs looked at so far [seen]; the range of a pull to the left
   ends at [E] *)
Definition active (l : list (Range * Range)) (seen : list Range) (p : Pull)
    (c : Z) (A B : Range) (left : bool) (E : Z) : Prop :=
  In (A, B) l /\
  if left then left_pull A E p c /\ 2 <= c /\ In A seen
  else right_pull A B p c /\ 2 <= c /\ In B seen /\ E = end_ B.

(* the search has found no buffer so far: the largest number of values
   that differ in a run is kept, when it is more than one, with its pull *)
Definition searching (bz : Z) (l : list (Range * Range)) (seen : list Range)
    (s : Buffers) : Prop :=
  pull_index s = 0 /\ pull1 s = no_pull /\ buffer2 s = Range_new 0 0 /\
  ((find s = bz + bz /\ find_separately s = false) \/
   (find s = bz /\ find_separately s = true)) /\
  ((seen = [] /\ buffer1 s = Range_new 0 0 /\ pull0 s = no_pull) \/
   (exists A0 B0,
      In (A0, B0) l /\
      pull0 s = {| pull_from := start A0; pull_to := start A0;
                   pull_count := 1;
                   pull_range := Range_new (start A0) (end_ B0) |} /\
      buffer1 s = Range_new (start A0) (start A0 + 1) /\
      Forall (fun R => constant compare (slice array (start R) (end_ R)))
        seen) \/
   (exists c A B left,
      1 <= c < bz /\ active l seen (pull0 s) c A B left (end_ B) /\
      buffer1 s = part left A B c)).

(* the search has found the first buffer, and looks for the second *)
Definition first_found (bz : Z) (l : list (Range * Range))
    (seen : list Range) (s : Buffers) : Prop :=
  pull_index s = 1 /\ pull1 s = no_pull /\ buffer2 s = Range_new 0 0 /\
  find s = bz /\ find_separately s = false /\
  exists c A B left,
    bz <= c < bz + bz /\ active l seen (pull0 s) c A B left (end_ B) /\
    buffer1 s = part left A B c.

(* the search has found the two buffers at once: the two halves of what
   one pull gives *)
Definition halves_found (bz : Z) (l : list (Range * Range))
    (seen : list Range) (s : Buffers) : Prop :=
  pull1 s = no_pull /\
  exists A B left,
    active l seen (pull0 s) (bz + bz) A B left (end_ B) /\
    buffer1 s = (if left then Range_new (start A) (start A + bz)
                 else Range_new (end_ B - (bz + bz)) (end_ B - bz)) /\
    buffer2 s = (if left then Range_new (start A + bz) (start A + (bz + bz))
                 else Range_new (end_ B - bz) (end_ B)).

(* the search has found the two buffers one after the other; when they
   come from the two runs of one pair, the range of the first pull ends
   where the second buffer starts *)
Definition two_found (bz : Z) (l : list (Range * Range))
    (seen : list Range) (s : Buffers) : Prop :=
  exists c A0 B0 left0 E A1 B1 left1,
    bz <= c < bz + bz /\
    active l seen (pull0 s) c A0 B0 left0 E /\
    buffer1 s = part left0 A0 B0 c /\
    active l seen (pull1 s) bz A1 B1 left1 (end_ B1) /\
    buffer2 s = part left1 A1 B1 bz /\
    ((start A0 < start A1 /\ E = end_ B0) \/
     (A0 = A1 /\ B0 = B1 /\ left0 = true /\ left1 = false /\
      E = end_ B0 - bz)).
End Search.

(** * The runs of a level while the internal buffers are out *)

(* a pull that moves nothing, or a pull of items found in a pair of [l];
   the range of a pull to the left ends [rest] items before the end of the
   pair *)
Definition slot {T : Type} (compare : Comparison T) (array : list T)
    (l : list (Range * Range)) (p : Pull) (rest : Z -> Z) : Prop :=
  pull_from p = pull_to p \/
  exists seen c A B left,
    active compare array l seen p c A B left (end_ B - rest (start A)).

(* the runs of the pair [(A, B)] with [kl] items pulled to the front of the
   first and [kt] items pulled to the back of the second: what is left of
   each run is sorted, and merging the items pulled with it gives the run as
   it was in [array] *)
Definition pulled_form {T : Type} (compare : Comparison T)
    (array arr : list T) (A B : Range) (kl kt : Z) : Prop :=
  exists XA A' B' YB,
    slice arr (start A) (end_ A) = XA ++ A' /\
    slice arr (start B) (end_ B) = B' ++ YB /\
    Z.of_nat (length XA) = kl /\ Z.of_nat (length YB) = kt /\
    sorted_list compare A' /\ sorted_list compare B' /\
    strictly_sorted compare XA /\ strictly_sorted compare YB /\
    merge compare XA A' = slice array (start A) (end_ A) /\
    merge compare B' YB = slice array (start B) (end_ B).

(* the pair [(A, B)] once its runs are merged, with [kl] items still at its
   front and [kt] items still at its back, to be merged with the rest *)
Definition merged_form {T : Type} (compare : Comparison T)
    (array arr : list T) (A B : Range) (kl kt : Z) : Prop :=
  exists XA M YB,
    slice arr (start A) (end_ B) = XA ++ M ++ YB /\
    Z.of_nat (length XA) = kl /\ Z.of_nat (length YB) = kt /\
    sorted_list compare XA /\ sorted_list compare M /\
    sorted_list compare YB /\
    merge compare (merge compare XA M) YB
    = merge compare (slice array (start A) (end_ A))
        (slice array (start B) (end_ B)).

(* the items from [lo] to [hi] are those of the internal buffers *)
Definition covered (b1 b2 : Z) (n1 n2 : nat) (lo hi : Z) : Prop :=
  lo = hi \/ (lo = b1 /\ hi = b1 + Z.of_nat n1) \/
  (lo = b2 /\ hi = b2 + Z.of_nat n2) \/
  (lo = b1 /\ b1 + Z.of_nat n1 = b2 /\ hi = b2 + Z.of_nat n2).

(** * What the test program checks *)

(* the test of [WikiVerify] on two items next to each other *)
Definition in_stable_order (compare : Comparison Test) (before here : Test)
  : bool :=
  (compare before here <? 0)
  || ((compare here before >=? 0) && (index here >? index before)).

(* the test holds all along the list *)
Fixpoint all_in_stable_order (compare : Comparison Test) (l : list Test)
  : bool :=
  match l with
  | [] => true
  | before :: rest =>
      match rest with
      | [] => true
      | here :: _ =>
          in_stable_order compare before here
          && all_in_stable_order compare rest
      end
  end.

(* the index fields go up along the list *)
Definition indexes_ascend (l : list Test) : Prop :=
  StronglySorted (fun x y => index x < index y) l.

(** * The calls made on an iterator *)

(* what the sorter calls on its iterator once it is made *)
Inductive Call : Type := call_begin | call_nextRange | call_nextLevel.

(* the iterator after a sequence of calls, each [WikiIterator_nextLevel]
   of which returns true *)
Fixpoint after_calls (calls : list Call) (me : WikiIterator)
  : option WikiIterator :=
  match calls with
  | [] => Some me
  | call_begin :: rest => after_calls rest (WikiIterator_begin me)
  | call_nextRange :: rest =>
      after_calls rest (snd (WikiIterator_nextRange me))
  | call_nextLevel :: rest =>
      let '(more, me') := WikiIterator_nextLevel me in
      if more then after_calls rest me' else None
  end.

(* the number of [WikiIterator_nextLevel] among the calls *)
Fixpoint levels_of (calls : list Call) : Z :=
  match calls with
  | [] => 0
  | call_nextLevel :: rest => 1 + levels_of rest
  | _ :: rest => levels_of rest
  end.

(** * [size_t] arithmetic that does not wrap *)

Lemma SIZE_MAX1_eq : SIZE_MAX1 = 18446744073709551616.
Proof. reflexivity. Qed.

Lemma wrap_small (x : Z) : 0 <= x < SIZE_MAX1 -> wrap x = x.
Proof. intros H. unfold wrap. now apply Z.mod_small. Qed.

Lemma wrap_range (x : Z) : 0 <= wrap x < SIZE_MAX1.
Proof. unfold wrap. apply Z.mod_pos_bound. reflexivity. Qed.

Lemma add_small (a b : Z) : 0 <= a + b < SIZE_MAX1 -> a +% b = a + b.
Proof. apply wrap_small. Qed.

Lemma sub_small (a b : Z) : 0 <= a - b < SIZE_MAX1 -> a -% b = a - b.
Proof. apply wrap_small. Qed.

Lemma mul_small (a b : Z) : 0 <= a * b < SIZE_MAX1 -> a *% b = a * b.
Proof. apply wrap_small. Qed.

Lemma sub_wraps (a b : Z) :
  0 <= a < b -> b <= SIZE_MAX1 -> a -% b = a - b + SIZE_MAX1.
Proof.
  intros H Hb. unfold sub, wrap. symmetry.
  apply Z.mod_unique with (q := -1); lia.
Qed.

(* rewrite the wrapping operations whose operands are seen to fit *)
Ltac unwrap :=
  repeat first
    [ rewrite add_small by (rewrite ?SIZE_MAX1_eq in *; lia)
    | rewrite sub_small by (rewrite ?SIZE_MAX1_eq in *; lia)
    | rewrite mul_small by (rewrite ?SIZE_MAX1_eq in *; nia) ].

Ltac unwrap_in H :=
  repeat first
    [ rewrite add_small in H by (rewrite ?SIZE_MAX1_eq in *; lia)
    | rewrite sub_small in H by (rewrite ?SIZE_MAX1_eq in *; lia)
    | rewrite mul_small in H by (rewrite ?SIZE_MAX1_eq in *; nia) ].

(** * The level iterator *)

Ltac fields :=
  cbn [size power_of_two numerator decimal denominator decimal_step
       numerator_step start end_ fst snd] in *.

(** One [x | (x >> w)] step doubles the window of bits of [N] that a bit
    of [x] collects. *)
Lemma smear_step (N w x : Z) :
  0 <= w ->
  (forall i, 0 <= i ->
     (Z.testbit x i = true <-> exists j, i <= j < i + w /\ Z.testbit N j = true)) ->
  forall i, 0 <= i ->
    (Z.testbit (Z.lor x (Z.shiftr x w)) i = true <->
     exists j, i <= j < i + 2 * w /\ Z.testbit N j = true).
Proof.
  intros Hw H i Hi.
  rewrite Z.lor_spec, Z.shiftr_spec by lia.
  rewrite orb_true_iff, (H i Hi), (H (i + w)) by lia.
  split.
  - intros [[j [Hj Hb]] | [j [Hj Hb]]]; exists j; split; auto; lia.
  - intros [j [Hj Hb]].
    destruct (Z_lt_le_dec j (i + w)); [left | right]; exists j; split; auto; lia.
Qed.

Lemma FloorPowerOfTwo_spec (N : Z) :
  0 < N < SIZE_MAX1 -> FloorPowerOfTwo N = 2 ^ Z.log2 N.
Proof.
  intros HN. unfold FloorPowerOfTwo.
  set (x1 := Z.lor N (Z.shiftr N 1)).
  set (x2 := Z.lor x1 (Z.shiftr x1 2)).
  set (x3 := Z.lor x2 (Z.shiftr x2 4)).
  set (x4 := Z.lor x3 (Z.shiftr x3 8)).
  set (x5 := Z.lor x4 (Z.shiftr x4 16)).
  set (x6 := Z.lor x5 (Z.shiftr x5 32)).
  assert (H0 : forall i, 0 <= i ->
            (Z.testbit N i = true <->
             exists j, i <= j < i + 1 /\ Z.testbit N j = true)).
  { intros i Hi. split.
    - intros Hb. exists i. split; auto; lia.
    - intros [j [Hj Hb]]. now replace i with j by lia. }
  pose proof (smear_step N 1 N ltac:(lia) H0) as H1. fold x1 in H1.
  pose proof (smear_step N 2 x1 ltac:(lia) H1) as H2. fold x2 in H2.
  pose proof (smear_step N 4 x2 ltac:(lia) H2) as H3. fold x3 in H3.
  pose proof (smear_step N 8 x3 ltac:(lia) H3) as H4. fold x4 in H4.
  pose proof (smear_step N 16 x4 ltac:(lia) H4) as H5. fold x5 in H5.
  pose proof (smear_step N 32 x5 ltac:(lia) H5) as H6. fold x6 in H6.
  clearbody x6. clear - HN H6.
  assert (Hlog : 0 <= Z.log2 N < 64).
  { split; [apply Z.log2_nonneg |].
    apply Z.log2_lt_pow2; [lia | exact (proj2 HN)]. }
  assert (Hx : x6 = Z.ones (Z.log2 N + 1)).
  { apply Z.bits_inj'. intros i Hi.
    apply eq_true_iff_eq. rewrite (H6 i Hi).
    rewrite Z.testbit_ones_nonneg by lia.
    rewrite Z.ltb_lt. split.
    - intros [j [Hj Hb]].
      destruct (Z_le_gt_dec j (Z.log2 N)) as [|Hgt]; [lia |].
      rewrite Z.bits_above_log2 in Hb by lia. discriminate.
    - intros Hlt. exists (Z.log2 N). split; [lia |].
      apply Z.bit_log2. lia. }
  subst x6.
  rewrite Z.shiftr_div_pow2 by lia.
  rewrite Z.ones_equiv, Z.pow_add_r by lia.
  change (2 ^ 1) with 2.
  assert (Hp : 0 < 2 ^ Z.log2 N) by (apply Z.pow_pos_nonneg; lia).
  assert (Hlt : 2 ^ Z.log2 N < SIZE_MAX1).
  { apply Z.pow_lt_mono_r; lia. }
  replace (Z.pred (2 ^ Z.log2 N * 2) / 2) with (2 ^ Z.log2 N - 1).
  2:{ apply Z.div_unique with (r := 1); lia. }
  unfold Z.pred. rewrite sub_small; lia.
Qed.

Lemma WikiIterator_new_spec (N : Z) :
  4 <= N < SIZE_MAX1 ->
  exists me, WikiIterator_new N 4 = Done me /\
    at_level N (2 ^ (Z.log2 N - 2)) 1 me /\
    numerator me = 0 /\ decimal me = 0.
Proof.
  intros HN. unfold WikiIterator_new.
  rewrite FloorPowerOfTwo_spec by lia.
  assert (Hlog : 2 <= Z.log2 N).
  { change 2 with (Z.log2 4) at 1. apply Z.log2_le_mono. lia. }
  assert (HD : 2 ^ Z.log2 N / 4 = 2 ^ (Z.log2 N - 2)).
  { change 4 with (2 ^ 2). rewrite Z.pow_sub_r by lia. reflexivity. }
  rewrite HD.
  set (D := 2 ^ (Z.log2 N - 2)).
  assert (HDpos : 0 < D) by (apply Z.pow_pos_nonneg; lia).
  assert (HP : 2 ^ Z.log2 N = 4 * D).
  { unfold D. replace (Z.log2 N) with (2 + (Z.log2 N - 2)) at 1 by lia.
    rewrite Z.pow_add_r by lia. reflexivity. }
  destruct (Z.log2_spec N ltac:(lia)) as [Hlo Hhi].
  replace (Z.succ (Z.log2 N)) with (Z.log2 N + 1) in Hhi by lia.
  rewrite Z.pow_add_r in Hhi by lia. change (2 ^ 1) with 2 in Hhi.
  simpl (4 =? 0).
  destruct (D =? 0) eqn:E; [apply Z.eqb_eq in E; lia |].
  eexists. split; [reflexivity |].
  unfold at_level, WikiIterator_begin; fields.
  pose proof (Z.mod_pos_bound N D HDpos).
  pose proof (Z.div_mod N D ltac:(lia)).
  repeat split; lia.
Qed.

Lemma WikiIterator_nextLevel_spec (N D W : Z) (me : WikiIterator) :
  at_level N D W me -> N < SIZE_MAX1 -> 0 < W -> 2 * W <= D ->
  at_level N D (2 * W) (snd (WikiIterator_nextLevel me)) /\
  (fst (WikiIterator_nextLevel me) = true <-> 2 * W < D) /\
  numerator (snd (WikiIterator_nextLevel me)) = numerator me /\
  decimal (snd (WikiIterator_nextLevel me)) = decimal me.
Proof.
  intros (Hs & Hd & HND & Hns & Heq) HN HW HWD.
  unfold WikiIterator_nextLevel; fields.
  rewrite Hs, Hd.
  set (ds := decimal_step me) in *. set (ns := numerator_step me) in *.
  assert (Hds0 : 0 <= ds) by nia.
  assert (Hds : 2 * ds <= N) by nia.
  rewrite (add_small ds ds), (add_small ns ns) by (rewrite SIZE_MAX1_eq in *; lia).
  destruct (ns + ns >=? D) eqn:E.
  - apply Z.geb_le in E.
    assert (Hds1 : 2 * ds + 1 <= N) by nia.
    rewrite sub_small, add_small by (rewrite SIZE_MAX1_eq in *; lia).
    unfold at_level; fields; rewrite ?Z.ltb_lt;
      repeat split; intros; try lia; try nia.
  - rewrite Z.geb_leb in E. apply Z.leb_gt in E.
    unfold at_level; fields; rewrite ?Z.ltb_lt;
      repeat split; intros; try lia; try nia.
Qed.

Lemma after_levels_spec (N D d : Z) :
  N < SIZE_MAX1 -> D = 2 ^ d -> 0 <= d ->
  forall (k : nat) (me it : WikiIterator) (w : Z),
    at_level N D (2 ^ w) me -> 0 <= w -> w = 0 \/ w < d ->
    after_levels k me = Some it ->
    at_level N D (2 ^ (w + Z.of_nat k)) it /\
    (w + Z.of_nat k = 0 \/ w + Z.of_nat k < d) /\
    numerator it = numerator me /\ decimal it = decimal me.
Proof.
  intros HN HD Hd. induction k as [|k IH]; intros me it w Hat Hw Hwd Hrun.
  - simpl in Hrun. injection Hrun as <-.
    rewrite Z.add_0_r. split; [exact Hat |]. split; [exact Hwd |].
    split; reflexivity.
  - cbn [after_levels] in Hrun.
    destruct (WikiIterator_nextLevel me) as [more me'] eqn:E.
    destruct more; [| discriminate].
    assert (HW : 0 < 2 ^ w) by (apply Z.pow_pos_nonneg; lia).
    destruct (Z_lt_le_dec w d) as [Hlt | Hge].
    + assert (H2 : 2 * 2 ^ w <= D).
      { subst D. replace d with (1 + (d - 1)) by lia.
        rewrite Z.pow_add_r by lia. change (2 ^ 1) with 2.
        assert (2 ^ w <= 2 ^ (d - 1)) by (apply Z.pow_le_mono_r; lia). lia. }
      destruct (WikiIterator_nextLevel_spec N D (2 ^ w) me Hat HN HW H2)
        as (Hat' & Hmore & Hnum & Hdec).
      rewrite E in Hat', Hmore, Hnum, Hdec. fields.
      assert (Hw1 : w + 1 < d).
      { destruct (Z_lt_le_dec (w + 1) d) as [|Hge]; [assumption |].
        assert (w + 1 = d) by lia.
        assert (2 * 2 ^ w = D).
        { subst D. replace d with (1 + w) by lia.
          rewrite Z.pow_add_r by lia. reflexivity. }
        assert (2 * 2 ^ w < D) by (apply Hmore; reflexivity). lia. }
      replace (2 * 2 ^ w) with (2 ^ (w + 1)) in Hat'
        by (rewrite Z.pow_add_r by lia; change (2 ^ 1) with 2; lia).
      destruct (IH me' it (w + 1) Hat' ltac:(lia) ltac:(lia) Hrun)
        as (Hres & Hk & Hn & Hde).
      replace (w + Z.of_nat (S k)) with (w + 1 + Z.of_nat k) by lia.
      split; [exact Hres |]. split; [lia |]. split; congruence.
    + (* the denominator is 1: the first doubling already reaches N *)
      exfalso. assert (w = 0) by lia. assert (d = 0) by lia. subst w d.
      change (2 ^ 0) with 1 in *. subst D.
      destruct Hat as (Hs & Hden & HND & Hns & Heq).
      unfold WikiIterator_nextLevel in E. rewrite Hs, Hden in E.
      assert (Hn0 : numerator_step me = 0) by lia.
      assert (Hd0 : decimal_step me = N) by lia.
      rewrite Hn0, Hd0 in E.
      rewrite (add_small N N), (add_small 0 0) in E
        by (rewrite SIZE_MAX1_eq; lia).
      change (0 + 0 >=? 1) with false in E. cbv iota in E.
      injection E as E _. apply Z.ltb_lt in E. lia.
Qed.

Lemma WikiIterator_begin_spec (N D W : Z) (me : WikiIterator) :
  at_level N D W me -> handed_out N D W 0 (WikiIterator_begin me).
Proof.
  intros (Hs & Hd & HND & Hns & Heq).
  unfold handed_out, at_level, WikiIterator_begin; fields.
  repeat split; try assumption; lia.
Qed.

Lemma WikiIterator_finished_spec (N D W M j : Z) (me : WikiIterator) :
  handed_out N D W j me -> 0 < W -> D = M * W -> 0 <= j <= M ->
  (WikiIterator_finished me = true <-> j = M) /\
  0 <= decimal me <= N /\ (j = M -> decimal me = N).
Proof.
  intros ((Hs & Hd & HND & Hns & Heq) & Hnum & Hdec) HW HM Hj.
  unfold WikiIterator_finished. rewrite Hs, Z.geb_le.
  set (dc := decimal me) in *. set (nm := numerator me) in *.
  assert (HP : 0 < N * W) by nia.
  assert (HDN : D * N = M * (N * W)) by (rewrite HM; ring).
  set (P := N * W) in *. clearbody P.
  assert (HjP : 0 <= j * P <= M * P) by nia.
  assert (H0 : 0 <= dc).
  { destruct (Z_le_gt_dec 0 dc); [assumption | exfalso].
    assert (dc * D <= - D) by nia. lia. }
  assert (Hle : dc <= N).
  { destruct (Z_le_gt_dec dc N); [assumption | exfalso].
    assert ((N + 1) * D <= dc * D) by nia. lia. }
  split; [| split; [lia |]].
  - split.
    + intros Hfin. assert (dc = N) by lia. subst dc.
      assert (M * P <= j * P) by lia.
      destruct (Z_lt_le_dec j M); [exfalso | lia].
      assert ((j + 1) * P <= M * P) by nia. lia.
    + intros ->. assert (dc * D + nm = D * N) by lia.
      destruct (Z_lt_le_dec dc N); [exfalso | lia].
      assert ((dc + 1) * D <= N * D) by nia. lia.
  - intros ->. assert (dc * D + nm = D * N) by lia.
    destruct (Z_lt_le_dec dc N); [exfalso | lia].
    assert ((dc + 1) * D <= N * D) by nia. lia.
Qed.

Lemma WikiIterator_nextRange_spec (N D W M j : Z) (me : WikiIterator) :
  handed_out N D W j me -> N < SIZE_MAX1 -> 0 < W -> D = M * W ->
  0 <= j < M ->
  let r := fst (WikiIterator_nextRange me) in
  let me' := snd (WikiIterator_nextRange me) in
  handed_out N D W (j + 1) me' /\
  start r = decimal me /\ end_ r = decimal me' /\
  0 <= decimal me /\ decimal me' <= N /\
  (decimal me' = decimal me + decimal_step me \/
   decimal me' = decimal me + decimal_step me + 1) /\
  decimal_step me' = decimal_step me /\ 0 <= decimal_step me.
Proof.
  intros Hout HN HW HM Hj.
  destruct (WikiIterator_finished_spec N D W M j me Hout HW HM ltac:(lia))
    as (_ & Hdc & _).
  destruct Hout as ((Hs & Hd & HND & Hns & Heq) & Hnum & Hdec).
  unfold WikiIterator_nextRange, handed_out, at_level; fields.
  rewrite Hd.
  set (dc := decimal me) in *. set (nm := numerator me) in *.
  set (ds := decimal_step me) in *. set (ns := numerator_step me) in *.
  assert (HP : 0 < N * W) by nia.
  assert (HDN : D * N = M * (N * W)) by (rewrite HM; ring).
  set (P := N * W) in *. clearbody P.
  assert (HjP : (j + 1) * P <= M * P) by nia.
  assert (Hsum : (dc + ds) * D + (nm + ns) = (j + 1) * P) by lia.
  assert (Hds0 : 0 <= ds).
  { destruct (Z_le_gt_dec 0 ds); [assumption | exfalso].
    assert (ds * D <= - D) by nia. lia. }
  assert (Hle : dc + ds <= N).
  { destruct (Z_le_gt_dec (dc + ds) N); [assumption | exfalso].
    assert ((N + 1) * D <= (dc + ds) * D) by nia. lia. }
  rewrite (add_small dc ds), (add_small nm ns) by (rewrite SIZE_MAX1_eq in *; lia).
  destruct (nm + ns >=? D) eqn:E.
  - apply Z.geb_le in E.
    assert (Hle1 : dc + ds + 1 <= N).
    { destruct (Z_le_gt_dec (dc + ds + 1) N); [assumption | exfalso].
      assert (dc + ds = N) by lia.
      assert ((dc + ds) * D = N * D) by (f_equal; assumption). lia. }
    rewrite sub_small, add_small by (rewrite SIZE_MAX1_eq in *; lia).
    repeat split; try assumption; try lia.
  - rewrite Z.geb_leb in E. apply Z.leb_gt in E.
    repeat split; try assumption; try lia.
Qed.

Lemma emitted_spec (N D W M : Z) :
  N < SIZE_MAX1 -> 0 < W -> D = M * W ->
  forall (n : nat) (j : Z) (me : WikiIterator) (fuel : nat),
    handed_out N D W j me -> 0 <= j -> Z.of_nat n = M - j -> (n <= fuel)%nat ->
    exists l, emitted fuel me = Some l /\
      consecutive (decimal me) l N /\
      Forall (fun r => Range_length r = decimal_step me \/
                       Range_length r = decimal_step me + 1) l.
Proof.
  intros HN HW HM. induction n as [|n IH]; intros j me fuel Hout Hj Hn Hfuel.
  - destruct (WikiIterator_finished_spec N D W M j me Hout HW HM ltac:(lia))
      as (Hfin & Hdc & Hlast).
    exists []. split.
    + destruct fuel; cbn [emitted];
        rewrite (proj2 Hfin) by lia; reflexivity.
    + split; [cbn; apply Hlast; lia | constructor].
  - destruct (WikiIterator_finished_spec N D W M j me Hout HW HM ltac:(lia))
      as (Hfin & Hdc & Hlast).
    destruct fuel as [|fuel]; [lia |].
    cbn [emitted].
    destruct (WikiIterator_finished me) eqn:E;
      [assert (j = M) by (apply Hfin; reflexivity); lia |].
    pose proof (WikiIterator_nextRange_spec N D W M j me Hout HN HW HM
                  ltac:(lia)) as Hnext.
    destruct (WikiIterator_nextRange me) as [r me'] eqn:Er.
    cbn [fst snd] in Hnext.
    destruct Hnext as (Hout' & Hst & Hen & H0 & Hle & Hstep & Hds & Hds0).
    destruct (IH (j + 1) me' fuel Hout' ltac:(lia) ltac:(lia) ltac:(lia))
      as (l & Hl & Hcons & Hall).
    rewrite Hl. exists (r :: l). split; [reflexivity |].
    split.
    + cbn [consecutive]. rewrite Hst, Hen. repeat split; try lia. assumption.
    + constructor.
      * unfold Range_length. rewrite Hst, Hen.
        rewrite sub_small by (rewrite SIZE_MAX1_eq in *; lia). lia.
      * rewrite <- Hds. assumption.
Qed.

Lemma consecutive_total (l : list Range) :
  forall lo hi, consecutive lo l hi -> 0 <= lo -> hi < SIZE_MAX1 ->
    lo <= hi /\ total_length l = hi - lo.
Proof.
  induction l as [|r l IH]; intros lo hi H Hlo Hhi.
  - cbn in *. lia.
  - cbn [consecutive] in H. destruct H as (Hs & Hle & Hrest).
    destruct (IH (end_ r) hi Hrest ltac:(lia) Hhi) as [Hle' Htot].
    unfold total_length in *. cbn [fold_right]. rewrite Htot.
    unfold Range_length. rewrite sub_small by lia. lia.
Qed.

(** * Lists of items as a store *)

Lemma firstn_exact {T : Type} (l r : list T) : firstn (length l) (l ++ r) = l.
Proof.
  rewrite firstn_app, Nat.sub_diag, firstn_all. cbn. apply app_nil_r.
Qed.

Lemma skipn_exact {T : Type} (l r : list T) : skipn (length l) (l ++ r) = r.
Proof.
  rewrite skipn_app, Nat.sub_diag, skipn_all. reflexivity.
Qed.

Lemma nth_error_exact {T : Type} (l r : list T) (x : T) :
  nth_error (l ++ x :: r) (length l) = Some x.
Proof.
  rewrite nth_error_app2 by lia. rewrite Nat.sub_diag. reflexivity.
Qed.

Lemma set_nth_exact {T : Type} (l r : list T) (x y : T) :
  set_nth (l ++ x :: r) (length l) y = l ++ y :: r.
Proof.
  induction l as [|a l IH]; cbn; [reflexivity | now rewrite IH].
Qed.

Lemma set_nth_length {T : Type} (l : list T) (i : nat) (y : T) :
  length (set_nth l i y) = length l.
Proof.
  revert i. induction l as [|a l IH]; intros [|i]; cbn; auto.
Qed.

Lemma nth_error_split_at {T : Type} (l : list T) (i : nat) (x : T) :
  nth_error l i = Some x ->
  exists pre post, l = pre ++ x :: post /\ length pre = i.
Proof.
  intros H. destruct (nth_error_split l i H) as (pre & post & -> & Hlen).
  now exists pre, post.
Qed.

Lemma set_nth_same' {T : Type} (l : list T) (i : nat) (x : T) :
  nth_error l i = Some x -> set_nth l i x = l.
Proof.
  revert i. induction l as [|a l IH]; intros [|i] H; cbn in *;
    try discriminate.
  - now injection H as ->.
  - now rewrite IH.
Qed.

(* writing two items over each other, given the parts of the list *)
Lemma set_nth_pair {T : Type} (pre mid post : list T) (x y : T) :
  set_nth (set_nth (pre ++ x :: mid ++ y :: post) (length pre) y)
    (length pre + 1 + length mid) x = pre ++ y :: mid ++ x :: post /\
  set_nth (set_nth (pre ++ x :: mid ++ y :: post)
             (length pre + 1 + length mid) x) (length pre) y
    = pre ++ y :: mid ++ x :: post.
Proof.
  assert (Hlen : forall z, (length pre + 1 + length mid)%nat
                           = length (pre ++ z :: mid))
    by (intros; rewrite length_app; cbn [length]; lia).
  split.
  - rewrite set_nth_exact.
    replace (pre ++ y :: mid ++ y :: post)
      with ((pre ++ y :: mid) ++ y :: post)
      by (rewrite <- app_assoc; reflexivity).
    rewrite (Hlen y), set_nth_exact. rewrite <- app_assoc. reflexivity.
  - replace (pre ++ x :: mid ++ y :: post)
      with ((pre ++ x :: mid) ++ y :: post)
      by (rewrite <- app_assoc; reflexivity).
    rewrite (Hlen x), set_nth_exact. rewrite <- app_assoc. cbn [app].
    apply set_nth_exact.
Qed.

(* two items of a list found by their indices, the lower one first *)
Lemma nth_error_two {T : Type} (l : list T) (i j : nat) (x y : T) :
  (i < j)%nat -> nth_error l i = Some x -> nth_error l j = Some y ->
  exists pre mid post,
    l = pre ++ x :: mid ++ y :: post /\ length pre = i /\
    (length pre + 1 + length mid)%nat = j.
Proof.
  intros Hij Hx Hy.
  destruct (nth_error_split_at l i x Hx) as (pre & rest & -> & Hpre).
  rewrite nth_error_app2 in Hy by lia.
  replace (j - length pre)%nat with (S (j - length pre - 1)) in Hy by lia.
  cbn [nth_error] in Hy.
  destruct (nth_error_split_at rest _ y Hy) as (mid & post & -> & Hmid).
  exists pre, mid, post. repeat split; auto. lia.
Qed.

Lemma set_nth_swap_perm {T : Type} (l : list T) (i j : nat) (x y : T) :
  nth_error l i = Some x -> nth_error l j = Some y ->
  Permutation l (set_nth (set_nth l i y) j x).
Proof.
  intros Hx Hy.
  assert (Hmid : forall (pre mid post : list T) a b,
            Permutation (pre ++ a :: mid ++ b :: post)
                        (pre ++ b :: mid ++ a :: post)).
  { intros pre mid post a b. apply Permutation_app_head.
    transitivity (a :: b :: mid ++ post).
    - constructor. symmetry. apply Permutation_middle.
    - transitivity (b :: a :: mid ++ post); [constructor |].
      constructor. apply Permutation_middle. }
  destruct (Nat.lt_trichotomy i j) as [Hlt | [-> | Hgt]].
  - destruct (nth_error_two l i j x y Hlt Hx Hy)
      as (pre & mid & post & -> & <- & <-).
    rewrite (proj1 (set_nth_pair pre mid post x y)). apply Hmid.
  - assert (x = y) by congruence. subst y.
    rewrite (set_nth_same' l j x Hx), (set_nth_same' l j x Hx). reflexivity.
  - destruct (nth_error_two l j i y x Hgt Hy Hx)
      as (pre & mid & post & -> & <- & <-).
    rewrite (proj2 (set_nth_pair pre mid post y x)). apply Hmid.
Qed.

Section Items.
Context {T : Type} (size : Z).
#[local] Hint Extern 0 (Store (list _) _) =>
  exact (list_store size) : typeclass_instances.

Lemma cell_of_index (bound : nat) (i : Z) :
  0 < size -> 0 <= i < Z.of_nat bound -> size * i < SIZE_MAX1 ->
  cell size bound (size *% i) = Some (Z.to_nat i).
Proof.
  intros Hs Hi Hfit.
  rewrite mul_small by nia.
  unfold cell.
  assert (Hmod : (size * i) mod size = 0)
    by (rewrite Z.mul_comm; apply Z_mod_mult).
  assert (Hdiv : size * i / size = i)
    by (rewrite Z.mul_comm; apply Z.div_mul; lia).
  rewrite Hmod, Hdiv.
  replace (0 <? size) with true by (symmetry; apply Z.ltb_lt; lia).
  replace (0 <=? size * i) with true by (symmetry; apply Z.leb_le; nia).
  replace (i <? Z.of_nat bound) with true by (symmetry; apply Z.ltb_lt; lia).
  reflexivity.
Qed.

Lemma ptr_nth (array : list T) (i : Z) :
  fits size array -> 0 <= i < Z.of_nat (length array) ->
  ptr array (size *% i) = nth_error array (Z.to_nat i).
Proof.
  intros [Hs Hfit] Hi. cbn [ptr list_store]. unfold list_ptr.
  rewrite cell_of_index by (try lia; nia). reflexivity.
Qed.

Lemma ptr_app (pre post : list T) (x : T) (i : Z) :
  fits size (pre ++ x :: post) -> i = Z.of_nat (length pre) ->
  ptr (pre ++ x :: post) (size *% i) = Some x.
Proof.
  intros Hfit ->. rewrite ptr_nth; auto.
  - rewrite Nat2Z.id. apply nth_error_exact.
  - rewrite length_app. cbn [length]. lia.
Qed.

Lemma Swap_nth (array : list T) (i j : Z) (x y : T) :
  fits size array ->
  0 <= i < Z.of_nat (length array) -> 0 <= j < Z.of_nat (length array) ->
  nth_error array (Z.to_nat i) = Some x ->
  nth_error array (Z.to_nat j) = Some y ->
  Swap array (size *% i) (size *% j) size
    = Some (set_nth (set_nth array (Z.to_nat i) y) (Z.to_nat j) x).
Proof.
  intros [Hs Hfit] Hi Hj Hx Hy. cbn [Swap list_store]. unfold list_Swap.
  rewrite Z.eqb_refl.
  rewrite !cell_of_index by (try lia; nia).
  rewrite Hx, Hy. reflexivity.
Qed.

(* swapping two different items of an array *)
Lemma Swap_app (pre mid post : list T) (x y : T) (i j : Z) :
  fits size (pre ++ x :: mid ++ y :: post) ->
  i = Z.of_nat (length pre) -> j = Z.of_nat (length pre + 1 + length mid) ->
  Swap (pre ++ x :: mid ++ y :: post) (size *% i) (size *% j) size
    = Some (pre ++ y :: mid ++ x :: post) /\
  Swap (pre ++ x :: mid ++ y :: post) (size *% j) (size *% i) size
    = Some (pre ++ y :: mid ++ x :: post).
Proof.
  intros Hfit -> ->.
  assert (Hlen : length (pre ++ x :: mid ++ y :: post)
                 = (length pre + 1 + length mid + 1 + length post)%nat).
  { rewrite length_app. cbn [length]. rewrite length_app. cbn [length]. lia. }
  assert (Hx : nth_error (pre ++ x :: mid ++ y :: post) (length pre) = Some x)
    by apply nth_error_exact.
  assert (Hy : nth_error (pre ++ x :: mid ++ y :: post)
                 (length pre + 1 + length mid) = Some y).
  { replace (pre ++ x :: mid ++ y :: post)
      with ((pre ++ x :: mid) ++ y :: post)
      by (rewrite <- app_assoc; reflexivity).
    replace (length pre + 1 + length mid)%nat with (length (pre ++ x :: mid))
      by (rewrite length_app; cbn [length]; lia).
    apply nth_error_exact. }
  assert (E1 : set_nth (set_nth (pre ++ x :: mid ++ y :: post) (length pre) y)
                 (length pre + 1 + length mid) x
               = pre ++ y :: mid ++ x :: post).
  { rewrite set_nth_exact.
    replace (pre ++ y :: mid ++ y :: post)
      with ((pre ++ y :: mid) ++ y :: post)
      by (rewrite <- app_assoc; reflexivity).
    replace (length pre + 1 + length mid)%nat with (length (pre ++ y :: mid))
      by (rewrite length_app; cbn [length]; lia).
    rewrite set_nth_exact. rewrite <- app_assoc. reflexivity. }
  assert (E2 : set_nth (set_nth (pre ++ x :: mid ++ y :: post)
                          (length pre + 1 + length mid) x) (length pre) y
               = pre ++ y :: mid ++ x :: post).
  { replace (pre ++ x :: mid ++ y :: post)
      with ((pre ++ x :: mid) ++ y :: post)
      by (rewrite <- app_assoc; reflexivity).
    replace (length pre + 1 + length mid)%nat with (length (pre ++ x :: mid))
      by (rewrite length_app; cbn [length]; lia).
    rewrite set_nth_exact. rewrite <- app_assoc. cbn [app].
    apply set_nth_exact. }
  split.
  - rewrite (Swap_nth _ _ _ x y); auto; rewrite ?Nat2Z.id; auto; try lia.
    now rewrite E1.
  - rewrite (Swap_nth _ _ _ y x); auto; rewrite ?Nat2Z.id; auto; try lia.
    now rewrite E2.
Qed.

(* swapping an item with itself *)
Lemma Swap_self (array : list T) (i : Z) :
  fits size array -> 0 <= i < Z.of_nat (length array) ->
  Swap array (size *% i) (size *% i) size = Some array.
Proof.
  intros Hfit Hi.
  destruct (nth_error array (Z.to_nat i)) as [x|] eqn:Hx.
  - rewrite (Swap_nth _ _ _ x x); auto.
    destruct (nth_error_split_at _ _ _ Hx) as (pre & post & -> & Hlen).
    rewrite <- Hlen. now rewrite !set_nth_exact.
  - apply nth_error_None in Hx. lia.
Qed.
End Items.

(** * Reverse, BlockSwap and Rotate on a list of items *)

Lemma fits_length {T : Type} (size : Z) (a b : list T) :
  fits size a -> length b = length a -> fits size b.
Proof. unfold fits. intros H ->. exact H. Qed.

Lemma rev_short {T : Type} (m : list T) : (length m <= 1)%nat -> rev m = m.
Proof. destruct m as [|a [|b m]]; cbn; intros; try reflexivity; lia. Qed.

(* push [length] through appended and reversed lists, everywhere *)
Ltac lengths :=
  repeat (progress (rewrite ?length_app, ?length_rev in *; cbn [length] in *)).

(* right-nested appends, with the conses pushed out *)
Ltac app_norm :=
  repeat (progress (rewrite <- ?app_assoc; cbn [app])).

Ltac app_norm_in H :=
  repeat (progress (rewrite <- ?app_assoc in H; cbn [app] in H)).

Section Items.
Context {T : Type} (size : Z).
#[local] Hint Extern 0 (Store (list _) _) =>
  exact (list_store size) : typeclass_instances.

Lemma Reverse_for_spec (n : nat) :
  forall (l1 l2 m pre post : list T) (fuel : nat) (range : Range),
    length l1 = n -> length l2 = n ->
    fits size (pre ++ l1 ++ m ++ l2 ++ post) ->
    start range = Z.of_nat (length pre) ->
    end_ range = Z.of_nat (length pre + n + length m + n) ->
    (n <= fuel)%nat ->
    Reverse_for fuel (pre ++ l1 ++ m ++ l2 ++ post) size range (Z.of_nat n)
      = Done (pre ++ rev l2 ++ m ++ rev l1 ++ post).
Proof.
  induction n as [|n IH]; intros l1 l2 m pre post fuel range H1 H2 Hfit Hs He Hf.
  - destruct l1; [| discriminate]. destruct l2; [| discriminate].
    destruct fuel; reflexivity.
  - destruct fuel as [|fuel]; [lia |].
    destruct (exists_last (l := l1)) as (l1' & x & ->);
      [intros ->; discriminate |].
    destruct l2 as [|y l2']; [discriminate |].
    rewrite length_app in H1. cbn [length] in H1, H2.
    assert (Hbound : Z.of_nat (length (pre ++ (l1' ++ [x]) ++ m ++ (y :: l2') ++ post))
                     < SIZE_MAX1).
    { destruct Hfit as [Hs0 Hfit]. nia. }
    lengths.
    cbn [Reverse_for].
    replace (Z.of_nat (S n) >? 0) with true by (symmetry; apply Z.gtb_lt; lia).
    rewrite Hs, He.
    replace (Z.of_nat (length pre) +% Z.of_nat (S n) -% 1)
      with (Z.of_nat (length (pre ++ l1')))
      by (rewrite length_app; unwrap; lia).
    replace (Z.of_nat (length pre + S n + length m + S n) -% Z.of_nat (S n))
      with (Z.of_nat (length (pre ++ l1') + 1 + length m))
      by (rewrite length_app; unwrap; lia).
    replace (pre ++ (l1' ++ [x]) ++ m ++ (y :: l2') ++ post)
      with ((pre ++ l1') ++ x :: m ++ y :: (l2' ++ post))
      by (app_norm; reflexivity).
    rewrite (proj1 (Swap_app size (pre ++ l1') m (l2' ++ post) x y _ _
                      ltac:(repeat rewrite <- app_assoc in *; exact Hfit)
                      eq_refl eq_refl)).
    cbn [lift bind].
    replace (Z.of_nat (S n) -% 1) with (Z.of_nat n) by (unwrap; lia).
    replace ((pre ++ l1') ++ y :: m ++ x :: l2' ++ post)
      with (pre ++ l1' ++ (y :: m ++ [x]) ++ l2' ++ post)
      by (app_norm; reflexivity).
    rewrite IH; try lia.
    + rewrite rev_app_distr. cbn [rev]. app_norm. reflexivity.
    + eapply fits_length; [exact Hfit |].
      repeat (rewrite !length_app; cbn [length]). lia.
    + cbn [length]. rewrite length_app. cbn [length]. lia.
Qed.

Lemma Reverse_spec (pre l post : list T) (fuel : nat) (range : Range) :
  fits size (pre ++ l ++ post) ->
  start range = Z.of_nat (length pre) ->
  end_ range = Z.of_nat (length pre + length l) ->
  (length l <= fuel)%nat ->
  Reverse fuel (pre ++ l ++ post) size range = Done (pre ++ rev l ++ post).
Proof.
  intros Hfit Hs He Hf.
  assert (Hbound : Z.of_nat (length (pre ++ l ++ post)) < SIZE_MAX1).
  { destruct Hfit as [Hs0 Hfit]. nia. }
  rewrite !length_app in Hbound.
  unfold Reverse, Range_length. rewrite Hs, He.
  rewrite sub_small by lia.
  replace (Z.of_nat (length pre + length l) - Z.of_nat (length pre))
    with (Z.of_nat (length l)) by lia.
  set (h := (length l / 2)%nat).
  assert (Hh : (2 * h <= length l <= 2 * h + 1)%nat).
  { unfold h. pose proof (Nat.div_mod_eq (length l) 2).
    pose proof (Nat.mod_upper_bound (length l) 2). lia. }
  replace (Z.of_nat (length l) / 2) with (Z.of_nat h)
    by (unfold h; rewrite Nat2Z.inj_div; reflexivity).
  set (l1 := firstn h l).
  set (m := firstn (length l - 2 * h) (skipn h l)).
  set (l2 := skipn (length l - 2 * h) (skipn h l)).
  assert (El : l = l1 ++ m ++ l2).
  { unfold l1, m, l2. now rewrite !firstn_skipn. }
  assert (H1 : length l1 = h) by (unfold l1; rewrite length_firstn; lia).
  assert (Hm : length m = (length l - 2 * h)%nat).
  { unfold m. rewrite length_firstn, length_skipn. lia. }
  assert (H2 : length l2 = h).
  { unfold l2. rewrite !length_skipn. lia. }
  clearbody l1 m l2. subst l.
  repeat rewrite <- app_assoc in *.
  rewrite (Reverse_for_spec h l1 l2 m pre post fuel range); auto.
  - rewrite !rev_app_distr. rewrite (rev_short m) by lia.
    repeat rewrite <- app_assoc. reflexivity.
  - rewrite He, !length_app. lia.
  - rewrite !length_app in Hf. lia.
Qed.

Lemma mul_zero (a : Z) : 0 = a *% Z.of_nat (@length T []).
Proof. cbn [length]. unfold mul, wrap. now rewrite Z.mul_0_r. Qed.

Lemma mul_comm' (a b : Z) : a *% b = b *% a.
Proof. unfold mul. now rewrite Z.mul_comm. Qed.

Lemma memcpy_parts (dst src p old q u new v : list T) (d s n : Z) :
  dst = p ++ old ++ q -> src = u ++ new ++ v ->
  0 < size ->
  size * Z.of_nat (length p + length new) < SIZE_MAX1 ->
  size * Z.of_nat (length u + length new) < SIZE_MAX1 ->
  length old = length new ->
  d = size *% Z.of_nat (length p) -> s = size *% Z.of_nat (length u) ->
  n = Z.of_nat (length new) *% size ->
  memcpy dst d src s n = Some (p ++ new ++ q).
Proof.
  intros -> -> Hs Hp Hu Hlen -> -> ->.
  cbn [memcpy list_store]. unfold list_memcpy.
  destruct new as [|x new].
  - destruct old; [| discriminate]. reflexivity.
  - rewrite mul_comm'.
    cbn [length] in *.
    assert (Hn : (size *% Z.of_nat (S (length new)) =? 0) = false).
    { apply Z.eqb_neq. rewrite mul_small by nia. nia. }
    rewrite Hn.
    rewrite !cell_of_index; try lia; try nia;
      try (lengths; lia).
    rewrite !Nat2Z.id.
    replace (length p + S (length new) <=? length (p ++ old ++ q))%nat with true
      by (symmetry; apply Nat.leb_le; lengths; lia).
    replace (length u + S (length new) <=? length (u ++ (x :: new) ++ v))%nat
      with true by (symmetry; apply Nat.leb_le; lengths; lia).
    cbn [andb]. unfold blit. f_equal.
    rewrite firstn_exact, skipn_exact.
    replace (S (length new)) with (length (x :: new)) by reflexivity.
    rewrite firstn_exact.
    replace (p ++ old ++ q) with ((p ++ old) ++ q) by (now rewrite app_assoc).
    replace (length p + length (x :: new))%nat with (length (p ++ old))
      by (lengths; lia).
    now rewrite skipn_exact.
Qed.

Lemma memmove_parts (array p old q u new v : list T) (d s n : Z) :
  array = p ++ old ++ q -> array = u ++ new ++ v ->
  0 < size ->
  size * Z.of_nat (length p + length new) < SIZE_MAX1 ->
  size * Z.of_nat (length u + length new) < SIZE_MAX1 ->
  length old = length new ->
  d = size *% Z.of_nat (length p) -> s = size *% Z.of_nat (length u) ->
  n = Z.of_nat (length new) *% size ->
  memmove array d s n = Some (p ++ new ++ q).
Proof.
  intros. cbn [memmove list_store]. unfold list_memmove.
  apply (memcpy_parts array array p old q u new v); assumption.
Qed.

Lemma Rotate_reversals (pre l1 l2 post cache : list T) (fuel : nat)
    (range : Range) :
  fits size (pre ++ l1 ++ l2 ++ post) ->
  start range = Z.of_nat (length pre) ->
  end_ range = Z.of_nat (length pre + length l1 + length l2) ->
  (length l1 + length l2 <= fuel)%nat ->
  (array1 <- Reverse fuel (pre ++ l1 ++ l2 ++ post) size
               (Range_new (start range) (start range +% Z.of_nat (length l1))) ;;
   array2 <- Reverse fuel array1 size
               (Range_new (start range +% Z.of_nat (length l1)) (end_ range)) ;;
   array3 <- Reverse fuel array2 size range ;;
   Done (array3, cache))
  = Done (pre ++ l2 ++ l1 ++ post, cache).
Proof.
  intros Hfit Hs He Hf.
  assert (Hbound : Z.of_nat (length (pre ++ l1 ++ l2 ++ post)) < SIZE_MAX1).
  { destruct Hfit as [Hs0 Hfit]. nia. }
  lengths.
  rewrite Hs, He. rewrite add_small by lia.
  rewrite (Reverse_spec pre l1 (l2 ++ post)); auto; cbn [start end_];
    try lia.
  cbn [bind].
  replace (pre ++ rev l1 ++ l2 ++ post) with ((pre ++ rev l1) ++ l2 ++ post)
    by (app_norm; reflexivity).
  rewrite (Reverse_spec (pre ++ rev l1) l2 post); cbn [start end_];
    try (lengths; lia).
  2:{ eapply fits_length; [exact Hfit |]. lengths. lia. }
  cbn [bind].
  replace ((pre ++ rev l1) ++ rev l2 ++ post)
    with (pre ++ (rev l1 ++ rev l2) ++ post) by (app_norm; reflexivity).
  rewrite (Reverse_spec pre (rev l1 ++ rev l2) post); cbn [start end_];
    try (lengths; lia).
  2:{ eapply fits_length; [exact Hfit |]. lengths. lia. }
  cbn [bind]. rewrite rev_app_distr, !rev_involutive. app_norm. reflexivity.
Qed.

Lemma Rotate_spec (pre l1 l2 post cache : list T) (fuel : nat) (range : Range)
    (amount cache_size : Z) :
  fits size (pre ++ l1 ++ l2 ++ post) ->
  start range = Z.of_nat (length pre) ->
  end_ range = Z.of_nat (length pre + length l1 + length l2) ->
  amount = Z.of_nat (length l1) ->
  0 <= cache_size <= Z.of_nat (length cache) ->
  (length l1 + length l2 <= fuel)%nat ->
  exists cache',
    Rotate fuel (pre ++ l1 ++ l2 ++ post) size amount range cache cache_size
      = Done (pre ++ l2 ++ l1 ++ post, cache') /\
    length cache' = length cache.
Proof.
  intros Hfit Hs He -> Hc Hf.
  assert (Hbound : Z.of_nat (length (pre ++ l1 ++ l2 ++ post)) < SIZE_MAX1).
  { destruct Hfit as [Hs0 Hfit]. nia. }
  pose proof Hfit as [Hs0 Hfit'].
  lengths.
  unfold Rotate.
  assert (HR : Range_length range = Z.of_nat (length l1 + length l2)).
  { unfold Range_length. rewrite Hs, He. rewrite sub_small; lia. }
  rewrite HR.
  destruct (Z.of_nat (length l1 + length l2) =? 0) eqn:E0.
  { apply Z.eqb_eq in E0.
    destruct l1; [| cbn [length] in E0; lia].
    destruct l2; [| cbn [length] in E0; lia].
    exists cache. split; reflexivity. }
  apply Z.eqb_neq in E0.
  pose proof (Rotate_reversals pre l1 l2 post cache fuel range Hfit Hs He Hf)
    as Hrev.
  assert (H1 : Range_length (Range_new (start range)
                               (start range +% Z.of_nat (length l1)))
               = Z.of_nat (length l1)).
  { unfold Range_length. cbn [start end_]. rewrite Hs. unwrap. lia. }
  assert (H2 : Range_length (Range_new (start range +% Z.of_nat (length l1))
                               (end_ range))
               = Z.of_nat (length l2)).
  { unfold Range_length. cbn [start end_]. rewrite Hs, He. unwrap. lia. }
  rewrite H1, H2. cbn [start end_].
  set (l12 := l1 ++ l2).
  assert (El12 : l1 ++ l2 ++ post = l12 ++ post)
    by (unfold l12; app_norm; reflexivity).
  assert (Hl12 : length l12 = (length l1 + length l2)%nat)
    by (unfold l12; lengths; lia).
  assert (Hsplit : l12 = firstn (length l2) l12 ++ skipn (length l2) l12)
    by (now rewrite firstn_skipn).
  assert (Hf2 : length (firstn (length l2) l12) = length l2)
    by (rewrite length_firstn; lia).
  assert (Hs2 : length (skipn (length l2) l12) = length l1)
    by (rewrite length_skipn; lia).
  assert (Hsz : forall k : nat,
            (k <= length pre + (length l1 + (length l2 + length post)))%nat ->
            size * Z.of_nat k < SIZE_MAX1) by (intros; nia).
  destruct (Z.of_nat (length l1) <=? Z.of_nat (length l2)) eqn:E12.
  - apply Z.leb_le in E12.
    destruct (Z.of_nat (length l1) <=? cache_size) eqn:Ec.
    + apply Z.leb_le in Ec.
      (* the first range goes through the cache *)
      erewrite (memcpy_parts cache (pre ++ l1 ++ l2 ++ post)
                  [] (firstn (length l1) cache) (skipn (length l1) cache)
                  pre l1 (l2 ++ post));
        [ | now rewrite firstn_skipn | reflexivity | assumption
          | apply Hsz; cbn [length]; lia | apply Hsz; lia
          | rewrite length_firstn; lia | apply mul_zero
          | rewrite Hs; reflexivity | reflexivity ].
      cbn [lift bind app].
      erewrite (memmove_parts (pre ++ l1 ++ l2 ++ post)
                  pre (firstn (length l2) l12)
                  (skipn (length l2) l12 ++ post)
                  (pre ++ l1) l2 post);
        [ | rewrite El12; rewrite Hsplit at 1; app_norm; reflexivity
          | app_norm; reflexivity | assumption
          | apply Hsz; lia | apply Hsz; lengths; lia
          | assumption
          | rewrite Hs; reflexivity
          | f_equal; rewrite Hs; unwrap; lengths; lia
          | reflexivity ].
      cbn [lift bind].
      erewrite (memcpy_parts (pre ++ l2 ++ skipn (length l2) l12 ++ post)
                  (l1 ++ skipn (length l1) cache)
                  (pre ++ l2) (skipn (length l2) l12) post
                  [] l1 (skipn (length l1) cache));
        [ | app_norm; reflexivity | reflexivity | assumption
          | apply Hsz; lengths; lia | apply Hsz; cbn [length]; lia
          | assumption
          | f_equal; rewrite Hs; unwrap; lengths; lia
          | apply mul_zero | reflexivity ].
      cbn [lift bind]. eexists. split.
      * app_norm. reflexivity.
      * rewrite length_app, length_skipn. lia.
    + rewrite Hrev. eexists. split; reflexivity.
  - apply Z.leb_gt in E12.
    destruct (Z.of_nat (length l2) <=? cache_size) eqn:Ec.
    + apply Z.leb_le in Ec.
      (* the second range goes through the cache *)
      erewrite (memcpy_parts cache (pre ++ l1 ++ l2 ++ post)
                  [] (firstn (length l2) cache) (skipn (length l2) cache)
                  (pre ++ l1) l2 post);
        [ | now rewrite firstn_skipn | app_norm; reflexivity | assumption
          | apply Hsz; cbn [length]; lia | apply Hsz; lengths; lia
          | rewrite length_firstn; lia | apply mul_zero
          | f_equal; rewrite Hs; unwrap; lengths; lia | reflexivity ].
      cbn [lift bind app].
      set (f1 := firstn (length l1) l12).
      set (s1 := skipn (length l1) l12).
      assert (Hsplit1 : l12 = f1 ++ s1) by (unfold f1, s1; now rewrite firstn_skipn).
      assert (Hf1 : length f1 = length l1)
        by (unfold f1; rewrite length_firstn; lia).
      assert (Hs1 : length s1 = length l2)
        by (unfold s1; rewrite length_skipn; lia).
      erewrite (memmove_parts (pre ++ l1 ++ l2 ++ post)
                  (pre ++ firstn (length l2) l12) (skipn (length l2) l12) post
                  pre l1 (l2 ++ post));
        [ | rewrite El12; rewrite Hsplit at 1; app_norm; reflexivity
          | reflexivity | assumption
          | apply Hsz; lengths; lia | apply Hsz; lia
          | assumption
          | f_equal; rewrite He; unwrap; lengths; lia
          | rewrite Hs; reflexivity
          | reflexivity ].
      cbn [lift bind].
      erewrite (memcpy_parts ((pre ++ firstn (length l2) l12) ++ l1 ++ post)
                  (l2 ++ skipn (length l2) cache)
                  pre (firstn (length l2) l12) (l1 ++ post)
                  [] l2 (skipn (length l2) cache));
        [ | app_norm; reflexivity | reflexivity | assumption
          | apply Hsz; lia | apply Hsz; cbn [length]; lia
          | assumption
          | rewrite Hs; reflexivity
          | apply mul_zero | reflexivity ].
      cbn [lift bind]. eexists. split.
      * reflexivity.
      * rewrite length_app, length_skipn. lia.
    + rewrite Hrev. eexists. split; reflexivity.
Qed.
End Items.

(** * Slices of an array *)

Section Slices.
Context {T : Type}.
Implicit Types array : list T.

Lemma slice_length array (lo hi : Z) :
  0 <= lo <= hi -> hi <= Z.of_nat (length array) ->
  length (slice array lo hi) = Z.to_nat (hi - lo).
Proof.
  intros H1 H2. unfold slice. rewrite length_firstn, length_skipn. lia.
Qed.

Lemma slice_all array : slice array 0 (Z.of_nat (length array)) = array.
Proof.
  unfold slice. cbn [Z.to_nat skipn]. rewrite Z.sub_0_r, Nat2Z.id.
  apply firstn_all.
Qed.

Lemma slice_empty array (lo : Z) : slice array lo lo = [].
Proof. unfold slice. now rewrite Z.sub_diag. Qed.

Lemma slice_split array (lo mid hi : Z) :
  0 <= lo <= mid -> mid <= hi -> hi <= Z.of_nat (length array) ->
  slice array lo hi = slice array lo mid ++ slice array mid hi.
Proof.
  intros H1 H2 H3. unfold slice.
  set (r := skipn (Z.to_nat lo) array).
  assert (Hr : skipn (Z.to_nat mid) array = skipn (Z.to_nat (mid - lo)) r).
  { unfold r. rewrite skipn_skipn. f_equal. lia. }
  rewrite Hr.
  assert (Hlen : (Z.to_nat (mid - lo) <= length r)%nat).
  { unfold r. rewrite length_skipn. lia. }
  rewrite <- (firstn_skipn (Z.to_nat (mid - lo)) r) at 1.
  rewrite firstn_app, length_firstn.
  rewrite firstn_firstn.
  replace (Nat.min (Z.to_nat (hi - lo)) (Z.to_nat (mid - lo)))
    with (Z.to_nat (mid - lo)) by lia.
  f_equal. f_equal. lia.
Qed.

(* an array cut at three places *)
Lemma slice_cut3 array (a b c : Z) :
  0 <= a <= b -> b <= c -> c <= Z.of_nat (length array) ->
  array = slice array 0 a ++ slice array a b ++ slice array b c
            ++ slice array c (Z.of_nat (length array)).
Proof.
  intros H1 H2 H3.
  rewrite <- (slice_split array b c) by lia.
  rewrite <- (slice_split array a b) by lia.
  rewrite <- (slice_split array 0 a) by lia.
  symmetry. apply slice_all.
Qed.

(* the slice between two cuts of an array given by its parts *)
Lemma slice_parts (pre l post : list T) (lo hi : Z) :
  lo = Z.of_nat (length pre) -> hi = Z.of_nat (length pre + length l) ->
  slice (pre ++ l ++ post) lo hi = l.
Proof.
  intros -> ->. unfold slice.
  rewrite Nat2Z.id, skipn_exact.
  replace (Z.to_nat (Z.of_nat (length pre + length l) - Z.of_nat (length pre)))
    with (length l) by lia.
  apply firstn_exact.
Qed.
End Slices.

(** * The searches *)

Section SearchSchemes.
Context {Arr Val : Type} {ST : Store Arr Val}.
Variables (array : Arr) (value : option Val) (size : Z) (compare : Comparison Val).

Lemma BinaryFirst_while_scheme (fuel : nat) (s e : Z) :
  BinaryFirst_while fuel array value size compare s e
    = search_while (test_first array value size compare) fuel s e.
Proof.
  revert s e. induction fuel as [|fuel IH]; intros s e; cbn;
    destruct (s <? e); try reflexivity.
  unfold test_first.
  destruct (call compare (ptr array (size *% (s +% (e -% s) / 2))) value);
    cbn; try reflexivity.
  destruct (a <? 0); apply IH.
Qed.

Lemma BinaryLast_while_scheme (fuel : nat) (s e : Z) :
  BinaryLast_while fuel array value size compare s e
    = search_while (test_last array value size compare) fuel s e.
Proof.
  revert s e. induction fuel as [|fuel IH]; intros s e; cbn;
    destruct (s <? e); try reflexivity.
  unfold test_last.
  destruct (call compare value (ptr array (size *% (s +% (e -% s) / 2))));
    cbn; try reflexivity.
  destruct (a >=? 0); apply IH.
Qed.

Lemma BinaryFirst_scheme (fuel : nat) (range : Range) :
  BinaryFirst fuel array value size range compare
    = search (test_first array value size compare) true fuel range.
Proof.
  unfold BinaryFirst, search. destruct (start range >=? end_ range);
    [reflexivity |].
  rewrite BinaryFirst_while_scheme.
  destruct (search_while _ fuel (start range) (end_ range -% 1)) as [s| |];
    cbn; try reflexivity.
  all: destruct (s =? end_ range -% 1); [| reflexivity].
  all: unfold test_first.
  all: destruct (call compare (ptr array (size *% s)) value); cbn;
    try reflexivity.
  all: destruct (a <? 0); reflexivity.
Qed.

Lemma BinaryLast_scheme (fuel : nat) (range : Range) :
  BinaryLast fuel array value size range compare
    = search (test_last array value size compare) false fuel range.
Proof.
  unfold BinaryLast, search. destruct (start range >=? end_ range);
    [reflexivity |].
  rewrite BinaryLast_while_scheme.
  destruct (search_while _ fuel (start range) (end_ range -% 1)) as [s| |];
    cbn; try reflexivity.
  all: destruct (s =? end_ range -% 1); [| reflexivity].
  all: unfold test_last.
  all: destruct (call compare value (ptr array (size *% s))); cbn;
    try reflexivity.
  all: destruct (a >=? 0); reflexivity.
Qed.

Lemma FindFirstForward_for_scheme (fuel : nat) (range : Range) (skip index : Z) :
  FindFirstForward_for fuel array value size range compare skip index
    = forward_for (test_first array value size compare) true fuel range
        skip index.
Proof.
  revert index. induction fuel as [|fuel IH]; intros index; cbn;
    unfold test_first;
    (destruct (call compare (ptr array (size *% (index -% 1))) value);
     cbn; try reflexivity);
    rewrite !BinaryFirst_scheme;
    destruct (a <? 0); try reflexivity;
    destruct (index >=? end_ range -% skip); try reflexivity.
  apply IH.
Qed.

Lemma FindLastForward_for_scheme (fuel : nat) (range : Range) (skip index : Z) :
  FindLastForward_for fuel array value size range compare skip index
    = forward_for (test_last array value size compare) false fuel range
        skip index.
Proof.
  revert index. induction fuel as [|fuel IH]; intros index; cbn;
    unfold test_last;
    (destruct (call compare value (ptr array (size *% (index -% 1))));
     cbn; try reflexivity);
    rewrite !BinaryLast_scheme;
    destruct (a >=? 0); try reflexivity;
    destruct (index >=? end_ range -% skip); try reflexivity.
  apply IH.
Qed.

Lemma FindFirstBackward_for_scheme (fuel : nat) (range : Range) (skip index : Z) :
  FindFirstBackward_for fuel array value size range compare skip index
    = backward_for (test_first array value size compare) true fuel range
        skip index.
Proof.
  revert index. induction fuel as [|fuel IH]; intros index; cbn;
    rewrite !BinaryFirst_scheme;
    (destruct (index >? start range); [| reflexivity]);
    unfold test_first;
    (destruct (call compare (ptr array (size *% (index -% 1))) value);
     cbn; try reflexivity);
    rewrite Z.geb_leb, Z.leb_antisym;
    destruct (a <? 0); cbn; try reflexivity;
    destruct (index <? start range +% skip); try reflexivity.
  apply IH.
Qed.

Lemma FindLastBackward_for_scheme (fuel : nat) (range : Range) (skip index : Z) :
  FindLastBackward_for fuel array value size range compare skip index
    = backward_for (test_last array value size compare) false fuel range
        skip index.
Proof.
  revert index. induction fuel as [|fuel IH]; intros index; cbn;
    rewrite !BinaryLast_scheme;
    (destruct (index >? start range); [| reflexivity]);
    unfold test_last;
    (destruct (call compare value (ptr array (size *% (index -% 1))));
     cbn; try reflexivity);
    rewrite Z.geb_leb, Z.leb_antisym, negb_involutive;
    destruct (a <? 0); cbn; try reflexivity;
    destruct (index <? start range +% skip); try reflexivity.
  apply IH.
Qed.
End SearchSchemes.

Section SplitPoint.
Variables (test : Z -> outcome bool) (holds : Z -> bool) (lo hi p : Z).
Hypothesis Hlo : 0 <= lo.
Hypothesis Hhi : hi < SIZE_MAX1.
Hypothesis Htest : forall j, lo <= j < hi -> test j = Done (holds j).
Hypothesis Hsplit : split_at holds lo hi p.

Lemma holds_below (j : Z) : lo <= j < hi -> holds j = true -> j < p.
Proof.
  intros Hj Ht. destruct Hsplit as (_ & _ & Hf).
  destruct (Z_lt_le_dec j p); [assumption |].
  rewrite Hf in Ht by lia. discriminate.
Qed.

Lemma fails_from (j : Z) : lo <= j < hi -> holds j = false -> p <= j.
Proof.
  intros Hj Hf. destruct Hsplit as (_ & Ht & _).
  destruct (Z_lt_le_dec j p); [| assumption].
  rewrite Ht in Hf by lia. discriminate.
Qed.

Lemma search_while_spec (fuel : nat) :
  forall s e, lo <= s <= e -> e < hi -> s <= p ->
    (Z.to_nat (e - s) <= fuel)%nat ->
    search_while test fuel s e = Done (Z.min p e).
Proof.
  induction fuel as [|fuel IH]; intros s e Hs He Hp Hf.
  - cbn. replace (s <? e) with false by (symmetry; apply Z.ltb_ge; lia).
    f_equal. lia.
  - cbn [search_while]. destruct (s <? e) eqn:E.
    + apply Z.ltb_lt in E.
      rewrite (sub_small e s) by lia.
      assert (Hmid : 0 <= (e - s) / 2 < e - s).
      { split; [apply Z.div_pos; lia | apply Z.div_lt_upper_bound; lia]. }
      rewrite add_small by lia.
      rewrite Htest by lia. cbn [bind].
      destruct (holds (s + (e - s) / 2)) eqn:Eh.
      * apply holds_below in Eh; [| lia].
        rewrite add_small by lia. rewrite IH; try lia. reflexivity.
      * apply fails_from in Eh; [| lia].
        rewrite IH; try lia. f_equal. lia.
    + apply Z.ltb_ge in E. f_equal. lia.
Qed.

Lemma search_spec (first : bool) (fuel : nat) (range : Range) :
  lo <= start range <= p -> p <= end_ range <= hi ->
  (Z.to_nat (end_ range - start range) <= fuel)%nat ->
  search test first fuel range = Done p.
Proof.
  intros Hs He Hf. unfold search.
  destruct (start range >=? end_ range) eqn:E.
  - apply Z.geb_le in E. f_equal. destruct first; lia.
  - rewrite Z.geb_leb in E. apply Z.leb_gt in E.
    rewrite sub_small by lia.
    rewrite search_while_spec by lia. cbn [bind].
    destruct (Z.min p (end_ range - 1) =? end_ range - 1) eqn:Em.
    + apply Z.eqb_eq in Em. rewrite Em.
      rewrite Htest by lia. cbn [bind].
      destruct (holds (end_ range - 1)) eqn:Eh.
      * apply holds_below in Eh; [| lia]. rewrite add_small by lia.
        f_equal. lia.
      * apply fails_from in Eh; [| lia]. f_equal. lia.
    + apply Z.eqb_neq in Em. f_equal. lia.
Qed.

Lemma forward_for_spec (first : bool) (skip : Z) (fuel : nat) :
  1 <= skip <= hi - lo ->
  forall index, lo <= index - skip <= p -> index <= hi ->
    (Z.to_nat (hi - index + skip) <= fuel)%nat ->
    forward_for test first fuel (Range_new lo hi) skip index = Done p.
Proof.
  intros Hskip. induction fuel as [|fuel IH]; intros index Hi Hih Hf; [lia |].
  cbn [forward_for start end_].
  rewrite (sub_small index 1) by lia.
  rewrite Htest by lia. cbn [bind].
  destruct (holds (index - 1)) eqn:Eh.
  - apply holds_below in Eh; [| lia].
    rewrite (sub_small hi skip) by lia.
    destruct (index >=? hi - skip) eqn:E.
    + apply search_spec; cbn [start end_]; try lia.
      destruct Hsplit as ((_ & ?) & _). lia.
    + rewrite Z.geb_leb in E. apply Z.leb_gt in E.
      rewrite add_small by lia. apply IH; lia.
  - apply fails_from in Eh; [| lia].
    rewrite (sub_small index skip) by lia.
    apply search_spec; cbn [start end_]; lia.
Qed.

Lemma backward_for_spec (first : bool) (skip : Z) (fuel : nat) :
  1 <= skip <= hi - lo ->
  forall index, lo <= index -> p <= index + skip <= hi ->
    (Z.to_nat (index - lo + skip) <= fuel)%nat ->
    backward_for test first fuel (Range_new lo hi) skip index = Done p.
Proof.
  intros Hskip. induction fuel as [|fuel IH]; intros index Hi Hp Hf; [lia |].
  cbn [backward_for start end_].
  assert (Hlop : lo <= p) by (destruct Hsplit as ((? & _) & _); lia).
  rewrite (add_small index skip) by lia.
  destruct (index >? lo) eqn:E.
  - apply Z.gtb_lt in E.
    rewrite (sub_small index 1) by lia.
    rewrite Htest by lia. cbn [bind].
    destruct (holds (index - 1)) eqn:Eh; cbn [negb].
    + apply holds_below in Eh; [| lia].
      apply search_spec; cbn [start end_]; lia.
    + apply fails_from in Eh; [| lia].
      rewrite (add_small lo skip) by lia.
      destruct (index <? lo + skip) eqn:E2.
      * apply search_spec; cbn [start end_]; lia.
      * apply Z.ltb_ge in E2. rewrite sub_small by lia. apply IH; lia.
  - rewrite Z.gtb_ltb in E. apply Z.ltb_ge in E.
    apply search_spec; cbn [start end_]; lia.
Qed.
End SplitPoint.

(** * The searches on a sorted range of items *)

Lemma monotone_split (holds : Z -> bool) (lo : Z) (n : nat) :
  (forall i j, lo <= i -> i <= j -> j < lo + Z.of_nat n ->
     holds j = true -> holds i = true) ->
  exists p, split_at holds lo (lo + Z.of_nat n) p.
Proof.
  induction n as [|n IH]; intros Hmono.
  - exists lo. unfold split_at. split; [lia | split]; intros; lia.
  - destruct IH as (p & (Hp & Ht & Hf)).
    { intros i j Hi Hij Hj. apply Hmono; lia. }
    destruct (holds (lo + Z.of_nat n)) eqn:E.
    + exists (lo + Z.of_nat (S n)). unfold split_at.
      split; [lia | split].
      * intros j Hj. apply (Hmono j (lo + Z.of_nat n)); auto; lia.
      * intros j Hj. lia.
    + exists p. unfold split_at. split; [lia | split].
      * exact Ht.
      * intros j Hj.
        destruct (Z.eq_dec j (lo + Z.of_nat n)) as [-> | Hne]; [exact E |].
        apply Hf. lia.
Qed.

Section SortedItems.
Context {T : Type} (size : Z) (compare : Comparison T).
Hypothesis Horder : total_order compare.
#[local] Hint Extern 0 (Store (list _) _) =>
  exact (list_store size) : typeclass_instances.

Lemma compare_below_le (a b v : T) :
  compare a b <= 0 -> compare b v < 0 -> compare a v < 0.
Proof.
  intros Hab Hbv.
  destruct (Z_lt_le_dec (compare a v) 0) as [|Hge]; [assumption | exfalso].
  assert (Hva : compare v a <= 0).
  { destruct (Z_le_gt_dec (compare v a) 0); [assumption |].
    assert (compare a v < 0) by (apply (sign_flips compare Horder); lia). lia. }
  pose proof (le_transitive compare Horder v a b Hva Hab) as Hvb.
  apply (sign_flips compare Horder) in Hbv. lia.
Qed.

Lemma compare_le_not_above (a b v : T) :
  compare a b <= 0 -> compare v b >= 0 -> compare v a >= 0.
Proof.
  intros Hab Hvb.
  assert (Hbv : compare b v <= 0).
  { destruct (Z_le_gt_dec (compare b v) 0); [assumption |].
    assert (compare v b < 0) by (apply (sign_flips compare Horder); lia). lia. }
  pose proof (le_transitive compare Horder a b v Hab Hbv) as Hav.
  destruct (Z_lt_le_dec (compare v a) 0) as [Hlt |]; [| lia].
  apply (sign_flips compare Horder) in Hlt. lia.
Qed.

Lemma test_first_items (array : list T) (v : T) (j : Z) :
  fits size array -> 0 <= j < Z.of_nat (length array) ->
  test_first array (Some v) size compare j = Done (below compare array v j).
Proof.
  intros Hfit Hj. unfold test_first, below. rewrite ptr_nth by assumption.
  destruct (nth_error array (Z.to_nat j)) eqn:E; [reflexivity |].
  apply nth_error_None in E. lia.
Qed.

Lemma test_last_items (array : list T) (v : T) (j : Z) :
  fits size array -> 0 <= j < Z.of_nat (length array) ->
  test_last array (Some v) size compare j = Done (not_above compare array v j).
Proof.
  intros Hfit Hj. unfold test_last, not_above. rewrite ptr_nth by assumption.
  destruct (nth_error array (Z.to_nat j)) eqn:E; [reflexivity |].
  apply nth_error_None in E. lia.
Qed.

Lemma sorted_split_first (array : list T) (v : T) (lo hi : Z) :
  0 <= lo <= hi -> hi <= Z.of_nat (length array) ->
  sorted_range compare array lo hi ->
  exists p, split_at (below compare array v) lo hi p.
Proof.
  intros Hlo Hhi Hsorted.
  replace hi with (lo + Z.of_nat (Z.to_nat (hi - lo))) by lia.
  apply monotone_split. intros i j Hi Hij Hj. unfold below.
  destruct (Z.eq_dec i j) as [-> | Hne]; [auto |].
  destruct (nth_error array (Z.to_nat j)) as [y|] eqn:Ey; [| discriminate].
  destruct (nth_error array (Z.to_nat i)) as [x|] eqn:Ex.
  - rewrite !Z.ltb_lt. apply compare_below_le.
    apply (Hsorted i j); auto; lia.
  - apply nth_error_None in Ex. lia.
Qed.

Lemma sorted_split_last (array : list T) (v : T) (lo hi : Z) :
  0 <= lo <= hi -> hi <= Z.of_nat (length array) ->
  sorted_range compare array lo hi ->
  exists p, split_at (not_above compare array v) lo hi p.
Proof.
  intros Hlo Hhi Hsorted.
  replace hi with (lo + Z.of_nat (Z.to_nat (hi - lo))) by lia.
  apply monotone_split. intros i j Hi Hij Hj. unfold not_above.
  destruct (Z.eq_dec i j) as [-> | Hne]; [auto |].
  destruct (nth_error array (Z.to_nat j)) as [y|] eqn:Ey; [| discriminate].
  destruct (nth_error array (Z.to_nat i)) as [x|] eqn:Ex.
  - rewrite !Z.geb_le. intros Hvy.
    assert (compare v x >= 0); [| lia].
    apply (compare_le_not_above x y v); [| lia].
    apply (Hsorted i j); auto; lia.
  - apply nth_error_None in Ex. lia.
Qed.

Lemma skip_of_spec (lo hi unique : Z) :
  0 <= lo < hi -> hi < SIZE_MAX1 -> 1 <= unique ->
  exists skip, skip_of (Range_new lo hi) unique = Done skip /\
    1 <= skip <= hi - lo.
Proof.
  intros Hlo Hhi Hu. unfold skip_of, Range_length, Max. cbn [start end_].
  replace (unique =? 0) with false by (symmetry; apply Z.eqb_neq; lia).
  rewrite sub_small by lia.
  assert (Hdiv : (hi - lo) / unique <= hi - lo)
    by (apply Z.div_le_upper_bound; nia).
  eexists. split; [reflexivity |].
  destruct ((hi - lo) / unique >? 1) eqn:E.
  - apply Z.gtb_lt in E. lia.
  - lia.
Qed.

(** Whenever the test of a search splits the range at [p], all three
    searches built on that test return [p]. *)
Lemma searches_find_split (test : Z -> outcome bool) (holds : Z -> bool)
    (first : bool) (lo hi p unique : Z) (fuel : nat) :
  0 <= lo <= hi -> hi < SIZE_MAX1 -> 1 <= unique ->
  (forall j, lo <= j < hi -> test j = Done (holds j)) ->
  split_at holds lo hi p ->
  (Z.to_nat (hi - lo) <= fuel)%nat ->
  search test first fuel (Range_new lo hi) = Done p /\
  (if Range_length (Range_new lo hi) =? 0 then Done lo else
   skip <- skip_of (Range_new lo hi) unique ;;
   forward_for test first fuel (Range_new lo hi) skip (lo +% skip)) = Done p /\
  (if Range_length (Range_new lo hi) =? 0 then Done lo else
   skip <- skip_of (Range_new lo hi) unique ;;
   backward_for test first fuel (Range_new lo hi) skip (hi -% skip)) = Done p.
Proof.
  intros Hlo Hhi Hu Htest Hsplit Hf.
  pose proof Hsplit as ((Hp1 & Hp2) & _).
  split.
  { apply (search_spec test holds lo hi p); cbn [start end_]; auto; lia. }
  unfold Range_length. cbn [start end_]. rewrite sub_small by lia.
  destruct (hi - lo =? 0) eqn:E.
  { apply Z.eqb_eq in E. split; f_equal; lia. }
  apply Z.eqb_neq in E.
  destruct (skip_of_spec lo hi unique ltac:(lia) Hhi Hu) as (skip & -> & Hskip).
  cbn [bind]. split.
  - rewrite add_small by lia.
    apply (forward_for_spec test holds lo hi p); auto; lia.
  - rewrite sub_small by lia.
    apply (backward_for_spec test holds lo hi p); auto; lia.
Qed.
End SortedItems.

(** Subtraction compares integers in the total order of the integers. *)
Lemma Z_sub_total_order : total_order Z.sub.
Proof. constructor; intros; lia. Qed.

(** A range is sorted when each item is not above the next one. *)
Lemma sorted_range_adjacent {T : Type} (compare : Comparison T)
    (array : list T) (lo hi : Z) :
  total_order compare -> 0 <= lo ->
  (forall i x y, lo <= i -> i + 1 < hi ->
     nth_error array (Z.to_nat i) = Some x ->
     nth_error array (Z.to_nat (i + 1)) = Some y -> compare x y <= 0) ->
  sorted_range compare array lo hi.
Proof.
  intros Horder Hlo Hadj i j x y Hi Hij Hj Hx Hy.
  remember (Z.to_nat (j - i - 1)) as d eqn:Hd.
  revert j y Hij Hj Hy Hd.
  induction d as [|d IH]; intros j y Hij Hj Hy Hd.
  - assert (j = i + 1) by lia. subst j. apply (Hadj i); auto; lia.
  - destruct (nth_error array (Z.to_nat (j - 1))) as [z|] eqn:Ez.
    + apply (le_transitive compare Horder x z y).
      * apply (IH (j - 1)); auto; lia.
      * apply (Hadj (j - 1)); auto; try lia.
        now replace (j - 1 + 1) with j by lia.
    + apply nth_error_None in Ez.
      assert (Hlen : (Z.to_nat j < length array)%nat)
        by (apply nth_error_Some; congruence).
      lia.
Qed.

Example small_array_sorted : sorted_range Z.sub [1; 2; 2; 3; 5] 0 5.
Proof.
  apply sorted_range_adjacent; [apply Z_sub_total_order | lia |].
  intros i x y Hi Hj Hx Hy.
  assert (Hc : i = 0 \/ i = 1 \/ i = 2 \/ i = 3) by lia.
  destruct Hc as [-> | [-> | [-> | ->]]]; cbn in Hx, Hy;
    injection Hx as <-; injection Hy as <-; lia.
Qed.

(** * The sorting networks *)

(** ** The zero-one principle *)

Lemma map_set_nth {K L : Type} (f : K -> L) (ks : list K) (i : nat) (k : K) :
  map f (set_nth ks i k) = set_nth (map f ks) i (f k).
Proof.
  revert i. induction ks as [|a ks IH]; intros [|i]; cbn; try reflexivity.
  now rewrite IH.
Qed.

Lemma nth_error_set_nth {K : Type} (ks : list K) (i j : nat) (k : K) :
  nth_error (set_nth ks i k) j
    = if Nat.eqb i j then (if Nat.ltb i (length ks) then Some k else None)
      else nth_error ks j.
Proof.
  revert i j. induction ks as [|a ks IH]; intros i j.
  - cbn. destruct (Nat.eqb i j), j; reflexivity.
  - destruct i as [|i], j as [|j]; cbn [set_nth nth_error Nat.eqb length];
      try reflexivity.
    rewrite IH. reflexivity.
Qed.

Section ZeroOne.
Context {K : Type} (swapb : K -> K -> bool) (f : K -> bool).
Hypothesis Hswap : forall kx ky, swapb kx ky = true -> f ky = true -> f kx = true.
Hypothesis Hkeep : forall kx ky, swapb kx ky = false -> f kx = true -> f ky = true.

Lemma exchange_bits (ks : list K) (x y : nat) :
  map f (exchange swapb ks x y) = exchange swaps_bits (map f ks) x y.
Proof.
  unfold exchange. rewrite !nth_error_map.
  destruct (nth_error ks x) as [kx|] eqn:Ex; cbn; [| reflexivity].
  destruct (nth_error ks y) as [ky|] eqn:Ey; cbn; [| reflexivity].
  unfold swaps_bits.
  destruct (swapb kx ky) eqn:Es.
  - rewrite !map_set_nth.
    destruct (f kx) eqn:Fx, (f ky) eqn:Fy; cbn; try reflexivity.
    + (* both set: the swap changes nothing on the bits *)
      rewrite (set_nth_same' (map f ks) x true)
        by (rewrite nth_error_map, Ex; cbn; now rewrite Fx).
      apply set_nth_same'. rewrite nth_error_map, Ey. cbn. now rewrite Fy.
    + pose proof (Hswap kx ky Es Fy). congruence.
    + rewrite (set_nth_same' (map f ks) x false)
        by (rewrite nth_error_map, Ex; cbn; now rewrite Fx).
      apply set_nth_same'. rewrite nth_error_map, Ey. cbn. now rewrite Fy.
  - destruct (f kx) eqn:Fx, (f ky) eqn:Fy; cbn; try reflexivity.
    pose proof (Hkeep kx ky Es Fx). congruence.
Qed.

Lemma exchanges_bits (net : list (Z * Z)) (ks : list K) :
  map f (exchanges swapb net ks) = exchanges swaps_bits net (map f ks).
Proof.
  revert ks. induction net as [|[x y] net IH]; intros ks; cbn;
    [reflexivity |].
  now rewrite IH, exchange_bits.
Qed.
End ZeroOne.

Lemma bits_sorted_spec (bs : list bool) :
  bits_sorted bs = true ->
  forall i j, (i < j)%nat -> nth_error bs i = Some true ->
    nth_error bs j = Some true \/ nth_error bs j = None.
Proof.
  induction bs as [|b bs IH]; intros H i j Hij Hi.
  - destruct i; discriminate.
  - cbn in H. apply andb_true_iff in H as [Hb Hs].
    destruct i as [|i].
    + cbn in Hi. injection Hi as ->. cbn in Hb.
      destruct j as [|j]; [lia |]. cbn.
      destruct (nth_error bs j) as [c|] eqn:Ej; [left | now right].
      rewrite forallb_forall in Hb.
      rewrite (Hb c) by (eapply nth_error_In; eauto). reflexivity.
    + destruct j as [|j]; [lia |]. cbn in *. apply (IH Hs i j); auto; lia.
Qed.

(** ** The five networks sort every sequence of bits *)

Lemma network4_bits (bs : list bool) :
  length bs = 4%nat -> bits_sorted (exchanges swaps_bits network4 bs) = true.
Proof.
  destruct bs as [|a [|b [|c [|d [|] ] ] ] ]; try discriminate. intros _.
  destruct a, b, c, d; reflexivity.
Qed.

Lemma network5_bits (bs : list bool) :
  length bs = 5%nat -> bits_sorted (exchanges swaps_bits network5 bs) = true.
Proof.
  destruct bs as [|a [|b [|c [|d [|e [|] ] ] ] ] ]; try discriminate. intros _.
  destruct a, b, c, d, e; reflexivity.
Qed.

Lemma network6_bits (bs : list bool) :
  length bs = 6%nat -> bits_sorted (exchanges swaps_bits network6 bs) = true.
Proof.
  destruct bs as [|a [|b [|c [|d [|e [|f [|] ] ] ] ] ] ]; try discriminate. intros _.
  destruct a, b, c, d, e, f; reflexivity.
Qed.

Lemma network7_bits (bs : list bool) :
  length bs = 7%nat -> bits_sorted (exchanges swaps_bits network7 bs) = true.
Proof.
  destruct bs as [|a [|b [|c [|d [|e [|f [|g [|] ] ] ] ] ] ] ]; try discriminate.
  intros _. destruct a, b, c, d, e, f, g; reflexivity.
Qed.

Lemma network8_bits (bs : list bool) :
  length bs = 8%nat -> bits_sorted (exchanges swaps_bits network8 bs) = true.
Proof.
  destruct bs as [|a [|b [|c [|d [|e [|f [|g [|h [|] ] ] ] ] ] ] ] ];
    try discriminate.
  intros _. destruct a, b, c, d, e, f, g, h; reflexivity.
Qed.

Lemma network_of_bits (n : nat) (bs : list bool) :
  (4 <= n <= 8)%nat -> length bs = n ->
  bits_sorted (exchanges swaps_bits (network_of (Z.of_nat n)) bs) = true.
Proof.
  intros Hn Hlen.
  assert (Hc : (n = 4 \/ n = 5 \/ n = 6 \/ n = 7 \/ n = 8)%nat) by lia.
  destruct Hc as [-> | [-> | [-> | [-> | ->] ] ] ]; cbn [network_of Z.of_nat];
    cbn -[network4 network5 network6 network7 network8].
  - now apply network4_bits.
  - now apply network5_bits.
  - now apply network6_bits.
  - now apply network7_bits.
  - now apply network8_bits.
Qed.

Lemma network_of_within (n : nat) :
  (4 <= n <= 8)%nat -> network_within n (network_of (Z.of_nat n)) = true.
Proof.
  intros Hn.
  assert (Hc : (n = 4 \/ n = 5 \/ n = 6 \/ n = 7 \/ n = 8)%nat) by lia.
  destruct Hc as [-> | [-> | [-> | [-> | ->] ] ] ]; reflexivity.
Qed.

(** ** The keys are totally ordered by value, then by order byte *)

(* every fact a total order gives about three items *)
Ltac order_facts H a b c :=
  pose proof (sign_flips _ H a a); pose proof (sign_flips _ H a b);
  pose proof (sign_flips _ H a c); pose proof (sign_flips _ H b a);
  pose proof (sign_flips _ H b b); pose proof (sign_flips _ H b c);
  pose proof (sign_flips _ H c a); pose proof (sign_flips _ H c b);
  pose proof (sign_flips _ H c c);
  pose proof (le_transitive _ H a b c); pose proof (le_transitive _ H a c b);
  pose proof (le_transitive _ H b a c); pose proof (le_transitive _ H b c a);
  pose proof (le_transitive _ H c a b); pose proof (le_transitive _ H c b a);
  pose proof (le_transitive _ H a b a); pose proof (le_transitive _ H b a b);
  pose proof (le_transitive _ H a c a); pose proof (le_transitive _ H c a c);
  pose proof (le_transitive _ H b c b); pose proof (le_transitive _ H c b c).

Section Keys.
Context {T : Type} (compare : Comparison T).
Hypothesis Horder : total_order compare.

Lemma swaps_true (kx ky : T * Z) :
  swaps compare kx ky = true <->
  compare (fst ky) (fst kx) < 0 \/
  (snd ky < snd kx /\ compare (fst kx) (fst ky) >= 0).
Proof.
  unfold swaps.
  rewrite orb_true_iff, andb_true_iff, Z.ltb_lt, Z.geb_le, Z.gtb_lt. lia.
Qed.

Lemma swaps_false (kx ky : T * Z) :
  swaps compare kx ky = false <->
  compare (fst ky) (fst kx) >= 0 /\
  (snd kx <= snd ky \/ compare (fst kx) (fst ky) < 0).
Proof.
  rewrite <- not_true_iff_false, swaps_true. lia.
Qed.

Lemma swaps_irreflexive (k : T * Z) : swaps compare k k = false.
Proof.
  apply swaps_false. pose proof (sign_flips _ Horder (fst k) (fst k)). lia.
Qed.

Lemma swaps_transitive (a b c : T * Z) :
  swaps compare b a = true -> swaps compare c b = true ->
  swaps compare c a = true.
Proof.
  rewrite !swaps_true. order_facts Horder (fst a) (fst b) (fst c). lia.
Qed.

Lemma swaps_negatively_transitive (a b c : T * Z) :
  swaps compare b a = false -> swaps compare c b = false ->
  swaps compare c a = false.
Proof.
  rewrite !swaps_false. order_facts Horder (fst a) (fst b) (fst c). lia.
Qed.

(** After the network of its length, no key comes before an earlier one. *)
Lemma exchanges_sorted (n : nat) (ks : list (T * Z)) :
  (4 <= n <= 8)%nat -> length ks = n ->
  forall i j ki kj, (i < j)%nat ->
    nth_error (exchanges (swaps compare) (network_of (Z.of_nat n)) ks) i
      = Some ki ->
    nth_error (exchanges (swaps compare) (network_of (Z.of_nat n)) ks) j
      = Some kj ->
    swaps compare ki kj = false.
Proof.
  intros Hn Hlen i j ki kj Hij Hi Hj.
  destruct (swaps compare ki kj) eqn:Es; [exfalso | reflexivity].
  set (f := fun k => negb (swaps compare ki k)).
  assert (Hbits : map f (exchanges (swaps compare) (network_of (Z.of_nat n)) ks)
                  = exchanges swaps_bits (network_of (Z.of_nat n)) (map f ks)).
  { apply exchanges_bits; unfold f; intros kx ky H1 H2.
    - apply negb_true_iff in H2. apply negb_true_iff.
      destruct (swaps compare ki kx) eqn:E; [| reflexivity].
      pose proof (swaps_transitive ky kx ki H1 E). congruence.
    - apply negb_true_iff in H2. apply negb_true_iff.
      apply (swaps_negatively_transitive ky kx ki); assumption. }
  pose proof (network_of_bits n (map f ks) Hn
                ltac:(now rewrite length_map)) as Hsorted.
  rewrite <- Hbits in Hsorted.
  destruct (bits_sorted_spec _ Hsorted i j Hij) as [H | H].
  - rewrite nth_error_map, Hi. cbn. unfold f.
    now rewrite swaps_irreflexive.
  - rewrite nth_error_map, Hj in H. cbn in H. unfold f in H.
    rewrite Es in H. discriminate.
  - rewrite nth_error_map, Hj in H. discriminate.
Qed.
End Keys.

(** ** NEW_SWAP is a compare-exchange of keys *)

Lemma nth_error_mid {T : Type} (pre l post : list T) (i : nat) :
  (i < length l)%nat ->
  nth_error (pre ++ l ++ post) (length pre + i) = nth_error l i.
Proof.
  intros Hi. rewrite nth_error_app2 by lia.
  replace (length pre + i - length pre)%nat with i by lia.
  now rewrite nth_error_app1.
Qed.

Lemma set_nth_app_l {T : Type} (l tail : list T) (i : nat) (v : T) :
  (i < length l)%nat -> set_nth (l ++ tail) i v = set_nth l i v ++ tail.
Proof.
  revert i. induction l as [|a l IH]; intros [|i] Hi; cbn in *; try lia;
    try reflexivity.
  rewrite IH by lia. reflexivity.
Qed.

Lemma set_nth_app_r {T : Type} (pre l : list T) (i : nat) (v : T) :
  set_nth (pre ++ l) (length pre + i) v = pre ++ set_nth l i v.
Proof.
  induction pre as [|a pre IH]; cbn; [reflexivity | now rewrite IH].
Qed.

Lemma set_nth_mid {T : Type} (pre l post : list T) (i : nat) (v : T) :
  (i < length l)%nat ->
  set_nth (pre ++ l ++ post) (length pre + i) v = pre ++ set_nth l i v ++ post.
Proof.
  intros Hi. rewrite set_nth_app_r, set_nth_app_l by lia. reflexivity.
Qed.

Lemma order_set_set_nth (order : list Z) (i : nat) (v : Z) :
  order_set order i v = set_nth order i v.
Proof. reflexivity. Qed.

Lemma order_get_keys {T : Type} (keys : list (T * Z)) (tail : list Z)
    (x : Z) (k : T * Z) :
  nth_error keys (Z.to_nat x) = Some k ->
  order_get (map snd keys ++ tail) x = snd k.
Proof.
  intros H. unfold order_get.
  apply nth_error_nth. rewrite nth_error_app1.
  - rewrite nth_error_map, H. reflexivity.
  - rewrite length_map. apply nth_error_Some. congruence.
Qed.

Section NetworkRun.
Context {T : Type} (size : Z) (compare : Comparison T).
#[local] Hint Extern 0 (Store (list _) _) =>
  exact (list_store size) : typeclass_instances.

Lemma NEW_SWAP_exchange (pre post : list T) (keys : list (T * Z))
    (tail : list Z) (range : Range) (x y : Z) :
  fits size (pre ++ map fst keys ++ post) ->
  start range = Z.of_nat (length pre) ->
  0 <= x < Z.of_nat (length keys) -> 0 <= y < Z.of_nat (length keys) ->
  NEW_SWAP (pre ++ map fst keys ++ post) size range compare
    (map snd keys ++ tail) x y
  = Done (pre ++ map fst (exchange (swaps compare) keys (Z.to_nat x)
                            (Z.to_nat y)) ++ post,
          map snd (exchange (swaps compare) keys (Z.to_nat x) (Z.to_nat y))
            ++ tail).
Proof.
  intros Hfit Hs Hx Hy.
  assert (Hbound : Z.of_nat (length (pre ++ map fst keys ++ post)) < SIZE_MAX1).
  { destruct Hfit as [Hs0 Hfit]. nia. }
  rewrite !length_app, length_map in Hbound.
  destruct (nth_error keys (Z.to_nat x)) as [kx|] eqn:Ex;
    [| apply nth_error_None in Ex; lia].
  destruct (nth_error keys (Z.to_nat y)) as [ky|] eqn:Ey;
    [| apply nth_error_None in Ey; lia].
  assert (Hlen : length (pre ++ map fst keys ++ post)
                 = (length pre + length keys + length post)%nat)
    by (rewrite !length_app, length_map; lia).
  assert (Hpx : nth_error (pre ++ map fst keys ++ post)
                  (Z.to_nat (Z.of_nat (length pre) + x)) = Some (fst kx)).
  { replace (Z.to_nat (Z.of_nat (length pre) + x))
      with (length pre + Z.to_nat x)%nat by lia.
    rewrite nth_error_mid by (rewrite length_map; lia).
    rewrite nth_error_map, Ex. reflexivity. }
  assert (Hpy : nth_error (pre ++ map fst keys ++ post)
                  (Z.to_nat (Z.of_nat (length pre) + y)) = Some (fst ky)).
  { replace (Z.to_nat (Z.of_nat (length pre) + y))
      with (length pre + Z.to_nat y)%nat by lia.
    rewrite nth_error_mid by (rewrite length_map; lia).
    rewrite nth_error_map, Ey. reflexivity. }
  unfold NEW_SWAP. rewrite Hs.
  rewrite !(add_small (Z.of_nat (length pre))) by lia.
  rewrite !ptr_nth by (auto; lia).
  rewrite Hpx, Hpy. cbn [call bind].
  rewrite (order_get_keys keys tail x kx Ex), (order_get_keys keys tail y ky Ey).
  rewrite (Swap_nth size _ _ _ (fst kx) (fst ky)); auto; try lia.
  cbn [lift bind].
  assert (Hswapped :
    Done (set_nth (set_nth (pre ++ map fst keys ++ post)
                     (Z.to_nat (Z.of_nat (length pre) + x)) (fst ky))
            (Z.to_nat (Z.of_nat (length pre) + y)) (fst kx),
          order_swap (map snd keys ++ tail) x y)
    = Done (pre ++ map fst (set_nth (set_nth keys (Z.to_nat x) ky)
                              (Z.to_nat y) kx) ++ post,
            map snd (set_nth (set_nth keys (Z.to_nat x) ky) (Z.to_nat y) kx)
              ++ tail)).
  { f_equal. f_equal.
    - replace (Z.to_nat (Z.of_nat (length pre) + x))
        with (length pre + Z.to_nat x)%nat by lia.
      replace (Z.to_nat (Z.of_nat (length pre) + y))
        with (length pre + Z.to_nat y)%nat by lia.
      rewrite set_nth_mid by (rewrite length_map; lia).
      rewrite set_nth_mid by (rewrite set_nth_length, length_map; lia).
      now rewrite !map_set_nth.
    - unfold order_swap. change order_set with (@set_nth Z).
      rewrite (order_get_keys keys tail x kx Ex),
        (order_get_keys keys tail y ky Ey).
      rewrite set_nth_app_l by (rewrite length_map; lia).
      rewrite set_nth_app_l by (rewrite set_nth_length, length_map; lia).
      now rewrite !map_set_nth. }
  unfold exchange. rewrite Ex, Ey. unfold swaps.
  destruct (compare (fst ky) (fst kx) <? 0); cbn [orb].
  - exact Hswapped.
  - destruct (snd kx >? snd ky); cbn [andb]; [| reflexivity].
    destruct (compare (fst kx) (fst ky) >=? 0); [exact Hswapped | reflexivity].
Qed.

Lemma exchange_length {K : Type} (swapb : K -> K -> bool) (ks : list K)
    (x y : nat) : length (exchange swapb ks x y) = length ks.
Proof.
  unfold exchange.
  destruct (nth_error ks x), (nth_error ks y); try reflexivity.
  destruct (swapb k k0); [| reflexivity]. now rewrite !set_nth_length.
Qed.

Lemma exchange_perm {K : Type} (swapb : K -> K -> bool) (ks : list K)
    (x y : nat) : Permutation ks (exchange swapb ks x y).
Proof.
  unfold exchange.
  destruct (nth_error ks x) eqn:Ex, (nth_error ks y) eqn:Ey;
    try reflexivity.
  destruct (swapb k k0); [| reflexivity].
  now apply set_nth_swap_perm.
Qed.

Lemma exchanges_length {K : Type} (swapb : K -> K -> bool)
    (net : list (Z * Z)) (ks : list K) :
  length (exchanges swapb net ks) = length ks.
Proof.
  revert ks. induction net as [|[x y] net IH]; intros ks; cbn;
    [reflexivity |].
  now rewrite IH, exchange_length.
Qed.

Lemma exchanges_perm {K : Type} (swapb : K -> K -> bool)
    (net : list (Z * Z)) (ks : list K) :
  Permutation ks (exchanges swapb net ks).
Proof.
  revert ks. induction net as [|[x y] net IH]; intros ks; cbn;
    [reflexivity |].
  etransitivity; [apply (exchange_perm swapb ks (Z.to_nat x) (Z.to_nat y)) |].
  apply IH.
Qed.

Lemma run_network_exchanges (net : list (Z * Z)) :
  forall (pre post : list T) (keys : list (T * Z)) (tail : list Z)
         (range : Range),
    fits size (pre ++ map fst keys ++ post) ->
    start range = Z.of_nat (length pre) ->
    network_within (length keys) net = true ->
    run_network net (pre ++ map fst keys ++ post) size range compare
      (map snd keys ++ tail)
    = Done (pre ++ map fst (exchanges (swaps compare) net keys) ++ post,
            map snd (exchanges (swaps compare) net keys) ++ tail).
Proof.
  induction net as [|[x y] net IH]; intros pre post keys tail range Hfit Hs Hin.
  - reflexivity.
  - cbn [network_within forallb] in Hin.
    apply andb_true_iff in Hin as [Hxy Hin]. cbn [fst snd] in Hxy.
    repeat (apply andb_true_iff in Hxy as [Hxy ?]).
    cbn [run_network exchanges].
    rewrite NEW_SWAP_exchange; auto; try lia.
    cbn [bind].
    apply IH; auto.
    + eapply fits_length; [exact Hfit |].
      rewrite !length_app, !length_map, exchange_length. reflexivity.
    + rewrite exchange_length. exact Hin.
Qed.
End NetworkRun.

(** * The stable merge of two sorted lists *)

(* what a total order says about the two ways of comparing two items *)
Ltac flips H a b :=
  pose proof (sign_flips _ H a b); pose proof (sign_flips _ H b a).

Section Merge.
Context {T : Type} (compare : Comparison T).
Hypothesis Horder : total_order compare.

Lemma merge_nil_r (a : list T) : merge compare a [] = a.
Proof. destruct a; reflexivity. Qed.

Lemma merge_nil_l (b : list T) : merge compare [] b = b.
Proof. destruct b; reflexivity. Qed.

Lemma merge_cons (x y : T) (a b : list T) :
  merge compare (x :: a) (y :: b)
  = if compare y x >=? 0 then x :: merge compare a (y :: b)
    else y :: merge compare (x :: a) b.
Proof. reflexivity. Qed.

Lemma merge_length (a b : list T) :
  length (merge compare a b) = (length a + length b)%nat.
Proof.
  revert b. induction a as [|x a IHa]; intros b.
  - now rewrite merge_nil_l.
  - induction b as [|y b IHb].
    + rewrite merge_nil_r. cbn. lia.
    + rewrite merge_cons. destruct (compare y x >=? 0); cbn [length].
      * rewrite IHa. cbn [length]. lia.
      * rewrite IHb. cbn [length]. lia.
Qed.

Lemma merge_perm (a b : list T) : Permutation (a ++ b) (merge compare a b).
Proof.
  revert b. induction a as [|x a IHa]; intros b.
  - now rewrite merge_nil_l.
  - induction b as [|y b IHb].
    + rewrite merge_nil_r, app_nil_r. reflexivity.
    + rewrite merge_cons. destruct (compare y x >=? 0).
      * cbn [app]. constructor. apply IHa.
      * etransitivity; [| constructor; exact IHb].
        symmetry. apply (Permutation_middle (x :: a) b y).
Qed.

(* the items of [b] that compare below the head of [a] go first *)
Lemma merge_below (x : T) (a b1 b2 : list T) :
  Forall (fun y => compare y x < 0) b1 ->
  merge compare (x :: a) (b1 ++ b2) = b1 ++ merge compare (x :: a) b2.
Proof.
  induction 1 as [|y b1 Hy _ IH]; [reflexivity |].
  cbn [app]. rewrite merge_cons.
  replace (compare y x >=? 0) with false
    by (symmetry; rewrite Z.geb_leb; apply Z.leb_gt; lia).
  now rewrite IH.
Qed.

(* the items of [a] that no item of [b] compares below go first *)
Lemma merge_not_above (a1 a2 b : list T) :
  Forall (fun x => Forall (fun y => compare y x >= 0) b) a1 ->
  merge compare (a1 ++ a2) b = a1 ++ merge compare a2 b.
Proof.
  induction 1 as [|x a1 Hx _ IH]; [reflexivity |].
  cbn [app]. destruct b as [|y b].
  - rewrite !merge_nil_r. reflexivity.
  - rewrite merge_cons.
    inversion Hx as [|? ? Hy _]; subst.
    replace (compare y x >=? 0) with true
      by (symmetry; apply Z.geb_le; lia).
    now rewrite IH.
Qed.

Lemma sorted_list_app (a b : list T) :
  sorted_list compare (a ++ b) <->
  sorted_list compare a /\ sorted_list compare b /\
  Forall (fun x => Forall (fun y => compare x y <= 0) b) a.
Proof.
  unfold sorted_list. induction a as [|x a IH]; cbn [app].
  - split; [intros H; repeat split; auto; constructor | intros (_ & H & _); exact H].
  - split.
    + intros H. inversion H as [|? ? Hs Hall]; subst.
      apply IH in Hs as (Ha & Hb & Hab).
      apply Forall_app in Hall as [Hxa Hxb].
      repeat split; auto; constructor; auto.
    + intros (Ha & Hb & Hab).
      inversion Ha as [|? ? Hs Hall]; subst.
      inversion Hab as [|? ? Hxb Hab']; subst.
      constructor; [apply IH; auto | apply Forall_app; auto].
Qed.

Lemma merge_sorted (a b : list T) :
  sorted_list compare a -> sorted_list compare b ->
  sorted_list compare (merge compare a b).
Proof.
  unfold sorted_list. revert b. induction a as [|x a IHa]; intros b Ha Hb.
  - now rewrite merge_nil_l.
  - induction b as [|y b IHb].
    + now rewrite merge_nil_r.
    + rewrite merge_cons.
      inversion Ha as [|? ? Hsa Hxa]; subst.
      inversion Hb as [|? ? Hsb Hyb]; subst.
      destruct (compare y x >=? 0) eqn:E.
      * apply Z.geb_le in E.
        assert (Hxy : compare x y <= 0).
        { flips Horder y x. lia. }
        constructor; [apply IHa; auto |].
        eapply Permutation_Forall; [apply merge_perm |].
        apply Forall_app. split; [exact Hxa |].
        constructor; [exact Hxy |].
        eapply Forall_impl; [| exact Hyb].
        intros z Hz. apply (le_transitive _ Horder x y z); auto.
      * rewrite Z.geb_leb in E. apply Z.leb_gt in E.
        assert (Hyx : compare y x <= 0) by lia.
        constructor; [apply IHb; auto |].
        eapply Permutation_Forall; [apply merge_perm |].
        apply Forall_app. split; [| exact Hyb].
        constructor; [exact Hyx |].
        eapply Forall_impl; [| exact Hxa].
        intros z Hz. apply (le_transitive _ Horder y x z); auto.
Qed.

Lemma merge_stable (v : T) (a b : list T) :
  sorted_list compare a -> sorted_list compare b ->
  filter (equal_to compare v) (merge compare a b)
  = filter (equal_to compare v) a ++ filter (equal_to compare v) b.
Proof.
  unfold sorted_list. revert b. induction a as [|x a IHa]; intros b Ha Hb.
  - now rewrite merge_nil_l.
  - induction b as [|y b IHb].
    + rewrite merge_nil_r. cbn [filter]. now rewrite app_nil_r.
    + rewrite merge_cons.
      inversion Ha as [|? ? Hsa Hxa]; subst.
      inversion Hb as [|? ? Hsb Hyb]; subst.
      destruct (compare y x >=? 0) eqn:E.
      * cbn [filter]. rewrite IHa by auto.
        destruct (equal_to compare v x); reflexivity.
      * rewrite Z.geb_leb in E. apply Z.leb_gt in E.
        change (filter (equal_to compare v) (y :: merge compare (x :: a) b))
          with (if equal_to compare v y
                then y :: filter (equal_to compare v) (merge compare (x :: a) b)
                else filter (equal_to compare v) (merge compare (x :: a) b)).
        change (filter (equal_to compare v) (y :: b))
          with (if equal_to compare v y
                then y :: filter (equal_to compare v) b
                else filter (equal_to compare v) b).
        rewrite IHb by auto.
        destruct (equal_to compare v y) eqn:Ev; [| reflexivity].
        (* an item of [b] below the head of [a] has no equal in [a] *)
        assert (Hnone : filter (equal_to compare v) (x :: a) = []).
        { apply Z.eqb_eq in Ev.
          assert (Hyv : compare y v <= 0).
          { flips Horder y v. lia. }
          assert (Hall : Forall (fun z => equal_to compare v z = false)
                           (x :: a)).
          { assert (Hx : forall z, compare x z <= 0 -> compare v z <> 0).
            { intros z Hxz Hvz.
              assert (Hzv : compare z v <= 0).
              { flips Horder z v. lia. }
              pose proof (le_transitive _ Horder z v y Hzv ltac:(lia)) as Hzy.
              pose proof (le_transitive _ Horder x z y Hxz Hzy) as Hxy.
              flips Horder y x. lia. }
            constructor.
            - apply Z.eqb_neq. apply Hx.
              flips Horder x x. lia.
            - eapply Forall_impl; [| exact Hxa].
              intros z Hz. apply Z.eqb_neq. now apply Hx. }
          clear - Hall. induction Hall as [|z l Hz _ IH]; [reflexivity |].
          cbn [filter]. now rewrite Hz. }
        rewrite Hnone. reflexivity.
Qed.
End Merge.

Lemma levels_of_nonneg (calls : list Call) : 0 <= levels_of calls.
Proof. induction calls as [| [] calls IH]; cbn [levels_of]; lia. Qed.

(* the level of an iterator is kept by [WikiIterator_begin] and
   [WikiIterator_nextRange], whatever ranges were handed out, and goes up
   by one with each [WikiIterator_nextLevel] *)
Lemma after_calls_spec (N D d : Z) :
  N < SIZE_MAX1 -> D = 2 ^ d -> 0 <= d ->
  forall (calls : list Call) (me it : WikiIterator) (w : Z),
    at_level N D (2 ^ w) me -> 0 <= w -> w = 0 \/ w < d ->
    after_calls calls me = Some it ->
    at_level N D (2 ^ (w + levels_of calls)) it /\
    (w + levels_of calls = 0 \/ w + levels_of calls < d).
Proof.
  intros HN HD Hd. induction calls as [| c calls IH];
    intros me it w Hat Hw Hwd Hrun.
  - injection Hrun as <-. cbn [levels_of]. rewrite Z.add_0_r. now split.
  - destruct c; cbn [after_calls levels_of] in *.
    + apply (IH (WikiIterator_begin me) it w); auto.
    + apply (IH (snd (WikiIterator_nextRange me)) it w); auto.
    + destruct (WikiIterator_nextLevel me) as [more me'] eqn:E.
      destruct more; [| discriminate].
      destruct (after_levels_spec N D d HN HD Hd 1 me me' w Hat Hw Hwd)
        as (Hat' & Hwd' & _).
      { cbn [after_levels]. now rewrite E. }
      rewrite Z.add_assoc.
      apply (IH me' it (w + Z.of_nat 1)); auto. lia.
Qed.

(** C4. For every item count [N >= 4] (that a [size_t] can hold) the
    iterator made by [WikiIterator_new N 4] exists. Whatever calls of
    [WikiIterator_begin], [WikiIterator_nextRange] and
    [WikiIterator_nextLevel] were made on it since (any number of them,
    in any order, so at any level and with any ranges handed out
    already), provided the [WikiIterator_nextLevel] calls all returned
    true: the ranges handed out by [WikiIterator_nextRange] from
    [WikiIterator_begin] until [WikiIterator_finished] are consecutive
    half-open intervals from 0 to exactly [N], each of length
    [decimal_step] or [decimal_step + 1]; their lengths add up to [N].
    After [k] calls of [WikiIterator_nextLevel], [decimal_step] is the
    whole part of [N * 2^k / 2^(log2 N - 2)]. *)
Theorem iterator_ranges_tile (N : Z) :
  4 <= N < SIZE_MAX1 ->
  exists it0, WikiIterator_new N 4 = Done it0 /\
    forall (calls : list Call) (it : WikiIterator),
      after_calls calls it0 = Some it ->
      WikiIterator_length it
      = N * 2 ^ levels_of calls / 2 ^ (Z.log2 N - 2) /\
      exists l,
        emitted (Z.to_nat N) (WikiIterator_begin it) = Some l /\
        consecutive 0 l N /\
        Forall (fun r => Range_length r = WikiIterator_length it \/
                         Range_length r = WikiIterator_length it + 1) l /\
        total_length l = N.
Proof.
  intros HN.
  destruct (WikiIterator_new_spec N HN) as (it0 & Hnew & Hat0 & _ & _).
  exists it0. split; [exact Hnew |].
  intros calls it Hrun.
  set (d := Z.log2 N - 2) in *.
  assert (Hlog : 2 <= Z.log2 N).
  { change 2 with (Z.log2 4) at 1. apply Z.log2_le_mono. lia. }
  assert (Hd : 0 <= d) by (unfold d; lia).
  destruct (after_calls_spec N (2 ^ d) d ltac:(lia) eq_refl Hd calls it0 it 0
              Hat0 ltac:(lia) ltac:(lia) Hrun) as (Hat & Hk).
  rewrite Z.add_0_l in Hat, Hk.
  pose proof (levels_of_nonneg calls) as Hk0.
  set (kz := levels_of calls) in *.
  assert (Hkd : 0 <= kz <= d) by lia.
  assert (HW : 0 < 2 ^ kz) by (apply Z.pow_pos_nonneg; lia).
  assert (HD : 0 < 2 ^ d) by (apply Z.pow_pos_nonneg; lia).
  split.
  { destruct Hat as (_ & _ & _ & Hns & Heq).
    unfold WikiIterator_length.
    apply (Z.div_unique (N * 2 ^ kz) (2 ^ d) (decimal_step it)
             (numerator_step it)); lia. }
  assert (HM : 2 ^ d = 2 ^ (d - kz) * 2 ^ kz).
  { rewrite <- Z.pow_add_r by lia. f_equal. lia. }
  assert (HMpos : 0 < 2 ^ (d - kz)) by (apply Z.pow_pos_nonneg; lia).
  assert (HMN : 2 ^ (d - kz) <= N).
  { destruct Hat as (_ & _ & HND & _). nia. }
  pose proof (WikiIterator_begin_spec N (2 ^ d) (2 ^ kz) it Hat) as Hout.
  destruct (emitted_spec N (2 ^ d) (2 ^ kz) (2 ^ (d - kz)) ltac:(lia) HW HM
              (Z.to_nat (2 ^ (d - kz))) 0 (WikiIterator_begin it)
              (Z.to_nat N) Hout ltac:(lia) ltac:(lia) ltac:(lia))
    as (l & Hl & Hcons & Hall).
  exists l. split; [exact Hl |].
  change (decimal (WikiIterator_begin it)) with 0 in Hcons.
  split; [exact Hcons |]. split; [exact Hall |].
  destruct (consecutive_total l 0 N Hcons ltac:(lia) ltac:(lia)) as [_ Htot].
  lia.
Qed.

Lemma iterator_ranges_tile_witness :
  exists it0 it,
    WikiIterator_new 45 4 = Done it0 /\
    after_calls [call_begin; call_nextRange; call_nextRange; call_nextLevel;
                 call_nextRange] it0 = Some it /\
    decimal it = 22 /\ WikiIterator_length it = 11 /\
    emitted (Z.to_nat 45) (WikiIterator_begin it)
    = Some [Range_new 0 11; Range_new 11 22; Range_new 22 33;
            Range_new 33 45] /\
    consecutive 0
      [Range_new 0 11; Range_new 11 22; Range_new 22 33; Range_new 33 45]
      45 /\
    Forall (fun r => Range_length r = WikiIterator_length it \/
                     Range_length r = WikiIterator_length it + 1)
      [Range_new 0 11; Range_new 11 22; Range_new 22 33; Range_new 33 45] /\
    total_length
      [Range_new 0 11; Range_new 11 22; Range_new 22 33; Range_new 33 45]
    = 45.
Proof.
  destruct (iterator_ranges_tile 45) as (it0 & Hnew & Hall).
  - rewrite SIZE_MAX1_eq. lia.
  - vm_compute in Hnew. injection Hnew as <-.
    destruct (Hall [call_begin; call_nextRange; call_nextRange;
                    call_nextLevel; call_nextRange]
                {| size := 45; power_of_two := 32; numerator := 4;
                   decimal := 22; denominator := 8; decimal_step := 11;
                   numerator_step := 2 |} eq_refl)
      as (_ & l & Hl & Hcons & Hlens & Htotal).
    vm_compute in Hl. injection Hl as <-.
    eexists _, _. split; [reflexivity |]. split; [reflexivity |].
    split; [reflexivity |]. split; [reflexivity |].
    split; [reflexivity |]. split; [exact Hcons |].
    split; [exact Hlens | exact Htotal].
Defined.

(** * The entry points *)

(** C10. [WikiSort_with_buffer] and [WikiSort_with_dynamic_buffer] do to
    the array exactly what [WikiSort] does, whatever the buffer pointer
    and the buffer length. *)
Theorem buffer_entry_points_delegate {Arr Val : Type} {ST : Store Arr Val}
    (fuel : nat) (array : Arr) (len size : Z) (compare : Comparison Val)
    (buffer : Arr) (buffer_len : Z) :
  WikiSort_with_buffer fuel array len size compare buffer buffer_len
    = WikiSort fuel array len size compare /\
  WikiSort_with_dynamic_buffer fuel array len size compare
    = WikiSort fuel array len size compare.
Proof. split; reflexivity. Qed.

(** [WikiSort] does not look at its [size] argument. *)
Lemma WikiSort_any_size {Arr Val : Type} {ST : Store Arr Val}
    (fuel : nat) (array : Arr) (len size size' : Z) (compare : Comparison Val) :
  WikiSort fuel array len size compare = WikiSort fuel array len size' compare.
Proof. reflexivity. Qed.

(** C3 fails on the code. Two items of 32 bytes, ordered by their first
    byte and given in the wrong order: [WikiSort] called with [size = 32]
    compares and moves 16-byte halves, finds byte 16 of the first item
    (9) not below byte 0 (1) and leaves the array as it was, although the
    second item is below the first; [new_WikiSort] with [size = 32] puts
    the two items in order. *)
Theorem WikiSort_overlooks_size (fuel : nat) :
  by_first_byte item_zero item_one < 0 /\
  WikiSort (ST := byte_store) fuel (item_one ++ item_zero) 2 32 by_first_byte
    = Done (item_one ++ item_zero) /\
  new_WikiSort (ST := byte_store) fuel (item_one ++ item_zero) 2 32 by_first_byte
    = Done (item_zero ++ item_one).
Proof.
  split; [reflexivity |]. split; vm_compute; reflexivity.
Qed.

(** C9. On an array of items of [size] bytes, for every range inside the
    array and every [amount] between 0 and the length of the range,
    [Rotate] returns (given fuel for the length of the range, and a cache
    that really has [cache_size] cells) the array whose range is the old
    range rotated left by [amount] (the items from [start + amount] on,
    then the first [amount] items) and whose items before and after the
    range are the old ones; this holds on the cache path and on the
    three-reversal path alike. *)
Theorem Rotate_rotates_left {T : Type} (size : Z) (array cache : list T)
    (fuel : nat) (amount : Z) (range : Range) (cache_size : Z) :
  fits size array ->
  0 <= start range <= end_ range ->
  end_ range <= Z.of_nat (length array) ->
  0 <= amount <= Range_length range ->
  0 <= cache_size <= Z.of_nat (length cache) ->
  (Z.to_nat (Range_length range) <= fuel)%nat ->
  exists array' cache',
    Rotate (ST := list_store size) fuel array size amount range cache cache_size
      = Done (array', cache') /\
    array' = slice array 0 (start range)
             ++ slice array (start range + amount) (end_ range)
             ++ slice array (start range) (start range + amount)
             ++ slice array (end_ range) (Z.of_nat (length array)).
Proof.
  intros Hfit Hr He Ha Hc Hf.
  assert (Hbound : Z.of_nat (length array) < SIZE_MAX1).
  { destruct Hfit as [Hs0 Hfit]. nia. }
  assert (HL : Range_length range = end_ range - start range).
  { unfold Range_length. rewrite sub_small; lia. }
  rewrite HL in *.
  set (pre := slice array 0 (start range)).
  set (l1 := slice array (start range) (start range + amount)).
  set (l2 := slice array (start range + amount) (end_ range)).
  set (post := slice array (end_ range) (Z.of_nat (length array))).
  assert (Earr : array = pre ++ l1 ++ l2 ++ post).
  { unfold pre, l1, l2, post.
    rewrite <- (slice_split array (start range + amount)) by lia.
    rewrite <- (slice_split array (start range)) by lia.
    rewrite <- (slice_split array 0) by lia.
    symmetry. apply slice_all. }
  assert (Hpre : length pre = Z.to_nat (start range))
    by (unfold pre; rewrite slice_length; [f_equal |..]; lia).
  assert (Hl1 : length l1 = Z.to_nat amount)
    by (unfold l1; rewrite slice_length; [f_equal |..]; lia).
  assert (Hl2 : length l2 = Z.to_nat (end_ range - (start range + amount)))
    by (unfold l2; rewrite slice_length; [f_equal |..]; lia).
  clearbody pre l1 l2 post.
  destruct (Rotate_spec size pre l1 l2 post cache fuel range amount cache_size)
    as (cache' & Hrot & _); try lia.
  - rewrite <- Earr. exact Hfit.
  - exists (pre ++ l2 ++ l1 ++ post), cache'. split; [| reflexivity].
    rewrite Earr. exact Hrot.
Qed.

Lemma Rotate_rotates_left_witness :
  exists array' cache',
    Rotate (ST := list_store 4) 3 [10; 20; 30; 40; 50] 4 1 (Range_new 1 4) [] 0
      = Done (array', cache') /\
    array' = slice [10; 20; 30; 40; 50] 0 1
             ++ slice [10; 20; 30; 40; 50] (1 + 1) 4
             ++ slice [10; 20; 30; 40; 50] 1 (1 + 1)
             ++ slice [10; 20; 30; 40; 50] 4 5.
Proof.
  apply (Rotate_rotates_left 4 [10; 20; 30; 40; 50] [] 3 1 (Range_new 1 4) 0).
  - split; [lia | vm_compute; reflexivity].
  - cbn. lia.
  - cbn. lia.
  - vm_compute. split; discriminate.
  - cbn. lia.
  - vm_compute. lia.
Defined.

(** C5. On an array of items of [size] bytes, for every range inside the
    array that is sorted under a comparator with total-order semantics,
    every searched value and every estimate [unique >= 1], and given fuel
    for the length of the range: [FindFirstForward] and
    [FindFirstBackward] return the index [BinaryFirst] returns (the place
    where the items stop comparing below the value), and
    [FindLastForward] and [FindLastBackward] return the index
    [BinaryLast] returns (the place where the items start comparing
    above the value). *)
Theorem galloping_matches_binary {T : Type} (size : Z) (compare : Comparison T)
    (array : list T) (value : T) (range : Range) (unique : Z) (fuel : nat) :
  fits size array ->
  total_order compare ->
  0 <= start range <= end_ range ->
  end_ range <= Z.of_nat (length array) ->
  sorted_range compare array (start range) (end_ range) ->
  1 <= unique ->
  (Z.to_nat (end_ range - start range) <= fuel)%nat ->
  exists first last,
    (BinaryFirst (ST := list_store size) fuel array (Some value) size range
       compare = Done first /\
     FindFirstForward (ST := list_store size) fuel array (Some value) size
       range compare unique = Done first /\
     FindFirstBackward (ST := list_store size) fuel array (Some value) size
       range compare unique = Done first /\
     split_at (below compare array value) (start range) (end_ range) first) /\
    (BinaryLast (ST := list_store size) fuel array (Some value) size range
       compare = Done last /\
     FindLastForward (ST := list_store size) fuel array (Some value) size
       range compare unique = Done last /\
     FindLastBackward (ST := list_store size) fuel array (Some value) size
       range compare unique = Done last /\
     split_at (not_above compare array value) (start range) (end_ range) last).
Proof.
  intros Hfit Horder Hlo Hhi Hsorted Hu Hf.
  destruct range as [lo hi]. cbn [start end_] in *.
  assert (Hbound : Z.of_nat (length array) < SIZE_MAX1).
  { destruct Hfit as [Hs0 Hfit]. nia. }
  destruct (sorted_split_first compare Horder array value lo hi Hlo Hhi Hsorted)
    as (first & Hfirst).
  destruct (sorted_split_last compare Horder array value lo hi Hlo Hhi Hsorted)
    as (last & Hlast).
  exists first, last. split.
  - destruct (searches_find_split
                (test_first (ST := list_store size) array (Some value) size compare)
                (below compare array value) true lo hi first unique fuel)
      as (H1 & H2 & H3); auto; try lia.
    { intros j Hj. apply test_first_items; auto; lia. }
    rewrite BinaryFirst_scheme. unfold FindFirstForward, FindFirstBackward.
    cbn [start end_].
    split; [exact H1 |]. split; [| split; [| exact Hfirst]].
    + rewrite <- H2. destruct (Range_length _ =? 0); [reflexivity |].
      destruct (skip_of _ unique); cbn [bind]; try reflexivity.
      apply FindFirstForward_for_scheme.
    + rewrite <- H3. destruct (Range_length _ =? 0); [reflexivity |].
      destruct (skip_of _ unique); cbn [bind]; try reflexivity.
      apply FindFirstBackward_for_scheme.
  - destruct (searches_find_split
                (test_last (ST := list_store size) array (Some value) size compare)
                (not_above compare array value) false lo hi last unique fuel)
      as (H1 & H2 & H3); auto; try lia.
    { intros j Hj. apply test_last_items; auto; lia. }
    rewrite BinaryLast_scheme. unfold FindLastForward, FindLastBackward.
    cbn [start end_].
    split; [exact H1 |]. split; [| split; [| exact Hlast]].
    + rewrite <- H2. destruct (Range_length _ =? 0); [reflexivity |].
      destruct (skip_of _ unique); cbn [bind]; try reflexivity.
      apply FindLastForward_for_scheme.
    + rewrite <- H3. destruct (Range_length _ =? 0); [reflexivity |].
      destruct (skip_of _ unique); cbn [bind]; try reflexivity.
      apply FindLastBackward_for_scheme.
Qed.

Lemma galloping_matches_binary_witness :
  exists first last,
    (BinaryFirst (ST := list_store 8) 5 [1; 2; 2; 3; 5] (Some 2) 8
       (Range_new 0 5) Z.sub = Done first /\
     FindFirstForward (ST := list_store 8) 5 [1; 2; 2; 3; 5] (Some 2) 8
       (Range_new 0 5) Z.sub 2 = Done first /\
     FindFirstBackward (ST := list_store 8) 5 [1; 2; 2; 3; 5] (Some 2) 8
       (Range_new 0 5) Z.sub 2 = Done first /\
     split_at (below Z.sub [1; 2; 2; 3; 5] 2) 0 5 first) /\
    (BinaryLast (ST := list_store 8) 5 [1; 2; 2; 3; 5] (Some 2) 8
       (Range_new 0 5) Z.sub = Done last /\
     FindLastForward (ST := list_store 8) 5 [1; 2; 2; 3; 5] (Some 2) 8
       (Range_new 0 5) Z.sub 2 = Done last /\
     FindLastBackward (ST := list_store 8) 5 [1; 2; 2; 3; 5] (Some 2) 8
       (Range_new 0 5) Z.sub 2 = Done last /\
     split_at (not_above Z.sub [1; 2; 2; 3; 5] 2) 0 5 last).
Proof.
  apply (galloping_matches_binary 8 Z.sub [1; 2; 2; 3; 5] 2 (Range_new 0 5) 2 5).
  - split; [lia | vm_compute; reflexivity].
  - exact Z_sub_total_order.
  - cbn. lia.
  - cbn. lia.
  - exact small_array_sorted.
  - lia.
  - cbn. lia.
Defined.

Lemma map_fst_combine {A B : Type} (l : list A) (s : list B) :
  (length l <= length s)%nat -> map fst (combine l s) = l.
Proof.
  revert s. induction l as [|a l IH]; intros [|b s] H; cbn in *;
    try reflexivity; try lia.
  rewrite IH by lia. reflexivity.
Qed.

Lemma map_snd_combine {A B : Type} (l : list A) (s : list B) :
  map snd (combine l s) = firstn (length l) s.
Proof.
  revert s. induction l as [|a l IH]; intros [|b s]; cbn; try reflexivity.
  now rewrite IH.
Qed.

Lemma In_combine_seq {A : Type} (l : list A) :
  forall (s n : nat) (v : A) (o : Z),
    In (v, o) (combine l (map Z.of_nat (seq s n))) ->
    exists p, o = Z.of_nat (s + p) /\ nth_error l p = Some v.
Proof.
  induction l as [|a l IH]; intros s [|n] v o H; cbn in H; try contradiction.
  destruct H as [H | H].
  - injection H as -> <-. exists 0%nat. split; [f_equal; lia | reflexivity].
  - destruct (IH (S s) n v o H) as (p & -> & Hp).
    exists (S p). split; [f_equal; lia | exact Hp].
Qed.

(** C8. On an array of items of [size] bytes and for a comparator with
    total-order semantics, running the sorting network chosen for a range
    of 4 to 8 items, with the [order] vector starting as [0, 1, ..., 7],
    changes only the items of the range and leaves them so that: the
    item now at place [k] of the range is the one that was at place
    [order[k]], no place being used twice; for all places [i < j] the
    item at [i] does not compare above the item at [j]; and when they
    compare equal the item at [i] came from the earlier place
    ([order[i] < order[j]]). *)
Theorem network_sorts_stably {T : Type} (size : Z) (compare : Comparison T)
    (pre l post : list T) (range : Range) :
  fits size (pre ++ l ++ post) ->
  total_order compare ->
  (4 <= length l <= 8)%nat ->
  start range = Z.of_nat (length pre) ->
  end_ range = Z.of_nat (length pre + length l) ->
  exists l' order',
    run_network (ST := list_store size) (network_of (Range_length range))
      (pre ++ l ++ post) size range compare [0; 1; 2; 3; 4; 5; 6; 7]
      = Done (pre ++ l' ++ post, order') /\
    length l' = length l /\
    NoDup (firstn (length l) order') /\
    (forall k x, nth_error l' k = Some x ->
       exists p, nth_error order' k = Some (Z.of_nat p) /\
                 nth_error l p = Some x) /\
    (forall i j x y p q, (i < j)%nat ->
       nth_error l' i = Some x -> nth_error l' j = Some y ->
       nth_error order' i = Some p -> nth_error order' j = Some q ->
       compare x y <= 0 /\ (compare x y = 0 -> p < q)).
Proof.
  intros Hfit Horder Hn Hs He.
  assert (Hbound : Z.of_nat (length (pre ++ l ++ post)) < SIZE_MAX1).
  { destruct Hfit as [Hs0 Hfit]. nia. }
  rewrite !length_app in Hbound.
  assert (HR : Range_length range = Z.of_nat (length l)).
  { unfold Range_length. rewrite Hs, He. rewrite sub_small; lia. }
  rewrite HR.
  set (order0 := map Z.of_nat (seq 0 8)).
  change [0; 1; 2; 3; 4; 5; 6; 7] with order0.
  set (keys := combine l order0).
  assert (Hkl : length keys = length l).
  { unfold keys. rewrite length_combine. unfold order0.
    rewrite length_map, length_seq. lia. }
  assert (Hfst : map fst keys = l).
  { unfold keys. apply map_fst_combine. unfold order0.
    rewrite length_map, length_seq. lia. }
  assert (Hsnd : map snd keys = firstn (length l) order0)
    by (unfold keys; apply map_snd_combine).
  assert (Hord : order0 = map snd keys ++ skipn (length l) order0)
    by (rewrite Hsnd; symmetry; apply firstn_skipn).
  set (net := network_of (Z.of_nat (length l))).
  set (keys' := exchanges (swaps compare) net keys).
  assert (Hrun : run_network (ST := list_store size) net (pre ++ l ++ post)
                   size range compare order0
                 = Done (pre ++ map fst keys' ++ post,
                         map snd keys' ++ skipn (length l) order0)).
  { rewrite Hord at 1. rewrite <- Hfst at 1.
    apply run_network_exchanges; auto.
    - now rewrite Hfst.
    - rewrite Hkl. now apply network_of_within. }
  assert (Hk'l : length keys' = length l)
    by (unfold keys'; rewrite exchanges_length; exact Hkl).
  assert (Hperm : Permutation keys keys') by apply exchanges_perm.
  assert (Hnd : NoDup (map snd keys')).
  { eapply Permutation_NoDup; [apply Permutation_map; exact Hperm |].
    rewrite Hsnd.
    apply (NoDup_app_remove_r _ (skipn (length l) order0)).
    rewrite firstn_skipn. unfold order0. cbn [map seq Z.of_nat].
    repeat (apply NoDup_cons; [cbn [In]; lia |]). apply NoDup_nil. }
  assert (Hnth : forall k, nth_error (map snd keys' ++ skipn (length l) order0) k
                           = if Nat.ltb k (length l)
                             then nth_error (map snd keys') k
                             else nth_error (skipn (length l) order0)
                                    (k - length l)).
  { intros k. destruct (Nat.ltb k (length l)) eqn:E.
    - apply Nat.ltb_lt in E. apply nth_error_app1. rewrite length_map. lia.
    - apply Nat.ltb_ge in E. rewrite nth_error_app2; rewrite length_map; [| lia].
      now rewrite Hk'l. }
  exists (map fst keys'), (map snd keys' ++ skipn (length l) order0).
  split; [exact Hrun |].
  split; [rewrite length_map; exact Hk'l |].
  split.
  { rewrite firstn_app, length_map, Hk'l, Nat.sub_diag. cbn [firstn].
    rewrite app_nil_r, firstn_all2 by (rewrite length_map; lia). exact Hnd. }
  split.
  - intros k x Hx.
    rewrite nth_error_map in Hx.
    destruct (nth_error keys' k) as [[v o]|] eqn:Ek; [| discriminate].
    cbn in Hx. injection Hx as ->.
    assert (Hin : In (x, o) keys).
    { eapply Permutation_in; [symmetry; exact Hperm |].
      eapply nth_error_In; exact Ek. }
    destruct (In_combine_seq l 0 8 x o Hin) as (p & -> & Hp).
    exists p. split; [| exact Hp].
    rewrite Hnth.
    assert (k < length l)%nat
      by (rewrite <- Hk'l; apply nth_error_Some; congruence).
    replace (Nat.ltb k (length l)) with true
      by (symmetry; apply Nat.ltb_lt; lia).
    rewrite nth_error_map, Ek. reflexivity.
  - intros i j x y p q Hij Hx Hy Hp Hq.
    rewrite nth_error_map in Hx, Hy.
    destruct (nth_error keys' i) as [ki|] eqn:Ei; [| discriminate].
    destruct (nth_error keys' j) as [kj|] eqn:Ej; [| discriminate].
    cbn in Hx, Hy. injection Hx as <-. injection Hy as <-.
    assert (Hjl : (j < length l)%nat)
      by (rewrite <- Hk'l; apply nth_error_Some; congruence).
    rewrite Hnth in Hp, Hq.
    replace (Nat.ltb i (length l)) with true in Hp
      by (symmetry; apply Nat.ltb_lt; lia).
    replace (Nat.ltb j (length l)) with true in Hq
      by (symmetry; apply Nat.ltb_lt; lia).
    rewrite nth_error_map, Ei in Hp. rewrite nth_error_map, Ej in Hq.
    cbn in Hp, Hq. injection Hp as <-. injection Hq as <-.
    pose proof (exchanges_sorted compare Horder (length l) keys Hn Hkl
                  i j ki kj Hij Ei Ej) as Hsorted.
    apply swaps_false in Hsorted.
    order_facts Horder (fst ki) (fst kj) (fst ki).
    assert (Hne : snd ki <> snd kj).
    { intros Heq.
      assert (i = j); [| lia].
      apply (proj1 (NoDup_nth_error (map snd keys')) Hnd).
      - rewrite length_map, Hk'l. lia.
      - rewrite !nth_error_map, Ei, Ej. cbn. now rewrite Heq. }
    lia.
Qed.

Lemma network_sorts_stably_witness :
  exists l' order',
    run_network (ST := list_store 8) (network_of (Range_length (Range_new 0 4)))
      ([] ++ [3; 1; 2; 1] ++ []) 8 (Range_new 0 4) Z.sub
      [0; 1; 2; 3; 4; 5; 6; 7]
      = Done ([] ++ l' ++ [], order') /\
    length l' = length [3; 1; 2; 1] /\
    NoDup (firstn (length [3; 1; 2; 1]) order') /\
    (forall k x, nth_error l' k = Some x ->
       exists p, nth_error order' k = Some (Z.of_nat p) /\
                 nth_error [3; 1; 2; 1] p = Some x) /\
    (forall i j x y p q, (i < j)%nat ->
       nth_error l' i = Some x -> nth_error l' j = Some y ->
       nth_error order' i = Some p -> nth_error order' j = Some q ->
       Z.sub x y <= 0 /\ (Z.sub x y = 0 -> p < q)).
Proof.
  apply (network_sorts_stably 8 Z.sub [] [3; 1; 2; 1] [] (Range_new 0 4)).
  - split; [lia | vm_compute; reflexivity].
  - exact Z_sub_total_order.
  - cbn. lia.
  - reflexivity.
  - reflexivity.
Defined.

(** * Searching a sorted run given by its parts *)

Lemma parts_split_at {T : Type} (accepts : T -> bool)
    (pre b1 b2 post : list T) :
  Forall (fun x => accepts x = true) b1 ->
  Forall (fun x => accepts x = false) b2 ->
  split_at (holds_at accepts (pre ++ b1 ++ b2 ++ post))
    (Z.of_nat (length pre)) (Z.of_nat (length pre + length b1 + length b2))
    (Z.of_nat (length pre + length b1)).
Proof.
  intros H1 H2. unfold split_at, holds_at. split; [lia | split].
  - intros j Hj.
    replace (Z.to_nat j) with (length pre + (Z.to_nat j - length pre))%nat
      by lia.
    rewrite nth_error_mid by lia.
    destruct (nth_error b1 (Z.to_nat j - length pre)) as [x|] eqn:E.
    + rewrite Forall_forall in H1. apply H1. eapply nth_error_In; eauto.
    + apply nth_error_None in E. lia.
  - intros j Hj.
    replace (pre ++ b1 ++ b2 ++ post) with ((pre ++ b1) ++ b2 ++ post)
      by (app_norm; reflexivity).
    replace (Z.to_nat j)
      with (length (pre ++ b1) + (Z.to_nat j - length (pre ++ b1)))%nat
      by (rewrite length_app; lia).
    rewrite nth_error_mid by (rewrite length_app; lia).
    destruct (nth_error b2 _) as [x|] eqn:E; [| reflexivity].
    rewrite Forall_forall in H2. apply H2. eapply nth_error_In; eauto.
Qed.

Section SortedParts.
Context {T : Type} (size : Z) (compare : Comparison T).
Hypothesis Horder : total_order compare.
#[local] Hint Extern 0 (Store (list _) _) =>
  exact (list_store size) : typeclass_instances.

Lemma compare_lt_le (a b c : T) :
  compare a b < 0 -> compare b c <= 0 -> compare a c < 0.
Proof.
  intros Hab Hbc.
  destruct (Z_lt_le_dec (compare a c) 0) as [|Hge]; [assumption | exfalso].
  assert (Hca : compare c a <= 0) by (flips Horder a c; lia).
  pose proof (le_transitive _ Horder b c a Hbc Hca).
  flips Horder a b. lia.
Qed.

Lemma sorted_below_parts (v : T) (b : list T) :
  sorted_list compare b ->
  exists b1 b2, b = b1 ++ b2 /\
    Forall (fun y => compare y v < 0) b1 /\
    Forall (fun y => compare y v >= 0) b2.
Proof.
  unfold sorted_list. induction 1 as [|y b Hs IH Hy].
  - exists [], []. repeat split; constructor.
  - destruct (Z_lt_le_dec (compare y v) 0) as [Hlt | Hge].
    + destruct IH as (b1 & b2 & -> & H1 & H2).
      exists (y :: b1), b2. repeat split; auto.
    + exists [], (y :: b). repeat split; auto.
      constructor; [lia |].
      eapply Forall_impl; [| exact Hy]. intros z Hz.
      destruct (Z_lt_le_dec (compare z v) 0) as [Hlt |]; [| lia].
      pose proof (compare_below_le compare Horder y z v Hz Hlt). lia.
Qed.

Lemma sorted_not_above_parts (v : T) (a : list T) :
  sorted_list compare a ->
  exists a1 a2, a = a1 ++ a2 /\
    Forall (fun x => compare v x >= 0) a1 /\
    Forall (fun x => compare v x < 0) a2.
Proof.
  unfold sorted_list. induction 1 as [|x a Hs IH Hx].
  - exists [], []. repeat split; constructor.
  - destruct (Z_lt_le_dec (compare v x) 0) as [Hlt | Hge].
    + exists [], (x :: a). repeat split; auto.
      constructor; [lia |].
      eapply Forall_impl; [| exact Hx]. intros z Hz.
      apply (compare_lt_le v x z); assumption.
    + destruct IH as (a1 & a2 & -> & H1 & H2).
      exists (x :: a1), a2. repeat split; auto. constructor; [lia | auto].
Qed.

Lemma BinaryFirst_parts (pre b1 b2 post : list T) (v : T) (range : Range)
    (fuel : nat) :
  fits size (pre ++ b1 ++ b2 ++ post) ->
  Forall (fun y => compare y v < 0) b1 ->
  Forall (fun y => compare y v >= 0) b2 ->
  start range = Z.of_nat (length pre) ->
  end_ range = Z.of_nat (length pre + length b1 + length b2) ->
  (length b1 + length b2 <= fuel)%nat ->
  BinaryFirst fuel (pre ++ b1 ++ b2 ++ post) (Some v) size range compare
    = Done (Z.of_nat (length pre + length b1)).
Proof.
  intros Hfit H1 H2 Hs He Hf.
  assert (Hbound : Z.of_nat (length (pre ++ b1 ++ b2 ++ post)) < SIZE_MAX1).
  { destruct Hfit as [Hs0 Hfit]. nia. }
  rewrite BinaryFirst_scheme.
  assert (Hlen : length (pre ++ b1 ++ b2 ++ post)
                 = (length pre + length b1 + length b2 + length post)%nat)
    by (rewrite !length_app; lia).
  rewrite Hlen in Hbound.
  apply (search_spec _ (holds_at (fun x => compare x v <? 0)
                          (pre ++ b1 ++ b2 ++ post))
           (Z.of_nat (length pre))
           (Z.of_nat (length pre + length b1 + length b2)));
    try lia.
  - intros j Hj. apply test_first_items; auto. lia.
  - apply parts_split_at.
    + eapply Forall_impl; [| exact H1]. intros y Hy. cbv beta in *. apply Z.ltb_lt. lia.
    + eapply Forall_impl; [| exact H2]. intros y Hy. cbv beta in *. apply Z.ltb_ge. lia.
Qed.

Lemma BinaryLast_parts (pre a1 a2 post : list T) (v : T) (range : Range)
    (fuel : nat) :
  fits size (pre ++ a1 ++ a2 ++ post) ->
  Forall (fun x => compare v x >= 0) a1 ->
  Forall (fun x => compare v x < 0) a2 ->
  start range = Z.of_nat (length pre) ->
  end_ range = Z.of_nat (length pre + length a1 + length a2) ->
  (length a1 + length a2 <= fuel)%nat ->
  BinaryLast fuel (pre ++ a1 ++ a2 ++ post) (Some v) size range compare
    = Done (Z.of_nat (length pre + length a1)).
Proof.
  intros Hfit H1 H2 Hs He Hf.
  assert (Hbound : Z.of_nat (length (pre ++ a1 ++ a2 ++ post)) < SIZE_MAX1).
  { destruct Hfit as [Hs0 Hfit]. nia. }
  rewrite BinaryLast_scheme.
  assert (Hlen : length (pre ++ a1 ++ a2 ++ post)
                 = (length pre + length a1 + length a2 + length post)%nat)
    by (rewrite !length_app; lia).
  rewrite Hlen in Hbound.
  apply (search_spec _ (holds_at (fun x => compare v x >=? 0)
                          (pre ++ a1 ++ a2 ++ post))
           (Z.of_nat (length pre))
           (Z.of_nat (length pre + length a1 + length a2)));
    try lia.
  - intros j Hj. apply test_last_items; auto. lia.
  - apply parts_split_at.
    + eapply Forall_impl; [| exact H1]. intros y Hy. cbv beta in *. apply Z.geb_le. lia.
    + eapply Forall_impl; [| exact H2]. intros y Hy. cbv beta in *.
      rewrite Z.geb_leb. apply Z.leb_gt. lia.
Qed.
End SortedParts.

(** * MergeInPlace *)

Section MergeInPlace.
Context {T : Type} (size : Z) (compare : Comparison T).
Hypothesis Horder : total_order compare.
#[local] Hint Extern 0 (Store (list _) _) =>
  exact (list_store size) : typeclass_instances.

(* one round of MergeInPlace on the lists: the items of [b] below the
   head of [a], then the items of [a] not above it, then the rest *)
Lemma merge_round (a0 : T) (a' a1 a2 b1 b2 : list T) :
  a0 :: a' = a1 ++ a2 ->
  Forall (fun y => compare y a0 < 0) b1 ->
  Forall (fun y => compare y a0 >= 0) b2 ->
  Forall (fun x => compare a0 x >= 0) a1 ->
  merge compare (a0 :: a') (b1 ++ b2) = b1 ++ a1 ++ merge compare a2 b2.
Proof.
  intros Ea Hb1 Hb2 Ha1.
  rewrite merge_below by assumption. rewrite Ea. f_equal.
  apply merge_not_above.
  eapply Forall_impl; [| exact Ha1]. intros x Hx. cbv beta in *.
  eapply Forall_impl; [| exact Hb2]. intros y Hy. cbv beta in *.
  assert (Hxa : compare x a0 <= 0) by (flips Horder x a0; lia).
  assert (Hay : compare a0 y <= 0) by (flips Horder y a0; lia).
  pose proof (le_transitive _ Horder x a0 y Hxa Hay).
  flips Horder x y. lia.
Qed.

Lemma MergeInPlace_while_spec (fuel : nat) :
  forall (pre a b post cache : list T) (A B : Range) (cache_size : Z),
    fits size (pre ++ a ++ b ++ post) ->
    a <> [] -> b <> [] ->
    sorted_list compare a -> sorted_list compare b ->
    start A = Z.of_nat (length pre) ->
    end_ A = Z.of_nat (length pre + length a) ->
    start B = Z.of_nat (length pre + length a) ->
    end_ B = Z.of_nat (length pre + length a + length b) ->
    0 <= cache_size <= Z.of_nat (length cache) ->
    (length a + length b <= fuel)%nat ->
    exists cache',
      MergeInPlace_while fuel (pre ++ a ++ b ++ post) size A B compare
        cache cache_size
      = Done (pre ++ merge compare a b ++ post, cache') /\
      length cache' = length cache.
Proof.
  induction fuel as [|fuel IH];
    intros pre a b post cache A B cache_size Hfit Ha Hb Hsa Hsb
           HsA HeA HsB HeB Hc Hf.
  { destruct a; [congruence | cbn in Hf; lia]. }
  assert (Hbound : Z.of_nat (length (pre ++ a ++ b ++ post)) < SIZE_MAX1).
  { destruct Hfit as [Hs0 Hfit]. nia. }
  rewrite !length_app in Hbound.
  destruct a as [|a0 a']; [congruence |].
  destruct (sorted_below_parts compare Horder a0 b Hsb)
    as (b1 & b2 & -> & Hb1 & Hb2).
  destruct (sorted_not_above_parts compare Horder a0 (a0 :: a') Hsa)
    as (a1 & a2 & Ea & Ha1 & Ha2).
  assert (Ha1ne : a1 <> []).
  { intros ->. cbn [app] in Ea. subst a2.
    inversion Ha2 as [|? ? H0 _]; subst. flips Horder a0 a0. lia. }
  assert (Hla : length (a0 :: a') = (length a1 + length a2)%nat)
    by (rewrite Ea, length_app; reflexivity).
  rewrite (merge_round a0 a' a1 a2 b1 b2 Ea Hb1 Hb2 Ha1).
  rewrite length_app in *.
  cbn [MergeInPlace_while].
  (* the first place in B where the first item of A goes *)
  rewrite HsA.
  rewrite (ptr_app size pre (a' ++ (b1 ++ b2) ++ post) a0) by auto.
  replace (pre ++ (a0 :: a') ++ (b1 ++ b2) ++ post)
    with ((pre ++ a0 :: a') ++ b1 ++ b2 ++ post) by (app_norm; reflexivity).
  rewrite (BinaryFirst_parts size compare (pre ++ a0 :: a') b1 b2 post
             a0 B (S fuel));
    auto; try (rewrite ?HsB, ?HeB, ?length_app; lia).
  2:{ app_norm. app_norm_in Hfit. exact Hfit. }
  cbn [bind].
  (* rotate A into place *)
  assert (HRA : Range_length A = Z.of_nat (length (a0 :: a'))).
  { unfold Range_length. rewrite HsA, HeA. rewrite sub_small; lia. }
  rewrite HRA.
  replace ((pre ++ a0 :: a') ++ b1 ++ b2 ++ post)
    with (pre ++ (a0 :: a') ++ b1 ++ (b2 ++ post)) by (app_norm; reflexivity).
  destruct (Rotate_spec size pre (a0 :: a') b1 (b2 ++ post) cache (S fuel)
              (Range_new (Z.of_nat (length pre))
                 (Z.of_nat (length (pre ++ a0 :: a') + length b1)))
              (Z.of_nat (length (a0 :: a'))) cache_size)
    as (cache1 & Hrot & Hlen1); auto;
    try (cbn [start end_]; rewrite ?length_app; lia).
  { app_norm. app_norm_in Hfit. exact Hfit. }
  rewrite Hrot. cbn [bind].
  rewrite HeB.
  destruct (Z.of_nat (length pre + length (a0 :: a') + (length b1 + length b2))
            =? Z.of_nat (length (pre ++ a0 :: a') + length b1)) eqn:Emid.
  { (* B is used up *)
    apply Z.eqb_eq in Emid. rewrite length_app in Emid.
    assert (b2 = []) by (destruct b2; [reflexivity | cbn in Emid; lia]).
    subst b2. exists cache1. split; [| exact Hlen1].
    rewrite merge_nil_r, <- Ea. app_norm. reflexivity. }
  apply Z.eqb_neq in Emid. rewrite length_app in Emid.
  (* the new A and B ranges *)
  cbn [start end_].
  replace (Z.of_nat (length (pre ++ a0 :: a') + length b1)
           -% end_ A) with (Z.of_nat (length b1))
    by (rewrite HeA, length_app; unwrap; lia).
  replace (Z.of_nat (length pre) +% Z.of_nat (length b1))
    with (Z.of_nat (length (pre ++ b1)))
    by (rewrite length_app; unwrap; lia).
  replace (pre ++ b1 ++ (a0 :: a') ++ b2 ++ post)
    with ((pre ++ b1) ++ a0 :: (a' ++ b2 ++ post)) by (app_norm; reflexivity).
  rewrite (ptr_app size (pre ++ b1) (a' ++ b2 ++ post) a0); auto.
  2:{ eapply fits_length; [exact Hfit |]. lengths. lia. }
  replace ((pre ++ b1) ++ a0 :: (a' ++ b2 ++ post))
    with ((pre ++ b1) ++ a1 ++ a2 ++ (b2 ++ post))
    by (rewrite <- app_assoc, (app_assoc a1), <- Ea; app_norm; reflexivity).
  rewrite (BinaryLast_parts size compare (pre ++ b1) a1 a2 (b2 ++ post)
             a0 _ (S fuel));
    auto; try (cbn [start end_]; rewrite ?length_app; cbn [length] in *; lia).
  2:{ eapply fits_length; [exact Hfit |]. rewrite Ea. lengths. lia. }
  cbn [bind].
  assert (HRA2 : Range_length
                   (Range_new (Z.of_nat (length (pre ++ b1) + length a1))
                      (Z.of_nat (length (pre ++ a0 :: a') + length b1)))
                 = Z.of_nat (length a2)).
  { unfold Range_length. cbn [start end_]. rewrite !length_app.
    rewrite sub_small; cbn [length] in *; lia. }
  rewrite HRA2.
  destruct (Z.of_nat (length a2) =? 0) eqn:Ea2.
  { (* A is used up *)
    apply Z.eqb_eq in Ea2.
    assert (a2 = []) by (destruct a2; [reflexivity | cbn in Ea2; lia]).
    subst a2. exists cache1. split; [| exact Hlen1].
    rewrite merge_nil_l. app_norm. reflexivity. }
  apply Z.eqb_neq in Ea2.
  replace ((pre ++ b1) ++ a1 ++ a2 ++ b2 ++ post)
    with ((pre ++ b1 ++ a1) ++ a2 ++ b2 ++ post) by (app_norm; reflexivity).
  apply (proj1 (sorted_list_app compare _ _)) in Hsb as (_ & Hsb2 & _).
  rewrite Ea in Hsa.
  apply (proj1 (sorted_list_app compare _ _)) in Hsa as (_ & Hsa2 & _).
  destruct (IH (pre ++ b1 ++ a1) a2 b2 post cache1
              (Range_new (Z.of_nat (length (pre ++ b1) + length a1))
                 (Z.of_nat (length (pre ++ a0 :: a') + length b1)))
              (Range_new (Z.of_nat (length (pre ++ a0 :: a') + length b1))
                 (Z.of_nat (length pre + length (a0 :: a')
                            + (length b1 + length b2))))
              cache_size)
    as (cache2 & Hrec & Hlen2); auto;
    try (cbn [start end_]; rewrite ?length_app; cbn [length] in *; lia).
  - eapply fits_length; [exact Hfit |]. rewrite Ea. lengths. lia.
  - intros ->. cbn in Ea2. lia.
  - intros ->. cbn [length] in Emid. lia.
  - assert (length a1 <> 0)%nat by (destruct a1; [congruence | cbn; lia]).
    cbn [length] in *. lia.
  - exists cache2. split; [| lia].
    rewrite Hrec. app_norm. reflexivity.
Qed.
End MergeInPlace.

Section MergeInPlaceCore.
Context {T : Type} (size : Z) (compare : Comparison T).
Hypothesis Horder : total_order compare.
#[local] Hint Extern 0 (Store (list _) _) =>
  exact (list_store size) : typeclass_instances.

Lemma MergeInPlace_spec (pre a b post cache : list T) (A B : Range)
    (cache_size : Z) (fuel : nat) :
  fits size (pre ++ a ++ b ++ post) ->
  sorted_list compare a -> sorted_list compare b ->
  start A = Z.of_nat (length pre) ->
  end_ A = Z.of_nat (length pre + length a) ->
  start B = Z.of_nat (length pre + length a) ->
  end_ B = Z.of_nat (length pre + length a + length b) ->
  0 <= cache_size <= Z.of_nat (length cache) ->
  (length a + length b <= fuel)%nat ->
  exists cache',
    MergeInPlace fuel (pre ++ a ++ b ++ post) size A B compare cache cache_size
      = Done (pre ++ merge compare a b ++ post, cache') /\
    length cache' = length cache.
Proof.
  intros Hfit Hsa Hsb HsA HeA HsB HeB Hc Hf.
  assert (Hbound : Z.of_nat (length (pre ++ a ++ b ++ post)) < SIZE_MAX1).
  { destruct Hfit as [Hs0 Hfit]. nia. }
  rewrite !length_app in Hbound.
  unfold MergeInPlace, Range_length. rewrite HsA, HeA, HsB, HeB.
  rewrite !sub_small by lia.
  destruct a as [|a0 a'].
  { exists cache. split; [| reflexivity]. cbn [length].
    replace (Z.of_nat (length pre + 0) - Z.of_nat (length pre) =? 0) with true
      by (symmetry; apply Z.eqb_eq; lia).
    cbn [orb]. now rewrite merge_nil_l. }
  destruct b as [|b0 b'].
  { exists cache. split; [| reflexivity]. cbn [length].
    replace (Z.of_nat (length pre + S (length a') + 0)
             - Z.of_nat (length pre + S (length a')) =? 0) with true
      by (symmetry; apply Z.eqb_eq; lia).
    rewrite orb_true_r. now rewrite merge_nil_r. }
  replace (Z.of_nat (length pre + length (a0 :: a')) - Z.of_nat (length pre)
           =? 0) with false
    by (symmetry; apply Z.eqb_neq; cbn [length]; lia).
  replace (Z.of_nat (length pre + length (a0 :: a') + length (b0 :: b'))
           - Z.of_nat (length pre + length (a0 :: a')) =? 0) with false
    by (symmetry; apply Z.eqb_neq; cbn [length]; lia).
  cbn [orb].
  apply (MergeInPlace_while_spec size compare Horder); auto; discriminate.
Qed.
End MergeInPlaceCore.

(** C6. On an array of items of [size] bytes and for a comparator with
    total-order semantics: when the ranges [A] and [B] are next to each
    other and each is sorted, [MergeInPlace] (given fuel for the two
    lengths, and a cache that really has [cache_size] cells) leaves the
    items before [A] and after [B] as they were and puts in [A] and [B]
    together the stable merge of the two runs: it is sorted, it is made
    of the items of the two runs, and among the items that compare equal
    to any given one those of [A] come first, each run in its own
    order. *)
Theorem MergeInPlace_merges_stably {T : Type} (size : Z)
    (compare : Comparison T) (pre a b post cache : list T) (A B : Range)
    (cache_size : Z) (fuel : nat) :
  fits size (pre ++ a ++ b ++ post) ->
  total_order compare ->
  sorted_list compare a -> sorted_list compare b ->
  start A = Z.of_nat (length pre) ->
  end_ A = Z.of_nat (length pre + length a) ->
  start B = end_ A ->
  end_ B = Z.of_nat (length pre + length a + length b) ->
  0 <= cache_size <= Z.of_nat (length cache) ->
  (length a + length b <= fuel)%nat ->
  exists merged cache',
    MergeInPlace (ST := list_store size) fuel (pre ++ a ++ b ++ post) size A B
      compare cache cache_size
      = Done (pre ++ merged ++ post, cache') /\
    merged = merge compare a b /\
    sorted_list compare merged /\
    Permutation (a ++ b) merged /\
    (forall v, filter (equal_to compare v) merged
               = filter (equal_to compare v) a
                 ++ filter (equal_to compare v) b).
Proof.
  intros Hfit Horder Hsa Hsb HsA HeA HsB HeB Hc Hf.
  destruct (MergeInPlace_spec size compare Horder pre a b post cache A B
              cache_size fuel) as (cache' & Hrun & _); auto; try congruence.
  exists (merge compare a b), cache'.
  split; [exact Hrun |]. split; [reflexivity |].
  split; [now apply merge_sorted |].
  split; [apply merge_perm |].
  intros v. now apply merge_stable.
Qed.

Example two_runs_sorted :
  sorted_list Z.sub [1; 3; 3] /\ sorted_list Z.sub [2; 3].
Proof.
  split; unfold sorted_list;
    repeat (constructor; [| repeat constructor; lia]); constructor.
Qed.

Lemma MergeInPlace_merges_stably_witness :
  exists merged cache',
    MergeInPlace (ST := list_store 8) 5 ([0] ++ [1; 3; 3] ++ [2; 3] ++ [9]) 8
      (Range_new 1 4) (Range_new 4 6) Z.sub [] 0
      = Done ([0] ++ merged ++ [9], cache') /\
    merged = merge Z.sub [1; 3; 3] [2; 3] /\
    sorted_list Z.sub merged /\
    Permutation ([1; 3; 3] ++ [2; 3]) merged /\
    (forall v, filter (equal_to Z.sub v) merged
               = filter (equal_to Z.sub v) [1; 3; 3]
                 ++ filter (equal_to Z.sub v) [2; 3]).
Proof.
  apply (MergeInPlace_merges_stably 8 Z.sub [0] [1; 3; 3] [2; 3] [9] []
           (Range_new 1 4) (Range_new 4 6) 0 5).
  - split; [lia | vm_compute; reflexivity].
  - exact Z_sub_total_order.
  - exact (proj1 two_runs_sorted).
  - exact (proj2 two_runs_sorted).
  - reflexivity.
  - reflexivity.
  - reflexivity.
  - reflexivity.
  - cbn. lia.
  - cbn. lia.
Defined.

(** * BlockSwap *)

Section BlockSwap.
Context {T : Type} (size : Z).
#[local] Hint Extern 0 (Store (list _) _) =>
  exact (list_store size) : typeclass_instances.

(* [d1] and [d2] are the items already swapped *)
Lemma BlockSwap_for_spec (n : nat) :
  forall (l1 l2 p d2 m d1 q : list T) (lo hi block_size index : Z)
         (fuel : nat),
    length l1 = n -> length l2 = n ->
    length d1 = length d2 ->
    fits size (p ++ d2 ++ l1 ++ m ++ d1 ++ l2 ++ q) ->
    lo = Z.of_nat (length p) ->
    hi = Z.of_nat (length p + length d2 + n + length m) ->
    index = Z.of_nat (length d2) ->
    block_size = Z.of_nat (length d2 + n) ->
    (n <= fuel)%nat ->
    BlockSwap_for fuel (p ++ d2 ++ l1 ++ m ++ d1 ++ l2 ++ q) size lo hi
      block_size index
    = Done (p ++ d2 ++ l2 ++ m ++ d1 ++ l1 ++ q) /\
    BlockSwap_for fuel (p ++ d2 ++ l1 ++ m ++ d1 ++ l2 ++ q) size hi lo
      block_size index
    = Done (p ++ d2 ++ l2 ++ m ++ d1 ++ l1 ++ q).
Proof.
  induction n as [|n IH];
    intros l1 l2 p d2 m d1 q lo hi block_size index fuel
           H1 H2 Hd Hfit -> -> -> -> Hf.
  - destruct l1; [| discriminate]. destruct l2; [| discriminate].
    assert (E : (Z.of_nat (length d2) <? Z.of_nat (length d2 + 0)) = false)
      by (apply Z.ltb_ge; lia).
    destruct fuel; cbn [BlockSwap_for]; rewrite E; split; reflexivity.
  - destruct fuel as [|fuel]; [lia |].
    destruct l1 as [|x l1]; [discriminate |].
    destruct l2 as [|y l2]; [discriminate |].
    cbn [length] in H1, H2.
    assert (Hbound : Z.of_nat (length (p ++ d2 ++ (x :: l1) ++ m ++ d1
                                         ++ (y :: l2) ++ q)) < SIZE_MAX1).
    { destruct Hfit as [Hs0 Hfit]. nia. }
    lengths.
    cbn [BlockSwap_for].
    replace (Z.of_nat (length d2) <? Z.of_nat (length d2 + S n)) with true
      by (symmetry; apply Z.ltb_lt; lia).
    replace (Z.of_nat (length p) +% Z.of_nat (length d2))
      with (Z.of_nat (length (p ++ d2))) by (rewrite length_app; unwrap; lia).
    replace (Z.of_nat (length p + length d2 + S n + length m)
             +% Z.of_nat (length d2))
      with (Z.of_nat (length (p ++ d2) + 1 + length (l1 ++ m ++ d1)))
      by (rewrite !length_app; unwrap; lia).
    replace (p ++ d2 ++ (x :: l1) ++ m ++ d1 ++ (y :: l2) ++ q)
      with ((p ++ d2) ++ x :: (l1 ++ m ++ d1) ++ y :: (l2 ++ q))
      by (app_norm; reflexivity).
    destruct (Swap_app size (p ++ d2) (l1 ++ m ++ d1) (l2 ++ q) x y _ _
                ltac:(app_norm; app_norm_in Hfit; exact Hfit)
                eq_refl eq_refl) as [Sw1 Sw2].
    rewrite Sw1, Sw2. cbn [lift bind].
    replace ((p ++ d2) ++ y :: (l1 ++ m ++ d1) ++ x :: l2 ++ q)
      with (p ++ (d2 ++ [y]) ++ l1 ++ m ++ (d1 ++ [x]) ++ l2 ++ q)
      by (app_norm; reflexivity).
    replace (Z.of_nat (length d2) +% 1) with (Z.of_nat (length (d2 ++ [y])))
      by (rewrite length_app; cbn [length]; unwrap; lia).
    destruct (IH l1 l2 p (d2 ++ [y]) m (d1 ++ [x]) q
                (Z.of_nat (length p))
                (Z.of_nat (length p + length d2 + S n + length m))
                (Z.of_nat (length d2 + S n))
                (Z.of_nat (length (d2 ++ [y]))) fuel)
      as [R1 R2]; try lia; try reflexivity;
      try (rewrite !length_app; cbn [length]; lia).
    { eapply fits_length; [exact Hfit |]. lengths. lia. }
    rewrite R1, R2. split; app_norm; reflexivity.
Qed.

(* two blocks of the same length change places, whichever comes first in
   the call *)
Lemma BlockSwap_spec (p l1 m l2 q : list T) (lo hi block_size : Z)
    (fuel : nat) :
  length l1 = length l2 ->
  fits size (p ++ l1 ++ m ++ l2 ++ q) ->
  lo = Z.of_nat (length p) ->
  hi = Z.of_nat (length p + length l1 + length m) ->
  block_size = Z.of_nat (length l1) ->
  (length l1 <= fuel)%nat ->
  BlockSwap fuel (p ++ l1 ++ m ++ l2 ++ q) size lo hi block_size
    = Done (p ++ l2 ++ m ++ l1 ++ q) /\
  BlockSwap fuel (p ++ l1 ++ m ++ l2 ++ q) size hi lo block_size
    = Done (p ++ l2 ++ m ++ l1 ++ q).
Proof.
  intros Hlen Hfit -> -> -> Hf. unfold BlockSwap.
  apply (BlockSwap_for_spec (length l1) l1 l2 p [] m [] q); auto.
Qed.

Lemma BlockSwap_for_self (n : nat) :
  forall (array : list T) (lo block_size index : Z) (fuel : nat),
    fits size array ->
    0 <= lo -> 0 <= index -> block_size = index + Z.of_nat n ->
    lo + block_size <= Z.of_nat (length array) ->
    (n <= fuel)%nat ->
    BlockSwap_for fuel array size lo lo block_size index = Done array.
Proof.
  induction n as [|n IH]; intros array lo block_size index fuel
                             Hfit Hlo Hi -> Hlen Hf.
  - assert (E : (index <? index + Z.of_nat 0) = false)
      by (apply Z.ltb_ge; lia).
    destruct fuel; cbn [BlockSwap_for]; rewrite E; reflexivity.
  - destruct fuel as [|fuel]; [lia |].
    assert (Hbound : Z.of_nat (length array) < SIZE_MAX1).
    { destruct Hfit as [Hs0 Hfit]. nia. }
    cbn [BlockSwap_for].
    replace (index <? index + Z.of_nat (S n)) with true
      by (symmetry; apply Z.ltb_lt; lia).
    rewrite add_small by lia.
    rewrite Swap_self by (auto; lia). cbn [lift bind].
    rewrite add_small by lia.
    apply IH; auto; lia.
Qed.

Lemma BlockSwap_self (array : list T) (lo block_size : Z) (fuel : nat) :
  fits size array -> 0 <= lo -> 0 <= block_size ->
  lo + block_size <= Z.of_nat (length array) ->
  (Z.to_nat block_size <= fuel)%nat ->
  BlockSwap fuel array size lo lo block_size = Done array.
Proof.
  intros Hfit Hlo Hb Hlen Hf. unfold BlockSwap.
  apply (BlockSwap_for_self (Z.to_nat block_size)); auto; lia.
Qed.
End BlockSwap.

(** * Two windows of one array *)

Lemma two_windows_length {T : Type} (bf : bool) (p0 w p1 buf p2 : list T) :
  length (two_windows bf p0 w p1 buf p2)
  = (length p0 + length w + length p1 + length buf + length p2)%nat.
Proof. destruct bf; unfold two_windows; lengths; lia. Qed.

Lemma two_windows_fits {T : Type} (size : Z) (bf : bool)
    (p0 w p1 buf p2 w' buf' : list T) :
  fits size (two_windows bf p0 w p1 buf p2) ->
  length w' = length w -> length buf' = length buf ->
  fits size (two_windows bf p0 w' p1 buf' p2).
Proof.
  intros Hfit Hw Hb. eapply fits_length; [exact Hfit |].
  rewrite !two_windows_length. lia.
Qed.

(* the array around the first window, and around the buffer *)
Lemma two_windows_around_w {T : Type} (bf : bool) (p0 p1 buf p2 : list T) :
  exists pre post,
    Z.of_nat (length pre) = window_start bf p0 buf p1 /\
    forall w, two_windows bf p0 w p1 buf p2 = pre ++ w ++ post.
Proof.
  destruct bf; unfold two_windows, window_start.
  - exists (p0 ++ buf ++ p1), p2. split; [lengths; lia |].
    intros w. app_norm. reflexivity.
  - exists p0, (p1 ++ buf ++ p2). split; [reflexivity |].
    intros w. app_norm. reflexivity.
Qed.

Lemma two_windows_around_buf {T : Type} (bf : bool) (p0 w p1 p2 : list T) :
  exists pre post,
    Z.of_nat (length pre) = buffer_start bf p0 w p1 /\
    forall buf, two_windows bf p0 w p1 buf p2 = pre ++ buf ++ post.
Proof.
  destruct bf; unfold two_windows, buffer_start.
  - exists p0, (p1 ++ w ++ p2). split; [reflexivity |].
    intros buf. app_norm. reflexivity.
  - exists (p0 ++ w ++ p1), p2. split; [lengths; lia |].
    intros buf. app_norm. reflexivity.
Qed.

Section Windows.
Context {T : Type} (size : Z).
#[local] Hint Extern 0 (Store (list _) _) =>
  exact (list_store size) : typeclass_instances.

Lemma window_ptr (bf : bool) (p0 p1 buf p2 u v : list T) (x : T) (i : Z) :
  fits size (two_windows bf p0 (u ++ x :: v) p1 buf p2) ->
  i = window_start bf p0 buf p1 + Z.of_nat (length u) ->
  ptr (two_windows bf p0 (u ++ x :: v) p1 buf p2) (size *% i) = Some x.
Proof.
  intros Hfit ->.
  destruct (two_windows_around_w bf p0 p1 buf p2) as (pre & post & <- & E).
  rewrite E in *.
  replace (pre ++ (u ++ x :: v) ++ post) with ((pre ++ u) ++ x :: v ++ post)
    in * by (app_norm; reflexivity).
  apply ptr_app; auto. lengths. lia.
Qed.

Lemma buffer_ptr (bf : bool) (p0 w p1 p2 s t : list T) (y : T) (j : Z) :
  fits size (two_windows bf p0 w p1 (s ++ y :: t) p2) ->
  j = buffer_start bf p0 w p1 + Z.of_nat (length s) ->
  ptr (two_windows bf p0 w p1 (s ++ y :: t) p2) (size *% j) = Some y.
Proof.
  intros Hfit ->.
  destruct (two_windows_around_buf bf p0 w p1 p2) as (pre & post & <- & E).
  rewrite E in *.
  replace (pre ++ (s ++ y :: t) ++ post) with ((pre ++ s) ++ y :: t ++ post)
    in * by (app_norm; reflexivity).
  apply ptr_app; auto. lengths. lia.
Qed.

(* two items of the first window change places *)
Lemma window_Swap (bf : bool) (p0 p1 buf p2 u m v : list T) (x y : T)
    (i j : Z) :
  fits size (two_windows bf p0 (u ++ x :: m ++ y :: v) p1 buf p2) ->
  i = window_start bf p0 buf p1 + Z.of_nat (length u) ->
  j = window_start bf p0 buf p1 + Z.of_nat (length u + 1 + length m) ->
  Swap (two_windows bf p0 (u ++ x :: m ++ y :: v) p1 buf p2)
    (size *% i) (size *% j) size
  = Some (two_windows bf p0 (u ++ y :: m ++ x :: v) p1 buf p2).
Proof.
  intros Hfit -> ->.
  destruct (two_windows_around_w bf p0 p1 buf p2) as (pre & post & <- & E).
  rewrite !E in *.
  replace (pre ++ (u ++ x :: m ++ y :: v) ++ post)
    with ((pre ++ u) ++ x :: m ++ y :: (v ++ post))
    in * by (app_norm; reflexivity).
  replace (pre ++ (u ++ y :: m ++ x :: v) ++ post)
    with ((pre ++ u) ++ y :: m ++ x :: (v ++ post))
    by (app_norm; reflexivity).
  eapply proj1; apply Swap_app; auto; lengths; lia.
Qed.

(* an item of the first window and one of the buffer change places *)
Lemma across_Swap (bf : bool) (p0 p1 p2 u v s t : list T) (x y : T)
    (i j : Z) :
  fits size (two_windows bf p0 (u ++ x :: v) p1 (s ++ y :: t) p2) ->
  i = window_start bf p0 (s ++ y :: t) p1 + Z.of_nat (length u) ->
  j = buffer_start bf p0 (u ++ x :: v) p1 + Z.of_nat (length s) ->
  Swap (two_windows bf p0 (u ++ x :: v) p1 (s ++ y :: t) p2)
    (size *% i) (size *% j) size
  = Some (two_windows bf p0 (u ++ y :: v) p1 (s ++ x :: t) p2).
Proof.
  intros Hfit -> ->.
  destruct bf; unfold two_windows, window_start, buffer_start in *.
  - replace (p0 ++ (s ++ y :: t) ++ p1 ++ (u ++ x :: v) ++ p2)
      with ((p0 ++ s) ++ y :: (t ++ p1 ++ u) ++ x :: (v ++ p2))
      in * by (app_norm; reflexivity).
    replace (p0 ++ (s ++ x :: t) ++ p1 ++ (u ++ y :: v) ++ p2)
      with ((p0 ++ s) ++ x :: (t ++ p1 ++ u) ++ y :: (v ++ p2))
      by (app_norm; reflexivity).
    eapply proj2; apply Swap_app; auto; lengths; lia.
  - replace (p0 ++ (u ++ x :: v) ++ p1 ++ (s ++ y :: t) ++ p2)
      with ((p0 ++ u) ++ x :: (v ++ p1 ++ s) ++ y :: (t ++ p2))
      in * by (app_norm; reflexivity).
    replace (p0 ++ (u ++ y :: v) ++ p1 ++ (s ++ x :: t) ++ p2)
      with ((p0 ++ u) ++ y :: (v ++ p1 ++ s) ++ x :: (t ++ p2))
      by (app_norm; reflexivity).
    eapply proj1; apply Swap_app; auto; lengths; lia.
Qed.

(* a block of the buffer and one of the first window change places *)
Lemma across_BlockSwap (bf : bool) (p0 p1 p2 u l1 v s l2 t : list T)
    (i j n : Z) (fuel : nat) :
  fits size (two_windows bf p0 (u ++ l1 ++ v) p1 (s ++ l2 ++ t) p2) ->
  length l1 = length l2 ->
  i = window_start bf p0 (s ++ l2 ++ t) p1 + Z.of_nat (length u) ->
  j = buffer_start bf p0 (u ++ l1 ++ v) p1 + Z.of_nat (length s) ->
  n = Z.of_nat (length l1) ->
  (length l1 <= fuel)%nat ->
  BlockSwap fuel (two_windows bf p0 (u ++ l1 ++ v) p1 (s ++ l2 ++ t) p2)
    size j i n
  = Done (two_windows bf p0 (u ++ l2 ++ v) p1 (s ++ l1 ++ t) p2).
Proof.
  intros Hfit Hlen -> -> -> Hf.
  destruct bf; unfold two_windows, window_start, buffer_start in *.
  - replace (p0 ++ (s ++ l2 ++ t) ++ p1 ++ (u ++ l1 ++ v) ++ p2)
      with ((p0 ++ s) ++ l2 ++ (t ++ p1 ++ u) ++ l1 ++ (v ++ p2))
      in * by (app_norm; reflexivity).
    replace (p0 ++ (s ++ l1 ++ t) ++ p1 ++ (u ++ l2 ++ v) ++ p2)
      with ((p0 ++ s) ++ l1 ++ (t ++ p1 ++ u) ++ l2 ++ (v ++ p2))
      by (app_norm; reflexivity).
    eapply proj1; apply BlockSwap_spec; auto; lengths; lia.
  - replace (p0 ++ (u ++ l1 ++ v) ++ p1 ++ (s ++ l2 ++ t) ++ p2)
      with ((p0 ++ u) ++ l1 ++ (v ++ p1 ++ s) ++ l2 ++ (t ++ p2))
      in * by (app_norm; reflexivity).
    replace (p0 ++ (u ++ l2 ++ v) ++ p1 ++ (s ++ l1 ++ t) ++ p2)
      with ((p0 ++ u) ++ l2 ++ (v ++ p1 ++ s) ++ l1 ++ (t ++ p2))
      by (app_norm; reflexivity).
    eapply proj2; apply BlockSwap_spec; auto; lengths; lia.
Qed.
End Windows.

(** * MergeInternal *)

Lemma window_start_length {T : Type} (bf : bool) (p0 buf buf' p1 : list T) :
  length buf' = length buf ->
  window_start bf p0 buf' p1 = window_start bf p0 buf p1.
Proof. intros H. unfold window_start. now rewrite H. Qed.

Lemma buffer_start_length {T : Type} (bf : bool) (p0 w w' p1 : list T) :
  length w' = length w ->
  buffer_start bf p0 w' p1 = buffer_start bf p0 w p1.
Proof. intros H. unfold buffer_start. now rewrite H. Qed.

Lemma window_start_bounds {T : Type} (bf : bool) (p0 w p1 buf p2 : list T) :
  0 <= window_start bf p0 buf p1 /\
  window_start bf p0 buf p1 + Z.of_nat (length w)
    <= Z.of_nat (length (two_windows bf p0 w p1 buf p2)).
Proof.
  rewrite two_windows_length. destruct bf; unfold window_start; lia.
Qed.

Lemma buffer_start_bounds {T : Type} (bf : bool) (p0 w p1 buf p2 : list T) :
  0 <= buffer_start bf p0 w p1 /\
  buffer_start bf p0 w p1 + Z.of_nat (length buf)
    <= Z.of_nat (length (two_windows bf p0 w p1 buf p2)).
Proof.
  rewrite two_windows_length. destruct bf; unfold buffer_start; lia.
Qed.

(* the offsets of the two windows do not depend on what the windows hold *)
Ltac starts Hws Hbs :=
  first [ assumption
        | rewrite <- Hws; lengths; lia
        | rewrite <- Hbs; lengths; lia
        | rewrite Hws; f_equal; apply window_start_length; lengths; lia
        | rewrite Hbs; f_equal; apply buffer_start_length; lengths; lia ].

Section MergeInternal.
Context {T : Type} (size : Z) (compare : Comparison T).
Context (bf : bool) (p0 p1 p2 bufR : list T) (A B buffer : Range).
Context (ws bs : Z) (nA nB : nat).
#[local] Hint Extern 0 (Store (list _) _) =>
  exact (list_store size) : typeclass_instances.

(* [out] is merged, [junk] what the buffer held, [jdone] the part of it
   that is back in the buffer, [arest] and [brest] what is left of the
   two runs *)
Lemma MergeInternal_while_spec (fuel : nat) :
  forall (out junk brest jdone arest : list T),
    fits size (two_windows bf p0 (out ++ junk ++ brest) p1
                 (jdone ++ arest ++ bufR) p2) ->
    ws = window_start bf p0 (jdone ++ arest ++ bufR) p1 ->
    bs = buffer_start bf p0 (out ++ junk ++ brest) p1 ->
    start A = ws -> Range_length A = Z.of_nat nA ->
    start B = ws + Z.of_nat nA -> Range_length B = Z.of_nat nB ->
    start buffer = bs ->
    (length jdone + length arest = nA)%nat ->
    (length out + length junk + length brest = nA + nB)%nat ->
    length junk = length arest ->
    (length jdone <= length out)%nat ->
    arest <> [] -> brest <> [] ->
    (length arest + length brest <= fuel)%nat ->
    exists out' junk' brest' jdone' arest',
      MergeInternal_while fuel
        (two_windows bf p0 (out ++ junk ++ brest) p1
           (jdone ++ arest ++ bufR) p2)
        size A B compare buffer
        (Z.of_nat (length jdone))
        (Z.of_nat (length out) - Z.of_nat (length jdone))
        (Z.of_nat (length out))
      = Done (two_windows bf p0 (out' ++ junk' ++ brest') p1
                (jdone' ++ arest' ++ bufR) p2,
              Z.of_nat (length jdone'), Z.of_nat (length out')) /\
      (length jdone' + length arest' = nA)%nat /\
      (length out' + length junk' + length brest' = nA + nB)%nat /\
      length junk' = length arest' /\
      (arest' = [] \/ brest' = []) /\
      out' ++ merge compare arest' brest' = out ++ merge compare arest brest /\
      Permutation (jdone' ++ junk') (jdone ++ junk).
Proof.
  induction fuel as [|fuel IH];
    intros out junk brest jdone arest Hfit Hws Hbs HsA HlA HsB HlB Hsb
           HnA HnAB Hj Hjo Ha Hb Hf.
  { destruct arest; [congruence | cbn in Hf; lia]. }
  destruct arest as [|x ar]; [congruence |].
  destruct brest as [|y br]; [congruence |].
  destruct junk as [|g jt]; [discriminate |].
  assert (Hbound : Z.of_nat (length (two_windows bf p0
             (out ++ (g :: jt) ++ y :: br) p1
             (jdone ++ (x :: ar) ++ bufR) p2)) < SIZE_MAX1).
  { destruct Hfit as [Hs0 Hfit]. nia. }
  pose proof (window_start_bounds bf p0 (out ++ (g :: jt) ++ y :: br) p1
                (jdone ++ (x :: ar) ++ bufR) p2) as Hwb.
  pose proof (buffer_start_bounds bf p0 (out ++ (g :: jt) ++ y :: br) p1
                (jdone ++ (x :: ar) ++ bufR) p2) as Hbb.
  rewrite <- Hws in Hwb. rewrite <- Hbs in Hbb.
  rewrite two_windows_length in Hbound, Hwb, Hbb.
  lengths.
  cbn [MergeInternal_while].
  rewrite HsA, HsB, Hsb, HlA, HlB.
  (* the two items compared *)
  replace (ws + Z.of_nat nA
           +% (Z.of_nat (length out) - Z.of_nat (length jdone)))
    with (ws + Z.of_nat (length (out ++ g :: jt)))
    by (lengths; unwrap; lia).
  replace (bs +% Z.of_nat (length jdone))
    with (bs + Z.of_nat (length jdone)) by (unwrap; lia).
  replace (ws +% Z.of_nat (length out))
    with (ws + Z.of_nat (length out)) by (unwrap; lia).
  replace (out ++ (g :: jt) ++ y :: br) with ((out ++ g :: jt) ++ y :: br)
    in * by (app_norm; reflexivity).
  rewrite (window_ptr size bf p0 p1 _ p2 (out ++ g :: jt) br y)
    by starts Hws Hbs.
  replace (jdone ++ (x :: ar) ++ bufR) with (jdone ++ x :: (ar ++ bufR))
    in * by reflexivity.
  rewrite (buffer_ptr size bf p0 _ p1 p2 jdone (ar ++ bufR) x)
    by starts Hws Hbs.
  cbn [call bind].
  rewrite (merge_cons compare x y ar br).
  destruct (compare y x >=? 0) eqn:Hc.
  - (* the item of A goes out *)
    replace ((out ++ g :: jt) ++ y :: br) with (out ++ g :: (jt ++ y :: br))
      in * by (app_norm; reflexivity).
    rewrite (across_Swap size bf p0 p1 p2 out (jt ++ y :: br) jdone
               (ar ++ bufR) g x) by starts Hws Hbs.
    cbn [lift bind].
    replace (Z.of_nat (length jdone) +% 1)
      with (Z.of_nat (length (jdone ++ [g]))) by (lengths; unwrap; lia).
    replace (Z.of_nat (length out) +% 1)
      with (Z.of_nat (length (out ++ [x]))) by (lengths; unwrap; lia).
    replace (two_windows bf p0 (out ++ x :: jt ++ y :: br) p1
               (jdone ++ g :: ar ++ bufR) p2)
      with (two_windows bf p0 ((out ++ [x]) ++ jt ++ y :: br) p1
              ((jdone ++ [g]) ++ ar ++ bufR) p2)
      by (app_norm; reflexivity).
    destruct (Z.of_nat (length (jdone ++ [g])) >=? Z.of_nat nA) eqn:Hend.
    + apply Z.geb_le in Hend. rewrite length_app in Hend. cbn [length] in *.
      assert (ar = []) by (destruct ar; [reflexivity | cbn [length] in *; lia]).
      subst ar.
      exists (out ++ [x]), jt, (y :: br), (jdone ++ [g]), [].
      lengths. repeat (split; [first [reflexivity | lia | now left] |]).
      split; [app_norm; reflexivity |].
      app_norm. reflexivity.
    + rewrite Z.geb_leb in Hend. apply Z.leb_gt in Hend.
      rewrite length_app in Hend. cbn [length] in *.
      destruct (IH (out ++ [x]) jt (y :: br) (jdone ++ [g]) ar)
        as (out' & junk' & brest' & jdone' & arest' & Hrun & H1 & H2 & H3
            & H4 & H5 & H6); auto; try (lengths; lia); try congruence.
      * eapply two_windows_fits; [exact Hfit | lengths; lia ..].
      * rewrite Hws. apply window_start_length. lengths. lia.
      * rewrite Hbs. apply buffer_start_length. lengths. lia.
      * destruct ar; [cbn [length] in *; lia | congruence].
      * replace (Z.of_nat (length (out ++ [x]))
                 - Z.of_nat (length (jdone ++ [g])))
          with (Z.of_nat (length out) - Z.of_nat (length jdone)) in Hrun
          by (lengths; lia).
        exists out', junk', brest', jdone', arest'.
        split; [exact Hrun |].
        repeat (split; [assumption |]).
        split; [rewrite H5; app_norm; reflexivity |].
        rewrite H6. app_norm. reflexivity.
  - (* the item of B goes out *)
    replace ((out ++ g :: jt) ++ y :: br) with (out ++ g :: jt ++ y :: br)
      in * by (app_norm; reflexivity).
    rewrite (window_Swap size bf p0 p1 _ p2 out jt br g y);
      [ | starts Hws Hbs .. ].
    cbn [lift bind].
    replace (Z.of_nat (length out) - Z.of_nat (length jdone) +% 1)
      with (Z.of_nat (length (out ++ [y])) - Z.of_nat (length jdone))
      by (lengths; unwrap; lia).
    replace (Z.of_nat (length out) +% 1)
      with (Z.of_nat (length (out ++ [y]))) by (lengths; unwrap; lia).
    replace (two_windows bf p0 (out ++ y :: jt ++ g :: br) p1
               (jdone ++ x :: ar ++ bufR) p2)
      with (two_windows bf p0 ((out ++ [y]) ++ (jt ++ [g]) ++ br) p1
              (jdone ++ (x :: ar) ++ bufR) p2)
      by (app_norm; reflexivity).
    destruct (Z.of_nat (length (out ++ [y])) - Z.of_nat (length jdone)
              >=? Z.of_nat nB) eqn:Hend.
    + apply Z.geb_le in Hend. rewrite length_app in Hend. cbn [length] in *.
      assert (br = []) by (destruct br; [reflexivity | cbn [length] in *; lia]).
      subst br.
      exists (out ++ [y]), (jt ++ [g]), [], jdone, (x :: ar).
      lengths. repeat (split; [first [reflexivity | lia | now right] |]).
      split; [rewrite !merge_nil_r; app_norm; reflexivity |].
      apply Permutation_app_head. symmetry. apply Permutation_cons_append.
    + rewrite Z.geb_leb in Hend. apply Z.leb_gt in Hend.
      rewrite length_app in Hend. cbn [length] in *.
      destruct (IH (out ++ [y]) (jt ++ [g]) br jdone (x :: ar))
        as (out' & junk' & brest' & jdone' & arest' & Hrun & H1 & H2 & H3
            & H4 & H5 & H6); auto; try (lengths; lia); try congruence.
      * eapply two_windows_fits; [exact Hfit | lengths; lia ..].
      * rewrite Hbs. apply buffer_start_length. lengths. lia.
      * destruct br; [cbn [length] in *; lia | congruence].
      * exists out', junk', brest', jdone', arest'.
        split; [exact Hrun |].
        repeat (split; [assumption |]).
        split; [rewrite H5; app_norm; reflexivity |].
        rewrite H6. apply Permutation_app_head.
        symmetry. apply Permutation_cons_append.
Qed.
End MergeInternal.

Section MergeInternalCore.
Context {T : Type} (size : Z) (compare : Comparison T).
#[local] Hint Extern 0 (Store (list _) _) =>
  exact (list_store size) : typeclass_instances.

(* [junk] is what the buffer held before the items of A went there *)
Lemma MergeInternal_spec (bf : bool) (p0 p1 p2 junk a b rest : list T)
    (A B buffer : Range) (fuel : nat) :
  fits size (two_windows bf p0 (junk ++ b) p1 (a ++ rest) p2) ->
  length junk = length a ->
  start A = window_start bf p0 (a ++ rest) p1 ->
  end_ A = start A + Z.of_nat (length a) ->
  start B = end_ A ->
  end_ B = start B + Z.of_nat (length b) ->
  start buffer = buffer_start bf p0 (junk ++ b) p1 ->
  (length a + length b <= fuel)%nat ->
  exists junk',
    MergeInternal fuel (two_windows bf p0 (junk ++ b) p1 (a ++ rest) p2)
      size A B compare buffer
    = Done (two_windows bf p0 (merge compare a b) p1 (junk' ++ rest) p2) /\
    Permutation junk junk'.
Proof.
  intros Hfit Hj HsA HeA HsB HeB Hsb Hf.
  assert (Hbound : Z.of_nat (length (two_windows bf p0 (junk ++ b) p1
                                       (a ++ rest) p2)) < SIZE_MAX1).
  { destruct Hfit as [Hs0 Hfit]. nia. }
  pose proof (window_start_bounds bf p0 (junk ++ b) p1 (a ++ rest) p2) as Hwb.
  pose proof (buffer_start_bounds bf p0 (junk ++ b) p1 (a ++ rest) p2) as Hbb.
  rewrite <- HsA in Hwb. rewrite <- Hsb in Hbb.
  rewrite two_windows_length in Hbound, Hwb, Hbb. lengths.
  assert (HlA : Range_length A = Z.of_nat (length a)).
  { unfold Range_length. rewrite HeA. unwrap. lia. }
  assert (HlB : Range_length B = Z.of_nat (length b)).
  { unfold Range_length. rewrite HeB. unwrap. lia. }
  unfold MergeInternal. rewrite HlA, HlB.
  destruct ((Z.of_nat (length b) >? 0) && (Z.of_nat (length a) >? 0))
    eqn:Hboth.
  - apply andb_prop in Hboth. destruct Hboth as [Hb Ha].
    rewrite Z.gtb_ltb in Hb, Ha. apply Z.ltb_lt in Hb, Ha.
    destruct (MergeInternal_while_spec size compare bf p0 p1 p2 rest
                A B buffer (start A) (start buffer) (length a) (length b)
                fuel [] junk b [] a)
      as (out' & junk' & brest' & jdone' & arest' & Hrun & H1 & H2 & H3
          & H4 & H5 & H6); auto; try (cbn [length app]; lia).
    { intros ->. cbn in Ha. lia. }
    { intros ->. cbn in Hb. lia. }
    cbn [app length] in Hrun, H5, H6. change (Z.of_nat 0 - Z.of_nat 0) with 0 in Hrun.
    change (Z.of_nat 0) with 0 in Hrun.
    rewrite Hrun. cbn [bind].
    exists (jdone' ++ junk').
    split; [| now symmetry].
    assert (Hm : merge compare a b = out' ++ arest' ++ brest').
    { rewrite <- H5. f_equal.
      destruct H4 as [-> | ->];
        [rewrite merge_nil_l | rewrite merge_nil_r, app_nil_r]; reflexivity. }
    rewrite Hm.
    assert (Hl : (length out' + length arest' + length brest'
                  = length a + length b)%nat) by lia.
    replace ((jdone' ++ junk') ++ rest) with (jdone' ++ junk' ++ rest)
      by (app_norm; reflexivity).
    apply across_BlockSwap.
    + eapply two_windows_fits; [exact Hfit | lengths; lia ..].
    + exact H3.
    + unwrap. f_equal. rewrite HsA. apply window_start_length. lengths. lia.
    + unwrap. f_equal. rewrite Hsb. apply buffer_start_length. lengths. lia.
    + unwrap. lia.
    + lia.
  - cbn [bind]. exists junk. split; [| reflexivity].
    assert (Hm : merge compare a b = a ++ b).
    { apply andb_false_iff in Hboth.
      rewrite !Z.gtb_ltb, !Z.ltb_ge in Hboth.
      destruct Hboth as [Hb | Ha].
      - destruct b; [| cbn [length] in Hb; lia].
        now rewrite merge_nil_r, app_nil_r.
      - destruct a; [| cbn [length] in Ha; lia].
        now rewrite merge_nil_l. }
    rewrite Hm.
    apply (across_BlockSwap size bf p0 p1 p2 [] junk b [] a rest).
    + exact Hfit.
    + exact Hj.
    + unwrap. rewrite HsA. cbn [app length]. lia.
    + unwrap. rewrite Hsb. cbn [app length]. lia.
    + unwrap. lia.
    + lia.
Qed.
End MergeInternalCore.

(** C7, as the code has it. On an array of items of [size] bytes and for
    a comparator with total-order semantics: let [A] and [B] be next to
    each other, [B] sorted, and let the buffer range, which lies wholly
    before [A] or wholly after [B], hold in its first [|A|] slots the
    sorted items [a] that belong to [A], [A] itself holding what those
    slots held before ([junk]).  Then [MergeInternal], given fuel for the
    two lengths, puts in [A] and [B] together the stable sorted merge of
    [a] with the items of [B], leaves in the first [|A|] slots of the
    buffer, in some order, exactly the items that were in [A] at the call,
    and leaves the other slots of the buffer ([rest]) and everything
    outside the three ranges as they were. *)
Theorem MergeInternal_merges_from_buffer {T : Type} (size : Z)
    (compare : Comparison T) (buffer_first : bool)
    (p0 p1 p2 junk a b rest : list T) (A B buffer : Range) (fuel : nat) :
  fits size (two_windows buffer_first p0 (junk ++ b) p1 (a ++ rest) p2) ->
  total_order compare ->
  sorted_list compare a -> sorted_list compare b ->
  length junk = length a ->
  start A = window_start buffer_first p0 (a ++ rest) p1 ->
  end_ A = start A + Z.of_nat (length a) ->
  start B = end_ A ->
  end_ B = start B + Z.of_nat (length b) ->
  start buffer = buffer_start buffer_first p0 (junk ++ b) p1 ->
  end_ buffer = start buffer + Z.of_nat (length (a ++ rest)) ->
  (length a + length b <= fuel)%nat ->
  exists merged junk',
    MergeInternal (ST := list_store size) fuel
      (two_windows buffer_first p0 (junk ++ b) p1 (a ++ rest) p2)
      size A B compare buffer
    = Done (two_windows buffer_first p0 merged p1 (junk' ++ rest) p2) /\
    merged = merge compare a b /\
    sorted_list compare merged /\
    Permutation (a ++ b) merged /\
    (forall v, filter (equal_to compare v) merged
               = filter (equal_to compare v) a
                 ++ filter (equal_to compare v) b) /\
    Permutation junk junk'.
Proof.
  intros Hfit Horder Hsa Hsb Hj HsA HeA HsB HeB Hbs Hbe Hf.
  destruct (MergeInternal_spec size compare buffer_first p0 p1 p2 junk a b
              rest A B buffer fuel) as (junk' & Hrun & Hperm); auto.
  exists (merge compare a b), junk'.
  split; [exact Hrun |]. split; [reflexivity |].
  split; [now apply merge_sorted |].
  split; [apply merge_perm |].
  split; [| exact Hperm].
  intros v. now apply merge_stable.
Qed.

Example runs_for_buffer_merge :
  sorted_list Z.sub [2; 6] /\ sorted_list Z.sub [1; 2; 8].
Proof.
  split; unfold sorted_list;
    repeat (constructor; [| repeat constructor; lia]); constructor.
Qed.

Lemma MergeInternal_merges_from_buffer_witness :
  exists merged junk',
    MergeInternal (ST := list_store 8) 5
      (two_windows true [0] ([40; 50] ++ [1; 2; 8]) [7] ([2; 6] ++ [60]) [9])
      8 (Range_new 5 7) (Range_new 7 10) Z.sub (Range_new 1 4)
    = Done (two_windows true [0] merged [7] (junk' ++ [60]) [9]) /\
    merged = merge Z.sub [2; 6] [1; 2; 8] /\
    sorted_list Z.sub merged /\
    Permutation ([2; 6] ++ [1; 2; 8]) merged /\
    (forall v, filter (equal_to Z.sub v) merged
               = filter (equal_to Z.sub v) [2; 6]
                 ++ filter (equal_to Z.sub v) [1; 2; 8]) /\
    Permutation [40; 50] junk'.
Proof.
  apply (MergeInternal_merges_from_buffer 8 Z.sub true [0] [7] [9]
           [40; 50] [2; 6] [1; 2; 8] [60]
           (Range_new 5 7) (Range_new 7 10) (Range_new 1 4) 5).
  - split; [lia | vm_compute; reflexivity].
  - exact Z_sub_total_order.
  - exact (proj1 runs_for_buffer_merge).
  - exact (proj2 runs_for_buffer_merge).
  - reflexivity.
  - reflexivity.
  - reflexivity.
  - reflexivity.
  - reflexivity.
  - reflexivity.
  - reflexivity.
  - cbn. lia.
Defined.

(** C7, as the spec words it, fails when the buffer is longer than [A]:
    with one item in [A], one in [B] and a buffer of two slots the buffer
    ends up with the item that was in [A] and with its own second item,
    which is not what was in [A] at the call. *)
Lemma MergeInternal_longer_buffer :
  let array := [9; 5; 3; 7] in
  let A := Range_new 0 1 in
  let B := Range_new 1 2 in
  let buffer := Range_new 2 4 in
  sorted_list Z.sub (slice array (start B) (end_ B)) /\
  sorted_list Z.sub
    (slice array (start buffer) (start buffer + Range_length A)) /\
  Range_length buffer >= Range_length A /\
  exists result,
    MergeInternal (ST := list_store 8) 2 array 8 A B Z.sub buffer
      = Done result /\
    slice result (start A) (end_ B) = merge Z.sub [3] [5] /\
    ~ Permutation (slice result (start buffer) (end_ buffer))
                  (slice array (start A) (end_ A)).
Proof.
  cbv zeta. split; [repeat constructor |]. split; [repeat constructor |].
  split; [vm_compute; discriminate |].
  exists [3; 5; 9; 7].
  split; [vm_compute; reflexivity |]. split; [reflexivity |].
  intros H. apply Permutation_length in H. discriminate H.
Qed.

(** * Replacing a window of an array *)

Section Splice.
Context {T : Type}.
Implicit Types array w : list T.

(* an array cut around a window *)
Lemma window_parts array (lo : Z) (n : nat) :
  0 <= lo -> lo + Z.of_nat n <= Z.of_nat (length array) ->
  exists pre old post,
    array = pre ++ old ++ post /\
    Z.of_nat (length pre) = lo /\ length old = n /\
    old = slice array lo (lo + Z.of_nat n).
Proof.
  intros Hlo Hhi.
  exists (firstn (Z.to_nat lo) array),
         (slice array lo (lo + Z.of_nat n)),
         (skipn (Z.to_nat lo + n) array).
  split; [| split; [| split; [| reflexivity]]].
  - unfold slice.
    replace (Z.to_nat (lo + Z.of_nat n - lo)) with n by lia.
    rewrite <- (firstn_skipn (Z.to_nat lo) array) at 1. f_equal.
    rewrite <- (firstn_skipn n (skipn (Z.to_nat lo) array)) at 1. f_equal.
    rewrite skipn_skipn. f_equal. lia.
  - rewrite length_firstn. lia.
  - rewrite slice_length by lia. lia.
Qed.

Lemma splice_parts (pre old post : list T) (lo : Z) w :
  lo = Z.of_nat (length pre) -> length w = length old ->
  splice (pre ++ old ++ post) lo w = pre ++ w ++ post.
Proof.
  intros -> Hw. unfold splice. rewrite Nat2Z.id, firstn_exact.
  f_equal. f_equal. rewrite Hw.
  replace (pre ++ old ++ post) with ((pre ++ old) ++ post)
    by (app_norm; reflexivity).
  rewrite <- length_app. apply skipn_exact.
Qed.

Lemma splice_length array (lo : Z) w :
  0 <= lo -> lo + Z.of_nat (length w) <= Z.of_nat (length array) ->
  length (splice array lo w) = length array.
Proof.
  intros Hlo Hhi. unfold splice.
  rewrite !length_app, length_firstn, length_skipn. lia.
Qed.

Lemma splice_fits (size : Z) array (lo : Z) w :
  fits size array ->
  0 <= lo -> lo + Z.of_nat (length w) <= Z.of_nat (length array) ->
  fits size (splice array lo w).
Proof.
  intros Hfit Hlo Hhi. eapply fits_length; [exact Hfit |].
  now apply splice_length.
Qed.

(* replacing a window by what it holds changes nothing *)
Lemma splice_slice array (lo hi : Z) :
  0 <= lo <= hi -> hi <= Z.of_nat (length array) ->
  splice array lo (slice array lo hi) = array.
Proof.
  intros H1 H2.
  destruct (window_parts array lo (Z.to_nat (hi - lo)))
    as (pre & old & post & E & Hpre & Hold & Hsl); [lia | lia |].
  replace (lo + Z.of_nat (Z.to_nat (hi - lo))) with hi in Hsl by lia.
  rewrite <- Hsl. rewrite E at 1.
  rewrite splice_parts by (auto; lia). symmetry. exact E.
Qed.

Lemma slice_splice array (lo hi : Z) w :
  0 <= lo -> hi = lo + Z.of_nat (length w) ->
  hi <= Z.of_nat (length array) ->
  slice (splice array lo w) lo hi = w.
Proof.
  intros Hlo -> Hhi. unfold splice. apply slice_parts.
  - rewrite length_firstn. lia.
  - rewrite length_firstn. lia.
Qed.

(* a later splice between the same places replaces the earlier one *)
Lemma splice_splice array (lo : Z) w w' :
  0 <= lo -> lo + Z.of_nat (length w) <= Z.of_nat (length array) ->
  length w' = length w ->
  splice (splice array lo w) lo w' = splice array lo w'.
Proof.
  intros Hlo Hhi Hw.
  destruct (window_parts array lo (length w))
    as (pre & old & post & E & Hpre & Hold & _); [lia | lia |].
  rewrite E. rewrite !splice_parts by (auto; lia). reflexivity.
Qed.

(* an array cut around two windows, the first one before the second *)
Lemma two_window_parts array (lo1 lo2 : Z) (n1 n2 : nat) :
  0 <= lo1 -> lo1 + Z.of_nat n1 <= lo2 ->
  lo2 + Z.of_nat n2 <= Z.of_nat (length array) ->
  exists p0 o1 p1 o2 p2,
    array = p0 ++ o1 ++ p1 ++ o2 ++ p2 /\
    Z.of_nat (length p0) = lo1 /\ length o1 = n1 /\
    Z.of_nat (length p0 + length o1 + length p1) = lo2 /\ length o2 = n2 /\
    o1 = slice array lo1 (lo1 + Z.of_nat n1) /\
    o2 = slice array lo2 (lo2 + Z.of_nat n2).
Proof.
  intros H1 H2 H3.
  destruct (window_parts array lo1 n1)
    as (p0 & o1 & rest & E & Hp0 & Ho1 & Hs1); [lia | lia |].
  assert (Hlen : length array = (length p0 + length o1 + length rest)%nat)
    by (rewrite E, !length_app; lia).
  destruct (window_parts rest (lo2 - lo1 - Z.of_nat n1) n2)
    as (p1 & o2 & p2 & E2 & Hp1 & Ho2 & Hs2); [lia | lia |].
  exists p0, o1, p1, o2, p2.
  split; [rewrite E, E2; reflexivity |].
  split; [exact Hp0 |]. split; [exact Ho1 |].
  split; [lia |]. split; [exact Ho2 |]. split; [exact Hs1 |].
  rewrite E, E2.
  replace (p0 ++ o1 ++ p1 ++ o2 ++ p2) with ((p0 ++ o1 ++ p1) ++ o2 ++ p2)
    by (app_norm; reflexivity).
  symmetry. apply slice_parts; lengths; lia.
Qed.

(* splices of windows that do not meet do not depend on their order *)
Lemma splice_comm array (lo1 lo2 : Z) w1 w2 :
  0 <= lo1 -> lo1 + Z.of_nat (length w1) <= lo2 ->
  lo2 + Z.of_nat (length w2) <= Z.of_nat (length array) ->
  splice (splice array lo1 w1) lo2 w2 = splice (splice array lo2 w2) lo1 w1.
Proof.
  intros H1 H2 H3.
  destruct (two_window_parts array lo1 lo2 (length w1) (length w2))
    as (p0 & o1 & p1 & o2 & p2 & E & Hp0 & Ho1 & Hp1 & Ho2 & _); auto.
  rewrite E.
  rewrite (splice_parts p0 o1 (p1 ++ o2 ++ p2)) by (auto; lia).
  replace (p0 ++ o1 ++ p1 ++ o2 ++ p2) with ((p0 ++ o1 ++ p1) ++ o2 ++ p2)
    by (app_norm; reflexivity).
  rewrite (splice_parts (p0 ++ o1 ++ p1) o2 p2) by (auto; lengths; lia).
  replace (p0 ++ w1 ++ p1 ++ o2 ++ p2) with ((p0 ++ w1 ++ p1) ++ o2 ++ p2)
    by (app_norm; reflexivity).
  rewrite (splice_parts (p0 ++ w1 ++ p1) o2 p2) by (auto; lengths; lia).
  replace ((p0 ++ o1 ++ p1) ++ w2 ++ p2) with (p0 ++ o1 ++ (p1 ++ w2 ++ p2))
    by (app_norm; reflexivity).
  rewrite (splice_parts p0 o1 (p1 ++ w2 ++ p2)) by (auto; lia).
  app_norm. reflexivity.
Qed.

(* what a splice leaves alone *)
Lemma slice_splice_before array (lo hi lo' : Z) w :
  0 <= lo <= hi -> hi <= lo' ->
  lo' + Z.of_nat (length w) <= Z.of_nat (length array) ->
  slice (splice array lo' w) lo hi = slice array lo hi.
Proof.
  intros H1 H2 H3.
  destruct (two_window_parts array lo lo' (Z.to_nat (hi - lo)) (length w))
    as (p0 & o1 & p1 & o2 & p2 & E & Hp0 & Ho1 & Hp1 & Ho2 & Hs1 & _);
    try lia.
  replace (lo + Z.of_nat (Z.to_nat (hi - lo))) with hi in Hs1 by lia.
  rewrite <- Hs1. rewrite E.
  replace (p0 ++ o1 ++ p1 ++ o2 ++ p2) with ((p0 ++ o1 ++ p1) ++ o2 ++ p2)
    by (app_norm; reflexivity).
  rewrite splice_parts by (auto; lengths; lia).
  replace ((p0 ++ o1 ++ p1) ++ w ++ p2) with (p0 ++ o1 ++ (p1 ++ w ++ p2))
    by (app_norm; reflexivity).
  apply slice_parts; lia.
Qed.

Lemma slice_splice_after array (lo hi lo' : Z) w :
  0 <= lo' -> lo' + Z.of_nat (length w) <= lo -> lo <= hi ->
  hi <= Z.of_nat (length array) ->
  slice (splice array lo' w) lo hi = slice array lo hi.
Proof.
  intros H1 H2 H3 H4.
  destruct (two_window_parts array lo' lo (length w) (Z.to_nat (hi - lo)))
    as (p0 & o1 & p1 & o2 & p2 & E & Hp0 & Ho1 & Hp1 & Ho2 & _ & Hs2);
    try lia.
  replace (lo + Z.of_nat (Z.to_nat (hi - lo))) with hi in Hs2 by lia.
  rewrite <- Hs2. rewrite E.
  rewrite splice_parts by (auto; lia).
  replace (p0 ++ w ++ p1 ++ o2 ++ p2) with ((p0 ++ w ++ p1) ++ o2 ++ p2)
    by (app_norm; reflexivity).
  apply slice_parts; lengths; lia.
Qed.

(* a splice inside a window is a splice of the window *)
Lemma splice_inner array (lo k : Z) w v :
  0 <= lo -> lo + Z.of_nat (length w) <= Z.of_nat (length array) ->
  0 <= k -> k + Z.of_nat (length v) <= Z.of_nat (length w) ->
  splice (splice array lo w) (lo + k) v = splice array lo (splice w k v).
Proof.
  intros H1 H2 H3 H4.
  destruct (window_parts array lo (length w))
    as (pre & old & post & E & Hpre & Hold & _); [lia | lia |].
  destruct (window_parts w k (length v))
    as (w0 & w1 & w2 & Ew & Hw0 & Hw1 & _); [lia | lia |].
  rewrite E. rewrite splice_parts by (auto; lia).
  rewrite (splice_parts pre old post lo (splice w k v));
    [| lia | rewrite splice_length by lia; lia].
  rewrite Ew. rewrite (splice_parts w0 w1 w2 k v) by (auto; lia).
  replace (pre ++ (w0 ++ w1 ++ w2) ++ post)
    with ((pre ++ w0) ++ w1 ++ (w2 ++ post)) by (app_norm; reflexivity).
  rewrite splice_parts by (auto; lengths; lia).
  app_norm. reflexivity.
Qed.

(* two windows that do not meet, as the two windows of P38 *)
Lemma splice_two_windows array (lo_w lo_b : Z) (nw nb : nat) :
  0 <= lo_w -> 0 <= lo_b ->
  lo_w + Z.of_nat nw <= Z.of_nat (length array) ->
  lo_b + Z.of_nat nb <= Z.of_nat (length array) ->
  lo_w + Z.of_nat nw <= lo_b \/ lo_b + Z.of_nat nb <= lo_w ->
  exists bf p0 p1 p2,
    forall w b, length w = nw -> length b = nb ->
      splice (splice array lo_w w) lo_b b = two_windows bf p0 w p1 b p2 /\
      window_start bf p0 b p1 = lo_w /\
      buffer_start bf p0 w p1 = lo_b.
Proof.
  intros H1 H2 H3 H4 [H | H].
  - destruct (two_window_parts array lo_w lo_b nw nb)
      as (p0 & o1 & p1 & o2 & p2 & E & Hp0 & Ho1 & Hp1 & Ho2 & _); auto.
    exists false, p0, p1, p2. intros w b Hw Hb.
    unfold two_windows, window_start, buffer_start.
    split; [| split; lia].
    rewrite E. rewrite splice_parts by (auto; lia).
    replace (p0 ++ w ++ p1 ++ o2 ++ p2) with ((p0 ++ w ++ p1) ++ o2 ++ p2)
      by (app_norm; reflexivity).
    rewrite splice_parts by (auto; lengths; lia).
    app_norm. reflexivity.
  - destruct (two_window_parts array lo_b lo_w nb nw)
      as (p0 & o1 & p1 & o2 & p2 & E & Hp0 & Ho1 & Hp1 & Ho2 & _); auto.
    exists true, p0, p1, p2. intros w b Hw Hb.
    unfold two_windows, window_start, buffer_start.
    split; [| split; lia].
    rewrite <- (splice_comm array lo_b lo_w b w) by lia.
    rewrite E. rewrite splice_parts by (auto; lia).
    replace (p0 ++ b ++ p1 ++ o2 ++ p2) with ((p0 ++ b ++ p1) ++ o2 ++ p2)
      by (app_norm; reflexivity).
    rewrite splice_parts by (auto; lengths; lia).
    app_norm. reflexivity.
Qed.
End Splice.

(** * Stable sorting is unique *)

Section Order.
Context {T : Type} (compare : Comparison T).
Hypothesis Horder : total_order compare.

Lemma compare_refl (x : T) : compare x x = 0.
Proof. flips Horder x x. lia. Qed.

Lemma compare_eq_sym (x y : T) : compare x y = 0 -> compare y x = 0.
Proof. intros H. flips Horder x y. lia. Qed.

Lemma compare_le_ge (x y : T) : compare x y <= 0 <-> compare y x >= 0.
Proof. flips Horder x y. lia. Qed.

Lemma compare_le_lt (a b c : T) :
  compare a b <= 0 -> compare b c < 0 -> compare a c < 0.
Proof.
  intros Hab Hbc.
  destruct (Z_lt_le_dec (compare a c) 0) as [|Hge]; [assumption | exfalso].
  assert (Hca : compare c a <= 0) by (flips Horder a c; lia).
  pose proof (le_transitive _ Horder c a b Hca Hab).
  flips Horder b c. lia.
Qed.

Lemma compare_lt_trans (a b c : T) :
  compare a b < 0 -> compare b c < 0 -> compare a c < 0.
Proof. intros Hab Hbc. apply (compare_le_lt a b c); [lia | assumption]. Qed.

Lemma compare_eq_trans (a b c : T) :
  compare a b = 0 -> compare b c = 0 -> compare a c = 0.
Proof.
  intros Hab Hbc.
  pose proof (le_transitive _ Horder a b c ltac:(lia) ltac:(lia)).
  pose proof (compare_eq_sym _ _ Hab). pose proof (compare_eq_sym _ _ Hbc).
  pose proof (le_transitive _ Horder c b a ltac:(lia) ltac:(lia)).
  flips Horder a c. lia.
Qed.

Lemma equal_to_refl (x : T) : equal_to compare x x = true.
Proof. unfold equal_to. rewrite compare_refl. reflexivity. Qed.

Lemma equal_to_eq (v x y : T) :
  compare x y = 0 -> equal_to compare v x = equal_to compare v y.
Proof.
  intros Hxy. unfold equal_to.
  destruct (Z.eqb_spec (compare v x) 0) as [E | E];
    destruct (Z.eqb_spec (compare v y) 0) as [E' | E']; auto; exfalso.
  - apply E'. eapply compare_eq_trans; eauto.
  - apply E. eapply compare_eq_trans; eauto. now apply compare_eq_sym.
Qed.

Lemma sorted_head_le (x y : T) (l : list T) :
  sorted_list compare (x :: l) -> In y (x :: l) -> compare x y <= 0.
Proof.
  intros Hs [<- | Hin].
  - rewrite compare_refl. lia.
  - inversion Hs as [|? ? _ Hall]; subst.
    rewrite Forall_forall in Hall. now apply Hall.
Qed.

(** Two sorted lists that hold, for every item, the same items equal to it
    in the same order, are the same list. *)
Lemma stable_unique (l1 : list T) :
  forall l2,
    sorted_list compare l1 -> sorted_list compare l2 ->
    (forall v, filter (equal_to compare v) l1
               = filter (equal_to compare v) l2) ->
    l1 = l2.
Proof.
  induction l1 as [|x l1 IH]; intros l2 Hs1 Hs2 Hf.
  - destruct l2 as [|y l2]; [reflexivity | exfalso].
    specialize (Hf y). cbn [filter] in Hf.
    rewrite equal_to_refl in Hf. discriminate.
  - destruct l2 as [|y l2]; [exfalso |].
    { specialize (Hf x). cbn [filter] in Hf.
      rewrite equal_to_refl in Hf. discriminate. }
    assert (Hxy : compare x y <= 0).
    { assert (Hin : In y (filter (equal_to compare y) (x :: l1))).
      { rewrite Hf. cbn [filter]. rewrite equal_to_refl. now left. }
      apply filter_In in Hin. now apply (sorted_head_le x y l1). }
    assert (Hyx : compare y x <= 0).
    { assert (Hin : In x (filter (equal_to compare x) (y :: l2))).
      { rewrite <- Hf. cbn [filter]. rewrite equal_to_refl. now left. }
      apply filter_In in Hin. now apply (sorted_head_le y x l2). }
    assert (Heq : compare x y = 0) by (flips Horder x y; lia).
    assert (Hxx : x = y).
    { specialize (Hf x). cbn [filter] in Hf.
      rewrite equal_to_refl in Hf.
      unfold equal_to in Hf at 2. rewrite Heq in Hf. cbn in Hf.
      now injection Hf. }
    subst y. f_equal.
    inversion Hs1; inversion Hs2; subst.
    apply IH; auto.
    intros v. specialize (Hf v). cbn [filter] in Hf.
    destruct (equal_to compare v x); [now injection Hf | exact Hf].
Qed.

(** The merge of two lists cut so that the first part of [b] goes before
    the second part of [a], and the first part of [a] before the second
    part of [b], is made of the merges of the parts. *)
Lemma merge_app (a1 a2 b1 b2 : list T) :
  Forall (fun y => Forall (fun x => compare y x < 0) a2) b1 ->
  Forall (fun x => Forall (fun y => compare y x >= 0) b2) a1 ->
  merge compare (a1 ++ a2) (b1 ++ b2)
  = merge compare a1 b1 ++ merge compare a2 b2.
Proof.
  intros Hb Ha. revert b1 Hb.
  induction a1 as [|x a1 IHa]; intros b1 Hb.
  - cbn [app]. rewrite merge_nil_l.
    destruct a2 as [|x a2]; [now rewrite !merge_nil_l |].
    apply merge_below.
    eapply Forall_impl; [| exact Hb].
    intros y Hy. now inversion Hy.
  - inversion Ha as [|? ? Hx Ha']; subst.
    induction b1 as [|y b1 IHb].
    + cbn [app]. rewrite merge_nil_r.
      now apply (merge_not_above compare (x :: a1) a2 b2).
    + inversion Hb as [|? ? Hy Hb']; subst.
      cbn [app]. rewrite !merge_cons.
      destruct (compare y x >=? 0).
      * cbn [app]. f_equal. apply (IHa Ha' (y :: b1) Hb).
      * cbn [app]. f_equal. apply IHb. exact Hb'.
Qed.

Lemma sorted_list_single (x : T) : sorted_list compare [x].
Proof. repeat constructor. Qed.

Lemma merge_assoc (a b c : list T) :
  sorted_list compare a -> sorted_list compare b -> sorted_list compare c ->
  merge compare (merge compare a b) c = merge compare a (merge compare b c).
Proof.
  intros Ha Hb Hc. apply stable_unique.
  - apply merge_sorted; auto. now apply merge_sorted.
  - apply merge_sorted; auto. now apply merge_sorted.
  - intros v.
    rewrite !merge_stable; auto; try now apply merge_sorted.
    now rewrite app_assoc.
Qed.

Lemma stable_sort_sorted (l : list T) :
  sorted_list compare (stable_sort compare l).
Proof.
  induction l as [|x l IH]; [constructor |].
  cbn [stable_sort fold_right]. apply merge_sorted; auto.
  apply sorted_list_single.
Qed.

Lemma stable_sort_stable (v : T) (l : list T) :
  filter (equal_to compare v) (stable_sort compare l)
  = filter (equal_to compare v) l.
Proof.
  induction l as [|x l IH]; [reflexivity |].
  cbn [stable_sort fold_right].
  rewrite merge_stable; auto using sorted_list_single.
  - fold (stable_sort compare l). rewrite IH.
    change (x :: l) with ([x] ++ l). now rewrite filter_app.
  - apply stable_sort_sorted.
Qed.

Lemma stable_sort_perm (l : list T) : Permutation l (stable_sort compare l).
Proof.
  induction l as [|x l IH]; [constructor |].
  cbn [stable_sort fold_right]. fold (stable_sort compare l).
  rewrite <- merge_perm. cbn [app]. now constructor.
Qed.

Lemma stable_sort_unique (l r : list T) :
  sorted_list compare r ->
  (forall v, filter (equal_to compare v) r = filter (equal_to compare v) l) ->
  r = stable_sort compare l.
Proof.
  intros Hs Hf. apply stable_unique; auto using stable_sort_sorted.
  intros v. now rewrite stable_sort_stable.
Qed.

Lemma stable_sort_id (l : list T) :
  sorted_list compare l -> stable_sort compare l = l.
Proof. intros Hs. symmetry. now apply stable_sort_unique. Qed.

Lemma stable_sort_app (l1 l2 : list T) :
  stable_sort compare (l1 ++ l2)
  = merge compare (stable_sort compare l1) (stable_sort compare l2).
Proof.
  symmetry. apply stable_sort_unique.
  - apply merge_sorted; auto using stable_sort_sorted.
  - intros v. rewrite merge_stable by auto using stable_sort_sorted.
    now rewrite !stable_sort_stable, filter_app.
Qed.

Lemma merge_is_stable_sort (a b : list T) :
  sorted_list compare a -> sorted_list compare b ->
  merge compare a b = stable_sort compare (a ++ b).
Proof.
  intros Ha Hb. now rewrite stable_sort_app, !stable_sort_id.
Qed.

(* items that compare below one another are told apart by every item *)
Lemma strictly_sorted_filter (v : T) (l : list T) :
  strictly_sorted compare l ->
  (length (filter (equal_to compare v) l) <= 1)%nat.
Proof.
  unfold strictly_sorted. induction 1 as [|x l Hs IH Hx]; [cbn; lia |].
  cbn [filter]. destruct (equal_to compare v x) eqn:E; [| exact IH].
  cbn [length].
  assert (Hnone : filter (equal_to compare v) l = []).
  { clear IH Hs. induction l as [|z l IHl]; [reflexivity |].
    inversion Hx as [|? ? Hz Hx']; subst.
    cbn [filter]. destruct (equal_to compare v z) eqn:Ez; [exfalso | auto].
    unfold equal_to in E, Ez. apply Z.eqb_eq in E, Ez.
    assert (compare x z = 0).
    { eapply compare_eq_trans; [apply compare_eq_sym; exact E | exact Ez]. }
    lia. }
  rewrite Hnone. cbn. lia.
Qed.

Lemma strictly_sorted_sorted (l : list T) :
  strictly_sorted compare l -> sorted_list compare l.
Proof.
  unfold strictly_sorted, sorted_list.
  induction 1 as [|x l Hs IH Hx]; constructor; auto.
  eapply Forall_impl; [| exact Hx]. intros; cbv beta in *; lia.
Qed.

(** A sorted rearrangement of items that are all told apart by the
    comparison is the one sorted list of them. *)
Lemma sorted_perm_unique (u v : list T) :
  strictly_sorted compare u -> sorted_list compare v -> Permutation v u ->
  v = u.
Proof.
  intros Hu Hv Hp. apply stable_unique; auto using strictly_sorted_sorted.
  intros w.
  pose proof (strictly_sorted_filter w u Hu) as Hlen.
  assert (Hpf : Permutation (filter (equal_to compare w) v)
                            (filter (equal_to compare w) u)).
  { clear - Hp. induction Hp; cbn [filter].
    - constructor.
    - destruct (equal_to compare w x); auto.
    - destruct (equal_to compare w x), (equal_to compare w y); auto.
      apply perm_swap.
    - etransitivity; eauto. }
  destruct (filter (equal_to compare w) u) as [|a [|b f]].
  - symmetry in Hpf. now apply Permutation_nil in Hpf.
  - symmetry in Hpf. now apply Permutation_length_1_inv in Hpf.
  - cbn in Hlen. lia.
Qed.
End Order.

(** * InsertionSort *)

Section InsertionSort.
Context {T : Type} (size : Z) (compare : Comparison T).
Hypothesis Horder : total_order compare.
#[local] Hint Extern 0 (Store (list _) _) =>
  exact (list_store size) : typeclass_instances.

Lemma sorted_list_snoc_le (s : list T) (y x : T) :
  sorted_list compare (s ++ [y]) -> compare y x <= 0 ->
  Forall (fun z => compare z x <= 0) (s ++ [y]).
Proof.
  intros Hs Hyx. apply sorted_list_app in Hs; auto.
  destruct Hs as (_ & _ & Hall).
  apply Forall_app. split.
  - eapply Forall_impl; [| exact Hall]. intros z Hz.
    inversion Hz as [|? ? Hzy _]; subst.
    eapply le_transitive; eauto.
  - constructor; [exact Hyx | constructor].
Qed.

(* two items next to each other that do not compare equal may change
   places: the items that compare equal to any given one keep their order *)
Lemma filter_equal_swap (v x y : T) (s1 s2 : list T) :
  compare x y < 0 ->
  filter (equal_to compare v) (s1 ++ x :: y :: s2)
  = filter (equal_to compare v) (s1 ++ y :: x :: s2).
Proof.
  intros Hlt. rewrite !filter_app. f_equal. cbn [filter].
  destruct (equal_to compare v x) eqn:Ex;
    destruct (equal_to compare v y) eqn:Ey; try reflexivity.
  unfold equal_to in Ex, Ey. apply Z.eqb_eq in Ex, Ey.
  apply (compare_eq_sym compare Horder) in Ex.
  pose proof (compare_eq_trans compare Horder _ _ _ Ex Ey). lia.
Qed.

(* the item [x] at place [j] goes down into the sorted items before it *)
Lemma InsertionSort_inner_spec (pre post : list T) (x : T) (range : Range) :
  forall (s1 s2 : list T) (j : Z) (fuel : nat),
    fits size (pre ++ s1 ++ x :: s2 ++ post) ->
    start range = Z.of_nat (length pre) ->
    j = Z.of_nat (length pre + length s1) ->
    sorted_list compare (s1 ++ s2) ->
    Forall (fun z => compare x z < 0) s2 ->
    (length s1 <= fuel)%nat ->
    exists l',
      InsertionSort_inner fuel (pre ++ s1 ++ x :: s2 ++ post) size range
        compare j = Done (pre ++ l' ++ post) /\
      sorted_list compare l' /\ Permutation (s1 ++ x :: s2) l' /\
      forall v, filter (equal_to compare v) l'
                = filter (equal_to compare v) (s1 ++ x :: s2).
Proof.
  induction s1 as [|y s1 IH] using rev_ind;
    intros s2 j fuel Hfit Hs -> Hsorted Hx Hf.
  - exists (x :: s2). cbn [app length] in *.
    assert (E : (Z.of_nat (length pre + 0) >? start range) = false).
    { rewrite Z.gtb_ltb. apply Z.ltb_ge. lia. }
    destruct fuel; cbn [InsertionSort_inner]; rewrite E;
      (split; [reflexivity |]); (split; [| split; reflexivity]);
      (constructor; [exact Hsorted |]);
      (eapply Forall_impl; [| exact Hx]); intros; cbv beta in *; lia.
  - assert (Hbound : Z.of_nat (length (pre ++ (s1 ++ [y]) ++ x :: s2 ++ post))
                     < SIZE_MAX1).
    { destruct Hfit as [Hs0 Hfit]. nia. }
    lengths.
    assert (E : (Z.of_nat (length pre + (length s1 + 1)) >? start range)
                = true).
    { rewrite Z.gtb_ltb. apply Z.ltb_lt. lia. }
    assert (Hptr :
      call compare
        (ptr (pre ++ (s1 ++ [y]) ++ x :: s2 ++ post)
           (size *% Z.of_nat (length pre + (length s1 + 1))))
        (ptr (pre ++ (s1 ++ [y]) ++ x :: s2 ++ post)
           (size *% (Z.of_nat (length pre + (length s1 + 1)) -% 1)))
      = Done (compare x y)).
    { replace (pre ++ (s1 ++ [y]) ++ x :: s2 ++ post)
        with ((pre ++ s1 ++ [y]) ++ x :: (s2 ++ post)) in *
        by (app_norm; reflexivity).
      rewrite (ptr_app size (pre ++ s1 ++ [y]) (s2 ++ post) x)
        by (auto; lengths; lia).
      replace ((pre ++ s1 ++ [y]) ++ x :: (s2 ++ post))
        with ((pre ++ s1) ++ y :: (x :: s2 ++ post)) in *
        by (app_norm; reflexivity).
      rewrite (ptr_app size (pre ++ s1) (x :: s2 ++ post) y)
        by (auto; lengths; unwrap; lia).
      reflexivity. }
    destruct (Z_lt_le_dec (compare x y) 0) as [Hlt | Hge].
    + destruct fuel as [|fuel]; [lia |].
      cbn [InsertionSort_inner]. rewrite E, Hptr. cbn [bind].
      replace (compare x y <? 0) with true by (symmetry; apply Z.ltb_lt; lia).
      replace (pre ++ (s1 ++ [y]) ++ x :: s2 ++ post)
        with ((pre ++ s1) ++ y :: [] ++ x :: (s2 ++ post)) in *
        by (app_norm; reflexivity).
      destruct (Swap_app size (pre ++ s1) [] (s2 ++ post) y x
                  (Z.of_nat (length pre + (length s1 + 1)) -% 1)
                  (Z.of_nat (length pre + (length s1 + 1)))) as [_ Sw];
        [exact Hfit | lengths; unwrap; lia | lengths; lia |].
      rewrite Sw. cbn [lift bind].
      replace ((pre ++ s1) ++ x :: [] ++ y :: s2 ++ post)
        with (pre ++ s1 ++ x :: (y :: s2) ++ post)
        by (app_norm; reflexivity).
      destruct (IH (y :: s2)
                  (Z.of_nat (length pre + (length s1 + 1)) -% 1) fuel)
        as (l' & Hrun & Hsl & Hperm & Hstable).
      * eapply fits_length; [exact Hfit |]. lengths. lia.
      * exact Hs.
      * unwrap. lia.
      * replace (s1 ++ y :: s2) with ((s1 ++ [y]) ++ s2)
          by (app_norm; reflexivity).
        exact Hsorted.
      * constructor; [exact Hlt | exact Hx].
      * lia.
      * exists l'. split; [exact Hrun |]. split; [exact Hsl |].
        split.
        { rewrite <- Hperm. app_norm.
          apply Permutation_app_head. apply perm_swap. }
        intros v. rewrite Hstable.
        rewrite (filter_equal_swap v x y s1 s2 Hlt).
        now rewrite <- app_assoc.
    + exists ((s1 ++ [y]) ++ x :: s2).
      assert (Hc : (compare x y <? 0) = false) by (apply Z.ltb_ge; lia).
      split.
      { destruct fuel; cbn [InsertionSort_inner]; rewrite E, Hptr; cbn [bind];
          rewrite Hc; app_norm; reflexivity. }
      split; [| split; reflexivity].
      apply sorted_list_app in Hsorted; auto.
      destruct Hsorted as (Hs1 & Hs2 & H12).
      apply sorted_list_app; auto.
      split; [exact Hs1 |]. split.
      * constructor; [exact Hs2 |].
        eapply Forall_impl; [| exact Hx]. intros; cbv beta in *; lia.
      * assert (Hyx : compare y x <= 0) by (flips Horder x y; lia).
        pose proof (sorted_list_snoc_le s1 y x Hs1 Hyx) as Hle.
        rewrite Forall_forall in Hle, H12. apply Forall_forall.
        intros z Hz. constructor; [now apply Hle |].
        now apply H12.
Qed.

Lemma InsertionSort_outer_spec (pre post : list T) (range : Range)
    (inner : nat) :
  forall (todo done : list T) (i : Z) (fuel : nat),
    fits size (pre ++ done ++ todo ++ post) ->
    start range = Z.of_nat (length pre) ->
    end_ range = Z.of_nat (length pre + length done + length todo) ->
    i = Z.of_nat (length pre + length done) ->
    sorted_list compare done ->
    (length todo <= fuel)%nat -> (length done + length todo <= inner)%nat ->
    exists l',
      InsertionSort_outer fuel inner (pre ++ done ++ todo ++ post) size range
        compare i = Done (pre ++ l' ++ post) /\
      sorted_list compare l' /\ Permutation (done ++ todo) l' /\
      forall v, filter (equal_to compare v) l'
                = filter (equal_to compare v) (done ++ todo).
Proof.
  induction todo as [|x todo IH];
    intros done i fuel Hfit Hs He -> Hsorted Hf Hin.
  - exists done. cbn [app length] in *.
    assert (E : (Z.of_nat (length pre + length done) <? end_ range) = false)
      by (apply Z.ltb_ge; lia).
    destruct fuel; cbn [InsertionSort_outer]; rewrite E;
      (split; [reflexivity |]); (split; [exact Hsorted |]);
      rewrite app_nil_r; split; reflexivity.
  - destruct fuel as [|fuel]; [cbn in Hf; lia |].
    assert (Hbound : Z.of_nat (length (pre ++ done ++ (x :: todo) ++ post))
                     < SIZE_MAX1).
    { destruct Hfit as [Hs0 Hfit]. nia. }
    lengths.
    cbn [InsertionSort_outer].
    replace (Z.of_nat (length pre + length done) <? end_ range) with true
      by (symmetry; apply Z.ltb_lt; lia).
    destruct (InsertionSort_inner_spec pre (todo ++ post) x range done []
                (Z.of_nat (length pre + length done)) inner)
      as (l1 & Hrun & Hs1 & Hp1 & Hst1); auto; try lia.
    { now rewrite app_nil_r. }
    cbn [app] in Hrun. cbn [app]. rewrite Hrun. cbn [bind].
    assert (Hl1 : length l1 = (length done + 1)%nat).
    { apply Permutation_length in Hp1. rewrite <- Hp1. lengths. lia. }
    destruct (IH l1 (Z.of_nat (length pre + length done) +% 1) fuel)
      as (l' & Hrun' & Hs' & Hp' & Hst'); auto; try lia.
    + eapply fits_length; [exact Hfit |]. lengths. lia.
    + unwrap. lia.
    + exists l'. split; [exact Hrun' |]. split; [exact Hs' |].
      split.
      { rewrite <- Hp', <- Hp1. app_norm. reflexivity. }
      intros v. rewrite Hst', !filter_app, Hst1.
      rewrite !filter_app. cbn [filter app].
      destruct (equal_to compare v x); cbn [app];
        rewrite <- ?app_assoc, ?app_nil_r; reflexivity.
Qed.

(** [InsertionSort] leaves in the range the sorted rearrangement of the
    items it held, and the rest of the array as it was. *)
Lemma InsertionSort_spec (pre l post : list T) (range : Range) (fuel : nat) :
  fits size (pre ++ l ++ post) ->
  start range = Z.of_nat (length pre) ->
  end_ range = Z.of_nat (length pre + length l) ->
  Z.of_nat (length pre) + 1 < SIZE_MAX1 ->
  (length l <= fuel)%nat ->
  exists l',
    InsertionSort fuel (pre ++ l ++ post) size range compare
      = Done (pre ++ l' ++ post) /\
    sorted_list compare l' /\ Permutation l l' /\
    forall v, filter (equal_to compare v) l' = filter (equal_to compare v) l.
Proof.
  intros Hfit Hs He Hpre Hf.
  assert (Hbound : Z.of_nat (length (pre ++ l ++ post)) < SIZE_MAX1).
  { destruct Hfit as [Hs0 Hfit]. nia. }
  lengths. unfold InsertionSort.
  destruct l as [|a l].
  - exists []. cbn [app length] in *.
    assert (E : (start range +% 1 <? end_ range) = false).
    { apply Z.ltb_ge. unwrap. lia. }
    destruct fuel; cbn [InsertionSort_outer]; rewrite E;
      repeat split; constructor.
  - destruct (InsertionSort_outer_spec pre post range fuel l [a]
                (start range +% 1) fuel)
      as (l' & Hrun & Hs' & Hp' & Hst'); auto; cbn [length] in *; try lia.
    + unwrap. lia.
    + apply sorted_list_single.
    + exists l'. split; [exact Hrun |]. split; [exact Hs' |].
      split; [exact Hp' | exact Hst'].
Qed.
End InsertionSort.

(** * The galloping searches on a run given by its parts *)

Section FindParts.
Context {T : Type} (size : Z) (compare : Comparison T).
Hypothesis Horder : total_order compare.
#[local] Hint Extern 0 (Store (list _) _) =>
  exact (list_store size) : typeclass_instances.

Lemma FindFirst_parts (pre b1 b2 post : list T) (v : T) (range : Range)
    (unique : Z) (fuel : nat) :
  fits size (pre ++ b1 ++ b2 ++ post) ->
  Forall (fun y => compare y v < 0) b1 ->
  Forall (fun y => compare y v >= 0) b2 ->
  start range = Z.of_nat (length pre) ->
  end_ range = Z.of_nat (length pre + length b1 + length b2) ->
  1 <= unique ->
  (length b1 + length b2 <= fuel)%nat ->
  FindFirstForward fuel (pre ++ b1 ++ b2 ++ post) (Some v) size range compare
    unique = Done (Z.of_nat (length pre + length b1)) /\
  FindFirstBackward fuel (pre ++ b1 ++ b2 ++ post) (Some v) size range compare
    unique = Done (Z.of_nat (length pre + length b1)).
Proof.
  intros Hfit H1 H2 Hs He Hu Hf.
  assert (Hbound : Z.of_nat (length (pre ++ b1 ++ b2 ++ post)) < SIZE_MAX1).
  { destruct Hfit as [Hs0 Hfit]. nia. }
  assert (Hlen : length (pre ++ b1 ++ b2 ++ post)
                 = (length pre + length b1 + length b2 + length post)%nat)
    by (rewrite !length_app; lia).
  rewrite Hlen in Hbound.
  destruct range as [lo hi]. cbn [start end_] in *. subst lo hi.
  destruct (searches_find_split
              (test_first (pre ++ b1 ++ b2 ++ post) (Some v) size compare)
              (holds_at (fun x => compare x v <? 0) (pre ++ b1 ++ b2 ++ post))
              true (Z.of_nat (length pre))
              (Z.of_nat (length pre + length b1 + length b2))
              (Z.of_nat (length pre + length b1)) unique fuel)
    as (_ & H3 & H4); auto; try lia.
  { intros j Hj. apply test_first_items; auto. lia. }
  { apply parts_split_at.
    - eapply Forall_impl; [| exact H1]. intros y Hy. cbv beta in *.
      apply Z.ltb_lt. lia.
    - eapply Forall_impl; [| exact H2]. intros y Hy. cbv beta in *.
      apply Z.ltb_ge. lia. }
  unfold FindFirstForward, FindFirstBackward. cbn [start end_]. split.
  - rewrite <- H3. destruct (Range_length _ =? 0); [reflexivity |].
    destruct (skip_of _ unique); cbn [bind]; try reflexivity.
    apply FindFirstForward_for_scheme.
  - rewrite <- H4. destruct (Range_length _ =? 0); [reflexivity |].
    destruct (skip_of _ unique); cbn [bind]; try reflexivity.
    apply FindFirstBackward_for_scheme.
Qed.

Lemma FindLast_parts (pre a1 a2 post : list T) (v : T) (range : Range)
    (unique : Z) (fuel : nat) :
  fits size (pre ++ a1 ++ a2 ++ post) ->
  Forall (fun x => compare v x >= 0) a1 ->
  Forall (fun x => compare v x < 0) a2 ->
  start range = Z.of_nat (length pre) ->
  end_ range = Z.of_nat (length pre + length a1 + length a2) ->
  1 <= unique ->
  (length a1 + length a2 <= fuel)%nat ->
  FindLastForward fuel (pre ++ a1 ++ a2 ++ post) (Some v) size range compare
    unique = Done (Z.of_nat (length pre + length a1)) /\
  FindLastBackward fuel (pre ++ a1 ++ a2 ++ post) (Some v) size range compare
    unique = Done (Z.of_nat (length pre + length a1)).
Proof.
  intros Hfit H1 H2 Hs He Hu Hf.
  assert (Hbound : Z.of_nat (length (pre ++ a1 ++ a2 ++ post)) < SIZE_MAX1).
  { destruct Hfit as [Hs0 Hfit]. nia. }
  assert (Hlen : length (pre ++ a1 ++ a2 ++ post)
                 = (length pre + length a1 + length a2 + length post)%nat)
    by (rewrite !length_app; lia).
  rewrite Hlen in Hbound.
  destruct range as [lo hi]. cbn [start end_] in *. subst lo hi.
  destruct (searches_find_split
              (test_last (pre ++ a1 ++ a2 ++ post) (Some v) size compare)
              (holds_at (fun x => compare v x >=? 0) (pre ++ a1 ++ a2 ++ post))
              false (Z.of_nat (length pre))
              (Z.of_nat (length pre + length a1 + length a2))
              (Z.of_nat (length pre + length a1)) unique fuel)
    as (_ & H3 & H4); auto; try lia.
  { intros j Hj. apply test_last_items; auto. lia. }
  { apply parts_split_at.
    - eapply Forall_impl; [| exact H1]. intros y Hy. cbv beta in *.
      apply Z.geb_le. lia.
    - eapply Forall_impl; [| exact H2]. intros y Hy. cbv beta in *.
      rewrite Z.geb_leb. apply Z.leb_gt. lia. }
  unfold FindLastForward, FindLastBackward. cbn [start end_]. split.
  - rewrite <- H3. destruct (Range_length _ =? 0); [reflexivity |].
    destruct (skip_of _ unique); cbn [bind]; try reflexivity.
    apply FindLastForward_for_scheme.
  - rewrite <- H4. destruct (Range_length _ =? 0); [reflexivity |].
    destruct (skip_of _ unique); cbn [bind]; try reflexivity.
    apply FindLastBackward_for_scheme.
Qed.
End FindParts.

(** * Counting the unique values of a run *)

(* an array that fits has fewer than 2^64 items *)
Ltac fit_bound H Hb :=
  match type of H with
  | fits ?s ?a =>
      assert (Hb : Z.of_nat (length a) < SIZE_MAX1)
        by (let H0 := fresh in let H1 := fresh in
            destruct H as [H0 H1]; nia)
  end.

(* unwrap the sums and differences that are seen to fit, wherever they are *)
Ltac unwrap_all :=
  repeat match goal with
  | |- context [add ?a ?b] =>
      rewrite (add_small a b) by (rewrite ?SIZE_MAX1_eq in *; lia)
  | |- context [sub ?a ?b] =>
      rewrite (sub_small a b) by (rewrite ?SIZE_MAX1_eq in *; lia)
  end.

Section Count.
Context {T : Type} (size : Z) (compare : Comparison T).
Hypothesis Horder : total_order compare.
#[local] Hint Extern 0 (Store (list _) _) =>
  exact (list_store size) : typeclass_instances.

Lemma sorted_list_tail (x : T) (l : list T) :
  sorted_list compare (x :: l) -> sorted_list compare l.
Proof. intros H. now inversion H. Qed.

(* a sorted run from its first item on: the items equal to it, then the
   items above it *)
Lemma sorted_group (x : T) (rest : list T) :
  sorted_list compare (x :: rest) ->
  exists same more, rest = same ++ more /\
    Forall (fun z => compare x z >= 0) same /\
    Forall (fun z => compare x z < 0) more.
Proof.
  intros Hs. apply sorted_not_above_parts; auto.
  now apply sorted_list_tail in Hs.
Qed.

(* [done] is what the loop went through, [x] the item at [last] *)
Lemma count_A_spec (pre post : list T) (A : Range) (find : Z) (fuel : nat) :
  forall (done : list T) (x : T) (rest : list T) (last count : Z),
    fits size (pre ++ done ++ x :: rest ++ post) ->
    sorted_list compare (x :: rest) ->
    end_ A = Z.of_nat (length pre + length done + 1 + length rest) ->
    last = Z.of_nat (length pre + length done) ->
    1 <= count -> find < SIZE_MAX1 ->
    (length rest <= fuel)%nat ->
    exists segs x' tail,
      x :: rest = flat segs ++ x' :: tail /\
      grouped compare segs (x' :: tail) /\
      count_A fuel (pre ++ done ++ x :: rest ++ post) size compare A find
        last count
      = Done (last + Z.of_nat (length (flat segs)),
              count + Z.of_nat (length segs)) /\
      (count + Z.of_nat (length segs) <= find \/ segs = []) /\
      (count + Z.of_nat (length segs) < find ->
       Forall (fun z => compare x' z >= 0) tail).
Proof.
  induction fuel as [|fuel IH];
    intros done x rest last count Hfit Hsorted He -> Hc Hfind Hf.
  - destruct rest; [| cbn in Hf; lia].
    exists [], x, []. cbn [flat flat_map app length grouped].
    split; [reflexivity |]. split; [exact I |].
    split; [| split; [now right | intros _; constructor]].
    cbn [count_A]. rewrite !Z.add_0_r.
    destruct (count <? find); [| reflexivity].
    fit_bound Hfit Hbound. lengths.
    unfold FindLastForward, Range_length. cbn [start end_].
    rewrite He. unwrap.
    replace (Z.of_nat (length pre + length done + 1 + 0)
             - (Z.of_nat (length pre + length done) + 1) =? 0) with true
      by (symmetry; apply Z.eqb_eq; lia).
    cbn [bind].
    replace (Z.of_nat (length pre + length done) + 1
             =? Z.of_nat (length pre + length done + 1 + 0)) with true
      by (symmetry; apply Z.eqb_eq; lia).
    reflexivity.
  - fit_bound Hfit Hbound. lengths.
    destruct (count <? find) eqn:Hcf.
    2:{ exists [], x, rest. cbn [flat flat_map app length grouped].
        split; [reflexivity |]. split; [exact I |].
        split; [| split; [now right
                         | intros H; apply Z.ltb_ge in Hcf; cbn in H; lia]].
        cbn [count_A]. rewrite Hcf, !Z.add_0_r. reflexivity. }
    apply Z.ltb_lt in Hcf.
    destruct (sorted_group x rest Hsorted) as (same & more & -> & Hsame & Hmore).
    lengths.
    cbn [count_A]. replace (count <? find) with true
      by (symmetry; apply Z.ltb_lt; lia).
    replace (pre ++ done ++ x :: (same ++ more) ++ post)
      with ((pre ++ done) ++ x :: (same ++ more ++ post)) in *
      by (app_norm; reflexivity).
    rewrite (ptr_app size (pre ++ done) (same ++ more ++ post) x)
      by (auto; lengths; lia).
    replace ((pre ++ done) ++ x :: (same ++ more ++ post))
      with ((pre ++ done ++ [x]) ++ same ++ more ++ post) in *
      by (app_norm; reflexivity).
    unwrap.
    destruct (FindLast_parts size compare (pre ++ done ++ [x]) same more
                post x
                (Range_new (Z.of_nat (length pre + length done) + 1) (end_ A))
                (find - count) (S fuel)) as [Hfind' _];
      auto; cbn [start end_]; lengths; try lia.
    rewrite Hfind'. cbn [bind].
    destruct more as [|x2 rest2].
    + exists [], x, (same ++ []). cbn [flat flat_map app length grouped].
      split; [reflexivity |]. split; [exact I |].
      split; [| split; [now right
                       | intros _; rewrite app_nil_r; exact Hsame]].
      replace (Z.of_nat (length pre + (length done + 1) + length same)
               =? end_ A) with true
        by (symmetry; apply Z.eqb_eq; cbn [length] in He; lia).
      rewrite !Z.add_0_r. reflexivity.
    + cbn [length] in *.
      replace (Z.of_nat (length pre + (length done + 1) + length same)
               =? end_ A) with false
        by (symmetry; apply Z.eqb_neq; lia).
      replace ((pre ++ done ++ [x]) ++ same ++ (x2 :: rest2) ++ post)
        with (pre ++ (done ++ x :: same) ++ x2 :: rest2 ++ post) in *
        by (app_norm; reflexivity).
      assert (Hs2 : sorted_list compare (x2 :: rest2)).
      { apply sorted_list_tail in Hsorted.
        apply sorted_list_app in Hsorted; auto. tauto. }
      destruct (IH (done ++ x :: same) x2 rest2
                  (Z.of_nat (length pre + (length done + 1) + length same))
                  (count + 1))
        as (segs & x' & tail & E & Hg & Hrun & Hle & Hall);
        [auto; lengths; try lia .. |].
      exists ((x, same) :: segs), x', tail.
      split.
      { cbn [flat flat_map fst snd]. fold (flat segs).
        app_norm. do 2 f_equal. cbn [app] in E. exact E. }
      split.
      { cbn [grouped fst snd]. split; [exact Hsame |].
        split; [| exact Hg]. rewrite <- E. exact Hmore. }
      split.
      { rewrite Hrun. f_equal. f_equal.
        - cbn [flat flat_map fst snd]. fold (flat segs). lengths. lia.
        - cbn [length]. lia. }
      split; [left; destruct Hle as [Hle | ->]; cbn [length]; lia |].
      intros H. apply Hall. cbn [length] in H. lia.
Qed.

Lemma flat_right_app (s1 s2 : list (list T * T)) :
  flat_right (s1 ++ s2) = flat_right s1 ++ flat_right s2.
Proof. unfold flat_right. apply flat_map_app. Qed.

Lemma flat_app (s1 s2 : list (T * list T)) :
  flat (s1 ++ s2) = flat s1 ++ flat s2.
Proof. unfold flat. apply flat_map_app. Qed.

Lemma grouped_right_snoc (segs : list (list T * T)) :
  forall (before : list T) (s : list T * T),
    grouped_right compare before segs ->
    Forall (fun z => compare z (snd s) >= 0) (fst s) ->
    Forall (fun z => compare z (snd s) < 0) (before ++ flat_right segs) ->
    grouped_right compare before (segs ++ [s]).
Proof.
  induction segs as [|s0 segs IH]; intros before s Hg Hs Hb.
  - cbn [app grouped_right flat_right flat_map] in *.
    rewrite app_nil_r in Hb. auto.
  - cbn [app grouped_right] in *. destruct Hg as (H1 & H2 & H3).
    split; [exact H1 |]. split; [exact H2 |].
    apply IH; auto.
    cbn [flat_right flat_map] in Hb. fold (flat_right segs) in Hb.
    app_norm. app_norm_in Hb. exact Hb.
Qed.

(* [done] is what the loop went through, [y] the item at [last] *)
Lemma count_B_spec (pre post : list T) (B : Range) (find : Z) (fuel : nat) :
  forall (front : list T) (y : T) (done : list T) (last count : Z),
    fits size (pre ++ front ++ y :: done ++ post) ->
    sorted_list compare (front ++ [y]) ->
    start B = Z.of_nat (length pre) ->
    last = Z.of_nat (length pre + length front) ->
    1 <= count -> find < SIZE_MAX1 ->
    (length front <= fuel)%nat ->
    exists front' y' segs,
      front ++ [y] = front' ++ y' :: flat_right segs /\
      grouped_right compare (front' ++ [y']) segs /\
      count_B fuel (pre ++ front ++ y :: done ++ post) size compare B find
        last count
      = Done (last - Z.of_nat (length (flat_right segs)),
              count + Z.of_nat (length segs)) /\
      (count + Z.of_nat (length segs) <= find \/ segs = []) /\
      (count + Z.of_nat (length segs) < find ->
       Forall (fun z => compare z y' >= 0) front').
Proof.
  induction fuel as [|fuel IH];
    intros front y done last count Hfit Hsorted Hs -> Hc Hfind Hf.
  - destruct front; [| cbn in Hf; lia].
    exists [], y, []. cbn [flat_right flat_map app length grouped_right].
    split; [reflexivity |]. split; [exact I |].
    split; [| split; [now right | intros _; constructor]].
    cbn [count_B]. rewrite Z.add_0_r, Z.sub_0_r.
    destruct (count <? find); [| reflexivity].
    fit_bound Hfit Hbound. lengths.
    unfold FindFirstBackward, Range_length. cbn [start end_].
    rewrite Hs. unwrap.
    replace (Z.of_nat (length pre + 0) - Z.of_nat (length pre) =? 0) with true
      by (symmetry; apply Z.eqb_eq; lia).
    cbn [bind]. rewrite Z.eqb_refl. reflexivity.
  - fit_bound Hfit Hbound. lengths.
    destruct (count <? find) eqn:Hcf.
    2:{ exists front, y, [].
        cbn [flat_right flat_map app length grouped_right].
        split; [reflexivity |]. split; [exact I |].
        split; [| split; [now right
                         | intros H; apply Z.ltb_ge in Hcf; cbn in H; lia]].
        cbn [count_B]. rewrite Hcf, Z.add_0_r, Z.sub_0_r. reflexivity. }
    apply Z.ltb_lt in Hcf.
    assert (Hsf : sorted_list compare front).
    { apply sorted_list_app in Hsorted; auto. tauto. }
    destruct (sorted_below_parts compare Horder y front Hsf)
      as (less & same & -> & Hless & Hsame).
    lengths.
    cbn [count_B]. replace (count <? find) with true
      by (symmetry; apply Z.ltb_lt; lia).
    replace (pre ++ (less ++ same) ++ y :: done ++ post)
      with ((pre ++ less ++ same) ++ y :: (done ++ post)) in *
      by (app_norm; reflexivity).
    rewrite (ptr_app size (pre ++ less ++ same) (done ++ post) y)
      by (auto; lengths; lia).
    replace ((pre ++ less ++ same) ++ y :: (done ++ post))
      with (pre ++ less ++ same ++ (y :: done ++ post)) in *
      by (app_norm; reflexivity).
    unwrap.
    destruct (FindFirst_parts size compare pre less same
                (y :: done ++ post) y
                (Range_new (start B)
                   (Z.of_nat (length pre + (length less + length same))))
                (find - count) (S fuel)) as [_ Hfind'];
      auto; cbn [start end_]; lengths; try lia.
    rewrite Hfind'. cbn [bind].
    destruct less as [|y2 less' _] using rev_ind.
    + exists same, y, []. cbn [flat_right flat_map app length grouped_right].
      split; [reflexivity |]. split; [exact I |].
      split; [| split; [now right | intros _; exact Hsame]].
      replace (Z.of_nat (length pre + 0) =? start B) with true
        by (symmetry; apply Z.eqb_eq; lia).
      rewrite Z.add_0_r, Z.sub_0_r. reflexivity.
    + lengths.
      replace (Z.of_nat (length pre + (length less' + 1)) =? start B)
        with false by (symmetry; apply Z.eqb_neq; lia).
      replace (pre ++ (less' ++ [y2]) ++ same ++ y :: done ++ post)
        with (pre ++ less' ++ y2 :: (same ++ y :: done) ++ post) in *
        by (app_norm; reflexivity).
      assert (Hs2 : sorted_list compare (less' ++ [y2])).
      { apply sorted_list_app in Hsf; auto. tauto. }
      destruct (IH less' y2 (same ++ y :: done)
                  (Z.of_nat (length pre + (length less' + 1)) - 1)
                  (count + 1))
        as (front' & y' & segs & E & Hg & Hrun & Hle & Hall);
        [auto; lengths; try lia .. |].
      exists front', y', (segs ++ [(same, y)]).
      split.
      { rewrite flat_right_app. cbn [flat_right flat_map fst snd].
        rewrite app_nil_r. rewrite E. app_norm. reflexivity. }
      split.
      { apply grouped_right_snoc; auto. cbn [snd].
        replace (front' ++ [y'] ++ flat_right segs)
          with (front' ++ y' :: flat_right segs) by reflexivity.
        replace ((front' ++ [y']) ++ flat_right segs)
          with (front' ++ y' :: flat_right segs)
          by (app_norm; reflexivity).
        rewrite <- E. exact Hless. }
      split.
      { unwrap. rewrite Hrun. f_equal. f_equal.
        - rewrite flat_right_app. cbn [flat_right flat_map fst snd].
          lengths. lia.
        - lengths. lia. }
      split; [left; destruct Hle as [Hle | ->]; lengths; lia |].
      intros H. apply Hall. lengths. lia.
Qed.
End Count.

(** * Pulling the unique values out into an internal buffer *)

Section Groups.
Context {T : Type} (compare : Comparison T).
Hypothesis Horder : total_order compare.

Lemma flat_length (segs : list (T * list T)) :
  (length segs <= length (flat segs))%nat.
Proof.
  induction segs as [|s segs IH]; [cbn; lia |].
  change (flat (s :: segs)) with ((fst s :: snd s) ++ flat segs).
  rewrite length_app. cbn [length]. lia.
Qed.

Lemma flat_right_length (segs : list (list T * T)) :
  (length segs <= length (flat_right segs))%nat.
Proof.
  induction segs as [|s segs IH]; [cbn; lia |].
  change (flat_right (s :: segs))
    with ((fst s ++ [snd s]) ++ flat_right segs).
  rewrite !length_app. cbn [length]. lia.
Qed.

Lemma grouped_weaken (segs : list (T * list T)) (rest : list T) :
  grouped compare segs rest -> grouped compare segs [].
Proof.
  induction segs as [|s segs IH]; [auto |].
  cbn [grouped]. intros (H1 & H2 & H3).
  split; [exact H1 |]. split; [| auto].
  rewrite app_nil_r. apply Forall_app in H2. tauto.
Qed.

Lemma grouped_app (s1 s2 : list (T * list T)) (rest : list T) :
  grouped compare (s1 ++ s2) rest ->
  grouped compare s1 (flat s2 ++ rest) /\ grouped compare s2 rest.
Proof.
  induction s1 as [|s s1 IH]; [cbn; auto |].
  cbn [app grouped]. intros (H1 & H2 & H3).
  destruct (IH H3) as [H4 H5].
  split; [| exact H5]. split; [exact H1 |]. split; [| exact H4].
  rewrite flat_app in H2. app_norm_in H2. exact H2.
Qed.

(* the items of the segments before a segment compare below its first item *)
Lemma grouped_before (s1 : list (T * list T)) (rest : list T) (x : T) :
  grouped compare s1 (x :: rest) ->
  Forall (fun z => compare z x < 0) (flat s1).
Proof.
  induction s1 as [|s s1 IH]; [constructor |].
  cbn [grouped]. intros (H1 & H2 & H3).
  cbn [flat flat_map]. fold (flat s1).
  assert (Hx : compare (fst s) x < 0).
  { rewrite Forall_forall in H2. apply H2.
    apply in_or_app. right. now left. }
  constructor; [exact Hx |].
  apply Forall_app. split; [| auto].
  eapply Forall_impl; [| exact H1]. intros z Hz. cbv beta in *.
  apply (compare_le_lt compare Horder z (fst s) x); [| exact Hx].
  flips Horder z (fst s). lia.
Qed.

(* the items of a segment do not compare below one another *)
Lemma segment_equal (x : T) (r : list T) (z v : T) :
  sorted_list compare (x :: r) ->
  Forall (fun w => compare x w >= 0) r ->
  In z (x :: r) -> In v (x :: r) -> compare z v >= 0.
Proof.
  intros Hs Hr Hz Hv.
  assert (Hxz : compare x z <= 0) by now apply (sorted_head_le compare Horder x z r).
  assert (Hvx : compare v x <= 0).
  { destruct Hv as [<- | Hv]; [rewrite compare_refl; auto; lia |].
    rewrite Forall_forall in Hr. specialize (Hr v Hv).
    flips Horder x v. lia. }
  pose proof (le_transitive _ Horder v x z Hvx Hxz).
  flips Horder z v. lia.
Qed.

Lemma segment_equal_right (r : list T) (y : T) (z v : T) :
  sorted_list compare (r ++ [y]) ->
  Forall (fun w => compare w y >= 0) r ->
  In z (r ++ [y]) -> In v (r ++ [y]) -> compare v z >= 0.
Proof.
  intros Hs Hr Hz Hv.
  assert (Hle : forall w, In w (r ++ [y]) -> compare w y <= 0).
  { intros w Hw. apply in_app_or in Hw. destruct Hw as [Hw | [<- | []]].
    - apply sorted_list_app in Hs; auto. destruct Hs as (_ & _ & Hall).
      rewrite Forall_forall in Hall. specialize (Hall w Hw).
      now inversion Hall.
    - rewrite compare_refl; auto; lia. }
  assert (Hge : forall w, In w (r ++ [y]) -> compare y w <= 0).
  { intros w Hw. apply in_app_or in Hw. destruct Hw as [Hw | [<- | []]].
    - rewrite Forall_forall in Hr. specialize (Hr w Hw).
      flips Horder w y. lia.
    - rewrite compare_refl; auto; lia. }
  pose proof (le_transitive _ Horder z y v (Hle z Hz) (Hge v Hv)).
  flips Horder z v. lia.
Qed.

(* the items of the segments after an item that all of them compare above *)
Lemma grouped_right_after (segs : list (list T * T)) :
  forall (before : list T) (v : T),
    grouped_right compare before segs -> In v before ->
    Forall (fun z => compare v z < 0) (flat_right segs).
Proof.
  induction segs as [|s segs IH]; intros before v Hg Hv; [constructor |].
  cbn [grouped_right] in Hg. destruct Hg as (H1 & H2 & H3).
  cbn [flat_right flat_map]. fold (flat_right segs).
  assert (Hy : compare v (snd s) < 0).
  { rewrite Forall_forall in H2. now apply H2. }
  apply Forall_app. split.
  - apply Forall_app. split.
    + eapply Forall_impl; [| exact H1]. intros z Hz. cbv beta in *.
      apply (compare_lt_le compare Horder v (snd s) z); [exact Hy |].
      flips Horder z (snd s). lia.
    + constructor; [exact Hy | constructor].
  - apply (IH (before ++ fst s ++ [snd s])); auto.
    apply in_or_app. now left.
Qed.
End Groups.

Section PullOut.
Context {T : Type} (size : Z) (compare : Comparison T).
Hypothesis Horder : total_order compare.
#[local] Hint Extern 0 (Store (list _) _) =>
  exact (list_store size) : typeclass_instances.

(* the rotation, with the cache the sorter has: none *)
Lemma Rotate_nocache (pre l1 l2 post : list T) (fuel : nat) (range : Range)
    (amount : Z) :
  fits size (pre ++ l1 ++ l2 ++ post) ->
  start range = Z.of_nat (length pre) ->
  end_ range = Z.of_nat (length pre + length l1 + length l2) ->
  amount = Z.of_nat (length l1) ->
  (length l1 + length l2 <= fuel)%nat ->
  Rotate fuel (pre ++ l1 ++ l2 ++ post) size amount range [] 0
    = Done (pre ++ l2 ++ l1 ++ post, []).
Proof.
  intros Hfit Hs He Ha Hf.
  destruct (Rotate_spec size pre l1 l2 post [] fuel range amount 0)
    as (cache' & Hrun & Hlen); auto; [cbn; lia |].
  destruct cache'; [exact Hrun | discriminate].
Qed.

(* [G] is the buffer so far, [R] the items it went over *)
Lemma pull_left_spec (pre post : list T) (length0 : Z) :
  forall (segs : list (T * list T)) (G R : list T) (p : Pull)
         (index count : Z) (fuel : nat),
    fits size (pre ++ flat segs ++ G ++ R ++ post) ->
    sorted_list compare (flat segs) -> grouped compare segs [] ->
    G <> [] ->
    pull_to p = Z.of_nat (length pre) ->
    pull_from p = Z.of_nat (length pre + length (flat segs) + length G) - 1 ->
    index = Z.of_nat (length pre + length (flat segs)) ->
    count = Z.of_nat (length G) ->
    length0 = Z.of_nat (length segs + length G) ->
    (length (flat segs) + length G + length segs <= fuel)%nat ->
    pull_left fuel (pre ++ flat segs ++ G ++ R ++ post) size compare [] 0 p
      length0 index count
    = Done (pre ++ (map fst segs ++ G) ++ (flat_map snd segs ++ R) ++ post,
            [], set_pull_from p (Z.of_nat (length pre) + length0 - 1)).
Proof.
  induction segs as [|[x r] segs IH] using rev_ind;
    intros G R p index count fuel Hfit Hsorted Hg HG Hto Hfrom -> -> -> Hf.
  - cbn [flat flat_map app length map] in *.
    assert (E : (Z.of_nat (length G) <? Z.of_nat (0 + length G)) = false)
      by (apply Z.ltb_ge; lia).
    assert (Ep : set_pull_from p
                   (Z.of_nat (length pre) + Z.of_nat (0 + length G) - 1) = p).
    { destruct p. unfold set_pull_from. cbn in *. f_equal. lia. }
    rewrite Ep.
    destruct fuel; cbn [pull_left]; rewrite E; reflexivity.
  - destruct fuel as [|fuel]; [lengths; lia |].
    fit_bound Hfit Hbound.
    rewrite flat_app in *. cbn [flat flat_map fst snd] in *.
    rewrite app_nil_r in *. fold (flat segs) in *.
    lengths.
    assert (HG1 : (1 <= length G)%nat).
    { destruct G; [congruence | cbn; lia]. }
    pose proof (flat_length segs) as Hsegs.
    cbn [pull_left].
    replace (Z.of_nat (length G) <? Z.of_nat (length segs + 1 + length G))
      with true by (symmetry; apply Z.ltb_lt; lia).
    rewrite Hto, Hfrom. unwrap_all.
    (* the item before the buffer *)
    destruct (exists_last (l := x :: r) ltac:(discriminate))
      as (init & v & Exr).
    assert (Hlen_xr : (length init + 1 = 1 + length r)%nat).
    { apply (f_equal (@length T)) in Exr. rewrite length_app in Exr.
      cbn [length] in Exr. lia. }
    replace (pre ++ (flat segs ++ x :: r) ++ G ++ R ++ post)
      with ((pre ++ flat segs ++ init) ++ v :: (G ++ R ++ post)) in *
      by (app_norm; rewrite (app_comm_cons r), Exr; app_norm; reflexivity).
    rewrite (ptr_app size (pre ++ flat segs ++ init) (G ++ R ++ post) v)
      by (auto; lengths; lia).
    replace ((pre ++ flat segs ++ init) ++ v :: (G ++ R ++ post))
      with (pre ++ flat segs ++ (x :: r) ++ (G ++ R ++ post)) in *
      by (app_norm; rewrite (app_comm_cons r), Exr; app_norm; reflexivity).
    apply grouped_app in Hg. destruct Hg as [Hg1 Hg2].
    cbn [flat flat_map grouped fst snd app] in Hg1, Hg2.
    rewrite !app_nil_r in Hg1. destruct Hg2 as (Hr & _ & _).
    apply sorted_list_app in Hsorted; auto.
    destruct Hsorted as (Hs1 & Hs2 & _).
    assert (Hv : In v (x :: r)).
    { rewrite Exr. apply in_or_app. right. now left. }
    destruct (FindFirst_parts size compare pre (flat segs) (x :: r)
                (G ++ R ++ post) v
                (Range_new (Z.of_nat (length pre))
                   (Z.of_nat (length pre + (length (flat segs) + S (length r))
                              + length G) - 1 - (Z.of_nat (length G) - 1)))
                (Z.of_nat (length segs + 1 + length G) - Z.of_nat (length G))
                (S fuel)) as [_ Hfind];
      [ auto | | | reflexivity | cbn [start end_ length]; lia | lia
      | cbn [length]; lia | ].
    { pose proof (grouped_before compare Horder segs r x Hg1) as Hb.
      eapply Forall_impl; [| exact Hb]. intros z Hz. cbv beta in *.
      apply (compare_lt_le compare Horder z x v); [exact Hz |].
      now apply (sorted_head_le compare Horder x v r). }
    { apply Forall_forall. intros z Hz.
      now apply (segment_equal compare Horder x r z v). }
    rewrite Hfind. cbn [bind start end_].
    unfold Range_length. cbn [start end_]. unwrap_all.
    replace (pre ++ flat segs ++ (x :: r) ++ G ++ R ++ post)
      with ((pre ++ flat segs ++ [x]) ++ r ++ G ++ (R ++ post))
      by (app_norm; reflexivity).
    rewrite (Rotate_nocache (pre ++ flat segs ++ [x]) r G (R ++ post) (S fuel));
      [ | app_norm; app_norm_in Hfit; exact Hfit
        | cbn [start]; lengths; lia | cbn [end_]; lengths; lia
        | lengths; lia | lia ].
    cbn [bind].
    replace ((pre ++ flat segs ++ [x]) ++ G ++ r ++ R ++ post)
      with (pre ++ flat segs ++ (x :: G) ++ (r ++ R) ++ post)
      by (app_norm; reflexivity).
    rewrite (IH (x :: G) (r ++ R)); cbn [set_pull_from pull_to pull_from];
      [ | eapply fits_length; [exact Hfit |]; lengths; lia
        | exact Hs1 | eapply grouped_weaken; exact Hg1 | discriminate
        | exact Hto | cbn [length]; lia | lia | cbn [length]; lia
        | cbn [length]; lia | cbn [length]; lia ].
    rewrite map_app, flat_map_app. cbn [map flat_map fst snd].
    app_norm. reflexivity.
Qed.

(* [G] is the buffer so far, [L] the items before it *)
Lemma pull_right_spec (pre post : list T) (length0 : Z) :
  forall (segs : list (list T * T)) (before L G : list T) (p : Pull)
         (index count : Z) (fuel : nat),
    fits size (pre ++ L ++ G ++ flat_right segs ++ post) ->
    sorted_list compare (flat_right segs) ->
    grouped_right compare before segs ->
    pull_to p
      = Z.of_nat (length pre + length L + length G + length (flat_right segs)) ->
    pull_from p = Z.of_nat (length pre + length L) ->
    index = Z.of_nat (length pre + length L + length G) ->
    count = Z.of_nat (length G) ->
    length0 = Z.of_nat (length G + length segs) ->
    (length G + length (flat_right segs) + length segs <= fuel)%nat ->
    pull_right fuel (pre ++ L ++ G ++ flat_right segs ++ post) size compare
      [] 0 p length0 index count
    = Done (pre ++ (L ++ flat_map fst segs) ++ (G ++ map snd segs) ++ post,
            [],
            set_pull_from p
              (Z.of_nat (length pre + length L + length (flat_map fst segs)))).
Proof.
  induction segs as [|[r y] segs IH];
    intros before L G p index count fuel Hfit Hsorted Hg Hto Hfrom -> -> ->
           Hf.
  - cbn [flat_right flat_map app length map] in *.
    assert (E : (Z.of_nat (length G) <? Z.of_nat (length G + 0)) = false)
      by (apply Z.ltb_ge; lia).
    assert (Ep : set_pull_from p (Z.of_nat (length pre + length L + 0)) = p).
    { destruct p. unfold set_pull_from. cbn in *. f_equal. lia. }
    rewrite Ep, !app_nil_r.
    destruct fuel; cbn [pull_right]; rewrite E; reflexivity.
  - destruct fuel as [|fuel]; [cbn [length] in Hf; lia |].
    fit_bound Hfit Hbound.
    change (flat_right ((r, y) :: segs))
      with ((r ++ [y]) ++ flat_right segs) in *.
    lengths.
    pose proof (flat_right_length segs) as Hsegs.
    cbn [pull_right].
    replace (Z.of_nat (length G) <? Z.of_nat (length G + S (length segs)))
      with true by (symmetry; apply Z.ltb_lt; lia).
    rewrite Hto, Hfrom. unwrap_all.
    (* the item after the buffer *)
    destruct (r ++ [y]) as [|v tl] eqn:Ery;
      [destruct r; discriminate |].
    assert (Hlen_ry : (length r + 1 = 1 + length tl)%nat).
    { apply (f_equal (@length T)) in Ery. rewrite length_app in Ery.
      cbn [length] in Ery. lia. }
    replace (pre ++ L ++ G ++ ((v :: tl) ++ flat_right segs) ++ post)
      with ((pre ++ L ++ G) ++ v :: (tl ++ flat_right segs ++ post)) in *
      by (app_norm; reflexivity).
    rewrite (ptr_app size (pre ++ L ++ G) (tl ++ flat_right segs ++ post) v)
      by (auto; lengths; lia).
    replace ((pre ++ L ++ G) ++ v :: (tl ++ flat_right segs ++ post))
      with ((pre ++ L ++ G) ++ (v :: tl) ++ flat_right segs ++ post) in *
      by (app_norm; reflexivity).
    cbn [grouped_right fst snd] in Hg. destruct Hg as (Hr & _ & Hg').
    apply sorted_list_app in Hsorted; auto.
    destruct Hsorted as (Hs1 & Hs2 & _).
    rewrite <- Ery in Hs1.
    assert (Hv : In v (r ++ [y])) by (rewrite Ery; now left).
    destruct (FindLast_parts size compare (pre ++ L ++ G) (v :: tl)
                (flat_right segs) post v
                (Range_new (Z.of_nat (length pre + length L + length G))
                   (Z.of_nat (length pre + length L + length G
                              + (length r + 1 + length (flat_right segs)))))
                (Z.of_nat (length G + S (length segs)) - Z.of_nat (length G))
                (S fuel)) as [Hfind _];
      [ auto | | | cbn [start]; lengths; lia
      | cbn [end_ length]; lengths; lia | lia
      | cbn [length]; lia | ].
    { rewrite <- Ery. apply Forall_forall. intros z Hz.
      now apply (segment_equal_right compare Horder r y z v). }
    { apply (grouped_right_after compare Horder segs
               (before ++ r ++ [y])); auto.
      apply in_or_app. now right. }
    rewrite Hfind. cbn [bind start end_].
    replace ((pre ++ L ++ G) ++ (v :: tl) ++ flat_right segs ++ post)
      with ((pre ++ L) ++ G ++ r ++ ([y] ++ flat_right segs ++ post))
      by (rewrite <- Ery; app_norm; reflexivity).
    rewrite (Rotate_nocache (pre ++ L) G r ([y] ++ flat_right segs ++ post)
               (S fuel));
      [ | rewrite <- Ery in Hfit; app_norm; app_norm_in Hfit; exact Hfit
        | cbn [start]; lengths; lia
        | cbn [end_ length]; lengths; unwrap_all; lia
        | reflexivity | lia ].
    cbn [bind].
    replace ((pre ++ L) ++ r ++ G ++ [y] ++ flat_right segs ++ post)
      with (pre ++ (L ++ r) ++ (G ++ [y]) ++ flat_right segs ++ post)
      by (app_norm; reflexivity).
    lengths. unwrap_all.
    rewrite (IH (before ++ r ++ [y]) (L ++ r) (G ++ [y]));
      cbn [set_pull_from pull_to pull_from];
      [ | rewrite <- Ery in Hfit; eapply fits_length; [exact Hfit |];
          lengths; lia
        | exact Hs2 | exact Hg' | rewrite Hto; lengths; lia
        | lengths; lia | lengths; lia | lengths; lia | lengths; lia
        | lengths; lia ].
    cbn [flat_map map fst snd]. lengths.
    replace (length pre + (length L + length r)
             + length (flat_map fst segs))%nat
      with (length pre + length L
            + (length r + length (flat_map fst segs)))%nat by lia.
    app_norm. reflexivity.
Qed.
End PullOut.

(** * A run and the buffer pulled out of it *)

Section PulledLists.
Context {T : Type} (compare : Comparison T).
Hypothesis Horder : total_order compare.

Lemma sorted_list_remove (l1 l2 l3 : list T) :
  sorted_list compare (l1 ++ l2 ++ l3) -> sorted_list compare (l1 ++ l3).
Proof.
  intros H. apply sorted_list_app in H; auto. destruct H as (H1 & H23 & H123).
  apply sorted_list_app in H23; auto. destruct H23 as (H2 & H3 & _).
  apply sorted_list_app; auto. split; [exact H1 |]. split; [exact H3 |].
  eapply Forall_impl; [| exact H123]. intros z Hz. cbv beta in *.
  apply Forall_app in Hz. tauto.
Qed.

(* the first item of a sorted list goes first in a merge with its tail *)
Lemma merge_head (x : T) (X l : list T) :
  sorted_list compare (x :: l) ->
  merge compare (x :: X) l = x :: merge compare X l.
Proof.
  intros Hs. destruct l as [|y l]; [now rewrite !merge_nil_r |].
  rewrite merge_cons.
  pose proof (sorted_head_le compare Horder x y (y :: l) Hs
                ltac:(right; now left)) as Hxy.
  replace (compare y x >=? 0) with true; [reflexivity |].
  symmetry. apply Z.geb_le. flips Horder x y. lia.
Qed.

(* what is left of a run is sorted, also after a sorted prefix *)
Lemma pulled_left_sorted (segs : list (T * list T)) (x : T) (tail : list T) :
  forall l,
    sorted_list compare (l ++ flat segs ++ x :: tail) ->
    sorted_list compare (l ++ flat_map snd segs ++ tail).
Proof.
  induction segs as [|[x1 r1] segs IH]; intros l Hs.
  - cbn [flat flat_map app] in *.
    now apply (sorted_list_remove l [x] tail).
  - change (flat ((x1, r1) :: segs)) with ((x1 :: r1) ++ flat segs) in *.
    cbn [flat_map snd].
    replace (l ++ (r1 ++ flat_map snd segs) ++ tail)
      with ((l ++ r1) ++ flat_map snd segs ++ tail)
      by (app_norm; reflexivity).
    apply IH.
    replace ((l ++ r1) ++ flat segs ++ x :: tail)
      with (l ++ r1 ++ flat segs ++ x :: tail)
      by (app_norm; reflexivity).
    apply (sorted_list_remove l [x1] (r1 ++ flat segs ++ x :: tail)).
    app_norm. app_norm_in Hs. exact Hs.
Qed.

(** The run is the merge of the buffer pulled out at its start with what
    is left of it. *)
Lemma pulled_left_merge (segs : list (T * list T)) (x : T) (tail : list T) :
  sorted_list compare (flat segs ++ x :: tail) ->
  grouped compare segs (x :: tail) ->
  merge compare (map fst segs ++ [x]) (flat_map snd segs ++ tail)
  = flat segs ++ x :: tail.
Proof.
  induction segs as [|[x1 r1] segs IH]; intros Hs Hg.
  - cbn [map flat_map flat app]. rewrite merge_head by exact Hs.
    now rewrite merge_nil_l.
  - change (flat ((x1, r1) :: segs)) with ((x1 :: r1) ++ flat segs) in *.
    cbn [map flat_map fst snd app] in *.
    destruct Hg as (Hr & Hafter & Hg'). cbn [fst snd] in Hr, Hafter.
    rewrite merge_head.
    2:{ replace (x1 :: (r1 ++ flat_map snd segs) ++ tail)
          with ((x1 :: r1) ++ flat_map snd segs ++ tail)
          by (app_norm; reflexivity).
        apply (pulled_left_sorted segs x tail (x1 :: r1)).
        app_norm. app_norm_in Hs. exact Hs. }
    f_equal.
    destruct (map fst segs ++ [x]) as [|x2 X'] eqn:EX;
      [destruct (map fst segs); discriminate |].
    rewrite <- !app_assoc.
    rewrite (merge_below compare x2 X' r1).
    + rewrite IH; [reflexivity | | exact Hg'].
      rewrite <- app_assoc in Hs. cbn [app] in Hs.
      apply sorted_list_tail in Hs; auto.
      apply sorted_list_app in Hs; auto. tauto.
    + assert (Hx2 : In x2 (flat segs ++ x :: tail)).
      { destruct segs as [|[x2' r2] segs]; cbn [map app] in EX.
        - injection EX as <- _. now left.
        - injection EX as <- _. now left. }
      rewrite Forall_forall in Hafter. specialize (Hafter x2 Hx2).
      eapply Forall_impl; [| exact Hr]. intros z Hz. cbv beta in *.
      apply (compare_le_lt compare Horder z x1 x2); [| exact Hafter].
      flips Horder z x1. lia.
Qed.

Lemma pulled_left_strict (segs : list (T * list T)) (x : T) (tail : list T) :
  grouped compare segs (x :: tail) ->
  strictly_sorted compare (map fst segs ++ [x]).
Proof.
  unfold strictly_sorted.
  induction segs as [|[x1 r1] segs IH]; intros Hg.
  - repeat constructor.
  - cbn [grouped fst snd] in Hg. destruct Hg as (_ & Hafter & Hg').
    cbn [map fst app]. constructor; [auto |].
    rewrite Forall_forall in *. intros z Hz. apply Hafter.
    apply in_app_or in Hz. destruct Hz as [Hz | [<- | []]].
    + apply in_or_app. left. apply in_map_iff in Hz.
      destruct Hz as ([x2 r2] & <- & Hin). cbn [fst].
      unfold flat. apply in_flat_map. exists (x2, r2). split; [exact Hin |].
      now left.
    + apply in_or_app. right. now left.
Qed.


Lemma flat_map_fst_in (segs : list (list T * T)) (z : T) :
  In z (flat_map fst segs) -> In z (flat_right segs).
Proof.
  intros H. apply in_flat_map in H. destruct H as (s & Hs & Hz).
  unfold flat_right. apply in_flat_map. exists s. split; [exact Hs |].
  apply in_or_app. now left.
Qed.

Lemma map_snd_in (segs : list (list T * T)) (z : T) :
  In z (map snd segs) -> In z (flat_right segs).
Proof.
  intros H. apply in_map_iff in H. destruct H as (s & <- & Hs).
  unfold flat_right. apply in_flat_map. exists s. split; [exact Hs |].
  apply in_or_app. right. now left.
Qed.

Lemma sorted_list_later (l1 l2 : list T) (x y : T) :
  sorted_list compare (l1 ++ l2) -> In x l1 -> In y l2 -> compare x y <= 0.
Proof.
  intros Hs Hx Hy. apply sorted_list_app in Hs; auto.
  destruct Hs as (_ & _ & H). rewrite Forall_forall in H.
  specialize (H x Hx). rewrite Forall_forall in H. now apply H.
Qed.

Lemma pulled_right_merge_from (segs : list (list T * T)) :
  forall (before : list T) (y : T),
    grouped_right compare before segs -> In y before ->
    sorted_list compare (y :: flat_right segs) ->
    merge compare (flat_map fst segs) (y :: map snd segs)
    = y :: flat_right segs.
Proof.
  induction segs as [|[r1 y1] segs IH]; intros before y Hg Hy Hs.
  - reflexivity.
  - pose proof (grouped_right_after compare Horder _ before y Hg Hy) as Hafter.
    change (flat_right ((r1, y1) :: segs))
      with ((r1 ++ [y1]) ++ flat_right segs) in *.
    cbn [flat_map map fst snd].
    assert (Hstep : merge compare (r1 ++ flat_map fst segs)
                      (y :: y1 :: map snd segs)
                    = y :: merge compare (r1 ++ flat_map fst segs)
                             (y1 :: map snd segs)).
    { destruct (r1 ++ flat_map fst segs) as [|z F] eqn:EF;
        [now rewrite !merge_nil_l |].
      rewrite merge_cons.
      assert (Hz : In z ((r1 ++ [y1]) ++ flat_right segs)).
      { assert (Hin : In z (r1 ++ flat_map fst segs))
          by (rewrite EF; now left).
        apply in_app_or in Hin. destruct Hin as [Hin | Hin].
        - apply in_or_app. left. apply in_or_app. now left.
        - apply in_or_app. right. now apply flat_map_fst_in. }
      rewrite Forall_forall in Hafter. specialize (Hafter z Hz).
      replace (compare y z >=? 0) with false; [reflexivity |].
      symmetry. rewrite Z.geb_leb. apply Z.leb_gt. lia. }
    rewrite Hstep. f_equal.
    rewrite (merge_not_above compare r1).
    + cbn [grouped_right fst snd] in Hg. destruct Hg as (_ & _ & Hg').
      rewrite (IH (before ++ r1 ++ [y1]) y1); auto.
      * app_norm. reflexivity.
      * apply in_or_app. right. apply in_or_app. right. now left.
      * apply sorted_list_tail in Hs.
        rewrite <- app_assoc in Hs. apply sorted_list_app in Hs; auto.
        tauto.
    + apply sorted_list_tail in Hs. rewrite <- app_assoc in Hs.
      apply Forall_forall. intros x Hx. apply Forall_forall. intros y' Hy'.
      assert (compare x y' <= 0).
      { apply (sorted_list_later r1 ([y1] ++ flat_right segs)); auto.
        destruct Hy' as [<- | Hy']; [now left | right].
        now apply map_snd_in. }
      flips Horder x y'. lia.
Qed.

(** The run is the merge of what is left of it with the buffer pulled out
    at its end. *)
Lemma pulled_right_merge (front : list T) (y0 : T)
    (segs : list (list T * T)) :
  sorted_list compare (front ++ y0 :: flat_right segs) ->
  grouped_right compare (front ++ [y0]) segs ->
  merge compare (front ++ flat_map fst segs) (y0 :: map snd segs)
  = front ++ y0 :: flat_right segs.
Proof.
  intros Hs Hg.
  rewrite (merge_not_above compare front).
  - f_equal. apply (pulled_right_merge_from segs (front ++ [y0])); auto.
    + apply in_or_app. right. now left.
    + apply sorted_list_app in Hs; auto. tauto.
  - apply Forall_forall. intros x Hx. apply Forall_forall. intros y' Hy'.
    assert (compare x y' <= 0).
    { apply (sorted_list_later front (y0 :: flat_right segs)); auto.
      destruct Hy' as [<- | Hy']; [now left | right].
      now apply map_snd_in. }
    flips Horder x y'. lia.
Qed.

Lemma grouped_right_strict (segs : list (list T * T)) :
  forall before,
    grouped_right compare before segs ->
    strictly_sorted compare (map snd segs) /\
    Forall (fun y => Forall (fun z => compare z y < 0) before) (map snd segs).
Proof.
  unfold strictly_sorted.
  induction segs as [|[r1 y1] segs IH]; intros before Hg.
  - split; constructor.
  - cbn [grouped_right fst snd] in Hg. destruct Hg as (_ & Hb & Hg').
    destruct (IH _ Hg') as [Hs Hall]. cbn [map snd].
    split.
    + constructor; [exact Hs |].
      eapply Forall_impl; [| exact Hall]. intros y Hy. cbv beta in *.
      rewrite Forall_forall in Hy. apply Hy.
      apply in_or_app. right. apply in_or_app. right. now left.
    + constructor; [exact Hb |].
      eapply Forall_impl; [| exact Hall]. intros y Hy. cbv beta in *.
      apply Forall_app in Hy. tauto.
Qed.

Lemma pulled_right_strict (front : list T) (y0 : T)
    (segs : list (list T * T)) :
  grouped_right compare (front ++ [y0]) segs ->
  strictly_sorted compare (y0 :: map snd segs).
Proof.
  intros Hg. destruct (grouped_right_strict segs _ Hg) as [Hs Hall].
  constructor; [exact Hs |].
  eapply Forall_impl; [| exact Hall]. intros y Hy. cbv beta in *.
  rewrite Forall_forall in Hy. apply Hy. apply in_or_app. right. now left.
Qed.

Lemma pulled_right_sorted (segs : list (list T * T)) :
  forall l,
    sorted_list compare (l ++ flat_right segs) ->
    sorted_list compare (l ++ flat_map fst segs).
Proof.
  induction segs as [|[r1 y1] segs IH]; intros l Hs.
  - exact Hs.
  - change (flat_right ((r1, y1) :: segs))
      with ((r1 ++ [y1]) ++ flat_right segs) in *.
    cbn [flat_map fst].
    replace (l ++ r1 ++ flat_map fst segs)
      with ((l ++ r1) ++ flat_map fst segs) by (app_norm; reflexivity).
    apply IH.
    apply (sorted_list_remove (l ++ r1) [y1] (flat_right segs)).
    app_norm. app_norm_in Hs. exact Hs.
Qed.
End PulledLists.

(** * Redistributing an internal buffer *)

Section Redistribute.
Context {T : Type} (size : Z) (compare : Comparison T).
Hypothesis Horder : total_order compare.
#[local] Hint Extern 0 (Store (list _) _) =>
  exact (list_store size) : typeclass_instances.

(* the buffer [X] at the start of the range goes back into the sorted
   items [m] after it *)
Lemma redistribute_right_spec (post : list T) (p : Pull) :
  forall (X pre m : list T) (buffer : Range) (unique : Z) (fuel : nat),
    fits size (pre ++ X ++ m ++ post) ->
    sorted_list compare m ->
    start buffer = Z.of_nat (length pre) ->
    end_ buffer = Z.of_nat (length pre + length X) ->
    end_ (pull_range p) = Z.of_nat (length pre + length X + length m) ->
    2 * Z.of_nat (length X) <= unique < SIZE_MAX1 ->
    (length X + length m <= fuel)%nat ->
    redistribute_right fuel (pre ++ X ++ m ++ post) size compare [] 0 p
      buffer unique
    = Done (pre ++ merge compare X m ++ post, []).
Proof.
  induction X as [|x X IH];
    intros pre m buffer unique fuel Hfit Hm Hs He Hp Hu Hf.
  - fit_bound Hfit Hbound. lengths.
    cbn [app length] in *. rewrite merge_nil_l.
    assert (E : (Range_length buffer >? 0) = false).
    { unfold Range_length. rewrite Hs, He. rewrite sub_small by lia.
      rewrite Z.gtb_ltb. apply Z.ltb_ge. lia. }
    destruct fuel; cbn [redistribute_right]; rewrite E; reflexivity.
  - destruct fuel as [|fuel]; [cbn [length] in Hf; lia |].
    fit_bound Hfit Hbound. lengths.
    assert (HR : Range_length buffer = Z.of_nat (S (length X))).
    { unfold Range_length. rewrite Hs, He. rewrite sub_small by lia. lia. }
    cbn [redistribute_right]. rewrite HR.
    replace (Z.of_nat (S (length X)) >? 0) with true
      by (symmetry; rewrite Z.gtb_ltb; apply Z.ltb_lt; lia).
    rewrite Hs, He, Hp.
    replace (pre ++ (x :: X) ++ m ++ post) with (pre ++ x :: (X ++ m ++ post))
      in * by reflexivity.
    rewrite (ptr_app size pre (X ++ m ++ post) x) by auto.
    destruct (sorted_below_parts compare Horder x m Hm)
      as (m1 & m2 & -> & Hm1 & Hm2).
    lengths.
    replace (pre ++ x :: X ++ (m1 ++ m2) ++ post)
      with ((pre ++ x :: X) ++ m1 ++ m2 ++ post) in *
      by (app_norm; reflexivity).
    destruct (FindFirst_parts size compare (pre ++ x :: X) m1 m2 post x
                (Range_new (Z.of_nat (length pre + S (length X)))
                   (Z.of_nat (length pre + S (length X)
                              + (length m1 + length m2))))
                unique (S fuel)) as [Hfind _];
      [ auto | auto | auto | cbn [start]; lengths; lia
      | cbn [end_]; lengths; lia | lia | lia | ].
    rewrite Hfind. cbn [bind].
    replace ((pre ++ x :: X) ++ m1 ++ m2 ++ post)
      with (pre ++ (x :: X) ++ m1 ++ (m2 ++ post))
      by (app_norm; reflexivity).
    rewrite (Rotate_nocache size pre (x :: X) m1 (m2 ++ post) (S fuel));
      [ | app_norm; app_norm_in Hfit; exact Hfit
        | reflexivity | cbn [end_]; lengths; lia
        | reflexivity | cbn [length]; lia ].
    cbn [bind]. lengths. unwrap_all.
    replace (pre ++ m1 ++ (x :: X) ++ m2 ++ post)
      with ((pre ++ m1 ++ [x]) ++ X ++ m2 ++ post)
      by (app_norm; reflexivity).
    rewrite (IH (pre ++ m1 ++ [x]) m2);
      [ | eapply fits_length; [exact Hfit |]; lengths; lia
        | apply sorted_list_app in Hm; auto; tauto
        | cbn [start]; lengths; lia | cbn [end_]; lengths; lia
        | rewrite Hp; lengths; lia | lia | lia ].
    f_equal. f_equal.
    assert (Hxm2 : sorted_list compare (x :: m2)).
    { apply sorted_list_app in Hm; auto. destruct Hm as (_ & Hsm2 & _).
      constructor; [exact Hsm2 |].
      eapply Forall_impl; [| exact Hm2]. intros w Hw. cbv beta in *.
      flips Horder x w. lia. }
    destruct m1 as [|z m1].
    + cbn [app]. rewrite merge_head by auto.
      app_norm. reflexivity.
    + rewrite (merge_below compare x X (z :: m1) m2) by exact Hm1.
      rewrite merge_head by auto.
      app_norm. reflexivity.
Qed.

(* the buffer [Y] at the end of the range goes back into the sorted items
   [m] before it *)
Lemma redistribute_left_spec (pre : list T) (p : Pull) :
  forall (Y m post : list T) (buffer : Range) (unique : Z) (fuel : nat),
    fits size (pre ++ m ++ Y ++ post) ->
    sorted_list compare m -> sorted_list compare Y ->
    start (pull_range p) = Z.of_nat (length pre) ->
    start buffer = Z.of_nat (length pre + length m) ->
    end_ buffer = Z.of_nat (length pre + length m + length Y) ->
    2 * Z.of_nat (length Y) <= unique < SIZE_MAX1 ->
    (length Y + length m <= fuel)%nat ->
    redistribute_left fuel (pre ++ m ++ Y ++ post) size compare [] 0 p
      buffer unique
    = Done (pre ++ merge compare m Y ++ post, []).
Proof.
  induction Y as [|y Y IH] using rev_ind;
    intros m post buffer unique fuel Hfit Hm HY Hp Hs He Hu Hf.
  - fit_bound Hfit Hbound. lengths.
    cbn [app length] in *. rewrite merge_nil_r.
    assert (E : (Range_length buffer >? 0) = false).
    { unfold Range_length. rewrite Hs, He. rewrite sub_small by lia.
      rewrite Z.gtb_ltb. apply Z.ltb_ge. lia. }
    destruct fuel; cbn [redistribute_left]; rewrite E; reflexivity.
  - destruct fuel as [|fuel]; [lengths; lia |].
    fit_bound Hfit Hbound. lengths.
    assert (HR : Range_length buffer = Z.of_nat (length Y + 1)).
    { unfold Range_length. rewrite Hs, He. rewrite sub_small by lia. lia. }
    cbn [redistribute_left]. rewrite HR.
    replace (Z.of_nat (length Y + 1) >? 0) with true
      by (symmetry; rewrite Z.gtb_ltb; apply Z.ltb_lt; lia).
    rewrite Hs, He, Hp. unwrap_all.
    replace (pre ++ m ++ (Y ++ [y]) ++ post)
      with ((pre ++ m ++ Y) ++ y :: post) in *
      by (app_norm; reflexivity).
    rewrite (ptr_app size (pre ++ m ++ Y) post y) by (auto; lengths; lia).
    destruct (sorted_not_above_parts compare Horder y m Hm)
      as (m1 & m2 & -> & Hm1 & Hm2).
    lengths.
    replace ((pre ++ (m1 ++ m2) ++ Y) ++ y :: post)
      with (pre ++ m1 ++ m2 ++ ((Y ++ [y]) ++ post)) in *
      by (app_norm; reflexivity).
    destruct (FindLast_parts size compare pre m1 m2 ((Y ++ [y]) ++ post) y
                (Range_new (Z.of_nat (length pre))
                   (Z.of_nat (length pre + (length m1 + length m2))))
                unique (S fuel)) as [_ Hfind];
      [ auto | auto | auto | reflexivity
      | cbn [end_]; lia | lia | lia | ].
    rewrite Hfind. cbn [bind]. unwrap_all.
    replace (pre ++ m1 ++ m2 ++ (Y ++ [y]) ++ post)
      with ((pre ++ m1) ++ m2 ++ (Y ++ [y]) ++ post)
      by (app_norm; reflexivity).
    rewrite (Rotate_nocache size (pre ++ m1) m2 (Y ++ [y]) post (S fuel));
      [ | app_norm; app_norm_in Hfit; exact Hfit
        | cbn [start]; lengths; lia | cbn [end_]; lengths; lia
        | lia | lengths; lia ].
    cbn [bind].
    replace ((pre ++ m1) ++ (Y ++ [y]) ++ m2 ++ post)
      with (pre ++ m1 ++ Y ++ (y :: m2 ++ post))
      by (app_norm; reflexivity).
    apply sorted_list_app in HY; auto. destruct HY as (HsY & _ & HYy).
    apply sorted_list_app in Hm; auto. destruct Hm as (Hsm1 & Hsm2 & _).
    rewrite (IH m1 (y :: m2 ++ post));
      [ | eapply fits_length; [exact Hfit |]; lengths; lia
        | exact Hsm1 | exact HsY | exact Hp
        | cbn [start]; lia | cbn [end_]; lia | lia | lia ].
    f_equal. f_equal.
    rewrite (merge_app compare m1 m2 Y [y]).
    + rewrite <- app_assoc. f_equal.
      destruct m2 as [|x m2]; [reflexivity |].
      change [y] with ([y] ++ []) at 1.
      rewrite (merge_below compare x m2 [y] []).
      * rewrite merge_nil_r. reflexivity.
      * inversion Hm2; subst. constructor; [lia | constructor].
    + eapply Forall_impl; [| exact HYy]. intros y' Hy'. cbv beta in *.
      inversion Hy' as [|? ? Hle _]; subst.
      eapply Forall_impl; [| exact Hm2]. intros x Hx. cbv beta in *.
      apply (compare_le_lt compare Horder y' y x); assumption.
    + eapply Forall_impl; [| exact Hm1]. intros x Hx. cbv beta in *.
      constructor; [exact Hx | constructor].
Qed.
End Redistribute.

(** * An array with three windows: the ranges being merged and the two
      internal buffers *)

Lemma splice_comm_any {T : Type} (array : list T) (lo1 lo2 : Z)
    (w1 w2 : list T) :
  0 <= lo1 -> 0 <= lo2 ->
  lo1 + Z.of_nat (length w1) <= Z.of_nat (length array) ->
  lo2 + Z.of_nat (length w2) <= Z.of_nat (length array) ->
  lo1 + Z.of_nat (length w1) <= lo2 \/ lo2 + Z.of_nat (length w2) <= lo1 ->
  splice (splice array lo1 w1) lo2 w2 = splice (splice array lo2 w2) lo1 w1.
Proof.
  intros H1 H2 H3 H4 [H | H].
  - now apply splice_comm.
  - symmetry. now apply splice_comm.
Qed.

Section ThreeWindows.
Context {T : Type} (size : Z) (base : list T).
Context (r b1 b2 : Z) (nR n1 n2 : nat).
Hypothesis Hok : windows_ok size base r b1 b2 nR n1 n2.

Ltac ok := destruct Hok as (Hfit & Hr & Hb1 & Hb2 & Hr1 & Hr2 & H12).

#[local] Abbreviation arr := (three_windows base r b1 b2).

Lemma arr_length (R B1 B2 : list T) :
  length R = nR -> length B1 = n1 -> length B2 = n2 ->
  length (arr R B1 B2) = length base.
Proof.
  ok.
  intros HR H1 H2. unfold three_windows.
  assert (L1 : length (splice base r R) = length base)
    by (apply splice_length; lia).
  assert (L2 : length (splice (splice base r R) b1 B1) = length base)
    by (rewrite splice_length; lia).
  rewrite splice_length; lia.
Qed.

Lemma arr_fits (R B1 B2 : list T) :
  length R = nR -> length B1 = n1 -> length B2 = n2 ->
  fits size (arr R B1 B2).
Proof.
  ok.
  intros HR H1 H2. eapply fits_length; [exact Hfit |].
  now apply arr_length.
Qed.

Lemma arr_region_last (R B1 B2 : list T) :
  length R = nR -> length B1 = n1 -> length B2 = n2 ->
  arr R B1 B2 = splice (splice (splice base b1 B1) b2 B2) r R.
Proof.
  ok.
  intros HR H1 H2. unfold three_windows.
  rewrite (splice_comm_any base r b1 R B1) by lia.
  rewrite (splice_comm_any (splice base b1 B1) r b2 R B2);
    rewrite ?splice_length; try lia.
  reflexivity.
Qed.

Lemma arr_buf1_last (R B1 B2 : list T) :
  length R = nR -> length B1 = n1 -> length B2 = n2 ->
  arr R B1 B2 = splice (splice (splice base b2 B2) r R) b1 B1.
Proof.
  ok.
  intros HR H1 H2. unfold three_windows.
  rewrite (splice_comm_any (splice base r R) b1 b2 B1 B2);
    rewrite ?splice_length; try lia.
  rewrite (splice_comm_any base r b2 R B2) by lia.
  reflexivity.
Qed.

Lemma arr_buf2_last (R B1 B2 : list T) :
  length R = nR -> length B1 = n1 -> length B2 = n2 ->
  arr R B1 B2 = splice (splice (splice base b1 B1) r R) b2 B2.
Proof.
  ok.
  intros HR H1 H2. unfold three_windows.
  rewrite (splice_comm_any base r b1 R B1) by lia.
  reflexivity.
Qed.

(* the array around the ranges being merged *)
Lemma arr_region (B1 B2 : list T) :
  length B1 = n1 -> length B2 = n2 ->
  exists pre post,
    Z.of_nat (length pre) = r /\
    forall R, length R = nR -> arr R B1 B2 = pre ++ R ++ post.
Proof.
  ok.
  intros H1 H2.
  destruct (window_parts (splice (splice base b1 B1) b2 B2) r nR)
    as (pre & old & post & E & Hpre & Hold & _);
    rewrite ?splice_length; rewrite ?splice_length; try lia.
  exists pre, post. split; [exact Hpre |].
  intros R HR. rewrite arr_region_last by auto.
  rewrite E. apply splice_parts; lia.
Qed.

(* the array around the first buffer *)
Lemma arr_buf1 (R B2 : list T) :
  length R = nR -> length B2 = n2 ->
  exists pre post,
    Z.of_nat (length pre) = b1 /\
    forall B1, length B1 = n1 -> arr R B1 B2 = pre ++ B1 ++ post.
Proof.
  ok.
  intros HR H2.
  destruct (window_parts (splice (splice base b2 B2) r R) b1 n1)
    as (pre & old & post & E & Hpre & Hold & _);
    rewrite ?splice_length; rewrite ?splice_length; try lia.
  exists pre, post. split; [exact Hpre |].
  intros B1 H1. rewrite arr_buf1_last by auto.
  rewrite E. apply splice_parts; lia.
Qed.

(* the ranges being merged and the first buffer *)
Lemma arr_region_buf1 (B2 : list T) :
  length B2 = n2 ->
  exists bf p0 p1 p2,
    forall R B1, length R = nR -> length B1 = n1 ->
      arr R B1 B2 = two_windows bf p0 R p1 B1 p2 /\
      window_start bf p0 B1 p1 = r /\
      buffer_start bf p0 R p1 = b1.
Proof.
  ok.
  intros H2.
  destruct (splice_two_windows (splice base b2 B2) r b1 nR n1)
    as (bf & p0 & p1 & p2 & H); rewrite ?splice_length; try lia.
  exists bf, p0, p1, p2. intros R B1 HR H1.
  rewrite arr_buf1_last by auto. now apply H.
Qed.

(* the ranges being merged and the second buffer *)
Lemma arr_region_buf2 (B1 : list T) :
  length B1 = n1 ->
  exists bf p0 p1 p2,
    forall R B2, length R = nR -> length B2 = n2 ->
      arr R B1 B2 = two_windows bf p0 R p1 B2 p2 /\
      window_start bf p0 B2 p1 = r /\
      buffer_start bf p0 R p1 = b2.
Proof.
  ok.
  intros H1.
  destruct (splice_two_windows (splice base b1 B1) r b2 nR n2)
    as (bf & p0 & p1 & p2 & H); rewrite ?splice_length; try lia.
  exists bf, p0, p1, p2. intros R B2 HR H2.
  rewrite arr_buf2_last by auto. now apply H.
Qed.
End ThreeWindows.

(** * The A blocks and their tags *)

Lemma flat_uniform {T : Type} (bs : nat) (blocks : list (T * list T)) :
  Forall (fun e => S (length (snd e)) = bs) blocks ->
  length (flat blocks) = (bs * length blocks)%nat.
Proof.
  induction 1 as [|e blocks He _ IH]; [cbn; lia |].
  change (flat (e :: blocks)) with ((fst e :: snd e) ++ flat blocks).
  rewrite length_app. cbn [length]. rewrite IH, He. lia.
Qed.

Lemma flat_nth_first {T : Type} (bs : nat) (blocks : list (T * list T)) :
  Forall (fun e => S (length (snd e)) = bs) blocks ->
  forall (i : nat) (e : T * list T),
    nth_error blocks i = Some e ->
    nth_error (flat blocks) (bs * i) = Some (fst e).
Proof.
  induction 1 as [|e0 blocks He _ IH]; intros i e Hi.
  - destruct i; discriminate.
  - change (flat (e0 :: blocks)) with ((fst e0 :: snd e0) ++ flat blocks).
    destruct i as [|i].
    + injection Hi as <-. rewrite Nat.mul_0_r. reflexivity.
    + cbn [nth_error] in Hi.
      rewrite nth_error_app2 by (cbn [length]; nia).
      replace (bs * S i - length (fst e0 :: snd e0))%nat with (bs * i)%nat
        by (cbn [length]; nia).
      now apply IH.
Qed.

Section Across.
Context {T : Type} (size : Z).
#[local] Hint Extern 0 (Store (list _) _) =>
  exact (list_store size) : typeclass_instances.

(* as [across_Swap], the item of the buffer being named first *)
Lemma across_Swap_buffer_first (bf : bool) (p0 p1 p2 u v s t : list T)
    (x y : T) (i j : Z) :
  fits size (two_windows bf p0 (u ++ x :: v) p1 (s ++ y :: t) p2) ->
  i = window_start bf p0 (s ++ y :: t) p1 + Z.of_nat (length u) ->
  j = buffer_start bf p0 (u ++ x :: v) p1 + Z.of_nat (length s) ->
  Swap (two_windows bf p0 (u ++ x :: v) p1 (s ++ y :: t) p2)
    (size *% j) (size *% i) size
  = Some (two_windows bf p0 (u ++ y :: v) p1 (s ++ x :: t) p2).
Proof.
  intros Hfit -> ->.
  destruct bf; unfold two_windows, window_start, buffer_start in *.
  - replace (p0 ++ (s ++ y :: t) ++ p1 ++ (u ++ x :: v) ++ p2)
      with ((p0 ++ s) ++ y :: (t ++ p1 ++ u) ++ x :: (v ++ p2))
      in * by (app_norm; reflexivity).
    replace (p0 ++ (s ++ x :: t) ++ p1 ++ (u ++ y :: v) ++ p2)
      with ((p0 ++ s) ++ x :: (t ++ p1 ++ u) ++ y :: (v ++ p2))
      by (app_norm; reflexivity).
    eapply proj1; apply Swap_app; auto; lengths; lia.
  - replace (p0 ++ (u ++ x :: v) ++ p1 ++ (s ++ y :: t) ++ p2)
      with ((p0 ++ u) ++ x :: (v ++ p1 ++ s) ++ y :: (t ++ p2))
      in * by (app_norm; reflexivity).
    replace (p0 ++ (u ++ y :: v) ++ p1 ++ (s ++ x :: t) ++ p2)
      with ((p0 ++ u) ++ y :: (v ++ p1 ++ s) ++ x :: (t ++ p2))
      by (app_norm; reflexivity).
    eapply proj2; apply Swap_app; auto; lengths; lia.
Qed.

(* as [across_BlockSwap], the block of the first window being named first *)
Lemma across_BlockSwap_window_first (bf : bool)
    (p0 p1 p2 u l1 v s l2 t : list T) (i j n : Z) (fuel : nat) :
  fits size (two_windows bf p0 (u ++ l1 ++ v) p1 (s ++ l2 ++ t) p2) ->
  length l1 = length l2 ->
  i = window_start bf p0 (s ++ l2 ++ t) p1 + Z.of_nat (length u) ->
  j = buffer_start bf p0 (u ++ l1 ++ v) p1 + Z.of_nat (length s) ->
  n = Z.of_nat (length l1) ->
  (length l1 <= fuel)%nat ->
  BlockSwap fuel (two_windows bf p0 (u ++ l1 ++ v) p1 (s ++ l2 ++ t) p2)
    size i j n
  = Done (two_windows bf p0 (u ++ l2 ++ v) p1 (s ++ l1 ++ t) p2).
Proof.
  intros Hfit Hlen -> -> -> Hf.
  destruct bf; unfold two_windows, window_start, buffer_start in *.
  - replace (p0 ++ (s ++ l2 ++ t) ++ p1 ++ (u ++ l1 ++ v) ++ p2)
      with ((p0 ++ s) ++ l2 ++ (t ++ p1 ++ u) ++ l1 ++ (v ++ p2))
      in * by (app_norm; reflexivity).
    replace (p0 ++ (s ++ l1 ++ t) ++ p1 ++ (u ++ l2 ++ v) ++ p2)
      with ((p0 ++ s) ++ l1 ++ (t ++ p1 ++ u) ++ l2 ++ (v ++ p2))
      by (app_norm; reflexivity).
    eapply proj2; apply BlockSwap_spec; auto; lengths; lia.
  - replace (p0 ++ (u ++ l1 ++ v) ++ p1 ++ (s ++ l2 ++ t) ++ p2)
      with ((p0 ++ u) ++ l1 ++ (v ++ p1 ++ s) ++ l2 ++ (t ++ p2))
      in * by (app_norm; reflexivity).
    replace (p0 ++ (u ++ l2 ++ v) ++ p1 ++ (s ++ l1 ++ t) ++ p2)
      with ((p0 ++ u) ++ l2 ++ (v ++ p1 ++ s) ++ l1 ++ (t ++ p2))
      by (app_norm; reflexivity).
    eapply proj1; apply BlockSwap_spec; auto; lengths; lia.
Qed.

(** Tagging: the first item of each block changes places with an item of
    the first buffer. *)
Lemma tag_blocks_spec (bf : bool) (p0 p1 p2 Rpost Ur : list T) (bs : nat)
    (ws bstart blockA_end : Z) :
  forall (blocks : list (T * list T)) (tags Rpre Ud : list T)
         (indexA index : Z) (fuel : nat),
    fits size (two_windows bf p0 (Rpre ++ flat blocks ++ Rpost) p1
                 (Ud ++ tags ++ Ur) p2) ->
    ws = window_start bf p0 (Ud ++ tags ++ Ur) p1 ->
    bstart = buffer_start bf p0 (Rpre ++ flat blocks ++ Rpost) p1 ->
    Forall (fun e => S (length (snd e)) = bs) blocks ->
    length tags = length blocks ->
    indexA = bstart + Z.of_nat (length Ud) ->
    index = ws + Z.of_nat (length Rpre) ->
    blockA_end = ws + Z.of_nat (length Rpre + length (flat blocks)) ->
    (length blocks <= fuel)%nat ->
    tag_blocks fuel
      (two_windows bf p0 (Rpre ++ flat blocks ++ Rpost) p1
         (Ud ++ tags ++ Ur) p2)
      size (Z.of_nat bs) blockA_end indexA index
    = Done (two_windows bf p0
              (Rpre ++ flat (combine tags (map snd blocks)) ++ Rpost) p1
              (Ud ++ map fst blocks ++ Ur) p2).
Proof.
  induction blocks as [|[f t] blocks IH];
    intros tags Rpre Ud indexA index fuel Hfit Hws Hbs Hu Hlen -> -> -> Hf.
  - destruct tags; [| discriminate].
    cbn [flat flat_map app length combine map] in *.
    assert (E : (ws + Z.of_nat (length Rpre)
                 <? ws + Z.of_nat (length Rpre + 0)) = false)
      by (apply Z.ltb_ge; lia).
    destruct fuel; cbn [tag_blocks]; rewrite E; reflexivity.
  - destruct tags as [|u tags]; [discriminate |].
    destruct fuel as [|fuel]; [cbn [length] in Hf; lia |].
    change (flat ((f, t) :: blocks)) with ((f :: t) ++ flat blocks) in *.
    cbn [combine map fst snd].
    change (flat ((u, t) :: combine tags (map snd blocks)))
      with ((u :: t) ++ flat (combine tags (map snd blocks))).
    pose proof (Forall_inv Hu) as Ht. pose proof (Forall_inv_tail Hu) as Hu'.
    cbn [snd] in Ht.
    fit_bound Hfit Hbound. rewrite two_windows_length in Hbound.
    pose proof (window_start_bounds bf p0
                  (Rpre ++ ((f :: t) ++ flat blocks) ++ Rpost) p1
                  (Ud ++ (u :: tags) ++ Ur) p2) as Hwb.
    pose proof (buffer_start_bounds bf p0
                  (Rpre ++ ((f :: t) ++ flat blocks) ++ Rpost) p1
                  (Ud ++ (u :: tags) ++ Ur) p2) as Hbb.
    rewrite two_windows_length in Hwb, Hbb. lengths.
    rewrite <- Hws in Hwb. rewrite <- Hbs in Hbb.
    cbn [tag_blocks].
    replace (ws + Z.of_nat (length Rpre)
             <? ws + Z.of_nat (length Rpre
                               + (S (length t) + length (flat blocks))))
      with true by (symmetry; apply Z.ltb_lt; lia).
    replace (Rpre ++ ((f :: t) ++ flat blocks) ++ Rpost)
      with (Rpre ++ f :: (t ++ flat blocks ++ Rpost)) in *
      by (app_norm; reflexivity).
    replace (Ud ++ (u :: tags) ++ Ur) with (Ud ++ u :: (tags ++ Ur)) in *
      by reflexivity.
    rewrite (across_Swap_buffer_first bf p0 p1 p2 Rpre
               (t ++ flat blocks ++ Rpost) Ud (tags ++ Ur) f u);
      [ | exact Hfit | rewrite Hws; reflexivity | rewrite Hbs; reflexivity ].
    cbn [lift bind].
    replace (Rpre ++ u :: t ++ flat blocks ++ Rpost)
      with ((Rpre ++ u :: t) ++ flat blocks ++ Rpost)
      by (app_norm; reflexivity).
    replace (Ud ++ f :: tags ++ Ur) with ((Ud ++ [f]) ++ tags ++ Ur)
      by (app_norm; reflexivity).
    unwrap_all.
    rewrite (IH tags (Rpre ++ u :: t) (Ud ++ [f]));
      [ app_norm; reflexivity
      | eapply two_windows_fits; [exact Hfit | lengths; lia ..]
      | rewrite Hws; apply window_start_length; lengths; lia
      | rewrite Hbs; apply buffer_start_length; lengths; lia
      | exact Hu' | cbn [length] in Hlen; lia
      | lengths; lia | lengths; lia | lengths; lia
      | cbn [length] in Hf; lia ].
Qed.

(* the first item of the block of index [i] *)
Lemma block_ptr (pre post : list T) (bs : nat) (tb : list (T * list T))
    (i : nat) (e : T * list T) :
  fits size (pre ++ flat tb ++ post) ->
  Forall (fun e => S (length (snd e)) = bs) tb ->
  nth_error tb i = Some e ->
  ptr (pre ++ flat tb ++ post) (size *% Z.of_nat (length pre + bs * i))
  = Some (fst e).
Proof.
  intros Hfit Hu Hi.
  pose proof (flat_nth_first bs tb Hu i e Hi) as Hn.
  assert (Hlt : (bs * i < length (flat tb))%nat).
  { apply nth_error_Some. rewrite Hn. discriminate. }
  rewrite ptr_nth; [| exact Hfit | lengths; lia].
  rewrite Nat2Z.id.
  rewrite nth_error_app2 by lia.
  replace (length pre + bs * i - length pre)%nat with (bs * i)%nat by lia.
  rewrite nth_error_app1 by lia. exact Hn.
Qed.
End Across.

Section FindMin.
Context {T : Type} (size : Z) (compare : Comparison T).
Hypothesis Horder : total_order compare.
#[local] Hint Extern 0 (Store (list _) _) =>
  exact (list_store size) : typeclass_instances.

(** The linear search finds the block whose tag compares below all other
    tags. *)
Lemma find_minA_spec (pre post : list T) (bs : nat) (tb : list (T * list T))
    (k0 : nat) (u : T) (t : list T) :
  fits size (pre ++ flat tb ++ post) ->
  Forall (fun e => S (length (snd e)) = bs) tb ->
  nth_error tb k0 = Some (u, t) ->
  (forall i e, i <> k0 -> nth_error tb i = Some e -> compare u (fst e) < 0) ->
  forall (fuel im k : nat),
    (im < k)%nat -> (k <= length tb)%nat -> ((k0 < k)%nat -> im = k0) ->
    (length tb - k <= fuel)%nat ->
    find_minA fuel (pre ++ flat tb ++ post) size compare (Z.of_nat bs)
      (Z.of_nat (length pre + bs * length tb))
      (Z.of_nat (length pre + bs * im)) (Z.of_nat (length pre + bs * k))
    = Done (Z.of_nat (length pre + bs * k0)).
Proof.
  intros Hfit Hu Hk0 Hmin.
  fit_bound Hfit Hbound. lengths.
  rewrite (flat_uniform bs tb Hu) in Hbound.
  assert (Hbs : (1 <= bs)%nat).
  { destruct tb as [|e tb]; [destruct k0; discriminate |].
    pose proof (Forall_inv Hu). cbv beta in *. lia. }
  assert (Hk0lt : (k0 < length tb)%nat).
  { apply nth_error_Some. rewrite Hk0. discriminate. }
  induction fuel as [|fuel IH]; intros im k Him Hk Hfound Hf.
  - assert (k = length tb) by lia. subst k.
    assert (E : (Z.of_nat (length pre + bs * length tb)
                 <? Z.of_nat (length pre + bs * length tb)) = false)
      by (apply Z.ltb_ge; lia).
    cbn [find_minA]. rewrite E. do 2 f_equal. rewrite (Hfound Hk0lt). lia.
  - cbn [find_minA].
    destruct (Nat.eq_dec k (length tb)) as [-> | Hne].
    { replace (Z.of_nat (length pre + bs * length tb)
               <? Z.of_nat (length pre + bs * length tb)) with false
        by (symmetry; apply Z.ltb_ge; lia).
      do 2 f_equal. rewrite (Hfound Hk0lt). lia. }
    replace (Z.of_nat (length pre + bs * k)
             <? Z.of_nat (length pre + bs * length tb)) with true
      by (symmetry; apply Z.ltb_lt; nia).
    destruct (nth_error tb k) as [ek|] eqn:Ek;
      [| apply nth_error_None in Ek; lia].
    destruct (nth_error tb im) as [em|] eqn:Em;
      [| apply nth_error_None in Em; lia].
    rewrite (block_ptr size pre post bs tb k ek) by auto.
    rewrite (block_ptr size pre post bs tb im em) by auto.
    cbn [call bind].
    assert (Hnext : Z.of_nat (length pre + bs * k) +% Z.of_nat bs
                    = Z.of_nat (length pre + bs * S k)).
    { unwrap_all. 
      rewrite add_small by (rewrite ?SIZE_MAX1_eq in *; nia). nia. }
    rewrite Hnext.
    destruct (compare (fst ek) (fst em) <? 0) eqn:Ec.
    + apply IH; try lia.
      intros Hlt. destruct (Nat.eq_dec k k0) as [E | E]; [exact E |].
      exfalso. assert (Him0 : im = k0) by (apply Hfound; lia). subst im.
      rewrite Hk0 in Em. injection Em as <-. cbn [fst] in Ec.
      apply Z.ltb_lt in Ec.
      pose proof (Hmin k ek E Ek). flips Horder u (fst ek). lia.
    + apply IH; try lia.
      intros Hlt. destruct (Nat.eq_dec k k0) as [E | E].
      * exfalso. subst k. rewrite Hk0 in Ek. injection Ek as <-.
        cbn [fst] in Ec. apply Z.ltb_ge in Ec.
        assert (im <> k0) by lia.
        pose proof (Hmin im em H Em). lia.
      * apply Hfound. lia.
Qed.
End FindMin.

(** * The operations of the block merge on the three windows *)

(* a window inside the first of two windows *)
Lemma two_windows_inner {T : Type} (bf : bool) (p0 p1 p2 u v : list T) :
  exists q0 q1 q2,
    forall W B,
      two_windows bf p0 (u ++ W ++ v) p1 B p2 = two_windows bf q0 W q1 B q2 /\
      window_start bf q0 B q1
        = window_start bf p0 B p1 + Z.of_nat (length u) /\
      buffer_start bf q0 W q1 = buffer_start bf p0 (u ++ W ++ v) p1.
Proof.
  destruct bf; unfold two_windows, window_start, buffer_start.
  - exists p0, (p1 ++ u), (v ++ p2). intros W B.
    split; [app_norm; reflexivity |]. split; lengths; lia.
  - exists (p0 ++ u), (v ++ p1), p2. intros W B.
    split; [app_norm; reflexivity |]. split; lengths; lia.
Qed.

Section ArrOps.
Context {T : Type} (size : Z) (compare : Comparison T).
Context (base : list T) (r b1 b2 : Z) (nR n1 n2 : nat).
Hypothesis Hok : windows_ok size base r b1 b2 nR n1 n2.
#[local] Hint Extern 0 (Store (list _) _) =>
  exact (list_store size) : typeclass_instances.

#[local] Abbreviation arr := (three_windows base r b1 b2).

Lemma arr_ptr_region (u v : list T) (x : T) (B1 B2 : list T) (i : Z) :
  length (u ++ x :: v) = nR -> length B1 = n1 -> length B2 = n2 ->
  i = r + Z.of_nat (length u) ->
  ptr (arr (u ++ x :: v) B1 B2) (size *% i) = Some x.
Proof.
  intros HR H1 H2 ->.
  pose proof (arr_fits size base r b1 b2 nR n1 n2 Hok _ B1 B2 HR H1 H2)
    as Hfit.
  destruct (arr_region size base r b1 b2 nR n1 n2 Hok B1 B2 H1 H2)
    as (pre & post & Hpre & Harr).
  rewrite (Harr _ HR) in *.
  replace (pre ++ (u ++ x :: v) ++ post) with ((pre ++ u) ++ x :: (v ++ post))
    in * by (app_norm; reflexivity).
  apply ptr_app; auto. lengths. lia.
Qed.

Lemma arr_ptr_buf1 (R u v : list T) (x : T) (B2 : list T) (i : Z) :
  length R = nR -> length (u ++ x :: v) = n1 -> length B2 = n2 ->
  i = b1 + Z.of_nat (length u) ->
  ptr (arr R (u ++ x :: v) B2) (size *% i) = Some x.
Proof.
  intros HR H1 H2 ->.
  pose proof (arr_fits size base r b1 b2 nR n1 n2 Hok R _ B2 HR H1 H2)
    as Hfit.
  destruct (arr_buf1 size base r b1 b2 nR n1 n2 Hok R B2 HR H2)
    as (pre & post & Hpre & Harr).
  rewrite (Harr _ H1) in *.
  replace (pre ++ (u ++ x :: v) ++ post) with ((pre ++ u) ++ x :: (v ++ post))
    in * by (app_norm; reflexivity).
  apply ptr_app; auto. lengths. lia.
Qed.

Lemma arr_BinaryFirst (u l1 l2 v B1 B2 : list T) (x : T) (range : Range)
    (fuel : nat) :
  length (u ++ l1 ++ l2 ++ v) = nR -> length B1 = n1 -> length B2 = n2 ->
  Forall (fun y => compare y x < 0) l1 ->
  Forall (fun y => compare y x >= 0) l2 ->
  start range = r + Z.of_nat (length u) ->
  end_ range = r + Z.of_nat (length u + length l1 + length l2) ->
  (length l1 + length l2 <= fuel)%nat ->
  BinaryFirst fuel (arr (u ++ l1 ++ l2 ++ v) B1 B2) (Some x) size range
    compare
  = Done (r + Z.of_nat (length u + length l1)).
Proof.
  intros HR H1 H2 Hl1 Hl2 Hs He Hf.
  pose proof (arr_fits size base r b1 b2 nR n1 n2 Hok _ B1 B2 HR H1 H2)
    as Hfit.
  destruct (arr_region size base r b1 b2 nR n1 n2 Hok B1 B2 H1 H2)
    as (pre & post & Hpre & Harr).
  rewrite (Harr _ HR) in *.
  replace (pre ++ (u ++ l1 ++ l2 ++ v) ++ post)
    with ((pre ++ u) ++ l1 ++ l2 ++ (v ++ post)) in *
    by (app_norm; reflexivity).
  rewrite (BinaryFirst_parts size compare (pre ++ u) l1 l2 (v ++ post) x
             range fuel); auto; lengths; try lia.
  f_equal. lia.
Qed.

Lemma arr_find_minA (Horder : total_order compare)
    (u v B1 B2 : list T) (bs : nat) (tb : list (T * list T))
    (k0 : nat) (tag : T) (t : list T) (fuel : nat) :
  length (u ++ flat tb ++ v) = nR -> length B1 = n1 -> length B2 = n2 ->
  Forall (fun e => S (length (snd e)) = bs) tb ->
  nth_error tb k0 = Some (tag, t) ->
  (forall i e, i <> k0 -> nth_error tb i = Some e ->
     compare tag (fst e) < 0) ->
  (length tb <= fuel)%nat ->
  find_minA fuel (arr (u ++ flat tb ++ v) B1 B2) size compare (Z.of_nat bs)
    (r + Z.of_nat (length u + bs * length tb))
    (r + Z.of_nat (length u))
    (r + Z.of_nat (length u) +% Z.of_nat bs)
  = Done (r + Z.of_nat (length u + bs * k0)).
Proof.
  intros HR H1 H2 Hu Hk0 Hmin Hf.
  pose proof (arr_fits size base r b1 b2 nR n1 n2 Hok _ B1 B2 HR H1 H2)
    as Hfit.
  destruct (arr_region size base r b1 b2 nR n1 n2 Hok B1 B2 H1 H2)
    as (pre & post & Hpre & Harr).
  rewrite (Harr _ HR) in *.
  replace (pre ++ (u ++ flat tb ++ v) ++ post)
    with ((pre ++ u) ++ flat tb ++ (v ++ post)) in *
    by (app_norm; reflexivity).
  fit_bound Hfit Hbound. lengths.
  rewrite (flat_uniform bs tb Hu) in *.
  assert (Hk0lt : (k0 < length tb)%nat).
  { apply nth_error_Some. rewrite Hk0. discriminate. }
  pose proof (find_minA_spec size compare Horder (pre ++ u) (v ++ post) bs tb
                k0 tag t Hfit Hu Hk0 Hmin fuel 0 1) as Hrun.
  lengths. rewrite Nat.mul_0_r, Nat.mul_1_r, Nat.add_0_r in Hrun.
  replace (r + Z.of_nat (length u + bs * length tb))
    with (Z.of_nat (length pre + length u + bs * length tb)) by lia.
  replace (r + Z.of_nat (length u)) with (Z.of_nat (length pre + length u))
    by lia.
  replace (Z.of_nat (length pre + length u) +% Z.of_nat bs)
    with (Z.of_nat (length pre + length u + bs))
    by (rewrite add_small by (rewrite ?SIZE_MAX1_eq in *; nia); lia).
  rewrite Hrun; [f_equal; lia | lia | lia | lia | lia].
Qed.

(* two blocks of the ranges being merged change places *)
Lemma arr_BlockSwap (p l1 m l2 q B1 B2 : list T) (lo hi n : Z)
    (fuel : nat) :
  length (p ++ l1 ++ m ++ l2 ++ q) = nR -> length B1 = n1 -> length B2 = n2 ->
  length l1 = length l2 ->
  lo = r + Z.of_nat (length p) ->
  hi = r + Z.of_nat (length p + length l1 + length m) ->
  n = Z.of_nat (length l1) ->
  (length l1 <= fuel)%nat ->
  BlockSwap fuel (arr (p ++ l1 ++ m ++ l2 ++ q) B1 B2) size lo hi n
    = Done (arr (p ++ l2 ++ m ++ l1 ++ q) B1 B2) /\
  BlockSwap fuel (arr (p ++ l1 ++ m ++ l2 ++ q) B1 B2) size hi lo n
    = Done (arr (p ++ l2 ++ m ++ l1 ++ q) B1 B2).
Proof.
  intros HR H1 H2 Hl -> -> -> Hf.
  pose proof (arr_fits size base r b1 b2 nR n1 n2 Hok _ B1 B2 HR H1 H2)
    as Hfit.
  destruct (arr_region size base r b1 b2 nR n1 n2 Hok B1 B2 H1 H2)
    as (pre & post & Hpre & Harr).
  assert (HR' : length (p ++ l2 ++ m ++ l1 ++ q) = nR)
    by (rewrite <- HR; lengths; lia).
  rewrite (Harr _ HR) in *. rewrite (Harr _ HR').
  replace (pre ++ (p ++ l1 ++ m ++ l2 ++ q) ++ post)
    with ((pre ++ p) ++ l1 ++ m ++ l2 ++ (q ++ post)) in *
    by (app_norm; reflexivity).
  replace (pre ++ (p ++ l2 ++ m ++ l1 ++ q) ++ post)
    with ((pre ++ p) ++ l2 ++ m ++ l1 ++ (q ++ post))
    by (app_norm; reflexivity).
  apply BlockSwap_spec; auto; lengths; lia.
Qed.

Lemma arr_BlockSwap_self (R B1 B2 : list T) (lo n : Z) (fuel : nat) :
  length R = nR -> length B1 = n1 -> length B2 = n2 ->
  r <= lo -> 0 <= n -> lo + n <= r + Z.of_nat nR ->
  (Z.to_nat n <= fuel)%nat ->
  BlockSwap fuel (arr R B1 B2) size lo lo n = Done (arr R B1 B2).
Proof.
  intros HR H1 H2 Hlo Hn Hhi Hf.
  pose proof (arr_fits size base r b1 b2 nR n1 n2 Hok _ B1 B2 HR H1 H2)
    as Hfit.
  pose proof (arr_length size base r b1 b2 nR n1 n2 Hok _ B1 B2 HR H1 H2)
    as Hlen.
  destruct Hok as (_ & Hr & _).
  apply BlockSwap_self; auto; lia.
Qed.

(* an item of the ranges being merged and one of the first buffer *)
Lemma arr_Swap_buf1 (u v s t B2 : list T) (x y : T) (i j : Z) :
  length (u ++ x :: v) = nR -> length (s ++ y :: t) = n1 -> length B2 = n2 ->
  i = r + Z.of_nat (length u) -> j = b1 + Z.of_nat (length s) ->
  Swap (arr (u ++ x :: v) (s ++ y :: t) B2) (size *% i) (size *% j) size
  = Some (arr (u ++ y :: v) (s ++ x :: t) B2).
Proof.
  intros HR H1 H2 -> ->.
  pose proof (arr_fits size base r b1 b2 nR n1 n2 Hok _ _ B2 HR H1 H2)
    as Hfit.
  destruct (arr_region_buf1 size base r b1 b2 nR n1 n2 Hok B2 H2)
    as (bf & p0 & p1 & p2 & Harr).
  destruct (Harr _ _ HR H1) as (E & Hws & Hbs).
  assert (HR' : length (u ++ y :: v) = nR) by (rewrite <- HR; lengths; lia).
  assert (H1' : length (s ++ x :: t) = n1) by (rewrite <- H1; lengths; lia).
  destruct (Harr _ _ HR' H1') as (E' & _ & _).
  rewrite E in *. rewrite E'.
  apply across_Swap; auto; lia.
Qed.

(* a block of the ranges being merged and one of the second buffer *)
Lemma arr_BlockSwap_buf2 (u l1 v s l2 t B1 : list T) (i j n : Z)
    (fuel : nat) :
  length (u ++ l1 ++ v) = nR -> length B1 = n1 ->
  length (s ++ l2 ++ t) = n2 ->
  length l1 = length l2 ->
  i = r + Z.of_nat (length u) -> j = b2 + Z.of_nat (length s) ->
  n = Z.of_nat (length l1) -> (length l1 <= fuel)%nat ->
  BlockSwap fuel (arr (u ++ l1 ++ v) B1 (s ++ l2 ++ t)) size i j n
  = Done (arr (u ++ l2 ++ v) B1 (s ++ l1 ++ t)).
Proof.
  intros HR H1 H2 Hl -> -> -> Hf.
  pose proof (arr_fits size base r b1 b2 nR n1 n2 Hok _ B1 _ HR H1 H2)
    as Hfit.
  destruct (arr_region_buf2 size base r b1 b2 nR n1 n2 Hok B1 H1)
    as (bf & p0 & p1 & p2 & Harr).
  destruct (Harr _ _ HR H2) as (E & Hws & Hbs).
  assert (HR' : length (u ++ l2 ++ v) = nR) by (rewrite <- HR; lengths; lia).
  assert (H2' : length (s ++ l1 ++ t) = n2) by (rewrite <- H2; lengths; lia).
  destruct (Harr _ _ HR' H2') as (E' & _ & _).
  rewrite E in *. rewrite E'.
  apply across_BlockSwap_window_first; auto; lia.
Qed.

(* the merge through the second buffer *)
Lemma arr_MergeInternal (u junk a b v rest B1 : list T)
    (A B buffer : Range) (fuel : nat) :
  length (u ++ (junk ++ b) ++ v) = nR -> length B1 = n1 ->
  length (a ++ rest) = n2 ->
  length junk = length a ->
  start A = r + Z.of_nat (length u) ->
  end_ A = start A + Z.of_nat (length a) ->
  start B = end_ A ->
  end_ B = start B + Z.of_nat (length b) ->
  start buffer = b2 ->
  (length a + length b <= fuel)%nat ->
  exists junk',
    MergeInternal fuel (arr (u ++ (junk ++ b) ++ v) B1 (a ++ rest)) size A B
      compare buffer
    = Done (arr (u ++ merge compare a b ++ v) B1 (junk' ++ rest)) /\
    Permutation junk junk'.
Proof.
  intros HR H1 H2 Hj HsA HeA HsB HeB Hsb Hf.
  pose proof (arr_fits size base r b1 b2 nR n1 n2 Hok _ B1 _ HR H1 H2)
    as Hfit.
  destruct (arr_region_buf2 size base r b1 b2 nR n1 n2 Hok B1 H1)
    as (bf & p0 & p1 & p2 & Harr).
  destruct (Harr _ _ HR H2) as (E & Hws & Hbs).
  destruct (two_windows_inner bf p0 p1 p2 u v) as (q0 & q1 & q2 & Hin).
  destruct (Hin (junk ++ b) (a ++ rest)) as (E2 & Hws2 & Hbs2).
  rewrite E, E2 in *.
  destruct (MergeInternal_spec size compare bf q0 q1 q2 junk a b rest A B
              buffer fuel) as (junk' & Hrun & Hperm); auto; try lia.
  exists junk'. split; [| exact Hperm].
  rewrite Hrun. f_equal.
  assert (HR' : length (u ++ merge compare a b ++ v) = nR).
  { rewrite <- HR. lengths. rewrite merge_length. lia. }
  assert (H2' : length (junk' ++ rest) = n2).
  { rewrite <- H2. lengths. apply Permutation_length in Hperm. lia. }
  destruct (Harr _ _ HR' H2') as (E' & _ & _).
  rewrite E'. destruct (Hin (merge compare a b) (junk' ++ rest)) as (E3 & _).
  now rewrite E3.
Qed.

(* the merge without a buffer *)
Lemma arr_MergeInPlace (Horder : total_order compare)
    (u a b v B1 B2 : list T) (A B : Range) (fuel : nat) :
  length (u ++ a ++ b ++ v) = nR -> length B1 = n1 -> length B2 = n2 ->
  sorted_list compare a -> sorted_list compare b ->
  start A = r + Z.of_nat (length u) ->
  end_ A = start A + Z.of_nat (length a) ->
  start B = end_ A ->
  end_ B = start B + Z.of_nat (length b) ->
  (length a + length b <= fuel)%nat ->
  MergeInPlace fuel (arr (u ++ a ++ b ++ v) B1 B2) size A B compare [] 0
  = Done (arr (u ++ merge compare a b ++ v) B1 B2, []).
Proof.
  intros HR H1 H2 Hsa Hsb HsA HeA HsB HeB Hf.
  pose proof (arr_fits size base r b1 b2 nR n1 n2 Hok _ B1 B2 HR H1 H2)
    as Hfit.
  destruct (arr_region size base r b1 b2 nR n1 n2 Hok B1 B2 H1 H2)
    as (pre & post & Hpre & Harr).
  assert (HR' : length (u ++ merge compare a b ++ v) = nR).
  { rewrite <- HR. lengths. rewrite merge_length. lia. }
  rewrite (Harr _ HR) in *. rewrite (Harr _ HR').
  replace (pre ++ (u ++ a ++ b ++ v) ++ post)
    with ((pre ++ u) ++ a ++ b ++ (v ++ post)) in *
    by (app_norm; reflexivity).
  destruct (MergeInPlace_spec size compare Horder (pre ++ u) a b (v ++ post)
              [] A B 0 fuel) as (cache' & Hrun & Hlen);
    auto; lengths; try lia.
  rewrite Hrun. destruct cache'; [| discriminate].
  do 2 f_equal. app_norm. reflexivity.
Qed.

(* a rotation inside the ranges being merged *)
Lemma arr_Rotate (u l1 l2 v B1 B2 : list T) (range : Range) (amount : Z)
    (fuel : nat) :
  length (u ++ l1 ++ l2 ++ v) = nR -> length B1 = n1 -> length B2 = n2 ->
  start range = r + Z.of_nat (length u) ->
  end_ range = r + Z.of_nat (length u + length l1 + length l2) ->
  amount = Z.of_nat (length l1) ->
  (length l1 + length l2 <= fuel)%nat ->
  Rotate fuel (arr (u ++ l1 ++ l2 ++ v) B1 B2) size amount range [] 0
  = Done (arr (u ++ l2 ++ l1 ++ v) B1 B2, []).
Proof.
  intros HR H1 H2 Hs He Ha Hf.
  pose proof (arr_fits size base r b1 b2 nR n1 n2 Hok _ B1 B2 HR H1 H2)
    as Hfit.
  destruct (arr_region size base r b1 b2 nR n1 n2 Hok B1 B2 H1 H2)
    as (pre & post & Hpre & Harr).
  assert (HR' : length (u ++ l2 ++ l1 ++ v) = nR)
    by (rewrite <- HR; lengths; lia).
  rewrite (Harr _ HR) in *. rewrite (Harr _ HR').
  replace (pre ++ (u ++ l1 ++ l2 ++ v) ++ post)
    with ((pre ++ u) ++ l1 ++ l2 ++ (v ++ post)) in *
    by (app_norm; reflexivity).
  rewrite (Rotate_nocache size (pre ++ u) l1 l2 (v ++ post) fuel range amount);
    auto; lengths; try lia.
  do 2 f_equal. app_norm. reflexivity.
Qed.

(* tagging the blocks with the items of the first buffer *)
Lemma arr_tag_blocks (Rpre Rpost Ud Ur B2 : list T) (bs : nat)
    (blocks : list (T * list T)) (tags : list T)
    (blockA_end indexA index : Z) (fuel : nat) :
  length (Rpre ++ flat blocks ++ Rpost) = nR ->
  length (Ud ++ tags ++ Ur) = n1 -> length B2 = n2 ->
  Forall (fun e => S (length (snd e)) = bs) blocks ->
  length tags = length blocks ->
  indexA = b1 + Z.of_nat (length Ud) ->
  index = r + Z.of_nat (length Rpre) ->
  blockA_end = r + Z.of_nat (length Rpre + length (flat blocks)) ->
  (length blocks <= fuel)%nat ->
  tag_blocks fuel (arr (Rpre ++ flat blocks ++ Rpost) (Ud ++ tags ++ Ur) B2)
    size (Z.of_nat bs) blockA_end indexA index
  = Done (arr (Rpre ++ flat (combine tags (map snd blocks)) ++ Rpost)
            (Ud ++ map fst blocks ++ Ur) B2).
Proof.
  intros HR H1 H2 Hu Hlen -> -> -> Hf.
  pose proof (arr_fits size base r b1 b2 nR n1 n2 Hok _ _ B2 HR H1 H2)
    as Hfit.
  destruct (arr_region_buf1 size base r b1 b2 nR n1 n2 Hok B2 H2)
    as (bf & p0 & p1 & p2 & Harr).
  destruct (Harr _ _ HR H1) as (E & Hws & Hbs).
  assert (Hfl : length (flat (combine tags (map snd blocks)))
                = length (flat blocks)).
  { rewrite (flat_uniform bs blocks Hu).
    rewrite (flat_uniform bs (combine tags (map snd blocks))).
    - rewrite length_combine, length_map. lia.
    - clear - Hu Hlen. revert tags Hlen.
      induction Hu as [|e blocks He _ IH]; intros tags Hlen.
      + destruct tags; constructor.
      + destruct tags as [|tg tags]; [constructor |].
        cbn [map combine]. constructor; [exact He |].
        apply IH. cbn [length] in Hlen. lia. }
  assert (HR' : length (Rpre ++ flat (combine tags (map snd blocks)) ++ Rpost)
                = nR) by (rewrite <- HR; lengths; lia).
  assert (H1' : length (Ud ++ map fst blocks ++ Ur) = n1)
    by (rewrite <- H1; lengths; rewrite length_map; lia).
  destruct (Harr _ _ HR' H1') as (E' & _ & _).
  rewrite E in *. rewrite E'.
  apply (tag_blocks_spec size bf p0 p1 p2 Rpost Ur bs r b1); auto; lia.
Qed.
End ArrOps.

Section Externals.
Context {T : Type} (size : Z) (compare : Comparison T).
#[local] Hint Extern 0 (Store (list _) _) =>
  exact (list_store size) : typeclass_instances.

(* with nothing in [A] the merge through the cache does nothing *)
Lemma MergeExternal_empty (array cache : list T) (A B : Range) (fuel : nat) :
  Range_length A = 0 ->
  MergeExternal fuel array size A B compare cache = Done array.
Proof.
  intros HA. unfold MergeExternal. rewrite HA.
  rewrite andb_false_r. cbn [bind].
  replace (size *% 0 -% 0) with 0
    by (unfold mul, sub, wrap; now rewrite Z.mul_0_r).
  reflexivity.
Qed.
End Externals.

(** * One round of the block rolling loop *)

Section RollSteps.
Context {T : Type} (size : Z) (compare : Comparison T).
Hypothesis Horder : total_order compare.
Context (base : list T) (r b1 b2 : Z) (nR n1 n2 : nat).
Hypothesis Hok : windows_ok size base r b1 b2 nR n1 n2.
Context (bs : nat) (B buffer2 : Range).
Hypothesis Hbs : (1 <= bs)%nat.
Hypothesis HB : end_ B = r + Z.of_nat nR.
#[local] Hint Extern 0 (Store (list _) _) =>
  exact (list_store size) : typeclass_instances.

#[local] Abbreviation arr := (three_windows base r b1 b2).

(* the test that decides whether the least A block is dropped *)
Lemma not_dropping (P Bl Q Ud U' B2 : list T) (f : T) (rl : Rolling)
    (nB : Z) :
  length (P ++ Bl ++ Q) = nR -> length (Ud ++ f :: U') = n1 ->
  length B2 = n2 ->
  passes compare r P Bl f rl ->
  indexA rl = b1 + Z.of_nat (length Ud) ->
  nB <> 0 ->
  (if Range_length (lastB rl) >? 0
   then
     c <- call compare
            (ptr (arr (P ++ Bl ++ Q) (Ud ++ f :: U') B2)
               (size *% (end_ (lastB rl) -% 1)))
            (ptr (arr (P ++ Bl ++ Q) (Ud ++ f :: U') B2)
               (size *% indexA rl)) ;;
     if c >=? 0 then Done true else Done (nB =? 0)
   else Done (nB =? 0)) = Done false.
Proof.
  intros HR H1 H2 Hpass HiA HnB.
  pose proof (arr_fits size base r b1 b2 nR n1 n2 Hok _ _ B2 HR H1 H2)
    as Hfit.
  pose proof (arr_length size base r b1 b2 nR n1 n2 Hok _ _ B2 HR H1 H2)
    as Hlen.
  fit_bound Hfit Hbound. rewrite Hlen in Hbound.
  pose proof Hok as (_ & Hr & _).
  assert (E0 : (nB =? 0) = false) by (apply Z.eqb_neq; exact HnB).
  destruct Hpass as [H0 | (l & z & -> & Hz & Hs & He)].
  - rewrite H0. cbn. now rewrite E0.
  - assert (HRl : Range_length (lastB rl) = Z.of_nat (length (l ++ [z]))).
    { unfold Range_length. rewrite He. lengths. unwrap_all. lia. }
    rewrite HRl. lengths.
    replace (Z.of_nat (length l + 1) >? 0) with true
      by (symmetry; rewrite Z.gtb_ltb; apply Z.ltb_lt; lia).
    replace (P ++ (l ++ [z]) ++ Q) with ((P ++ l) ++ z :: Q) in *
      by (app_norm; reflexivity).
    rewrite (arr_ptr_region size base r b1 b2 nR n1 n2 Hok (P ++ l) Q z);
      auto; try (lengths; lia);
      [| rewrite He, Hs; lengths; unwrap_all; lia].
    rewrite (arr_ptr_buf1 size base r b1 b2 nR n1 n2 Hok _ Ud U' f); auto;
      try (lengths; lia).
    cbn [call bind].
    replace (compare z f >=? 0) with false
      by (symmetry; rewrite Z.geb_leb; apply Z.leb_gt; lia).
    now rewrite E0.
Qed.

(* a whole B block follows the A blocks: the first A block changes places
   with it *)
Lemma roll_step_roll (P Bl T0 Trest Bb Br Ud U' B2 : list T) (f : T)
    (rl : Rolling) (fuel : nat) :
  length (P ++ Bl ++ T0 ++ Trest ++ Bb ++ Br) = nR ->
  length (Ud ++ f :: U') = n1 -> length B2 = n2 ->
  length T0 = bs -> length Bb = bs ->
  passes compare r P Bl f rl ->
  indexA rl = b1 + Z.of_nat (length Ud) ->
  start (blockA rl) = r + Z.of_nat (length P + length Bl) ->
  end_ (blockA rl) = start (blockA rl) + Z.of_nat (length T0 + length Trest) ->
  start (blockB rl) = end_ (blockA rl) ->
  end_ (blockB rl) = start (blockB rl) + Z.of_nat bs ->
  (bs <= S fuel)%nat ->
  roll_blocks (S fuel) (arr (P ++ Bl ++ T0 ++ Trest ++ Bb ++ Br)
                          (Ud ++ f :: U') B2)
    size compare [] 0 (Z.of_nat bs) buffer2 B rl
  = roll_blocks fuel (arr (P ++ Bl ++ Bb ++ Trest ++ T0 ++ Br)
                        (Ud ++ f :: U') B2)
      size compare [] 0 (Z.of_nat bs) buffer2 B
      {| blockA := Range_new (start (blockA rl) + Z.of_nat bs)
                             (end_ (blockA rl) + Z.of_nat bs);
         blockB := Range_new (start (blockB rl) + Z.of_nat bs)
                     (if (length Br <? bs)%nat then end_ B
                      else end_ (blockB rl) + Z.of_nat bs);
         lastA := lastA rl;
         lastB := Range_new (start (blockA rl))
                            (start (blockA rl) + Z.of_nat bs);
         indexA := indexA rl |}.
Proof.
  intros HR H1 H2 HT0 HBb Hpass HiA HsA HeA HsB HeB Hfuel.
  pose proof (arr_fits size base r b1 b2 nR n1 n2 Hok _ _ B2 HR H1 H2)
    as Hfit.
  pose proof (arr_length size base r b1 b2 nR n1 n2 Hok _ _ B2 HR H1 H2)
    as Hlen.
  fit_bound Hfit Hbound. rewrite Hlen in Hbound.
  pose proof Hok as (_ & Hr & _).
  assert (HlB : Range_length (blockB rl) = Z.of_nat bs).
  { unfold Range_length. rewrite HeB, HsB, HeA, HsA. lengths.
    unwrap_all. lia. }
  cbn [roll_blocks].
  rewrite (not_dropping P Bl (T0 ++ Trest ++ Bb ++ Br) Ud U' B2 f rl
             (Range_length (blockB rl))); auto; [| rewrite HlB; lia].
  cbn [bind]. rewrite HlB, Z.ltb_irrefl.
  replace (P ++ Bl ++ T0 ++ Trest ++ Bb ++ Br)
    with ((P ++ Bl) ++ T0 ++ Trest ++ Bb ++ Br) in *
    by (app_norm; reflexivity).
  destruct (arr_BlockSwap size base r b1 b2 nR n1 n2 Hok
              (P ++ Bl) T0 Trest Bb Br (Ud ++ f :: U') B2
              (start (blockA rl)) (start (blockB rl)) (Z.of_nat bs)
              (S fuel)) as [E _]; auto; try lia;
    try (rewrite ?HsB, ?HeA, ?HsA; lengths; lia).
  rewrite E. cbn [bind].
  replace ((P ++ Bl) ++ Bb ++ Trest ++ T0 ++ Br)
    with (P ++ Bl ++ Bb ++ Trest ++ T0 ++ Br) by (app_norm; reflexivity).
  f_equal. lengths.
  assert (Hcond : (end_ (blockB rl) >? end_ B -% Z.of_nat bs)
                  = (length Br <? bs)%nat).
  { rewrite HB, HeB, HsB, HeA, HsA. unwrap_all.
    rewrite Z.gtb_ltb.
    destruct (Nat.ltb_spec (length Br) bs);
      [apply Z.ltb_lt | apply Z.ltb_ge]; lia. }
  rewrite Hcond.
  destruct (Nat.ltb_spec (length Br) bs); unwrap_all; reflexivity.
Qed.

(* a shorter, last B block follows the A blocks: it is rotated to their
   front *)
Lemma roll_step_rotate (P Bl Tall Bb Br Ud U' B2 : list T) (f : T)
    (rl : Rolling) (fuel : nat) :
  length (P ++ Bl ++ Tall ++ Bb ++ Br) = nR ->
  length (Ud ++ f :: U') = n1 -> length B2 = n2 ->
  (0 < length Bb < bs)%nat ->
  passes compare r P Bl f rl ->
  indexA rl = b1 + Z.of_nat (length Ud) ->
  start (blockA rl) = r + Z.of_nat (length P + length Bl) ->
  end_ (blockA rl) = start (blockA rl) + Z.of_nat (length Tall) ->
  start (blockB rl) = end_ (blockA rl) ->
  end_ (blockB rl) = start (blockB rl) + Z.of_nat (length Bb) ->
  (length Tall + length Bb <= S fuel)%nat ->
  roll_blocks (S fuel) (arr (P ++ Bl ++ Tall ++ Bb ++ Br)
                          (Ud ++ f :: U') B2)
    size compare [] 0 (Z.of_nat bs) buffer2 B rl
  = roll_blocks fuel (arr (P ++ Bl ++ Bb ++ Tall ++ Br)
                        (Ud ++ f :: U') B2)
      size compare [] 0 (Z.of_nat bs) buffer2 B
      {| blockA := Range_new (start (blockA rl) + Z.of_nat (length Bb))
                             (end_ (blockA rl) + Z.of_nat (length Bb));
         blockB := Range_new (start (blockB rl)) (start (blockB rl));
         lastA := lastA rl;
         lastB := Range_new (start (blockA rl))
                            (start (blockA rl) + Z.of_nat (length Bb));
         indexA := indexA rl |}.
Proof.
  intros HR H1 H2 HBb Hpass HiA HsA HeA HsB HeB Hfuel.
  pose proof (arr_fits size base r b1 b2 nR n1 n2 Hok _ _ B2 HR H1 H2)
    as Hfit.
  pose proof (arr_length size base r b1 b2 nR n1 n2 Hok _ _ B2 HR H1 H2)
    as Hlen.
  fit_bound Hfit Hbound. rewrite Hlen in Hbound.
  pose proof Hok as (_ & Hr & _).
  assert (HlB : Range_length (blockB rl) = Z.of_nat (length Bb)).
  { unfold Range_length. rewrite HeB, HsB, HeA, HsA. lengths.
    unwrap_all. lia. }
  cbn [roll_blocks].
  rewrite (not_dropping P Bl (Tall ++ Bb ++ Br) Ud U' B2 f rl
             (Range_length (blockB rl))); auto; [| rewrite HlB; lia].
  cbn [bind]. rewrite HlB.
  replace (Z.of_nat (length Bb) <? Z.of_nat bs) with true
    by (symmetry; apply Z.ltb_lt; lia).
  replace (P ++ Bl ++ Tall ++ Bb ++ Br)
    with ((P ++ Bl) ++ Tall ++ Bb ++ Br) in *
    by (app_norm; reflexivity).
  rewrite (arr_Rotate size base r b1 b2 nR n1 n2 Hok
             (P ++ Bl) Tall Bb Br (Ud ++ f :: U') B2); auto;
    [| cbn [start]; rewrite HsA; lengths; lia
     | cbn [end_]; rewrite HeB, HsB, HeA, HsA; lengths; lia
     | rewrite HsB, HeA, HsA; lengths; unwrap_all; lia ].
  cbn [bind].
  replace ((P ++ Bl) ++ Bb ++ Tall ++ Br)
    with (P ++ Bl ++ Bb ++ Tall ++ Br) by (app_norm; reflexivity).
  f_equal. lengths. unwrap_all. reflexivity.
Qed.

Lemma last_case (l : list T) : l = [] \/ exists l' z, l = l' ++ [z].
Proof.
  destruct l as [|x l] using rev_ind; [now left | right; eauto].
Qed.

(* the test that decides to drop the least A block *)
Lemma dropping (P Bl Q Ud U' B2 : list T) (f : T) (rl : Rolling)
    (nB : Z) :
  length (P ++ Bl ++ Q) = nR -> length (Ud ++ f :: U') = n1 ->
  length B2 = n2 ->
  start (lastB rl) = r + Z.of_nat (length P) ->
  end_ (lastB rl) = start (lastB rl) + Z.of_nat (length Bl) ->
  indexA rl = b1 + Z.of_nat (length Ud) ->
  nB = 0 \/ (exists l z, Bl = l ++ [z] /\ compare z f >= 0) ->
  (if Range_length (lastB rl) >? 0
   then
     c <- call compare
            (ptr (arr (P ++ Bl ++ Q) (Ud ++ f :: U') B2)
               (size *% (end_ (lastB rl) -% 1)))
            (ptr (arr (P ++ Bl ++ Q) (Ud ++ f :: U') B2)
               (size *% indexA rl)) ;;
     if c >=? 0 then Done true else Done (nB =? 0)
   else Done (nB =? 0)) = Done true.
Proof.
  intros HR H1 H2 Hs He HiA Hdrop.
  pose proof (arr_fits size base r b1 b2 nR n1 n2 Hok _ _ B2 HR H1 H2)
    as Hfit.
  pose proof (arr_length size base r b1 b2 nR n1 n2 Hok _ _ B2 HR H1 H2)
    as Hlen.
  fit_bound Hfit Hbound. rewrite Hlen in Hbound.
  pose proof Hok as (_ & Hr & _).
  assert (HRl : Range_length (lastB rl) = Z.of_nat (length Bl)).
  { unfold Range_length. rewrite He, Hs. lengths. unwrap_all. lia. }
  rewrite HRl.
  destruct (last_case Bl) as [-> | (l & z & ->)].
  - cbn. destruct Hdrop as [-> | (l & z & E & _)]; [reflexivity |].
    now destruct l.
  - lengths.
    replace (Z.of_nat (length l + 1) >? 0) with true
      by (symmetry; rewrite Z.gtb_ltb; apply Z.ltb_lt; lia).
    replace (P ++ (l ++ [z]) ++ Q) with ((P ++ l) ++ z :: Q) in *
      by (app_norm; reflexivity).
    rewrite (arr_ptr_region size base r b1 b2 nR n1 n2 Hok (P ++ l) Q z);
      auto; try (lengths; lia);
      [| rewrite He, Hs; lengths; unwrap_all; lia].
    rewrite (arr_ptr_buf1 size base r b1 b2 nR n1 n2 Hok _ Ud U' f); auto;
      try (lengths; lia).
    cbn [call bind].
    destruct (compare z f >=? 0) eqn:Ec; [reflexivity |].
    destruct Hdrop as [-> | (l' & z' & E & Hz)]; [reflexivity |].
    apply app_inj_tail in E. destruct E as [_ <-].
    rewrite Z.geb_leb in Ec. apply Z.leb_gt in Ec. lia.
Qed.
End RollSteps.

(** * Dropping the least A block behind the B values below it *)

Section RollDrop.
Context {T : Type} (size : Z) (compare : Comparison T).
Hypothesis Horder : total_order compare.
Context (base : list T) (r b1 b2 : Z) (nR n1 n2 : nat).
Hypothesis Hok : windows_ok size base r b1 b2 nR n1 n2.
Context (bs : nat) (B buffer2 : Range).
Hypothesis Hbs : (1 <= bs)%nat.
Hypothesis HB : end_ B = r + Z.of_nat nR.
Hypothesis Hb2s : start buffer2 = b2.
Hypothesis Hb2l : Range_length buffer2 = Z.of_nat n2.
#[local] Hint Extern 0 (Store (list _) _) =>
  exact (list_store size) : typeclass_instances.

#[local] Abbreviation arr := (three_windows base r b1 b2).

(* the least A block comes first among the A blocks, and gets its first
   item back from the first buffer *)
Lemma least_block_first {X : Type} (k : list T -> outcome X)
    (P Rest Ud U' B2 : list T)
    (tb1 tb2 : list (T * list T)) (u f : T) (t : list T) (rl : Rolling)
    (fuel : nat) :
  length (P ++ flat (tb1 ++ (u, t) :: tb2) ++ Rest) = nR ->
  length (Ud ++ f :: U') = n1 -> length B2 = n2 ->
  Forall (fun e => S (length (snd e)) = bs) (tb1 ++ (u, t) :: tb2) ->
  Forall (fun e => compare u (fst e) < 0) (tb1 ++ tb2) ->
  start (blockA rl) = r + Z.of_nat (length P) ->
  end_ (blockA rl)
    = r + Z.of_nat (length P + bs * length (tb1 ++ (u, t) :: tb2)) ->
  indexA rl = b1 + Z.of_nat (length Ud) ->
  (nR <= fuel)%nat ->
  (minA <- find_minA fuel
             (arr (P ++ flat (tb1 ++ (u, t) :: tb2) ++ Rest)
                (Ud ++ f :: U') B2)
             size compare (Z.of_nat bs) (end_ (blockA rl))
             (start (blockA rl)) (start (blockA rl) +% Z.of_nat bs) ;;
   array1 <- BlockSwap fuel
               (arr (P ++ flat (tb1 ++ (u, t) :: tb2) ++ Rest)
                  (Ud ++ f :: U') B2)
               size (start (blockA rl)) minA (Z.of_nat bs) ;;
   array2 <- lift (Swap array1 (size *% start (blockA rl))
                     (size *% indexA rl) size) ;;
   k array2)
  = k (arr (P ++ (f :: t) ++ flat (remaining tb1 tb2) ++ Rest)
         (Ud ++ u :: U') B2).
Proof.
  intros HR H1 H2 Hu Hmin HsA HeA HiA Hfuel.
  pose proof (arr_fits size base r b1 b2 nR n1 n2 Hok _ _ B2 HR H1 H2)
    as Hfit.
  pose proof (arr_length size base r b1 b2 nR n1 n2 Hok _ _ B2 HR H1 H2)
    as Hlen.
  fit_bound Hfit Hbound. rewrite Hlen in Hbound.
  pose proof Hok as (_ & Hr & _).
  pose proof (flat_uniform bs _ Hu) as Hflat.
  rewrite HeA, HsA.
  rewrite (arr_find_minA size compare base r b1 b2 nR n1 n2 Hok Horder
             P Rest (Ud ++ f :: U') B2 bs (tb1 ++ (u, t) :: tb2)
             (length tb1) u t); auto.
  2: { rewrite nth_error_app2, Nat.sub_diag by lia. reflexivity. }
  2: { intros i e Hi He. rewrite Forall_forall in Hmin. apply Hmin.
       apply in_or_app.
       destruct (Nat.lt_ge_cases i (length tb1)) as [Hlt | Hge].
       - rewrite nth_error_app1 in He by lia. left.
         eapply nth_error_In; eauto.
       - rewrite nth_error_app2 in He by lia.
         destruct (i - length tb1)%nat as [|k0] eqn:Ek; [lia |].
         right. eapply nth_error_In; eauto. }
  2: { pose proof (flat_length (tb1 ++ (u, t) :: tb2)). lengths. lia. }
  cbn [bind].
  rewrite length_app in Hflat, HeA. cbn [length] in Hflat, HeA.
  rewrite flat_app in *.
  change (flat ((u, t) :: tb2)) with ((u :: t) ++ flat tb2) in *.
  apply Forall_app in Hu. destruct Hu as [Hu1 Hu2].
  pose proof (Forall_inv Hu2) as Hut. cbn in Hut.
  apply Forall_inv_tail in Hu2.
  pose proof (flat_uniform bs _ Hu1) as Hf1.
  pose proof (flat_uniform bs _ Hu2) as Hf2.
  destruct tb1 as [|e1 tb1'].
  - cbn [length flat flat_map app remaining] in *.
    replace (r + Z.of_nat (length P + bs * 0)) with (r + Z.of_nat (length P))
      by (f_equal; lia).
    rewrite (arr_BlockSwap_self size base r b1 b2 nR n1 n2 Hok); auto;
      try lia; try (lengths; lia).
    cbn [bind lift].
    replace (P ++ u :: t ++ flat tb2 ++ Rest)
      with (P ++ u :: (t ++ flat tb2 ++ Rest)) in *
      by (app_norm; reflexivity).
    rewrite (arr_Swap_buf1 size base r b1 b2 nR n1 n2 Hok
               P _ Ud U' B2 u f); auto.
    cbn [lift bind]. unfold flat. app_norm. reflexivity.
  - change (flat (e1 :: tb1')) with ((fst e1 :: snd e1) ++ flat tb1') in *.
    pose proof (Forall_inv Hu1) as Hue. cbn beta in Hue.
    apply Forall_inv_tail in Hu1.
    pose proof (flat_uniform bs _ Hu1) as Hf1'.
    replace (P ++ (((fst e1 :: snd e1) ++ flat tb1') ++ (u :: t) ++ flat tb2)
               ++ Rest)
      with (P ++ (fst e1 :: snd e1) ++ flat tb1' ++ (u :: t)
              ++ (flat tb2 ++ Rest)) in *
      by (app_norm; reflexivity).
    destruct (arr_BlockSwap size base r b1 b2 nR n1 n2 Hok
                P (fst e1 :: snd e1) (flat tb1') (u :: t) (flat tb2 ++ Rest)
                (Ud ++ f :: U') B2
                (r + Z.of_nat (length P))
                (r + Z.of_nat (length P + bs * length (e1 :: tb1')))
                (Z.of_nat bs) fuel) as [E _]; auto;
      try (cbn [length] in *; lia);
      try (f_equal; cbn [length] in *; rewrite ?Hf1'; lia);
      try (lengths; lia).
    rewrite E. cbn [bind lift].
    replace (P ++ (u :: t) ++ flat tb1' ++ (fst e1 :: snd e1)
               ++ flat tb2 ++ Rest)
      with (P ++ u :: (t ++ flat tb1' ++ (fst e1 :: snd e1)
                         ++ flat tb2 ++ Rest)) in *
      by (app_norm; reflexivity).
    rewrite (arr_Swap_buf1 size base r b1 b2 nR n1 n2 Hok
               P _ Ud U' B2 u f); auto.
    + cbn [remaining lift bind]. rewrite flat_app.
      change (flat (e1 :: tb2)) with ((fst e1 :: snd e1) ++ flat tb2).
      app_norm. reflexivity.
    + lengths. lia.
Qed.

(* the local merge of the previous A block, whose items wait in the second
   buffer when there is one, with the B values that go before the next A
   block *)
Lemma local_merge_block (Mo S aj b v B1 V2 : list T) (A Bq : Range)
    (fuel : nat) :
  length (Mo ++ S ++ b ++ v) = nR -> length B1 = n1 ->
  length (stash n2 aj ++ V2) = n2 ->
  length S = length aj -> (n2 = 0%nat -> S = aj) ->
  sorted_list compare aj -> sorted_list compare b ->
  start A = r + Z.of_nat (length Mo) ->
  end_ A = start A + Z.of_nat (length S) ->
  start Bq = end_ A ->
  end_ Bq = start Bq + Z.of_nat (length b) ->
  (length S + length b <= fuel)%nat ->
  exists S',
    Permutation S S' /\
    local_merge fuel (arr (Mo ++ S ++ b ++ v) B1 (stash n2 aj ++ V2)) size
      A Bq compare [] 0 buffer2
    = Done (arr (Mo ++ merge compare aj b ++ v) B1 (stash n2 S' ++ V2), []).
Proof.
  intros HR H1 H2 HS Hmode Haj Hb HsA HeA HsB HeB Hfuel.
  pose proof (arr_fits size base r b1 b2 nR n1 n2 Hok _ _ _ HR H1 H2)
    as Hfit.
  pose proof (arr_length size base r b1 b2 nR n1 n2 Hok _ _ _ HR H1 H2)
    as Hlen.
  fit_bound Hfit Hbound. rewrite Hlen in Hbound.
  pose proof Hok as (_ & Hr & _).
  assert (HlA : Range_length A = Z.of_nat (length S)).
  { unfold Range_length. rewrite HeA, HsA. lengths. unwrap_all. lia. }
  unfold local_merge. rewrite HlA, Hb2l.
  destruct S as [|s0 S0].
  - destruct aj; [| discriminate]. exists []. split; [constructor |].
    cbn [length Z.of_nat Z.leb Z.compare].
    rewrite MergeExternal_empty by (rewrite HlA; reflexivity).
    cbn [bind app]. now rewrite merge_nil_l.
  - replace (Z.of_nat (length (s0 :: S0)) <=? 0) with false
      by (symmetry; apply Z.leb_gt; cbn [length]; lia).
    destruct n2 as [|n2'] eqn:En2.
    + rewrite <- Hmode by reflexivity. cbn [Z.of_nat Z.gtb Z.compare].
      exists (s0 :: S0). split; [reflexivity |].
      rewrite <- (Hmode eq_refl) in Haj.
      cbn [stash Nat.eqb app] in *.
      replace V2 with (@nil T) in * by (now destruct V2).
      apply (arr_MergeInPlace size compare base r b1 b2 nR n1 0 Hok Horder
               Mo (s0 :: S0) b v B1 [] A Bq fuel); auto.
    + replace (Z.of_nat (S n2') >? 0) with true
        by (symmetry; rewrite Z.gtb_ltb; apply Z.ltb_lt; lia).
      cbn [stash Nat.eqb] in *.
      replace (Mo ++ (s0 :: S0) ++ b ++ v)
        with (Mo ++ ((s0 :: S0) ++ b) ++ v) in *
        by (app_norm; reflexivity).
      destruct (arr_MergeInternal size compare base r b1 b2 nR n1 (S n2')
                  Hok Mo (s0 :: S0) aj b v V2 B1 A Bq buffer2 fuel)
        as (junk' & E & Hperm); auto; try lia.
      exists junk'. split; [exact Hperm |].
      rewrite E. reflexivity.
Qed.

(* the dropped A block goes behind the merged values: into the second
   buffer when there is one, whose items take its place, and otherwise
   before the B values that remain, by a rotation *)
Lemma drop_block (P l2 blk v B1 Sj V2 : list T) (sA B_split B_remaining : Z)
    (fuel : nat) :
  length (P ++ l2 ++ blk ++ v) = nR -> length B1 = n1 ->
  length (stash n2 Sj ++ V2) = n2 ->
  length blk = bs -> (length l2 <= bs)%nat ->
  (n2 <> 0%nat -> (bs <= n2)%nat) ->
  sA = r + Z.of_nat (length P + length l2) ->
  B_split = r + Z.of_nat (length P) ->
  B_remaining = Z.of_nat (length l2) ->
  (nR <= fuel)%nat ->
  exists Snew V2new,
    length Snew = bs /\
    (n2 = 0%nat -> Snew = blk) /\
    (n2 <> 0%nat -> Permutation (Snew ++ V2new) (Sj ++ V2)) /\
    length (stash n2 blk ++ V2new) = n2 /\
    (if (Range_length buffer2 >? 0) || (Z.of_nat bs <=? 0) then
       '(a, c) <-
         (if Z.of_nat bs <=? 0 then
            c <- lift (memcpy [] 0
                         (arr (P ++ l2 ++ blk ++ v) B1 (stash n2 Sj ++ V2))
                         (size *% sA) (Z.of_nat bs *% size)) ;;
            Done (arr (P ++ l2 ++ blk ++ v) B1 (stash n2 Sj ++ V2), c)
          else
            a <- BlockSwap fuel
                   (arr (P ++ l2 ++ blk ++ v) B1 (stash n2 Sj ++ V2))
                   size sA (start buffer2) (Z.of_nat bs) ;;
            Done (a, [])) ;;
       a' <- BlockSwap fuel a size B_split
               (sA +% Z.of_nat bs -% B_remaining) B_remaining ;;
       Done (a', c)
     else
       Rotate fuel (arr (P ++ l2 ++ blk ++ v) B1 (stash n2 Sj ++ V2)) size
         (sA -% B_split) (Range_new B_split (sA +% Z.of_nat bs)) [] 0)
    = Done (arr (P ++ Snew ++ l2 ++ v) B1 (stash n2 blk ++ V2new), []).
Proof.
  intros HR H1 H2 Hblk Hl2 Hmode -> -> -> Hfuel.
  pose proof (arr_fits size base r b1 b2 nR n1 n2 Hok _ _ _ HR H1 H2)
    as Hfit.
  pose proof (arr_length size base r b1 b2 nR n1 n2 Hok _ _ _ HR H1 H2)
    as Hlen.
  fit_bound Hfit Hbound. rewrite Hlen in Hbound.
  pose proof Hok as (_ & Hr & _).
  rewrite Hb2l.
  replace (Z.of_nat bs <=? 0) with false
    by (symmetry; apply Z.leb_gt; lia).
  rewrite orb_false_r.
  destruct n2 as [|n2'] eqn:En2.
  - cbn [Z.of_nat Z.gtb Z.compare stash Nat.eqb app] in *.
    replace V2 with (@nil T) in * by (now destruct V2).
    exists blk, []. repeat split; auto; [intros Hn; now elim Hn |].
    apply (arr_Rotate size base r b1 b2 nR n1 0 Hok P l2 blk v B1 []);
      auto; cbn [start end_]; try (lengths; unwrap_all; lia).
  - replace (Z.of_nat (S n2') >? 0) with true
      by (symmetry; rewrite Z.gtb_ltb; apply Z.ltb_lt; lia).
    cbn [stash Nat.eqb] in *.
    specialize (Hmode ltac:(discriminate)).
    set (K1 := firstn bs (Sj ++ V2)). set (K2 := skipn bs (Sj ++ V2)).
    assert (HK : Sj ++ V2 = K1 ++ K2)
      by (symmetry; apply firstn_skipn).
    assert (HK1 : length K1 = bs)
      by (unfold K1; rewrite length_firstn; lia).
    set (K1a := firstn (bs - length l2) K1).
    set (K1b := skipn (bs - length l2) K1).
    assert (HKab : K1 = K1a ++ K1b) by (symmetry; apply firstn_skipn).
    assert (HK1a : length K1a = (bs - length l2)%nat)
      by (unfold K1a; rewrite length_firstn; lia).
    assert (HK1b : length K1b = length l2).
    { apply (f_equal (@length T)) in HKab. rewrite length_app in HKab.
      lia. }
    clearbody K1 K2 K1a K1b.
    exists (K1b ++ K1a), K2. split; [lengths; lia |].
    split; [discriminate |].
    split.
    { intros _. rewrite HK, HKab.
      rewrite <- !app_assoc. apply Permutation_app_swap_app. }
    split.
    { apply (f_equal (@length T)) in HK. lengths. lia. }
    rewrite HK in *.
    replace (P ++ l2 ++ blk ++ v) with ((P ++ l2) ++ blk ++ v) in *
      by (app_norm; reflexivity).
    rewrite (arr_BlockSwap_buf2 size base r b1 b2 nR n1 (S n2') Hok
               (P ++ l2) blk v [] K1 K2 B1); auto; try lia;
      try (lengths; lia).
    cbn [bind app]. subst K1.
    replace ((P ++ l2) ++ (K1a ++ K1b) ++ v)
      with (P ++ l2 ++ K1a ++ K1b ++ v) in * by (app_norm; reflexivity).
    destruct (arr_BlockSwap size base r b1 b2 nR n1 (S n2') Hok
                P l2 K1a K1b v B1 (blk ++ K2)
                (r + Z.of_nat (length P))
                (r + Z.of_nat (length P + length l2) +% Z.of_nat bs
                 -% Z.of_nat (length l2))
                (Z.of_nat (length l2)) fuel) as [E _]; auto;
      try lia; try (lengths; lia);
      try (lengths; unwrap_all; lia).
    rewrite E. cbn [bind]. app_norm. reflexivity.
Qed.
End RollDrop.

(** * The round of the rolling loop that drops an A block *)

Section RollRound.
Context {T : Type} (size : Z) (compare : Comparison T).
Hypothesis Horder : total_order compare.
Context (base : list T) (r b1 b2 : Z) (nR n1 n2 : nat).
Hypothesis Hok : windows_ok size base r b1 b2 nR n1 n2.
Context (bs : nat) (B buffer2 : Range).
Hypothesis Hbs : (1 <= bs)%nat.
Hypothesis HB : end_ B = r + Z.of_nat nR.
Hypothesis Hb2s : start buffer2 = b2.
Hypothesis Hb2l : Range_length buffer2 = Z.of_nat n2.
#[local] Hint Extern 0 (Store (list _) _) =>
  exact (list_store size) : typeclass_instances.

#[local] Abbreviation arr := (three_windows base r b1 b2).

Lemma roll_step_drop (Mo S aj Bm l1 l2 : list T)
    (tb1 tb2 : list (T * list T)) (u : T) (t : list T)
    (Rest Ud U' V2 : list T) (f : T) (rl : Rolling) (fuel : nat) :
  length (Mo ++ S ++ Bm ++ l1 ++ l2 ++ flat (tb1 ++ (u, t) :: tb2) ++ Rest)
    = nR ->
  length (Ud ++ f :: U') = n1 ->
  length (stash n2 aj ++ V2) = n2 ->
  length S = length aj -> (n2 = 0%nat -> S = aj) ->
  (n2 <> 0%nat -> (bs <= n2)%nat) ->
  (length l2 <= bs)%nat ->
  Forall (fun e => Datatypes.S (length (snd e)) = bs)
    (tb1 ++ (u, t) :: tb2) ->
  Forall (fun e => compare u (fst e) < 0) (tb1 ++ tb2) ->
  Forall (fun y => compare y f < 0) l1 ->
  Forall (fun y => compare y f >= 0) l2 ->
  sorted_list compare aj -> sorted_list compare (Bm ++ l1) ->
  Range_length (blockB rl) = 0 \/
    (exists l z, l1 ++ l2 = l ++ [z] /\ compare z f >= 0) ->
  start (lastA rl) = r + Z.of_nat (length Mo) ->
  end_ (lastA rl) = start (lastA rl) + Z.of_nat (length S) ->
  start (lastB rl) = r + Z.of_nat (length (Mo ++ S ++ Bm)) ->
  end_ (lastB rl) = start (lastB rl) + Z.of_nat (length (l1 ++ l2)) ->
  start (blockA rl) = r + Z.of_nat (length (Mo ++ S ++ Bm ++ l1 ++ l2)) ->
  end_ (blockA rl)
    = r + Z.of_nat (length (Mo ++ S ++ Bm ++ l1 ++ l2)
                    + bs * length (tb1 ++ (u, t) :: tb2)) ->
  indexA rl = b1 + Z.of_nat (length Ud) ->
  (nR <= fuel)%nat ->
  exists Snew V2new,
    length Snew = bs /\
    (n2 = 0%nat -> Snew = f :: t) /\
    (n2 <> 0%nat -> Permutation (Snew ++ V2new) (S ++ V2)) /\
    length (stash n2 (f :: t) ++ V2new) = n2 /\
    roll_blocks (Datatypes.S fuel)
      (arr (Mo ++ S ++ Bm ++ l1 ++ l2 ++ flat (tb1 ++ (u, t) :: tb2) ++ Rest)
         (Ud ++ f :: U') (stash n2 aj ++ V2))
      size compare [] 0 (Z.of_nat bs) buffer2 B rl
    = let array' :=
        arr (Mo ++ merge compare aj (Bm ++ l1) ++ Snew ++ l2
               ++ flat (remaining tb1 tb2) ++ Rest)
          (Ud ++ u :: U') (stash n2 (f :: t) ++ V2new) in
      let lastA' :=
        Range_new (r + Z.of_nat (length (Mo ++ S ++ Bm ++ l1)))
          (r + Z.of_nat (length (Mo ++ S ++ Bm ++ l1) + bs)) in
      let rl' :=
        {| blockA := Range_new (start (blockA rl) + Z.of_nat bs)
                       (end_ (blockA rl));
           blockB := blockB rl;
           lastA := lastA';
           lastB := Range_new (end_ lastA')
                      (end_ lastA' + Z.of_nat (length l2));
           indexA := indexA rl + 1 |} in
      if (length (remaining tb1 tb2) =? 0)%nat
      then Done (array', [], rl')
      else roll_blocks fuel array' size compare [] 0 (Z.of_nat bs)
             buffer2 B rl'.
Proof.
  intros HR H1 H2 HS Hmode Hmode2 Hl2 Hu Hmin Hl1f Hl2f Haj Hb Hdrop
    HsLA HeLA HsLB HeLB HsA HeA HiA Hfuel.
  pose proof (arr_fits size base r b1 b2 nR n1 n2 Hok _ _ _ HR H1 H2)
    as Hfit.
  pose proof (arr_length size base r b1 b2 nR n1 n2 Hok _ _ _ HR H1 H2)
    as Hlen.
  fit_bound Hfit Hbound. rewrite Hlen in Hbound.
  pose proof Hok as (_ & Hr & _).
  pose proof (flat_uniform bs _ Hu) as Hflat.
  cbn [roll_blocks].
  replace (Mo ++ S ++ Bm ++ l1 ++ l2 ++ flat (tb1 ++ (u, t) :: tb2) ++ Rest)
    with ((Mo ++ S ++ Bm) ++ (l1 ++ l2)
            ++ flat (tb1 ++ (u, t) :: tb2) ++ Rest) in *
    by (app_norm; reflexivity).
  rewrite (dropping size compare base r b1 b2 nR n1 n2 Hok bs Hbs
             (Mo ++ S ++ Bm) (l1 ++ l2) _ Ud U' _ f rl); auto.
  cbn [bind].
  rewrite (arr_ptr_buf1 size base r b1 b2 nR n1 n2 Hok _ Ud U' f); auto.
  replace ((Mo ++ S ++ Bm) ++ (l1 ++ l2)
            ++ flat (tb1 ++ (u, t) :: tb2) ++ Rest)
    with ((Mo ++ S ++ Bm) ++ l1 ++ l2
            ++ flat (tb1 ++ (u, t) :: tb2) ++ Rest) in *
    by (app_norm; reflexivity).
  rewrite (arr_BinaryFirst size compare base r b1 b2 nR n1 n2 Hok
             (Mo ++ S ++ Bm) l1 l2); auto;
    try (rewrite ?HeLB, ?HsLB; lengths; lia).
  cbn [bind].
  replace ((Mo ++ S ++ Bm) ++ l1 ++ l2
            ++ flat (tb1 ++ (u, t) :: tb2) ++ Rest)
    with ((Mo ++ S ++ Bm ++ l1 ++ l2)
            ++ flat (tb1 ++ (u, t) :: tb2) ++ Rest) in *
    by (app_norm; reflexivity).
  rewrite (least_block_first size compare Horder base r b1 b2 nR n1 n2 Hok
             bs Hbs _ (Mo ++ S ++ Bm ++ l1 ++ l2) Rest Ud U' _ tb1 tb2
             u f t rl); auto.
  assert (Hrem : length (remaining tb1 tb2) = (length tb1 + length tb2)%nat).
  { destruct tb1; cbn [remaining]; lengths; lia. }
  assert (Hurem : Forall (fun e => Datatypes.S (length (snd e)) = bs)
                    (remaining tb1 tb2)).
  { apply Forall_app in Hu. destruct Hu as [Hu1 Hu2].
    pose proof (Forall_inv_tail Hu2) as Hu3.
    destruct tb1 as [|e1 tb1']; cbn [remaining]; [exact Hu3 |].
    apply Forall_app. split; [exact (Forall_inv_tail Hu1) |].
    constructor; [exact (Forall_inv Hu1) | exact Hu3]. }
  pose proof (flat_uniform bs _ Hurem) as Hfrem.
  assert (Ht : Datatypes.S (length t) = bs).
  { apply Forall_app in Hu. destruct Hu as [_ Hu2].
    exact (Forall_inv Hu2). }
  assert (HR' : length (Mo ++ S ++ (Bm ++ l1)
                  ++ (l2 ++ (f :: t) ++ flat (remaining tb1 tb2) ++ Rest))
                = nR).
  { rewrite <- HR. lengths. rewrite Hflat, Hfrem, Hrem. lengths. lia. }
  assert (H1' : length (Ud ++ u :: U') = n1) by (lengths; lia).
  destruct (local_merge_block size compare Horder base r b1 b2 nR n1 n2 Hok
              bs buffer2 Hbs Hb2s Hb2l Mo S aj (Bm ++ l1)
              (l2 ++ (f :: t) ++ flat (remaining tb1 tb2) ++ Rest)
              (Ud ++ u :: U') V2 (lastA rl)
              (Range_new (end_ (lastA rl))
                 (r + Z.of_nat (length (Mo ++ S ++ Bm) + length l1)))
              (Datatypes.S fuel))
    as (S' & HpS & E); auto; cbn [start end_];
    try (rewrite ?HeLA, ?HsLA; lengths; lia).
  replace ((Mo ++ S ++ Bm ++ l1 ++ l2) ++
            (f :: t) ++ flat (remaining tb1 tb2) ++ Rest)
    with (Mo ++ S ++ (Bm ++ l1)
            ++ (l2 ++ (f :: t) ++ flat (remaining tb1 tb2) ++ Rest))
    by (app_norm; reflexivity).
  rewrite E. cbn [bind].
  pose proof (Permutation_length HpS) as HlS'.
  pose proof (merge_length compare aj (Bm ++ l1)) as Hml.
  replace (Mo ++ merge compare aj (Bm ++ l1)
             ++ l2 ++ (f :: t) ++ flat (remaining tb1 tb2) ++ Rest)
    with ((Mo ++ merge compare aj (Bm ++ l1))
            ++ l2 ++ (f :: t) ++ (flat (remaining tb1 tb2) ++ Rest))
    by (app_norm; reflexivity).
  destruct (drop_block size base r b1 b2 nR n1 n2 Hok bs buffer2 Hbs Hb2s
              Hb2l (Mo ++ merge compare aj (Bm ++ l1)) l2 (f :: t)
              (flat (remaining tb1 tb2) ++ Rest) (Ud ++ u :: U') S' V2
              (start (blockA rl))
              (r + Z.of_nat (length (Mo ++ S ++ Bm) + length l1))
              (end_ (lastB rl)
               -% (r + Z.of_nat (length (Mo ++ S ++ Bm) + length l1)))
              (Datatypes.S fuel))
    as (Snew & V2new & HSn & Hn0 & Hperm & HlenS & E2); auto.
  { rewrite <- HR'. lengths. rewrite Hml. lengths. lia. }
  { rewrite <- H2 at 2. unfold stash. destruct (n2 =? 0)%nat; lengths; lia. }
  { rewrite HsA. lengths. rewrite Hml. lengths. f_equal. lia. }
  { lengths. rewrite Hml. lengths. f_equal. lia. }
  { rewrite HeLB, HsLB. lengths. unwrap_all. lia. }
  exists Snew, V2new.
  split; [exact HSn |]. split; [exact Hn0 |].
  split; [intros Hn; rewrite (Hperm Hn); now apply Permutation_app_tail,
                                            Permutation_sym |].
  split; [exact HlenS |].
  rewrite E2. cbn [bind]. cbv zeta.
  assert (Ea : end_ (lastB rl)
               -% (r + Z.of_nat (length (Mo ++ S ++ Bm) + length l1))
               = Z.of_nat (length l2)).
  { rewrite HeLB, HsLB. lengths. unwrap_all. lia. }
  assert (Eb : start (blockA rl) -% Z.of_nat (length l2)
               = r + Z.of_nat (length (Mo ++ S ++ Bm ++ l1))).
  { rewrite HsA. lengths. unwrap_all. lia. }
  assert (Ec : r + Z.of_nat (length (Mo ++ S ++ Bm ++ l1)) +% Z.of_nat bs
               = r + Z.of_nat (length (Mo ++ S ++ Bm ++ l1) + bs)).
  { lengths. unwrap_all. lia. }
  assert (Ed : r + Z.of_nat (length (Mo ++ S ++ Bm ++ l1) + bs)
               +% Z.of_nat (length l2)
               = r + Z.of_nat (length (Mo ++ S ++ Bm ++ l1) + bs)
                 + Z.of_nat (length l2)).
  { lengths. unwrap_all. lia. }
  assert (Ee : start (blockA rl) +% Z.of_nat bs
               = start (blockA rl) + Z.of_nat bs).
  { rewrite HsA. lengths. unwrap_all. lia. }
  assert (Ef : indexA rl +% 1 = indexA rl + 1).
  { rewrite HiA. pose proof Hok as (_ & _ & Hb1 & _). lengths.
    unwrap_all. lia. }
  rewrite Ea, Eb, Ec, Ed, Ee, Ef.
  assert (Eg : (Range_length
                  (Range_new (start (blockA rl) + Z.of_nat bs)
                     (end_ (blockA rl))) =? 0)
               = (length (remaining tb1 tb2) =? 0)%nat).
  { unfold Range_length. cbn [start end_]. rewrite HeA, HsA, Hrem.
    lengths.
    rewrite sub_small by (rewrite ?SIZE_MAX1_eq in *; nia).
    destruct (Nat.eqb_spec (length tb1 + length tb2) 0);
      [apply Z.eqb_eq | apply Z.eqb_neq]; nia. }
  rewrite Eg.
  replace ((Mo ++ merge compare aj (Bm ++ l1)) ++
            Snew ++ l2 ++ flat (remaining tb1 tb2) ++ Rest)
    with (Mo ++ merge compare aj (Bm ++ l1) ++
            Snew ++ l2 ++ flat (remaining tb1 tb2) ++ Rest)
    by (app_norm; reflexivity).
  reflexivity.
Qed.
End RollRound.

(** * Facts about the tagged blocks and the merge, for the rolling loop *)

Section RollingFacts.
Context {T : Type} (compare : Comparison T).
Hypothesis Horder : total_order compare.

Lemma remaining_perm (tb1 tb2 : list (T * list T)) :
  Permutation (remaining tb1 tb2) (tb1 ++ tb2).
Proof.
  destruct tb1 as [|e tb1']; cbn [remaining app]; [reflexivity |].
  symmetry. apply Permutation_middle.
Qed.

(* the block with the least tag is the first of the blocks that remain *)
Lemma least_tag (tb : list (T * list T)) (u0 : T) (tags' : list T)
    (f : T) (t0 : list T) (blocks' : list (T * list T)) :
  strictly_sorted compare (u0 :: tags') ->
  Permutation tb (combine (u0 :: tags') (map snd ((f, t0) :: blocks'))) ->
  exists tb1 tb2,
    tb = tb1 ++ (u0, t0) :: tb2 /\
    Forall (fun e => compare u0 (fst e) < 0) (tb1 ++ tb2) /\
    Permutation (remaining tb1 tb2) (combine tags' (map snd blocks')).
Proof.
  intros Hs Hp. cbn [map combine snd] in Hp.
  assert (Hin : In (u0, t0) tb).
  { eapply Permutation_in; [symmetry; exact Hp | now left]. }
  apply in_split in Hin. destruct Hin as (tb1 & tb2 & ->).
  exists tb1, tb2. split; [reflexivity |].
  symmetry in Hp. apply Permutation_cons_app_inv in Hp.
  split.
  - apply Forall_forall. intros e He.
    assert (Hc : In e (combine tags' (map snd blocks'))).
    { eapply Permutation_in; [symmetry; exact Hp | exact He]. }
    destruct e as [x y]. apply in_combine_l in Hc. cbn [fst].
    inversion Hs as [|? ? _ Hall]; subst.
    rewrite Forall_forall in Hall. now apply Hall.
  - rewrite remaining_perm. now symmetry.
Qed.

(* the tagged blocks are as long as the blocks *)
Lemma uniform_tagged (bs : nat) (tb : list (T * list T)) (tags : list T)
    (blocks : list (T * list T)) :
  Forall (fun e => S (length (snd e)) = bs) blocks ->
  Permutation tb (combine tags (map snd blocks)) ->
  Forall (fun e => S (length (snd e)) = bs) tb.
Proof.
  intros Hu Hp. apply Forall_forall. intros e He.
  assert (Hc : In e (combine tags (map snd blocks))).
  { eapply Permutation_in; [exact Hp | exact He]. }
  destruct e as [x y]. apply in_combine_r in Hc.
  apply in_map_iff in Hc. destruct Hc as (blk & E & Hb).
  rewrite Forall_forall in Hu. cbn [snd]. rewrite <- E. now apply Hu.
Qed.

Lemma sorted_all_below (l : list T) (z f : T) :
  sorted_list compare (l ++ [z]) -> compare z f < 0 ->
  Forall (fun y => compare y f < 0) (l ++ [z]).
Proof.
  intros Hs Hz. apply Forall_app. split; [| now constructor].
  apply Forall_forall. intros y Hy.
  apply (compare_le_lt compare Horder y z f); [| exact Hz].
  apply (sorted_list_later compare l [z]); auto. now left.
Qed.

(* what has been merged when an A block is dropped *)
Lemma drop_merge (aj : list T) (f : T) (later Bm l1 l2 Rest : list T) :
  sorted_list compare (aj ++ f :: later) ->
  sorted_list compare (Bm ++ l1 ++ l2 ++ Rest) ->
  Forall (fun z => compare z f < 0) Bm ->
  Forall (fun y => compare y f < 0) l1 ->
  Forall (fun y => compare y f >= 0) l2 ->
  (l2 = [] -> Rest = []) ->
  merge compare (aj ++ f :: later) (Bm ++ l1 ++ l2 ++ Rest)
  = merge compare aj (Bm ++ l1) ++ merge compare (f :: later) (l2 ++ Rest).
Proof.
  intros Ha Hb HBm Hl1 Hl2 Hend.
  replace (Bm ++ l1 ++ l2 ++ Rest) with ((Bm ++ l1) ++ (l2 ++ Rest)) in *
    by (now rewrite <- app_assoc).
  apply sorted_list_app in Ha. destruct Ha as (Haj & Hfl & Hcross).
  apply sorted_list_app in Hb. destruct Hb as (Hb1 & Hb2 & _).
  apply (merge_app compare); apply Forall_forall.
  - intros y Hy. apply Forall_forall. intros x Hx.
    apply (compare_lt_le compare Horder y f x).
    + assert (Hall : Forall (fun y => compare y f < 0) (Bm ++ l1))
        by (apply Forall_app; split; assumption).
      rewrite Forall_forall in Hall. now apply Hall.
    + apply (sorted_head_le compare Horder f x later); assumption.
  - intros x Hx. apply Forall_forall. intros y Hy.
    destruct l2 as [|y0 l2'].
    + rewrite (Hend eq_refl) in Hy. destruct Hy.
    + apply (compare_le_ge compare Horder).
      apply (le_transitive compare Horder x f y).
      * rewrite Forall_forall in Hcross.
        specialize (Hcross x Hx). rewrite Forall_forall in Hcross.
        apply Hcross. now left.
      * apply (le_transitive compare Horder f y0 y).
        -- apply (compare_le_ge compare Horder). exact (Forall_inv Hl2).
        -- apply (sorted_head_le compare Horder y0 y (l2' ++ Rest)); auto.
Qed.
End RollingFacts.

(** * The rolling loop *)

Ltac open_rolling H :=
  destruct H as [HlenR Hlen1 Hlen2 Hheld Hinpl Hunif Htags Htagged Hstrict
                 Hleft Hright Hpassed HBl HBb HBr HsA HeA HbB HsLA HeLA HlB
                 HiA].

Section RollLoop.
Context {T : Type} (size : Z) (compare : Comparison T).
Hypothesis Horder : total_order compare.
Context (base : list T) (r b1 b2 : Z) (nR n1 n2 : nat).
Hypothesis Hok : windows_ok size base r b1 b2 nR n1 n2.
Context (bs : nat) (B buffer2 : Range).
Hypothesis Hbs : (1 <= bs)%nat.
Hypothesis HB : end_ B = r + Z.of_nat nR.
Hypothesis Hb2s : start buffer2 = b2.
Hypothesis Hb2l : Range_length buffer2 = Z.of_nat n2.
Hypothesis Hroom : n2 <> 0%nat -> (bs <= n2)%nat.
#[local] Hint Extern 0 (Store (list _) _) =>
  exact (list_store size) : typeclass_instances.

#[local] Abbreviation arr := (three_windows base r b1 b2).

(* which way a round of the loop goes *)
Lemma round_cases (Mo held aj Bm Bl : list T) (tb : list (T * list T))
    (Bb Br Ud tags : list T) (f : T) (t0 : list T)
    (blocks' : list (T * list T)) (Ur V2 : list T) (rl : Rolling) :
  rolling compare r b1 nR n1 n2 bs Mo held aj Bm Bl tb Bb Br Ud tags
    ((f, t0) :: blocks') Ur V2 rl ->
  ((Bb = [] \/ exists l z, Bl = l ++ [z] /\ compare z f >= 0) /\
   start (lastB rl) = r + Z.of_nat (length (Mo ++ held ++ Bm)) /\
   end_ (lastB rl) = start (lastB rl) + Z.of_nat (length Bl)) \/
  (Bb <> [] /\ passes compare r (Mo ++ held ++ Bm) Bl f rl /\
   Forall (fun y => compare y f < 0) Bl).
Proof.
  intros Hinv. open_rolling Hinv.
  assert (HsBl : sorted_list compare Bl).
  { apply sorted_list_app in Hright.
    destruct Hright as (_ & H & _).
    apply sorted_list_app in H. tauto. }
  destruct (last_case Bl) as [-> | (l & z & ->)].
  - destruct Bb as [|y Bb'].
    + left. split; [now left |].
      destruct HlB as [? | (_ & _ & Hne)]; [assumption |].
      now elim Hne.
    + right. split; [discriminate |]. split; [| constructor].
      left. destruct HlB as [[Hs He] | (H0 & _)]; [| exact H0].
      unfold Range_length. rewrite He. cbn [length Z.of_nat].
      rewrite Z.add_0_r. unfold sub, wrap. rewrite Z.sub_diag.
      reflexivity.
  - destruct HlB as [[Hs He] | (_ & E & _)];
      [| now destruct l].
    destruct (Z_lt_ge_dec (compare z f) 0) as [Hlt | Hge].
    + destruct Bb as [|y Bb'].
      * left. split; [now left | split; assumption].
      * right. split; [discriminate |].
        split; [| now apply (sorted_all_below compare Horder)].
        right. exists l, z. repeat split; assumption.
    + left. split; [| split; assumption].
      right. exists l, z. split; [reflexivity | exact Hge].
Qed.

(* the state after the first A block has changed places with a whole B
   block *)
Lemma rolling_after_roll (Mo held aj Bm Bl : list T) (e0 : T * list T)
    (trest : list (T * list T)) (Bb Br Ud tags : list T) (f : T)
    (t0 : list T) (blocks' : list (T * list T)) (Ur V2 : list T)
    (rl : Rolling) :
  rolling compare r b1 nR n1 n2 bs Mo held aj Bm Bl (e0 :: trest) Bb Br Ud
    tags ((f, t0) :: blocks') Ur V2 rl ->
  length Bb = bs ->
  Forall (fun y => compare y f < 0) Bl ->
  rolling compare r b1 nR n1 n2 bs Mo held aj (Bm ++ Bl) Bb (trest ++ [e0])
    (firstn bs Br) (skipn bs Br) Ud tags ((f, t0) :: blocks') Ur V2
    {| blockA := Range_new (start (blockA rl) + Z.of_nat bs)
                           (end_ (blockA rl) + Z.of_nat bs);
       blockB := Range_new (start (blockB rl) + Z.of_nat bs)
                   (if (length Br <? bs)%nat then end_ B
                    else end_ (blockB rl) + Z.of_nat bs);
       lastA := lastA rl;
       lastB := Range_new (start (blockA rl))
                          (start (blockA rl) + Z.of_nat bs);
       indexA := indexA rl |}.
Proof.
  intros Hinv HBbs HBlf. open_rolling Hinv.
  pose proof (flat_uniform bs _ (uniform_tagged bs _ _ _ Hunif Htagged))
    as Hft.
  cbn [length] in Hft.
  pose proof (firstn_skipn bs Br) as Hfs.
  assert (Hlfs : (length (firstn bs Br) + length (skipn bs Br))%nat
                 = length Br).
  { rewrite <- Hfs at 3. now rewrite length_app. }
  assert (Hflat : length (flat (trest ++ [e0])) = length (flat (e0 :: trest))).
  { rewrite flat_app.
    change (flat (e0 :: trest)) with ((fst e0 :: snd e0) ++ flat trest).
    change (flat [e0]) with ((fst e0 :: snd e0) ++ []).
    lengths. lia. }
  destruct HbB as [[E _] | (_ & HsB & HeB)];
    [rewrite E in HBbs; cbn in HBbs; lia |].
  constructor; cbn [blockA blockB lastA lastB indexA start end_]; auto.
  - rewrite <- HlenR. lengths. rewrite Hflat. lia.
  - rewrite <- Htagged. apply Permutation_sym, Permutation_cons_append.
  - rewrite Hfs. now rewrite <- app_assoc.
  - intros f' t' rest E. injection E as <- _ _.
    apply Forall_app. split; [eapply Hpassed; reflexivity | exact HBlf].
  - rewrite length_firstn. lia.
  - intros Hne. rewrite length_firstn.
    destruct (skipn bs Br) eqn:Es; [now elim Hne |].
    apply (f_equal (@length T)) in Es. rewrite length_skipn in Es.
    cbn [length] in Es. lia.
  - rewrite HsA. lengths. lia.
  - rewrite HeA. lengths. lia.
  - destruct (firstn bs Br) as [|y F] eqn:EF.
    + left. split; [reflexivity |].
      assert (EBr : Br = []).
      { destruct Br; [reflexivity |]. destruct bs; [lia | discriminate]. }
      subst Br. cbn [length]. replace (0 <? bs)%nat with true
        by (symmetry; apply Nat.ltb_lt; lia).
      unfold Range_length. cbn [start end_].
      replace (start (blockB rl) + Z.of_nat bs) with (end_ B).
      * unfold sub, wrap. now rewrite Z.sub_diag.
      * rewrite HB, HsB, HeA, <- HlenR. lengths. lia.
    + right. split; [discriminate |]. split; [lia |].
      rewrite <- EF, length_firstn.
      destruct (Nat.ltb_spec (length Br) bs).
      * rewrite HB, HsB, HeA, <- HlenR. lengths. lia.
      * rewrite HeB. lia.
  - left. split; [exact HsA | lia].
Qed.

(* the state after the last, shorter B block has been rotated before the
   A blocks *)
Lemma rolling_after_rotate (Mo held aj Bm Bl : list T)
    (tb : list (T * list T)) (Bb Ud tags : list T) (f : T)
    (t0 : list T) (blocks' : list (T * list T)) (Ur V2 : list T)
    (rl : Rolling) :
  rolling compare r b1 nR n1 n2 bs Mo held aj Bm Bl tb Bb [] Ud
    tags ((f, t0) :: blocks') Ur V2 rl ->
  Bb <> [] ->
  Forall (fun y => compare y f < 0) Bl ->
  rolling compare r b1 nR n1 n2 bs Mo held aj (Bm ++ Bl) Bb tb [] [] Ud tags
    ((f, t0) :: blocks') Ur V2
    {| blockA := Range_new (start (blockA rl) + Z.of_nat (length Bb))
                           (end_ (blockA rl) + Z.of_nat (length Bb));
       blockB := Range_new (start (blockB rl)) (start (blockB rl));
       lastA := lastA rl;
       lastB := Range_new (start (blockA rl))
                          (start (blockA rl) + Z.of_nat (length Bb));
       indexA := indexA rl |}.
Proof.
  intros Hinv HBne HBlf. open_rolling Hinv.
  pose proof (flat_uniform bs _ (uniform_tagged bs _ _ _ Hunif Htagged))
    as Hft.
  constructor; cbn [blockA blockB lastA lastB indexA start end_]; auto.
  - rewrite <- HlenR. lengths. lia.
  - rewrite app_nil_r in *. now rewrite <- app_assoc.
  - intros f' t' rest E. injection E as <- _ _.
    apply Forall_app. split; [eapply Hpassed; reflexivity | exact HBlf].
  - cbn. lia.
  - intros H. now elim H.
  - rewrite HsA. lengths. lia.
  - rewrite HeA. lengths. lia.
  - left. split; [reflexivity |]. unfold Range_length. cbn [start end_].
    unfold sub, wrap. now rewrite Z.sub_diag.
Qed.

(* the state after the least A block has been dropped *)
Lemma rolling_after_drop (Mo held aj Bm l1 l2 : list T)
    (tb rem : list (T * list T)) (Bb Br Ud : list T) (u0 : T)
    (tags' : list T) (f : T) (t0 : list T) (blocks' : list (T * list T))
    (Ur V2 Snew V2new : list T) (rl : Rolling) :
  rolling compare r b1 nR n1 n2 bs Mo held aj Bm (l1 ++ l2) tb Bb Br Ud
    (u0 :: tags') ((f, t0) :: blocks') Ur V2 rl ->
  Permutation rem (combine tags' (map snd blocks')) ->
  length Snew = bs -> (n2 = 0%nat -> Snew = f :: t0) ->
  length (stash n2 (f :: t0) ++ V2new) = n2 ->
  rolling compare r b1 nR n1 n2 bs (Mo ++ merge compare aj (Bm ++ l1)) Snew
    (f :: t0) [] l2 rem Bb Br (Ud ++ [u0]) tags' blocks' Ur V2new
    {| blockA := Range_new (start (blockA rl) + Z.of_nat bs)
                   (end_ (blockA rl));
       blockB := blockB rl;
       lastA :=
         Range_new (r + Z.of_nat (length (Mo ++ held ++ Bm ++ l1)))
           (r + Z.of_nat (length (Mo ++ held ++ Bm ++ l1) + bs));
       lastB :=
         Range_new (r + Z.of_nat (length (Mo ++ held ++ Bm ++ l1) + bs))
           (r + Z.of_nat (length (Mo ++ held ++ Bm ++ l1) + bs)
            + Z.of_nat (length l2));
       indexA := indexA rl + 1 |}.
Proof.
  intros Hinv Hrem HSn Hin H2'. open_rolling Hinv.
  pose proof (flat_uniform bs _ (uniform_tagged bs _ _ _ Hunif Htagged))
    as Hft.
  pose proof (Forall_inv Hunif) as Ht0. cbn [snd] in Ht0.
  pose proof (Forall_inv_tail Hunif) as Hunif'.
  pose proof (flat_uniform bs _ (uniform_tagged bs _ _ _ Hunif' Hrem))
    as Hfr.
  pose proof (Permutation_length Htagged) as Hlt.
  pose proof (Permutation_length Hrem) as Hlr.
  cbn [map combine length] in Hlt.
  pose proof (merge_length compare aj (Bm ++ l1)) as Hml.
  constructor; cbn [blockA blockB lastA lastB indexA start end_]; auto.
  - rewrite <- HlenR. lengths. rewrite Hml, Hft, Hfr, Hlt, Hlr. lengths.
    rewrite Nat.mul_succ_r. lia.
  - cbn [map] in Hlen1. rewrite <- Hlen1. lengths. lia.
  - cbn [length]. lia.
  - inversion Hstrict; assumption.
  - apply sorted_list_app in Hleft. tauto.
  - apply sorted_list_app in Hright. destruct Hright as (_ & H & _).
    rewrite <- app_assoc in H. apply sorted_list_app in H. tauto.
  - lengths. lia.
  - rewrite HsA. lengths. rewrite Hml. lengths. lia.
  - rewrite HeA. lengths. rewrite Hml, Hlt, Hlr. lengths.
    rewrite Nat.mul_succ_r. lia.
  - lengths. rewrite Hml. lengths. f_equal. lia.
  - lengths. lia.
  - left. split; [| reflexivity]. lengths. rewrite Hml. lengths. f_equal.
    lia.
  - rewrite HiA. lengths. lia.
Qed.

(* what the state says once every A block has been dropped *)
Lemma rolling_done (Mo held aj Bl Bb Br Ud Ur V2 : list T) (rl : Rolling) :
  rolling compare r b1 nR n1 n2 bs Mo held aj [] Bl [] Bb Br Ud [] [] Ur V2
    rl ->
  length (Mo ++ held ++ Bl ++ Bb ++ Br) = nR /\
  length (stash n2 aj ++ V2) = n2 /\
  length held = length aj /\
  (n2 = 0%nat -> held = aj) /\
  start (lastA rl) = r + Z.of_nat (length Mo) /\
  end_ (lastA rl) = start (lastA rl) + Z.of_nat (length held) /\
  sorted_list compare aj /\ sorted_list compare (Bl ++ Bb ++ Br).
Proof.
  intros Hinv. open_rolling Hinv.
  cbn [flat flat_map app] in *. rewrite app_nil_r in Hleft.
  repeat split; assumption.
Qed.
End RollLoop.

(** * What the rolling loop leaves *)

Section RollSpec.
Context {T : Type} (size : Z) (compare : Comparison T).
Hypothesis Horder : total_order compare.
Context (base : list T) (r b1 b2 : Z) (nR n1 n2 : nat).
Hypothesis Hok : windows_ok size base r b1 b2 nR n1 n2.
Context (bs : nat) (B buffer2 : Range).
Hypothesis Hbs : (1 <= bs)%nat.
Hypothesis HB : end_ B = r + Z.of_nat nR.
Hypothesis Hb2s : start buffer2 = b2.
Hypothesis Hb2l : Range_length buffer2 = Z.of_nat n2.
Hypothesis Hroom : n2 <> 0%nat -> (bs <= n2)%nat.
#[local] Hint Extern 0 (Store (list _) _) =>
  exact (list_store size) : typeclass_instances.

#[local] Abbreviation arr := (three_windows base r b1 b2).

(* the loop ends with every A block dropped, the last one still to be
   merged with the B values after it *)
Lemma roll_blocks_spec (fuel : nat) :
  forall (Mo held aj Bm Bl : list T) (tb : list (T * list T))
         (Bb Br Ud tags : list T) (blocks : list (T * list T))
         (Ur V2 : list T) (rl : Rolling),
    rolling compare r b1 nR n1 n2 bs Mo held aj Bm Bl tb Bb Br Ud tags
      blocks Ur V2 rl ->
    blocks <> [] ->
    (length blocks + length Bb + length Br + nR <= fuel)%nat ->
    exists Mo' held' aj' Brest V2' rl',
      roll_blocks fuel
        (arr (Mo ++ held ++ Bm ++ Bl ++ flat tb ++ Bb ++ Br)
           (Ud ++ map fst blocks ++ Ur) (stash n2 aj ++ V2))
        size compare [] 0 (Z.of_nat bs) buffer2 B rl
      = Done (arr (Mo' ++ held' ++ Brest) (Ud ++ tags ++ Ur)
                (stash n2 aj' ++ V2'), [], rl') /\
      Mo' ++ merge compare aj' Brest
      = Mo ++ merge compare (aj ++ flat blocks) (Bm ++ Bl ++ Bb ++ Br) /\
      (n2 <> 0%nat -> Permutation (held' ++ V2') (held ++ V2)) /\
      length (Mo' ++ held' ++ Brest) = nR /\
      length (stash n2 aj' ++ V2') = n2 /\
      length held' = length aj' /\
      (n2 = 0%nat -> held' = aj') /\
      start (lastA rl') = r + Z.of_nat (length Mo') /\
      end_ (lastA rl') = start (lastA rl') + Z.of_nat (length held') /\
      sorted_list compare aj' /\ sorted_list compare Brest.
Proof.
  induction fuel as [|fuel IH];
    intros Mo held aj Bm Bl tb Bb Br Ud tags blocks Ur V2 rl Hinv Hne Hfuel.
  { destruct blocks; [now elim Hne | cbn [length] in Hfuel; lia]. }
  destruct blocks as [|[f t0] blocks']; [now elim Hne |]. clear Hne.
  pose proof Hinv as Hinv0. open_rolling Hinv0.
  destruct tags as [|u0 tags']; [discriminate Htags |].
  pose proof (uniform_tagged bs _ _ _ Hunif Htagged) as Hutb.
  pose proof (flat_uniform bs _ Hutb) as Hft.
  assert (HsBl : sorted_list compare Bl).
  { apply sorted_list_app in Hright. destruct Hright as (_ & H & _).
    apply sorted_list_app in H. tauto. }
  assert (Hsaj : sorted_list compare aj).
  { apply sorted_list_app in Hleft. tauto. }
  assert (HnRf : (nR <= fuel)%nat) by (cbn [length] in Hfuel; lia).
  cbn [map fst].
  destruct (round_cases compare Horder r b1 nR n1 n2 bs
              Mo held aj Bm Bl tb Bb Br Ud (u0 :: tags') f t0 blocks' Ur V2
              rl Hinv)
    as [(Hd & HsLB & HeLB) | (HBne & Hpass & HBlf)].
  - (* the least A block is dropped *)
    destruct (sorted_below_parts compare Horder f Bl HsBl)
      as (l1 & l2 & -> & Hl1 & Hl2).
    destruct (least_tag compare tb u0 tags' f t0 blocks' Hstrict Htagged)
      as (tb1 & tb2 & -> & Hmin & Hrem).
    replace (Mo ++ held ++ Bm ++ (l1 ++ l2)
               ++ flat (tb1 ++ (u0, t0) :: tb2) ++ Bb ++ Br)
      with (Mo ++ held ++ Bm ++ l1 ++ l2
              ++ flat (tb1 ++ (u0, t0) :: tb2) ++ (Bb ++ Br))
      by (app_norm; reflexivity).
    destruct (roll_step_drop size compare Horder base r b1 b2 nR n1 n2 Hok
                bs B buffer2 Hbs HB Hb2s Hb2l Mo held aj Bm l1 l2 tb1 tb2 u0
                t0 (Bb ++ Br) Ud (map fst blocks' ++ Ur) V2 f rl fuel)
      as (Snew & V2new & HSn & Hin & Hperm & H2' & E); auto.
    { rewrite <- HlenR. lengths. lia. }
    { lengths. lia. }
    { replace (Bm ++ (l1 ++ l2) ++ Bb ++ Br)
        with ((Bm ++ l1) ++ (l2 ++ Bb ++ Br)) in Hright
        by (app_norm; reflexivity).
      apply sorted_list_app in Hright. tauto. }
    { destruct Hd as [-> | Hd]; [| now right].
      left. destruct HbB as [[_ H0] | [Hc _]]; [exact H0 | now elim Hc]. }
    replace (Ud ++ (f :: map fst blocks') ++ Ur)
      with (Ud ++ f :: map fst blocks' ++ Ur) by reflexivity.
    rewrite E. cbv zeta. clear E.
    pose proof (rolling_after_drop compare r b1 nR n1 n2 bs Hbs Hroom
                  Mo held aj Bm l1 l2 _ (remaining tb1 tb2) Bb Br Ud u0
                  tags' f t0 blocks' Ur V2 Snew V2new rl Hinv Hrem HSn Hin
                  H2') as Hinv'.
    assert (Hmerge :
      (Mo ++ merge compare aj (Bm ++ l1))
        ++ merge compare ((f :: t0) ++ flat blocks') ([] ++ l2 ++ Bb ++ Br)
      = Mo ++ merge compare (aj ++ flat ((f, t0) :: blocks'))
                (Bm ++ (l1 ++ l2) ++ Bb ++ Br)).
    { change (flat ((f, t0) :: blocks')) with (f :: (t0 ++ flat blocks')).
      replace (Bm ++ (l1 ++ l2) ++ Bb ++ Br)
        with (Bm ++ l1 ++ l2 ++ (Bb ++ Br)) in *
        by (app_norm; reflexivity).
      rewrite (drop_merge compare Horder aj f (t0 ++ flat blocks') Bm l1 l2
                 (Bb ++ Br)); auto.
      - cbn [app]. now rewrite <- app_assoc.
      - eapply Hpassed; reflexivity.
      - intros ->. rewrite app_nil_r in *.
        destruct Hd as [-> | (l & z & El & Hz)].
        + destruct Br; [reflexivity |].
          specialize (HBr ltac:(discriminate)). cbn in HBr. lia.
        + subst l1. apply Forall_app in Hl1. destruct Hl1 as [_ Hl1].
          apply Forall_inv in Hl1. lia. }
    pose proof (Permutation_length Hrem) as Hlrem.
    rewrite length_combine, length_map in Hlrem.
    assert (Htl : length tags' = length blocks')
      by (cbn [length] in Htags; lia).
    rewrite Htl, Nat.min_id in Hlrem.
    cbn [end_].
    match type of Hinv' with
    | rolling _ _ _ _ _ _ _ _ _ _ _ _ _ _ _ _ _ _ _ _ ?R =>
        set (rl1 := R) in *
    end.
    destruct blocks' as [|blk blocks''].
    + destruct (remaining tb1 tb2) as [|? ?]; [| discriminate Hlrem].
      destruct tags'; [| discriminate Htl].
      cbn [length Nat.eqb flat flat_map map app] in *.
      rewrite app_nil_r in Hmerge.
      exists (Mo ++ merge compare aj (Bm ++ l1)), Snew, (f :: t0),
        (l2 ++ Bb ++ Br), V2new, rl1.
      split; [| split; [exact Hmerge | split; [exact Hperm |]]].
      * do 3 f_equal. now rewrite <- app_assoc.
      * apply rolling_done in Hinv'. exact Hinv'.
    + destruct (remaining tb1 tb2) as [|e rem'] eqn:Erem;
        [discriminate Hlrem |].
      cbn [length Nat.eqb].
      destruct (IH _ _ _ _ _ _ _ _ _ _ _ _ _ _ Hinv')
        as (Mo' & held' & aj' & Brest & V2' & rl' & E & Hm & Hp & Hfin);
        [discriminate | cbn [length] in *; lia |].
      exists Mo', held', aj', Brest, V2', rl'.
      split; [| split; [| split; [| exact Hfin]]].
      * replace (Ud ++ (u0 :: tags') ++ Ur)
          with ((Ud ++ [u0]) ++ tags' ++ Ur) by (app_norm; reflexivity).
        rewrite <- E. do 2 f_equal; app_norm; reflexivity.
      * rewrite Hm. exact Hmerge.
      * intros Hn. rewrite (Hp Hn). exact (Hperm Hn).
  - (* the A blocks roll on *)
    destruct HbB as [[Hc _] | (_ & HsB & HeB)]; [now elim HBne |].
    destruct tb as [|e0 trest].
    { apply Permutation_length in Htagged. discriminate Htagged. }
    pose proof (Forall_inv Hutb) as He0.
    pose proof (flat_uniform bs _ (Forall_inv_tail Hutb)) as Hftr.
    change (flat (e0 :: trest)) with ((fst e0 :: snd e0) ++ flat trest) in *.
    replace (Mo ++ held ++ Bm ++ Bl
               ++ ((fst e0 :: snd e0) ++ flat trest) ++ Bb ++ Br)
      with ((Mo ++ held ++ Bm) ++ Bl
              ++ (fst e0 :: snd e0) ++ flat trest ++ Bb ++ Br) in *
      by (app_norm; reflexivity).
    replace (Ud ++ (f :: map fst blocks') ++ Ur)
      with (Ud ++ f :: map fst blocks' ++ Ur) by reflexivity.
    destruct (Nat.eq_dec (length Bb) bs) as [HBbs | HBbs].
    + rewrite (roll_step_roll size compare base r b1 b2 nR n1 n2 Hok bs B
                 buffer2 Hbs HB (Mo ++ held ++ Bm) Bl (fst e0 :: snd e0)
                 (flat trest) Bb Br Ud (map fst blocks' ++ Ur)
                 (stash n2 aj ++ V2) f rl fuel); auto;
        try (rewrite ?HsA, ?HeA; lengths; cbn [length] in *; lia).
      pose proof (rolling_after_roll compare r b1 nR n1 n2 bs B Hbs HB
                    Hroom Mo held aj Bm Bl e0 trest Bb Br Ud (u0 :: tags')
                    f t0 blocks' Ur V2 rl Hinv HBbs HBlf) as Hinv'.
      destruct (IH _ _ _ _ _ _ _ _ _ _ _ _ _ _ Hinv')
        as (Mo' & held' & aj' & Brest & V2' & rl' & E & Hm & Hp & Hfin);
        [discriminate | |].
      { pose proof (firstn_skipn bs Br) as Hfs.
        apply (f_equal (@length T)) in Hfs. rewrite length_app in Hfs.
        cbn [length] in *. lia. }
      exists Mo', held', aj', Brest, V2', rl'.
      split; [| split; [| split; [exact Hp | exact Hfin]]].
      * rewrite <- E. do 2 f_equal. rewrite flat_app.
        change (flat [e0]) with ((fst e0 :: snd e0) ++ []).
        rewrite <- (firstn_skipn bs Br) at 1.
        app_norm. reflexivity.
      * rewrite Hm. rewrite (firstn_skipn bs Br). now rewrite <- app_assoc.
    + assert (EBr : Br = []).
      { destruct Br; [reflexivity |].
        specialize (HBr ltac:(discriminate)). contradiction. }
      subst Br.
      assert (Hpos : (0 < length Bb < bs)%nat).
      { destruct Bb; [now elim HBne | cbn [length] in *; lia]. }
      replace ((Mo ++ held ++ Bm) ++ Bl
                 ++ (fst e0 :: snd e0) ++ flat trest ++ Bb ++ [])
        with ((Mo ++ held ++ Bm) ++ Bl
                ++ ((fst e0 :: snd e0) ++ flat trest) ++ Bb ++ []) in *
        by (app_norm; reflexivity).
      rewrite (roll_step_rotate size compare base r b1 b2 nR n1 n2 Hok bs B
                 buffer2 Hbs (Mo ++ held ++ Bm) Bl
                 ((fst e0 :: snd e0) ++ flat trest) Bb [] Ud
                 (map fst blocks' ++ Ur) (stash n2 aj ++ V2) f rl fuel);
        auto;
        try (rewrite <- ?app_assoc; assumption);
        try (rewrite ?HsA, ?HeA; lengths; cbn [length] in *; lia).
      pose proof (rolling_after_rotate compare r b1 nR n1 n2 bs Hbs Hroom
                    Mo held aj Bm Bl (e0 :: trest) Bb Ud (u0 :: tags')
                    f t0 blocks' Ur V2 rl Hinv HBne HBlf) as Hinv'.
      destruct (IH _ _ _ _ _ _ _ _ _ _ _ _ _ _ Hinv')
        as (Mo' & held' & aj' & Brest & V2' & rl' & E & Hm & Hp & Hfin);
        [discriminate | cbn [length] in *; lia |].
      exists Mo', held', aj', Brest, V2', rl'.
      split; [| split; [| split; [exact Hp | exact Hfin]]].
      * rewrite <- E. do 2 f_equal.
        change (flat (e0 :: trest)) with ((fst e0 :: snd e0) ++ flat trest).
        app_norm. reflexivity.
      * rewrite Hm. now rewrite <- app_assoc.
Qed.
End RollSpec.

(** * The block merge *)

Section Blocks.
Context {T : Type}.

(* a list of [bs * n] items is [n] blocks of [bs] items *)
Lemma whole_blocks (bs : nat) :
  (1 <= bs)%nat ->
  forall (n : nat) (l : list T),
    length l = (bs * n)%nat ->
    exists blocks : list (T * list T),
      l = flat blocks /\
      Forall (fun e => S (length (snd e)) = bs) blocks /\
      length blocks = n.
Proof.
  intros Hbs. induction n as [|n IH]; intros l Hl.
  - exists []. rewrite Nat.mul_0_r in Hl. destruct l; [| discriminate].
    repeat split. constructor.
  - pose proof (firstn_skipn bs l) as Hfs.
    assert (Hf : length (firstn bs l) = bs) by (rewrite length_firstn; nia).
    assert (Hs : length (skipn bs l) = (bs * n)%nat)
      by (rewrite length_skipn; nia).
    destruct (IH _ Hs) as (blocks & Eb & Hu & Hn).
    destruct (firstn bs l) as [|f t] eqn:Ef; [cbn in Hf; lia |].
    exists ((f, t) :: blocks). split; [| split].
    + rewrite <- Hfs, Eb. reflexivity.
    + constructor; [exact Hf | exact Hu].
    + cbn [length]. now rewrite Hn.
Qed.

(* a list as a shorter first block and whole blocks *)
Lemma blocks_exist (bs : nat) (l : list T) :
  (1 <= bs)%nat ->
  exists (a0 : list T) (blocks : list (T * list T)),
    l = a0 ++ flat blocks /\
    length a0 = (length l mod bs)%nat /\
    Forall (fun e => S (length (snd e)) = bs) blocks /\
    length blocks = (length l / bs)%nat.
Proof.
  intros Hbs.
  pose proof (Nat.div_mod_eq (length l) bs) as Hdm.
  pose proof (Nat.mod_upper_bound (length l) bs ltac:(lia)) as Hlt.
  pose proof (firstn_skipn (length l mod bs) l) as Hfs.
  destruct (whole_blocks bs Hbs (length l / bs)
              (skipn (length l mod bs) l)) as (blocks & Eb & Hu & Hn).
  { rewrite length_skipn. lia. }
  exists (firstn (length l mod bs) l), blocks.
  split; [now rewrite <- Eb | split; [| split; assumption]].
  rewrite length_firstn. lia.
Qed.

Lemma StronglySorted_firstn (R : T -> T -> Prop) (k : nat) (l : list T) :
  StronglySorted R l -> StronglySorted R (firstn k l).
Proof.
  revert k. induction l as [|x l IH]; intros k Hs.
  - destruct k; constructor.
  - destruct k as [|k]; [constructor |].
    inversion Hs as [|? ? Hs' Hall]; subst. cbn [firstn].
    constructor; [now apply IH |].
    rewrite Forall_forall in *. intros y Hy. apply Hall.
    rewrite <- (firstn_skipn k l). apply in_or_app. now left.
Qed.
End Blocks.

Section BlockMerge.
Context {T : Type} (size : Z) (compare : Comparison T).
Hypothesis Horder : total_order compare.
Context (base : list T) (r b1 b2 : Z) (nR n1 n2 : nat).
Hypothesis Hok : windows_ok size base r b1 b2 nR n1 n2.
Context (bs : nat) (buffer2 : Range).
Hypothesis Hbs : (1 <= bs)%nat.
Hypothesis Hb2s : start buffer2 = b2.
Hypothesis Hb2l : Range_length buffer2 = Z.of_nat n2.
Hypothesis Hroom : n2 <> 0%nat -> (bs <= n2)%nat.
#[local] Hint Extern 0 (Store (list _) _) =>
  exact (list_store size) : typeclass_instances.

#[local] Abbreviation arr := (three_windows base r b1 b2).

Lemma stash_nil : stash n2 (@nil T) = [].
Proof. unfold stash. now destruct (n2 =? 0)%nat. Qed.

(* the shorter first A block goes to the second buffer, when there is one *)
Lemma first_block_held (a0 X B1 B2 : list T) (sA lenA : Z) (fuel : nat) :
  length (a0 ++ X) = nR -> length B1 = n1 -> length B2 = n2 ->
  (length a0 < bs)%nat ->
  sA = r -> lenA = Z.of_nat (length a0) ->
  (length a0 <= fuel)%nat ->
  exists held V2,
    length held = length a0 /\
    (n2 = 0%nat -> held = a0) /\
    length (stash n2 a0 ++ V2) = n2 /\
    (n2 <> 0%nat -> Permutation (held ++ V2) B2) /\
    (if lenA <=? 0 then
       c <- lift (memcpy [] 0 (arr (a0 ++ X) B1 B2) (size *% sA)
                    (lenA *% size)) ;;
       Done (arr (a0 ++ X) B1 B2, c)
     else if Range_length buffer2 >? 0 then
       a <- BlockSwap fuel (arr (a0 ++ X) B1 B2) size sA
              (start buffer2) lenA ;;
       Done (a, [])
     else Done (arr (a0 ++ X) B1 B2, []))
    = Done (arr (held ++ X) B1 (stash n2 a0 ++ V2), []).
Proof.
  intros HR H1 H2 Ha0 -> -> Hfuel.
  pose proof (arr_fits size base r b1 b2 nR n1 n2 Hok _ _ _ HR H1 H2)
    as Hfit.
  pose proof (arr_length size base r b1 b2 nR n1 n2 Hok _ _ _ HR H1 H2)
    as Hlen.
  fit_bound Hfit Hbound. rewrite Hlen in Hbound.
  pose proof Hok as (_ & Hr & _).
  rewrite Hb2l.
  destruct a0 as [|x a0'].
  - exists [], B2. rewrite stash_nil.
    repeat split; auto.
  - replace (Z.of_nat (length (x :: a0')) <=? 0) with false
      by (symmetry; apply Z.leb_gt; cbn [length]; lia).
    destruct n2 as [|n2'] eqn:En2.
    + cbn [Z.of_nat Z.gtb Z.compare stash Nat.eqb app].
      destruct B2; [| discriminate].
      exists (x :: a0'), []. repeat split; auto. intros Hn. now elim Hn.
    + replace (Z.of_nat (S n2') >? 0) with true
        by (symmetry; rewrite Z.gtb_ltb; apply Z.ltb_lt; lia).
      cbn [stash Nat.eqb].
      specialize (Hroom ltac:(discriminate)).
      pose proof (firstn_skipn (length (x :: a0')) B2) as Hfs.
      assert (Hf : length (firstn (length (x :: a0')) B2)
                   = length (x :: a0'))
        by (rewrite length_firstn; lia).
      set (K1 := firstn (length (x :: a0')) B2) in *.
      set (K2 := skipn (length (x :: a0')) B2) in *.
      clearbody K1 K2. subst B2.
      exists K1, K2. split; [exact Hf |]. split; [discriminate |].
      split; [lengths; lia |]. split; [reflexivity |].
      rewrite (arr_BlockSwap_buf2 size base r b1 b2 nR n1 (S n2') Hok
                 [] (x :: a0') X [] K1 K2 B1); auto; try lia;
        try (cbn [length] in *; lia).
Qed.

(* the block merge merges two sorted runs that lie side by side, gives
   the first buffer back as it was, and the second with its items in some
   order *)
Lemma block_merge_spec (a b B1 B2 : list T) (A B buffer1 : Range)
    (fuel : nat) :
  length (a ++ b) = nR -> length B1 = n1 -> length B2 = n2 ->
  (length a / bs <= n1)%nat ->
  b <> [] ->
  sorted_list compare a -> sorted_list compare b ->
  strictly_sorted compare B1 ->
  start A = r -> end_ A = r + Z.of_nat (length a) ->
  start B = end_ A -> end_ B = r + Z.of_nat nR ->
  start buffer1 = b1 ->
  (2 * nR <= fuel)%nat ->
  exists B2',
    Permutation B2 B2' /\
    block_merge fuel (arr (a ++ b) B1 B2) size compare [] 0 (Z.of_nat bs)
      buffer1 buffer2 A B
    = Done (arr (merge compare a b) B1 B2', []).
Proof.
  intros HR H1 H2 Hn1 Hb Hsa Hsb HsB1 HsA HeA HsB HeB Hb1s Hfuel.
  pose proof (arr_fits size base r b1 b2 nR n1 n2 Hok _ _ _ HR H1 H2)
    as Hfit.
  pose proof (arr_length size base r b1 b2 nR n1 n2 Hok _ _ _ HR H1 H2)
    as Hlen.
  fit_bound Hfit Hbound. rewrite Hlen in Hbound.
  pose proof Hok as (_ & Hr & Hrb1 & _).
  destruct (blocks_exist bs a Hbs) as (a0 & blocks & Ea & Ha0 & Hu & Hk).
  pose proof (Nat.mod_upper_bound (length a) bs ltac:(lia)) as Hlt.
  pose proof (flat_uniform bs _ Hu) as Hfl.
  pose proof (firstn_skipn (length blocks) B1) as HfsB1.
  assert (Htl : length (firstn (length blocks) B1) = length blocks)
    by (rewrite length_firstn; lia).
  pose proof (StronglySorted_firstn _ (length blocks) B1 HsB1) as Hstags.
  set (tags := firstn (length blocks) B1) in *.
  set (Ur := skipn (length blocks) B1) in *.
  clearbody tags Ur. subst B1.
  assert (HlenA : length a = (length a0 + bs * length blocks)%nat).
  { rewrite Ea at 1. lengths. rewrite Hfl. lia. }
  unfold block_merge.
  replace (Z.of_nat bs =? 0) with false by (symmetry; apply Z.eqb_neq; lia).
  cbn [start end_].
  assert (ERl : Range_length (Range_new (start A) (end_ A))
                = Z.of_nat (length a)).
  { unfold Range_length. cbn [start end_]. rewrite HeA, HsA.
    lengths. unwrap_all. lia. }
  rewrite ERl.
  assert (Emod : Z.of_nat (length a) mod Z.of_nat bs
                 = Z.of_nat (length a0)).
  { rewrite Ha0. rewrite Nat2Z.inj_mod. reflexivity. }
  rewrite Emod.
  assert (Efa : start A +% Z.of_nat (length a0)
                = r + Z.of_nat (length a0)).
  { rewrite HsA. lengths. unwrap_all. lia. }
  rewrite Efa. clear Efa Emod ERl.
  subst a. rewrite <- app_assoc in *.
  change (tags ++ Ur) with ([] ++ tags ++ Ur) in *.
  rewrite (arr_tag_blocks size base r b1 b2 nR n1 n2 Hok a0 b [] Ur B2 bs
             blocks tags (end_ A) (start buffer1)
             (r + Z.of_nat (length a0)) fuel); auto;
    try (cbn [app length]; lia);
    try (rewrite <- HR; lengths; lia);
    try (rewrite HeA, HlenA, Hfl; f_equal; lia).
  2: { pose proof (flat_length blocks). lengths. lia. }
  cbn [bind app].
  assert (ERl : Range_length (Range_new (start A)
                                (r + Z.of_nat (length a0)))
                = Z.of_nat (length a0)).
  { unfold Range_length. cbn [start end_]. rewrite HsA.
    lengths. unwrap_all. lia. }
  rewrite ERl.
  assert (Hltb : length (combine tags (map snd blocks)) = length blocks).
  { rewrite length_combine, length_map, Htl. apply Nat.min_id. }
  pose proof (uniform_tagged bs (combine tags (map snd blocks)) tags blocks
                Hu (Permutation_refl _)) as Hutb.
  pose proof (flat_uniform bs _ Hutb) as Hftb.
  assert (HR2 : length (a0 ++ flat (combine tags (map snd blocks)) ++ b)
                = nR).
  { rewrite <- HR. lengths. rewrite Hftb, Hfl, Hltb. lia. }
  assert (H12 : length (map fst blocks ++ Ur) = n1).
  { rewrite <- H1. lengths. rewrite length_map. lia. }
  destruct (first_block_held a0 (flat (combine tags (map snd blocks)) ++ b)
              (map fst blocks ++ Ur) B2 (start A) (Z.of_nat (length a0))
              fuel)
    as (held & V2 & Hheld & Hinpl & H2' & HpB2 & E); auto;
    try (lengths; lia).
  rewrite E. cbn [bind]. clear E.
  assert (HRl1 : Range_length
                   (Range_new (start A +% Z.of_nat (length a0)) (end_ A))
                 = Z.of_nat (bs * length blocks)).
  { unfold Range_length. cbn [start end_]. rewrite HeA, HsA.
    lengths. rewrite Hfl. unwrap_all. lia. }
  rewrite HRl1.
  assert (Hroll : exists Mo' held' aj' Brest V2' rl',
    (if Z.of_nat (bs * length blocks) >? 0
     then
       roll_blocks fuel
         (arr (held ++ flat (combine tags (map snd blocks)) ++ b)
            (map fst blocks ++ Ur) (stash n2 a0 ++ V2))
         size compare [] 0 (Z.of_nat bs) buffer2 B
         {| blockA := Range_new (start A +% Z.of_nat (length a0)) (end_ A);
            blockB := Range_new (start B)
                        (start B +% Min (Z.of_nat bs) (Range_length B));
            lastA := Range_new (start A) (r + Z.of_nat (length a0));
            lastB := Range_new 0 0;
            indexA := start buffer1 |}
     else
       Done (arr (held ++ flat (combine tags (map snd blocks)) ++ b)
               (map fst blocks ++ Ur) (stash n2 a0 ++ V2), [],
             {| blockA := Range_new (start A +% Z.of_nat (length a0))
                            (end_ A);
                blockB := Range_new (start B)
                            (start B +% Min (Z.of_nat bs) (Range_length B));
                lastA := Range_new (start A) (r + Z.of_nat (length a0));
                lastB := Range_new 0 0;
                indexA := start buffer1 |}))
    = Done (arr (Mo' ++ held' ++ Brest) (tags ++ Ur) (stash n2 aj' ++ V2'),
            [], rl') /\
    Mo' ++ merge compare aj' Brest = merge compare (a0 ++ flat blocks) b /\
    (n2 <> 0%nat -> Permutation (held' ++ V2') (held ++ V2)) /\
    length (Mo' ++ held' ++ Brest) = nR /\
    length (stash n2 aj' ++ V2') = n2 /\
    length held' = length aj' /\
    (n2 = 0%nat -> held' = aj') /\
    start (lastA rl') = r + Z.of_nat (length Mo') /\
    end_ (lastA rl') = start (lastA rl') + Z.of_nat (length held') /\
    sorted_list compare aj' /\ sorted_list compare Brest).
  { destruct blocks as [|blk blocks'] eqn:Eblocks.
    - (* the first block is all of A *)
      destruct tags; [| discriminate Htl].
      rewrite Nat.mul_0_r. cbn [Z.of_nat Z.gtb Z.compare].
      cbn [map combine flat flat_map app] in *.
      exists [], held, a0, b, V2,
        {| blockA := Range_new (start A +% Z.of_nat (length a0)) (end_ A);
           blockB := Range_new (start B)
                       (start B +% Min (Z.of_nat bs) (Range_length B));
           lastA := Range_new (start A) (r + Z.of_nat (length a0));
           lastB := Range_new 0 0;
           indexA := start buffer1 |}.
      cbn [app lastA start end_ length Z.of_nat].
      rewrite app_nil_r in *.
      repeat split; auto; try lia; try (rewrite HsA; lia);
        try (rewrite <- HR2; lengths; lia).
    - rewrite <- Eblocks in *.
      assert (Hbne : blocks <> []) by (rewrite Eblocks; discriminate).
      clear Eblocks blk blocks'.
      replace (Z.of_nat (bs * length blocks) >? 0) with true.
      2: { symmetry. rewrite Z.gtb_ltb. apply Z.ltb_lt.
           destruct blocks; [now elim Hbne | cbn [length]; nia]. }
      pose proof (firstn_skipn bs b) as Hfsb.
      assert (HlB : Range_length B = Z.of_nat (length b)).
      { unfold Range_length. rewrite HeB, HsB, HeA, <- HR.
        lengths. unwrap_all. lia. }
      assert (EMin : start B +% Min (Z.of_nat bs) (Range_length B)
                     = start B + Z.of_nat (length (firstn bs b))).
      { rewrite HlB, length_firstn, HsB, HeA. unfold Min.
        destruct (Z.leb_spec (Z.of_nat bs) (Z.of_nat (length b)));
          lengths; unwrap_all; lia. }
      rewrite EMin.
      assert (EsA1 : start A +% Z.of_nat (length a0)
                     = r + Z.of_nat (length a0)).
      { rewrite HsA. lengths. unwrap_all. lia. }
      rewrite EsA1.
      destruct (roll_blocks_spec size compare Horder base r b1 b2 nR n1 n2
                  Hok bs B buffer2 Hbs HeB Hb2s Hb2l Hroom fuel
                  [] held a0 [] [] (combine tags (map snd blocks))
                  (firstn bs b) (skipn bs b) [] tags blocks Ur V2
                  {| blockA := Range_new (r + Z.of_nat (length a0)) (end_ A);
                     blockB := Range_new (start B)
                                 (start B
                                  + Z.of_nat (length (firstn bs b)));
                     lastA := Range_new (start A)
                                (r + Z.of_nat (length a0));
                     lastB := Range_new 0 0;
                     indexA := start buffer1 |})
        as (Mo' & held' & aj' & Brest & V2' & rl' & E2 & Hm & Hfin);
        auto.
      + constructor;
          cbn [blockA blockB lastA lastB indexA start end_ app length];
          rewrite ?Hfsb; auto.
        * rewrite <- HR2. lengths. lia.
        * lia.
        * rewrite length_firstn. lia.
        * intros Hne. rewrite length_firstn.
          destruct (skipn bs b) eqn:Es; [now elim Hne |].
          apply (f_equal (@length T)) in Es. rewrite length_skipn in Es.
          cbn [length] in Es. lia.
        * lengths. f_equal. lia.
        * rewrite HeA. lengths. rewrite Hfl, Hltb. f_equal. lia.
        * right. split; [| split; [| reflexivity]].
          -- destruct b; [now elim Hb |]. destruct bs; [lia | discriminate].
          -- exact HsB.
        * rewrite HsA. lia.
        * rewrite HsA. lia.
        * right. split; [reflexivity | split; [reflexivity |]].
          destruct b; [now elim Hb |]. destruct bs; [lia | discriminate].
        * rewrite Hb1s. lia.
      + pose proof (f_equal (@length T) Hfsb) as Hlfs.
        rewrite length_app in Hlfs.
        pose proof (flat_length blocks). rewrite <- HR. lengths. lia.
      + cbn [app] in E2, Hm, Hfin. rewrite Hfsb in E2, Hm.
        exists Mo', held', aj', Brest, V2', rl'.
        split; [exact E2 | split; [exact Hm | exact Hfin]]. }
  destruct Hroll as (Mo' & held' & aj' & Brest & V2' & rl' & E2 & Hm & Hp
                     & HlenR' & H2'' & Hheld' & Hinpl' & HsLA' & HeLA'
                     & Hsaj' & HsBrest).
  rewrite E2. cbn [bind]. clear E2.
  replace (Mo' ++ held' ++ Brest) with (Mo' ++ held' ++ Brest ++ []) in *
    by (now rewrite app_nil_r).
  destruct (local_merge_block size compare Horder base r b1 b2 nR n1 n2 Hok
              bs buffer2 Hbs Hb2s Hb2l Mo' held' aj' Brest []
              (tags ++ Ur) V2' (lastA rl')
              (Range_new (end_ (lastA rl')) (end_ B)) fuel)
    as (S' & HpS & E3); auto; cbn [start end_];
    try (rewrite ?HeB, ?HeLA', ?HsLA', <- ?HlenR'; lengths; lia).
  exists (stash n2 S' ++ V2'). split.
  - destruct n2 as [|n2'] eqn:En2.
    + cbn [stash Nat.eqb app] in *.
      destruct B2; [| discriminate]. destruct V2'; [| discriminate].
      constructor.
    + cbn [stash Nat.eqb] in *.
      rewrite <- (HpB2 ltac:(discriminate)).
      rewrite <- (Hp ltac:(discriminate)).
      now apply Permutation_app_tail.
  - rewrite E3. rewrite app_nil_r, Hm. reflexivity.
Qed.
End BlockMerge.

(** * Merging one pair of runs *)

Section RunsInOrder.
Context {T : Type} (compare : Comparison T).
Hypothesis Horder : total_order compare.

(* the runs are in reverse order: every item of [b] goes first *)
Lemma merge_reversed (xa : T) (a' b' : list T) (zb : T) :
  sorted_list compare (b' ++ [zb]) ->
  compare zb xa < 0 ->
  merge compare (xa :: a') (b' ++ [zb]) = (b' ++ [zb]) ++ xa :: a'.
Proof.
  intros Hb Hz.
  rewrite <- (app_nil_r (b' ++ [zb])) at 1.
  rewrite (merge_below compare xa a' (b' ++ [zb]) []).
  - now rewrite merge_nil_r.
  - now apply (sorted_all_below compare Horder).
Qed.

(* the runs are in order already *)
Lemma merge_in_order (a' : list T) (za yb : T) (b' : list T) :
  sorted_list compare (a' ++ [za]) -> sorted_list compare (yb :: b') ->
  compare yb za >= 0 ->
  merge compare (a' ++ [za]) (yb :: b') = (a' ++ [za]) ++ yb :: b'.
Proof.
  intros Ha Hb Hy.
  rewrite <- (app_nil_r (a' ++ [za])) at 1.
  rewrite (merge_not_above compare (a' ++ [za]) [] (yb :: b')).
  - now rewrite merge_nil_l.
  - apply Forall_forall. intros x Hx. apply Forall_forall. intros y Hy'.
    apply (compare_le_ge compare Horder).
    apply (le_transitive compare Horder x za y).
    + apply in_app_or in Hx. destruct Hx as [Hx | [<- | []]].
      * apply (sorted_list_later compare a' [za]); auto. now left.
      * pose proof (sign_flips compare Horder za za).
        destruct (Z_lt_ge_dec (compare za za) 0); lia.
    + apply (le_transitive compare Horder za yb y).
      * now apply (compare_le_ge compare Horder).
      * now apply (sorted_head_le compare Horder yb y b').
Qed.
End RunsInOrder.

Section MergePair.
Context {T : Type} (size : Z) (compare : Comparison T).
Hypothesis Horder : total_order compare.
Context (base : list T) (r b1 b2 : Z) (nR n1 n2 : nat).
Hypothesis Hok : windows_ok size base r b1 b2 nR n1 n2.
#[local] Hint Extern 0 (Store (list _) _) =>
  exact (list_store size) : typeclass_instances.

#[local] Abbreviation arr := (three_windows base r b1 b2).

(* one pair of runs is merged: the runs as they are once the items pulled
   out for the internal buffers are left aside; the buffers are only
   needed when the runs are neither in order nor in reverse order *)
Lemma merge_pair_spec (a b B1 B2 : list T) (s : Buffers) (A B : Range)
    (bs : nat) (fuel : nat) (A1 B1r A2 B2r : Range) (sk0 sk1 : bool) :
  length (a ++ b) = nR -> length B1 = n1 -> length B2 = n2 ->
  sorted_list compare a -> sorted_list compare b ->
  strip (pull0 s) (start A) A B = (A1, B1r, sk0) ->
  strip (pull1 s) (start A) A1 B1r = (A2, B2r, sk1) ->
  (sk0 = true \/ sk1 = true -> a = [] \/ b = []) ->
  (sk0 = false -> sk1 = false ->
     a <> [] /\ b <> [] /\
     start A2 = r /\ end_ A2 = r + Z.of_nat (length a) /\
     start B2r = end_ A2 /\ end_ B2r = r + Z.of_nat nR) ->
  (forall xa za yb zb a1 a2 b1' b2',
     a = xa :: a1 -> a = a2 ++ [za] -> b = yb :: b1' -> b = b2' ++ [zb] ->
     compare zb xa >= 0 -> compare yb za < 0 ->
     (1 <= bs)%nat /\ start (buffer1 s) = b1 /\ start (buffer2 s) = b2 /\
     Range_length (buffer2 s) = Z.of_nat n2 /\
     (n2 <> 0%nat -> (bs <= n2)%nat) /\
     (length a / bs <= n1)%nat /\ strictly_sorted compare B1) ->
  (2 * nR <= fuel)%nat ->
  exists B2',
    Permutation B2 B2' /\
    merge_pair fuel (arr (a ++ b) B1 B2) size compare [] 0 (Z.of_nat bs)
      s A B
    = Done (arr (merge compare a b) B1 B2', []).
Proof.
  intros HR H1 H2 Hsa Hsb Hs0 Hs1 Hskip Hrun Hbuf Hfuel.
  pose proof (arr_fits size base r b1 b2 nR n1 n2 Hok _ _ _ HR H1 H2)
    as Hfit.
  pose proof (arr_length size base r b1 b2 nR n1 n2 Hok _ _ _ HR H1 H2)
    as Hlen.
  fit_bound Hfit Hbound. rewrite Hlen in Hbound.
  pose proof Hok as (_ & Hr & _).
  assert (Hempty : a = [] \/ b = [] ->
                   merge compare a b = a ++ b).
  { intros [-> | ->]; [now rewrite merge_nil_l |].
    now rewrite merge_nil_r, app_nil_r. }
  unfold merge_pair. rewrite Hs0.
  destruct sk0.
  { exists B2. split; [reflexivity |]. rewrite Hempty; auto. }
  rewrite Hs1.
  destruct sk1.
  { exists B2. split; [reflexivity |]. rewrite Hempty; auto. }
  clear Hskip Hempty.
  destruct (Hrun eq_refl eq_refl) as (Hane & Hbne & HsA & HeA & HsB & HeB).
  destruct a as [|xa a1]; [now elim Hane |].
  destruct b as [|yb b1']; [now elim Hbne |].
  destruct (last_case (xa :: a1)) as [E | (a2 & za & Ea)]; [discriminate |].
  destruct (last_case (yb :: b1')) as [E | (b2' & zb & Eb)];
    [discriminate |].
  set (R := (xa :: a1) ++ yb :: b1') in *.
  assert (Hp1 : ptr (arr R B1 B2) (size *% (end_ B2r -% 1)) = Some zb).
  { assert (E : R = ((xa :: a1) ++ b2') ++ zb :: []).
    { unfold R. rewrite Eb. now rewrite <- app_assoc. }
    rewrite E in *.
    apply (arr_ptr_region size base r b1 b2 nR n1 n2 Hok); auto.
    rewrite HeB, <- HR. lengths. unwrap_all. lia. }
  assert (Hp2 : ptr (arr R B1 B2) (size *% start A2) = Some xa).
  { unfold R in *.
    apply (arr_ptr_region size base r b1 b2 nR n1 n2 Hok []); auto.
    rewrite HsA. cbn [length]. lia. }
  assert (Hp3 : ptr (arr R B1 B2) (size *% end_ A2) = Some yb).
  { unfold R in *.
    apply (arr_ptr_region size base r b1 b2 nR n1 n2 Hok (xa :: a1)); auto. }
  assert (Hp4 : ptr (arr R B1 B2) (size *% (end_ A2 -% 1)) = Some za).
  { assert (E : R = a2 ++ za :: yb :: b1').
    { unfold R. rewrite Ea. now rewrite <- app_assoc. }
    rewrite E in *.
    apply (arr_ptr_region size base r b1 b2 nR n1 n2 Hok); auto.
    rewrite HeA. apply (f_equal (@length T)) in Ea. lengths.
    unwrap_all. lia. }
  rewrite Hp1, Hp2, Hp3, Hp4. cbn [call bind].
  destruct (Z_lt_ge_dec (compare zb xa) 0) as [Hrev | Hnrev].
  - (* in reverse order: a rotation *)
    replace (compare zb xa <? 0) with true by (symmetry; now apply Z.ltb_lt).
    exists B2. split; [reflexivity |].
    rewrite Eb. rewrite (merge_reversed compare Horder); auto;
      [| now rewrite <- Eb].
    rewrite <- Eb. unfold R in *.
    assert (HR' : length ([] ++ (xa :: a1) ++ (yb :: b1') ++ []) = nR).
    { rewrite <- HR. cbn [app]. now rewrite app_nil_r. }
    assert (HRl : Range_length A2 = Z.of_nat (length (xa :: a1))).
    { unfold Range_length. rewrite HeA, HsA. lengths. unwrap_all. lia. }
    pose proof (arr_Rotate size base r b1 b2 nR n1 n2 Hok
                  [] (xa :: a1) (yb :: b1') [] B1 B2
                  (Range_new (start A2) (end_ B2r)) (Range_length A2) fuel
                  HR' H1 H2) as E.
    cbn [app] in E. rewrite !app_nil_r in E. apply E; cbn [start end_].
    + rewrite HsA. cbn [length]. lia.
    + rewrite HeB, <- HR. lengths. lia.
    + exact HRl.
    + rewrite <- HR in Hfuel. lengths. lia.
  - replace (compare zb xa <? 0) with false by (symmetry; apply Z.ltb_ge; lia).
    destruct (Z_lt_ge_dec (compare yb za) 0) as [Hmix | Hord].
    + (* neither: the block merge *)
      replace (compare yb za <? 0) with true
        by (symmetry; now apply Z.ltb_lt).
      destruct (Hbuf xa za yb zb a1 a2 b1' b2' eq_refl Ea eq_refl Eb
                  Hnrev Hmix)
        as (Hbs & Hb1s & Hb2s & Hb2l & Hroom & Hn1 & HsB1).
      apply (block_merge_spec size compare Horder base r b1 b2 nR n1 n2 Hok
               bs (buffer2 s) Hbs Hb2s Hb2l Hroom (xa :: a1) (yb :: b1')
               B1 B2 A2 B2r (buffer1 s) fuel); auto.
    + (* in order: nothing to do *)
      replace (compare yb za <? 0) with false
        by (symmetry; apply Z.ltb_ge; lia).
      exists B2. split; [reflexivity |].
      rewrite Ea. rewrite (merge_in_order compare Horder); auto;
        [| now rewrite <- Ea].
      rewrite <- Ea. reflexivity.
Qed.
End MergePair.

(** * What the pulls leave of a pair of ranges *)

Lemma strip_spec (p : Pull) (start0 : Z) (A B : Range) :
  0 <= start A -> 0 <= lead p start0 -> 0 <= trail p start0 ->
  start A + lead p start0 <= end_ A -> end_ A < SIZE_MAX1 ->
  0 <= start B <= end_ B - trail p start0 -> end_ B < SIZE_MAX1 ->
  exists skip,
    strip p start0 A B
    = (Range_new (start A + lead p start0) (end_ A),
       Range_new (start B) (end_ B - trail p start0), skip) /\
    (skip = true ->
     start A + lead p start0 = end_ A \/
     start B = end_ B - trail p start0) /\
    (skip = false ->
     (0 < lead p start0 -> start A + lead p start0 < end_ A) /\
     (0 < trail p start0 -> start B < end_ B - trail p start0)).
Proof.
  intros HA Hl Ht HlA HeA HB HeB.
  unfold strip, lead, trail in *.
  destruct A as [sA eA], B as [sB eB]. cbn [start end_] in *.
  destruct (start0 =? start (pull_range p)); cbn [andb] in *.
  - destruct (pull_from p >? pull_to p) eqn:Egt.
    + assert (Elt : (pull_from p <? pull_to p) = false).
      { rewrite Z.gtb_ltb in Egt. apply Z.ltb_lt in Egt.
        apply Z.ltb_ge. lia. }
      rewrite Elt in *. rewrite Z.sub_0_r in *.
      unfold Range_length. cbn [start end_].
      rewrite (add_small sA (pull_count p))
        by (rewrite ?SIZE_MAX1_eq in *; lia).
      rewrite (sub_small eA) by (rewrite ?SIZE_MAX1_eq in *; lia).
      eexists. split; [reflexivity |]. split.
      * intros E. apply Z.eqb_eq in E. lia.
      * intros E. apply Z.eqb_neq in E. split; lia.
    + rewrite Z.add_0_r in *.
      destruct (pull_from p <? pull_to p) eqn:Elt.
      * unfold Range_length. cbn [start end_].
        rewrite (sub_small eB (pull_count p))
          by (rewrite ?SIZE_MAX1_eq in *; lia).
        rewrite (sub_small _ sB) by (rewrite ?SIZE_MAX1_eq in *; lia).
        eexists. split; [reflexivity |]. split.
        -- intros E. apply Z.eqb_eq in E. lia.
        -- intros E. apply Z.eqb_neq in E. split; lia.
      * rewrite Z.sub_0_r in *. exists false.
        split; [reflexivity |]. split; [discriminate | intros _; lia].
  - rewrite Z.add_0_r, Z.sub_0_r in *. exists false.
    split; [reflexivity |]. split; [discriminate | intros _; lia].
Qed.

(** * The array around three windows *)

Section Frame.
Context {T : Type} (size : Z).
Context (base : list T) (r b1 b2 : Z) (nR n1 n2 : nat).
Hypothesis Hok : windows_ok size base r b1 b2 nR n1 n2.

#[local] Abbreviation arr := (three_windows base r b1 b2).

(* the array is its own base *)
Lemma arr_self :
  arr (slice base r (r + Z.of_nat nR)) (slice base b1 (b1 + Z.of_nat n1))
    (slice base b2 (b2 + Z.of_nat n2)) = base.
Proof.
  destruct Hok as (Hfit & Hr & Hb1 & Hb2 & _).
  unfold three_windows.
  rewrite !splice_slice by lia. reflexivity.
Qed.

Lemma slice_arr_region (R B1 B2 : list T) :
  length R = nR -> length B1 = n1 -> length B2 = n2 ->
  slice (arr R B1 B2) r (r + Z.of_nat nR) = R.
Proof.
  intros HR H1 H2.
  rewrite (arr_region_last size base r b1 b2 nR n1 n2 Hok R B1 B2 HR H1 H2).
  destruct Hok as (Hfit & Hr & Hb1 & Hb2 & _).
  apply slice_splice; try lia.
  rewrite !splice_length; rewrite ?splice_length; lia.
Qed.

Lemma slice_arr_buf1 (R B1 B2 : list T) :
  length R = nR -> length B1 = n1 -> length B2 = n2 ->
  slice (arr R B1 B2) b1 (b1 + Z.of_nat n1) = B1.
Proof.
  intros HR H1 H2.
  rewrite (arr_buf1_last size base r b1 b2 nR n1 n2 Hok R B1 B2 HR H1 H2).
  destruct Hok as (Hfit & Hr & Hb1 & Hb2 & _).
  apply slice_splice; try lia.
  rewrite !splice_length; rewrite ?splice_length; lia.
Qed.

Lemma slice_arr_buf2 (R B1 B2 : list T) :
  length R = nR -> length B1 = n1 -> length B2 = n2 ->
  slice (arr R B1 B2) b2 (b2 + Z.of_nat n2) = B2.
Proof.
  intros HR H1 H2.
  rewrite (arr_buf2_last size base r b1 b2 nR n1 n2 Hok R B1 B2 HR H1 H2).
  destruct Hok as (Hfit & Hr & Hb1 & Hb2 & _).
  apply slice_splice; try lia.
  rewrite !splice_length; rewrite ?splice_length; lia.
Qed.

Lemma slice_splice_away (array : list T) (lo hi lo' : Z) (w : list T) :
  0 <= lo <= hi -> hi <= Z.of_nat (length array) ->
  0 <= lo' -> lo' + Z.of_nat (length w) <= Z.of_nat (length array) ->
  away lo hi lo' (length w) ->
  slice (splice array lo' w) lo hi = slice array lo hi.
Proof.
  intros Hlo Hhi Hlo' Hw [Ha | Ha].
  - apply slice_splice_before; lia.
  - apply slice_splice_after; lia.
Qed.

(* the items away from the three windows are those of the base *)
Lemma slice_arr_away (R B1 B2 : list T) (lo hi : Z) :
  length R = nR -> length B1 = n1 -> length B2 = n2 ->
  0 <= lo <= hi -> hi <= Z.of_nat (length base) ->
  away lo hi r nR -> away lo hi b1 n1 -> away lo hi b2 n2 ->
  slice (arr R B1 B2) lo hi = slice base lo hi.
Proof.
  intros HR H1 H2 Hlo Hhi Ar A1 A2.
  destruct Hok as (Hfit & Hr & Hb1 & Hb2 & _).
  unfold three_windows.
  rewrite !slice_splice_away; rewrite ?splice_length;
    rewrite ?splice_length; rewrite ?HR, ?H1, ?H2; auto; lia.
Qed.
End Frame.

(** * Merging the pairs of runs of a level *)

Lemma side_by_side_le (l : list (Range * Range)) :
  forall lo hi, side_by_side lo l hi -> lo <= hi.
Proof.
  induction l as [|[A B] l IH]; intros lo hi H; cbn [side_by_side] in H.
  - lia.
  - destruct H as (H1 & H2 & H3 & H4 & H5). specialize (IH _ _ H5). lia.
Qed.

Lemma side_by_side_in (l : list (Range * Range)) :
  forall lo hi AB,
    side_by_side lo l hi -> In AB l ->
    lo <= start (fst AB) /\ start (fst AB) < end_ (fst AB) /\
    end_ (fst AB) = start (snd AB) /\ start (snd AB) < end_ (snd AB) /\
    end_ (snd AB) <= hi.
Proof.
  induction l as [|[A B] l IH]; intros lo hi AB H Hin; [destruct Hin |].
  cbn [side_by_side] in H. destruct H as (H1 & H2 & H3 & H4 & H5).
  pose proof (side_by_side_le _ _ _ H5) as Hle.
  destruct Hin as [<- | Hin]; cbn [fst snd].
  - repeat split; lia.
  - specialize (IH _ _ _ H5 Hin). lia.
Qed.

Section MergePairs.
Context {T : Type} (size : Z) (compare : Comparison T).
Hypothesis Horder : total_order compare.
Context (s : Buffers) (bs : nat) (b1 b2 : Z) (n1 n2 : nat).
Hypothesis Hb1 : 0 <= b1.
Hypothesis Hb2 : 0 <= b2.
Hypothesis Hb12 : b1 + Z.of_nat n1 <= b2 \/ b2 + Z.of_nat n2 <= b1.
#[local] Hint Extern 0 (Store (list _) _) =>
  exact (list_store size) : typeclass_instances.

(* one pair: the array is the same but for the merged runs and the order of
   the items of the second buffer *)
Lemma merge_pair_ready (array : list T) (A B : Range) (fuel : nat) :
  fits size array ->
  b1 + Z.of_nat n1 <= Z.of_nat (length array) ->
  b2 + Z.of_nat n2 <= Z.of_nat (length array) ->
  0 <= start A -> start A < end_ A -> end_ A = start B ->
  start B < end_ B -> end_ B <= Z.of_nat (length array) ->
  strictly_sorted compare (slice array b1 (b1 + Z.of_nat n1)) ->
  pair_ready compare array s bs b1 b2 n1 n2 A B ->
  (2 * length array <= fuel)%nat ->
  exists array',
    merge_pair fuel array size compare [] 0 (Z.of_nat bs) s A B
    = Done (array', []) /\
    length array' = length array /\
    slice array' (body_start s A) (body_end s A B)
    = merge compare (slice array (body_start s A) (end_ A))
        (slice array (start B) (body_end s A B)) /\
    slice array' b1 (b1 + Z.of_nat n1) = slice array b1 (b1 + Z.of_nat n1) /\
    Permutation (slice array b2 (b2 + Z.of_nat n2))
      (slice array' b2 (b2 + Z.of_nat n2)) /\
    (forall lo hi,
       0 <= lo <= hi -> hi <= Z.of_nat (length array) ->
       hi <= body_start s A \/ body_end s A B <= lo ->
       away lo hi b1 n1 -> away lo hi b2 n2 ->
       slice array' lo hi = slice array lo hi).
Proof.
  intros Hfit Hb1e Hb2e HA0 HA HAB HB HBe HsB1 Hready Hfuel.
  fit_bound Hfit Hbound.
  destruct Hready as (Hl0 & Hl1 & Ht0 & Ht1 & Hr & He & Hw1 & Hw2 & Hsa & Hsb
                      & Hmix).
  set (r := body_start s A) in *. set (e := body_end s A B) in *.
  assert (Hr0 : start A <= r) by (unfold r, body_start; lia).
  assert (He0 : e <= end_ B) by (unfold e, body_end; lia).
  set (nR := Z.to_nat (e - r)).
  assert (HnR : Z.of_nat nR = e - r) by (unfold nR; lia).
  assert (Hok : windows_ok size array r b1 b2 nR n1 n2).
  { unfold windows_ok.
    split; [exact Hfit |]. split; [lia |]. split; [lia |]. split; [lia |].
    split; [destruct Hw1; [left | right]; lia |].
    split; [destruct Hw2; [left | right]; lia | exact Hb12]. }
  set (a := slice array r (end_ A)) in *.
  set (b := slice array (start B) e) in *.
  assert (Hla : length a = Z.to_nat (end_ A - r))
    by (unfold a; apply slice_length; lia).
  assert (Hlb : length b = Z.to_nat (e - start B))
    by (unfold b; apply slice_length; lia).
  assert (Hab : slice array r (r + Z.of_nat nR) = a ++ b).
  { rewrite HnR. replace (r + (e - r)) with e by lia.
    unfold a, b. rewrite <- HAB. apply slice_split; lia. }
  pose proof (arr_self size array r b1 b2 nR n1 n2 Hok) as Hself.
  rewrite Hab in Hself.
  set (B1 := slice array b1 (b1 + Z.of_nat n1)) in *.
  set (B2 := slice array b2 (b2 + Z.of_nat n2)) in *.
  assert (HlR : length (a ++ b) = nR) by (rewrite length_app; lia).
  assert (HlB1 : length B1 = n1).
  { unfold B1. rewrite slice_length; lia. }
  assert (HlB2 : length B2 = n2).
  { unfold B2. rewrite slice_length; lia. }
  destruct (strip_spec (pull0 s) (start A) A B) as (sk0 & Hs0 & Hsk0 & Hnk0);
    try (unfold r, e, body_start, body_end in *; lia).
  destruct (strip_spec (pull1 s) (start A)
              (Range_new (start A + lead (pull0 s) (start A)) (end_ A))
              (Range_new (start B) (end_ B - trail (pull0 s) (start A))))
    as (sk1 & Hs1 & Hsk1 & Hnk1); cbn [start end_];
    try (unfold r, e, body_start, body_end in *; lia).
  cbn [start end_] in *.
  destruct (merge_pair_spec size compare Horder array r b1 b2 nR n1 n2 Hok
              a b B1 B2 s A B bs fuel _ _ _ _ sk0 sk1 HlR HlB1 HlB2 Hsa Hsb
              Hs0 Hs1)
    as (B2' & Hperm & E).
  - intros Hsk.
    assert (Hcase : r = end_ A \/ start B = e).
    { unfold r, e, body_start, body_end in *.
      destruct Hsk as [Hsk | Hsk].
      - destruct (Hsk0 Hsk); [left | right]; lia.
      - destruct (Hsk1 Hsk); [left | right]; lia. }
    destruct Hcase as [Hc | Hc]; [left | right].
    + unfold a. rewrite Hc. apply slice_empty.
    + unfold b. rewrite Hc. apply slice_empty.
  - intros E0 E1. cbn [start end_].
    destruct (Hnk0 E0) as [Hna0 Hnb0]. destruct (Hnk1 E1) as [Hna1 Hnb1].
    assert (Hra : r < end_ A) by (unfold r, body_start in *; lia).
    assert (Hrb : start B < e) by (unfold e, body_end in *; lia).
    repeat split.
    + intros Ea. rewrite Ea in Hla. cbn in Hla. lia.
    + intros Eb. rewrite Eb in Hlb. cbn in Hlb. lia.
    + rewrite Hla. lia.
    + lia.
    + rewrite HnR. unfold e, body_end. lia.
  - intros xa za yb zb a1 a2 b1' b2' Ea Ea' Eb Eb' Hc1 Hc2.
    destruct Hmix as (Hbs & Hs1' & Hs2' & Hl2 & Hroom & Hn1).
    { exists xa, za, yb, zb, a1, a2, b1', b2'. repeat split; assumption. }
    repeat split; auto. rewrite Hla. exact Hn1.
  - rewrite <- HlR in *. pose proof (length_app a b). lia.
  - rewrite Hself in E.
    exists (three_windows array r b1 b2 (merge compare a b) B1 B2').
    pose proof (merge_length compare a b) as Hml.
    assert (HlM : length (merge compare a b) = nR) by lia.
    assert (HlB2' : length B2' = n2)
      by (rewrite <- (Permutation_length Hperm); exact HlB2).
    split; [exact E |]. split.
    { apply (arr_length size array r b1 b2 nR n1 n2 Hok); auto. }
    split.
    { replace e with (r + Z.of_nat nR) by lia.
      apply (slice_arr_region size array r b1 b2 nR n1 n2 Hok); auto. }
    split.
    { apply (slice_arr_buf1 size array r b1 b2 nR n1 n2 Hok); auto. }
    split.
    { rewrite (slice_arr_buf2 size array r b1 b2 nR n1 n2 Hok); auto. }
    intros lo hi Hlo Hhi Haw Haw1 Haw2.
    apply (slice_arr_away size array r b1 b2 nR n1 n2 Hok); auto.
    unfold away. destruct Haw; [left | right]; lia.
Qed.

(* being ready is a matter of the items of the two runs *)
Lemma pair_ready_same (array array' : list T) (A B : Range) :
  slice array' (body_start s A) (end_ A)
    = slice array (body_start s A) (end_ A) ->
  slice array' (start B) (body_end s A B)
    = slice array (start B) (body_end s A B) ->
  pair_ready compare array s bs b1 b2 n1 n2 A B ->
  pair_ready compare array' s bs b1 b2 n1 n2 A B.
Proof.
  unfold pair_ready. intros -> ->. exact (fun H => H).
Qed.

(* all the pairs of a level *)
Lemma merge_pairs_spec (l : list (Range * Range)) :
  forall (fuel0 fuel : nat) (array : list T) (it it' : WikiIterator)
         (lo hi : Z),
    pairs_from fuel0 it = Some (l, it') ->
    side_by_side lo l hi -> 0 <= lo -> hi <= Z.of_nat (length array) ->
    fits size array ->
    b1 + Z.of_nat n1 <= Z.of_nat (length array) ->
    b2 + Z.of_nat n2 <= Z.of_nat (length array) ->
    strictly_sorted compare (slice array b1 (b1 + Z.of_nat n1)) ->
    Forall (fun AB => pair_ready compare array s bs b1 b2 n1 n2
                        (fst AB) (snd AB)) l ->
    (length l + 2 * length array <= fuel)%nat ->
    exists array',
      merge_pairs fuel array size compare [] 0 (Z.of_nat bs) s it
      = Done (array', [], it') /\
      length array' = length array /\
      pairs_merged compare array array' s l /\
      slice array' b1 (b1 + Z.of_nat n1)
      = slice array b1 (b1 + Z.of_nat n1) /\
      Permutation (slice array b2 (b2 + Z.of_nat n2))
        (slice array' b2 (b2 + Z.of_nat n2)) /\
      (forall lo' hi',
         0 <= lo' <= hi' -> hi' <= Z.of_nat (length array) ->
         hi' <= lo \/ hi <= lo' ->
         away lo' hi' b1 n1 -> away lo' hi' b2 n2 ->
         slice array' lo' hi' = slice array lo' hi').
Proof.
  induction l as [|[A B] l IH];
    intros fuel0 fuel array it it' lo hi Hpairs Hside Hlo Hhi Hfit Hb1e Hb2e
      HsB1 Hready Hfuel.
  - exists array.
    assert (Hfin : WikiIterator_finished it = true /\ it' = it).
    { destruct fuel0; cbn [pairs_from] in Hpairs;
        destruct (WikiIterator_finished it); try discriminate.
      - injection Hpairs as <-. now split.
      - injection Hpairs as <-. now split.
      - destruct (WikiIterator_nextRange it) as [A0 it1].
        destruct (WikiIterator_nextRange it1) as [B0 it2].
        destruct (pairs_from fuel0 it2) as [[l0 me']|]; discriminate. }
    destruct Hfin as [Hfin ->].
    split.
    { destruct fuel; cbn [merge_pairs]; now rewrite Hfin. }
    split; [reflexivity |]. split; [constructor |].
    split; [reflexivity |]. split; [reflexivity |]. reflexivity.
  - destruct fuel0 as [|fuel0]; cbn [pairs_from] in Hpairs;
      destruct (WikiIterator_finished it) eqn:Hfin; try discriminate.
    destruct (WikiIterator_nextRange it) as [A0 it1] eqn:E1.
    destruct (WikiIterator_nextRange it1) as [B0 it2] eqn:E2.
    destruct (pairs_from fuel0 it2) as [[l0 me']|] eqn:E3;
      [| discriminate].
    injection Hpairs as EA EB El Eit. subst A0 B0 l0 me'.
    cbn [side_by_side] in Hside.
    destruct Hside as (HsA & HA & HAB & HB & Hside).
    pose proof (side_by_side_le _ _ _ Hside) as HBhi.
    pose proof (Forall_inv Hready) as Hr1. cbn [fst snd] in Hr1.
    pose proof (Forall_inv_tail Hready) as Hr2.
    destruct fuel as [|fuel]; [cbn [length] in Hfuel; lia |].
    cbn [merge_pairs]. rewrite Hfin, E1, E2.
    destruct (merge_pair_ready array A B (S fuel))
      as (array1 & Em & Hl1 & Hm1 & HB1 & HB2 & Hframe1); auto; try lia.
    rewrite Em. cbn [bind].
    pose proof Hr1 as Hr1'.
    destruct Hr1' as (Hl0 & Hl1' & Ht0 & Ht1 & Hra & Heb & Hw1 & Hw2 & _).
    assert (Hbs : start A <= body_start s A)
      by (unfold body_start; lia).
    assert (Hbe : body_end s A B <= end_ B) by (unfold body_end; lia).
    assert (Hready1 : Forall (fun AB => pair_ready compare array1 s bs b1 b2
                                          n1 n2 (fst AB) (snd AB)) l).
    { apply Forall_forall. intros [A' B'] Hin. cbn [fst snd].
      rewrite Forall_forall in Hr2. specialize (Hr2 _ Hin).
      cbn [fst snd] in Hr2.
      pose proof (side_by_side_in _ _ _ _ Hside Hin) as Hpos.
      cbn [fst snd] in Hpos.
      pose proof Hr2 as (Hl0' & Hl1'' & Ht0' & Ht1' & Hra' & Heb' & Hw1'
                         & Hw2' & _).
      assert (Hbs' : start A' <= body_start s A')
        by (unfold body_start; lia).
      assert (Hbe' : body_end s A' B' <= end_ B')
        by (unfold body_end; lia).
      apply (pair_ready_same array); auto.
      - apply Hframe1; try lia.
        + unfold away. destruct Hw1'; [left | right]; lia.
        + unfold away. destruct Hw2'; [left | right]; lia.
      - apply Hframe1; try lia.
        + unfold away. destruct Hw1'; [left | right]; lia.
        + unfold away. destruct Hw2'; [left | right]; lia. }
    destruct (IH fuel0 fuel array1 it2 it' (end_ B) hi E3 Hside)
      as (array' & E & Hl' & Hm' & HB1' & HB2' & Hframe'); auto;
      try (rewrite ?Hl1; lia).
    { eapply fits_length; [exact Hfit | exact Hl1]. }
    { now rewrite HB1. }
    { cbn [length] in Hfuel. rewrite Hl1. lia. }
    exists array'. split; [exact E |].
    split; [congruence |].
    split.
    { constructor; cbn [fst snd].
      - rewrite <- Hm1. apply Hframe'; try lia.
        + unfold away. destruct Hw1; [left | right]; lia.
        + unfold away. destruct Hw2; [left | right]; lia.
      - unfold pairs_merged in *. rewrite Forall_forall in *.
        intros [A' B'] Hin. cbn [fst snd].
        specialize (Hm' _ Hin). cbn [fst snd] in Hm'. rewrite Hm'.
        specialize (Hr2 _ Hin). cbn [fst snd] in Hr2.
        pose proof (side_by_side_in _ _ _ _ Hside Hin) as Hpos.
        cbn [fst snd] in Hpos.
        pose proof Hr2 as (Hl0' & Hl1'' & Ht0' & Ht1' & Hra' & Heb' & Hw1'
                           & Hw2' & _).
        assert (Hbs' : start A' <= body_start s A')
          by (unfold body_start; lia).
        assert (Hbe' : body_end s A' B' <= end_ B')
          by (unfold body_end; lia).
        f_equal.
        + apply Hframe1; try lia.
          * unfold away. destruct Hw1'; [left | right]; lia.
          * unfold away. destruct Hw2'; [left | right]; lia.
        + apply Hframe1; try lia.
          * unfold away. destruct Hw1'; [left | right]; lia.
          * unfold away. destruct Hw2'; [left | right]; lia. }
    split; [congruence |].
    split; [now rewrite HB2 |].
    intros lo' hi' Hlo' Hhi' Haw Haw1 Haw2.
    rewrite Hframe'; try (rewrite ?Hl1; lia); auto.
    apply Hframe1; auto. lia.
Qed.
End MergePairs.

(** * Counting the values that differ in a run *)

Section CountRuns.
Context {T : Type} (size : Z) (compare : Comparison T).
Hypothesis Horder : total_order compare.
#[local] Hint Extern 0 (Store (list _) _) =>
  exact (list_store size) : typeclass_instances.

Lemma count_A_run (array : list T) (A : Range) (find : Z) (fuel : nat) :
  fits size array ->
  0 <= start A -> start A < end_ A -> end_ A <= Z.of_nat (length array) ->
  sorted_list compare (slice array (start A) (end_ A)) ->
  find < SIZE_MAX1 ->
  (length array <= fuel)%nat ->
  exists segs x tail,
    slice array (start A) (end_ A) = flat segs ++ x :: tail /\
    grouped compare segs (x :: tail) /\
    count_A fuel array size compare A find (start A) 1
    = Done (start A + Z.of_nat (length (flat segs)),
            1 + Z.of_nat (length segs)) /\
    (1 + Z.of_nat (length segs) <= find \/ segs = []) /\
    (1 + Z.of_nat (length segs) < find ->
     Forall (fun z => compare x z >= 0) tail).
Proof.
  intros Hfit HA0 HA HAe Hs Hfind Hfuel.
  destruct (window_parts array (start A) (Z.to_nat (end_ A - start A)))
    as (pre & old & post & Earr & Hpre & Hold & Eold); try lia.
  replace (start A + Z.of_nat (Z.to_nat (end_ A - start A))) with (end_ A)
    in Eold by lia.
  rewrite <- Eold in *.
  destruct old as [|x rest]; [cbn in Hold; lia |].
  rewrite Earr in Hfit |- *.
  replace (pre ++ (x :: rest) ++ post) with (pre ++ [] ++ x :: rest ++ post)
    in * by reflexivity.
  apply (f_equal (@length T)) in Earr. lengths.
  destruct (count_A_spec size compare Horder pre post A find fuel [] x rest
              (start A) 1)
    as (segs & x' & tail & E & Hg & Hrun & Hle & Hall); auto;
    cbn [length]; try lia.
  exists segs, x', tail. repeat split; auto.
Qed.

Lemma count_B_run (array : list T) (B : Range) (find : Z) (fuel : nat) :
  fits size array ->
  0 <= start B -> start B < end_ B -> end_ B <= Z.of_nat (length array) ->
  sorted_list compare (slice array (start B) (end_ B)) ->
  find < SIZE_MAX1 ->
  (length array <= fuel)%nat ->
  exists front y segs,
    slice array (start B) (end_ B) = front ++ y :: flat_right segs /\
    grouped_right compare (front ++ [y]) segs /\
    count_B fuel array size compare B find (end_ B -% 1) 1
    = Done (start B + Z.of_nat (length front),
            1 + Z.of_nat (length segs)) /\
    (1 + Z.of_nat (length segs) <= find \/ segs = []) /\
    (1 + Z.of_nat (length segs) < find ->
     Forall (fun z => compare z y >= 0) front).
Proof.
  intros Hfit HB0 HB HBe Hs Hfind Hfuel.
  fit_bound Hfit Hbound.
  destruct (window_parts array (start B) (Z.to_nat (end_ B - start B)))
    as (pre & old & post & Earr & Hpre & Hold & Eold); try lia.
  replace (start B + Z.of_nat (Z.to_nat (end_ B - start B))) with (end_ B)
    in Eold by lia.
  rewrite <- Eold in *.
  destruct (last_case old) as [-> | (front & y & ->)];
    [cbn in Hold; lia |].
  rewrite Earr in Hfit |- *.
  replace (pre ++ (front ++ [y]) ++ post)
    with (pre ++ front ++ y :: [] ++ post) in *
    by (app_norm; reflexivity).
  apply (f_equal (@length T)) in Earr. lengths.
  destruct (count_B_spec size compare Horder pre post B find fuel front y []
              (end_ B -% 1) 1)
    as (front' & y' & segs & E & Hg & Hrun & Hle & Hall); auto;
    cbn [length]; try lia.
  { unwrap_all. lia. }
  exists front', y', segs. split; [exact E |]. split; [exact Hg |].
  split; [| split; assumption].
  rewrite Hrun. f_equal. f_equal.
  apply (f_equal (@length T)) in E. lengths. unwrap_all. lia.
Qed.
End CountRuns.

(** * What the search keeps of a run *)

Section Found.
Context {T : Type} (compare : Comparison T).
Hypothesis Horder : total_order compare.
Context (array : list T) (bz bsz : Z) (l : list (Range * Range)).
Hypothesis Hbz : 2 <= bz.
Hypothesis Hbz2 : bz + bz < SIZE_MAX1.
Hypothesis Hbsz : 0 < bsz.
Hypothesis Hbounds :
  forall A0 B0, In (A0, B0) l ->
    0 <= start A0 /\ start A0 < end_ A0 /\ end_ A0 = start B0 /\
    start B0 < end_ B0 /\ end_ B0 <= Z.of_nat (length array) /\
    end_ B0 < SIZE_MAX1.

(* a sorted run whose items are not above its first item *)
Lemma constant_from_first (x : T) (tail : list T) :
  sorted_list compare (x :: tail) ->
  Forall (fun z => compare x z >= 0) tail ->
  constant compare (x :: tail).
Proof.
  intros Hs Hall u v Hu Hv.
  apply (compare_le_ge compare Horder).
  apply (le_transitive compare Horder v x u).
  - destruct Hv as [<- | Hv].
    + rewrite (compare_refl compare Horder). lia.
    + apply (compare_le_ge compare Horder).
      rewrite Forall_forall in Hall. now apply Hall.
  - now apply (sorted_head_le compare Horder x u tail).
Qed.

(* a sorted run whose items are not below its last item *)
Lemma constant_from_last (front : list T) (y : T) :
  sorted_list compare (front ++ [y]) ->
  Forall (fun z => compare z y >= 0) front ->
  constant compare (front ++ [y]).
Proof.
  intros Hs Hall u v Hu Hv.
  assert (Hle : forall w, In w (front ++ [y]) -> compare w y <= 0).
  { intros w Hw. apply in_app_or in Hw. destruct Hw as [Hw | [<- | []]].
    - apply (sorted_list_later compare front [y]); auto. now left.
    - rewrite (compare_refl compare Horder). lia. }
  assert (Hge : forall w, In w (front ++ [y]) -> compare y w <= 0).
  { intros w Hw. apply in_app_or in Hw. destruct Hw as [Hw | [<- | []]].
    - apply (compare_le_ge compare Horder).
      rewrite Forall_forall in Hall. now apply Hall.
    - rewrite (compare_refl compare Horder). lia. }
  apply (compare_le_ge compare Horder).
  apply (le_transitive compare Horder v y u); auto.
Qed.

Lemma Range_length_part (left : bool) (A B : Range) (c : Z) :
  0 <= c -> 0 <= start A -> start A + c < SIZE_MAX1 ->
  c <= end_ B -> end_ B < SIZE_MAX1 ->
  Range_length (part left A B c) = c.
Proof.
  intros Hc HA HAc HB HBe. unfold Range_length, part.
  destruct left; cbn [start end_]; unwrap_all; lia.
Qed.

Lemma active_seen (seen : list Range) (R : Range) (p : Pull) (c : Z)
    (A B : Range) (left : bool) (E : Z) :
  active compare array l seen p c A B left E ->
  active compare array l (seen ++ [R]) p c A B left E.
Proof.
  unfold active. intros [Hin H]. split; [exact Hin |].
  destruct left.
  - destruct H as (H1 & H2 & H3). repeat split; auto.
    apply in_or_app. now left.
  - destruct H as (H1 & H2 & H3 & H4). repeat split; auto.
    apply in_or_app. now left.
Qed.

(* the items of a pull are items of its run *)
Lemma active_count (seen : list Range) (p : Pull) (c : Z) (A B : Range)
    (left : bool) (E : Z) :
  active compare array l seen p c A B left E ->
  2 <= c /\ pull_count p = c /\
  start (pull_range p) = start A /\
  if left then start A + c <= end_ A /\ pull_to p < pull_from p
  else start B <= end_ B - c /\ pull_from p < pull_to p.
Proof.
  intros [Hin H]. destruct (Hbounds _ _ Hin) as (H0 & H1 & H2 & H3 & H4 & H5).
  destruct left.
  - destruct H as ((segs & x & tail & E1 & Hg & Ec & Ef & Et & Ecn & Er)
                   & Hc & _).
    pose proof (slice_length array (start A) (end_ A)) as Hl.
    rewrite E1 in Hl. pose proof (flat_length segs). lengths.
    rewrite Er. cbn [start].
    repeat split; try lia.
  - destruct H as ((front & y & segs & E1 & Hg & Ec & Ef & Et & Ecn & Er)
                   & Hc & _).
    pose proof (slice_length array (start B) (end_ B)) as Hl.
    rewrite E1 in Hl. pose proof (flat_right_length segs). lengths.
    rewrite Er. cbn [start].
    repeat split; try lia.
Qed.

Lemma active_part_length (seen : list Range) (p : Pull) (c : Z)
    (A B : Range) (left : bool) (E : Z) :
  active compare array l seen p c A B left E ->
  Range_length (part left A B c) = c.
Proof.
  intros Hact. pose proof (active_count _ _ _ _ _ _ _ Hact) as (Hc & _ & _ & H).
  destruct Hact as [Hin _].
  destruct (Hbounds _ _ Hin) as (H0 & H1 & H2 & H3 & H4 & H5).
  apply Range_length_part; destruct left; lia.
Qed.

(* the pull for the values found at the front of [A] *)
Lemma left_pull_found (A B : Range) (segs : list (T * list T)) (x : T)
    (tail : list T) :
  slice array (start A) (end_ A) = flat segs ++ x :: tail ->
  grouped compare segs (x :: tail) ->
  left_pull compare array A (end_ B)
    {| pull_from := start A + Z.of_nat (length (flat segs));
       pull_to := start A;
       pull_count := 1 + Z.of_nat (length segs);
       pull_range := Range_new (start A) (end_ B) |}
    (1 + Z.of_nat (length segs)).
Proof.
  intros E Hg. exists segs, x, tail.
  cbn [pull_from pull_to pull_count pull_range].
  split; [exact E |]. split; [exact Hg |]. split; [lia |].
  repeat split.
Qed.

Section FoundA.
Context (s : Buffers) (seen : list Range) (A B : Range)
  (segs : list (T * list T)) (x : T) (tail : list T).
Hypothesis Hin : In (A, B) l.
Hypothesis Hseen : Forall (fun R => start R < start A) seen.
Hypothesis Hsorted : sorted_list compare (slice array (start A) (end_ A)).
Hypothesis Hrun : slice array (start A) (end_ A) = flat segs ++ x :: tail.
Hypothesis Hgrouped : grouped compare segs (x :: tail).
Hypothesis Hle : 1 + Z.of_nat (length segs) <= find s.
Hypothesis Hall :
  1 + Z.of_nat (length segs) < find s ->
  Forall (fun z => compare x z >= 0) tail.
Hypothesis HA0 : 0 <= start A.
Hypothesis HA : start A < end_ A.
Hypothesis HAe : end_ A <= Z.of_nat (length array).
Hypothesis HAB : end_ A <= end_ B.
Hypothesis HBe : end_ B < SIZE_MAX1.

Lemma count_in_run : start A + (1 + Z.of_nat (length segs)) <= end_ A.
Proof.
  pose proof (slice_length array (start A) (end_ A)) as Hl.
  rewrite Hrun in Hl. pose proof (flat_length segs). lengths. lia.
Qed.

Lemma found_in_A_searching :
  searching compare array bz l seen s ->
  exists s1 stop,
    found_in_A s A B bsz bz 0 (1 + Z.of_nat (length segs))
      (start A + Z.of_nat (length (flat segs))) = (s1, stop) /\
    if stop then halves_found compare array bz l (seen ++ [A]) s1
    else searching compare array bz l (seen ++ [A]) s1 \/
         first_found compare array bz l (seen ++ [A]) s1.
Proof.
  intros (Hidx & Hp1 & Hb2 & Hfind & Hbest).
  pose proof count_in_run as Hc.
  set (c := 1 + Z.of_nat (length segs)) in *.
  assert (HinA : In A (seen ++ [A])) by (apply in_or_app; right; now left).
  pose proof (left_pull_found A B segs x tail Hrun Hgrouped) as Hpull.
  fold c in Hpull.
  unfold found_in_A, PULL, set_pull. rewrite Hidx. cbn [Z.eqb andb].
  rewrite (add_small bz bz) by (rewrite ?SIZE_MAX1_eq in *; lia).
  rewrite (add_small (start A) c) by (rewrite ?SIZE_MAX1_eq in *; lia).
  replace (bsz <=? 0) with false by (symmetry; apply Z.leb_gt; lia).
  destruct (Z_lt_ge_dec c bz) as [Hlt | Hge].
  - replace (c >=? bz) with false
      by (symmetry; rewrite Z.geb_leb; apply Z.leb_gt; lia).
    assert (Hcf : c < find s) by (destruct Hfind as [[? ?]|[? ?]]; lia).
    assert (Hnew : 2 <= c ->
      searching compare array bz l (seen ++ [A])
        (PULL (set_buffer1 s (Range_new (start A) (start A + c))) A B c
           (start A + Z.of_nat (length (flat segs))) (start A))).
    { intros Hc2. unfold searching, PULL, set_pull.
      cbn [find set_pull_index set_buffer1 set_buffer2 set_find
           set_find_separately find_separately pull0 pull1 buffer1 buffer2
           pull_index].
      rewrite Hidx. cbn [Z.eqb].
      cbn [find set_pull_index set_buffer1 set_buffer2 set_find
           set_find_separately find_separately pull0 pull1 buffer1 buffer2
           pull_index].
      repeat (split; [assumption || reflexivity |]).
      right. right. exists c, A, B, true.
      split; [lia |]. split; [| reflexivity].
      split; [exact Hin |]. repeat split; auto. }
    assert (Hsame : forall len,
      Range_length (buffer1 s) = len -> c <= len ->
      (len = 1 -> Forall (fun R => constant compare
                            (slice array (start R) (end_ R))) seen ->
       Forall (fun R => constant compare
                 (slice array (start R) (end_ R))) (seen ++ [A])) ->
      searching compare array bz l (seen ++ [A]) s).
    { intros len Hlen Hcl Hconst. unfold searching.
      repeat (split; [assumption |]).
      destruct Hbest as [(E & Eb & _) | [(A0 & B0 & Hin0 & Ep & Eb & Hcs) | Hp]].
      - rewrite Eb in Hlen. unfold Range_length in Hlen.
        cbn [start end_] in Hlen.
        replace (0 -% 0) with 0 in Hlen by reflexivity. lia.
      - right. left. exists A0, B0.
        split; [exact Hin0 |]. split; [exact Ep |]. split; [exact Eb |].
        apply Hconst; auto.
        rewrite Eb in Hlen. unfold Range_length in Hlen.
        cbn [start end_] in Hlen.
        destruct (Hbounds _ _ Hin0) as (H0 & H1 & H2 & H3 & H4 & H5).
        rewrite <- Hlen. unwrap_all. lia.
      - right. right. destruct Hp as (c0 & A0 & B0 & left0 & Hc0 & Hact & Eb).
        exists c0, A0, B0, left0.
        split; [lia |]. split; [now apply active_seen | exact Eb]. }
    assert (HconstA : c = 1 ->
      constant compare (slice array (start A) (end_ A))).
    { intros E1. unfold c in E1. destruct segs; [| cbn [length] in E1; lia].
      rewrite Hrun in *. cbn [flat flat_map app] in *.
      apply constant_from_first; auto. }
    destruct Hbest as [(E & Eb & Ep) | [(A0 & B0 & Hin0 & Ep & Eb & Hcs) | Hp]].
    + (* nothing kept so far *)
      rewrite Eb. unfold Range_length. cbn [start end_].
      replace (0 -% 0) with 0 by reflexivity.
      replace (c >? 0) with true
        by (symmetry; rewrite Z.gtb_ltb; apply Z.ltb_lt; lia).
      eexists _, false. split; [reflexivity |]. left.
      destruct (Z.eq_dec c 1) as [E1 | N1]; [| apply Hnew; lia].
      unfold searching, PULL, set_pull.
      cbn [find set_pull_index set_buffer1 set_buffer2 set_find
           set_find_separately find_separately pull0 pull1 buffer1 buffer2
           pull_index].
      rewrite Hidx. cbn [Z.eqb].
      cbn [find set_pull_index set_buffer1 set_buffer2 set_find
           set_find_separately find_separately pull0 pull1 buffer1 buffer2
           pull_index].
      repeat (split; [assumption || reflexivity |]).
      right. left. exists A, B.
      assert (Esegs : segs = [])
        by (unfold c in E1; destruct segs; [reflexivity
                                           | cbn [length] in E1; lia]).
      subst segs. cbn [flat flat_map length Z.of_nat] in *.
      rewrite E1, Z.add_0_r.
      repeat split; auto.
      rewrite E. cbn [app]. constructor; [| constructor].
      cbn [start end_]. now apply HconstA.
    + (* one value kept *)
      destruct (Hbounds _ _ Hin0) as (H0 & H1 & H2 & H3 & H4 & H5).
      assert (Hlen : Range_length (buffer1 s) = 1).
      { rewrite Eb. unfold Range_length. cbn [start end_].
        unwrap_all. lia. }
      rewrite Hlen.
      destruct (Z.eq_dec c 1) as [E1 | N1].
      * replace (c >? 1) with false
          by (symmetry; rewrite Z.gtb_ltb; apply Z.ltb_ge; lia).
        eexists _, false. split; [reflexivity |]. left.
        apply (Hsame 1); auto; try lia.
        intros _ Hall'. apply Forall_app. split; [exact Hall' |].
           constructor; [| constructor]. now apply HconstA.
      * replace (c >? 1) with true
          by (symmetry; rewrite Z.gtb_ltb; apply Z.ltb_lt; lia).
        eexists _, false. split; [reflexivity |]. left.
        apply Hnew. lia.
    + destruct Hp as (c0 & A0 & B0 & left0 & Hc0 & Hact & Eb).
      pose proof (active_part_length _ _ _ _ _ _ _ Hact) as Hlen.
      rewrite <- Eb in Hlen. rewrite Hlen.
      destruct (Z_le_gt_dec c c0) as [Hcc | Hcc].
      * replace (c >? c0) with false
          by (symmetry; rewrite Z.gtb_ltb; apply Z.ltb_ge; lia).
        eexists _, false. split; [reflexivity |]. left.
        apply (Hsame c0); auto; try lia.
        intros E1 Hall'. apply Forall_app. split; [exact Hall' |].
        constructor; [| constructor]. apply HconstA. lia.
      * replace (c >? c0) with true
          by (symmetry; rewrite Z.gtb_ltb; apply Z.ltb_lt; lia).
        eexists _, false. split; [reflexivity |]. left.
        apply Hnew. lia.
  - replace (c >=? bz) with true
      by (symmetry; rewrite Z.geb_leb; apply Z.leb_le; lia).
    cbn [find set_pull_index set_buffer1 set_buffer2 set_find
         set_find_separately find_separately pull0 pull1 buffer1 buffer2
         pull_index].
    rewrite (add_small (start A) bz) by (rewrite ?SIZE_MAX1_eq in *; lia).
    destruct (Z.eq_dec c (bz + bz)) as [E2 | N2].
    + replace (c =? bz + bz) with true by (symmetry; now apply Z.eqb_eq).
      eexists _, true. split; [reflexivity |].
      unfold halves_found.
      cbn [find set_pull_index set_buffer1 set_buffer2 set_find
           set_find_separately find_separately pull0 pull1 buffer1 buffer2
           pull_index].
      split; [exact Hp1 |].
      exists A, B, true. rewrite <- E2.
      split; [| split; [reflexivity | now rewrite E2]].
      split; [exact Hin |]. repeat split; auto. lia.
    + replace (c =? bz + bz) with false by (symmetry; now apply Z.eqb_neq).
      assert (Hcb : bz <= c < bz + bz)
        by (destruct Hfind as [[? ?]|[? ?]]; lia).
      assert (Hact : active compare array l (seen ++ [A])
                       {| pull_range := Range_new (start A) (end_ B);
                          pull_count := c;
                          pull_from :=
                            start A + Z.of_nat (length (flat segs));
                          pull_to := start A |} c A B true (end_ B)).
      { split; [exact Hin |]. repeat split; auto. lia. }
      destruct Hfind as [[Ef Es] | [Ef Es]].
      * replace (find s =? bz + bz) with true
          by (symmetry; now apply Z.eqb_eq).
        eexists _, false. split; [reflexivity |]. right.
        unfold first_found.
        cbn [find set_pull_index set_buffer1 set_buffer2 set_find
             set_find_separately find_separately pull0 pull1 buffer1 buffer2
             pull_index].
        repeat (split; [assumption || reflexivity |]).
        exists c, A, B, true. repeat split; auto; lia.
      * replace (find s =? bz + bz) with false
          by (symmetry; apply Z.eqb_neq; lia).
        rewrite Es.
        eexists _, false. split; [reflexivity |]. right.
        unfold first_found.
        cbn [find set_pull_index set_buffer1 set_buffer2 set_find
             set_find_separately find_separately pull0 pull1 buffer1 buffer2
             pull_index].
        repeat (split; [assumption || reflexivity |]).
        exists c, A, B, true. repeat split; auto; lia.
Qed.

(* the runs seen so far start before the run looked at *)
Lemma active_before (p : Pull) (c : Z) (A0 B0 : Range) (left0 : bool)
    (E : Z) :
  active compare array l seen p c A0 B0 left0 E -> start A0 < start A.
Proof.
  intros [Hin0 H]. destruct (Hbounds _ _ Hin0) as (H0 & H1 & H2 & H3 & _).
  rewrite Forall_forall in Hseen.
  destruct left0.
  - destruct H as (_ & _ & Hs). now apply Hseen.
  - destruct H as (_ & _ & Hs & _). specialize (Hseen _ Hs). lia.
Qed.

Lemma found_in_A_first :
  first_found compare array bz l seen s ->
  exists s1 stop,
    found_in_A s A B bsz bz 0 (1 + Z.of_nat (length segs))
      (start A + Z.of_nat (length (flat segs))) = (s1, stop) /\
    if stop then two_found compare array bz l (seen ++ [A]) s1
    else first_found compare array bz l (seen ++ [A]) s1.
Proof.
  intros (Hidx & Hp1 & Hb2 & Hfind & Hsep & c0 & A0 & B0 & left0 & Hc0 & Hact
          & Eb).
  pose proof count_in_run as Hc.
  set (c := 1 + Z.of_nat (length segs)) in *.
  assert (HinA : In A (seen ++ [A])) by (apply in_or_app; right; now left).
  pose proof (left_pull_found A B segs x tail Hrun Hgrouped) as Hpull.
  fold c in Hpull.
  unfold found_in_A, PULL, set_pull. rewrite Hidx. cbn [Z.eqb andb].
  rewrite (add_small bz bz) by (rewrite ?SIZE_MAX1_eq in *; lia).
  rewrite (add_small (start A) c) by (rewrite ?SIZE_MAX1_eq in *; lia).
  replace (bsz <=? 0) with false by (symmetry; apply Z.leb_gt; lia).
  destruct (Z_lt_ge_dec c bz) as [Hlt | Hge].
  - replace (c >=? bz) with false
      by (symmetry; rewrite Z.geb_leb; apply Z.leb_gt; lia).
    eexists _, false. split; [reflexivity |].
    unfold first_found.
    repeat (split; [assumption |]).
    exists c0, A0, B0, left0.
    split; [lia |]. split; [now apply active_seen | exact Eb].
  - replace (c >=? bz) with true
      by (symmetry; rewrite Z.geb_leb; apply Z.leb_le; lia).
    cbn [find set_pull_index set_buffer1 set_buffer2 set_find
         set_find_separately find_separately pull0 pull1 buffer1 buffer2
         pull_index].
    assert (Ec : c = bz) by lia.
    replace (c =? bz + bz) with false by (symmetry; apply Z.eqb_neq; lia).
    replace (find s =? bz + bz) with false
      by (symmetry; apply Z.eqb_neq; lia).
    rewrite Hsep.
    eexists _, true. split; [reflexivity |].
    exists c0, A0, B0, left0, (end_ B0), A, B, true.
    cbn [find set_pull_index set_buffer1 set_buffer2 set_find
         set_find_separately find_separately pull0 pull1 buffer1 buffer2
         pull_index].
    split; [lia |]. split; [now apply active_seen |].
    split; [exact Eb |].
    split.
    { rewrite <- Ec. split; [exact Hin |]. repeat split; auto. lia. }
    split; [now rewrite Ec |].
    left. split; [| reflexivity]. eapply active_before; eauto.
Qed.

(* one run [A]: whatever the search has found so far *)
Lemma found_in_A_step :
  searching compare array bz l seen s \/
  first_found compare array bz l seen s ->
  exists s1 stop,
    found_in_A s A B bsz bz 0 (1 + Z.of_nat (length segs))
      (start A + Z.of_nat (length (flat segs))) = (s1, stop) /\
    if stop
    then halves_found compare array bz l (seen ++ [A]) s1 \/
         two_found compare array bz l (seen ++ [A]) s1
    else searching compare array bz l (seen ++ [A]) s1 \/
         first_found compare array bz l (seen ++ [A]) s1.
Proof.
  intros [H | H].
  - destruct (found_in_A_searching H) as (s1 & stop & E & H1).
    exists s1, stop. split; [exact E |]. destruct stop; auto.
  - destruct (found_in_A_first H) as (s1 & stop & E & H1).
    exists s1, stop. split; [exact E |]. destruct stop; auto.
Qed.
End FoundA.
(* the pull for the values found at the back of [B] *)
Lemma right_pull_found (A B : Range) (front : list T) (y : T)
    (segs : list (list T * T)) :
  slice array (start B) (end_ B) = front ++ y :: flat_right segs ->
  grouped_right compare (front ++ [y]) segs ->
  right_pull compare array A B
    {| pull_from := start B + Z.of_nat (length front);
       pull_to := end_ B;
       pull_count := 1 + Z.of_nat (length segs);
       pull_range := Range_new (start A) (end_ B) |}
    (1 + Z.of_nat (length segs)).
Proof.
  intros E Hg. exists front, y, segs.
  cbn [pull_from pull_to pull_count pull_range].
  split; [exact E |]. split; [exact Hg |]. split; [lia |].
  repeat split.
Qed.

Section FoundB.
Context (s : Buffers) (seen : list Range) (A B : Range)
  (front : list T) (y : T) (segs : list (list T * T)).
Hypothesis Hin : In (A, B) l.
Hypothesis Hseen : Forall (fun R => start R < start B) seen.
Hypothesis HAseen : In A seen.
Hypothesis Hpairs :
  forall A0 B0, In (A0, B0) l -> start A0 < start B ->
    start A0 <= start A /\ (start A0 = start A -> A0 = A /\ B0 = B).
Hypothesis Hsorted : sorted_list compare (slice array (start B) (end_ B)).
Hypothesis Hrun :
  slice array (start B) (end_ B) = front ++ y :: flat_right segs.
Hypothesis Hgrouped : grouped_right compare (front ++ [y]) segs.
Hypothesis Hle : 1 + Z.of_nat (length segs) <= find s.
Hypothesis Hall :
  1 + Z.of_nat (length segs) < find s ->
  Forall (fun z => compare z y >= 0) front.

Lemma count_in_run_B : start B <= end_ B - (1 + Z.of_nat (length segs)).
Proof.
  destruct (Hbounds _ _ Hin) as (H0 & H1 & H2 & H3 & H4 & H5).
  pose proof (slice_length array (start B) (end_ B)) as Hl.
  rewrite Hrun in Hl. pose proof (flat_right_length segs). lengths. lia.
Qed.

Lemma found_in_B_searching :
  searching compare array bz l seen s ->
  exists s1 stop,
    found_in_B s A B bsz bz 0 (1 + Z.of_nat (length segs))
      (start B + Z.of_nat (length front)) = (s1, stop) /\
    if stop then halves_found compare array bz l (seen ++ [B]) s1
    else searching compare array bz l (seen ++ [B]) s1 \/
         first_found compare array bz l (seen ++ [B]) s1.
Proof.
  intros (Hidx & Hp1 & Hb2 & Hfind & Hbest).
  destruct (Hbounds _ _ Hin) as (HA0 & HA & HAB & HB & HBe & HBm).
  pose proof count_in_run_B as Hc.
  set (c := 1 + Z.of_nat (length segs)) in *.
  assert (HinB : In B (seen ++ [B])) by (apply in_or_app; right; now left).
  pose proof (right_pull_found A B front y segs Hrun Hgrouped) as Hpull.
  fold c in Hpull.
  assert (Hc1 : 1 <= c) by (unfold c; lia).
  unfold found_in_B, PULL, set_pull. rewrite Hidx. cbn [Z.eqb andb].
  rewrite (add_small bz bz) by (rewrite ?SIZE_MAX1_eq in *; lia).
  rewrite (sub_small (end_ B) c) by (rewrite ?SIZE_MAX1_eq in *; lia).
  replace (bsz <=? 0) with false by (symmetry; apply Z.leb_gt; lia).
  destruct (Z_lt_ge_dec c bz) as [Hlt | Hge].
  - replace (c >=? bz) with false
      by (symmetry; rewrite Z.geb_leb; apply Z.leb_gt; lia).
    assert (Hcf : c < find s) by (destruct Hfind as [[? ?]|[? ?]]; lia).
    assert (Hnew : 2 <= c ->
      searching compare array bz l (seen ++ [B])
        (PULL (set_buffer1 s (Range_new (end_ B - c) (end_ B))) A B c
           (start B + Z.of_nat (length front)) (end_ B))).
    { intros Hc2. unfold searching, PULL, set_pull.
      cbn [find set_pull_index set_buffer1 set_buffer2 set_find
           set_find_separately find_separately pull0 pull1 buffer1 buffer2
           pull_index].
      rewrite Hidx. cbn [Z.eqb].
      cbn [find set_pull_index set_buffer1 set_buffer2 set_find
           set_find_separately find_separately pull0 pull1 buffer1 buffer2
           pull_index].
      repeat (split; [assumption || reflexivity |]).
      right. right. exists c, A, B, false.
      split; [lia |]. split; [| reflexivity].
      split; [exact Hin |]. repeat split; auto. }
    assert (Hsame : forall len,
      Range_length (buffer1 s) = len -> c <= len ->
      (len = 1 -> Forall (fun R => constant compare
                            (slice array (start R) (end_ R))) seen ->
       Forall (fun R => constant compare
                 (slice array (start R) (end_ R))) (seen ++ [B])) ->
      searching compare array bz l (seen ++ [B]) s).
    { intros len Hlen Hcl Hconst. unfold searching.
      repeat (split; [assumption |]).
      destruct Hbest as [(E & Eb & _) | [(A0 & B0 & Hin0 & Ep & Eb & Hcs) | Hp]].
      - rewrite Eb in Hlen. unfold Range_length in Hlen.
        cbn [start end_] in Hlen.
        replace (0 -% 0) with 0 in Hlen by reflexivity. lia.
      - right. left. exists A0, B0.
        split; [exact Hin0 |]. split; [exact Ep |]. split; [exact Eb |].
        apply Hconst; auto.
        rewrite Eb in Hlen. unfold Range_length in Hlen.
        cbn [start end_] in Hlen.
        destruct (Hbounds _ _ Hin0) as (H0 & H1 & H2 & H3 & H4 & H5).
        rewrite <- Hlen. unwrap_all. lia.
      - right. right. destruct Hp as (c0 & A0 & B0 & left0 & Hc0 & Hact & Eb).
        exists c0, A0, B0, left0.
        split; [lia |]. split; [now apply active_seen | exact Eb]. }
    assert (HconstB : c = 1 ->
      constant compare (slice array (start B) (end_ B))).
    { intros E1. unfold c in E1. destruct segs; [| cbn [length] in E1; lia].
      rewrite Hrun in *. cbn [flat_right flat_map app] in *.
      apply constant_from_last; auto. }
    destruct Hbest as [(E & Eb & Ep) | [(A0 & B0 & Hin0 & Ep & Eb & Hcs) | Hp]].
    + rewrite E in HAseen. destruct HAseen.
    + (* one value kept *)
      destruct (Hbounds _ _ Hin0) as (H0 & H1 & H2 & H3 & H4 & H5).
      assert (Hlen : Range_length (buffer1 s) = 1).
      { rewrite Eb. unfold Range_length. cbn [start end_].
        unwrap_all. lia. }
      rewrite Hlen.
      destruct (Z.eq_dec c 1) as [E1 | N1].
      * replace (c >? 1) with false
          by (symmetry; rewrite Z.gtb_ltb; apply Z.ltb_ge; lia).
        eexists _, false. split; [reflexivity |]. left.
        apply (Hsame 1); auto; try lia.
        intros _ Hall'. apply Forall_app. split; [exact Hall' |].
        constructor; [| constructor]. now apply HconstB.
      * replace (c >? 1) with true
          by (symmetry; rewrite Z.gtb_ltb; apply Z.ltb_lt; lia).
        eexists _, false. split; [reflexivity |]. left.
        apply Hnew. lia.
    + destruct Hp as (c0 & A0 & B0 & left0 & Hc0 & Hact & Eb).
      pose proof (active_part_length _ _ _ _ _ _ _ Hact) as Hlen.
      rewrite <- Eb in Hlen. rewrite Hlen.
      destruct (Z_le_gt_dec c c0) as [Hcc | Hcc].
      * replace (c >? c0) with false
          by (symmetry; rewrite Z.gtb_ltb; apply Z.ltb_ge; lia).
        eexists _, false. split; [reflexivity |]. left.
        apply (Hsame c0); auto; try lia.
        intros E1 Hall'. apply Forall_app. split; [exact Hall' |].
        constructor; [| constructor]. apply HconstB. lia.
      * replace (c >? c0) with true
          by (symmetry; rewrite Z.gtb_ltb; apply Z.ltb_lt; lia).
        eexists _, false. split; [reflexivity |]. left.
        apply Hnew. lia.
  - replace (c >=? bz) with true
      by (symmetry; rewrite Z.geb_leb; apply Z.leb_le; lia).
    rewrite (sub_small (end_ B) bz) by (rewrite ?SIZE_MAX1_eq in *; lia).
    cbn [find set_pull_index set_buffer1 set_buffer2 set_find
         set_find_separately find_separately pull0 pull1 buffer1 buffer2
         pull_index].
    destruct (Z.eq_dec c (bz + bz)) as [E2 | N2].
    + replace (c =? bz + bz) with true by (symmetry; now apply Z.eqb_eq).
      eexists _, true. split; [reflexivity |].
      unfold halves_found.
      cbn [find set_pull_index set_buffer1 set_buffer2 set_find
           set_find_separately find_separately pull0 pull1 buffer1 buffer2
           pull_index].
      split; [exact Hp1 |].
      exists A, B, false. rewrite <- E2.
      split; [| split; reflexivity].
      split; [exact Hin |]. repeat split; auto. lia.
    + replace (c =? bz + bz) with false by (symmetry; now apply Z.eqb_neq).
      assert (Hcb : bz <= c < bz + bz)
        by (destruct Hfind as [[? ?]|[? ?]]; lia).
      assert (Hact : active compare array l (seen ++ [B])
                       {| pull_range := Range_new (start A) (end_ B);
                          pull_count := c;
                          pull_from := start B + Z.of_nat (length front);
                          pull_to := end_ B |} c A B false (end_ B)).
      { split; [exact Hin |]. repeat split; auto. lia. }
      destruct Hfind as [[Ef Es] | [Ef Es]].
      * replace (find s =? bz + bz) with true
          by (symmetry; now apply Z.eqb_eq).
        eexists _, false. split; [reflexivity |]. right.
        unfold first_found.
        cbn [find set_pull_index set_buffer1 set_buffer2 set_find
             set_find_separately find_separately pull0 pull1 buffer1 buffer2
             pull_index].
        repeat (split; [assumption || reflexivity |]).
        exists c, A, B, false. repeat split; auto; lia.
      * replace (find s =? bz + bz) with false
          by (symmetry; apply Z.eqb_neq; lia).
        rewrite Es.
        eexists _, false. split; [reflexivity |]. right.
        unfold first_found.
        cbn [find set_pull_index set_buffer1 set_buffer2 set_find
             set_find_separately find_separately pull0 pull1 buffer1 buffer2
             pull_index].
        repeat (split; [assumption || reflexivity |]).
        exists c, A, B, false. repeat split; auto; lia.
Qed.

(* the runs seen so far belong to the pair looked at or to a pair before *)
Lemma active_not_after (p : Pull) (c : Z) (A0 B0 : Range) (left0 : bool)
    (E : Z) :
  active compare array l seen p c A0 B0 left0 E ->
  start A0 < start A \/ (A0 = A /\ B0 = B /\ left0 = true).
Proof.
  intros [Hin0 H]. destruct (Hbounds _ _ Hin0) as (H0 & H1 & H2 & H3 & _).
  rewrite Forall_forall in Hseen.
  assert (Hlt : start A0 < start B).
  { destruct left0.
    - destruct H as (_ & _ & Hs). now apply Hseen.
    - destruct H as (_ & _ & Hs & _). specialize (Hseen _ Hs). lia. }
  destruct (Hpairs _ _ Hin0 Hlt) as [Hle' Heq].
  destruct (Z.eq_dec (start A0) (start A)) as [E0 | N0]; [| left; lia].
  right. destruct (Heq E0) as [-> ->]. repeat split.
  destruct left0; [reflexivity |].
  destruct H as (_ & _ & Hs & _). specialize (Hseen _ Hs). lia.
Qed.

Lemma found_in_B_first :
  first_found compare array bz l seen s ->
  exists s1 stop,
    found_in_B s A B bsz bz 0 (1 + Z.of_nat (length segs))
      (start B + Z.of_nat (length front)) = (s1, stop) /\
    if stop then two_found compare array bz l (seen ++ [B]) s1
    else first_found compare array bz l (seen ++ [B]) s1.
Proof.
  intros (Hidx & Hp1 & Hb2 & Hfind & Hsep & c0 & A0 & B0 & left0 & Hc0 & Hact
          & Eb).
  destruct (Hbounds _ _ Hin) as (HA0 & HA & HAB & HB & HBe & HBm).
  pose proof count_in_run_B as Hc.
  set (c := 1 + Z.of_nat (length segs)) in *.
  assert (HinB : In B (seen ++ [B])) by (apply in_or_app; right; now left).
  pose proof (right_pull_found A B front y segs Hrun Hgrouped) as Hpull.
  fold c in Hpull.
  assert (Hc1 : 1 <= c) by (unfold c; lia).
  unfold found_in_B, PULL, set_pull. rewrite Hidx. cbn [Z.eqb andb].
  rewrite (add_small bz bz) by (rewrite ?SIZE_MAX1_eq in *; lia).
  rewrite (sub_small (end_ B) c) by (rewrite ?SIZE_MAX1_eq in *; lia).
  replace (bsz <=? 0) with false by (symmetry; apply Z.leb_gt; lia).
  destruct (Z_lt_ge_dec c bz) as [Hlt | Hge].
  - replace (c >=? bz) with false
      by (symmetry; rewrite Z.geb_leb; apply Z.leb_gt; lia).
    eexists _, false. split; [reflexivity |].
    unfold first_found.
    repeat (split; [assumption |]).
    exists c0, A0, B0, left0.
    split; [lia |]. split; [now apply active_seen | exact Eb].
  - replace (c >=? bz) with true
      by (symmetry; rewrite Z.geb_leb; apply Z.leb_le; lia).
    cbn [find set_pull_index set_buffer1 set_buffer2 set_find
         set_find_separately find_separately pull0 pull1 buffer1 buffer2
         pull_index].
    assert (Ec : c = bz) by lia.
    replace (c =? bz + bz) with false by (symmetry; apply Z.eqb_neq; lia).
    replace (find s =? bz + bz) with false
      by (symmetry; apply Z.eqb_neq; lia).
    rewrite Hsep.
    pose proof (active_count _ _ _ _ _ _ _ Hact) as (Hc2 & Hcnt & Hst & Hside).
    assert (Hact1 : active compare array l (seen ++ [B])
                      {| pull_range := Range_new (start A) (end_ B);
                         pull_count := c;
                         pull_from := start B + Z.of_nat (length front);
                         pull_to := end_ B |} bz A B false (end_ B)).
    { rewrite <- Ec. split; [exact Hin |]. repeat split; auto. lia. }
    rewrite Hst.
    destruct (active_not_after _ _ _ _ _ _ Hact) as [Hbefore | (-> & -> & ->)].
    + replace (start A0 =? start A) with false
        by (symmetry; apply Z.eqb_neq; lia).
      eexists _, true. split; [reflexivity |].
      exists c0, A0, B0, left0, (end_ B0), A, B, false.
      cbn [find set_pull_index set_buffer1 set_buffer2 set_find
           set_find_separately find_separately pull0 pull1 buffer1 buffer2
           pull_index].
      split; [lia |]. split; [now apply active_seen |].
      split; [exact Eb |].
      split; [exact Hact1 |].
      split; [now rewrite Ec |].
      left. now split.
    + rewrite Z.eqb_refl.
      eexists _, true. split; [reflexivity |].
      exists c0, A, B, true, (end_ B - bz), A, B, false.
      unfold shrink_pull0.
      cbn [find set_pull_index set_buffer1 set_buffer2 set_find
           set_find_separately find_separately pull0 pull1 buffer1 buffer2
           pull_index pull_count pull_from pull_to pull_range].
      split; [lia |].
      split.
      { destruct Hact as [_ ((sg & x0 & tl & E1 & Hg & Ecc & Ef & Et & Ecn & Er)
                             & H2 & HsA)].
        split; [exact Hin |].
        split; [| split; [lia | apply in_or_app; now left]].
        exists sg, x0, tl.
        cbn [pull_count pull_from pull_to pull_range].
        rewrite Er. cbn [start end_].
        rewrite (sub_small (end_ B) c) by (rewrite ?SIZE_MAX1_eq in *; lia).
        rewrite Ec. repeat split; auto. }
      split; [exact Eb |].
      split; [exact Hact1 |].
      split; [now rewrite Ec |].
      right. repeat split.
Qed.

(* one run [B]: whatever the search has found so far *)
Lemma found_in_B_step :
  searching compare array bz l seen s \/
  first_found compare array bz l seen s ->
  exists s1 stop,
    found_in_B s A B bsz bz 0 (1 + Z.of_nat (length segs))
      (start B + Z.of_nat (length front)) = (s1, stop) /\
    if stop
    then halves_found compare array bz l (seen ++ [B]) s1 \/
         two_found compare array bz l (seen ++ [B]) s1
    else searching compare array bz l (seen ++ [B]) s1 \/
         first_found compare array bz l (seen ++ [B]) s1.
Proof.
  intros [H | H].
  - destruct (found_in_B_searching H) as (s1 & stop & E & H1).
    exists s1, stop. split; [exact E |]. destruct stop; auto.
  - destruct (found_in_B_first H) as (s1 & stop & E & H1).
    exists s1, stop. split; [exact E |]. destruct stop; auto.
Qed.
End FoundB.
End Found.

(** * The search for the internal buffers, over the pairs of a level *)

Lemma WikiIterator_nextRange_begin (me : WikiIterator) :
  WikiIterator_begin (snd (WikiIterator_nextRange me)) = WikiIterator_begin me.
Proof. reflexivity. Qed.

(* pairs side by side come in order *)
Lemma side_by_side_order (l : list (Range * Range)) :
  forall lo hi A0 B0 A B,
    side_by_side lo l hi -> In (A0, B0) l -> In (A, B) l ->
    start A0 < start B ->
    start A0 <= start A /\ (start A0 = start A -> A0 = A /\ B0 = B).
Proof.
  induction l as [|[A1 B1] l IH]; intros lo hi A0 B0 A B H H0 H1 Hlt;
    [destruct H0 |].
  cbn [side_by_side] in H. destruct H as (Hs & Ha & Hab & Hb & Hside).
  destruct H0 as [E0 | H0]; destruct H1 as [E1 | H1].
  - injection E0 as <- <-. injection E1 as <- <-. split; [lia | now split].
  - injection E0 as <- <-.
    pose proof (side_by_side_in _ _ _ _ Hside H1) as Hb1. cbn [fst snd] in Hb1.
    split; lia.
  - injection E1 as <- <-.
    pose proof (side_by_side_in _ _ _ _ Hside H0) as Hb0. cbn [fst snd] in Hb0.
    lia.
  - now apply (IH _ _ _ _ _ _ Hside).
Qed.

(* the runs of a level lie within the array *)
Lemma level_bounds {T : Type} (size : Z) (array : list T)
    (l : list (Range * Range)) (lo0 hi0 : Z) :
  fits size array -> side_by_side lo0 l hi0 ->
  0 <= lo0 -> hi0 <= Z.of_nat (length array) ->
  forall A0 B0, In (A0, B0) l ->
    0 <= start A0 /\ start A0 < end_ A0 /\ end_ A0 = start B0 /\
    start B0 < end_ B0 /\ end_ B0 <= Z.of_nat (length array) /\
    end_ B0 < SIZE_MAX1.
Proof.
  intros Hfit Hside Hlo0 Hhi0 A0 B0 Hin.
  pose proof (side_by_side_in _ _ _ _ Hside Hin) as H.
  cbn [fst snd] in H. destruct Hfit as [Hs Hf].
  assert (Z.of_nat (length array) < SIZE_MAX1) by nia.
  repeat split; lia.
Qed.

Section FindBuffers.
Context {T : Type} (size : Z) (compare : Comparison T).
Hypothesis Horder : total_order compare.
Context (array : list T) (bz bsz : Z) (l : list (Range * Range))
  (lo0 hi0 : Z).
Hypothesis Hfit : fits size array.
Hypothesis Hbz : 2 <= bz.
Hypothesis Hbz2 : bz + bz < SIZE_MAX1.
Hypothesis Hbsz : 0 < bsz.
Hypothesis Hside : side_by_side lo0 l hi0.
Hypothesis Hlo0 : 0 <= lo0.
Hypothesis Hhi0 : hi0 <= Z.of_nat (length array).
Hypothesis Hruns :
  Forall (fun AB =>
            sorted_list compare
              (slice array (start (fst AB)) (end_ (fst AB))) /\
            sorted_list compare
              (slice array (start (snd AB)) (end_ (snd AB)))) l.
#[local] Hint Extern 0 (Store (list _) _) =>
  exact (list_store size) : typeclass_instances.

#[local] Abbreviation bounds :=
  (level_bounds size array l lo0 hi0 Hfit Hside Hlo0 Hhi0).

Lemma searching_find (seen : list Range) (s : Buffers) :
  searching compare array bz l seen s \/
  first_found compare array bz l seen s ->
  2 <= find s < SIZE_MAX1.
Proof.
  intros [(_ & _ & _ & [[E _] | [E _]] & _) | (_ & _ & _ & E & _)];
    rewrite E; lia.
Qed.

(* the search over the pairs that are left *)
Lemma find_buffers_loop (rest : list (Range * Range)) :
  forall (fuel0 fuel : nat) (it it' : WikiIterator) (lo : Z)
         (seen : list Range) (s : Buffers),
    pairs_from fuel0 it = Some (rest, it') ->
    side_by_side lo rest hi0 ->
    (forall AB, In AB rest -> In AB l) ->
    (forall AB, In AB l ->
       In AB rest \/ (In (fst AB) seen /\ In (snd AB) seen)) ->
    Forall (fun R => start R < lo) seen ->
    searching compare array bz l seen s \/
    first_found compare array bz l seen s ->
    (length rest + length array <= fuel)%nat ->
    exists s' it1 seen',
      find_buffers fuel array size compare bsz bz 0 s it = Done (s', it1) /\
      WikiIterator_begin it1 = WikiIterator_begin it /\
      (halves_found compare array bz l seen' s' \/
       two_found compare array bz l seen' s' \/
       ((searching compare array bz l seen' s' \/
         first_found compare array bz l seen' s') /\
        forall AB, In AB l -> In (fst AB) seen' /\ In (snd AB) seen')).
Proof.
  induction rest as [|[A B] rest IH];
    intros fuel0 fuel it it' lo seen s Hpairs Hsd Hsub Hcover Hseen Hs Hfuel.
  - assert (Hfin : WikiIterator_finished it = true).
    { destruct fuel0; cbn [pairs_from] in Hpairs;
        destruct (WikiIterator_finished it); try discriminate; auto.
      destruct (WikiIterator_nextRange it) as [A0 it1].
      destruct (WikiIterator_nextRange it1) as [B0 it2].
      destruct (pairs_from fuel0 it2) as [[l0 me']|]; discriminate. }
    exists s, it, seen.
    split; [destruct fuel; cbn [find_buffers]; now rewrite Hfin |].
    split; [reflexivity |]. right. right. split; [exact Hs |].
    intros AB HAB. destruct (Hcover _ HAB) as [[] | H]. exact H.
  - destruct fuel0 as [|fuel0]; cbn [pairs_from] in Hpairs;
      destruct (WikiIterator_finished it) eqn:Hfin; try discriminate.
    pose proof (WikiIterator_nextRange_begin it) as Eb1.
    destruct (WikiIterator_nextRange it) as [A0 it1] eqn:E1.
    pose proof (WikiIterator_nextRange_begin it1) as Eb2.
    destruct (WikiIterator_nextRange it1) as [B0 it2] eqn:E2.
    cbn [snd] in Eb1, Eb2.
    destruct (pairs_from fuel0 it2) as [[l0 me']|] eqn:E3;
      [| discriminate].
    injection Hpairs as EA EB El Eit. subst A0 B0 l0 me'.
    cbn [side_by_side] in Hsd.
    destruct Hsd as (HsA & HA & HAB & HB & Hsd).
    assert (Hin : In (A, B) l) by (apply Hsub; now left).
    destruct (bounds _ _ Hin) as (HA0 & _ & _ & _ & HBe & HBm).
    pose proof (proj1 (Forall_forall _ _) Hruns _ Hin) as [HsortA HsortB].
    cbn [fst snd] in HsortA, HsortB.
    pose proof (searching_find _ _ Hs) as Hfind.
    destruct fuel as [|fuel]; [cbn [length] in Hfuel; lia |].
    cbn [length] in Hfuel.
    cbn [find_buffers]. rewrite Hfin, E1, E2.
    destruct (count_A_run size compare Horder array A (find s) (S fuel))
      as (segs & x & tail & Hrun & Hg & Ecount & Hle & Hall);
      auto; try lia.
    rewrite Ecount. cbn [bind].
    assert (Hle' : 1 + Z.of_nat (length segs) <= find s).
    { destruct Hle as [Hle | ->]; [exact Hle | cbn [length]; lia]. }
    destruct (found_in_A_step compare Horder array bz bsz l Hbz Hbz2 Hbsz
                bounds s seen A B segs x tail)
      as (s1 & stop & Ef & Hs1); auto; try lia.
    { rewrite HsA. exact Hseen. }
    rewrite Ef.
    destruct stop.
    { exists s1, it2, (seen ++ [A]).
      split; [reflexivity |]. split; [congruence |].
      destruct Hs1 as [H | H]; auto. }
    pose proof (searching_find _ _ Hs1) as Hfind1.
    destruct (count_B_run size compare Horder array B (find s1) (S fuel))
      as (front & y & segsB & HrunB & HgB & EcountB & HleB & HallB);
      auto; try lia.
    rewrite EcountB. cbn [bind].
    assert (HleB' : 1 + Z.of_nat (length segsB) <= find s1).
    { destruct HleB as [HleB | ->]; [exact HleB | cbn [length]; lia]. }
    destruct (found_in_B_step compare Horder array bz bsz l Hbz Hbz2 Hbsz
                bounds s1 (seen ++ [A]) A B front y segsB)
      as (s2 & stop & EfB & Hs2); auto; try lia.
    { apply Forall_app. split.
      - eapply Forall_impl; [| exact Hseen]. cbn beta. intros R HR. lia.
      - constructor; [lia | constructor]. }
    { apply in_or_app. right. now left. }
    { intros A1 B1 Hin1 Hlt.
      exact (side_by_side_order _ _ _ _ _ _ _ Hside Hin1 Hin Hlt). }
    rewrite EfB.
    destruct stop.
    { exists s2, it2, ((seen ++ [A]) ++ [B]).
      split; [reflexivity |]. split; [congruence |].
      destruct Hs2 as [H | H]; auto. }
    destruct (IH fuel0 fuel it2 it' (end_ B) ((seen ++ [A]) ++ [B]) s2)
      as (s' & it1' & seen' & Efb & Ebeg & Hres); auto; try lia.
    { intros AB HAB'. apply Hsub. now right. }
    { intros AB HAB'. destruct (Hcover _ HAB') as [[<- | Hr] | [Hf Hsn]].
      - right. cbn [fst snd]. split; apply in_or_app.
        + left. apply in_or_app. right. now left.
        + right. now left.
      - now left.
      - right. split; apply in_or_app; left; apply in_or_app; now left. }
    { apply Forall_app. split; [apply Forall_app; split |].
      - eapply Forall_impl; [| exact Hseen]. cbn beta. intros R HR. lia.
      - constructor; [lia | constructor].
      - constructor; [lia | constructor]. }
    exists s', it1', seen'.
    split; [exact Efb |]. split; [congruence | exact Hres].
Qed.
End FindBuffers.

(** * Pulling the items of an internal buffer out of a run *)

(* two of the pairs side by side are the same pair or lie apart *)
Lemma pairs_apart (l : list (Range * Range)) :
  forall lo hi A0 B0 A B,
    side_by_side lo l hi -> In (A0, B0) l -> In (A, B) l ->
    (A0 = A /\ B0 = B) \/ end_ B <= start A0 \/ end_ B0 <= start A.
Proof.
  induction l as [|[A1 B1] l IH]; intros lo hi A0 B0 A B H H0 H1;
    [destruct H0 |].
  cbn [side_by_side] in H. destruct H as (Hs & Ha & Hab & Hb & Hside).
  destruct H0 as [E0 | H0]; destruct H1 as [E1 | H1].
  - injection E0 as <- <-. injection E1 as <- <-. now left.
  - injection E0 as <- <-.
    pose proof (side_by_side_in _ _ _ _ Hside H1) as Hb1. cbn [fst snd] in Hb1.
    right. right. lia.
  - injection E1 as <- <-.
    pose proof (side_by_side_in _ _ _ _ Hside H0) as Hb0. cbn [fst snd] in Hb0.
    right. left. lia.
  - now apply (IH _ _ _ _ _ _ Hside).
Qed.

Section PullFrame.
Context {T : Type} (size : Z) (compare : Comparison T).
Hypothesis Horder : total_order compare.
#[local] Hint Extern 0 (Store (list _) _) =>
  exact (list_store size) : typeclass_instances.

(* a pull that moves nothing *)
Lemma pull_out_idle (array : list T) (p : Pull) (fuel : nat) :
  pull_from p = pull_to p ->
  pull_out fuel array size compare [] 0 p = Done (array, [], p).
Proof.
  intros E. unfold pull_out. rewrite E.
  rewrite Z.ltb_irrefl. rewrite Z.gtb_ltb, Z.ltb_irrefl. reflexivity.
Qed.

(* a pull to the front of the run [A] *)
Lemma pull_out_left (array : list T) (p : Pull) (A : Range)
    (segs : list (T * list T)) (x : T) (tail : list T) (fuel : nat) :
  fits size array ->
  0 <= start A -> end_ A <= Z.of_nat (length array) ->
  slice array (start A) (end_ A) = flat segs ++ x :: tail ->
  sorted_list compare (flat segs ++ x :: tail) ->
  grouped compare segs (x :: tail) ->
  segs <> [] ->
  pull_from p = start A + Z.of_nat (length (flat segs)) ->
  pull_to p = start A ->
  pull_count p = Z.of_nat (length segs) + 1 ->
  (2 * length array <= fuel)%nat ->
  pull_out fuel array size compare [] 0 p
  = Done (splice array (start A)
            ((map fst segs ++ [x]) ++ flat_map snd segs ++ tail),
          [], set_pull_from p (start A + pull_count p - 1)).
Proof.
  intros Hfit HA0 HAe Hrun Hsorted Hg Hne Hfrom Hto Hcount Hfuel.
  pose proof (slice_length array (start A) (end_ A)) as Hlen.
  assert (HA : start A <= end_ A).
  { destruct (Z_le_gt_dec (start A) (end_ A)); [assumption |].
    unfold slice in Hrun.
    replace (Z.to_nat (end_ A - start A)) with 0%nat in Hrun by lia.
    cbn [firstn] in Hrun. destruct (flat segs); discriminate. }
  rewrite Hrun in Hlen. specialize (Hlen ltac:(lia) HAe).
  destruct (window_parts array (start A) (Z.to_nat (end_ A - start A)))
    as (pre & old & post & Earr & Hpre & Hold & Eold); [lia | lia |].
  replace (start A + Z.of_nat (Z.to_nat (end_ A - start A))) with (end_ A)
    in Eold by lia.
  rewrite Hrun in Eold. subst old.
  pose proof (flat_length segs) as Hfl.
  assert (Hsegs : (1 <= length segs)%nat)
    by (destruct segs; [congruence | cbn [length]; lia]).
  assert (Hfs : length (flat segs)
                = (length segs + length (flat_map snd segs))%nat).
  { clear. induction segs as [|s sg IH]; [reflexivity |].
    cbn [flat flat_map length]. fold (flat sg).
    rewrite !length_app. cbn [length]. lia. }
  assert (Hspl : splice array (start A)
                   ((map fst segs ++ [x]) ++ flat_map snd segs ++ tail)
                 = pre ++ (map fst segs ++ [x])
                     ++ (flat_map snd segs ++ tail) ++ post).
  { rewrite Earr at 1.
    rewrite (splice_parts pre (flat segs ++ x :: tail) post).
    - now rewrite <- !app_assoc.
    - lia.
    - rewrite !length_app, length_map. cbn [length]. lia. }
  rewrite Hspl.
  unfold pull_out. rewrite Hto, Hfrom.
  replace (start A <? start A + Z.of_nat (length (flat segs))) with true
    by (symmetry; apply Z.ltb_lt; lia).
  assert (Earr' : array = pre ++ flat segs ++ [x] ++ tail ++ post)
    by (rewrite Earr; now rewrite <- !app_assoc).
  rewrite Earr' in Hfit |- *.
  rewrite length_app in Hlen. cbn [length] in Hlen.
  rewrite (pull_left_spec size compare Horder pre post (pull_count p)
             segs [x] tail p); auto; try (cbn [length]; lia).
  - f_equal. f_equal. f_equal. lia.
  - apply sorted_list_app in Hsorted. tauto.
  - now apply grouped_weaken in Hg.
  - discriminate.
Qed.

(* a pull to the back of the run [B] *)
Lemma pull_out_right (array : list T) (p : Pull) (B : Range)
    (front : list T) (y : T) (segs : list (list T * T)) (fuel : nat) :
  fits size array ->
  0 <= start B -> end_ B <= Z.of_nat (length array) ->
  slice array (start B) (end_ B) = front ++ y :: flat_right segs ->
  sorted_list compare (front ++ y :: flat_right segs) ->
  grouped_right compare (front ++ [y]) segs ->
  pull_from p = start B + Z.of_nat (length front) ->
  pull_to p = end_ B ->
  pull_count p = Z.of_nat (length segs) + 1 ->
  (2 * length array <= fuel)%nat ->
  pull_out fuel array size compare [] 0 p
  = Done (splice array (start B)
            ((front ++ flat_map fst segs) ++ y :: map snd segs),
          [], set_pull_from p (end_ B - pull_count p)).
Proof.
  intros Hfit HB0 HBe Hrun Hsorted Hg Hfrom Hto Hcount Hfuel.
  pose proof (slice_length array (start B) (end_ B)) as Hlen.
  assert (HB : start B <= end_ B).
  { destruct (Z_le_gt_dec (start B) (end_ B)); [assumption |].
    unfold slice in Hrun.
    replace (Z.to_nat (end_ B - start B)) with 0%nat in Hrun by lia.
    cbn [firstn] in Hrun. destruct front; discriminate. }
  rewrite Hrun in Hlen. specialize (Hlen ltac:(lia) HBe).
  destruct (window_parts array (start B) (Z.to_nat (end_ B - start B)))
    as (pre & old & post & Earr & Hpre & Hold & Eold); [lia | lia |].
  replace (start B + Z.of_nat (Z.to_nat (end_ B - start B))) with (end_ B)
    in Eold by lia.
  rewrite Hrun in Eold. subst old.
  pose proof (flat_right_length segs) as Hfl.
  assert (Hfs : length (flat_right segs)
                = (length (flat_map fst segs) + length segs)%nat).
  { clear. induction segs as [|s sg IH]; [reflexivity |].
    cbn [flat_right flat_map length]. fold (flat_right sg).
    rewrite !length_app. cbn [length]. lia. }
  rewrite length_app in Hlen. cbn [length] in Hlen.
  assert (Hspl : splice array (start B)
                   ((front ++ flat_map fst segs) ++ y :: map snd segs)
                 = pre ++ (front ++ flat_map fst segs)
                     ++ ([y] ++ map snd segs) ++ post).
  { rewrite Earr at 1.
    rewrite (splice_parts pre (front ++ y :: flat_right segs) post).
    - now rewrite <- !app_assoc.
    - lia.
    - rewrite !length_app. cbn [length]. rewrite length_map.
      lia. }
  rewrite Hspl.
  fit_bound Hfit Hbound.
  unfold pull_out. rewrite Hto, Hfrom.
  replace (end_ B <? start B + Z.of_nat (length front)) with false
    by (symmetry; apply Z.ltb_ge; lia).
  replace (end_ B >? start B + Z.of_nat (length front)) with true
    by (symmetry; rewrite Z.gtb_ltb; apply Z.ltb_lt; lia).
  rewrite add_small by lia.
  assert (Earr' : array = pre ++ front ++ [y] ++ flat_right segs ++ post)
    by (rewrite Earr; now rewrite <- !app_assoc).
  rewrite Earr' in Hfit |- *.
  rewrite (pull_right_spec size compare Horder pre post (pull_count p)
             segs (front ++ [y]) front [y] p);
    auto; try (cbn [length]; lia).
  - f_equal. f_equal. f_equal. rewrite !Nat2Z.inj_add. lia.
  - apply sorted_list_app in Hsorted. destruct Hsorted as (_ & Hs & _).
    change (y :: flat_right segs) with ([y] ++ flat_right segs) in Hs.
    apply sorted_list_app in Hs. tauto.
Qed.
End PullFrame.

(** * The runs of a level once the internal buffers are pulled out *)

Lemma lead_trail_idle (p : Pull) (z : Z) :
  pull_from p = pull_to p -> lead p z = 0 /\ trail p z = 0.
Proof.
  intros E. unfold lead, trail. rewrite E.
  rewrite Z.gtb_ltb, Z.ltb_irrefl, andb_false_r. now split.
Qed.

Lemma lead_trail_nonneg (p : Pull) (z : Z) :
  0 <= pull_count p -> 0 <= lead p z /\ 0 <= trail p z.
Proof.
  intros H. unfold lead, trail.
  destruct (_ && _); destruct (_ && _); lia.
Qed.

Section Level.
Context {T : Type} (size : Z) (compare : Comparison T).
Hypothesis Horder : total_order compare.
Context (array : list T) (l : list (Range * Range)) (lo0 hi0 : Z).
Hypothesis Hfit : fits size array.
Hypothesis Hside : side_by_side lo0 l hi0.
Hypothesis Hlo0 : 0 <= lo0.
Hypothesis Hhi0 : hi0 <= Z.of_nat (length array).
#[local] Hint Extern 0 (Store (list _) _) =>
  exact (list_store size) : typeclass_instances.

#[local] Abbreviation bounds :=
  (level_bounds size array l lo0 hi0 Hfit Hside Hlo0 Hhi0).

Lemma same_start (A0 B0 A B : Range) :
  In (A0, B0) l -> In (A, B) l -> start A = start A0 -> A0 = A /\ B0 = B.
Proof.
  intros H0 H1 E.
  destruct (bounds _ _ H0) as (? & ? & ? & ? & ? & ?).
  destruct (bounds _ _ H1) as (? & ? & ? & ? & ? & ?).
  destruct (pairs_apart _ _ _ _ _ _ _ Hside H0 H1) as [Hp | [Hp | Hp]];
    [exact Hp | lia | lia].
Qed.

(* what a pull of items found in a pair leaves aside *)
Lemma lead_trail_active (seen : list Range) (p : Pull) (c : Z)
    (A0 B0 : Range) (left : bool) (E z : Z) :
  active compare array l seen p c A0 B0 left E ->
  lead p z = (if (z =? start A0) && left then c else 0) /\
  trail p z = (if (z =? start A0) && negb left then c else 0).
Proof.
  intros Hact.
  destruct (active_count compare array l bounds _ _ _ _ _ _ _ Hact)
    as (Hc & Hcnt & Hst & Hdir).
  unfold lead, trail. rewrite Hst, Hcnt.
  destruct left; destruct Hdir as [_ Hdir].
  - replace (pull_from p >? pull_to p) with true
      by (symmetry; rewrite Z.gtb_ltb; apply Z.ltb_lt; lia).
    replace (pull_from p <? pull_to p) with false
      by (symmetry; apply Z.ltb_ge; lia).
    rewrite !andb_false_r. now split.
  - replace (pull_from p >? pull_to p) with false
      by (symmetry; rewrite Z.gtb_ltb; apply Z.ltb_ge; lia).
    replace (pull_from p <? pull_to p) with true
      by (symmetry; apply Z.ltb_lt; lia).
    rewrite !andb_false_r. now split.
Qed.

(* the form of a pair is a matter of the items of its two runs *)
Lemma pulled_form_same (arr arr' : list T) (A B : Range) (kl kt : Z) :
  slice arr' (start A) (end_ A) = slice arr (start A) (end_ A) ->
  slice arr' (start B) (end_ B) = slice arr (start B) (end_ B) ->
  pulled_form compare array arr A B kl kt ->
  pulled_form compare array arr' A B kl kt.
Proof. unfold pulled_form. intros -> ->. exact (fun H => H). Qed.

(* before any pull *)
Lemma pulled_form_start (A B : Range) :
  sorted_list compare (slice array (start A) (end_ A)) ->
  sorted_list compare (slice array (start B) (end_ B)) ->
  pulled_form compare array array A B 0 0.
Proof.
  intros HA HB.
  exists [], (slice array (start A) (end_ A)),
    (slice array (start B) (end_ B)), [].
  rewrite app_nil_r, merge_nil_l, merge_nil_r.
  repeat split; auto; constructor.
Qed.

(* a run no pull has touched *)
Lemma pulled_form_untouched (arr : list T) (A B : Range) (kt : Z) :
  pulled_form compare array arr A B 0 kt ->
  slice arr (start A) (end_ A) = slice array (start A) (end_ A).
Proof.
  intros (XA & A' & B' & YB & EA & EB & HlX & HlY & _ & _ & _ & _ & HmA & _).
  destruct XA; [| cbn [length] in HlX; lia].
  rewrite merge_nil_l in HmA. rewrite EA. exact HmA.
Qed.

Lemma pulled_form_untouched_B (arr : list T) (A B : Range) (kl : Z) :
  pulled_form compare array arr A B kl 0 ->
  slice arr (start B) (end_ B) = slice array (start B) (end_ B).
Proof.
  intros (XA & A' & B' & YB & EA & EB & HlX & HlY & _ & _ & _ & _ & _ & HmB).
  destruct YB; [| cbn [length] in HlY; lia].
  rewrite merge_nil_r in HmB. rewrite EB, app_nil_r. exact HmB.
Qed.

(* one pull *)
Lemma pull_out_step (arr : list T) (p : Pull) (rest kl kt : Z -> Z)
    (fuel : nat) :
  length arr = length array ->
  slot compare array l p rest ->
  (forall A B, In (A, B) l ->
     pulled_form compare array arr A B (kl (start A)) (kt (start A))) ->
  (forall z, lead p z <> 0 -> kl z = 0) ->
  (forall z, trail p z <> 0 -> kt z = 0) ->
  (2 * length array <= fuel)%nat ->
  exists arr' p',
    pull_out fuel arr size compare [] 0 p = Done (arr', [], p') /\
    length arr' = length array /\
    pull_range p' = pull_range p /\ pull_count p' = pull_count p /\
    pull_to p' = pull_to p /\
    (forall z, lead p' z = lead p z /\ trail p' z = trail p z) /\
    (pull_from p = pull_to p -> pull_from p' = pull_to p') /\
    forall A B, In (A, B) l ->
      pulled_form compare array arr' A B
        (kl (start A) + lead p (start A)) (kt (start A) + trail p (start A)).
Proof.
  intros Hlen Hslot Hform Hkl Hkt Hfuel.
  assert (Hfit' : fits size arr) by (apply (fits_length size array); auto).
  destruct Hslot as [Hidle | (seen & c & A0 & B0 & left & Hact)].
  - exists arr, p. rewrite pull_out_idle by exact Hidle.
    repeat split; auto.
    intros A B Hin. destruct (lead_trail_idle p (start A) Hidle) as [-> ->].
    rewrite !Z.add_0_r. now apply Hform.
  - pose proof (fun z => lead_trail_active _ _ _ _ _ _ _ z Hact) as Hlt.
    destruct (active_count compare array l bounds _ _ _ _ _ _ _ Hact)
      as (Hc & Hcnt & Hst & Hdir).
    pose proof Hact as [Hin0 Hdesc].
    destruct (bounds _ _ Hin0) as (HA0 & HA & HAB & HB & HBe & HBm).
    pose proof (Hform _ _ Hin0) as Hform0.
    destruct left.
    + (* to the front of the run A0 *)
      destruct Hdesc as ((segs & x & tail & E1 & Hg & Ec & Ef & Et & Ecn & Er)
                         & _ & _).
      assert (Hk0 : kl (start A0) = 0).
      { apply Hkl. destruct (Hlt (start A0)) as [-> _].
        rewrite Z.eqb_refl. cbn [andb]. lia. }
      rewrite Hk0 in Hform0.
      pose proof (pulled_form_untouched _ _ _ _ Hform0) as Hrun.
      rewrite E1 in Hrun.
      assert (Hsorted : sorted_list compare (flat segs ++ x :: tail)).
      { destruct Hform0 as (XA & A' & B' & YB & EA & EB & HlX & HlY & HsA
                            & _ & _ & _ & HmA & _).
        destruct XA; [| cbn [length] in HlX; lia].
        rewrite merge_nil_l in HmA. rewrite <- E1, <- HmA. exact HsA. }
      set (w := (map fst segs ++ [x]) ++ flat_map snd segs ++ tail).
      assert (Hw : Z.of_nat (length w) = end_ A0 - start A0).
      { pose proof (slice_length arr (start A0) (end_ A0)) as Hl.
        rewrite Hrun in Hl. unfold w.
        assert (Hfs : length (flat segs)
                      = (length segs + length (flat_map snd segs))%nat).
        { clear. induction segs as [|s sg IH]; [reflexivity |].
          cbn [flat flat_map length]. fold (flat sg).
          rewrite !length_app. cbn [length]. lia. }
        rewrite !length_app, length_map in *. cbn [length] in *. lia. }
      exists (splice arr (start A0) w),
        (set_pull_from p (start A0 + pull_count p - 1)).
      subst w.
      split.
      { apply pull_out_left; auto; try lia.
        destruct segs; [cbn [length] in Ec; lia | discriminate]. }
      split; [rewrite splice_length; lia |].
      split; [reflexivity |]. split; [reflexivity |]. split; [reflexivity |].
      split.
      { intros z. unfold lead, trail, set_pull_from.
        cbn [pull_from pull_to pull_count pull_range].
        destruct Hdir as [_ Hdir].
        replace (pull_from p >? pull_to p) with true
          by (symmetry; rewrite Z.gtb_ltb; apply Z.ltb_lt; lia).
        replace (pull_from p <? pull_to p) with false
          by (symmetry; apply Z.ltb_ge; lia).
        replace (start A0 + pull_count p - 1 >? pull_to p) with true
          by (symmetry; rewrite Z.gtb_ltb; apply Z.ltb_lt; lia).
        replace (start A0 + pull_count p - 1 <? pull_to p) with false
          by (symmetry; apply Z.ltb_ge; lia).
        now split. }
      split; [destruct Hdir as [_ Hdir]; lia |].
      intros A B Hin.
      destruct (Hlt (start A)) as [-> ->]. rewrite andb_false_r, Z.add_0_r.
      destruct (bounds _ _ Hin) as (HA0' & HA' & HAB' & HB' & HBe' & HBm').
      destruct (pairs_apart _ _ _ _ _ _ _ Hside Hin0 Hin)
        as [[<- <-] | Hapart].
      * rewrite Z.eqb_refl. cbn [andb]. rewrite Hk0, Z.add_0_l.
        destruct Hform0 as (XA & A' & B' & YB & EA & EB & HlX & HlY & HsA
                            & HsB & HstX & HstY & HmA & HmB).
        exists (map fst segs ++ [x]), (flat_map snd segs ++ tail), B', YB.
        split; [apply slice_splice; lia |].
        split.
        { rewrite slice_splice_after; auto; lia. }
        split; [rewrite length_app, length_map; cbn [length]; lia |].
        split; [exact HlY |].
        split; [apply (pulled_left_sorted compare segs x tail []);
                exact Hsorted |].
        split; [exact HsB |].
        split; [now apply (pulled_left_strict compare segs x tail) |].
        split; [exact HstY |].
        split; [| exact HmB].
        rewrite E1. now apply pulled_left_merge.
      * replace (start A =? start A0) with false
          by (symmetry; apply Z.eqb_neq; lia).
        cbn [andb]. rewrite Z.add_0_r.
        apply (pulled_form_same arr); [| | now apply Hform].
        -- apply slice_splice_away; try lia. unfold away. lia.
        -- apply slice_splice_away; try lia. unfold away. lia.
    + (* to the back of the run B0 *)
      destruct Hdesc as ((front & y & segs & E1 & Hg & Ec & Ef & Et & Ecn & Er)
                         & _ & _).
      assert (Hk0 : kt (start A0) = 0).
      { apply Hkt. destruct (Hlt (start A0)) as [_ ->].
        rewrite Z.eqb_refl. cbn [andb negb]. lia. }
      rewrite Hk0 in Hform0.
      pose proof (pulled_form_untouched_B _ _ _ _ Hform0) as Hrun.
      rewrite E1 in Hrun.
      assert (Hsorted : sorted_list compare (front ++ y :: flat_right segs)).
      { destruct Hform0 as (XA & A' & B' & YB & EA & EB & HlX & HlY & _
                            & HsB & _ & _ & _ & HmB).
        destruct YB; [| cbn [length] in HlY; lia].
        rewrite merge_nil_r in HmB. rewrite <- E1, <- HmB. exact HsB. }
      set (w := (front ++ flat_map fst segs) ++ y :: map snd segs).
      assert (Hw : Z.of_nat (length w) = end_ B0 - start B0).
      { pose proof (slice_length arr (start B0) (end_ B0)) as Hl.
        rewrite Hrun in Hl. unfold w.
        assert (Hfs : length (flat_right segs)
                      = (length (flat_map fst segs) + length segs)%nat).
        { clear. induction segs as [|s sg IH]; [reflexivity |].
          cbn [flat_right flat_map length]. fold (flat_right sg).
          rewrite !length_app. cbn [length]. lia. }
        rewrite !length_app in *. cbn [length] in *.
        rewrite length_map. lia. }
      exists (splice arr (start B0) w),
        (set_pull_from p (end_ B0 - pull_count p)).
      subst w.
      split; [apply pull_out_right; auto; lia |].
      split; [rewrite splice_length; lia |].
      split; [reflexivity |]. split; [reflexivity |]. split; [reflexivity |].
      split.
      { intros z. unfold lead, trail, set_pull_from.
        cbn [pull_from pull_to pull_count pull_range].
        destruct Hdir as [_ Hdir].
        replace (pull_from p >? pull_to p) with false
          by (symmetry; rewrite Z.gtb_ltb; apply Z.ltb_ge; lia).
        replace (pull_from p <? pull_to p) with true
          by (symmetry; apply Z.ltb_lt; lia).
        replace (end_ B0 - pull_count p >? pull_to p) with false
          by (symmetry; rewrite Z.gtb_ltb; apply Z.ltb_ge; lia).
        replace (end_ B0 - pull_count p <? pull_to p) with true
          by (symmetry; apply Z.ltb_lt; lia).
        now split. }
      split; [destruct Hdir as [_ Hdir]; lia |].
      intros A B Hin.
      destruct (Hlt (start A)) as [-> ->]. rewrite andb_false_r, Z.add_0_r.
      destruct (bounds _ _ Hin) as (HA0' & HA' & HAB' & HB' & HBe' & HBm').
      destruct (pairs_apart _ _ _ _ _ _ _ Hside Hin0 Hin)
        as [[<- <-] | Hapart].
      * rewrite Z.eqb_refl. cbn [andb negb]. rewrite Hk0, Z.add_0_l.
        destruct Hform0 as (XA & A' & B' & YB & EA & EB & HlX & HlY & HsA
                            & HsB & HstX & HstY & HmA & HmB).
        exists XA, A', (front ++ flat_map fst segs), (y :: map snd segs).
        split.
        { rewrite slice_splice_before; auto; lia. }
        split; [apply slice_splice; lia |].
        split; [exact HlX |].
        split; [cbn [length]; rewrite length_map; lia |].
        split; [exact HsA |].
        split.
        { apply (sorted_list_remove compare front [y]).
          rewrite app_assoc.
          apply (pulled_right_sorted compare segs).
          rewrite <- app_assoc. exact Hsorted. }
        split; [exact HstX |].
        split; [now apply (pulled_right_strict compare front y segs) |].
        split; [exact HmA |].
        rewrite E1. now apply pulled_right_merge.
      * replace (start A =? start A0) with false
          by (symmetry; apply Z.eqb_neq; lia).
        cbn [andb]. rewrite Z.add_0_r.
        apply (pulled_form_same arr); [| | now apply Hform].
        -- apply slice_splice_away; try lia. unfold away. lia.
        -- apply slice_splice_away; try lia. unfold away. lia.
Qed.
End Level.

(** * The square root taken in double *)

Lemma digits2_pos_bounds (p : positive) :
  2 ^ (Z.pos (SpecFloat.digits2_pos p) - 1) <= Z.pos p
  < 2 ^ Z.pos (SpecFloat.digits2_pos p).
Proof.
  induction p as [p IH | p IH |]; cbn [SpecFloat.digits2_pos].
  - rewrite Pos2Z.inj_succ.
    replace (Z.succ (Z.pos (SpecFloat.digits2_pos p)) - 1)
      with (Z.succ (Z.pos (SpecFloat.digits2_pos p) - 1)) by lia.
    rewrite !Z.pow_succ_r by lia. lia.
  - rewrite Pos2Z.inj_succ.
    replace (Z.succ (Z.pos (SpecFloat.digits2_pos p)) - 1)
      with (Z.succ (Z.pos (SpecFloat.digits2_pos p) - 1)) by lia.
    rewrite !Z.pow_succ_r by lia. lia.
  - cbn. lia.
Qed.

Lemma digits2_pos_unique (p : positive) (k : Z) :
  2 ^ (k - 1) <= Z.pos p < 2 ^ k -> Z.pos (SpecFloat.digits2_pos p) = k.
Proof.
  intros Hk. pose proof (digits2_pos_bounds p) as Hd.
  set (d := Z.pos (SpecFloat.digits2_pos p)) in *.
  assert (0 < d) by (unfold d; lia).
  assert (0 < k).
  { destruct (Z_lt_le_dec 0 k); [assumption |].
    assert (2 ^ k <= 2 ^ 0) by (apply Z.pow_le_mono_r; lia).
    change (2 ^ 0) with 1 in *. lia. }
  destruct (Z_lt_le_dec d k) as [Hlt |Hge].
  - assert (2 ^ d <= 2 ^ (k - 1)) by (apply Z.pow_le_mono_r; lia). lia.
  - destruct (Z_lt_le_dec k d) as [Hlt |Hge']; [| lia].
    assert (2 ^ k <= 2 ^ (d - 1)) by (apply Z.pow_le_mono_r; lia). lia.
Qed.

Lemma iter_xO_pow (p n : positive) :
  Z.pos (Pos.iter xO p n) = Z.pos p * 2 ^ Z.pos n.
Proof.
  induction n as [| n IH] using Pos.peano_ind.
  - cbn [Pos.iter]. lia.
  - rewrite Pos.iter_succ, Pos2Z.inj_succ, Z.pow_succ_r by lia.
    rewrite Pos2Z.inj_xO, IH. ring.
Qed.

(* a significand of 53 bits is not shifted *)
Lemma shr_fexp_canonical (m e : Z) (l : SpecFloat.location) :
  2 ^ 52 <= m < 2 ^ 53 -> -1074 <= e ->
  SpecFloat.shr_fexp 53 1024 m e l = (SpecFloat.shr_record_of_loc m l, e).
Proof.
  intros Hm He. unfold SpecFloat.shr_fexp.
  assert (Hd : SpecFloat.Zdigits2 m = 53).
  { destruct m as [| p | p]; try lia. cbn [SpecFloat.Zdigits2].
    apply digits2_pos_unique. exact Hm. }
  rewrite Hd. unfold SpecFloat.fexp, SpecFloat.emin.
  replace (Z.max (53 + e - 53) (3 - 1024 - 53) - e) with 0 by lia.
  reflexivity.
Qed.

Lemma loc_of_shr_record_of_loc (m : Z) (l : SpecFloat.location) :
  SpecFloat.loc_of_shr_record (SpecFloat.shr_record_of_loc m l) = l.
Proof. destruct l as [| []]; reflexivity. Qed.

(* rounding a significand of 53 bits that stays below 2^53 *)
Lemma binary_round_aux_canonical (m e : Z) (l : SpecFloat.location) :
  2 ^ 52 <= m -> SpecFloat.round_nearest_even m l < 2 ^ 53 ->
  m <= SpecFloat.round_nearest_even m l ->
  -1074 <= e <= 971 ->
  SpecFloat.binary_round_aux 53 1024 false m e l
  = SpecFloat.S754_finite false
      (Z.to_pos (SpecFloat.round_nearest_even m l)) e.
Proof.
  intros Hm Hr Hle He. unfold SpecFloat.binary_round_aux.
  rewrite shr_fexp_canonical by lia.
  rewrite loc_of_shr_record_of_loc.
  replace (SpecFloat.shr_m (SpecFloat.shr_record_of_loc m l)) with m
    by (destruct l as [| []]; reflexivity).
  rewrite shr_fexp_canonical by lia.
  cbn [SpecFloat.shr_record_of_loc SpecFloat.shr_m].
  destruct (SpecFloat.round_nearest_even m l) as [| q | q] eqn:E; try lia.
  replace (e <=? 1024 - 53) with true by (symmetry; apply Z.leb_le; lia).
  reflexivity.
Qed.

(* the double of an integer below 2^53 is that integer *)
Lemma double_of_size_t_exact (x : Z) :
  1 <= x < 2 ^ 53 ->
  exists (mz : positive) (ez : Z),
    double_of_size_t x = SpecFloat.S754_finite false mz ez /\
    2 ^ 52 <= Z.pos mz < 2 ^ 53 /\ -52 <= ez <= 0 /\
    Z.pos mz = x * 2 ^ (- ez) /\
    2 ^ (ez + 52) <= x < 2 ^ (ez + 53).
Proof.
  intros Hx. destruct x as [| p | p]; try lia.
  unfold double_of_size_t, SpecFloat.binary_normalize, SpecFloat.binary_round.
  pose proof (digits2_pos_bounds p) as Hd.
  set (D := Z.pos (SpecFloat.digits2_pos p)) in *.
  assert (HD : 1 <= D <= 53).
  { split; [unfold D; lia |].
    destruct (Z_lt_le_dec 53 D) as [Hlt |]; [| lia].
    assert (2 ^ 53 <= 2 ^ (D - 1)) by (apply Z.pow_le_mono_r; lia). lia. }
  replace (SpecFloat.fexp 53 1024 (D + 0)) with (D - 53)
    by (unfold SpecFloat.fexp, SpecFloat.emin; lia).
  unfold SpecFloat.shl_align.
  destruct (D - 53 - 0) as [| k | k] eqn:Ek; try lia.
  - assert (ED : D = 53) by lia. rewrite ED in Hd.
    exists p, 0. split.
    + rewrite binary_round_aux_canonical;
        cbn [SpecFloat.round_nearest_even]; try lia. reflexivity.
    + change (2 ^ (- 0)) with 1. change (2 ^ (53 - 1)) with (2 ^ 52) in Hd.
      cbn [Z.add]. lia.
  - assert (Ek' : Z.pos k = 53 - D) by lia.
    pose proof (iter_xO_pow p k) as Hm. rewrite Ek' in Hm.
    assert (Hp : 2 ^ 53 = 2 ^ D * 2 ^ (53 - D)).
    { rewrite <- Z.pow_add_r by lia. f_equal. lia. }
    assert (Hp' : 2 ^ 52 = 2 ^ (D - 1) * 2 ^ (53 - D)).
    { rewrite <- Z.pow_add_r by lia. f_equal. lia. }
    assert (H2 : 0 < 2 ^ (53 - D)) by (apply Z.pow_pos_nonneg; lia).
    exists (Pos.iter xO p k), (D - 53). split.
    + rewrite binary_round_aux_canonical;
        cbn [SpecFloat.round_nearest_even]; try lia; try nia.
      now rewrite Pos2Z.id.
    + replace (- (D - 53)) with (53 - D) by lia.
      replace (D - 53 + 52) with (D - 1) by lia.
      replace (D - 53 + 53) with D by lia.
      repeat split; try lia; try nia.
Qed.

(* the root of a double: the root of the significand, shifted to 105 or
   106 bits, and where the rest of it lies *)
Lemma SFsqrt_finite (mz : positive) (ez : Z) :
  2 ^ 52 <= Z.pos mz < 2 ^ 53 -> -1000 <= ez <= 1000 ->
  let e' := ez / 2 - 26 in
  let m' := Z.pos mz * 2 ^ (ez - 2 * e') in
  let q := Z.sqrt m' in
  SpecFloat.SFsqrt 53 1024 (SpecFloat.S754_finite false mz ez)
  = SpecFloat.binary_round_aux 53 1024 false q e'
      (if m' - q * q =? 0 then SpecFloat.loc_Exact
       else SpecFloat.loc_Inexact
              (if m' - q * q <=? q then Lt else Gt)).
Proof.
  intros Hm He e' m' q.
  unfold SpecFloat.SFsqrt, SpecFloat.SFsqrt_core_binary.
  replace (SpecFloat.Zdigits2 (Z.pos mz)) with 53
    by (symmetry; apply digits2_pos_unique; exact Hm).
  rewrite !Z.div2_div.
  replace (53 + ez + 1) with (ez + 27 * 2) by lia.
  rewrite Z.div_add by lia.
  replace (Z.min (SpecFloat.fexp 53 1024 (ez / 2 + 27)) (ez / 2)) with e'
    by (unfold SpecFloat.fexp, SpecFloat.emin, e';
        pose proof (Z.div_mod ez 2 ltac:(lia));
        pose proof (Z.mod_pos_bound ez 2 ltac:(lia)); lia).
  assert (Hs : ez - 2 * e' = 52 \/ ez - 2 * e' = 53).
  { unfold e'. pose proof (Z.div_mod ez 2 ltac:(lia)).
    pose proof (Z.mod_pos_bound ez 2 ltac:(lia)). lia. }
  assert (Em : (match ez - 2 * e' with
                | Z.pos _ => Z.shiftl (Z.pos mz) (ez - 2 * e')
                | 0 => Z.pos mz
                | Z.neg _ => 0
                end) = m').
  { unfold m'. destruct Hs as [-> | ->]; rewrite Z.shiftl_mul_pow2 by lia;
      reflexivity. }
  rewrite Em.
  assert (Hm' : 0 <= m') by (unfold m'; destruct Hs as [-> | ->]; lia).
  pose proof (Z.sqrtrem_spec m' Hm') as Hspec.
  pose proof (Z.sqrtrem_sqrt m') as Hq.
  destruct (Z.sqrtrem m') as [q0 r0]. cbn [fst] in Hq.
  destruct Hspec as [Hspec _]. fold q in Hq. subst q0.
  replace (m' - q * q) with r0 by lia.
  reflexivity.
Qed.

(* the root of an integer scaled by a power of four *)
Lemma sqrt_scaled (x T : Z) :
  0 <= x -> 0 < T ->
  Z.sqrt x * T <= Z.sqrt (x * (T * T)) < (Z.sqrt x + 1) * T.
Proof.
  intros Hx HT.
  pose proof (Z.sqrt_spec x Hx) as Hn. cbv zeta in Hn.
  pose proof (Z.sqrt_spec (x * (T * T)) ltac:(nia)) as Hq. cbv zeta in Hq.
  pose proof (Z.sqrt_nonneg x). pose proof (Z.sqrt_nonneg (x * (T * T))).
  set (n := Z.sqrt x) in *. set (q := Z.sqrt (x * (T * T))) in *.
  split.
  - destruct (Z_lt_le_dec q (n * T)) as [Hlt |]; [| lia].
    assert ((q + 1) * (q + 1) <= (n * T) * (n * T)) by nia. nia.
  - destruct (Z_lt_le_dec q ((n + 1) * T)) as [| Hge]; [lia |].
    assert (((n + 1) * T) * ((n + 1) * T) <= q * q) by nia. nia.
Qed.

(* one more than the scaled root stays below the next integer while the
   unit of the scale is at least twice that integer *)
Lemma sqrt_scaled_up (x T : Z) :
  0 <= x -> 2 * (Z.sqrt x + 1) <= T ->
  Z.sqrt (x * (T * T)) + 1 < (Z.sqrt x + 1) * T.
Proof.
  intros Hx HT.
  pose proof (Z.sqrt_nonneg x).
  pose proof (sqrt_scaled x T Hx ltac:(lia)) as [Hlo Hhi].
  pose proof (Z.sqrt_spec x Hx) as Hn. cbv zeta in Hn.
  pose proof (Z.sqrt_spec (x * (T * T)) ltac:(nia)) as Hq. cbv zeta in Hq.
  set (n := Z.sqrt x) in *. set (q := Z.sqrt (x * (T * T))) in *.
  destruct (Z_lt_le_dec (q + 1) ((n + 1) * T)) as [| Hge]; [lia |].
  exfalso.
  assert (Eq : q = (n + 1) * T - 1) by lia.
  assert (Hx' : x <= (n + 1) * (n + 1) - 1) by lia.
  assert (H1 : x * (T * T) <= (n + 1) * (n + 1) * (T * T) - T * T) by nia.
  assert (H2 : q * q = (n + 1) * (n + 1) * (T * T) - 2 * (n + 1) * T + 1)
    by (rewrite Eq; ring).
  assert (H3 : T * T <= 2 * (n + 1) * T - 1) by lia.
  assert (H4 : 2 * (n + 1) * T <= T * T) by nia.
  lia.
Qed.

(** Below 2^52 the root taken in double is the integer root. *)
Lemma sqrt_size_t_small (x : Z) :
  0 <= x < 2 ^ 52 -> sqrt_size_t x = Some (Z.sqrt x).
Proof.
  intros Hx.
  destruct (Z.eq_dec x 0) as [-> | Hx0]; [reflexivity |].
  destruct (double_of_size_t_exact x ltac:(lia))
    as (mz & ez & E & Hmz & Hez & Hval & Hbin).
  assert (Hneg : ez <= -1).
  { destruct (Z_lt_le_dec ez 0) as [| Hge]; [lia |].
    assert (2 ^ 52 <= 2 ^ (ez + 52)) by (apply Z.pow_le_mono_r; lia). lia. }
  unfold sqrt_size_t. rewrite E, SFsqrt_finite by lia. cbv zeta.
  pose proof (Z.div_mod ez 2 ltac:(lia)) as Hdm.
  pose proof (Z.mod_pos_bound ez 2 ltac:(lia)) as Hmod.
  set (e' := ez / 2 - 26) in *.
  set (t := - e').
  assert (Ht : 27 <= t <= 52) by (unfold t, e'; lia).
  set (T := 2 ^ t).
  assert (HT : 2 ^ 27 <= T) by (apply Z.pow_le_mono_r; lia).
  assert (Em : Z.pos mz * 2 ^ (ez - 2 * e') = x * (T * T)).
  { rewrite Hval, <- Z.mul_assoc, <- Z.pow_add_r by lia.
    unfold T. rewrite <- Z.pow_add_r by lia. do 2 f_equal. lia. }
  assert (Hs : ez - 2 * e' = 52 \/ ez - 2 * e' = 53) by (unfold e'; lia).
  assert (Hm' : 2 ^ 52 * 2 ^ 52 <= Z.pos mz * 2 ^ (ez - 2 * e')
                < 2 ^ 53 * 2 ^ 53).
  { destruct Hs as [-> | ->]; lia. }
  rewrite Em in *.
  set (m' := x * (T * T)) in *.
  pose proof (Z.sqrt_nonneg x) as Hn0.
  pose proof (Z.sqrt_spec x ltac:(lia)) as Hn. cbv zeta in Hn.
  set (n := Z.sqrt x) in *.
  assert (Hn26 : n + 1 <= 2 ^ 26).
  { destruct (Z_lt_le_dec n (2 ^ 26)) as [| Hge]; [lia |].
    assert (2 ^ 26 * 2 ^ 26 <= n * n) by nia. lia. }
  assert (Hn1 : 1 <= n).
  { destruct (Z_lt_le_dec 0 n) as [| Hle]; [lia |].
    assert (n = 0) by lia. lia. }
  pose proof (sqrt_scaled x T ltac:(lia) ltac:(lia)) as [Hlo Hhi].
  pose proof (sqrt_scaled_up x T ltac:(lia) ltac:(lia)) as Hup.
  fold m' n in Hlo, Hhi, Hup.
  pose proof (Z.sqrt_spec m' ltac:(lia)) as Hq. cbv zeta in Hq.
  set (q := Z.sqrt m') in *.
  assert (Hq52 : 2 ^ 52 <= q < 2 ^ 53).
  { split.
    - destruct (Z_lt_le_dec q (2 ^ 52)) as [Hlt |]; [| lia].
      assert ((q + 1) * (q + 1) <= 2 ^ 52 * 2 ^ 52) by nia. lia.
    - destruct (Z_lt_le_dec q (2 ^ 53)) as [| Hge]; [lia |].
      assert (2 ^ 53 * 2 ^ 53 <= q * q) by nia. lia. }
  set (l := if m' - q * q =? 0 then SpecFloat.loc_Exact
            else SpecFloat.loc_Inexact
                   (if m' - q * q <=? q then Lt else Gt)).
  assert (Hr : q <= SpecFloat.round_nearest_even q l <= q + 1).
  { unfold SpecFloat.round_nearest_even.
    destruct l as [| []]; try lia. destruct (Z.even q); lia. }
  set (q' := SpecFloat.round_nearest_even q l) in *.
  assert (H53 : 2 ^ 53 = 2 ^ (53 - t) * T).
  { unfold T. rewrite <- Z.pow_add_r by lia. f_equal. lia. }
  assert (Hq' : q' < 2 ^ 53).
  { destruct (Z_lt_le_dec q' (2 ^ 53)) as [| Hge]; [lia |].
    assert (Eq : q + 1 = 2 ^ (53 - t) * T) by lia.
    set (K := 2 ^ (53 - t)) in *.
    assert (n < K) by nia. assert (K < n + 1) by nia. lia. }
  rewrite binary_round_aux_canonical by (fold q'; unfold e'; lia).
  fold q'. unfold size_t_of_double.
  rewrite Z2Pos.id by lia.
  rewrite Z.shiftl_div_pow2 by (unfold e'; lia).
  fold t. fold T.
  assert (Ediv : q' / T = n).
  { symmetry. apply (Z.div_unique q' T n (q' - n * T)); lia. }
  rewrite Ediv.
  replace (n =? 0) with false by (symmetry; apply Z.eqb_neq; lia).
  replace (n <? SIZE_MAX1) with true; [reflexivity |].
  symmetry. apply Z.ltb_lt. change SIZE_MAX1 with (2 ^ 64). lia.
Qed.

(** ** Shifting a significand to the right *)

Lemma iter_pos_swap {A : Type} (f : A -> A) (n : positive) :
  forall x, f (SpecFloat.iter_pos f n x) = SpecFloat.iter_pos f n (f x).
Proof.
  induction n as [n IH | n IH |]; intros x; cbn [SpecFloat.iter_pos].
  - now rewrite !IH.
  - now rewrite !IH.
  - reflexivity.
Qed.

Lemma iter_pos_succ {A : Type} (f : A -> A) (n : positive) :
  forall x, SpecFloat.iter_pos f (Pos.succ n) x
            = f (SpecFloat.iter_pos f n x).
Proof.
  induction n as [n IH | n IH |]; intros x;
    cbn [Pos.succ SpecFloat.iter_pos].
  - rewrite !IH. now rewrite !iter_pos_swap.
  - now rewrite !iter_pos_swap.
  - reflexivity.
Qed.

(* what is left of [m] below the bits that a record keeps after [j]
   shifts, and the two bits that tell where it lies *)
#[local] Abbreviation shifted m j mrs :=
  (exists R,
    m = SpecFloat.shr_m mrs * 2 ^ j + R /\ 0 <= R < 2 ^ j /\
    0 <= SpecFloat.shr_m mrs /\
    (SpecFloat.shr_r mrs = true <-> 2 ^ j <= 2 * R) /\
    (SpecFloat.shr_s mrs = true <-> R <> 0 /\ 2 * R <> 2 ^ j)).

Lemma shr_1_shifted (m j : Z) (mrs : SpecFloat.shr_record) :
  0 <= j -> shifted m j mrs -> shifted m (j + 1) (SpecFloat.shr_1 mrs).
Proof.
  intros Hj (R & Hm & HR & Hm0 & Hr & Hs).
  destruct mrs as [mj r s]. cbn [SpecFloat.shr_m SpecFloat.shr_r
                                 SpecFloat.shr_s] in *.
  assert (Hp : 2 ^ (j + 1) = 2 * 2 ^ j) by (rewrite Z.pow_add_r by lia; lia).
  assert (Hp0 : 0 < 2 ^ j) by (apply Z.pow_pos_nonneg; lia).
  assert (Hrs : r || s = true <-> R <> 0).
  { rewrite orb_true_iff, Hr, Hs. lia. }
  destruct mj as [| [p | p |] | p]; try lia; cbn [SpecFloat.shr_1];
    [exists R | exists (2 ^ j + R) | exists R | exists (2 ^ j + R)];
    cbn [SpecFloat.shr_m SpecFloat.shr_r SpecFloat.shr_s];
    rewrite Hp; repeat split; intros; try lia; try discriminate;
    try (apply Hrs; lia); try (apply Hrs in H; lia).
Qed.

Lemma iter_shr_1_shifted (m : Z) (k : positive) :
  0 <= m ->
  shifted m (Z.pos k)
    (SpecFloat.iter_pos SpecFloat.shr_1 k
       (SpecFloat.Build_shr_record m false false)).
Proof.
  intros Hm. induction k as [| k IH] using Pos.peano_ind.
  - cbn [SpecFloat.iter_pos].
    apply (shr_1_shifted m 0); [lia |].
    exists 0. cbn [SpecFloat.shr_m SpecFloat.shr_r SpecFloat.shr_s].
    change (2 ^ 0) with 1. repeat split; intros; try lia; discriminate.
  - rewrite iter_pos_succ, Pos2Z.inj_succ.
    apply (shr_1_shifted m (Z.pos k)); [lia | exact IH].
Qed.

(* rounding to the nearest, a tie to the even one, after [j] shifts *)
Lemma round_shifted (m j : Z) (mrs : SpecFloat.shr_record) :
  0 <= j -> shifted m j mrs ->
  let m' := SpecFloat.round_nearest_even (SpecFloat.shr_m mrs)
              (SpecFloat.loc_of_shr_record mrs) in
  SpecFloat.shr_m mrs <= m' <= SpecFloat.shr_m mrs + 1 /\
  - 2 ^ j <= 2 * (m' * 2 ^ j - m) <= 2 ^ j.
Proof.
  intros Hj (R & Hm & HR & Hm0 & Hr & Hs). cbv zeta.
  destruct mrs as [mj r s]. cbn [SpecFloat.shr_m SpecFloat.shr_r
                                 SpecFloat.shr_s] in *.
  assert (Hp0 : 0 < 2 ^ j) by (apply Z.pow_pos_nonneg; lia).
  destruct r, s; cbn [SpecFloat.loc_of_shr_record
                      SpecFloat.round_nearest_even].
  - pose proof (proj1 Hr eq_refl). lia.
  - pose proof (proj1 Hr eq_refl).
    assert (~ (R <> 0 /\ 2 * R <> 2 ^ j)) by (rewrite <- Hs; discriminate).
    destruct (Z.even mj); lia.
  - assert (~ 2 ^ j <= 2 * R) by (rewrite <- Hr; discriminate). lia.
  - assert (~ 2 ^ j <= 2 * R) by (rewrite <- Hr; discriminate).
    assert (~ (R <> 0 /\ 2 * R <> 2 ^ j)) by (rewrite <- Hs; discriminate).
    lia.
Qed.

(* the double of an integer from 2^53 on: a multiple of 2^ez half a unit
   away at most *)
Lemma double_of_size_t_rounded (x : Z) :
  2 ^ 53 <= x < 2 ^ 64 ->
  exists (mz : positive) (ez : Z),
    double_of_size_t x = SpecFloat.S754_finite false mz ez /\
    2 ^ 52 <= Z.pos mz < 2 ^ 53 /\ 1 <= ez <= 12 /\
    - 2 ^ ez <= 2 * (Z.pos mz * 2 ^ ez - x) <= 2 ^ ez.
Proof.
  intros Hx. destruct x as [| p | p]; try lia.
  unfold double_of_size_t, SpecFloat.binary_normalize, SpecFloat.binary_round.
  pose proof (digits2_pos_bounds p) as Hd.
  set (D := Z.pos (SpecFloat.digits2_pos p)) in *.
  assert (HD : 54 <= D <= 64).
  { split.
    - destruct (Z_lt_le_dec D 54) as [Hlt |]; [| lia].
      assert (2 ^ D <= 2 ^ 53) by (apply Z.pow_le_mono_r; lia). lia.
    - destruct (Z_lt_le_dec 64 D) as [Hlt |]; [| lia].
      assert (2 ^ 64 <= 2 ^ (D - 1)) by (apply Z.pow_le_mono_r; lia). lia. }
  replace (SpecFloat.fexp 53 1024 (D + 0)) with (D - 53)
    by (unfold SpecFloat.fexp, SpecFloat.emin; lia).
  unfold SpecFloat.shl_align.
  destruct (D - 53 - 0) as [| k | k] eqn:Ek; try lia.
  unfold SpecFloat.binary_round_aux.
  assert (E1 : SpecFloat.shr_fexp 53 1024 (Z.pos p) 0 SpecFloat.loc_Exact
               = (SpecFloat.iter_pos SpecFloat.shr_1 k
                    (SpecFloat.Build_shr_record (Z.pos p) false false),
                  Z.pos k)).
  { unfold SpecFloat.shr_fexp. cbn [SpecFloat.Zdigits2]. fold D.
    replace (SpecFloat.fexp 53 1024 (D + 0) - 0) with (Z.pos k)
      by (unfold SpecFloat.fexp, SpecFloat.emin; lia).
    reflexivity. }
  rewrite E1. clear E1.
  pose proof (iter_shr_1_shifted (Z.pos p) k ltac:(lia)) as Hsh.
  pose proof (round_shifted (Z.pos p) (Z.pos k) _ ltac:(lia) Hsh) as Hrd.
  cbv zeta in Hrd.
  set (mrs := SpecFloat.iter_pos SpecFloat.shr_1 k
                (SpecFloat.Build_shr_record (Z.pos p) false false)) in *.
  destruct Hsh as (R & Hm & HR & Hm0 & _).
  set (m1 := SpecFloat.shr_m mrs) in *.
  set (m2 := SpecFloat.round_nearest_even m1
               (SpecFloat.loc_of_shr_record mrs)) in *.
  assert (Ek' : Z.pos k = D - 53) by lia.
  assert (Hpk : 0 < 2 ^ Z.pos k) by (apply Z.pow_pos_nonneg; lia).
  assert (Hp1 : 2 ^ (D - 1) = 2 ^ 52 * 2 ^ Z.pos k).
  { rewrite <- Z.pow_add_r by lia. f_equal. lia. }
  assert (Hp2 : 2 ^ D = 2 ^ 53 * 2 ^ Z.pos k).
  { rewrite <- Z.pow_add_r by lia. f_equal. lia. }
  assert (Hm1 : 2 ^ 52 <= m1 < 2 ^ 53) by nia.
  destruct (Z_lt_le_dec m2 (2 ^ 53)) as [Hlt | Hge].
  - rewrite shr_fexp_canonical by lia.
    cbn [SpecFloat.shr_record_of_loc SpecFloat.shr_m].
    destruct m2 as [| q | q] eqn:E2; try lia.
    replace (Z.pos k <=? 1024 - 53) with true
      by (symmetry; apply Z.leb_le; lia).
    exists q, (Z.pos k). split; [reflexivity |]. lia.
  - assert (E2 : m2 = 2 ^ 53) by lia. rewrite E2 in *.
    assert (E3 : SpecFloat.shr_fexp 53 1024 (2 ^ 53) (Z.pos k)
                   SpecFloat.loc_Exact
                 = (SpecFloat.Build_shr_record (Z.pos 4503599627370496)
                      false false, Z.pos k + 1)).
    { unfold SpecFloat.shr_fexp.
      change (SpecFloat.Zdigits2 (2 ^ 53)) with 54.
      replace (SpecFloat.fexp 53 1024 (54 + Z.pos k) - Z.pos k) with 1
        by (unfold SpecFloat.fexp, SpecFloat.emin; lia).
      reflexivity. }
    rewrite E3. cbn [SpecFloat.shr_m].
    replace (Z.pos k + 1 <=? 1024 - 53) with true
      by (symmetry; apply Z.leb_le; lia).
    exists 4503599627370496%positive, (Z.pos k + 1).
    split; [reflexivity |].
    rewrite (Z.pow_add_r 2 (Z.pos k) 1) by lia.
    change (Z.pos 4503599627370496) with (2 ^ 52).
    change (2 ^ 1) with 2. change (2 ^ 53) with (2 ^ 52 * 2) in Hrd.
    lia.
Qed.

(* the root of a double of 53 bits, cut to an integer *)
Lemma sqrt_finite_size_t (mz : positive) (ez : Z) :
  2 ^ 52 <= Z.pos mz < 2 ^ 53 -> -52 <= ez <= 12 ->
  let t := 26 - ez / 2 in
  let m' := Z.pos mz * 2 ^ (ez + 2 * t) in
  let q := Z.sqrt m' in
  size_t_of_double
    (SpecFloat.SFsqrt 53 1024 (SpecFloat.S754_finite false mz ez))
  = Some ((if m' - q * q <=? q then q else q + 1) / 2 ^ t).
Proof.
  intros Hmz Hez t m' q.
  rewrite SFsqrt_finite by lia. cbv zeta.
  pose proof (Z.div_mod ez 2 ltac:(lia)) as Hdm.
  pose proof (Z.mod_pos_bound ez 2 ltac:(lia)) as Hmod.
  replace (ez / 2 - 26) with (- t) by (unfold t; lia).
  replace (ez - 2 * - t) with (ez + 2 * t) by lia.
  fold m'. fold q.
  assert (Ht : 20 <= t <= 52) by (unfold t; lia).
  assert (Hs : ez + 2 * t = 52 \/ ez + 2 * t = 53) by (unfold t; lia).
  assert (Hm' : 2 ^ 52 * 2 ^ 52 <= m' <= 2 ^ 106 - 2 ^ 53).
  { unfold m'. destruct Hs as [-> | ->]; lia. }
  pose proof (Z.sqrt_spec m' ltac:(lia)) as Hq. cbv zeta in Hq. fold q in Hq.
  assert (Hq52 : 2 ^ 52 <= q < 2 ^ 53).
  { split.
    - destruct (Z_lt_le_dec q (2 ^ 52)) as [Hlt |]; [| lia].
      assert ((q + 1) * (q + 1) <= 2 ^ 52 * 2 ^ 52) by nia. lia.
    - destruct (Z_lt_le_dec q (2 ^ 53)) as [| Hge]; [lia |].
      assert (2 ^ 53 * 2 ^ 53 <= q * q) by nia. lia. }
  set (q' := if m' - q * q <=? q then q else q + 1).
  set (l := if m' - q * q =? 0 then SpecFloat.loc_Exact
            else SpecFloat.loc_Inexact
                   (if m' - q * q <=? q then Lt else Gt)).
  assert (Hrn : SpecFloat.round_nearest_even q l = q').
  { unfold l, q'. destruct (Z.eqb_spec (m' - q * q) 0) as [E0 | Hne].
    - rewrite E0. replace (0 <=? q) with true
        by (symmetry; apply Z.leb_le; lia). reflexivity.
    - destruct (m' - q * q <=? q); reflexivity. }
  assert (Hq' : q <= q' < 2 ^ 53).
  { unfold q'. destruct (Z.leb_spec (m' - q * q) q) as [Hle | Hgt]; [lia |].
    split; [lia |].
    destruct (Z_lt_le_dec (q + 1) (2 ^ 53)) as [| Hge]; [lia |].
    assert (Eq : q = 2 ^ 53 - 1) by lia.
    assert (q * q + q = 2 ^ 106 - 2 ^ 53) by (rewrite Eq; reflexivity).
    lia. }
  rewrite binary_round_aux_canonical by (rewrite ?Hrn; lia).
  rewrite Hrn. unfold size_t_of_double.
  rewrite Z2Pos.id by lia.
  rewrite Z.shiftl_div_pow2 by lia.
  rewrite Z.opp_involutive.
  assert (HT : 2 ^ 20 <= 2 ^ t <= 2 ^ 52)
    by (split; apply Z.pow_le_mono_r; lia).
  assert (Hlo : 1 <= q' / 2 ^ t)
    by (apply Z.div_le_lower_bound; lia).
  assert (Hhi : q' / 2 ^ t < 2 ^ 33).
  { apply Z.div_lt_upper_bound; [lia |].
    change (2 ^ 53) with (2 ^ 20 * 2 ^ 33) in Hq'. nia. }
  replace (q' / 2 ^ t =? 0) with false by (symmetry; apply Z.eqb_neq; lia).
  replace (q' / 2 ^ t <? SIZE_MAX1) with true; [reflexivity |].
  symmetry. apply Z.ltb_lt. rewrite SIZE_MAX1_eq. lia.
Qed.

(* the root of [d], an integer close to [x], rounded to the nearest
   multiple of [1 / T] and cut: the integer root of [x], or one more when
   [x] is that close below a square *)
Lemma root_bounds (x d T E : Z) :
  0 <= x -> 0 <= d -> 2 <= T -> 0 <= E ->
  - E <= 2 * (d - x) <= E -> E * T < 2 * (Z.sqrt d + 1) ->
  let q := Z.sqrt (d * (T * T)) in
  let b := (if d * (T * T) - q * q <=? q then q else q + 1) / T in
  (b - 1) * b <= x < (b + 1) * (b + 1).
Proof.
  intros Hx Hd HT HE Hclose Hsmall q b.
  pose proof (Z.sqrt_nonneg d) as Hn0.
  pose proof (Z.sqrt_spec d Hd) as Hn. cbv zeta in Hn.
  pose proof (sqrt_scaled d T Hd ltac:(lia)) as [Hlo Hhi].
  pose proof (Z.sqrt_spec (d * (T * T)) ltac:(nia)) as Hq. cbv zeta in Hq.
  fold q in Hlo, Hhi, Hq.
  set (n := Z.sqrt d) in *.
  set (Q := (n + 1) * T) in *.
  assert (HQ2 : Q * Q = (n + 1) * (n + 1) * (T * T)) by (unfold Q; ring).
  assert (HEn : E <= n) by nia.
  assert (HET : E * (T * T) <= 2 * Q - T).
  { assert (E * T <= 2 * n + 1) by lia. unfold Q. nia. }
  set (q' := if d * (T * T) - q * q <=? q then q else q + 1) in *.
  assert (Hq' : n * T <= q' <= Q).
  { unfold q'. destruct (d * (T * T) - q * q <=? q); lia. }
  destruct (Z_lt_le_dec q' Q) as [Hlt | Hge].
  - (* the root is not rounded up to the next integer *)
    assert (Eb : b = n).
    { unfold b. symmetry.
      apply (Z.div_unique q' T n (q' - n * T)); unfold Q in *; lia. }
    rewrite Eb. split; [nia |].
    destruct (Z_lt_le_dec x ((n + 1) * (n + 1))) as [| Hxge]; [lia |].
    exfalso.
    assert (H1 : 2 * (d * (T * T)) >= 2 * (Q * Q) - E * (T * T)) by nia.
    assert (H2 : (Q - 1) * (Q - 1) <= d * (T * T)) by nia.
    assert (H3 : Q - 1 <= q).
    { destruct (Z_lt_le_dec q (Q - 1)) as [Hq1 |]; [| lia].
      assert ((q + 1) * (q + 1) <= (Q - 1) * (Q - 1)) by nia. lia. }
    assert (Eq : q = Q - 1) by lia.
    assert (H4 : d * (T * T) - q * q > q) by (rewrite Eq; nia).
    unfold q' in Hlt.
    destruct (Z.leb_spec (d * (T * T) - q * q) q); lia.
  - (* the root is rounded up to the next integer *)
    assert (Eq' : q' = Q) by lia.
    assert (Eb : b = n + 1).
    { unfold b. fold q'. rewrite Eq'. unfold Q. apply Z.div_mul. lia. }
    rewrite Eb.
    replace (n + 1 - 1) with n by lia.
    split; [| nia].
    unfold q' in Eq'.
    destruct (Z.leb_spec (d * (T * T) - q * q) q) as [Hle | Hgt]; [lia |].
    assert (Eq : q = Q - 1) by lia.
    assert (H1 : d * (T * T) >= Q * Q - Q + 1) by (rewrite Eq in Hgt; nia).
    assert (H2 : 2 * (d * (T * T)) > (2 * ((n + 1) * (n + 1)) - (n + 1))
                                      * (T * T)).
    { assert (2 * Q <= (n + 1) * (T * T)) by (unfold Q; nia). nia. }
    assert (H3 : 2 * d > 2 * ((n + 1) * (n + 1)) - (n + 1)) by nia.
    nia.
Qed.

(** The root taken in double is the integer root, or one more when the
    number is close below a square. *)
Lemma sqrt_size_t_spec (x : Z) :
  0 <= x < 2 ^ 64 ->
  exists b, sqrt_size_t x = Some b /\ (b - 1) * b <= x < (b + 1) * (b + 1).
Proof.
  intros Hx.
  destruct (Z.eq_dec x 0) as [-> | Hx0].
  { exists 0. split; [reflexivity | lia]. }
  destruct (Z_lt_le_dec x (2 ^ 53)) as [Hlt | Hge].
  - destruct (double_of_size_t_exact x ltac:(lia))
      as (mz & ez & E & Hmz & Hez & Hval & _).
    unfold sqrt_size_t. rewrite E, sqrt_finite_size_t by lia. cbv zeta.
    pose proof (Z.div_mod ez 2 ltac:(lia)) as Hdm.
    pose proof (Z.mod_pos_bound ez 2 ltac:(lia)) as Hmod.
    set (t := 26 - ez / 2).
    assert (Ht : 26 <= t <= 52) by (unfold t; lia).
    assert (Em : Z.pos mz * 2 ^ (ez + 2 * t) = x * (2 ^ t * 2 ^ t)).
    { rewrite Hval, <- Z.mul_assoc, <- !Z.pow_add_r by lia.
      do 2 f_equal. lia. }
    rewrite Em.
    assert (HT : 2 ^ 26 <= 2 ^ t) by (apply Z.pow_le_mono_r; lia).
    eexists. split; [reflexivity |].
    apply (root_bounds x x (2 ^ t) 0); try lia.
    pose proof (Z.sqrt_nonneg x). lia.
  - destruct (double_of_size_t_rounded x ltac:(lia))
      as (mz & ez & E & Hmz & Hez & Hclose).
    unfold sqrt_size_t. rewrite E, sqrt_finite_size_t by lia. cbv zeta.
    pose proof (Z.div_mod ez 2 ltac:(lia)) as Hdm.
    pose proof (Z.mod_pos_bound ez 2 ltac:(lia)) as Hmod.
    set (t := 26 - ez / 2).
    assert (Ht : 20 <= t <= 26) by (unfold t; lia).
    assert (Em : Z.pos mz * 2 ^ (ez + 2 * t)
                 = Z.pos mz * 2 ^ ez * (2 ^ t * 2 ^ t)).
    { rewrite <- !Z.mul_assoc, <- !Z.pow_add_r by lia.
      do 2 f_equal. lia. }
    rewrite Em.
    set (d := Z.pos mz * 2 ^ ez) in *.
    assert (HE : 0 < 2 ^ ez) by (apply Z.pow_pos_nonneg; lia).
    assert (HT : 2 ^ 20 <= 2 ^ t) by (apply Z.pow_le_mono_r; lia).
    eexists. split; [reflexivity |].
    apply (root_bounds x d (2 ^ t) (2 ^ ez)); try lia; try nia.
    pose proof (Z.sqrt_nonneg d) as Hn0.
    pose proof (Z.sqrt_spec d ltac:(nia)) as Hn. cbv zeta in Hn.
    set (n := Z.sqrt d) in *.
    rewrite <- Z.pow_add_r by lia.
    set (U := 2 ^ (ez + t)).
    assert (HU : U * U <= 2 * d).
    { unfold U. rewrite <- Z.pow_add_r by lia.
      assert (2 ^ (ez + t + (ez + t)) <= 2 ^ (ez + 53))
        by (apply Z.pow_le_mono_r; unfold t; lia).
      assert (2 ^ (ez + 53) = 2 * (2 ^ 52 * 2 ^ ez)).
      { rewrite <- Z.pow_add_r by lia.
        rewrite <- Z.pow_succ_r by lia. f_equal. lia. }
      unfold d. nia. }
    destruct (Z_lt_le_dec U (2 * (n + 1))) as [| HUge]; [lia |].
    assert (4 * ((n + 1) * (n + 1)) <= U * U) by nia. nia.
Qed.

(** * Putting the items of an internal buffer back *)

Section Back.
Context {T : Type} (size : Z) (compare : Comparison T).
Hypothesis Horder : total_order compare.
Context (array : list T) (l : list (Range * Range)) (lo0 hi0 : Z).
Hypothesis Hfit : fits size array.
Hypothesis Hside : side_by_side lo0 l hi0.
Hypothesis Hlo0 : 0 <= lo0.
Hypothesis Hhi0 : hi0 <= Z.of_nat (length array).
#[local] Hint Extern 0 (Store (list _) _) =>
  exact (list_store size) : typeclass_instances.

#[local] Abbreviation bounds :=
  (level_bounds size array l lo0 hi0 Hfit Hside Hlo0 Hhi0).

(* the form of a pair is a matter of its items *)
Lemma merged_form_same (arr arr' : list T) (A B : Range) (kl kt : Z) :
  slice arr' (start A) (end_ B) = slice arr (start A) (end_ B) ->
  merged_form compare array arr A B kl kt ->
  merged_form compare array arr' A B kl kt.
Proof. unfold merged_form. intros ->. exact (fun H => H). Qed.

(* a pair with nothing left to put back *)
Lemma merged_form_done (arr : list T) (A B : Range) :
  merged_form compare array arr A B 0 0 ->
  slice arr (start A) (end_ B)
  = merge compare (slice array (start A) (end_ A))
      (slice array (start B) (end_ B)).
Proof.
  intros (XA & M & YB & E & HlX & HlY & _ & _ & _ & Hm).
  destruct XA; [| cbn [length] in HlX; lia].
  destruct YB; [| cbn [length] in HlY; lia].
  rewrite merge_nil_l, merge_nil_r in Hm. rewrite E, app_nil_r. exact Hm.
Qed.

(* one pull *)
Lemma redistribute_step (arr : list T) (p p' : Pull) (rl rt : Z -> Z)
    (fuel : nat) :
  length arr = length array ->
  slot compare array l p rt ->
  pull_range p' = pull_range p -> pull_count p' = pull_count p ->
  (forall z, lead p' z = lead p z /\ trail p' z = trail p z) ->
  (pull_from p = pull_to p -> pull_from p' = pull_to p') ->
  2 * pull_count p < SIZE_MAX1 ->
  (forall A B, In (A, B) l ->
     merged_form compare array arr A B
       (lead p (start A) + rl (start A)) (trail p (start A) + rt (start A))) ->
  (forall z, lead p z <> 0 -> rl z = 0) ->
  (forall z, trail p z <> 0 -> rl z = 0 /\ rt z = 0) ->
  (2 * length array <= fuel)%nat ->
  exists arr',
    redistribute fuel arr size compare [] 0 p' = Done (arr', []) /\
    length arr' = length array /\
    forall A B, In (A, B) l ->
      merged_form compare array arr' A B (rl (start A)) (rt (start A)).
Proof.
  intros Hlen Hslot Hrange Hcount Hsame Hidle' Hsmall Hform Hrl Hrt Hfuel.
  assert (Hfit' : fits size arr) by (apply (fits_length size array); auto).
  fit_bound Hfit' Hbound.
  destruct Hslot as [Hidle | (seen & c & A0 & B0 & left & Hact)].
  - exists arr. unfold redistribute. rewrite (Hidle' Hidle).
    rewrite Z.gtb_ltb, !Z.ltb_irrefl.
    repeat split; auto.
    intros A B Hin. specialize (Hform A B Hin).
    destruct (lead_trail_idle p (start A) Hidle) as [E1 E2].
    now rewrite E1, E2, !Z.add_0_l in Hform.
  - pose proof (fun z => lead_trail_active size compare array l lo0 hi0
                  Hfit Hside Hlo0 Hhi0 _ _ _ _ _ _ _ z Hact) as Hlt.
    destruct (active_count compare array l bounds _ _ _ _ _ _ _ Hact)
      as (Hc & Hcnt & Hst & Hdir).
    pose proof Hact as [Hin0 Hdesc].
    destruct (bounds _ _ Hin0) as (HA0 & HA & HAB & HB & HBe & HBm).
    pose proof (Hform _ _ Hin0) as Hform0.
    destruct (Hlt (start A0)) as [El Et]. rewrite Z.eqb_refl in El, Et.
    cbn [andb] in El, Et.
    destruct (Hsame (start A0)) as [El' Et'].
    rewrite El, Et in Hform0.
    destruct (window_parts arr (start A0) (Z.to_nat (end_ B0 - start A0)))
      as (pre & old & post & Earr & Hpre & Hold & Eold); [lia | lia |].
    replace (start A0 + Z.of_nat (Z.to_nat (end_ B0 - start A0)))
      with (end_ B0) in Eold by lia.
    destruct Hform0 as (XA & M & YB & E & HlX & HlY & HsX & HsM & HsY & Hm).
    rewrite E in Eold. subst old.
    rewrite !length_app in Hold.
    destruct left; cbn [negb] in *.
    + (* the items at the front of the run A0 *)
      destruct Hdesc as ((segs & x & tail & E1 & Hg & Ec & Ef & Eto & Ecn & Er)
                         & _ & _).
      assert (Hk0 : rl (start A0) = 0) by (apply Hrl; lia).
      rewrite Hk0 in HlX. rewrite Z.add_0_r in HlX. rewrite Z.add_0_l in HlY.
      assert (Hfrom' : (pull_from p' >? pull_to p') = true).
      { rewrite El in El'. unfold lead in El'.
        destruct (pull_from p' >? pull_to p'); [reflexivity |].
        rewrite andb_false_r in El'. lia. }
      exists (pre ++ merge compare XA M ++ YB ++ post).
      split.
      { unfold redistribute. rewrite Hfrom', Hrange, Hcount, Er, Hcnt.
        cbn [start end_].
        rewrite mul_small by lia. rewrite add_small by lia.
        rewrite Earr.
        replace (pre ++ (XA ++ M ++ YB) ++ post)
          with (pre ++ XA ++ M ++ YB ++ post)
          by (now rewrite <- !app_assoc).
        apply redistribute_right_spec; auto; cbn [start end_]; try lia.
        - rewrite Earr in Hfit'. now rewrite <- !app_assoc in Hfit'.
        - rewrite Hrange, Er. cbn [end_]. lia. }
      split.
      { rewrite <- Hlen. rewrite Earr. rewrite !length_app, merge_length.
        lia. }
      intros A B Hin.
      destruct (bounds _ _ Hin) as (HA0' & HA' & HAB' & HB' & HBe' & HBm').
      assert (Earr' : pre ++ merge compare XA M ++ YB ++ post
                      = splice arr (start A0) (merge compare XA M ++ YB)).
      { rewrite Earr.
        rewrite (splice_parts pre (XA ++ M ++ YB) post).
        - now rewrite <- !app_assoc.
        - lia.
        - rewrite !length_app, merge_length. lia. }
      assert (Hw : Z.of_nat (length (merge compare XA M ++ YB))
                   = end_ B0 - start A0).
      { rewrite !length_app, merge_length. lia. }
      rewrite Earr'.
      destruct (pairs_apart _ _ _ _ _ _ _ Hside Hin0 Hin)
        as [[<- <-] | Hapart].
      * rewrite Hk0.
        exists [], (merge compare XA M), YB.
        split; [cbn [app]; apply slice_splice; lia |].
        split; [reflexivity |]. split; [exact HlY |].
        split; [constructor |].
        split; [now apply (merge_sorted compare Horder) |].
        split; [exact HsY |].
        now rewrite merge_nil_l.
      * specialize (Hform A B Hin).
        destruct (Hlt (start A)) as [E1' E2'].
        replace (start A =? start A0) with false in E1', E2'
          by (symmetry; apply Z.eqb_neq; lia).
        cbn [andb] in E1', E2'. rewrite E1', E2', !Z.add_0_l in Hform.
        apply (merged_form_same arr); [| exact Hform].
        apply slice_splice_away; try lia. unfold away. lia.
    + (* the items at the back of the run B0 *)
      destruct Hdesc as ((front & y & segs & E1 & Hg & Ec & Ef & Eto & Ecn & Er)
                         & _ & _ & HE).
      destruct (Hrt (start A0)) as [Hk0 Hk1]; [lia |].
      rewrite Hk0 in HlX. rewrite Hk1 in HlY.
      rewrite Z.add_0_l in HlX. rewrite Z.add_0_r in HlY.
      destruct XA; [| cbn [length] in HlX; lia].
      cbn [app length] in *.
      assert (Hfrom' : (pull_from p' >? pull_to p') = false
                       /\ (pull_from p' <? pull_to p') = true).
      { rewrite El in El'. rewrite Et in Et'. unfold lead, trail in El', Et'.
        destruct (pull_from p' <? pull_to p') eqn:E3;
          [| rewrite andb_false_r in Et'; lia].
        split; [| reflexivity].
        rewrite Z.gtb_ltb. apply Z.ltb_ge. apply Z.ltb_lt in E3. lia. }
      destruct Hfrom' as [Hf1 Hf2].
      exists (pre ++ merge compare M YB ++ post).
      split.
      { unfold redistribute. rewrite Hf1, Hf2, Hrange, Hcount, Er, Hcnt.
        cbn [start end_].
        rewrite mul_small by lia. rewrite sub_small by lia.
        rewrite Earr.
        replace (pre ++ (M ++ YB) ++ post) with (pre ++ M ++ YB ++ post)
          by (now rewrite <- !app_assoc).
        apply redistribute_left_spec; auto; cbn [start end_]; try lia.
        - rewrite Earr in Hfit'. now rewrite <- !app_assoc in Hfit'.
        - rewrite Hrange, Er. cbn [start]. lia. }
      split.
      { rewrite <- Hlen. rewrite Earr. rewrite !length_app, merge_length.
        lia. }
      intros A B Hin.
      destruct (bounds _ _ Hin) as (HA0' & HA' & HAB' & HB' & HBe' & HBm').
      assert (Earr' : pre ++ merge compare M YB ++ post
                      = splice arr (start A0) (merge compare M YB)).
      { rewrite Earr.
        rewrite (splice_parts pre (M ++ YB) post).
        - reflexivity.
        - lia.
        - rewrite !length_app, merge_length. lia. }
      assert (Hw : Z.of_nat (length (merge compare M YB))
                   = end_ B0 - start A0).
      { rewrite merge_length. lia. }
      rewrite Earr'.
      destruct (pairs_apart _ _ _ _ _ _ _ Hside Hin0 Hin)
        as [[<- <-] | Hapart].
      * rewrite Hk0, Hk1.
        exists [], (merge compare M YB), [].
        split; [cbn [app]; rewrite app_nil_r; apply slice_splice; lia |].
        split; [reflexivity |]. split; [reflexivity |].
        split; [constructor |].
        split; [now apply (merge_sorted compare Horder) |].
        split; [constructor |].
        rewrite merge_nil_l, merge_nil_r.
        now rewrite merge_nil_l in Hm.
      * specialize (Hform A B Hin).
        destruct (Hlt (start A)) as [E1' E2'].
        replace (start A =? start A0) with false in E1', E2'
          by (symmetry; apply Z.eqb_neq; lia).
        cbn [andb] in E1', E2'. rewrite E1', E2', !Z.add_0_l in Hform.
        apply (merged_form_same arr); [| exact Hform].
        apply slice_splice_away; try lia. unfold away. lia.
Qed.
End Back.

(** * Merging the runs of a level while the internal buffers are out *)

Lemma app_same_length {T : Type} (l1 l2 l1' l2' : list T) :
  l1 ++ l2 = l1' ++ l2' -> length l1 = length l1' -> l1 = l1' /\ l2 = l2'.
Proof.
  revert l1'. induction l1 as [|x l1 IH]; intros [|x' l1'] E Hl;
    try discriminate Hl.
  - now split.
  - cbn [app] in E. injection E as -> E. cbn [length] in Hl.
    destruct (IH l1' E ltac:(lia)) as [-> ->]. now split.
Qed.

(* the two parts of a slice *)
Lemma slice_app_parts {T : Type} (arr : list T) (lo hi : Z) (X Y : list T) :
  0 <= lo <= hi -> hi <= Z.of_nat (length arr) ->
  slice arr lo hi = X ++ Y ->
  slice arr lo (lo + Z.of_nat (length X)) = X /\
  slice arr (lo + Z.of_nat (length X)) hi = Y.
Proof.
  intros Hlo Hhi E.
  pose proof (slice_length arr lo hi Hlo Hhi) as Hl.
  rewrite E, length_app in Hl.
  rewrite (slice_split arr lo (lo + Z.of_nat (length X)) hi) in E
    by lia.
  apply app_same_length in E; [exact E |].
  rewrite slice_length by lia. lia.
Qed.

Lemma StronglySorted_middle {T : Type} (R : T -> T -> Prop)
    (u w v : list T) :
  StronglySorted R (u ++ w ++ v) -> StronglySorted R w.
Proof.
  induction u as [|x u IH]; cbn [app].
  - induction w as [|y w IHw]; cbn [app]; intros H; [constructor |].
    apply StronglySorted_inv in H. destruct H as [H1 H2].
    constructor; [now apply IHw |].
    apply Forall_app in H2. tauto.
  - intros H. apply StronglySorted_inv in H. now apply IH.
Qed.

Section Constant.
Context {T : Type} (compare : Comparison T).
Hypothesis Horder : total_order compare.

(* runs of equal items are in order or in reverse order *)
Lemma constant_not_mixed (a b : list T) :
  constant compare a -> constant compare b -> ~ mixed compare a b.
Proof.
  intros Ha Hb (xa & za & yb & zb & a1 & a2 & b1 & b2 & E1 & E2 & E3 & E4
                & H1 & H2).
  assert (Hxa : In xa a) by (rewrite E1; now left).
  assert (Hza : In za a)
    by (rewrite E2; apply in_or_app; right; now left).
  assert (Hyb : In yb b) by (rewrite E3; now left).
  assert (Hzb : In zb b)
    by (rewrite E4; apply in_or_app; right; now left).
  pose proof (Ha _ _ Hxa Hza) as H3.
  apply (compare_le_ge compare Horder) in H3.
  pose proof (Hb _ _ Hyb Hzb) as H4.
  apply (compare_le_ge compare Horder) in H4.
  pose proof (compare_lt_le compare Horder _ _ _ H2 H3) as H5.
  pose proof (compare_le_lt compare Horder _ _ _ H4 H5) as H6.
  lia.
Qed.
End Constant.

Section Middle.
Context {T : Type} (size : Z) (compare : Comparison T).
Hypothesis Horder : total_order compare.
Context (array : list T) (l : list (Range * Range)) (lo0 hi0 : Z).
Hypothesis Hfit : fits size array.
Hypothesis Hside : side_by_side lo0 l hi0.
Hypothesis Hlo0 : 0 <= lo0.
Hypothesis Hhi0 : hi0 <= Z.of_nat (length array).
Context (s : Buffers) (bs : nat) (b1 b2 : Z) (n1 n2 : nat)
  (array2 : list T).
Hypothesis Hlen2 : length array2 = length array.
Hypothesis Hc0 : 0 <= pull_count (pull0 s).
Hypothesis Hc1 : 0 <= pull_count (pull1 s).
Hypothesis Hform :
  forall A B, In (A, B) l ->
    pulled_form compare array array2 A B
      (lead (pull0 s) (start A) + lead (pull1 s) (start A))
      (trail (pull0 s) (start A) + trail (pull1 s) (start A)).
Hypothesis Hb1 : 0 <= b1.
Hypothesis Hb2 : 0 <= b2.
Hypothesis Hb12 : b1 + Z.of_nat n1 <= b2 \/ b2 + Z.of_nat n2 <= b1.
Hypothesis Hb1e : b1 + Z.of_nat n1 <= Z.of_nat (length array).
Hypothesis Hb2e : b2 + Z.of_nat n2 <= Z.of_nat (length array).
Hypothesis Hw1 :
  (n1 = 0%nat /\ b1 = 0) \/
  exists A B, In (A, B) l /\
    ((start A <= b1 /\ b1 + Z.of_nat n1 <= body_start s A) \/
     (body_end s A B <= b1 /\ b1 + Z.of_nat n1 <= end_ B)).
Hypothesis Hw2 :
  (n2 = 0%nat /\ b2 = 0) \/
  exists A B, In (A, B) l /\
    ((start A <= b2 /\ b2 + Z.of_nat n2 <= body_start s A) \/
     (body_end s A B <= b2 /\ b2 + Z.of_nat n2 <= end_ B)).
Hypothesis Hcover :
  forall A B, In (A, B) l ->
    covered b1 b2 n1 n2 (start A) (body_start s A) /\
    covered b1 b2 n1 n2 (body_end s A B) (end_ B).
Hypothesis Hbuf2 : buffer2 s = Range_new b2 (b2 + Z.of_nat n2).
Hypothesis Hmixed :
  ((forall z, lead (pull0 s) z + lead (pull1 s) z = 0 /\
              trail (pull0 s) z + trail (pull1 s) z = 0) /\
   forall A B, In (A, B) l ->
     constant compare (slice array (start A) (end_ A)) /\
     constant compare (slice array (start B) (end_ B))) \/
  ((1 <= bs)%nat /\ start (buffer1 s) = b1 /\
   (n2 <> 0%nat -> (bs <= n2)%nat) /\
   forall A B, In (A, B) l ->
     (Z.to_nat (end_ A - start A) / bs <= n1)%nat).
#[local] Hint Extern 0 (Store (list _) _) =>
  exact (list_store size) : typeclass_instances.

#[local] Abbreviation bounds :=
  (level_bounds size array l lo0 hi0 Hfit Hside Hlo0 Hhi0).

(* the four parts of a pair *)
Lemma pair_parts (A B : Range) :
  In (A, B) l ->
  exists XA A' B' YB,
    slice array2 (start A) (body_start s A) = XA /\
    slice array2 (body_start s A) (end_ A) = A' /\
    slice array2 (start B) (body_end s A B) = B' /\
    slice array2 (body_end s A B) (end_ B) = YB /\
    start A <= body_start s A <= end_ A /\
    start B <= body_end s A B <= end_ B /\
    sorted_list compare A' /\ sorted_list compare B' /\
    strictly_sorted compare XA /\ strictly_sorted compare YB /\
    merge compare XA A' = slice array (start A) (end_ A) /\
    merge compare B' YB = slice array (start B) (end_ B).
Proof.
  intros Hin.
  destruct (bounds _ _ Hin) as (HA0 & HA & HAB & HB & HBe & HBm).
  destruct (Hform _ _ Hin) as (XA & A' & B' & YB & EA & EB & HlX & HlY & HsA
                               & HsB & HstX & HstY & HmA & HmB).
  pose proof (slice_length array2 (start A) (end_ A)) as HlA.
  rewrite EA, length_app in HlA. specialize (HlA ltac:(lia) ltac:(lia)).
  pose proof (slice_length array2 (start B) (end_ B)) as HlB.
  rewrite EB, length_app in HlB. specialize (HlB ltac:(lia) ltac:(lia)).
  destruct (slice_app_parts array2 (start A) (end_ A) XA A')
    as [E1 E2]; auto; try lia.
  destruct (slice_app_parts array2 (start B) (end_ B) B' YB)
    as [E3 E4]; auto; try lia.
  assert (Er : body_start s A = start A + Z.of_nat (length XA))
    by (unfold body_start; lia).
  assert (Ee : body_end s A B = start B + Z.of_nat (length B'))
    by (unfold body_end; lia).
  exists XA, A', B', YB. rewrite Er, Ee.
  repeat split; auto; lia.
Qed.

(* the internal buffers lie away from what is merged *)
Lemma window_away (b : Z) (n : nat) (A B : Range) :
  (n = 0%nat /\ b = 0) \/
  (exists A0 B0, In (A0, B0) l /\
     ((start A0 <= b /\ b + Z.of_nat n <= body_start s A0) \/
      (body_end s A0 B0 <= b /\ b + Z.of_nat n <= end_ B0))) ->
  In (A, B) l ->
  body_end s A B <= b \/ b + Z.of_nat n <= body_start s A.
Proof.
  intros Hw Hin.
  destruct (bounds _ _ Hin) as (HA0 & HA & HAB & HB & HBe & HBm).
  destruct (pair_parts _ _ Hin)
    as (_ & _ & _ & _ & _ & _ & _ & _ & Hr & He & _).
  destruct Hw as [[-> ->] | (A0 & B0 & Hin0 & Hw)]; [right; lia |].
  destruct (bounds _ _ Hin0) as (HA0' & HA' & HAB' & HB' & HBe' & HBm').
  destruct (pair_parts _ _ Hin0)
    as (_ & _ & _ & _ & _ & _ & _ & _ & Hr0 & He0 & _).
  destruct (pairs_apart _ _ _ _ _ _ _ Hside Hin0 Hin)
    as [[<- <-] | Hapart]; lia.
Qed.

(* the items of an internal buffer all differ *)
Lemma window_strict (b : Z) (n : nat) :
  0 <= b -> b + Z.of_nat n <= Z.of_nat (length array) ->
  (n = 0%nat /\ b = 0) \/
  (exists A0 B0, In (A0, B0) l /\
     ((start A0 <= b /\ b + Z.of_nat n <= body_start s A0) \/
      (body_end s A0 B0 <= b /\ b + Z.of_nat n <= end_ B0))) ->
  strictly_sorted compare (slice array2 b (b + Z.of_nat n)).
Proof.
  intros Hb Hbe [[-> ->] | (A0 & B0 & Hin0 & Hw)].
  - change (0 + Z.of_nat 0) with 0. rewrite slice_empty. constructor.
  - destruct (bounds _ _ Hin0) as (HA0' & HA' & HAB' & HB' & HBe' & HBm').
    destruct (pair_parts _ _ Hin0)
      as (XA & A' & B' & YB & E1 & E2 & E3 & E4 & Hr0 & He0 & _ & _
          & HstX & HstY & _).
    destruct Hw as [[H1 H2] | [H1 H2]].
    + rewrite (slice_split array2 (start A0) b (body_start s A0)) in E1
        by lia.
      rewrite (slice_split array2 b (b + Z.of_nat n) (body_start s A0))
        in E1 by lia.
      rewrite <- E1 in HstX. now apply StronglySorted_middle in HstX.
    + rewrite (slice_split array2 (body_end s A0 B0) b (end_ B0)) in E4
        by lia.
      rewrite (slice_split array2 b (b + Z.of_nat n) (end_ B0))
        in E4 by lia.
      rewrite <- E4 in HstY. now apply StronglySorted_middle in HstY.
Qed.

Lemma pair_ready_all :
  Forall (fun AB => pair_ready compare array2 s bs b1 b2 n1 n2
                      (fst AB) (snd AB)) l.
Proof.
  apply Forall_forall. intros [A B] Hin. cbn [fst snd].
  destruct (bounds _ _ Hin) as (HA0 & HA & HAB & HB & HBe & HBm).
  destruct (pair_parts _ _ Hin)
    as (XA & A' & B' & YB & E1 & E2 & E3 & E4 & Hr & He & HsA & HsB
        & HstX & HstY & HmA & HmB).
  destruct (lead_trail_nonneg (pull0 s) (start A) Hc0) as [Hl0 Ht0].
  destruct (lead_trail_nonneg (pull1 s) (start A) Hc1) as [Hl1 Ht1].
  unfold pair_ready. cbn zeta.
  split; [exact Hl0 |]. split; [exact Hl1 |].
  split; [exact Ht0 |]. split; [exact Ht1 |].
  split; [lia |]. split; [lia |].
  split; [now apply window_away |].
  split; [now apply window_away |].
  rewrite E2, E3.
  split; [exact HsA |]. split; [exact HsB |].
  intros Hmix.
  destruct Hmixed as [[Hzero Hconst] | (Hbs & Hs1 & Hroom & Hdiv)].
  - exfalso.
    destruct (Hzero (start A)) as [Hz1 Hz2].
    assert (Er : body_start s A = start A) by (unfold body_start; lia).
    assert (Ee : body_end s A B = end_ B) by (unfold body_end; lia).
    rewrite Er in *. rewrite Ee in *.
    rewrite slice_empty in E1, E4. subst XA YB.
    rewrite merge_nil_l in HmA. rewrite merge_nil_r in HmB.
    destruct (Hconst _ _ Hin) as [HcA HcB].
    rewrite <- HmA in HcA. rewrite <- HmB in HcB.
    exact (constant_not_mixed compare Horder _ _ HcA HcB Hmix).
  - split; [exact Hbs |]. split; [exact Hs1 |].
    rewrite Hbuf2. unfold Range_length. cbn [start end_].
    fit_bound Hfit Hbound.
    rewrite sub_small by lia.
    split; [reflexivity |]. split; [lia |]. split; [exact Hroom |].
    specialize (Hdiv _ _ Hin).
    etransitivity; [| exact Hdiv].
    apply Nat.Div0.div_le_mono. lia.
Qed.
(* where the items of the internal buffers are, the array is as it was *)
Lemma covered_same (array4 : list T) (lo hi : Z) :
  length array4 = length array ->
  slice array4 b1 (b1 + Z.of_nat n1) = slice array2 b1 (b1 + Z.of_nat n1) ->
  slice array4 b2 (b2 + Z.of_nat n2) = slice array2 b2 (b2 + Z.of_nat n2) ->
  covered b1 b2 n1 n2 lo hi ->
  slice array4 lo hi = slice array2 lo hi.
Proof.
  intros Hl4 H1 H2 [-> | [[-> ->] | [[-> ->] | (-> & E & ->)]]]; auto.
  - now rewrite !slice_empty.
  - rewrite (slice_split array4 b1 (b1 + Z.of_nat n1) (b2 + Z.of_nat n2))
      by lia.
    rewrite (slice_split array2 b1 (b1 + Z.of_nat n1) (b2 + Z.of_nat n2))
      by lia.
    rewrite E in *. now rewrite H1, H2.
Qed.

(* the runs of each pair are merged, and the internal buffers are as they
   were before *)
Lemma level_middle (it it' : WikiIterator) (fuel0 fuel : nat) :
  pairs_from fuel0 it = Some (l, it') ->
  b2 + 1 < SIZE_MAX1 ->
  (length l + 2 * length array <= fuel)%nat ->
  exists array3 array4,
    merge_pairs fuel array2 size compare [] 0 (Z.of_nat bs) s it
    = Done (array3, [], it') /\
    InsertionSort fuel array3 size (buffer2 s) compare = Done array4 /\
    length array4 = length array /\
    forall A B, In (A, B) l ->
      merged_form compare array array4 A B
        (lead (pull0 s) (start A) + lead (pull1 s) (start A))
        (trail (pull0 s) (start A) + trail (pull1 s) (start A)).
Proof.
  intros Hpairs Hb2m Hfuel.
  assert (Hfit2 : fits size array2)
    by (apply (fits_length size array); auto).
  fit_bound Hfit Hbound.
  pose proof (window_strict b1 n1 Hb1 Hb1e Hw1) as Hst1.
  pose proof (window_strict b2 n2 Hb2 Hb2e Hw2) as Hst2.
  destruct (merge_pairs_spec size compare Horder s bs b1 b2 n1 n2 Hb1 Hb2
              Hb12 l fuel0 fuel array2 it it' lo0 hi0)
    as (array3 & Em & Hl3 & Hmerged & HB1 & HB2 & _);
    auto; try lia.
  { apply pair_ready_all. }
  (* the second buffer is put in order again *)
  destruct (window_parts array3 b2 n2) as (pre & old & post & E3 & Hpre
                                           & Hold & Eold); [lia | lia |].
  destruct (InsertionSort_spec size compare Horder pre old post (buffer2 s)
              fuel) as (old' & Ei & Hsorted & Hperm & _).
  { rewrite <- E3. apply (fits_length size array); auto. lia. }
  { rewrite Hbuf2. cbn [start]. lia. }
  { rewrite Hbuf2. cbn [end_]. lia. }
  { lia. }
  { lia. }
  assert (Eold' : old' = slice array2 b2 (b2 + Z.of_nat n2)).
  { apply (sorted_perm_unique compare Horder); auto.
    rewrite <- Eold in HB2.
    apply Permutation_sym. eapply Permutation_trans; [exact HB2 | exact Hperm]. }
  exists array3, (pre ++ old' ++ post).
  split; [exact Em |].
  rewrite <- E3 in Ei. split; [exact Ei |].
  assert (Hlo' : length old' = n2).
  { rewrite <- Hold. symmetry. now apply Permutation_length. }
  assert (E4 : pre ++ old' ++ post = splice array3 b2 old').
  { rewrite E3 at 1. rewrite (splice_parts pre old post); auto; lia. }
  split.
  { rewrite E4, splice_length; lia. }
  assert (H4b2 : slice (pre ++ old' ++ post) b2 (b2 + Z.of_nat n2)
                 = slice array2 b2 (b2 + Z.of_nat n2)).
  { rewrite slice_parts; [exact Eold' | lia | lia]. }
  assert (H4away : forall lo hi,
            0 <= lo <= hi -> hi <= Z.of_nat (length array) ->
            away lo hi b2 n2 ->
            slice (pre ++ old' ++ post) lo hi = slice array3 lo hi).
  { intros lo hi H1 H2 H3. rewrite E4.
    apply slice_splice_away; try lia. now rewrite Hlo'. }
  assert (H4b1 : slice (pre ++ old' ++ post) b1 (b1 + Z.of_nat n1)
                 = slice array2 b1 (b1 + Z.of_nat n1)).
  { rewrite H4away; [exact HB1 | lia | lia |].
    unfold away. lia. }
  set (array4 := pre ++ old' ++ post) in *.
  assert (Hl4 : length array4 = length array).
  { rewrite E4, splice_length; lia. }
  intros A B Hin.
  destruct (bounds _ _ Hin) as (HA0 & HA & HAB & HB & HBe & HBm).
  destruct (pair_parts _ _ Hin)
    as (XA & A' & B' & YB & E1 & E2 & E5 & E6 & Hr & He & HsA & HsB
        & HstX & HstY & HmA & HmB).
  destruct (Hcover _ _ Hin) as [Hcov1 Hcov2].
  pose proof (proj1 (Forall_forall _ _) Hmerged _ Hin) as Hm.
  cbn [fst snd] in Hm. rewrite E2, E5 in Hm.
  pose proof (window_away b2 n2 A B Hw2 Hin) as Haw.
  exists XA, (merge compare A' B'), YB.
  split.
  { rewrite (slice_split array4 (start A) (body_start s A) (end_ B))
      by lia.
    rewrite (slice_split array4 (body_start s A) (body_end s A B) (end_ B))
      by lia.
    rewrite (covered_same array4 _ _ Hl4 H4b1 H4b2 Hcov1).
    rewrite (covered_same array4 _ _ Hl4 H4b1 H4b2 Hcov2).
    rewrite E1, E6.
    rewrite H4away; [now rewrite Hm | lia | lia |].
    unfold away. lia. }
  pose proof (slice_length array2 (start A) (body_start s A)) as HlX.
  rewrite E1 in HlX.
  pose proof (slice_length array2 (body_end s A B) (end_ B)) as HlY.
  rewrite E6 in HlY.
  split; [unfold body_start in *; lia |].
  split; [unfold body_end in *; lia |].
  split; [now apply (strictly_sorted_sorted compare) |].
  split; [now apply (merge_sorted compare Horder) |].
  split; [now apply (strictly_sorted_sorted compare) |].
  rewrite <- HmA, <- HmB.
  rewrite <- (merge_assoc compare Horder XA A' B'); auto;
    [| now apply (strictly_sorted_sorted compare)].
  apply (merge_assoc compare Horder); auto.
  - apply (merge_sorted compare Horder); auto.
    now apply (strictly_sorted_sorted compare).
  - now apply (strictly_sorted_sorted compare).
Qed.
End Middle.

(** * One level of the merge sort *)

(* the size of the buffers of a level whose runs have [L] items or one
   more, for a block size [rt] that is the integer root of [L] or one
   more *)
Lemma level_sizes (L rt : Z) :
  4 <= L -> (rt - 1) * rt <= L < (rt + 1) * (rt + 1) ->
  2 <= rt /\ rt - 1 <= L / rt /\
  L / (L / rt + 1) + 1 <= L / rt + 1 /\
  2 * (L / rt + 1) <= L + 2 /\
  4 * (L / rt + 1) <= L + 20.
Proof.
  intros HL Hrt.
  assert (Hr : 2 <= rt).
  { destruct (Z_lt_le_dec rt 2); [| lia]. nia. }
  assert (Hq : rt - 1 <= L / rt) by (apply Z.div_le_lower_bound; nia).
  split; [exact Hr |]. split; [exact Hq |].
  assert (Hhalf : L / rt <= L / 2).
  { apply Z.div_le_compat_l; lia. }
  split.
  - assert (L / (L / rt + 1) < L / rt + 1); [| lia].
    apply Z.div_lt_upper_bound; [lia |].
    pose proof (Z.div_mod L rt ltac:(lia)).
    pose proof (Z.mod_pos_bound L rt ltac:(lia)).
    nia.
  - pose proof (Z.div_mod L 2 ltac:(lia)).
    pose proof (Z.mod_pos_bound L 2 ltac:(lia)).
    split; [lia |].
    destruct (Z_lt_le_dec rt 4) as [Hlt | Hge].
    + assert (L < 16) by nia. lia.
    + assert (L / rt <= L / 4) by (apply Z.div_le_compat_l; lia).
      pose proof (Z.div_mod L 4 ltac:(lia)).
      pose proof (Z.mod_pos_bound L 4 ltac:(lia)). lia.
Qed.

Section LevelRun.
Context {T : Type} (size : Z) (compare : Comparison T).
Hypothesis Horder : total_order compare.
Context (array : list T) (l : list (Range * Range)) (lo0 hi0 : Z).
Hypothesis Hfit : fits size array.
Hypothesis Hside : side_by_side lo0 l hi0.
Hypothesis Hlo0 : 0 <= lo0.
Hypothesis Hhi0 : hi0 <= Z.of_nat (length array).
Context (L : Z) (it it' : WikiIterator) (fuel0 : nat).
Hypothesis HL : WikiIterator_length it = L.
Hypothesis HL4 : 4 <= L.
Context (rt : Z).
Hypothesis Hroot : sqrt_size_t L = Some rt.
Hypothesis Hnear : (rt - 1) * rt <= L < (rt + 1) * (rt + 1).
Hypothesis Hpairs : pairs_from fuel0 (WikiIterator_begin it) = Some (l, it').
Hypothesis Hruns :
  Forall (fun AB : Range * Range =>
            sorted_list compare (slice array (start (fst AB)) (end_ (fst AB)))
            /\ sorted_list compare
                 (slice array (start (snd AB)) (end_ (snd AB)))) l.
Hypothesis Hlens :
  forall A B, In (A, B) l ->
    L <= end_ A - start A <= L + 1 /\ L <= end_ B - start B <= L + 1.
Hypothesis Hl : l <> [].
#[local] Hint Extern 0 (Store (list _) _) =>
  exact (list_store size) : typeclass_instances.

#[local] Abbreviation bounds :=
  (level_bounds size array l lo0 hi0 Hfit Hside Hlo0 Hhi0).


(* the search state the level starts from *)
#[local] Abbreviation start_state fnd sep :=
  {| buffer1 := Range_new 0 0; buffer2 := Range_new 0 0;
     find := fnd; find_separately := sep; pull_index := 0;
     pull0 := {| pull_from := 0; pull_to := 0; pull_count := 0;
                 pull_range := Range_new 0 0 |};
     pull1 := {| pull_from := 0; pull_to := 0; pull_count := 0;
                 pull_range := Range_new 0 0 |} |}.

Section Tail.
Context (fuel : nat) (fnd : Z) (sep : bool) (s1 : Buffers)
  (it1 : WikiIterator) (b1 b2 : Z) (n1 n2 : nat) (nb : nat).
Hypothesis Hfuel : (length l + 2 * length array <= fuel)%nat.
Hypothesis Hfs :
  (if L / rt + 1 + (L / rt + 1) >? L
   then (L / rt + 1, true)
   else (L / rt + 1 + (L / rt + 1), false)) = (fnd, sep).
Hypothesis Hfind :
  find_buffers fuel array size compare (rt) (L / rt + 1) 0
    (start_state fnd sep) (WikiIterator_begin it) = Done (s1, it1).
Hypothesis Hbegin : WikiIterator_begin it1 = WikiIterator_begin it.
(* the two pulls *)
Hypothesis Hslot0 :
  slot compare array l (pull0 s1) (trail (pull1 s1)).
Hypothesis Hslot1 : slot compare array l (pull1 s1) (fun _ => 0).
Hypothesis Hlead : forall z, lead (pull0 s1) z <> 0 -> lead (pull1 s1) z = 0.
Hypothesis Htrail :
  forall z, trail (pull0 s1) z <> 0 ->
    lead (pull1 s1) z = 0 /\ trail (pull1 s1) z = 0.
Hypothesis Hc0 : 0 <= pull_count (pull0 s1).
Hypothesis Hc1 : 0 <= pull_count (pull1 s1).
Hypothesis Hc0m : 2 * pull_count (pull0 s1) < SIZE_MAX1.
Hypothesis Hc1m : 2 * pull_count (pull1 s1) < SIZE_MAX1.
(* the two buffers *)
Hypothesis Hnb : Range_length (buffer1 s1) = Z.of_nat nb.
Hypothesis Hnb0 : nb <> 0%nat.
Hypothesis Hb1 : 0 <= b1.
Hypothesis Hb2 : 0 <= b2.
Hypothesis Hb12 : b1 + Z.of_nat n1 <= b2 \/ b2 + Z.of_nat n2 <= b1.
Hypothesis Hb1e : b1 + Z.of_nat n1 <= Z.of_nat (length array).
Hypothesis Hb2e : b2 + Z.of_nat n2 <= Z.of_nat (length array).
Hypothesis Hb2m : b2 + 1 < SIZE_MAX1.
Hypothesis Hw1 :
  (n1 = 0%nat /\ b1 = 0) \/
  exists A B, In (A, B) l /\
    ((start A <= b1 /\ b1 + Z.of_nat n1 <= body_start s1 A) \/
     (body_end s1 A B <= b1 /\ b1 + Z.of_nat n1 <= end_ B)).
Hypothesis Hw2 :
  (n2 = 0%nat /\ b2 = 0) \/
  exists A B, In (A, B) l /\
    ((start A <= b2 /\ b2 + Z.of_nat n2 <= body_start s1 A) \/
     (body_end s1 A B <= b2 /\ b2 + Z.of_nat n2 <= end_ B)).
Hypothesis Hcover :
  forall A B, In (A, B) l ->
    covered b1 b2 n1 n2 (start A) (body_start s1 A) /\
    covered b1 b2 n1 n2 (body_end s1 A B) (end_ B).
Hypothesis Hbuf2 : buffer2 s1 = Range_new b2 (b2 + Z.of_nat n2).
Hypothesis Hmixed :
  ((forall z, lead (pull0 s1) z + lead (pull1 s1) z = 0 /\
              trail (pull0 s1) z + trail (pull1 s1) z = 0) /\
   forall A B, In (A, B) l ->
     constant compare (slice array (start A) (end_ A)) /\
     constant compare (slice array (start B) (end_ B))) \/
  (start (buffer1 s1) = b1 /\ nb = n1 /\
   (n2 <> 0%nat -> L / Z.of_nat nb + 1 <= Z.of_nat n2)).

(* the level once the buffers are found *)
Lemma level_tail_spec :
  exists arr',
    merge_in_place fuel array size compare [] 0 it = Done (arr', [], it') /\
    length arr' = length array /\
    forall A B, In (A, B) l ->
      slice arr' (start A) (end_ B)
      = merge compare (slice array (start A) (end_ A))
          (slice array (start B) (end_ B)).
Proof.
  destruct (level_sizes L rt HL4 Hnear) as (Hr & Hq & Hbs & Hbz2 & Hbz4).
  fit_bound Hfit Hbound.
  assert (HLlen : 2 * L <= Z.of_nat (length array)).
  { assert (Hex : exists A B, In (A, B) l).
    { clear - Hl. destruct l as [|[A B] l']; [congruence |].
      exists A, B. now left. }
    destruct Hex as (A & B & Hin).
    destruct (bounds A B Hin) as (? & ? & ? & ? & ? & ?).
    destruct (Hlens A B Hin). lia. }
  unfold merge_in_place. rewrite HL.
  rewrite Hroot. cbn [lift bind].
  replace (rt =? 0) with false by (symmetry; apply Z.eqb_neq; lia).
  replace (L / rt +% 1) with (L / rt + 1) by (unwrap; lia).
  replace (L / rt + 1 +% (L / rt + 1))
    with (L / rt + 1 + (L / rt + 1)) by (unwrap; lia).
  replace (rt <=? 0) with false by (symmetry; apply Z.leb_gt; lia).
  cbv zeta. rewrite Hfs, Hfind. cbn [bind].
  (* the first pull *)
  destruct (pull_out_step size compare Horder array l lo0 hi0 Hfit Hside
              Hlo0 Hhi0 array (pull0 s1) (trail (pull1 s1))
              (fun _ => 0) (fun _ => 0) fuel)
    as (arr1 & p0' & Ep0 & Hl1 & Hr0 & Hcnt0 & Hto0 & Hlt0 & Hidle0 & Hf1);
    auto; try lia.
  { intros A B Hin.
    pose proof (proj1 (Forall_forall _ _) Hruns _ Hin) as [HsA HsB].
    now apply pulled_form_start. }
  rewrite Ep0. cbn [bind].
  (* the second pull *)
  destruct (pull_out_step size compare Horder array l lo0 hi0 Hfit Hside
              Hlo0 Hhi0 arr1 (pull1 s1) (fun _ => 0)
              (fun z => 0 + lead (pull0 s1) z)
              (fun z => 0 + trail (pull0 s1) z) fuel)
    as (arr2 & p1' & Ep1 & Hl2 & Hr1 & Hcnt1 & Hto1 & Hlt1 & Hidle1 & Hf2);
    auto; try lia.
  { intros z Hz. cbv beta.
    destruct (Z.eq_dec (lead (pull0 s1) z) 0) as [E | E]; [lia |].
    specialize (Hlead z E). contradiction. }
  { intros z Hz. cbv beta.
    destruct (Z.eq_dec (trail (pull0 s1) z) 0) as [E | E]; [lia |].
    destruct (Htrail z E) as [_ E']. contradiction. }
  rewrite Ep1. cbn [bind buffer1 buffer2].
  rewrite Hnb.
  replace (Z.of_nat nb =? 0) with false by (symmetry; apply Z.eqb_neq; lia).
  assert (EL1 : WikiIterator_length it1 = L).
  { rewrite <- HL. unfold WikiIterator_length.
    apply (f_equal decimal_step) in Hbegin. exact Hbegin. }
  rewrite EL1, Hbegin.
  assert (Hnbpos : 0 < Z.of_nat nb) by lia.
  assert (Hdiv : 0 <= L / Z.of_nat nb <= L).
  { split; [apply Z.div_pos; lia |].
    apply Z.div_le_upper_bound; nia. }
  set (bs := Z.to_nat (L / Z.of_nat nb + 1)).
  replace (L / Z.of_nat nb +% 1) with (Z.of_nat bs)
    by (subst bs; rewrite Z2Nat.id by lia; unwrap; lia).
  set (s2 := {| buffer1 := buffer1 s1; buffer2 := buffer2 s1;
                find := find s1; find_separately := find_separately s1;
                pull_index := 2; pull0 := p0'; pull1 := p1' |}).
  assert (Elead : forall z,
            lead (pull0 s2) z + lead (pull1 s2) z
            = lead (pull0 s1) z + lead (pull1 s1) z).
  { intros z. cbn [pull0 pull1 s2].
    destruct (Hlt0 z) as [-> _]. destruct (Hlt1 z) as [-> _]. reflexivity. }
  assert (Etrail : forall z,
            trail (pull0 s2) z + trail (pull1 s2) z
            = trail (pull0 s1) z + trail (pull1 s1) z).
  { intros z. cbn [pull0 pull1 s2].
    destruct (Hlt0 z) as [_ ->]. destruct (Hlt1 z) as [_ ->]. reflexivity. }
  assert (Ebody : forall A, body_start s2 A = body_start s1 A).
  { intros A. unfold body_start. specialize (Elead (start A)). lia. }
  assert (Eend : forall A B, body_end s2 A B = body_end s1 A B).
  { intros A B. unfold body_end. specialize (Etrail (start A)). lia. }
  assert (Hmid :
    exists array3 array4,
      merge_pairs fuel arr2 size compare [] 0 (Z.of_nat bs) s2
        (WikiIterator_begin it)
      = Done (array3, [], it') /\
      InsertionSort fuel array3 size (buffer2 s2) compare = Done array4 /\
      length array4 = length array /\
      forall A B, In (A, B) l ->
        merged_form compare array array4 A B
          (lead (pull0 s2) (start A) + lead (pull1 s2) (start A))
          (trail (pull0 s2) (start A) + trail (pull1 s2) (start A))).
  { apply (level_middle size compare Horder array l lo0 hi0 Hfit Hside
             Hlo0 Hhi0 s2 bs b1 b2 n1 n2 arr2) with (fuel0 := fuel0);
      auto; try lia.
    { cbn [pull0 s2]. lia. }
    { cbn [pull1 s2]. lia. }
    { intros A B Hin. rewrite Elead, Etrail.
      specialize (Hf2 A B Hin). cbn [Z.add] in Hf2. exact Hf2. }
    { destruct Hw1 as [H | (A & B & Hin & H)]; [now left | right].
      exists A, B. rewrite Ebody, Eend. now split. }
    { destruct Hw2 as [H | (A & B & Hin & H)]; [now left | right].
      exists A, B. rewrite Ebody, Eend. now split. }
    { intros A B Hin. rewrite Ebody, Eend. now apply Hcover. }
    { destruct Hmixed as [[Hz Hconst] | (Hsb & Hn & Hroom)].
      - left. split; [| exact Hconst].
        intros z. rewrite Elead, Etrail. apply Hz.
      - right. subst n1.
        split; [subst bs; lia |]. split; [exact Hsb |].
        split; [intros Hn2; specialize (Hroom Hn2); subst bs; lia |].
        intros A B Hin. destruct (Hlens A B Hin) as [[HA1 HA2] _].
        apply Nat.Div0.div_le_upper_bound.
        assert (L < (L / Z.of_nat nb + 1) * Z.of_nat nb).
        { pose proof (Z.div_mod L (Z.of_nat nb) ltac:(lia)).
          pose proof (Z.mod_pos_bound L (Z.of_nat nb) ltac:(lia)). nia. }
        subst bs. nia. } }
  destruct Hmid as (array3 & array4 & Em & Ei & Hl4 & Hf4).
  rewrite Em. cbn [bind].
  replace (buffer2 s1) with (buffer2 s2) by reflexivity.
  rewrite Ei. cbn [bind].
  (* the first buffer goes back *)
  destruct (redistribute_step size compare Horder array l lo0 hi0 Hfit
              Hside Hlo0 Hhi0 array4 (pull0 s1) p0'
              (lead (pull1 s1)) (trail (pull1 s1)) fuel)
    as (arr5 & Er5 & Hl5 & Hf5); auto; try lia.
  { intros A B Hin. specialize (Hf4 A B Hin).
    rewrite Elead, Etrail in Hf4. exact Hf4. }
  rewrite Er5. cbn [bind].
  (* the second buffer goes back *)
  destruct (redistribute_step size compare Horder array l lo0 hi0 Hfit
              Hside Hlo0 Hhi0 arr5 (pull1 s1) p1'
              (fun _ => 0) (fun _ => 0) fuel)
    as (arr6 & Er6 & Hl6 & Hf6); auto; try lia.
  { intros A B Hin. specialize (Hf5 A B Hin).
    rewrite !Z.add_0_r. exact Hf5. }
  rewrite Er6. cbn [bind].
  exists arr6. split; [reflexivity |]. split; [exact Hl6 |].
  intros A B Hin. apply merged_form_done. now apply Hf6.
Qed.
End Tail.

Lemma no_pull_idle (z : Z) : lead no_pull z = 0 /\ trail no_pull z = 0.
Proof. now apply lead_trail_idle. Qed.

Section Found.
Context (fuel : nat) (fnd : Z) (sep : bool) (s1 : Buffers)
  (it1 : WikiIterator).
Hypothesis Hfuel : (length l + 2 * length array <= fuel)%nat.
Hypothesis Hfs :
  (if L / rt + 1 + (L / rt + 1) >? L
   then (L / rt + 1, true)
   else (L / rt + 1 + (L / rt + 1), false)) = (fnd, sep).
Hypothesis Hfind :
  find_buffers fuel array size compare (rt) (L / rt + 1) 0
    (start_state fnd sep) (WikiIterator_begin it) = Done (s1, it1).
Hypothesis Hbegin : WikiIterator_begin it1 = WikiIterator_begin it.

(* one pull, whose items make the first buffer, or the two buffers *)
Lemma one_pull_level (seen : list Range) (c : Z) (A0 B0 : Range)
    (left : bool) (b2 : Z) (n1 n2 : nat) :
  pull1 s1 = no_pull ->
  active compare array l seen (pull0 s1) c A0 B0 left (end_ B0) ->
  buffer1 s1
  = Range_new (start (part left A0 B0 c))
      (start (part left A0 B0 c) + Z.of_nat n1) ->
  buffer2 s1 = Range_new b2 (b2 + Z.of_nat n2) ->
  (n2 = 0%nat /\ b2 = 0 /\ Z.of_nat n1 = c) \/
  (n2 <> 0%nat /\ b2 = start (part left A0 B0 c) + Z.of_nat n1 /\
   Z.of_nat n1 + Z.of_nat n2 = c /\ L / Z.of_nat n1 + 1 <= Z.of_nat n2) ->
  n1 <> 0%nat -> 2 * c < SIZE_MAX1 ->
  exists arr',
    merge_in_place fuel array size compare [] 0 it = Done (arr', [], it') /\
    length arr' = length array /\
    forall A B, In (A, B) l ->
      slice arr' (start A) (end_ B)
      = merge compare (slice array (start A) (end_ A))
          (slice array (start B) (end_ B)).
Proof.
  intros Hp1 Hact Hbuf1 Hbuf2 Hshape Hn1 Hcm.
  fit_bound Hfit Hbound.
  pose proof Hact as [Hin0 _].
  destruct (bounds _ _ Hin0) as (HA0 & HA & HAB & HB & HBe & HBm).
  destruct (active_count compare array l bounds _ _ _ _ _ _ _ Hact)
    as (Hc2 & Hcnt & Hst & Hdir).
  pose proof (fun z => lead_trail_active size compare array l lo0 hi0 Hfit
                         Hside Hlo0 Hhi0 _ _ _ _ _ _ _ z Hact) as Hlt.
  assert (Hidle : forall z, lead (pull1 s1) z = 0 /\ trail (pull1 s1) z = 0)
    by (intros z; rewrite Hp1; apply no_pull_idle).
  set (pb := start (part left A0 B0 c)) in *.
  assert (Hpb : pb = if left then start A0 else end_ B0 - c)
    by (subst pb; destruct left; reflexivity).
  assert (Hpbr : 0 <= pb /\ pb + c <= Z.of_nat (length array)).
  { rewrite Hpb. destruct left; lia. }
  assert (Hn12 : Z.of_nat n1 + Z.of_nat n2 = c /\
                 (n2 = 0%nat -> b2 = 0) /\
                 (n2 <> 0%nat -> b2 = pb + Z.of_nat n1 /\
                                 L / Z.of_nat n1 + 1 <= Z.of_nat n2)).
  { destruct Hshape as [(-> & -> & E) | (Hn2 & -> & E & Hroom)].
    - split; [cbn; lia |]. split; [reflexivity | congruence].
    - split; [exact E |]. split; [congruence | now split]. }
  destruct Hn12 as (Hsum & Hb20 & Hb2n).
  apply (level_tail_spec fuel fnd sep s1 it1 pb b2 n1 n2 n1);
    try assumption.
  - (* the first pull *)
    right. exists seen, c, A0, B0, left.
    destruct (Hidle (start A0)) as [_ ->]. now rewrite Z.sub_0_r.
  - left. rewrite Hp1. reflexivity.
  - intros z _. apply Hidle.
  - intros z _. apply Hidle.
  - lia.
  - rewrite Hp1. cbn. lia.
  - lia.
  - rewrite Hp1. cbn [no_pull pull_count]. rewrite SIZE_MAX1_eq. lia.
  - rewrite Hbuf1. unfold Range_length. cbn [start end_]. unwrap. lia.
  - lia.
  - destruct (Nat.eq_dec n2 0) as [E | E].
    + rewrite (Hb20 E). lia.
    + destruct (Hb2n E) as [-> _]. lia.
  - destruct (Nat.eq_dec n2 0) as [E | E].
    + right. rewrite (Hb20 E), E. cbn. lia.
    + left. destruct (Hb2n E) as [-> _]. lia.
  - lia.
  - destruct (Nat.eq_dec n2 0) as [E | E].
    + rewrite (Hb20 E), E. cbn. lia.
    + destruct (Hb2n E) as [-> _]. lia.
  - destruct (Nat.eq_dec n2 0) as [E | E].
    + rewrite (Hb20 E). rewrite SIZE_MAX1_eq. lia.
    + destruct (Hb2n E) as [-> _]. lia.
  - right. exists A0, B0. split; [exact Hin0 |].
    unfold body_start, body_end.
    destruct (Hlt (start A0)) as [El Et].
    destruct (Hidle (start A0)) as [El1 Et1].
    rewrite El, Et, El1, Et1, Z.eqb_refl, Hpb.
    destruct left; cbn [andb negb]; [left | right]; lia.
  - destruct (Nat.eq_dec n2 0) as [E | E]; [left; auto |].
    right. exists A0, B0. split; [exact Hin0 |].
    unfold body_start, body_end.
    destruct (Hlt (start A0)) as [El Et].
    destruct (Hidle (start A0)) as [El1 Et1].
    rewrite El, Et, El1, Et1, Z.eqb_refl.
    destruct (Hb2n E) as [-> _]. rewrite Hpb.
    destruct left; cbn [andb negb]; [left | right]; lia.
  - intros A B Hin.
    destruct (bounds _ _ Hin) as (HA0' & HA' & HAB' & HB' & HBe' & HBm').
    unfold body_start, body_end, covered.
    destruct (Hlt (start A)) as [El Et].
    destruct (Hidle (start A)) as [El1 Et1].
    rewrite El, Et, El1, Et1.
    destruct (Z.eqb_spec (start A) (start A0)) as [Es | Es].
    + destruct (same_start size array l lo0 hi0 Hfit Hside Hlo0 Hhi0
                  A0 B0 A B Hin0 Hin Es) as [<- <-].
      rewrite Hpb.
      destruct (Nat.eq_dec n2 0) as [E | E].
      * rewrite (Hb20 E), E.
        destruct left; cbn [andb negb]; split; lia.
      * destruct (Hb2n E) as [-> _]. rewrite Hpb.
        destruct left; cbn [andb negb]; split; lia.
    + cbn [andb]. split; left; lia.
  - right. rewrite Hbuf1. cbn [start]. split; [reflexivity |].
    split; [reflexivity |]. intros E. now destruct (Hb2n E).
Qed.

(* no run with two values that differ: no buffer is made *)
Lemma constant_level (A0 B0 : Range) :
  In (A0, B0) l ->
  pull1 s1 = no_pull -> buffer2 s1 = Range_new 0 0 ->
  pull0 s1 = {| pull_from := start A0; pull_to := start A0;
                pull_count := 1;
                pull_range := Range_new (start A0) (end_ B0) |} ->
  buffer1 s1 = Range_new (start A0) (start A0 + 1) ->
  (forall A B, In (A, B) l ->
     constant compare (slice array (start A) (end_ A)) /\
     constant compare (slice array (start B) (end_ B))) ->
  exists arr',
    merge_in_place fuel array size compare [] 0 it = Done (arr', [], it') /\
    length arr' = length array /\
    forall A B, In (A, B) l ->
      slice arr' (start A) (end_ B)
      = merge compare (slice array (start A) (end_ A))
          (slice array (start B) (end_ B)).
Proof.
  intros Hin0 Hp1 Hbuf2 Hp0 Hbuf1 Hconst.
  fit_bound Hfit Hbound.
  destruct (bounds _ _ Hin0) as (HA0 & HA & HAB & HB & HBe & HBm).
  assert (Hidle1 : forall z, lead (pull1 s1) z = 0 /\ trail (pull1 s1) z = 0)
    by (intros z; rewrite Hp1; apply no_pull_idle).
  assert (Hidle0 : forall z, lead (pull0 s1) z = 0 /\ trail (pull0 s1) z = 0)
    by (intros z; apply lead_trail_idle; rewrite Hp0; reflexivity).
  apply (level_tail_spec fuel fnd sep s1 it1 0 0 0%nat 0%nat 1%nat);
    try assumption.
  - left. rewrite Hp0. reflexivity.
  - left. rewrite Hp1. reflexivity.
  - intros z _. apply Hidle1.
  - intros z _. apply Hidle1.
  - rewrite Hp0. cbn [pull_count]. lia.
  - rewrite Hp1. cbn [no_pull pull_count]. lia.
  - rewrite Hp0. cbn [pull_count]. rewrite SIZE_MAX1_eq. lia.
  - rewrite Hp1. cbn [no_pull pull_count]. rewrite SIZE_MAX1_eq. lia.
  - rewrite Hbuf1. unfold Range_length. cbn [start end_]. unwrap. lia.
  - discriminate.
  - lia.
  - lia.
  - left. cbn. lia.
  - cbn. lia.
  - cbn. lia.
  - rewrite SIZE_MAX1_eq. lia.
  - left. now split.
  - left. now split.
  - intros A B Hin. unfold body_start, body_end, covered.
    destruct (Hidle0 (start A)) as [-> ->].
    destruct (Hidle1 (start A)) as [-> ->].
    split; left; lia.
  - left. split; [| exact Hconst].
    intros z. destruct (Hidle0 z) as [-> ->].
    destruct (Hidle1 z) as [-> ->]. now split.
Qed.

(* two pulls, one for each buffer *)
Lemma two_pull_level (seen : list Range) (c : Z) (A0 B0 : Range)
    (left0 : bool) (E : Z) (A1 B1 : Range) (left1 : bool) :
  L / rt + 1 <= c < L / rt + 1 + (L / rt + 1) ->
  active compare array l seen (pull0 s1) c A0 B0 left0 E ->
  buffer1 s1 = part left0 A0 B0 c ->
  active compare array l seen (pull1 s1) (L / rt + 1) A1 B1 left1
    (end_ B1) ->
  buffer2 s1 = part left1 A1 B1 (L / rt + 1) ->
  (start A0 < start A1 /\ E = end_ B0) \/
  (A0 = A1 /\ B0 = B1 /\ left0 = true /\ left1 = false /\
   E = end_ B0 - (L / rt + 1)) ->
  exists arr',
    merge_in_place fuel array size compare [] 0 it = Done (arr', [], it') /\
    length arr' = length array /\
    forall A B, In (A, B) l ->
      slice arr' (start A) (end_ B)
      = merge compare (slice array (start A) (end_ A))
          (slice array (start B) (end_ B)).
Proof.
  intros Hc Hact0 Hbuf1 Hact1 Hbuf2 Hrel.
  destruct (level_sizes L rt HL4 Hnear) as (Hr & Hq & Hbs & Hbz2 & Hbz4).
  set (bz := L / rt + 1) in *.
  fit_bound Hfit Hbound.
  assert (HLlen : 2 * L <= Z.of_nat (length array)).
  { assert (Hex : exists A B, In (A, B) l).
    { clear - Hl. destruct l as [|[A B] l']; [congruence |].
      exists A, B. now left. }
    destruct Hex as (A & B & Hin).
    destruct (bounds A B Hin) as (? & ? & ? & ? & ? & ?).
    destruct (Hlens A B Hin). lia. }
  pose proof Hact0 as [Hin0 _]. pose proof Hact1 as [Hin1 _].
  destruct (bounds _ _ Hin0) as (HA0 & HA & HAB & HB & HBe & HBm).
  destruct (bounds _ _ Hin1) as (HA0' & HA' & HAB' & HB' & HBe' & HBm').
  destruct (active_count compare array l bounds _ _ _ _ _ _ _ Hact0)
    as (Hc2 & Hcnt0 & Hst0 & Hdir0).
  destruct (active_count compare array l bounds _ _ _ _ _ _ _ Hact1)
    as (Hc2' & Hcnt1 & Hst1 & Hdir1).
  pose proof (fun z => lead_trail_active size compare array l lo0 hi0 Hfit
                         Hside Hlo0 Hhi0 _ _ _ _ _ _ _ z Hact0) as Hlt0.
  pose proof (fun z => lead_trail_active size compare array l lo0 hi0 Hfit
                         Hside Hlo0 Hhi0 _ _ _ _ _ _ _ z Hact1) as Hlt1.
  set (pb0 := start (part left0 A0 B0 c)) in *.
  set (pb1 := start (part left1 A1 B1 bz)) in *.
  assert (Hpb0 : pb0 = if left0 then start A0 else end_ B0 - c)
    by (subst pb0; destruct left0; reflexivity).
  assert (Hpb1 : pb1 = if left1 then start A1 else end_ B1 - bz)
    by (subst pb1; destruct left1; reflexivity).
  assert (Hapart : (start A0 <> start A1 /\ end_ B0 <= start A1) \/
                   (A0 = A1 /\ B0 = B1 /\ left0 = true /\ left1 = false)).
  { destruct Hrel as [[Hlt _] | (HA1 & HB1 & Hl0 & Hl1 & _)].
    - left. split; [lia |].
      destruct (pairs_apart _ _ _ _ _ _ _ Hside Hin0 Hin1)
        as [[<- <-] | [Hp | Hp]]; lia.
    - right. auto. }
  apply (level_tail_spec fuel fnd sep s1 it1 pb0 pb1 (Z.to_nat c)
           (Z.to_nat bz) (Z.to_nat c)); try assumption.
  - (* the first pull *)
    right. exists seen, c, A0, B0, left0.
    destruct (Hlt1 (start A0)) as [_ ->].
    destruct Hrel as [[Hlt ->] | (<- & <- & -> & -> & ->)].
    + replace (start A0 =? start A1) with false
        by (symmetry; apply Z.eqb_neq; lia).
      cbn [andb]. now rewrite Z.sub_0_r.
    + rewrite Z.eqb_refl. cbn [andb negb]. exact Hact0.
  - right. exists seen, bz, A1, B1, left1. now rewrite Z.sub_0_r.
  - intros z Hz. destruct (Hlt0 z) as [El0 _]. destruct (Hlt1 z) as [-> _].
    rewrite El0 in Hz.
    destruct (Z.eqb_spec z (start A0)) as [Ez | Hne];
      [| cbn [andb] in Hz; congruence].
    rewrite Ez in *.
    destruct left0; [| cbn [andb] in Hz; congruence].
    destruct Hapart as [[Hne _] | (<- & <- & _ & ->)].
    + replace (start A0 =? start A1) with false
        by (symmetry; apply Z.eqb_neq; lia).
      reflexivity.
    + now rewrite andb_false_r.
  - intros z Hz. destruct (Hlt0 z) as [_ Et0].
    destruct (Hlt1 z) as [-> ->]. rewrite Et0 in Hz.
    destruct (Z.eqb_spec z (start A0)) as [Ez | Hne];
      [| cbn [andb] in Hz; congruence].
    rewrite Ez in *.
    destruct left0; [cbn [andb negb] in Hz; congruence |].
    destruct Hapart as [[Hne _] | (_ & _ & Hf & _)]; [| discriminate].
    replace (start A0 =? start A1) with false
      by (symmetry; apply Z.eqb_neq; lia).
    now split.
  - lia.
  - lia.
  - rewrite SIZE_MAX1_eq in *. lia.
  - rewrite SIZE_MAX1_eq in *. lia.
  - rewrite Hbuf1, Z2Nat.id by lia.
    apply (active_part_length compare array bz l ltac:(lia) bounds _ _ _ _ _
             _ _ Hact0).
  - lia.
  - rewrite Hpb0. destruct left0; lia.
  - rewrite Hpb1. destruct left1; lia.
  - rewrite !Z2Nat.id by lia. rewrite Hpb0, Hpb1.
    destruct Hapart as [[Hne Hle] | (<- & <- & -> & ->)].
    + left. destruct left0, left1; lia.
    + left. lia.
  - rewrite Z2Nat.id by lia. rewrite Hpb0. destruct left0; lia.
  - rewrite Z2Nat.id by lia. rewrite Hpb1. destruct left1; lia.
  - rewrite Hpb1. destruct left1; lia.
  - right. exists A0, B0. split; [exact Hin0 |].
    unfold body_start, body_end.
    destruct (Hlt0 (start A0)) as [-> ->].
    destruct (Hlt1 (start A0)) as [-> ->].
    rewrite Z.eqb_refl, Z2Nat.id, Hpb0 by lia.
    destruct Hapart as [[Hne Hle] | (<- & <- & -> & ->)].
    + replace (start A0 =? start A1) with false
        by (symmetry; apply Z.eqb_neq; lia).
      destruct left0; cbn [andb negb]; [left | right]; lia.
    + rewrite Z.eqb_refl. cbn [andb negb]. left. lia.
  - right. exists A1, B1. split; [exact Hin1 |].
    unfold body_start, body_end.
    destruct (Hlt0 (start A1)) as [-> ->].
    destruct (Hlt1 (start A1)) as [-> ->].
    rewrite Z.eqb_refl, Z2Nat.id, Hpb1 by lia.
    destruct Hapart as [[Hne Hle] | (<- & <- & -> & ->)].
    + replace (start A1 =? start A0) with false
        by (symmetry; apply Z.eqb_neq; lia).
      destruct left1; cbn [andb negb]; [left | right]; lia.
    + rewrite Z.eqb_refl. cbn [andb negb]. right. lia.
  - intros A B Hin.
    destruct (bounds _ _ Hin) as (HA0'' & HA'' & HAB'' & HB'' & HBe'' & HBm'').
    unfold body_start, body_end, covered.
    destruct (Hlt0 (start A)) as [-> ->].
    destruct (Hlt1 (start A)) as [-> ->].
    rewrite !Z2Nat.id by lia. rewrite Hpb0, Hpb1.
    destruct (Z.eqb_spec (start A) (start A0)) as [Es0 | Es0];
      destruct (Z.eqb_spec (start A) (start A1)) as [Es1 | Es1];
      try (destruct (same_start size array l lo0 hi0 Hfit Hside Hlo0 Hhi0
                       A0 B0 A B Hin0 Hin Es0) as [<- <-]);
      try (destruct (same_start size array l lo0 hi0 Hfit Hside Hlo0 Hhi0
                       A1 B1 A B Hin1 Hin Es1) as [<- <-]);
      destruct Hapart as [[Hne Hle] | (EA & EB & El0 & El1)];
      try subst A1; try subst B1;
      try (exfalso; lia);
      try (exfalso; congruence);
      destruct left0; destruct left1; try discriminate; cbn [andb negb];
      split; lia.
  - rewrite Hbuf2. subst pb1.
    destruct left1; cbn [part start]; f_equal; rewrite Z2Nat.id; lia.
  - right. rewrite Hbuf1. split; [reflexivity |]. split; [reflexivity |].
    intros _. rewrite !Z2Nat.id by lia.
    assert (L / c <= L / bz) by (apply Z.div_le_compat_l; lia). lia.
Qed.
End Found.

(* one level, for the block size [rt]: the runs of each pair are merged *)
Lemma merge_in_place_root (fuel : nat) :
  (length l + 2 * length array <= fuel)%nat ->
  exists arr',
    merge_in_place fuel array size compare [] 0 it = Done (arr', [], it') /\
    length arr' = length array /\
    forall A B, In (A, B) l ->
      slice arr' (start A) (end_ B)
      = merge compare (slice array (start A) (end_ A))
          (slice array (start B) (end_ B)).
Proof.
  intros Hfuel.
  destruct (level_sizes L rt HL4 Hnear) as (Hr & Hq & Hbs & Hbz2 & Hbz4).
  fit_bound Hfit Hbound.
  assert (Hex : exists A B, In (A, B) l).
  { clear - Hl. destruct l as [|[A B] l']; [congruence |].
    exists A, B. now left. }
  assert (HLlen : 2 * L <= Z.of_nat (length array)).
  { destruct Hex as (A & B & Hin).
    destruct (bounds A B Hin) as (? & ? & ? & ? & ? & ?).
    destruct (Hlens A B Hin). lia. }
  set (bz := L / rt + 1) in *.
  assert (Hbzm : bz + bz < SIZE_MAX1) by (rewrite SIZE_MAX1_eq in *; lia).
  destruct (if bz + bz >? L then (bz, true) else (bz + bz, false))
    as [fnd sep] eqn:Hfs.
  destruct (find_buffers_loop size compare Horder array bz (rt) l
              lo0 hi0 Hfit ltac:(lia) Hbzm ltac:(lia) Hside Hlo0 Hhi0 Hruns
              l fuel0 fuel (WikiIterator_begin it) it' lo0 []
              (start_state fnd sep))
    as (s1 & it1 & seen' & Efb & Ebeg & Hres); auto; try lia.
  { left. unfold searching. cbn [pull_index pull1 buffer2 find
                                 find_separately buffer1 pull0].
    split; [reflexivity |]. split; [reflexivity |]. split; [reflexivity |].
    split.
    - destruct (bz + bz >? L); injection Hfs as <- <-; auto.
    - left. auto. }
  assert (Ebeg' : WikiIterator_begin it1 = WikiIterator_begin it)
    by (rewrite Ebeg; reflexivity).
  destruct Hres as [Hh | [Ht | [Hs Hall]]].
  - (* the two buffers at once *)
    destruct Hh as (Hp1 & A & B & left & Hact & Hb1 & Hb2).
    pose proof Hact as [Hin _].
    destruct (bounds _ _ Hin) as (HA0 & HA & HAB & HB & HBe & HBm).
    destruct (active_count compare array l bounds _ _ _ _ _ _ _ Hact)
      as (Hc2 & Hcnt & Hst & Hdir).
    apply (one_pull_level fuel fnd sep s1 it1 Hfuel Hfs Efb Ebeg' seen'
             (bz + bz) A B left
             (start (part left A B (bz + bz)) + bz)
             (Z.to_nat bz) (Z.to_nat bz)); auto; try lia.
    + rewrite Hb1, Z2Nat.id by lia.
      destruct left; cbn [part start]; f_equal; lia.
    + rewrite Hb2, Z2Nat.id by lia.
      destruct left; cbn [part start]; f_equal; lia.
    + right. rewrite !Z2Nat.id by lia.
      split; [lia |]. split; [reflexivity |]. split; lia.
    + rewrite SIZE_MAX1_eq in *. lia.
  - (* the two buffers one after the other *)
    destruct Ht as (c & A0 & B0 & left0 & E & A1 & B1 & left1 & Hc & Hact0
                    & Hb1 & Hact1 & Hb2 & Hrel).
    apply (two_pull_level fuel fnd sep s1 it1 Hfuel Hfs Efb Ebeg' seen' c
             A0 B0 left0 E A1 B1 left1); auto.
  - destruct Hs as [Hs | Hf].
    + destruct Hs as (Hpi & Hp1 & Hb2 & _ & Hcase).
      destruct Hcase as [(Hseen & _) | [Hconst | Hone]].
      * (* no run was seen: there is none *)
        exfalso. destruct Hex as (A & B & Hin).
        destruct (Hall _ Hin) as [HinA _]. rewrite Hseen in HinA.
        cbn [fst] in HinA. contradiction.
      * destruct Hconst as (A0 & B0 & Hin0 & Hp0 & Hb1 & Hconst).
        apply (constant_level fuel fnd sep s1 it1 Hfuel Hfs Efb Ebeg'
                 A0 B0); auto.
        intros A B Hin. destruct (Hall _ Hin) as [HinA HinB].
        cbn [fst snd] in HinA, HinB.
        rewrite Forall_forall in Hconst. split; now apply Hconst.
      * destruct Hone as (c & A & B & left & Hc & Hact & Hb1).
        pose proof Hact as [Hin _].
        destruct (bounds _ _ Hin) as (HA0 & HA & HAB & HB & HBe & HBm).
        destruct (active_count compare array l bounds _ _ _ _ _ _ _ Hact)
          as (Hc2 & Hcnt & Hst & Hdir).
        apply (one_pull_level fuel fnd sep s1 it1 Hfuel Hfs Efb Ebeg' seen'
                 c A B left 0 (Z.to_nat c) 0%nat); auto; try lia;
          try (rewrite Hb1, Z2Nat.id by lia;
               destruct left; cbn [part start]; f_equal; lia);
          try (left; rewrite Z2Nat.id by lia; auto);
          try (rewrite SIZE_MAX1_eq in *; lia).
    + destruct Hf as (Hpi & Hp1 & Hb2 & _ & _ & c & A & B & left & Hc & Hact
                      & Hb1).
      pose proof Hact as [Hin _].
      destruct (bounds _ _ Hin) as (HA0 & HA & HAB & HB & HBe & HBm).
      destruct (active_count compare array l bounds _ _ _ _ _ _ _ Hact)
        as (Hc2 & Hcnt & Hst & Hdir).
      apply (one_pull_level fuel fnd sep s1 it1 Hfuel Hfs Efb Ebeg' seen'
               c A B left 0 (Z.to_nat c) 0%nat); auto; try lia;
        try (rewrite Hb1, Z2Nat.id by lia;
             destruct left; cbn [part start]; f_equal; lia);
        try (left; rewrite Z2Nat.id by lia; auto);
        try (rewrite SIZE_MAX1_eq in *; lia).
Qed.
End LevelRun.

(* one level: the runs of each pair are merged *)
Lemma merge_in_place_spec {T : Type} (size : Z) (compare : Comparison T)
    (Horder : total_order compare) (array : list T)
    (l : list (Range * Range)) (lo0 hi0 : Z)
    (Hfit : fits size array) (Hside : side_by_side lo0 l hi0)
    (Hlo0 : 0 <= lo0) (Hhi0 : hi0 <= Z.of_nat (length array))
    (L : Z) (it it' : WikiIterator) (fuel0 : nat) :
  WikiIterator_length it = L ->
  4 <= L ->
  pairs_from fuel0 (WikiIterator_begin it) = Some (l, it') ->
  Forall (fun AB : Range * Range =>
            sorted_list compare (slice array (start (fst AB)) (end_ (fst AB)))
            /\ sorted_list compare
                 (slice array (start (snd AB)) (end_ (snd AB)))) l ->
  (forall A B, In (A, B) l ->
     L <= end_ A - start A <= L + 1 /\ L <= end_ B - start B <= L + 1) ->
  l <> [] ->
  forall fuel : nat,
    (length l + 2 * length array <= fuel)%nat ->
    exists arr',
      merge_in_place (ST := list_store size) fuel array size compare [] 0 it
      = Done (arr', [], it') /\
      length arr' = length array /\
      forall A B, In (A, B) l ->
        slice arr' (start A) (end_ B)
        = merge compare (slice array (start A) (end_ A))
            (slice array (start B) (end_ B)).
Proof.
  intros HL HL4 Hpairs Hruns Hlens Hl fuel Hfuel.
  assert (HL64 : L < 2 ^ 64).
  { destruct l as [| [A B] l']; [congruence |].
    destruct (level_bounds size array _ lo0 hi0 Hfit Hside Hlo0 Hhi0 A B
                (or_introl eq_refl)) as (? & ? & ? & ? & ? & Hend).
    destruct (Hlens A B (or_introl eq_refl)) as [HA HB].
    rewrite SIZE_MAX1_eq in Hend. lia. }
  destruct (sqrt_size_t_spec L ltac:(lia)) as (rt & Hroot & Hnear).
  exact (merge_in_place_root size compare Horder array l lo0 hi0 Hfit Hside
           Hlo0 Hhi0 L it it' fuel0 HL HL4 rt Hroot Hnear Hpairs Hruns Hlens
           Hl fuel Hfuel).
Qed.

(** * The levels of the merge sort *)

Section Ranges.
Context (N D W M : Z).
Hypothesis HN : N < SIZE_MAX1.
Hypothesis HW : 0 < W.
Hypothesis HD : D = M * W.

(* where the iterator stands once [j] ranges are handed out *)
Lemma handed_out_decimal (j : Z) (me : WikiIterator) :
  handed_out N D W j me -> decimal me = j * (N * W) / D.
Proof.
  intros (_ & Hn & Hd).
  apply Z.div_unique with (r := numerator me); lia.
Qed.

(* the runs of a level have four items at least *)
Lemma at_level_step (me : WikiIterator) :
  at_level N D W me -> 4 * W <= decimal_step me.
Proof.
  intros (_ & _ & HND & Hns & Heq).
  assert (HDpos : 0 < D) by lia.
  destruct (Z_lt_le_dec (decimal_step me) (4 * W)) as [Hlt | Hle]; [| lia].
  exfalso. nia.
Qed.

(* the pairs of ranges of a level, from the range [j] on *)
Lemma pairs_from_level :
  forall (n : nat) (j : Z) (me : WikiIterator) (fuel : nat),
    handed_out N D W j me -> 0 <= j -> j + 2 * Z.of_nat n = M ->
    (n <= fuel)%nat ->
    exists l it',
      pairs_from fuel me = Some (l, it') /\
      handed_out N D W M it' /\
      side_by_side (decimal me) l N /\
      length l = n /\
      (forall A B, In (A, B) l ->
         exists i, 0 <= i < Z.of_nat n /\
           start A = (j + 2 * i) * (N * W) / D /\
           end_ A = (j + 2 * i + 1) * (N * W) / D /\
           start B = end_ A /\
           end_ B = (j + 2 * i + 2) * (N * W) / D /\
           decimal_step me <= end_ A - start A <= decimal_step me + 1 /\
           decimal_step me <= end_ B - start B <= decimal_step me + 1) /\
      (forall i, 0 <= i < Z.of_nat n ->
         In (Range_new ((j + 2 * i) * (N * W) / D)
               ((j + 2 * i + 1) * (N * W) / D),
             Range_new ((j + 2 * i + 1) * (N * W) / D)
               ((j + 2 * i + 2) * (N * W) / D)) l).
Proof.
  induction n as [|n IH]; intros j me fuel Hme Hj HjM Hfuel.
  - assert (EjM : j = M) by lia.
    destruct (WikiIterator_finished_spec N D W M j me Hme HW HD ltac:(lia))
      as (Hfin & _ & Hdec).
    exists [], me.
    split; [destruct fuel; cbn [pairs_from];
            rewrite (proj2 Hfin EjM); reflexivity |].
    split; [now rewrite <- EjM |].
    split; [cbn [side_by_side]; auto |].
    split; [reflexivity |].
    split; [intros A B [] |]. intros i Hi. lia.
  - destruct fuel as [|fuel]; [lia |].
    destruct (WikiIterator_finished_spec N D W M j me Hme HW HD ltac:(lia))
      as (Hfin & _ & _).
    assert (Hnot : WikiIterator_finished me = false).
    { destruct (WikiIterator_finished me); [| reflexivity].
      pose proof (proj1 Hfin eq_refl). lia. }
    pose proof (at_level_step me (proj1 Hme)) as Hstep.
    destruct (WikiIterator_nextRange_spec N D W M j me Hme HN HW HD
                ltac:(lia))
      as (Hme1 & HsA & HeA & HA0 & HAN & HAlen & Hds1 & _).
    destruct (WikiIterator_nextRange me) as [A me1] eqn:E1.
    cbn [fst snd] in *.
    destruct (WikiIterator_nextRange_spec N D W M (j + 1) me1 Hme1 HN HW HD
                ltac:(lia))
      as (Hme2 & HsB & HeB & HB0 & HBN & HBlen & Hds2 & _).
    destruct (WikiIterator_nextRange me1) as [B me2] eqn:E2.
    cbn [fst snd] in *.
    replace (j + 1 + 1) with (j + 2) in Hme2 by lia.
    destruct (IH (j + 2) me2 fuel Hme2 ltac:(lia) ltac:(lia) ltac:(lia))
      as (l & it' & Ep & Hit' & Hside & Hlen & Hin & Hall).
    exists ((A, B) :: l), it'.
    split; [cbn [pairs_from]; rewrite Hnot, E1, E2, Ep; reflexivity |].
    split; [exact Hit' |].
    pose proof (handed_out_decimal j me Hme) as Ed0.
    pose proof (handed_out_decimal (j + 1) me1 Hme1) as Ed1.
    pose proof (handed_out_decimal (j + 2) me2 Hme2) as Ed2.
    split.
    { cbn [side_by_side]. rewrite HeB. repeat split; auto; lia. }
    split; [cbn [length]; now rewrite Hlen |].
    split.
    + intros A' B' [E | Hin'].
      * injection E as <- <-. exists 0.
        replace (j + 2 * 0) with j by lia.
        replace (j + 0 + 1) with (j + 1) by lia.
        replace (j + 0 + 2) with (j + 2) by lia.
        rewrite <- Ed0, <- Ed1, <- Ed2, HsA, HeA, HsB, HeB.
        repeat split; try lia.
      * destruct (Hin A' B' Hin') as (i & Hi & H1 & H2 & H3 & H4 & H5 & H6).
        exists (i + 1).
        replace (j + 2 * (i + 1)) with (j + 2 + 2 * i) by lia.
        rewrite Hds1, Hds2 in *.
        repeat split; auto; lia.
    + intros i Hi.
      destruct (Z.eq_dec i 0) as [-> | Hne].
      * left. replace (j + 2 * 0) with j by lia.
        replace (j + 0 + 1) with (j + 1) by lia.
        replace (j + 0 + 2) with (j + 2) by lia.
        rewrite <- Ed0, <- Ed1, <- Ed2.
        destruct A as [sA eA], B as [sB eB]. cbn [start end_] in *.
        now subst.
      * right. specialize (Hall (i - 1) ltac:(lia)).
        replace (j + 2 + 2 * (i - 1)) with (j + 2 * i) in Hall by lia.
        exact Hall.
Qed.
End Ranges.

(** * The toolbox functions, one by one *)

(** X1. For every value from 1 to the largest [size_t],
    [FloorPowerOfTwo] returns the largest power of two that is not above
    the value: a power [2 ^ k] with [2 ^ k <= value < 2 ^ (k + 1)]. *)
Theorem FloorPowerOfTwo_largest_power (value : Z) :
  0 < value < SIZE_MAX1 ->
  exists k, 0 <= k < 64 /\ FloorPowerOfTwo value = 2 ^ k /\
            2 ^ k <= value < 2 ^ (k + 1).
Proof.
  intros H. exists (Z.log2 value).
  pose proof (Z.log2_spec value ltac:(lia)) as Hspec.
  pose proof (Z.log2_nonneg value) as Hnn.
  split.
  - split; [exact Hnn |].
    apply Z.log2_lt_pow2; [lia |]. exact (proj2 H).
  - split; [now apply FloorPowerOfTwo_spec |].
    replace (Z.log2 value + 1) with (Z.succ (Z.log2 value)) by lia.
    exact Hspec.
Qed.

Lemma FloorPowerOfTwo_largest_power_witness :
  exists k, 0 <= k < 64 /\ FloorPowerOfTwo 1500000 = 2 ^ k /\
            2 ^ k <= 1500000 < 2 ^ (k + 1).
Proof.
  apply (FloorPowerOfTwo_largest_power 1500000).
  vm_compute. split; reflexivity.
Defined.

(** X2. Whenever the items of a range are first items that compare below
    the value and then items that do not (so in every sorted range, and in
    a range of no items), [BinaryFirst] returns, given fuel for the length
    of the range, the index of the first item that does not compare below
    the value, which is the end of the range when there is none. *)
Theorem BinaryFirst_first_not_below {T : Type} (size : Z)
    (compare : Comparison T) (pre below rest post : list T) (v : T)
    (range : Range) (fuel : nat) :
  fits size (pre ++ below ++ rest ++ post) ->
  Forall (fun y => compare y v < 0) below ->
  Forall (fun y => compare y v >= 0) rest ->
  start range = Z.of_nat (length pre) ->
  end_ range = Z.of_nat (length pre + length below + length rest) ->
  (length below + length rest <= fuel)%nat ->
  BinaryFirst (ST := list_store size) fuel (pre ++ below ++ rest ++ post)
    (Some v) size range compare
  = Done (start range + Z.of_nat (length below)).
Proof.
  intros Hfit Hb Hr Hs He Hf.
  rewrite (BinaryFirst_parts size compare pre below rest post v range fuel);
    auto.
  f_equal. lia.
Qed.

Lemma BinaryFirst_first_not_below_witness :
  BinaryFirst (ST := list_store 8) 5 ([0] ++ [1; 2] ++ [3; 3; 5] ++ [9])
    (Some 3) 8 (Range_new 1 6) Z.sub
  = Done (start (Range_new 1 6) + Z.of_nat (length [1; 2])).
Proof.
  apply (BinaryFirst_first_not_below 8 Z.sub [0] [1; 2] [3; 3; 5] [9] 3
           (Range_new 1 6) 5).
  - split; [lia | vm_compute; reflexivity].
  - repeat constructor; lia.
  - repeat constructor; lia.
  - reflexivity.
  - reflexivity.
  - simpl. lia.
Defined.

(** X3. Whenever the items of a range are first items that the value does
    not compare below and then items that it does (so in every sorted
    range, and in a range of no items), [BinaryLast] returns, given fuel
    for the length of the range, the index after the last item that the
    value does not compare below, which is the start of the range when
    there is none. *)
Theorem BinaryLast_after_not_above {T : Type} (size : Z)
    (compare : Comparison T) (pre upto above post : list T) (v : T)
    (range : Range) (fuel : nat) :
  fits size (pre ++ upto ++ above ++ post) ->
  Forall (fun x => compare v x >= 0) upto ->
  Forall (fun x => compare v x < 0) above ->
  start range = Z.of_nat (length pre) ->
  end_ range = Z.of_nat (length pre + length upto + length above) ->
  (length upto + length above <= fuel)%nat ->
  BinaryLast (ST := list_store size) fuel (pre ++ upto ++ above ++ post)
    (Some v) size range compare
  = Done (start range + Z.of_nat (length upto)).
Proof.
  intros Hfit Hu Ha Hs He Hf.
  rewrite (BinaryLast_parts size compare pre upto above post v range fuel);
    auto.
  f_equal. lia.
Qed.

Lemma BinaryLast_after_not_above_witness :
  BinaryLast (ST := list_store 8) 5 ([0] ++ [1; 2; 3; 3] ++ [5] ++ [9])
    (Some 3) 8 (Range_new 1 6) Z.sub
  = Done (start (Range_new 1 6) + Z.of_nat (length [1; 2; 3; 3])).
Proof.
  apply (BinaryLast_after_not_above 8 Z.sub [0] [1; 2; 3; 3] [5] [9] 3
           (Range_new 1 6) 5).
  - split; [lia | vm_compute; reflexivity].
  - repeat constructor; lia.
  - repeat constructor; lia.
  - reflexivity.
  - reflexivity.
  - simpl. lia.
Defined.

(** X4. On an array of items of [size] bytes, [Reverse] puts the items of
    the range in the reverse order and leaves the items before and after
    the range as they were; reversing the same range once more gives the
    array back. *)
Theorem Reverse_reverses_range {T : Type} (size : Z) (pre l post : list T)
    (range : Range) (fuel : nat) :
  fits size (pre ++ l ++ post) ->
  start range = Z.of_nat (length pre) ->
  end_ range = Z.of_nat (length pre + length l) ->
  (length l <= fuel)%nat ->
  Reverse (ST := list_store size) fuel (pre ++ l ++ post) size range
  = Done (pre ++ rev l ++ post) /\
  Reverse (ST := list_store size) fuel (pre ++ rev l ++ post) size range
  = Done (pre ++ l ++ post).
Proof.
  intros Hfit Hs He Hf. split.
  - now apply Reverse_spec.
  - rewrite <- (rev_involutive l) at 2.
    apply Reverse_spec; auto; rewrite ?length_rev; auto.
    eapply fits_length; [exact Hfit |].
    rewrite !length_app, length_rev. reflexivity.
Qed.

Lemma Reverse_reverses_range_witness :
  Reverse (ST := list_store 4) 4 ([10] ++ [20; 30; 40; 50] ++ [60]) 4
    (Range_new 1 5)
  = Done ([10] ++ rev [20; 30; 40; 50] ++ [60]) /\
  Reverse (ST := list_store 4) 4 ([10] ++ rev [20; 30; 40; 50] ++ [60]) 4
    (Range_new 1 5)
  = Done ([10] ++ [20; 30; 40; 50] ++ [60]).
Proof.
  apply (Reverse_reverses_range 4 [10] [20; 30; 40; 50] [60] (Range_new 1 5) 4).
  - split; [lia | vm_compute; reflexivity].
  - reflexivity.
  - reflexivity.
  - simpl. lia.
Defined.

(** X5. On an array of items of [size] bytes, [BlockSwap] exchanges two
    blocks of [block_size] items that do not overlap, whichever of the two
    is named first, and leaves the items before, between and after the
    blocks as they were. *)
Theorem BlockSwap_exchanges_blocks {T : Type} (size : Z)
    (before block1 between block2 after : list T)
    (start1 start2 block_size : Z) (fuel : nat) :
  fits size (before ++ block1 ++ between ++ block2 ++ after) ->
  length block1 = length block2 ->
  start1 = Z.of_nat (length before) ->
  start2 = Z.of_nat (length before + length block1 + length between) ->
  block_size = Z.of_nat (length block1) ->
  (length block1 <= fuel)%nat ->
  BlockSwap (ST := list_store size) fuel
    (before ++ block1 ++ between ++ block2 ++ after) size start1 start2
    block_size
  = Done (before ++ block2 ++ between ++ block1 ++ after) /\
  BlockSwap (ST := list_store size) fuel
    (before ++ block1 ++ between ++ block2 ++ after) size start2 start1
    block_size
  = Done (before ++ block2 ++ between ++ block1 ++ after).
Proof.
  intros Hfit Hlen H1 H2 Hb Hf.
  now apply BlockSwap_spec.
Qed.

Lemma BlockSwap_exchanges_blocks_witness :
  BlockSwap (ST := list_store 4) 2 ([1] ++ [2; 3] ++ [4] ++ [5; 6] ++ [7]) 4
    1 4 2
  = Done ([1] ++ [5; 6] ++ [4] ++ [2; 3] ++ [7]) /\
  BlockSwap (ST := list_store 4) 2 ([1] ++ [2; 3] ++ [4] ++ [5; 6] ++ [7]) 4
    4 1 2
  = Done ([1] ++ [5; 6] ++ [4] ++ [2; 3] ++ [7]).
Proof.
  apply (BlockSwap_exchanges_blocks 4 [1] [2; 3] [4] [5; 6] [7] 1 4 2 2).
  - split; [lia | vm_compute; reflexivity].
  - reflexivity.
  - reflexivity.
  - reflexivity.
  - reflexivity.
  - simpl. lia.
Defined.

(** X6. For a comparator with total-order semantics, [InsertionSort]
    (given fuel for the length of the range) sorts the items of the range
    and keeps the items that compare equal in the order they had: the range
    is left sorted, it is made of the items it held, the items that compare
    equal to any given one come in their former order, and the items before
    and after the range are as they were. A range of no items leaves the
    array as it is. *)
Theorem InsertionSort_sorts_stably {T : Type} (size : Z)
    (compare : Comparison T) (pre l post : list T) (range : Range)
    (fuel : nat) :
  total_order compare ->
  fits size (pre ++ l ++ post) ->
  start range = Z.of_nat (length pre) ->
  end_ range = Z.of_nat (length pre + length l) ->
  Z.of_nat (length pre) + 1 < SIZE_MAX1 ->
  (length l <= fuel)%nat ->
  exists sorted,
    InsertionSort (ST := list_store size) fuel (pre ++ l ++ post) size range
      compare
    = Done (pre ++ sorted ++ post) /\
    sorted_list compare sorted /\ Permutation l sorted /\
    (forall v, filter (equal_to compare v) sorted
               = filter (equal_to compare v) l) /\
    (l = [] -> sorted = []).
Proof.
  intros Horder Hfit Hs He Hpre Hf.
  destruct (InsertionSort_spec size compare Horder pre l post range fuel)
    as (l' & Hrun & Hsorted & Hperm & Hstable); auto.
  exists l'. repeat split; auto.
  intros ->. now apply Permutation_nil in Hperm.
Qed.

Lemma InsertionSort_sorts_stably_witness :
  exists sorted,
    InsertionSort (ST := list_store 8) 5 ([0] ++ [3; 1; 3; 2; 1] ++ [9]) 8
      (Range_new 1 6) (fun x y => x / 2 - y / 2)
    = Done ([0] ++ sorted ++ [9]) /\
    sorted_list (fun x y => x / 2 - y / 2) sorted /\
    Permutation [3; 1; 3; 2; 1] sorted /\
    (forall v, filter (equal_to (fun x y => x / 2 - y / 2) v) sorted
               = filter (equal_to (fun x y => x / 2 - y / 2) v)
                   [3; 1; 3; 2; 1]) /\
    ([3; 1; 3; 2; 1] = [] -> sorted = []).
Proof.
  apply (InsertionSort_sorts_stably 8 (fun x y => x / 2 - y / 2) [0]
           [3; 1; 3; 2; 1] [9] (Range_new 1 6) 5).
  - constructor; intros; lia.
  - split; [lia | vm_compute; reflexivity].
  - reflexivity.
  - reflexivity.
  - vm_compute. reflexivity.
  - simpl. lia.
Defined.

(** * The levels of the iterator *)

(* the iterator goes up [k] levels as long as the runs stay shorter than
   the array *)
Lemma after_levels_exist (N D d : Z) :
  N < SIZE_MAX1 -> D = 2 ^ d -> 0 <= d ->
  forall (k : nat) (me : WikiIterator) (w : Z),
    at_level N D (2 ^ w) me -> 0 <= w -> w + Z.of_nat k < d ->
    exists it, after_levels k me = Some it /\
               at_level N D (2 ^ (w + Z.of_nat k)) it.
Proof.
  intros HN HD Hd. induction k as [|k IH]; intros me w Hat Hw Hk.
  - exists me. split; [reflexivity |]. now rewrite Z.add_0_r.
  - assert (Hpow : 0 < 2 ^ w) by (apply Z.pow_pos_nonneg; lia).
    assert (H2 : 2 * 2 ^ w = 2 ^ (w + 1))
      by (rewrite Z.pow_add_r by lia; lia).
    assert (Hlt : 2 ^ (w + 1) < 2 ^ d)
      by (apply Z.pow_lt_mono_r; lia).
    destruct (WikiIterator_nextLevel_spec N D (2 ^ w) me Hat HN Hpow
                ltac:(lia)) as (Hat' & Hmore & _ & _).
    cbn [after_levels].
    destruct (WikiIterator_nextLevel me) as [more me'] eqn:E.
    cbn [fst snd] in *.
    rewrite H2 in Hat', Hmore.
    assert (Em : more = true) by (apply Hmore; lia).
    rewrite Em.
    destruct (IH me' (w + 1) Hat' ltac:(lia) ltac:(lia)) as (it & Hit & Hat2).
    exists it. split; [exact Hit |].
    replace (w + Z.of_nat (S k)) with (w + 1 + Z.of_nat k) by lia.
    exact Hat2.
Qed.

(** X7. For an array of [N >= 8] items, with [d] the integer logarithm of
    [N] less two: the iterator made by [WikiIterator_new N 4] can be taken
    up [k] levels for every [k < d], each [WikiIterator_nextLevel] call
    on the way returning true; at level [k] the length of the runs,
    [WikiIterator_length], is [N * 2 ^ k / 2 ^ d] rounded down, from
    [4 * 2 ^ k] to [8 * 2 ^ k - 1]; and the next [WikiIterator_nextLevel]
    call returns true exactly when [k + 1 < d], so that a sort goes
    through [d] levels of merging. *)
Theorem iterator_levels (N : Z) (k : nat) :
  8 <= N < SIZE_MAX1 ->
  Z.of_nat k < Z.log2 N - 2 ->
  exists it0 it,
    WikiIterator_new N 4 = Done it0 /\
    after_levels k it0 = Some it /\
    WikiIterator_length it = N * 2 ^ Z.of_nat k / 2 ^ (Z.log2 N - 2) /\
    4 * 2 ^ Z.of_nat k <= WikiIterator_length it < 8 * 2 ^ Z.of_nat k /\
    (fst (WikiIterator_nextLevel it) = true <->
     Z.of_nat k + 1 < Z.log2 N - 2).
Proof.
  intros HN Hk.
  destruct (WikiIterator_new_spec N ltac:(lia)) as (it0 & Hnew & Hat0 & _ & _).
  set (d := Z.log2 N - 2) in *.
  assert (Hd : 0 <= d) by lia.
  destruct (after_levels_exist N (2 ^ d) d ltac:(lia) eq_refl Hd k it0 0
              Hat0 ltac:(lia) ltac:(lia)) as (it & Hit & Hat).
  rewrite Z.add_0_l in Hat.
  exists it0, it. split; [exact Hnew |]. split; [exact Hit |].
  set (kz := Z.of_nat k) in *.
  assert (Hpow : 0 < 2 ^ kz) by (apply Z.pow_pos_nonneg; lia).
  assert (HD : 0 < 2 ^ d) by (apply Z.pow_pos_nonneg; lia).
  assert (H2 : 2 * 2 ^ kz = 2 ^ (kz + 1))
    by (rewrite Z.pow_add_r by lia; lia).
  assert (Hle : 2 ^ (kz + 1) <= 2 ^ d)
    by (apply Z.pow_le_mono_r; lia).
  destruct (WikiIterator_nextLevel_spec N (2 ^ d) (2 ^ kz) it Hat
              ltac:(lia) Hpow ltac:(lia)) as (_ & Hmore & _ & _).
  destruct Hat as (_ & _ & HND & Hns & Hstep).
  assert (Elen : WikiIterator_length it = N * 2 ^ kz / 2 ^ d).
  { unfold WikiIterator_length.
    apply (Z.div_unique_pos _ _ _ (numerator_step it)); lia. }
  split; [exact Elen |].
  split.
  { unfold WikiIterator_length. nia. }
  rewrite Hmore, H2. split; intros H.
  - apply Z.pow_lt_mono_r_iff in H; lia.
  - apply Z.pow_lt_mono_r; lia.
Qed.

Lemma iterator_levels_witness :
  exists it0 it,
    WikiIterator_new 100 4 = Done it0 /\
    after_levels 2 it0 = Some it /\
    WikiIterator_length it = 100 * 2 ^ Z.of_nat 2 / 2 ^ (Z.log2 100 - 2) /\
    4 * 2 ^ Z.of_nat 2 <= WikiIterator_length it < 8 * 2 ^ Z.of_nat 2 /\
    (fst (WikiIterator_nextLevel it) = true <->
     Z.of_nat 2 + 1 < Z.log2 100 - 2).
Proof.
  apply (iterator_levels 100 2).
  - vm_compute. split; [discriminate | reflexivity].
  - vm_compute. reflexivity.
Defined.

(** X8. [WikiIterator_new] divides twice, by [min_level] and by the
    denominator it computes: for an item count that a [size_t] holds, it
    is undefined exactly when [min_level] is zero or above the largest
    power of two within the item count (which is zero for no items), and
    otherwise it returns an iterator at its beginning whose denominator is
    that power of two divided by [min_level]. *)
Theorem WikiIterator_new_defined (size2 min_level : Z) :
  0 <= size2 < SIZE_MAX1 -> 0 <= min_level ->
  (WikiIterator_new size2 min_level = Undefined <->
   min_level = 0 \/ FloorPowerOfTwo size2 < min_level) /\
  (0 < min_level <= FloorPowerOfTwo size2 ->
   exists me, WikiIterator_new size2 min_level = Done me /\
     denominator me = FloorPowerOfTwo size2 / min_level /\
     decimal_step me = size2 / denominator me /\
     numerator_step me = size2 mod denominator me /\
     numerator me = 0 /\ decimal me = 0).
Proof.
  intros Hs Hm.
  assert (Hp : 0 <= FloorPowerOfTwo size2).
  { destruct (Z.eq_dec size2 0) as [-> | Hne]; [vm_compute; discriminate |].
    rewrite FloorPowerOfTwo_spec by lia.
    apply Z.pow_nonneg. lia. }
  unfold WikiIterator_new.
  destruct (Z.eqb_spec min_level 0) as [-> | Hne].
  - split; [| lia]. split; auto.
  - destruct (Z.eqb_spec (FloorPowerOfTwo size2 / min_level) 0) as [E | E].
    + split.
      * split; [intros _ | reflexivity]. right.
        apply Z.div_small_iff in E; lia.
      * intros H. exfalso.
        assert (1 <= FloorPowerOfTwo size2 / min_level)
          by (apply Z.div_le_lower_bound; lia).
        lia.
    + split.
      * split; [discriminate |]. intros [H | H]; [lia |].
        exfalso. apply E. apply Z.div_small. lia.
      * intros _. eexists. split; [reflexivity |].
        cbn. repeat split.
Qed.

Lemma WikiIterator_new_defined_witness :
  (WikiIterator_new 3 4 = Undefined <->
   4 = 0 \/ FloorPowerOfTwo 3 < 4) /\
  (0 < 4 <= FloorPowerOfTwo 3 ->
   exists me, WikiIterator_new 3 4 = Done me /\
     denominator me = FloorPowerOfTwo 3 / 4 /\
     decimal_step me = 3 / denominator me /\
     numerator_step me = 3 mod denominator me /\
     numerator me = 0 /\ decimal me = 0).
Proof.
  apply (WikiIterator_new_defined 3 4).
  - vm_compute. split; [discriminate | reflexivity].
  - lia.
Defined.

(** * Arrays of fewer than four items *)

Ltac idx :=
  change (Z.to_nat 0) with 0%nat; change (Z.to_nat 1) with 1%nat;
  change (Z.to_nat 2) with 2%nat.

Section Small.
Context {T : Type} (size : Z) (compare : Comparison T).
Hypothesis Horder : total_order compare.
#[local] Hint Extern 0 (Store (list _) _) =>
  exact (list_store size) : typeclass_instances.

(* the hard-coded compare-and-swap steps give the stable sort *)
Lemma sort_small_spec (array : list T) :
  fits size array -> (length array < 4)%nat ->
  sort_small array (Z.of_nat (length array)) size compare
  = Done (stable_sort compare array).
Proof.
  intros Hfit Hlen.
  assert (Hp : forall i, 0 <= i < Z.of_nat (length array) ->
            ptr array (size *% i) = nth_error array (Z.to_nat i))
    by (intros; now apply ptr_nth).
  assert (Hs : forall (l : list T) i j x y,
            length l = length array ->
            0 <= i < Z.of_nat (length l) -> 0 <= j < Z.of_nat (length l) ->
            nth_error l (Z.to_nat i) = Some x ->
            nth_error l (Z.to_nat j) = Some y ->
            Swap l (size *% i) (size *% j) size
            = Some (set_nth (set_nth l (Z.to_nat i) y) (Z.to_nat j) x)).
  { intros l i j x y Hl Hi Hj Hx Hy. apply Swap_nth; auto.
    eapply fits_length; [exact Hfit | exact Hl]. }
  assert (Hp' : forall (l : list T) i,
            length l = length array -> 0 <= i < Z.of_nat (length l) ->
            ptr l (size *% i) = nth_error l (Z.to_nat i)).
  { intros l i Hl Hi. apply ptr_nth; auto.
    eapply fits_length; [exact Hfit | exact Hl]. }
  destruct array as [|a [|b [|c [|d array]]]]; cbn [length] in Hlen;
    try lia; clear Hlen Hp.
  - reflexivity.
  - reflexivity.
  - (* two items *)
    unfold sort_small. cbn [length Z.of_nat Pos.of_succ_nat Pos.succ Z.eqb
                            Pos.eqb].
    rewrite (Hp' [a; b] 1), (Hp' [a; b] 0) by (cbn [length]; auto; lia).
    idx; cbn [nth_error call bind].
    rewrite (Hs [a; b] 0 1 a b) by (cbn [length]; auto; lia).
    idx; cbn [set_nth lift].
    unfold stable_sort. cbn [fold_right].
    rewrite merge_nil_r, merge_cons, merge_nil_l, merge_nil_r.
    flips Horder a b.
    destruct (Z.ltb_spec (compare b a) 0); destruct (Z.geb_spec (compare b a) 0);
      try lia; reflexivity.
  - (* three items *)
    unfold sort_small. cbn [length Z.of_nat Pos.of_succ_nat Pos.succ Z.eqb
                            Pos.eqb].
    rewrite (Hp' [a; b; c] 1), (Hp' [a; b; c] 0) by (cbn [length]; auto; lia).
    idx; cbn [nth_error call bind].
    rewrite (Hs [a; b; c] 0 1 a b) by (cbn [length]; auto; lia).
    idx; cbn [set_nth lift].
    unfold stable_sort. cbn [fold_right].
    rewrite merge_nil_r.
    rewrite (merge_cons compare b c [] []), merge_nil_l, merge_nil_r.
    order_facts Horder a b c.
    destruct (Z.ltb_spec (compare b a) 0) as [Hba | Hba]; cbn [bind].
    + rewrite (Hp' [b; a; c] 2), (Hp' [b; a; c] 1)
        by (cbn [length]; auto; lia).
      idx; cbn [nth_error call bind].
      destruct (Z.ltb_spec (compare c a) 0) as [Hca | Hca].
      * rewrite (Hs [b; a; c] 1 2 a c) by (cbn [length]; auto; lia).
        idx; cbn [set_nth lift bind].
        rewrite (Hp' [b; c; a] 1), (Hp' [b; c; a] 0)
          by (cbn [length]; auto; lia).
        idx; cbn [nth_error call bind].
        rewrite (Hs [b; c; a] 0 1 b c) by (cbn [length]; auto; lia).
        idx; cbn [set_nth lift].
        destruct (Z.geb_spec (compare c b) 0) as [Hcb | Hcb].
        -- replace (compare c b <? 0) with false
             by (symmetry; apply Z.ltb_ge; lia).
           rewrite (merge_cons compare a b [] [c]).
           replace (compare b a >=? 0) with false
             by (symmetry; rewrite Z.geb_leb; apply Z.leb_gt; lia).
           rewrite (merge_cons compare a c [] []), merge_nil_l, merge_nil_r.
           replace (compare c a >=? 0) with false
             by (symmetry; rewrite Z.geb_leb; apply Z.leb_gt; lia).
           reflexivity.
        -- replace (compare c b <? 0) with true
             by (symmetry; apply Z.ltb_lt; lia).
           rewrite (merge_cons compare a c [] [b]).
           replace (compare c a >=? 0) with false
             by (symmetry; rewrite Z.geb_leb; apply Z.leb_gt; lia).
           rewrite (merge_cons compare a b [] []), merge_nil_l, merge_nil_r.
           replace (compare b a >=? 0) with false
             by (symmetry; rewrite Z.geb_leb; apply Z.leb_gt; lia).
           reflexivity.
      * replace (compare c b >=? 0) with true
          by (symmetry; rewrite Z.geb_leb; apply Z.leb_le; lia).
        rewrite (merge_cons compare a b [] [c]).
        replace (compare b a >=? 0) with false
          by (symmetry; rewrite Z.geb_leb; apply Z.leb_gt; lia).
        rewrite (merge_cons compare a c [] []), merge_nil_l, merge_nil_r.
        replace (compare c a >=? 0) with true
          by (symmetry; rewrite Z.geb_leb; apply Z.leb_le; lia).
        reflexivity.
    + rewrite (Hp' [a; b; c] 2), (Hp' [a; b; c] 1)
        by (cbn [length]; auto; lia).
      idx; cbn [nth_error call bind].
      destruct (Z.ltb_spec (compare c b) 0) as [Hcb | Hcb].
      * rewrite (Hs [a; b; c] 1 2 b c) by (cbn [length]; auto; lia).
        idx; cbn [set_nth lift bind].
        rewrite (Hp' [a; c; b] 1), (Hp' [a; c; b] 0)
          by (cbn [length]; auto; lia).
        idx; cbn [nth_error call bind].
        rewrite (Hs [a; c; b] 0 1 a c) by (cbn [length]; auto; lia).
        idx; cbn [set_nth lift].
        replace (compare c b >=? 0) with false
          by (symmetry; rewrite Z.geb_leb; apply Z.leb_gt; lia).
        rewrite (merge_cons compare a c [] [b]).
        destruct (Z.ltb_spec (compare c a) 0) as [Hca | Hca].
        -- replace (compare c a >=? 0) with false
             by (symmetry; rewrite Z.geb_leb; apply Z.leb_gt; lia).
           rewrite (merge_cons compare a b [] []), merge_nil_l, merge_nil_r.
           replace (compare b a >=? 0) with true
             by (symmetry; rewrite Z.geb_leb; apply Z.leb_le; lia).
           reflexivity.
        -- replace (compare c a >=? 0) with true
             by (symmetry; rewrite Z.geb_leb; apply Z.leb_le; lia).
           now rewrite merge_nil_l.
      * replace (compare c b >=? 0) with true
          by (symmetry; rewrite Z.geb_leb; apply Z.leb_le; lia).
        rewrite (merge_cons compare a b [] [c]).
        replace (compare b a >=? 0) with true
          by (symmetry; rewrite Z.geb_leb; apply Z.leb_le; lia).
        now rewrite merge_nil_l.
Qed.
End Small.

(** X9. For a comparator with total-order semantics, [new_WikiSort] on an
    array of fewer than four items returns, with no fuel at all, the
    stable sort of the array: the result is sorted, it is made of the
    items of the array, and the items that compare equal to any given one
    keep the order they had; arrays of no item or one item are returned
    as they are. *)
Theorem new_WikiSort_small_arrays {T : Type} (size : Z)
    (compare : Comparison T) (array : list T) (fuel : nat) :
  total_order compare ->
  fits size array -> (length array < 4)%nat ->
  exists sorted,
    new_WikiSort (ST := list_store size) fuel array
      (Z.of_nat (length array)) size compare = Done sorted /\
    sorted_list compare sorted /\ Permutation array sorted /\
    (forall v, filter (equal_to compare v) sorted
               = filter (equal_to compare v) array) /\
    ((length array <= 1)%nat -> sorted = array).
Proof.
  intros Horder Hfit Hlen.
  exists (stable_sort compare array).
  split.
  { unfold new_WikiSort.
    replace (Z.of_nat (length array) <? 4) with true
      by (symmetry; apply Z.ltb_lt; lia).
    now apply sort_small_spec. }
  split; [now apply stable_sort_sorted |].
  split; [apply stable_sort_perm |].
  split; [intros v; now apply stable_sort_stable |].
  intros H. destruct array as [|a [|b array]]; cbn [length] in H;
    try lia; reflexivity.
Qed.

Lemma new_WikiSort_small_arrays_witness :
  exists sorted,
    new_WikiSort (ST := list_store 8) 0 [5; 2; 4]
      (Z.of_nat (length [5; 2; 4])) 8 (fun x y => x / 2 - y / 2)
    = Done sorted /\
    sorted_list (fun x y => x / 2 - y / 2) sorted /\
    Permutation [5; 2; 4] sorted /\
    (forall v, filter (equal_to (fun x y => x / 2 - y / 2) v) sorted
               = filter (equal_to (fun x y => x / 2 - y / 2) v) [5; 2; 4]) /\
    ((length [5; 2; 4] <= 1)%nat -> sorted = [5; 2; 4]).
Proof.
  apply (new_WikiSort_small_arrays 8 (fun x y => x / 2 - y / 2) [5; 2; 4] 0).
  - constructor; intros; lia.
  - split; [lia | vm_compute; reflexivity].
  - simpl. lia.
Defined.

(** * The groups of four to eight items *)

Lemma StronglySorted_pairwise {K : Type} (R : K -> K -> Prop) (l : list K) :
  (forall i j x y, (i < j)%nat -> nth_error l i = Some x ->
     nth_error l j = Some y -> R x y) ->
  StronglySorted R l.
Proof.
  induction l as [|a l IH]; intros H; constructor.
  - apply IH. intros i j x y Hij Hx Hy.
    exact (H (S i) (S j) x y ltac:(lia) Hx Hy).
  - apply Forall_forall. intros y Hy.
    destruct (In_nth_error _ _ Hy) as [j Hj].
    exact (H 0%nat (S j) a y ltac:(lia) eq_refl Hj).
Qed.

(* the items picked of a list in order are in order *)
Lemma StronglySorted_filter_cond {K : Type} (R R' : K -> K -> Prop)
    (P : K -> bool) (l : list K) :
  (forall x y, R' x y -> P x = true -> P y = true -> R x y) ->
  StronglySorted R' l -> StronglySorted R (filter P l).
Proof.
  intros HR. induction 1 as [|a l Hs IH Ha]; cbn [filter]; [constructor |].
  destruct (P a) eqn:Ea; [| exact IH].
  constructor; [exact IH |].
  apply Forall_forall. intros y Hy. apply filter_In in Hy.
  destruct Hy as [Hy Py]. rewrite Forall_forall in Ha.
  apply HR; auto.
Qed.

Lemma Permutation_filter_same {K : Type} (P : K -> bool) (l l' : list K) :
  Permutation l l' -> Permutation (filter P l) (filter P l').
Proof.
  induction 1; cbn [filter].
  - constructor.
  - destruct (P x); auto.
  - destruct (P x), (P y); auto. apply perm_swap.
  - etransitivity; eauto.
Qed.

Lemma filter_map_fst {A B : Type} (P : A -> bool) (l : list (A * B)) :
  filter P (map fst l) = map fst (filter (fun k => P (fst k)) l).
Proof.
  induction l as [|k l IH]; [reflexivity |].
  cbn [map filter]. destruct (P (fst k)); cbn [map]; now rewrite IH.
Qed.

(* the items of a list with their places: the places go up *)
Lemma combine_seq_sorted {A : Type} (l : list A) :
  forall s n,
    StronglySorted (fun k1 k2 : A * Z => snd k1 < snd k2)
      (combine l (map Z.of_nat (seq s n))).
Proof.
  induction l as [|a l IH]; intros s [|n]; cbn [seq map combine];
    try constructor.
  - apply IH.
  - apply Forall_forall. intros [v o] Hin.
    destruct (In_combine_seq l (S s) n v o Hin) as (p & -> & _).
    cbn [snd]. lia.
Qed.

Lemma snd_sub_total_order {A : Type} :
  total_order (fun k1 k2 : A * Z => snd k1 - snd k2).
Proof. constructor; intros; lia. Qed.

Section Groups.
Context {T : Type} (size : Z) (compare : Comparison T).
Hypothesis Horder : total_order compare.
#[local] Hint Extern 0 (Store (list _) _) =>
  exact (list_store size) : typeclass_instances.

(* the network of a group of four to eight items gives its stable sort *)
Lemma network_stable_sort (pre l post : list T) (range : Range) :
  fits size (pre ++ l ++ post) ->
  (4 <= length l <= 8)%nat ->
  start range = Z.of_nat (length pre) ->
  end_ range = Z.of_nat (length pre + length l) ->
  exists order',
    run_network (network_of (Range_length range)) (pre ++ l ++ post) size
      range compare [0; 1; 2; 3; 4; 5; 6; 7]
    = Done (pre ++ stable_sort compare l ++ post, order').
Proof.
  intros Hfit Hn Hs He.
  assert (Hbound : Z.of_nat (length (pre ++ l ++ post)) < SIZE_MAX1).
  { destruct Hfit as [Hs0 Hfit]. nia. }
  rewrite !length_app in Hbound.
  assert (HR : Range_length range = Z.of_nat (length l)).
  { unfold Range_length. rewrite Hs, He. rewrite sub_small; lia. }
  rewrite HR.
  set (order0 := map Z.of_nat (seq 0 8)).
  change [0; 1; 2; 3; 4; 5; 6; 7] with order0.
  set (keys := combine l order0).
  assert (Hkl : length keys = length l).
  { unfold keys. rewrite length_combine. unfold order0.
    rewrite length_map, length_seq. lia. }
  assert (Hfst : map fst keys = l).
  { unfold keys. apply map_fst_combine. unfold order0.
    rewrite length_map, length_seq. lia. }
  assert (Hsnd : map snd keys = firstn (length l) order0)
    by (unfold keys; apply map_snd_combine).
  assert (Hord : order0 = map snd keys ++ skipn (length l) order0)
    by (rewrite Hsnd; symmetry; apply firstn_skipn).
  set (net := network_of (Z.of_nat (length l))).
  set (keys' := exchanges (swaps compare) net keys).
  assert (Hrun : run_network net (pre ++ l ++ post) size range compare order0
                 = Done (pre ++ map fst keys' ++ post,
                         map snd keys' ++ skipn (length l) order0)).
  { rewrite Hord at 1. rewrite <- Hfst at 1.
    apply run_network_exchanges; auto.
    - now rewrite Hfst.
    - rewrite Hkl. now apply network_of_within. }
  assert (Hperm : Permutation keys keys') by apply exchanges_perm.
  assert (Hkeys : StronglySorted (fun k1 k2 : T * Z => snd k1 < snd k2) keys)
    by apply combine_seq_sorted.
  assert (Hnd : NoDup (map snd keys')).
  { eapply Permutation_NoDup; [apply Permutation_map; exact Hperm |].
    rewrite Hsnd.
    apply (NoDup_app_remove_r _ (skipn (length l) order0)).
    rewrite firstn_skipn. unfold order0. cbn [map seq Z.of_nat].
    repeat (apply NoDup_cons; [cbn [In]; lia |]). apply NoDup_nil. }
  assert (Hpair : forall i j ki kj, (i < j)%nat ->
            nth_error keys' i = Some ki -> nth_error keys' j = Some kj ->
            compare (fst ki) (fst kj) <= 0 /\
            (compare (fst ki) (fst kj) = 0 -> snd ki < snd kj)).
  { intros i j ki kj Hij Ei Ej.
    pose proof (exchanges_sorted compare Horder (length l) keys Hn Hkl
                  i j ki kj Hij Ei Ej) as Hsorted.
    apply swaps_false in Hsorted.
    order_facts Horder (fst ki) (fst kj) (fst ki).
    assert (Hne : snd ki <> snd kj).
    { intros Heq.
      assert (i = j); [| lia].
      apply (proj1 (NoDup_nth_error (map snd keys')) Hnd).
      - rewrite length_map. apply nth_error_Some. congruence.
      - rewrite !nth_error_map, Ei, Ej. cbn. now rewrite Heq. }
    lia. }
  assert (E : map fst keys' = stable_sort compare l).
  { apply (stable_sort_unique compare Horder).
    - apply StronglySorted_pairwise. intros i j x y Hij Hx Hy.
      rewrite nth_error_map in Hx, Hy.
      destruct (nth_error keys' i) as [ki|] eqn:Ei; [| discriminate].
      destruct (nth_error keys' j) as [kj|] eqn:Ej; [| discriminate].
      cbn in Hx, Hy. injection Hx as <-. injection Hy as <-.
      exact (proj1 (Hpair i j ki kj Hij Ei Ej)).
    - intros v.
      replace (filter (equal_to compare v) l)
        with (filter (equal_to compare v) (map fst keys))
        by (now rewrite Hfst).
      rewrite !filter_map_fst. f_equal.
      apply (sorted_perm_unique _ (@snd_sub_total_order T)).
      + unfold strictly_sorted.
        eapply (StronglySorted_filter_cond _ _ _ keys); [| exact Hkeys].
        intros x y H _ _. cbv beta in *. lia.
      + unfold sorted_list.
        apply (StronglySorted_filter_cond _
                 (fun ki kj => compare (fst ki) (fst kj) <= 0 /\
                    (compare (fst ki) (fst kj) = 0 -> snd ki < snd kj))).
        * intros x y [_ H] Px Py.
          unfold equal_to in Px, Py. apply Z.eqb_eq in Px, Py.
          apply (compare_eq_sym compare Horder) in Px.
          pose proof (compare_eq_trans compare Horder _ _ _ Px Py) as E0.
          specialize (H E0). cbv beta. lia.
        * apply StronglySorted_pairwise. exact Hpair.
      + apply Permutation_filter_same. now apply Permutation_sym. }
  rewrite E in Hrun. eexists. exact Hrun.
Qed.
(* every group handed out by the iterator is sorted in its place *)
Lemma sort_groups_spec (rs : list Range) :
  forall (fuel0 fuel : nat) (array : list T) (it : WikiIterator) (lo hi : Z),
    emitted fuel0 it = Some rs ->
    consecutive lo rs hi -> 0 <= lo -> hi <= Z.of_nat (length array) ->
    Forall (fun r => 4 <= end_ r - start r <= 8) rs ->
    fits size array ->
    (length rs <= fuel)%nat ->
    exists array' it',
      sort_groups fuel array size compare it = Done (array', it') /\
      length array' = length array /\
      Forall (fun r => slice array' (start r) (end_ r)
                       = stable_sort compare (slice array (start r) (end_ r)))
        rs /\
      forall lo' hi', 0 <= lo' <= hi' -> hi' <= Z.of_nat (length array) ->
        hi' <= lo \/ hi <= lo' ->
        slice array' lo' hi' = slice array lo' hi'.
Proof.
  induction rs as [|r rs IH];
    intros fuel0 fuel array it lo hi Hem Hcons Hlo Hhi Hlens Hfit Hfuel.
  - assert (Hfin : WikiIterator_finished it = true).
    { destruct fuel0; cbn [emitted] in Hem;
        destruct (WikiIterator_finished it); try discriminate; auto.
      destruct (WikiIterator_nextRange it) as [r0 it1].
      destruct (emitted fuel0 it1); discriminate. }
    exists array, it.
    split; [destruct fuel; cbn [sort_groups]; now rewrite Hfin |].
    split; [reflexivity |]. split; [constructor | reflexivity].
  - destruct fuel0 as [|fuel0]; cbn [emitted] in Hem;
      destruct (WikiIterator_finished it) eqn:Hfin; try discriminate.
    destruct (WikiIterator_nextRange it) as [r0 it1] eqn:E1.
    destruct (emitted fuel0 it1) as [l0|] eqn:E2; [| discriminate].
    injection Hem as -> ->.
    cbn [consecutive] in Hcons. destruct Hcons as (Hs & Hle & Hcons).
    pose proof (Forall_inv Hlens) as Hr. cbv beta in Hr.
    pose proof (Forall_inv_tail Hlens) as Hlens'.
    assert (Hhi' : end_ r <= hi).
    { clear - Hcons Hle. revert Hcons. generalize (end_ r).
      induction rs as [|q rs IHr]; cbn [consecutive]; intros z H; [lia |].
      destruct H as (H1 & H2 & H3). specialize (IHr _ H3). lia. }
    destruct fuel as [|fuel]; [cbn [length] in Hfuel; lia |].
    cbn [length] in Hfuel.
    destruct (window_parts array (start r) (Z.to_nat (end_ r - start r)))
      as (pre & old & post & Earr & Hpre & Hold & Eold); [lia | lia |].
    replace (start r + Z.of_nat (Z.to_nat (end_ r - start r))) with (end_ r)
      in Eold by lia.
    destruct (network_stable_sort pre old post r) as [order' Hnet].
    { now rewrite <- Earr. }
    { lia. }
    { lia. }
    { lia. }
    rewrite <- Earr in Hnet.
    cbn [sort_groups]. rewrite Hfin, E1, Hnet.
    cbn [bind].
    assert (Hsl : length (stable_sort compare old) = length old).
    { symmetry. apply Permutation_length. apply stable_sort_perm. }
    assert (E' : pre ++ stable_sort compare old ++ post
                 = splice array (start r) (stable_sort compare old)).
    { transitivity (splice (pre ++ old ++ post) (start r)
                      (stable_sort compare old));
        [| now rewrite <- Earr].
      now rewrite (splice_parts pre old post). }
    rewrite E'.
    set (array1 := splice array (start r) (stable_sort compare old)) in *.
    assert (Hl1 : length array1 = length array).
    { unfold array1. rewrite splice_length; lia. }
    destruct (IH fuel0 fuel array1 it1 (end_ r) hi)
      as (array' & it' & Hrun & Hl' & Hall & Hframe); auto; try lia.
    { eapply fits_length; [exact Hfit | exact Hl1]. }
    exists array', it'. split; [exact Hrun |].
    split; [lia |].
    split.
    + constructor.
      * rewrite Hframe by lia.
        unfold array1. rewrite slice_splice by lia. now rewrite Eold.
      * assert (Hin : forall q, In q rs ->
                  end_ r <= start q /\ start q <= end_ q /\ end_ q <= hi).
        { clear - Hcons. revert Hcons. generalize (end_ r).
          induction rs as [|q0 rs IHr]; cbn [consecutive];
            intros z H q Hq; [destruct Hq |].
          destruct H as (H1 & H2 & H3).
          assert (Hz : end_ q0 <= hi).
          { clear - H3. revert H3. generalize (end_ q0).
            induction rs as [|q1 rs IHr]; cbn [consecutive]; intros z H;
              [lia |].
            destruct H as (H1 & H2 & H3). specialize (IHr _ H3). lia. }
          destruct Hq as [<- | Hq]; [lia |].
          specialize (IHr _ H3 q Hq). lia. }
        rewrite Forall_forall in Hall. apply Forall_forall. intros q Hq.
        rewrite (Hall q Hq). f_equal.
        destruct (Hin q Hq) as (H1 & H2 & H3).
        unfold array1. apply slice_splice_after; lia.
    + intros lo' hi' H1 H2 H3.
      rewrite Hframe by lia.
      unfold array1.
      destruct H3 as [H3 | H3].
      * apply slice_splice_before; lia.
      * apply slice_splice_after; lia.
Qed.
End Groups.

(* the ranges in a row lie in order between their ends *)
Lemma consecutive_in (rs : list Range) :
  forall lo hi r, consecutive lo rs hi -> In r rs ->
    lo <= start r /\ start r <= end_ r /\ end_ r <= hi.
Proof.
  induction rs as [|q rs IH]; intros lo hi r H Hin; [destruct Hin |].
  cbn [consecutive] in H. destruct H as (H1 & H2 & H3).
  assert (Hz : end_ q <= hi).
  { clear - H3. revert H3. generalize (end_ q).
    induction rs as [|q1 rs IHr]; cbn [consecutive]; intros z H; [lia |].
    destruct H as (H1 & H2 & H3). specialize (IHr _ H3). lia. }
  destruct Hin as [<- | Hin]; [lia |].
  specialize (IH _ _ _ H3 Hin). lia.
Qed.

(* the groups of the first level *)
Lemma first_level_groups (N : Z) :
  4 <= N < SIZE_MAX1 ->
  exists it0 rs,
    WikiIterator_new N 4 = Done it0 /\
    emitted (Z.to_nat N) (WikiIterator_begin it0) = Some rs /\
    consecutive 0 rs N /\
    Forall (fun r => 4 <= end_ r - start r <= 8) rs /\
    (length rs <= Z.to_nat N)%nat.
Proof.
  intros HN.
  destruct (WikiIterator_new_spec N HN) as (it0 & Hnew & Hat0 & _ & _).
  set (d := Z.log2 N - 2) in *.
  assert (Hlog : 2 <= Z.log2 N).
  { change 2 with (Z.log2 4) at 1. apply Z.log2_le_mono. lia. }
  assert (Hd : 0 <= d) by (unfold d; lia).
  assert (HD : 0 < 2 ^ d) by (apply Z.pow_pos_nonneg; lia).
  pose proof (WikiIterator_begin_spec N (2 ^ d) 1 it0 Hat0) as Hout.
  assert (HDN : 2 ^ d <= N) by (destruct Hat0 as (_ & _ & H & _); lia).
  destruct (emitted_spec N (2 ^ d) 1 (2 ^ d) ltac:(lia) ltac:(lia)
              ltac:(lia) (Z.to_nat (2 ^ d)) 0 (WikiIterator_begin it0)
              (Z.to_nat N) Hout ltac:(lia) ltac:(lia) ltac:(lia))
    as (rs & Hrs & Hcons & Hall).
  change (decimal (WikiIterator_begin it0)) with 0 in Hcons.
  change (decimal_step (WikiIterator_begin it0)) with (decimal_step it0)
    in Hall.
  exists it0, rs. split; [exact Hnew |]. split; [exact Hrs |].
  split; [exact Hcons |].
  assert (Hstep : 4 <= decimal_step it0 <= 7).
  { destruct Hat0 as (_ & _ & H1 & H2 & H3). nia. }
  assert (Hlens : Forall (fun r => 4 <= end_ r - start r <= 8) rs).
  { rewrite Forall_forall in Hall. apply Forall_forall. intros r Hr.
    destruct (consecutive_in rs 0 N r Hcons Hr) as (H1 & H2 & H3).
    specialize (Hall r Hr). unfold Range_length in Hall.
    rewrite sub_small in Hall by lia. lia. }
  split; [exact Hlens |].
  destruct (consecutive_total rs 0 N Hcons ltac:(lia) ltac:(lia)) as [_ Htot].
  assert (Hsum : Z.of_nat (length rs) <= total_length rs).
  { clear - Hlens Hcons HN.
    assert (Hb : Forall (fun r => 0 <= start r /\ end_ r < SIZE_MAX1) rs).
    { apply Forall_forall. intros r Hr.
      destruct (consecutive_in rs 0 N r Hcons Hr) as (H1 & H2 & H3). lia. }
    clear Hcons.
    induction rs as [|r rs IH]; cbn [length total_length fold_right]; [lia |].
    fold (total_length rs).
    pose proof (Forall_inv Hlens) as H1. pose proof (Forall_inv Hb) as H2.
    cbv beta in H1, H2.
    specialize (IH (Forall_inv_tail Hlens) (Forall_inv_tail Hb)).
    unfold Range_length. rewrite sub_small by lia. lia. }
  lia.
Qed.

(** X10. For a comparator with total-order semantics and an array of at
    least four items, the first phase of [new_WikiSort], [sort_groups] run
    from the beginning of the iterator, sorts each group of four to eight
    items that the iterator hands out: the groups are next to each other
    from the first item to the last, and each group is left holding the
    stable sort of the items it held. *)
Theorem sort_groups_sorts_each_group {T : Type} (size : Z)
    (compare : Comparison T) (array : list T) (fuel : nat) :
  total_order compare ->
  fits size array -> (4 <= length array)%nat ->
  (length array <= fuel)%nat ->
  exists it0 groups array' it',
    WikiIterator_new (Z.of_nat (length array)) 4 = Done it0 /\
    emitted (length array) (WikiIterator_begin it0) = Some groups /\
    consecutive 0 groups (Z.of_nat (length array)) /\
    sort_groups (ST := list_store size) fuel array size compare
      (WikiIterator_begin it0) = Done (array', it') /\
    length array' = length array /\
    Forall (fun r =>
              4 <= end_ r - start r <= 8 /\
              slice array' (start r) (end_ r)
              = stable_sort compare (slice array (start r) (end_ r)))
      groups.
Proof.
  intros Horder Hfit Hlen Hfuel.
  assert (Hbound : Z.of_nat (length array) < SIZE_MAX1).
  { destruct Hfit as [Hs0 Hfit]. nia. }
  destruct (first_level_groups (Z.of_nat (length array)) ltac:(lia))
    as (it0 & rs & Hnew & Hrs & Hcons & Hlens & Hcount).
  rewrite Nat2Z.id in Hrs, Hcount.
  destruct (sort_groups_spec size compare Horder rs (length array) fuel array
              (WikiIterator_begin it0) 0 (Z.of_nat (length array)))
    as (array' & it' & Hrun & Hl' & Hall & _); auto; try lia.
  exists it0, rs, array', it'.
  repeat (split; [assumption |]).
  rewrite Forall_forall in Hall, Hlens. apply Forall_forall.
  intros r Hr. split; [now apply Hlens | now apply Hall].
Qed.

Lemma sort_groups_sorts_each_group_witness :
  exists it0 groups array' it',
    WikiIterator_new (Z.of_nat (length [9; 3; 5; 3; 8; 1; 7; 2; 6])) 4
    = Done it0 /\
    emitted (length [9; 3; 5; 3; 8; 1; 7; 2; 6]) (WikiIterator_begin it0)
    = Some groups /\
    consecutive 0 groups (Z.of_nat (length [9; 3; 5; 3; 8; 1; 7; 2; 6])) /\
    sort_groups (ST := list_store 8) 9 [9; 3; 5; 3; 8; 1; 7; 2; 6] 8 Z.sub
      (WikiIterator_begin it0) = Done (array', it') /\
    length array' = length [9; 3; 5; 3; 8; 1; 7; 2; 6] /\
    Forall (fun r =>
              4 <= end_ r - start r <= 8 /\
              slice array' (start r) (end_ r)
              = stable_sort Z.sub
                  (slice [9; 3; 5; 3; 8; 1; 7; 2; 6] (start r) (end_ r)))
      groups.
Proof.
  apply (sort_groups_sorts_each_group 8 Z.sub [9; 3; 5; 3; 8; 1; 7; 2; 6] 9).
  - exact Z_sub_total_order.
  - split; [lia | vm_compute; reflexivity].
  - simpl. lia.
  - simpl. lia.
Defined.

(** X11. For a comparator with total-order semantics, [new_WikiSort] on
    an array of four to seven items returns (given fuel for one group) the
    stable sort of the array, by one sorting network and no merging: the
    result is sorted, it is made of the items of the array, and the items
    that compare equal to any given one keep the order they had. *)
Theorem new_WikiSort_one_group {T : Type} (size : Z)
    (compare : Comparison T) (array : list T) (fuel : nat) :
  total_order compare ->
  fits size array -> (4 <= length array < 8)%nat ->
  (1 <= fuel)%nat ->
  exists sorted,
    new_WikiSort (ST := list_store size) fuel array
      (Z.of_nat (length array)) size compare = Done sorted /\
    sorted_list compare sorted /\ Permutation array sorted /\
    (forall v, filter (equal_to compare v) sorted
               = filter (equal_to compare v) array).
Proof.
  intros Horder Hfit Hlen Hfuel.
  assert (Hbound : Z.of_nat (length array) < SIZE_MAX1).
  { destruct Hfit as [Hs0 Hfit]. nia. }
  destruct (first_level_groups (Z.of_nat (length array)) ltac:(lia))
    as (it0 & rs & Hnew & Hrs & Hcons & Hlens & Hcount).
  rewrite Nat2Z.id in Hrs, Hcount.
  assert (Hone : rs = [Range_new 0 (Z.of_nat (length array))]).
  { destruct rs as [|r [|q rs]].
    - cbn [consecutive] in Hcons. lia.
    - cbn [consecutive] in Hcons. destruct Hcons as (H1 & H2 & H3).
      destruct r as [s e]. cbn [start end_] in *. now subst.
    - exfalso.
      pose proof (Forall_inv Hlens) as H1.
      pose proof (Forall_inv (Forall_inv_tail Hlens)) as H2.
      cbv beta in H1, H2.
      cbn [consecutive] in Hcons.
      destruct Hcons as (H3 & H4 & H5 & H6 & H7).
      assert (Hz : end_ q <= Z.of_nat (length array)).
      { clear - H7. revert H7. generalize (end_ q).
        induction rs as [|q1 rs IHr]; cbn [consecutive]; intros z H; [lia |].
        destruct H as (H1 & H2 & H3). specialize (IHr _ H3). lia. }
      lia. }
  subst rs.
  destruct (sort_groups_spec size compare Horder _ (length array) fuel array
              (WikiIterator_begin it0) 0 (Z.of_nat (length array)) Hrs)
    as (array' & it' & Hrun & Hl' & Hall & _); auto;
    try (cbn [length]; lia).
  pose proof (Forall_inv Hall) as Hsorted. cbn [start end_] in Hsorted.
  rewrite slice_all in Hsorted.
  rewrite <- Hl', slice_all in Hsorted.
  exists (stable_sort compare array).
  split.
  { unfold new_WikiSort.
    replace (Z.of_nat (length array) <? 4) with false
      by (symmetry; apply Z.ltb_ge; lia).
    rewrite Hnew. cbn [bind]. rewrite Hrun. cbn [bind].
    replace (Z.of_nat (length array) <? 8) with true
      by (symmetry; apply Z.ltb_lt; lia).
    now rewrite Hsorted. }
  split; [now apply stable_sort_sorted |].
  split; [apply stable_sort_perm |].
  intros v. now apply stable_sort_stable.
Qed.

Lemma new_WikiSort_one_group_witness :
  exists sorted,
    new_WikiSort (ST := list_store 8) 1 [5; 2; 4; 3; 1; 3]
      (Z.of_nat (length [5; 2; 4; 3; 1; 3])) 8 (fun x y => x / 2 - y / 2)
    = Done sorted /\
    sorted_list (fun x y => x / 2 - y / 2) sorted /\
    Permutation [5; 2; 4; 3; 1; 3] sorted /\
    (forall v, filter (equal_to (fun x y => x / 2 - y / 2) v) sorted
               = filter (equal_to (fun x y => x / 2 - y / 2) v)
                   [5; 2; 4; 3; 1; 3]).
Proof.
  apply (new_WikiSort_one_group 8 (fun x y => x / 2 - y / 2)
           [5; 2; 4; 3; 1; 3] 1).
  - constructor; intros; lia.
  - split; [lia | vm_compute; reflexivity].
  - simpl. lia.
  - lia.
Defined.

(** * The comparison of the tests *)

Lemma to_int_small (d : Z) :
  - 2 ^ 31 <= d < 2 ^ 31 -> to_int (wrap d) = d.
Proof.
  intros H. unfold to_int, wrap, SIZE_MAX1.
  assert (E : (d mod 2 ^ 64) mod 2 ^ 32 = d mod 2 ^ 32).
  { apply Z.mod_mod_divide. exists (2 ^ 32). reflexivity. }
  cbv zeta. rewrite E.
  destruct (Z_lt_ge_dec d 0) as [Hneg | Hpos].
  - assert (E2 : d mod 2 ^ 32 = d + 2 ^ 32).
    { symmetry. apply (Z.mod_unique_pos _ _ (-1)); lia. }
    rewrite E2.
    replace (d + 2 ^ 32 <? 2 ^ 31) with false
      by (symmetry; apply Z.ltb_ge; lia).
    lia.
  - rewrite Z.mod_small by lia.
    replace (d <? 2 ^ 31) with true by (symmetry; apply Z.ltb_lt; lia).
    reflexivity.
Qed.

(** X12. On two items whose values are below [2 ^ 31], [new_compare]
    returns the difference of the two values as it is, so that it is
    negative, zero or positive as the first value is below, equal to or
    above the second, and [TestCompare] tells whether the first value is
    below the second. *)
Theorem new_compare_exact_below_2_31 (item1 item2 : Test) :
  0 <= value item1 < 2 ^ 31 -> 0 <= value item2 < 2 ^ 31 ->
  new_compare item1 item2 = value item1 - value item2 /\
  (TestCompare item1 item2 = true <-> value item1 < value item2).
Proof.
  intros H1 H2.
  assert (E : new_compare item1 item2 = value item1 - value item2).
  { unfold new_compare, sub. apply to_int_small. lia. }
  split; [exact E |].
  unfold TestCompare. rewrite E. rewrite Z.ltb_lt. lia.
Qed.

Lemma new_compare_exact_below_2_31_witness :
  new_compare {| value := 7; index := 0 |} {| value := 2147483647; index := 1 |}
  = value {| value := 7; index := 0 |}
    - value {| value := 2147483647; index := 1 |} /\
  (TestCompare {| value := 7; index := 0 |}
     {| value := 2147483647; index := 1 |} = true <->
   value {| value := 7; index := 0 |}
   < value {| value := 2147483647; index := 1 |}).
Proof.
  apply (new_compare_exact_below_2_31 {| value := 7; index := 0 |}
           {| value := 2147483647; index := 1 |}).
  - vm_compute. split; [discriminate | reflexivity].
  - vm_compute. split; [discriminate | reflexivity].
Defined.

(** X13. On all the values a [size_t] holds, [new_compare] does not have
    total-order semantics, since the difference is cut to an [int]: the
    values 0, [2 ^ 31 - 1] and [2 ^ 32 - 2] compare as going up from the
    first to the second and from the second to the third, but as going
    down from the first to the third. *)
Theorem new_compare_not_total_order :
  new_compare {| value := 0; index := 0 |}
    {| value := 2 ^ 31 - 1; index := 1 |} < 0 /\
  new_compare {| value := 2 ^ 31 - 1; index := 1 |}
    {| value := 2 ^ 32 - 2; index := 2 |} < 0 /\
  new_compare {| value := 0; index := 0 |}
    {| value := 2 ^ 32 - 2; index := 2 |} > 0 /\
  ~ total_order new_compare.
Proof.
  split; [vm_compute; reflexivity |].
  split; [vm_compute; reflexivity |].
  split; [vm_compute; reflexivity |].
  intros [_ Htrans].
  specialize (Htrans {| value := 0; index := 0 |}
                {| value := 2 ^ 31 - 1; index := 1 |}
                {| value := 2 ^ 32 - 2; index := 2 |}).
  vm_compute in Htrans.
  apply Htrans; [discriminate | discriminate | reflexivity].
Qed.

(** * The check of the result of a sort *)

(* the loop of [WikiVerify] from the item [x] on *)
Lemma WikiVerify_for_spec (compare : Comparison Test) (pre post : list Test)
    (range : Range) :
  forall (l2 l1 : list Test) (x : Test) (index0 : Z) (fuel : nat),
    Z.of_nat (length (pre ++ l1 ++ x :: l2 ++ post)) + 1 < SIZE_MAX1 ->
    end_ range = Z.of_nat (length pre + length l1 + 1 + length l2) ->
    index0 = Z.of_nat (length pre + length l1 + 1) ->
    (length l2 <= fuel)%nat ->
    WikiVerify_for fuel (pre ++ l1 ++ x :: l2 ++ post) range compare index0
    = Done (all_in_stable_order compare (x :: l2)).
Proof.
  induction l2 as [|y l2 IH]; intros l1 x index0 fuel Hb He -> Hf.
  - cbn [length] in He.
    assert (E : (Z.of_nat (length pre + length l1 + 1) <? end_ range) = false)
      by (apply Z.ltb_ge; lia).
    destruct fuel; cbn [WikiVerify_for]; rewrite E; reflexivity.
  - destruct fuel as [|fuel]; [cbn [length] in Hf; lia |].
    cbn [length] in He, Hf. lengths.
    cbn [WikiVerify_for].
    replace (Z.of_nat (length pre + length l1 + 1) <? end_ range) with true
      by (symmetry; apply Z.ltb_lt; lia).
    rewrite sub_small by lia.
    replace (Z.to_nat (Z.of_nat (length pre + length l1 + 1) - 1))
      with (length (pre ++ l1)) by (rewrite length_app; lia).
    replace (Z.to_nat (Z.of_nat (length pre + length l1 + 1)))
      with (length (pre ++ l1 ++ [x])) by (rewrite !length_app; cbn; lia).
    replace (pre ++ l1 ++ x :: (y :: l2) ++ post)
      with ((pre ++ l1) ++ x :: (y :: l2 ++ post))
      by (now rewrite <- app_assoc).
    rewrite nth_error_exact. cbn [lift bind].
    replace ((pre ++ l1) ++ x :: (y :: l2 ++ post))
      with ((pre ++ l1 ++ [x]) ++ y :: (l2 ++ post))
      by (rewrite <- !app_assoc; reflexivity).
    rewrite nth_error_exact. cbn [lift bind].
    change (all_in_stable_order compare (x :: y :: l2))
      with (in_stable_order compare x y
            && all_in_stable_order compare (y :: l2)).
    fold (in_stable_order compare x y).
    destruct (in_stable_order compare x y); cbn [negb andb]; [| reflexivity].
    replace ((pre ++ l1 ++ [x]) ++ y :: (l2 ++ post))
      with (pre ++ (l1 ++ [x]) ++ y :: l2 ++ post)
      by (rewrite <- !app_assoc; reflexivity).
    apply IH.
    + rewrite !length_app. cbn [length]. rewrite !length_app. lia.
    + rewrite length_app. cbn [length]. lia.
    + rewrite add_small by lia. rewrite length_app. cbn [length]. lia.
    + lia.
Qed.

Lemma WikiVerify_spec (compare : Comparison Test) (pre l post : list Test)
    (range : Range) (fuel : nat) :
  Z.of_nat (length (pre ++ l ++ post)) + 1 < SIZE_MAX1 ->
  start range = Z.of_nat (length pre) ->
  end_ range = Z.of_nat (length pre + length l) ->
  (length l <= fuel)%nat ->
  WikiVerify fuel (pre ++ l ++ post) range compare
  = Done (all_in_stable_order compare l).
Proof.
  intros Hb Hs He Hf. unfold WikiVerify. lengths.
  destruct l as [|x l].
  - cbn [length] in *.
    assert (E : (start range +% 1 <? end_ range) = false).
    { apply Z.ltb_ge. rewrite add_small by lia. lia. }
    destruct fuel; cbn [WikiVerify_for]; rewrite E; reflexivity.
  - cbn [length] in *.
    apply (WikiVerify_for_spec compare pre post range l [] x); auto.
    + cbn [app length]. lengths. lia.
    + cbn [length]. lia.
    + cbn [length]. rewrite add_small by lia. lia.
    + lia.
Qed.

Section StableOrder.
Variable compare : Comparison Test.
Hypothesis Horder : total_order compare.

(* two items in order, the earlier first when they compare equal *)
Definition stably_before (x y : Test) : Prop :=
  compare x y <= 0 /\ (compare x y = 0 -> index x < index y).

Lemma in_stable_order_spec (x y : Test) :
  in_stable_order compare x y = true <-> stably_before x y.
Proof.
  unfold in_stable_order, stably_before.
  rewrite orb_true_iff, andb_true_iff, Z.ltb_lt, Z.geb_le, Z.gtb_lt.
  flips Horder x y. lia.
Qed.

Lemma stably_before_trans (x y z : Test) :
  stably_before x y -> stably_before y z -> stably_before x z.
Proof.
  unfold stably_before. intros [H1 H2] [H3 H4].
  pose proof (le_transitive _ Horder x y z H1 H3) as H5.
  split; [exact H5 |]. intros E.
  order_facts Horder x y z.
  assert (compare x y = 0) by lia. assert (compare y z = 0) by lia. lia.
Qed.

Lemma all_in_stable_order_spec (l : list Test) :
  all_in_stable_order compare l = true <-> StronglySorted stably_before l.
Proof.
  split.
  - intros H. apply Sorted_StronglySorted.
    + intros x y z. apply stably_before_trans.
    + induction l as [|x l IH]; [constructor |].
      destruct l as [|y l]; [repeat constructor |].
      cbn [all_in_stable_order] in H. apply andb_true_iff in H.
      destruct H as [H1 H2].
      constructor; [now apply IH |].
      constructor. now apply in_stable_order_spec.
  - intros H. apply StronglySorted_Sorted in H.
    induction l as [|x l IH]; [reflexivity |].
    destruct l as [|y l]; [reflexivity |].
    cbn [all_in_stable_order]. apply andb_true_iff.
    apply Sorted_inv in H. destruct H as [H1 H2].
    split; [| now apply IH].
    apply in_stable_order_spec. now inversion H2.
Qed.

Lemma index_sub_total_order :
  total_order (fun x y : Test => index x - index y).
Proof. constructor; intros; lia. Qed.

(* a sorted list whose items that compare equal come with their indexes
   going up *)
Lemma stable_pairs (a : list Test) :
  sorted_list compare a ->
  (forall v, StronglySorted (fun x y => index x < index y)
               (filter (equal_to compare v) a)) ->
  StronglySorted stably_before a.
Proof.
  induction a as [|x a IH]; intros Hs Hf; constructor.
  - apply IH.
    + now apply StronglySorted_inv in Hs.
    + intros v. specialize (Hf v). cbn [filter] in Hf.
      destruct (equal_to compare v x); [| exact Hf].
      now apply StronglySorted_inv in Hf.
  - apply StronglySorted_inv in Hs. destruct Hs as [_ Hx].
    rewrite Forall_forall in Hx. apply Forall_forall. intros y Hy.
    split; [now apply Hx |]. intros E.
    specialize (Hf x). cbn [filter] in Hf.
    rewrite (equal_to_refl compare Horder) in Hf.
    apply StronglySorted_inv in Hf. destruct Hf as [_ Hf].
    rewrite Forall_forall in Hf. apply Hf.
    apply filter_In. split; [exact Hy |].
    unfold equal_to. now apply Z.eqb_eq.
Qed.

(* the test holds all along a list exactly when it is the stable sort *)
Lemma stable_order_iff (input a : list Test) :
  indexes_ascend input -> Permutation input a ->
  (all_in_stable_order compare a = true <-> a = stable_sort compare input).
Proof.
  intros Hidx Hperm.
  assert (Hin : forall v, StronglySorted (fun x y => index x < index y)
                            (filter (equal_to compare v) input)).
  { intros v.
    apply (StronglySorted_filter_cond _ (fun x y => index x < index y));
      auto. }
  rewrite all_in_stable_order_spec. split.
  - intros Hs. apply (stable_sort_unique compare Horder).
    + unfold sorted_list. clear - Hs.
      induction Hs as [|x l Hs' IH Hx]; constructor; auto.
      eapply Forall_impl; [| exact Hx]. intros y [H _]. exact H.
    + intros v.
      apply (sorted_perm_unique _ index_sub_total_order).
      * unfold strictly_sorted.
        eapply StronglySorted_filter_cond; [| exact Hidx].
        intros x y H _ _. cbv beta in *. lia.
      * unfold sorted_list.
        eapply StronglySorted_filter_cond; [| exact Hs].
        intros x y [H1 H2] Px Py.
        unfold equal_to in Px, Py. apply Z.eqb_eq in Px, Py.
        apply (compare_eq_sym compare Horder) in Px.
        pose proof (compare_eq_trans compare Horder _ _ _ Px Py) as E0.
        specialize (H2 E0). cbv beta. lia.
      * apply Permutation_filter_same. now apply Permutation_sym.
  - intros ->. apply stable_pairs.
    + now apply stable_sort_sorted.
    + intros v. rewrite (stable_sort_stable compare Horder). apply Hin.
Qed.
End StableOrder.

(** X14. For a comparator on the items of the tests with total-order
    semantics, and an input whose items carry index fields that go up
    (as [main] sets them): on a range that holds a rearrangement of the
    input, [WikiVerify] (given fuel for the length of the range) returns
    without failing its assertion exactly when the range holds the stable
    sort of the input; on a range of no items or one item it always
    returns. *)
Theorem WikiVerify_accepts_the_stable_sort (compare : Comparison Test)
    (input pre a post : list Test) (range : Range) (fuel : nat) :
  total_order compare ->
  indexes_ascend input -> Permutation input a ->
  Z.of_nat (length (pre ++ a ++ post)) + 1 < SIZE_MAX1 ->
  start range = Z.of_nat (length pre) ->
  end_ range = Z.of_nat (length pre + length a) ->
  (length a <= fuel)%nat ->
  exists passed,
    WikiVerify fuel (pre ++ a ++ post) range compare = Done passed /\
    (passed = true <-> a = stable_sort compare input) /\
    ((length a <= 1)%nat -> passed = true).
Proof.
  intros Horder Hidx Hperm Hb Hs He Hf.
  exists (all_in_stable_order compare a).
  split; [now apply WikiVerify_spec |].
  split; [now apply stable_order_iff |].
  intros H. destruct a as [|x [|y a]]; cbn [length] in H; try lia;
    reflexivity.
Qed.

Example tagged_items_ascend :
  indexes_ascend (tagged_from 0 [5; 3; 5; 1]).
Proof.
  unfold indexes_ascend. cbn.
  repeat (constructor; [| repeat constructor; cbn; lia]). constructor.
Qed.

Example tagged_items_sorted :
  Permutation (tagged_from 0 [5; 3; 5; 1])
    [ {| value := 1; index := 3 |}; {| value := 3; index := 1 |};
      {| value := 5; index := 0 |}; {| value := 5; index := 2 |} ].
Proof.
  cbn.
  apply Permutation_sym.
  eapply perm_trans; [| apply Permutation_middle with (l1 := [_; _; _])].
  cbn [app]. constructor.
  eapply perm_trans; [| apply Permutation_middle with (l1 := [_])].
  cbn [app]. reflexivity.
Qed.

Lemma WikiVerify_accepts_the_stable_sort_witness :
  exists passed,
    WikiVerify 4
      ([] ++ [ {| value := 1; index := 3 |}; {| value := 3; index := 1 |};
               {| value := 5; index := 0 |}; {| value := 5; index := 2 |} ]
          ++ [])
      (Range_new 0 4) (fun x y => value x - value y) = Done passed /\
    (passed = true <->
     [ {| value := 1; index := 3 |}; {| value := 3; index := 1 |};
       {| value := 5; index := 0 |}; {| value := 5; index := 2 |} ]
     = stable_sort (fun x y => value x - value y)
         (tagged_from 0 [5; 3; 5; 1])) /\
    ((length [ {| value := 1; index := 3 |}; {| value := 3; index := 1 |};
               {| value := 5; index := 0 |}; {| value := 5; index := 2 |} ]
      <= 1)%nat -> passed = true).
Proof.
  apply (WikiVerify_accepts_the_stable_sort (fun x y => value x - value y)
           (tagged_from 0 [5; 3; 5; 1]) []
           [ {| value := 1; index := 3 |}; {| value := 3; index := 1 |};
             {| value := 5; index := 0 |}; {| value := 5; index := 2 |} ]
           [] (Range_new 0 4) 4).
  - constructor; intros; lia.
  - exact tagged_items_ascend.
  - exact tagged_items_sorted.
  - vm_compute. reflexivity.
  - reflexivity.
  - reflexivity.
  - simpl. lia.
Defined.

(** * The merges that copy: [MergeExternal] and [MergeInto] *)

(* settle the test of two item counts in the goal *)
Ltac eqb_is b :=
  match goal with
  | |- context [(?n =? ?m)%nat] =>
      replace (n =? m)%nat with b
        by (symmetry; first [apply Nat.eqb_eq | apply Nat.eqb_neq];
            lengths; lia)
  end.

(* the conditions of the next round of a loop *)
Ltac side :=
  auto; try discriminate;
  try (subst; app_norm; reflexivity);
  try match goal with
      | H : fits _ _ |- fits _ _ =>
          solve [eapply fits_length; [exact H |]; subst; lengths; lia]
      end;
  try (subst; f_equal; lengths; lia);
  try (lengths; lia).

(* the conditions of a copy of several items *)
Ltac copy_side :=
  auto; try solve [lengths; nia];
  try solve [subst; app_norm; reflexivity];
  try solve [subst; lengths; f_equal; f_equal; lia];
  try solve [subst; lengths; unwrap; lia].

(* a goal on a library call that succeeds *)
Ltac lift_some :=
  match goal with
  | |- lift ?m = Done ?r =>
      let E := fresh "E" in
      assert (E : m = Some r); [| rewrite E; reflexivity]
  end.

Section Copies.
Context {T : Type} (size : Z) (compare : Comparison T).
#[local] Hint Extern 0 (Store (list _) _) =>
  exact (list_store size) : typeclass_instances.

(* the pointer to the item after [p] *)
Lemma ptr_at (array p q : list T) (x : T) (off : Z) :
  array = p ++ x :: q -> fits size array ->
  off = size *% Z.of_nat (length p) ->
  ptr array off = Some x.
Proof. intros -> Hfit ->. now apply ptr_app. Qed.

(* one item copied from another object *)
Lemma memcpy_item (dst src p q u v : list T) (g x : T) (d s : Z) :
  dst = p ++ g :: q -> src = u ++ x :: v ->
  fits size dst -> fits size src ->
  d = size *% Z.of_nat (length p) -> s = size *% Z.of_nat (length u) ->
  memcpy dst d src s size = Some (p ++ x :: q).
Proof.
  intros Ed Es [Hs Hd] [_ Hsrc] -> ->. subst dst src. lengths.
  apply (memcpy_parts size _ _ p [g] q u [x] v); auto;
    try (cbn [length]; nia).
  cbn [length]. change (Z.of_nat 1) with 1. unwrap. lia.
Qed.

(* one item copied inside the object *)
Lemma memmove_item (array p q u v : list T) (g x : T) (d s : Z) :
  array = p ++ g :: q -> array = u ++ x :: v ->
  fits size array ->
  d = size *% Z.of_nat (length p) -> s = size *% Z.of_nat (length u) ->
  memmove array d s size = Some (p ++ x :: q).
Proof.
  intros Ed Es Hfit -> ->. cbn [memmove list_store]. unfold list_memmove.
  apply (memcpy_item array array p q u v g x); auto.
Qed.

(* the byte offset of the next item *)
Lemma offset_next (n : nat) :
  0 < size -> size * (Z.of_nat n + 1) < SIZE_MAX1 ->
  size *% Z.of_nat n +% size = size *% Z.of_nat (S n).
Proof. intros Hs Hn. unwrap. lia. Qed.

Lemma offset_eqb (n m : nat) :
  0 < size -> size * Z.of_nat n < SIZE_MAX1 ->
  size * Z.of_nat m < SIZE_MAX1 ->
  (size *% Z.of_nat n =? size *% Z.of_nat m) = (n =? m)%nat.
Proof.
  intros Hs Hn Hm. unwrap.
  destruct (Nat.eqb_spec n m) as [-> | Hne].
  - apply Z.eqb_refl.
  - apply Z.eqb_neq. nia.
Qed.

(* a copy of no bytes *)
Lemma memcpy_nothing (dst src : list T) (d s : Z) :
  memcpy dst d src s 0 = Some dst.
Proof. reflexivity. Qed.

(* the loop of [MergeExternal] and the copy after it: [done] is what has
   been merged, [gap] the places between the merged items and the items
   of [B] that are left, as many as there are items of [A] left in the
   cache *)
Lemma MergeExternal_while_spec (pre post crest : list T) :
  forall (fuel : nat) (a2 b2 done gap a1 array cache : list T)
         (A_index B_index A_last B_last insert_index : Z),
    a2 <> [] -> b2 <> [] ->
    array = pre ++ done ++ gap ++ b2 ++ post ->
    cache = a1 ++ a2 ++ crest ->
    fits size array -> fits size cache ->
    length gap = length a2 ->
    A_index = size *% Z.of_nat (length a1) ->
    B_index = size *% Z.of_nat (length pre + length done + length gap) ->
    A_last = size *% Z.of_nat (length a1 + length a2) ->
    B_last
    = size *% Z.of_nat (length pre + length done + length gap + length b2) ->
    insert_index = size *% Z.of_nat (length pre + length done) ->
    (length a2 + length b2 <= fuel)%nat ->
    ('(array1, A_index1, insert_index1) <-
       MergeExternal_while fuel array size compare cache
         A_index B_index A_last B_last insert_index ;;
     lift (memcpy array1 insert_index1 cache A_index1 (A_last -% A_index1)))
    = Done (pre ++ done ++ merge compare a2 b2 ++ post).
Proof.
  induction fuel as [|fuel IH];
    intros a2 b2 done gap a1 array cache A_index B_index A_last B_last
           insert_index Ha Hb Earr Ecache Hfit Hfitc Hgap EA EB EAl EBl Ei Hf.
  { destruct a2; [congruence | cbn in Hf; lia]. }
  destruct a2 as [|x a2']; [congruence |].
  destruct b2 as [|y b2']; [congruence |].
  destruct gap as [|g gap']; [discriminate |].
  pose proof Hfit as [Hs Hbound]. pose proof Hfitc as [_ Hboundc].
  rewrite Earr in Hbound. rewrite Ecache in Hboundc. lengths.
  cbn [MergeExternal_while].
  assert (E1 : ptr array B_index = Some y).
  { apply (ptr_at array (pre ++ done ++ g :: gap') (b2' ++ post)); auto.
    - rewrite Earr. app_norm. reflexivity.
    - rewrite EB. lengths. f_equal. lia. }
  assert (E2 : ptr cache A_index = Some x).
  { apply (ptr_at cache a1 (a2' ++ crest)); auto. }
  rewrite E1, E2. cbn [call bind].
  destruct (compare y x >=? 0) eqn:Ec.
  - (* the item of [A] goes in *)
    assert (E3 : memcpy array insert_index cache A_index size
                 = Some (pre ++ (done ++ [x]) ++ gap' ++ (y :: b2') ++ post)).
    { replace (pre ++ (done ++ [x]) ++ gap' ++ (y :: b2') ++ post)
        with ((pre ++ done) ++ x :: (gap' ++ (y :: b2') ++ post))
        by (app_norm; reflexivity).
      apply (memcpy_item array cache (pre ++ done) _ a1 (a2' ++ crest) g x);
        auto.
      - rewrite Earr. app_norm. reflexivity.
      - rewrite Ei. lengths. reflexivity. }
    rewrite E3. cbn [lift bind].
    assert (EA' : A_index +% size = size *% Z.of_nat (length a1 + 1)).
    { rewrite EA, offset_next by lia. f_equal. lia. }
    assert (Ei' : insert_index +% size
                  = size *% Z.of_nat (length pre + length (done ++ [x]))).
    { rewrite Ei, offset_next by lia. lengths. f_equal. lia. }
    rewrite EA', EAl.
    rewrite offset_eqb by lia.
    destruct a2' as [|x' a2''].
    + destruct gap'; [| discriminate].
      eqb_is true. cbn [bind].
      match goal with
      | |- context [memcpy _ _ _ _ (?u -% ?v)] =>
          replace (u -% v) with 0 by (cbn [length]; unwrap; lia)
      end.
      rewrite memcpy_nothing. cbn [lift merge]. rewrite Ec.
      f_equal. app_norm. destruct b2'; reflexivity.
    + eqb_is false.
      rewrite <- EAl.
      rewrite (IH (x' :: a2'') (y :: b2') (done ++ [x]) gap' (a1 ++ [x])
                 _ cache _ B_index A_last B_last _);
        [f_equal; cbn [merge]; rewrite Ec; app_norm; reflexivity | ..];
        side.
  - (* the item of [B] goes in *)
    assert (E4 : memmove array insert_index B_index size
                 = Some (pre ++ (done ++ [y]) ++ (gap' ++ [y]) ++ b2' ++ post)).
    { replace (pre ++ (done ++ [y]) ++ (gap' ++ [y]) ++ b2' ++ post)
        with ((pre ++ done) ++ y :: (gap' ++ (y :: b2') ++ post))
        by (app_norm; reflexivity).
      apply (memmove_item array (pre ++ done) _
               (pre ++ done ++ g :: gap') (b2' ++ post) g y); auto.
      - rewrite Earr. app_norm. reflexivity.
      - rewrite Earr. app_norm. reflexivity.
      - rewrite Ei. lengths. reflexivity.
      - rewrite EB. lengths. f_equal. lia. }
    rewrite E4. cbn [lift bind].
    assert (EB' : B_index +% size
                  = size *% Z.of_nat (length pre + length (done ++ [y])
                                      + length (gap' ++ [y]))).
    { rewrite EB, offset_next by lia. lengths. f_equal. lia. }
    assert (Ei' : insert_index +% size
                  = size *% Z.of_nat (length pre + length (done ++ [y]))).
    { rewrite Ei, offset_next by lia. lengths. f_equal. lia. }
    rewrite EB', EBl.
    rewrite offset_eqb by (lengths; lia).
    destruct b2' as [|y' b2''].
    + eqb_is true.
      cbn [bind]. rewrite Ei', EAl, EA.
      replace (merge compare (x :: a2') [y]) with (y :: x :: a2')
        by (cbn [merge]; now rewrite Ec).
      replace (pre ++ done ++ (y :: x :: a2') ++ post)
        with ((pre ++ done ++ [y]) ++ (x :: a2') ++ post)
        by (app_norm; reflexivity).
      lift_some.
      apply (memcpy_parts size _ _ (pre ++ done ++ [y]) (gap' ++ [y]) post
               a1 (x :: a2') crest); copy_side.
    + eqb_is false.
      rewrite <- EBl.
      rewrite (IH (x :: a2') (y' :: b2'') (done ++ [y]) (gap' ++ [y]) a1
                 _ cache A_index _ A_last B_last _);
        [f_equal; cbn [merge]; rewrite Ec; app_norm; reflexivity | ..];
        side.
Qed.

(* [MergeExternal] with the items of [A] in the cache: the merge of these
   with the items of [B] takes the place of the two ranges, whatever
   stands in [A] *)
Lemma MergeExternal_spec (pre junk b post a crest : list T) (A B : Range)
    (fuel : nat) :
  fits size (pre ++ junk ++ b ++ post) -> fits size (a ++ crest) ->
  length junk = length a ->
  start A = Z.of_nat (length pre) ->
  end_ A = start A + Z.of_nat (length a) ->
  start B = end_ A ->
  end_ B = start B + Z.of_nat (length b) ->
  (length a + length b <= fuel)%nat ->
  MergeExternal fuel (pre ++ junk ++ b ++ post) size A B compare (a ++ crest)
  = Done (pre ++ merge compare a b ++ post).
Proof.
  intros Hfit Hfitc Hj HsA HeA HsB HeB Hf.
  pose proof Hfit as [Hs Hbound]. pose proof Hfitc as [_ Hboundc].
  lengths.
  unfold MergeExternal.
  assert (ElA : Range_length A = Z.of_nat (length a)).
  { unfold Range_length. rewrite HeA. unwrap. lia. }
  assert (ElB : Range_length B = Z.of_nat (length b)).
  { unfold Range_length. rewrite HeB. unwrap. lia. }
  rewrite ElA, ElB.
  destruct b as [|y b'].
  - (* nothing in [B]: the items come back from the cache *)
    cbn [length Z.of_nat Z.gtb Z.compare andb bind].
    rewrite merge_nil_r. cbn [app].
    replace (size *% Z.of_nat (length a) -% 0)
      with (Z.of_nat (length a) *% size) by (unwrap; lia).
    lift_some.
    apply (memcpy_parts size _ _ pre junk post [] a crest); auto;
      try (cbn [length]; nia).
    + rewrite HsA. reflexivity.
    + cbn [length]. unfold mul, wrap. now rewrite Z.mul_0_r.
  - destruct a as [|x a'].
    + (* nothing in [A]: nothing is copied *)
      destruct junk; [| discriminate].
      cbn [length Z.of_nat Z.gtb Z.compare andb bind app].
      rewrite ?andb_false_r. cbn [bind].
      replace (size *% 0 -% 0) with 0
        by (unfold mul, sub, wrap; now rewrite Z.mul_0_r).
      reflexivity.
    + replace (Z.of_nat (length (y :: b')) >? 0) with true
        by (symmetry; rewrite Z.gtb_ltb; apply Z.ltb_lt; cbn [length]; lia).
      replace (Z.of_nat (length (x :: a')) >? 0) with true
        by (symmetry; rewrite Z.gtb_ltb; apply Z.ltb_lt; cbn [length]; lia).
      cbn [andb].
      apply (MergeExternal_while_spec pre post crest fuel (x :: a') (y :: b')
               [] junk []); auto; try discriminate;
        rewrite ?HeB, ?HsB, ?HeA, ?HsA; cbn [length] in *;
        try solve [ f_equal; lia | unfold mul, wrap; now rewrite Z.mul_0_r ].
Qed.

(* the loop of [MergeInto]: [from] is read only; [done] is what has been
   merged into the other array, [old] the places after it that the items
   left of [A] and of [B] will take *)
Lemma MergeInto_while_spec (pre mid post ipre ipost : list T) :
  forall (fuel : nat) (a2 b2 a1 b1 done old from into : list T)
         (A_index B_index A_last B_last insert_index : Z),
    a2 <> [] -> b2 <> [] ->
    from = pre ++ (a1 ++ a2) ++ mid ++ (b1 ++ b2) ++ post ->
    into = ipre ++ done ++ old ++ ipost ->
    fits size from -> fits size into ->
    length old = (length a2 + length b2)%nat ->
    A_index = size *% Z.of_nat (length pre + length a1) ->
    B_index
    = size *% Z.of_nat (length pre + length a1 + length a2 + length mid
                        + length b1) ->
    A_last = size *% Z.of_nat (length pre + length a1 + length a2) ->
    B_last
    = size *% Z.of_nat (length pre + length a1 + length a2 + length mid
                        + length b1 + length b2) ->
    insert_index = size *% Z.of_nat (length ipre + length done) ->
    (length a2 + length b2 <= fuel)%nat ->
    MergeInto_while fuel from size compare into
      A_index B_index A_last B_last insert_index
    = Done (ipre ++ done ++ merge compare a2 b2 ++ ipost).
Proof.
  induction fuel as [|fuel IH];
    intros a2 b2 a1 b1 done old from into A_index B_index A_last B_last
           insert_index Ha Hb Efrom Einto Hfit Hfiti Hold EA EB EAl EBl Ei Hf.
  { destruct a2; [congruence | cbn in Hf; lia]. }
  destruct a2 as [|x a2']; [congruence |].
  destruct b2 as [|y b2']; [congruence |].
  destruct old as [|g old']; [discriminate |].
  pose proof Hfit as [Hs Hbound]. pose proof Hfiti as [_ Hboundi].
  rewrite Efrom in Hbound. rewrite Einto in Hboundi. lengths.
  cbn [MergeInto_while].
  assert (E1 : ptr from B_index = Some y).
  { apply (ptr_at from (pre ++ (a1 ++ x :: a2') ++ mid ++ b1) (b2' ++ post));
      auto.
    - rewrite Efrom. app_norm. reflexivity.
    - rewrite EB. lengths. f_equal. lia. }
  assert (E2 : ptr from A_index = Some x).
  { apply (ptr_at from (pre ++ a1)
             (a2' ++ mid ++ (b1 ++ y :: b2') ++ post)); auto.
    - rewrite Efrom. app_norm. reflexivity.
    - rewrite EA. lengths. reflexivity. }
  rewrite E1, E2. cbn [call bind].
  destruct (compare y x >=? 0) eqn:Ec.
  - (* the item of [A] goes in *)
    assert (E3 : memcpy into insert_index from A_index size
                 = Some (ipre ++ (done ++ [x]) ++ old' ++ ipost)).
    { replace (ipre ++ (done ++ [x]) ++ old' ++ ipost)
        with ((ipre ++ done) ++ x :: (old' ++ ipost))
        by (app_norm; reflexivity).
      apply (memcpy_item into from (ipre ++ done) _ (pre ++ a1)
               (a2' ++ mid ++ (b1 ++ y :: b2') ++ post) g x); auto.
      - rewrite Einto. app_norm. reflexivity.
      - rewrite Efrom. app_norm. reflexivity.
      - rewrite Ei. lengths. reflexivity.
      - rewrite EA. lengths. reflexivity. }
    rewrite E3. cbn [lift bind].
    assert (EA' : A_index +% size
                  = size *% Z.of_nat (length pre + length a1 + 1)).
    { rewrite EA, offset_next by lia. f_equal. lia. }
    assert (Ei' : insert_index +% size
                  = size *% Z.of_nat (length ipre + length (done ++ [x]))).
    { rewrite Ei, offset_next by lia. lengths. f_equal. lia. }
    rewrite EA', EAl.
    rewrite offset_eqb by lia.
    destruct a2' as [|x' a2''].
    + eqb_is true. rewrite Ei', EBl, EB.
      replace (merge compare [x] (y :: b2')) with (x :: y :: b2')
        by (cbn [merge]; now rewrite Ec).
      replace (ipre ++ done ++ (x :: y :: b2') ++ ipost)
        with ((ipre ++ done ++ [x]) ++ (y :: b2') ++ ipost)
        by (app_norm; reflexivity).
      lift_some.
      apply (memcpy_parts size _ _ (ipre ++ done ++ [x]) old' ipost
               (pre ++ (a1 ++ [x]) ++ mid ++ b1) (y :: b2') post); copy_side.
    + eqb_is false. rewrite <- EAl.
      rewrite (IH (x' :: a2'') (y :: b2') (a1 ++ [x]) b1 (done ++ [x]) old'
                 from _ _ B_index A_last B_last _);
        [f_equal; cbn [merge]; rewrite Ec; app_norm; reflexivity | ..];
        side.
  - (* the item of [B] goes in *)
    assert (E4 : memcpy into insert_index from B_index size
                 = Some (ipre ++ (done ++ [y]) ++ old' ++ ipost)).
    { replace (ipre ++ (done ++ [y]) ++ old' ++ ipost)
        with ((ipre ++ done) ++ y :: (old' ++ ipost))
        by (app_norm; reflexivity).
      apply (memcpy_item into from (ipre ++ done) _
               (pre ++ (a1 ++ x :: a2') ++ mid ++ b1) (b2' ++ post) g y);
        auto.
      - rewrite Einto. app_norm. reflexivity.
      - rewrite Efrom. app_norm. reflexivity.
      - rewrite Ei. lengths. reflexivity.
      - rewrite EB. lengths. f_equal. lia. }
    rewrite E4. cbn [lift bind].
    assert (EB' : B_index +% size
                  = size *% Z.of_nat (length pre + length a1
                                      + length (x :: a2') + length mid
                                      + length (b1 ++ [y]))).
    { rewrite EB, offset_next by lia. lengths. f_equal. lia. }
    assert (Ei' : insert_index +% size
                  = size *% Z.of_nat (length ipre + length (done ++ [y]))).
    { rewrite Ei, offset_next by lia. lengths. f_equal. lia. }
    rewrite EB', EBl.
    rewrite offset_eqb by (lengths; lia).
    destruct b2' as [|y' b2''].
    + eqb_is true. rewrite Ei', EAl, EA.
      replace (merge compare (x :: a2') [y]) with (y :: x :: a2')
        by (cbn [merge]; now rewrite Ec).
      replace (ipre ++ done ++ (y :: x :: a2') ++ ipost)
        with ((ipre ++ done ++ [y]) ++ (x :: a2') ++ ipost)
        by (app_norm; reflexivity).
      lift_some.
      apply (memcpy_parts size _ _ (ipre ++ done ++ [y]) old' ipost
               (pre ++ a1) (x :: a2') (mid ++ (b1 ++ [y]) ++ post)); copy_side.
    + eqb_is false. rewrite <- EBl.
      rewrite (IH (x :: a2') (y' :: b2'') a1 (b1 ++ [y]) (done ++ [y]) old'
                 from _ A_index _ A_last B_last _);
        [f_equal; cbn [merge]; rewrite Ec; app_norm; reflexivity | ..];
        side.
Qed.

(* [MergeInto] on two ranges that both hold items: their merge is written
   into the other array from the given place on *)
Lemma MergeInto_spec (pre a mid b post ipre old ipost : list T) (A B : Range)
    (into_offset : Z) (fuel : nat) :
  fits size (pre ++ a ++ mid ++ b ++ post) ->
  fits size (ipre ++ old ++ ipost) ->
  a <> [] -> b <> [] ->
  length old = (length a + length b)%nat ->
  start A = Z.of_nat (length pre) ->
  end_ A = start A + Z.of_nat (length a) ->
  start B = end_ A + Z.of_nat (length mid) ->
  end_ B = start B + Z.of_nat (length b) ->
  into_offset = size *% Z.of_nat (length ipre) ->
  (length a + length b <= fuel)%nat ->
  MergeInto fuel (pre ++ a ++ mid ++ b ++ post) size A B compare
    (ipre ++ old ++ ipost) into_offset
  = Done (ipre ++ merge compare a b ++ ipost).
Proof.
  intros Hfit Hfiti Ha Hb Hold HsA HeA HsB HeB Hoff Hf.
  unfold MergeInto.
  apply (MergeInto_while_spec pre mid post ipre ipost fuel a b [] [] [] old);
    auto;
    rewrite ?HeB, ?HsB, ?HeA, ?HsA, ?Hoff; cbn [length app] in *;
    try solve [ f_equal; lia ].
Qed.
End Copies.

(** X15. On an array of items of [size] bytes and for a comparator with
    total-order semantics: let [A] and [B] be next to each other, [B]
    sorted, and let the cache hold in its first [|A|] slots the sorted
    items [a] that belong to [A] (what stands in [A] itself does not
    matter).  Then [MergeExternal], given fuel for the two lengths, puts
    in [A] and [B] together the stable sorted merge of [a] with the items
    of [B] and leaves everything outside the two ranges as it was; this
    covers an empty [A] (nothing changes) and an empty [B] (the items come
    back from the cache). *)
Theorem MergeExternal_merges_from_cache {T : Type} (size : Z)
    (compare : Comparison T) (pre junk b post a crest : list T)
    (A B : Range) (fuel : nat) :
  fits size (pre ++ junk ++ b ++ post) -> fits size (a ++ crest) ->
  total_order compare ->
  sorted_list compare a -> sorted_list compare b ->
  length junk = length a ->
  start A = Z.of_nat (length pre) ->
  end_ A = start A + Z.of_nat (length a) ->
  start B = end_ A ->
  end_ B = start B + Z.of_nat (length b) ->
  (length a + length b <= fuel)%nat ->
  exists merged,
    MergeExternal (ST := list_store size) fuel (pre ++ junk ++ b ++ post)
      size A B compare (a ++ crest)
    = Done (pre ++ merged ++ post) /\
    merged = merge compare a b /\
    sorted_list compare merged /\
    Permutation (a ++ b) merged /\
    (forall v, filter (equal_to compare v) merged
               = filter (equal_to compare v) a
                 ++ filter (equal_to compare v) b).
Proof.
  intros Hfit Hfitc Horder Hsa Hsb Hj HsA HeA HsB HeB Hf.
  exists (merge compare a b).
  split; [now apply MergeExternal_spec |].
  split; [reflexivity |].
  split; [now apply merge_sorted |].
  split; [apply merge_perm |].
  intros v. now apply merge_stable.
Qed.

Example runs_for_cache_merge :
  sorted_list Z.sub [2; 6] /\ sorted_list Z.sub [1; 2; 8].
Proof.
  split; unfold sorted_list;
    repeat (constructor; [| repeat constructor; lia]); constructor.
Qed.

Lemma MergeExternal_merges_from_cache_witness :
  exists merged,
    MergeExternal (ST := list_store 8) 5 ([0] ++ [2; 6] ++ [1; 2; 8] ++ [9])
      8 (Range_new 1 3) (Range_new 3 6) Z.sub ([2; 6] ++ [60])
    = Done ([0] ++ merged ++ [9]) /\
    merged = merge Z.sub [2; 6] [1; 2; 8] /\
    sorted_list Z.sub merged /\
    Permutation ([2; 6] ++ [1; 2; 8]) merged /\
    (forall v, filter (equal_to Z.sub v) merged
               = filter (equal_to Z.sub v) [2; 6]
                 ++ filter (equal_to Z.sub v) [1; 2; 8]).
Proof.
  apply (MergeExternal_merges_from_cache 8 Z.sub [0] [2; 6] [1; 2; 8] [9]
           [2; 6] [60] (Range_new 1 3) (Range_new 3 6) 5).
  - split; [lia | vm_compute; reflexivity].
  - split; [lia | vm_compute; reflexivity].
  - exact Z_sub_total_order.
  - exact (proj1 runs_for_cache_merge).
  - exact (proj2 runs_for_cache_merge).
  - reflexivity.
  - reflexivity.
  - reflexivity.
  - reflexivity.
  - reflexivity.
  - cbn. lia.
Defined.

(** X16. On an array of items of [size] bytes and for a comparator with
    total-order semantics: let [A] and [B] be two sorted ranges of the
    array [from], [A] before [B], that both hold at least one item.
    Then [MergeInto], given fuel for the two lengths, writes into the
    other array, from the given place on, the stable sorted merge of the
    two ranges, over as many items as the two ranges hold together, and
    leaves the rest of that array as it was; [from] is only read. *)
Theorem MergeInto_writes_the_merge {T : Type} (size : Z)
    (compare : Comparison T) (pre a mid b post ipre old ipost : list T)
    (A B : Range) (into_offset : Z) (fuel : nat) :
  fits size (pre ++ a ++ mid ++ b ++ post) ->
  fits size (ipre ++ old ++ ipost) ->
  total_order compare ->
  sorted_list compare a -> sorted_list compare b ->
  a <> [] -> b <> [] ->
  length old = (length a + length b)%nat ->
  start A = Z.of_nat (length pre) ->
  end_ A = start A + Z.of_nat (length a) ->
  start B = end_ A + Z.of_nat (length mid) ->
  end_ B = start B + Z.of_nat (length b) ->
  into_offset = size *% Z.of_nat (length ipre) ->
  (length a + length b <= fuel)%nat ->
  exists merged,
    MergeInto (ST := list_store size) fuel (pre ++ a ++ mid ++ b ++ post)
      size A B compare (ipre ++ old ++ ipost) into_offset
    = Done (ipre ++ merged ++ ipost) /\
    merged = merge compare a b /\
    sorted_list compare merged /\
    Permutation (a ++ b) merged /\
    (forall v, filter (equal_to compare v) merged
               = filter (equal_to compare v) a
                 ++ filter (equal_to compare v) b).
Proof.
  intros Hfit Hfiti Horder Hsa Hsb Ha Hb Hold HsA HeA HsB HeB Hoff Hf.
  exists (merge compare a b).
  split; [now apply MergeInto_spec |].
  split; [reflexivity |].
  split; [now apply merge_sorted |].
  split; [apply merge_perm |].
  intros v. now apply merge_stable.
Qed.

Example runs_for_merge_into :
  sorted_list Z.sub [3; 5] /\ sorted_list Z.sub [1; 3; 4].
Proof.
  split; unfold sorted_list;
    repeat (constructor; [| repeat constructor; lia]); constructor.
Qed.

Lemma MergeInto_writes_the_merge_witness :
  exists merged,
    MergeInto (ST := list_store 8) 5 ([0] ++ [3; 5] ++ [] ++ [1; 3; 4] ++ [9])
      8 (Range_new 1 3) (Range_new 3 6) Z.sub
      ([70] ++ [71; 72; 73; 74; 75] ++ [76]) 8
    = Done ([70] ++ merged ++ [76]) /\
    merged = merge Z.sub [3; 5] [1; 3; 4] /\
    sorted_list Z.sub merged /\
    Permutation ([3; 5] ++ [1; 3; 4]) merged /\
    (forall v, filter (equal_to Z.sub v) merged
               = filter (equal_to Z.sub v) [3; 5]
                 ++ filter (equal_to Z.sub v) [1; 3; 4]).
Proof.
  apply (MergeInto_writes_the_merge 8 Z.sub [0] [3; 5] [] [1; 3; 4] [9]
           [70] [71; 72; 73; 74; 75] [76]
           (Range_new 1 3) (Range_new 3 6) 8 5).
  - split; [lia | vm_compute; reflexivity].
  - split; [lia | vm_compute; reflexivity].
  - exact Z_sub_total_order.
  - exact (proj1 runs_for_merge_into).
  - exact (proj2 runs_for_merge_into).
  - discriminate.
  - discriminate.
  - reflexivity.
  - reflexivity.
  - reflexivity.
  - reflexivity.
  - reflexivity.
  - reflexivity.
  - cbn. lia.
Defined.

(** * The merge sort of the tests *)

Section Baseline.
Context {T : Type} (size : Z) (compare : Comparison T).
#[local] Hint Extern 0 (Store (list _) _) =>
  exact (list_store size) : typeclass_instances.

(* one item copied inside the object, to a place before it *)
Lemma memcpy_within_item (array p q u v : list T) (g x : T) (d s : Z) :
  array = p ++ g :: q -> array = u ++ x :: v ->
  fits size array ->
  (length p < length u)%nat ->
  d = size *% Z.of_nat (length p) -> s = size *% Z.of_nat (length u) ->
  memcpy_within array d s size = Some (p ++ x :: q).
Proof.
  intros Ed Es Hfit Hlt Hd Hs. unfold memcpy_within.
  pose proof Hfit as [Hs0 Hbound].
  assert (Hu : Z.of_nat (length u) < Z.of_nat (length array)).
  { rewrite Es. lengths. lia. }
  replace (d + size <=? s) with true.
  - rewrite orb_true_r. cbn [orb].
    now apply (memmove_item size array p q u v g x).
  - symmetry. apply Z.leb_le. rewrite Hd, Hs. unwrap. nia.
Qed.

(* the loop of [MergeSortR] when it stops at once *)
Lemma MergeSortR_while_exit (fuel : nat) (array buffer : list T)
    (A B : Range) (A_count B_count insert : Z) :
  (A_count <? Range_length A) && (B_count <? Range_length B) = false ->
  MergeSortR_while fuel array size A B compare buffer A_count B_count insert
  = Done (array, A_count, insert).
Proof. intros H. destruct fuel; cbn [MergeSortR_while]; now rewrite H. Qed.

(* the loop of [MergeSortR] and the copy after it: [done] is what has
   been merged, [gap] the places between the merged items and the items
   of [B] that are left, as many as there are items of [A] left in the
   buffer *)
Lemma MergeSortR_while_spec (pre post brest : list T) (A B : Range) :
  forall (fuel : nat) (a2 b2 a1 b1 done gap array buffer : list T)
         (A_count B_count insert : Z),
    array = pre ++ done ++ gap ++ b2 ++ post ->
    buffer = a1 ++ a2 ++ brest ->
    fits size array -> fits size buffer ->
    length gap = length a2 ->
    length done = (length a1 + length b1)%nat ->
    start A = Z.of_nat (length pre) ->
    end_ A = Z.of_nat (length pre + length a1 + length a2) ->
    Range_length B = Z.of_nat (length b1 + length b2) ->
    A_count = Z.of_nat (length a1) -> B_count = Z.of_nat (length b1) ->
    insert = Z.of_nat (length done) ->
    (length a2 + length b2 <= fuel)%nat ->
    ('(array1, A_count1, insert1) <-
       MergeSortR_while fuel array size A B compare buffer
         A_count B_count insert ;;
     lift (memcpy array1 (size *% (start A +% insert1)) buffer
             (size *% A_count1) ((Range_length A -% A_count1) *% size)))
    = Done (pre ++ done ++ merge compare a2 b2 ++ post).
Proof.
  induction fuel as [|fuel IH];
    intros a2 b2 a1 b1 done gap array buffer A_count B_count insert
           Earr Ebuf Hfit Hfitb Hgap Hdone HsA HeA HlB EA EB Ei Hf;
    pose proof Hfit as [Hs Hbound]; pose proof Hfitb as [_ Hboundb];
    rewrite Earr in Hbound; rewrite Ebuf in Hboundb; lengths;
    assert (Hlin : Z.of_nat (length pre + (length done + (length gap
                     + (length b2 + length post)))) < SIZE_MAX1) by nia;
    assert (HlA : Range_length A = Z.of_nat (length a1 + length a2))
      by (unfold Range_length; rewrite HeA, HsA; unwrap; lia).
  { (* no round left: one of the two lists is empty *)
    assert (Hab : a2 = [] /\ b2 = []).
    { destruct a2, b2; cbn [length] in Hf; try lia. now split. }
    destruct Hab as [-> ->]. destruct gap; [| discriminate].
    rewrite MergeSortR_while_exit
      by (rewrite HlA, EA; cbn [length];
          replace (Z.of_nat (length a1) <? Z.of_nat (length a1 + 0))
            with false by (symmetry; apply Z.ltb_ge; lia);
          reflexivity).
    cbn [bind]. rewrite HlA, EA.
    replace ((Z.of_nat (length a1 + length (@nil T)) -% Z.of_nat (length a1))
             *% size) with 0 by (cbn [length]; unwrap; lia).
    rewrite memcpy_nothing. rewrite Earr, merge_nil_l. reflexivity. }
  destruct a2 as [|x a2'].
  { (* nothing left of [A] *)
    destruct gap; [| discriminate].
    rewrite MergeSortR_while_exit
      by (rewrite HlA, EA; cbn [length];
          replace (Z.of_nat (length a1) <? Z.of_nat (length a1 + 0))
            with false by (symmetry; apply Z.ltb_ge; lia);
          reflexivity).
    cbn [bind]. rewrite HlA, EA.
    replace ((Z.of_nat (length a1 + length (@nil T)) -% Z.of_nat (length a1))
             *% size) with 0 by (cbn [length]; unwrap; lia).
    rewrite memcpy_nothing. rewrite Earr, merge_nil_l. reflexivity. }
  destruct b2 as [|y b2'].
  { (* nothing left of [B]: the items left of [A] come back *)
    rewrite MergeSortR_while_exit
      by (rewrite HlB, EB; cbn [length];
          replace (Z.of_nat (length b1) <? Z.of_nat (length b1 + 0))
            with false by (symmetry; apply Z.ltb_ge; lia);
          apply andb_false_r).
    cbn [bind]. rewrite HlA, EA, Ei, HsA. rewrite merge_nil_r.
    replace (pre ++ done ++ (x :: a2') ++ post)
      with ((pre ++ done) ++ (x :: a2') ++ post)
      by (app_norm; reflexivity).
    lift_some.
    apply (memcpy_parts size _ _ (pre ++ done) gap post a1 (x :: a2') brest);
      copy_side. }
  destruct gap as [|g gap']; [discriminate |].
  cbn [MergeSortR_while].
  replace ((A_count <? Range_length A) && (B_count <? Range_length B))
    with true
    by (symmetry; rewrite HlA, HlB, EA, EB; apply andb_true_intro;
        split; apply Z.ltb_lt; cbn [length]; lia).
  assert (E1 : ptr array (size *% (end_ A +% B_count)) = Some y).
  { apply (ptr_at size array (pre ++ done ++ g :: gap') (b2' ++ post)); auto.
    - rewrite Earr. app_norm. reflexivity.
    - rewrite HeA, EB. lengths. f_equal. unwrap. lia. }
  assert (E2 : ptr buffer (size *% A_count) = Some x).
  { apply (ptr_at size buffer a1 (a2' ++ brest)); auto.
    rewrite EA. reflexivity. }
  rewrite E1, E2. cbn [call bind].
  destruct (compare y x >=? 0) eqn:Ec.
  - (* the item of [A] goes in *)
    assert (E3 : memcpy array (size *% (start A +% insert)) buffer
                   (size *% A_count) size
                 = Some (pre ++ (done ++ [x]) ++ gap' ++ (y :: b2') ++ post)).
    { replace (pre ++ (done ++ [x]) ++ gap' ++ (y :: b2') ++ post)
        with ((pre ++ done) ++ x :: (gap' ++ (y :: b2') ++ post))
        by (app_norm; reflexivity).
      apply (memcpy_item size array buffer (pre ++ done) _ a1
               (a2' ++ brest) g x); auto.
      - rewrite Earr. app_norm. reflexivity.
      - rewrite HsA, Ei. lengths. f_equal. unwrap. lia.
      - rewrite EA. reflexivity. }
    rewrite E3. cbn [lift bind].
    rewrite (IH a2' (y :: b2') (a1 ++ [x]) b1 (done ++ [x]) gap'
               _ buffer _ B_count _);
      [f_equal; cbn [merge]; rewrite Ec; app_norm; reflexivity | ..];
      side; try (subst; lengths; unwrap; lia).
  - (* the item of [B] goes in *)
    assert (E4 : memcpy_within array (size *% (start A +% insert))
                   (size *% (end_ A +% B_count)) size
                 = Some (pre ++ (done ++ [y]) ++ (gap' ++ [y]) ++ b2'
                         ++ post)).
    { replace (pre ++ (done ++ [y]) ++ (gap' ++ [y]) ++ b2' ++ post)
        with ((pre ++ done) ++ y :: (gap' ++ (y :: b2') ++ post))
        by (app_norm; reflexivity).
      apply (memcpy_within_item array (pre ++ done) _
               (pre ++ done ++ g :: gap') (b2' ++ post) g y); auto.
      - rewrite Earr. app_norm. reflexivity.
      - rewrite Earr. app_norm. reflexivity.
      - lengths. lia.
      - rewrite HsA, Ei. lengths. f_equal. unwrap. lia.
      - rewrite HeA, EB. lengths. f_equal. unwrap. lia. }
    rewrite E4. cbn [lift bind].
    rewrite (IH (x :: a2') b2' a1 (b1 ++ [y]) (done ++ [y]) (gap' ++ [y])
               _ buffer A_count _ _);
      [f_equal; cbn [merge]; rewrite Ec; app_norm; reflexivity | ..];
      side; try (subst; lengths; unwrap; lia).
Qed.
End Baseline.

Lemma bind_Done_inv {A B : Type} (m : outcome A) (k : A -> outcome B)
    (r : B) :
  bind m k = Done r -> exists a, m = Done a /\ k a = Done r.
Proof.
  destruct m as [a | |]; cbn [bind]; intros H; try discriminate.
  now exists a.
Qed.

(* what [BinaryLast] leaves of [a] before the merge takes nothing from
   the merge *)
Lemma merge_skips_low {T : Type} (compare : Comparison T) (a1 a2 : list T)
    (y : T) (b : list T) :
  total_order compare ->
  sorted_list compare (y :: b) ->
  Forall (fun x => compare y x >= 0) a1 ->
  merge compare (a1 ++ a2) (y :: b) = a1 ++ merge compare a2 (y :: b).
Proof.
  intros Horder Hsb Ha1.
  change (y :: b) with ([] ++ y :: b) at 1.
  rewrite merge_app.
  - now rewrite merge_nil_r.
  - constructor.
  - apply Forall_forall. intros x Hx. apply Forall_forall. intros z Hz.
    rewrite Forall_forall in Ha1. specialize (Ha1 x Hx).
    apply (compare_le_ge compare Horder).
    apply (le_transitive compare Horder x y z).
    + now apply (compare_le_ge compare Horder).
    + now apply (sorted_head_le compare Horder y z b).
Qed.

Section Sorts.
Context {T : Type} (size : Z) (compare : Comparison T).
Hypothesis Horder : total_order compare.
#[local] Hint Extern 0 (Store (list _) _) =>
  exact (list_store size) : typeclass_instances.

(* a range of fewer than 32 items *)
Lemma MergeSortR_small (fuel : nat) (l pre post buffer : list T)
    (range : Range) :
  fits size (pre ++ l ++ post) ->
  start range = Z.of_nat (length pre) ->
  end_ range = Z.of_nat (length pre + length l) ->
  Z.of_nat (length pre) + 1 < SIZE_MAX1 ->
  (length l <= fuel)%nat ->
  (length l < 32)%nat ->
  MergeSortR fuel (pre ++ l ++ post) range size compare buffer
  = Done (pre ++ stable_sort compare l ++ post, buffer).
Proof.
  intros Hfit Hs He Hpre Hf Hsmall.
  pose proof Hfit as [Hs0 Hbound]. lengths.
  assert (Hlin : Z.of_nat (length pre + (length l + length post))
                 < SIZE_MAX1) by nia.
  assert (Hl : Range_length range = Z.of_nat (length l))
    by (unfold Range_length; rewrite He, Hs; unwrap; lia).
  destruct (InsertionSort_spec size compare Horder pre l post range fuel)
    as (l' & Erun & Hsorted & _ & Hstable); auto.
  assert (El : l' = stable_sort compare l)
    by now apply stable_sort_unique.
  subst l'.
  destruct fuel; cbn [MergeSortR]; rewrite Hl;
    (replace (Z.of_nat (length l) <? 32) with true
       by (symmetry; apply Z.ltb_lt; lia));
    rewrite Erun; reflexivity.
Qed.

Lemma MergeSortR_spec :
  forall (fuel : nat) (l pre post buffer : list T) (range : Range),
    fits size (pre ++ l ++ post) -> fits size buffer ->
    (length l / 2 <= length buffer)%nat ->
    start range = Z.of_nat (length pre) ->
    end_ range = Z.of_nat (length pre + length l) ->
    Z.of_nat (length pre) + 1 < SIZE_MAX1 ->
    (length l <= fuel)%nat ->
    exists buffer',
      MergeSortR fuel (pre ++ l ++ post) range size compare buffer
      = Done (pre ++ stable_sort compare l ++ post, buffer') /\
      length buffer' = length buffer.
Proof.
  induction fuel as [|fuel IH];
    intros l pre post buffer range Hfit Hfitb Hroom Hs He Hpre Hf.
  { exists buffer. split; [| reflexivity].
    apply MergeSortR_small; auto. lia. }
  destruct (Nat.lt_ge_cases (length l) 32) as [Hsmall | Hlarge].
  { exists buffer. split; [| reflexivity].
    now apply MergeSortR_small. }
  pose proof Hfit as [Hs0 Hbound]. pose proof Hfitb as [_ Hboundb].
  lengths.
  assert (Hlin : Z.of_nat (length pre + (length l + length post))
                 < SIZE_MAX1) by nia.
  assert (Hl : Range_length range = Z.of_nat (length l))
    by (unfold Range_length; rewrite He, Hs; unwrap; lia).
  (* the two halves *)
  pose proof (firstn_skipn (length l / 2) l) as El.
  pose proof (Nat.div_mod_eq (length l) 2) as Hdm.
  pose proof (Nat.mod_upper_bound (length l) 2 ltac:(lia)) as Hm.
  assert (Hla : length (firstn (length l / 2) l) = (length l / 2)%nat)
    by (rewrite length_firstn; lia).
  assert (Hlb : length (skipn (length l / 2) l)
                = (length l - length l / 2)%nat)
    by (rewrite length_skipn; lia).
  set (la := firstn (length l / 2) l) in *.
  set (lb := skipn (length l / 2) l) in *.
  assert (Hh : (length l / 2 = length la)%nat) by lia.
  rewrite Hh in *. clear Hh.
  assert (Hll : length l = (length la + length lb)%nat) by lia.
  assert (Hhalf : (length la <= length lb <= length la + 1)%nat) by lia.
  rewrite Hll in *. clear Hll Hdm Hm Hla Hlb.
  clearbody la lb. subst l.
  cbn [MergeSortR]. rewrite Hl.
  replace (Z.of_nat (length la + length lb) <? 32) with false
    by (symmetry; apply Z.ltb_ge; lia).
  cbv zeta. cbn [start end_]. rewrite Hs, He.
  replace (Z.of_nat (length pre)
           +% (Z.of_nat (length pre + (length la + length lb))
               -% Z.of_nat (length pre)) / 2)
    with (Z.of_nat (length pre + length la)).
  2: { unwrap.
       replace (Z.of_nat (length pre + (length la + length lb))
                - Z.of_nat (length pre))
         with (Z.of_nat (length la + length lb)) by lia.
       assert (E : Z.of_nat (length la + length lb) / 2
                   = Z.of_nat (length la)).
       { symmetry.
         apply Z.div_unique with (r := Z.of_nat (length lb - length la));
           lia. }
       rewrite E. unwrap. lia. }
  set (sa := stable_sort compare la).
  set (sb := stable_sort compare lb).
  assert (Hsa : sorted_list compare sa) by now apply stable_sort_sorted.
  assert (Hsb : sorted_list compare sb) by now apply stable_sort_sorted.
  assert (Lsa : length sa = length la)
    by (symmetry; apply Permutation_length, stable_sort_perm).
  assert (Lsb : length sb = length lb)
    by (symmetry; apply Permutation_length, stable_sort_perm).
  (* the first half *)
  replace (pre ++ (la ++ lb) ++ post) with (pre ++ la ++ (lb ++ post))
    by (app_norm; reflexivity).
  destruct (IH la pre (lb ++ post) buffer
              (Range_new (Z.of_nat (length pre))
                 (Z.of_nat (length pre + length la))))
    as (buffer1 & E1 & L1); auto; try lia.
  { eapply fits_length; [exact Hfit |]. lengths. lia. }
  { pose proof (Nat.Div0.div_le_upper_bound (length la) 2 (length la)). lia. }
  rewrite E1. cbn [bind]. fold sa.
  (* the second half *)
  replace (pre ++ sa ++ lb ++ post) with ((pre ++ sa) ++ lb ++ post)
    by (app_norm; reflexivity).
  destruct (IH lb (pre ++ sa) post buffer1
              (Range_new (Z.of_nat (length pre + length la))
                 (Z.of_nat (length pre + (length la + length lb)))))
    as (buffer2 & E2 & L2); auto; try (lengths; lia).
  { eapply fits_length; [exact Hfit |]. lengths. lia. }
  { eapply fits_length; [exact Hfitb |]. lia. }
  { rewrite L1. apply Nat.Div0.div_le_upper_bound. lia. }
  { cbn [start]. lengths. f_equal. lia. }
  { cbn [end_]. lengths. f_equal. lia. }
  rewrite E2. cbn [bind]. fold sb.
  (* the items of the first half that stay where they are *)
  destruct sb as [|y sb'] eqn:Esb; [cbn [length] in Lsb; lia |].
  destruct (sorted_not_above_parts compare Horder y sa Hsa)
    as (sa1 & sa2 & Esa & Hlow & Hhigh).
  assert (Lsa12 : (length sa1 + length sa2 = length la)%nat)
    by (rewrite <- Lsa, Esa; lengths; lia).
  assert (Hfit2 : fits size ((pre ++ sa) ++ (y :: sb') ++ post)).
  { eapply fits_length; [exact Hfit |]. lengths. lia. }
  assert (Ep : ptr ((pre ++ sa) ++ (y :: sb') ++ post)
                 (size *% Z.of_nat (length pre + length la)) = Some y).
  { apply (ptr_at size _ (pre ++ sa) (sb' ++ post)); auto.
    lengths. f_equal. f_equal. lia. }
  rewrite Ep.
  assert (Earr : (pre ++ sa) ++ (y :: sb') ++ post
                 = pre ++ sa1 ++ sa2 ++ ((y :: sb') ++ post))
    by (rewrite Esa; app_norm; reflexivity).
  rewrite Earr in *.
  rewrite (BinaryLast_parts size compare pre sa1 sa2 ((y :: sb') ++ post) y
             _ (S fuel)); auto; try (cbn [start end_]; f_equal; lia);
    try lia.
  cbn [bind].
  (* these go to the buffer *)
  pose proof (firstn_skipn (length sa2) buffer2) as Eb.
  assert (Lold : length (firstn (length sa2) buffer2) = length sa2)
    by (rewrite length_firstn; lia).
  set (old := firstn (length sa2) buffer2) in *.
  set (brest := skipn (length sa2) buffer2) in *.
  clearbody old brest.
  assert (Hfit3 : fits size (sa2 ++ brest)).
  { eapply fits_length; [exact Hfitb |]. rewrite <- L1, <- L2, <- Eb.
    lengths. lia. }
  assert (Elen : Range_length
                   (Range_new (Z.of_nat (length pre + length sa1))
                      (Z.of_nat (length pre + length la)))
                 = Z.of_nat (length sa2)).
  { unfold Range_length. cbn [start end_]. unwrap. lia. }
  rewrite Elen.
  assert (Ecopy : memcpy buffer2 0
                    (pre ++ sa1 ++ sa2 ++ (y :: sb') ++ post)
                    (size *% Z.of_nat (length pre + length sa1))
                    (Z.of_nat (length sa2) *% size)
                  = Some (sa2 ++ brest)).
  { apply (memcpy_parts size _ _ [] old brest (pre ++ sa1) sa2
             ((y :: sb') ++ post)); auto.
    - app_norm. reflexivity.
    - pose proof Hfit3 as [_ Hb3]. lengths. nia.
    - lengths. nia.
    - cbn [length]. unfold mul, wrap. now rewrite Z.mul_0_r.
    - lengths. reflexivity. }
  rewrite Ecopy. cbn [lift bind].
  (* the merge *)
  set (A' := Range_new (Z.of_nat (length pre + length sa1))
               (Z.of_nat (length pre + length la))) in *.
  set (B' := Range_new (Z.of_nat (length pre + length la))
               (Z.of_nat (length pre + (length la + length lb)))) in *.
  assert (Hloop :
    ('(array1, A_count1, insert1) <-
       MergeSortR_while (S fuel) (pre ++ sa1 ++ sa2 ++ (y :: sb') ++ post)
         size A' B' compare (sa2 ++ brest) 0 0 0 ;;
     lift (memcpy array1 (size *% (start A' +% insert1)) (sa2 ++ brest)
             (size *% A_count1) ((Range_length A' -% A_count1) *% size)))
    = Done ((pre ++ sa1) ++ [] ++ merge compare sa2 (y :: sb') ++ post)).
  { apply (MergeSortR_while_spec size compare (pre ++ sa1) post brest A' B'
             (S fuel) sa2 (y :: sb') [] [] [] sa2); auto;
      try (subst A' B'; cbn [start end_ length]; lengths; try f_equal; lia).
    - app_norm. reflexivity.
    - subst B'. unfold Range_length. cbn [start end_ length].
      cbn [length] in Lsb. unwrap. lia. }
  apply bind_Done_inv in Hloop.
  destruct Hloop as ([[array3 A_count] insert] & Ew & Ec).
  rewrite Ew. cbn [bind]. rewrite Elen in Ec. cbn [start A'] in Ec.
  rewrite Ec. cbn [bind].
  exists (sa2 ++ brest). split.
  - f_equal. f_equal.
    rewrite (stable_sort_app compare Horder). fold sa sb.
    rewrite Esb, Esa.
    rewrite merge_skips_low; auto; try (rewrite <- Esb; exact Hsb).
    app_norm. reflexivity.
  - rewrite <- L1, <- L2, <- Eb. lengths. lia.
Qed.
End Sorts.

(** X17. For a comparator with total-order semantics, [MergeSort] on the
    first [len] items of an array of items of [size] bytes, with the
    block of [(len + 1) / 2] items that [malloc] gave it (whatever the
    block holds), and with fuel for [len] rounds, returns with these
    items replaced by their stable sort: sorted, a rearrangement of the
    items, with items that compare equal in their former order.  No copy
    it makes inside the array overlaps, and the items after the first
    [len] stay as they are. *)
Theorem MergeSort_sorts_stably {T : Type} (size : Z)
    (compare : Comparison T) (l post buffer : list T) (len : Z)
    (fuel : nat) :
  total_order compare ->
  fits size (l ++ post) ->
  len = Z.of_nat (length l) ->
  Z.of_nat (length buffer) = (len + 1) / 2 ->
  (length l <= fuel)%nat ->
  exists sorted,
    MergeSort (ST := list_store size) fuel (l ++ post) len size compare
      buffer
    = Done (sorted ++ post) /\
    sorted = stable_sort compare l /\
    sorted_list compare sorted /\
    Permutation l sorted /\
    (forall v, filter (equal_to compare v) sorted
               = filter (equal_to compare v) l).
Proof.
  intros Horder Hfit Hlen Hblock Hf.
  assert (Hhalf : Z.of_nat (length l / 2) <= Z.of_nat (length buffer)).
  { rewrite Hblock, Hlen, Nat2Z.inj_div. apply Z.div_le_mono; lia. }
  assert (Hshort : (length buffer <= length l)%nat).
  { destruct l as [|x l'].
    - cbn [length Z.of_nat] in Hlen. subst len.
      change ((0 + 1) / 2) with 0 in Hblock. cbn [length]. lia.
    - assert ((len + 1) / 2 <= len); [| lia].
      apply Z.div_le_upper_bound; cbn [length] in Hlen; lia. }
  assert (Hfitb : fits size buffer).
  { destruct Hfit as [Hs Hb]. split; [exact Hs |]. lengths. nia. }
  destruct (MergeSortR_spec size compare Horder fuel l [] post buffer
              (Range_new 0 len)) as (buffer' & Erun & _); auto;
    try (cbn [start end_ length]; rewrite ?SIZE_MAX1_eq; lia).
  exists (stable_sort compare l).
  split.
  - unfold MergeSort. cbn [app] in Erun. rewrite Erun. reflexivity.
  - split; [reflexivity |].
    split; [now apply stable_sort_sorted |].
    split; [apply stable_sort_perm |].
    intros v. now apply stable_sort_stable.
Qed.

Lemma MergeSort_sorts_stably_witness :
  exists sorted,
    MergeSort (ST := list_store 8) 34
      ([90; 14; 55; 3; 72; 41; 18; 66; 27; 99; 5; 38; 80; 12; 61; 47; 33;
        76; 8; 52; 95; 21; 69; 44; 1; 87; 30; 58; 16; 73; 36; 84; 10; 49]
       ++ [7; 7])
      34 8 (fun x y => x / 10 - y / 10) (repeat 0 17)
    = Done (sorted ++ [7; 7]) /\
    sorted
    = stable_sort (fun x y => x / 10 - y / 10)
        [90; 14; 55; 3; 72; 41; 18; 66; 27; 99; 5; 38; 80; 12; 61; 47; 33;
         76; 8; 52; 95; 21; 69; 44; 1; 87; 30; 58; 16; 73; 36; 84; 10; 49] /\
    sorted_list (fun x y => x / 10 - y / 10) sorted /\
    Permutation
      [90; 14; 55; 3; 72; 41; 18; 66; 27; 99; 5; 38; 80; 12; 61; 47; 33;
       76; 8; 52; 95; 21; 69; 44; 1; 87; 30; 58; 16; 73; 36; 84; 10; 49]
      sorted /\
    (forall v, filter (equal_to (fun x y => x / 10 - y / 10) v) sorted
               = filter (equal_to (fun x y => x / 10 - y / 10) v)
                   [90; 14; 55; 3; 72; 41; 18; 66; 27; 99; 5; 38; 80; 12; 61;
                    47; 33; 76; 8; 52; 95; 21; 69; 44; 1; 87; 30; 58; 16; 73;
                    36; 84; 10; 49]).
Proof.
  apply (MergeSort_sorts_stably 8 (fun x y => x / 10 - y / 10)
           [90; 14; 55; 3; 72; 41; 18; 66; 27; 99; 5; 38; 80; 12; 61; 47; 33;
            76; 8; 52; 95; 21; 69; 44; 1; 87; 30; 58; 16; 73; 36; 84; 10; 49]
           [7; 7] (repeat 0 17) 34 34).
  - constructor; intros; lia.
  - split; [lia | vm_compute; reflexivity].
  - reflexivity.
  - reflexivity.
  - cbn. lia.
Defined.

(** * The [Swap] macro on bytes *)

(* the do-while of [Swap] on two blocks apart from each other, whichever
   comes first *)
Lemma swap_bytes_blocks :
  forall (x y p m q : list Byte.byte),
    length y = length x ->
    swap_bytes (p ++ x ++ m ++ y ++ q) (length p)
      (length p + length x + length m) (length x)
    = Some (p ++ y ++ m ++ x ++ q) /\
    swap_bytes (p ++ x ++ m ++ y ++ q) (length p + length x + length m)
      (length p) (length x)
    = Some (p ++ y ++ m ++ x ++ q).
Proof.
  induction x as [|x0 x' IH]; intros y p m q Hlen.
  - destruct y; [| discriminate]. split; reflexivity.
  - destruct y as [|y0 y']; [discriminate |].
    cbn [length] in *.
    assert (Emem : p ++ (x0 :: x') ++ m ++ (y0 :: y') ++ q
                   = p ++ x0 :: (x' ++ m) ++ y0 :: (y' ++ q))
      by (app_norm; reflexivity).
    assert (Eidx : (length p + S (length x') + length m
                    = length p + 1 + length (x' ++ m))%nat)
      by (lengths; lia).
    assert (Ex : nth_error (p ++ x0 :: (x' ++ m) ++ y0 :: (y' ++ q))
                   (length p) = Some x0) by apply nth_error_exact.
    assert (Ey : nth_error (p ++ x0 :: (x' ++ m) ++ y0 :: (y' ++ q))
                   (length p + 1 + length (x' ++ m)) = Some y0).
    { replace (p ++ x0 :: (x' ++ m) ++ y0 :: (y' ++ q))
        with ((p ++ x0 :: x' ++ m) ++ y0 :: (y' ++ q))
        by (app_norm; reflexivity).
      replace (length p + 1 + length (x' ++ m))%nat
        with (length (p ++ x0 :: x' ++ m)) by (lengths; lia).
      apply nth_error_exact. }
    destruct (set_nth_pair p (x' ++ m) (y' ++ q) x0 y0) as [S1 S2].
    destruct (IH y' (p ++ [y0]) (m ++ [x0]) q) as [I1 I2]; [lia |].
    assert (Enext : p ++ y0 :: (x' ++ m) ++ x0 :: (y' ++ q)
                    = (p ++ [y0]) ++ x' ++ (m ++ [x0]) ++ y' ++ q)
      by (app_norm; reflexivity).
    assert (Eres : (p ++ [y0]) ++ y' ++ (m ++ [x0]) ++ x' ++ q
                   = p ++ (y0 :: y') ++ m ++ (x0 :: x') ++ q)
      by (app_norm; reflexivity).
    rewrite Emem, Eidx. cbn [swap_bytes]. rewrite Ex, Ey.
    rewrite S1, S2, Enext, <- Eres.
    split.
    + rewrite <- I1. f_equal; lengths; lia.
    + rewrite <- I2. f_equal; lengths; lia.
Qed.

(* the do-while of [Swap] on a block and itself *)
Lemma swap_bytes_self :
  forall (x p q : list Byte.byte),
    swap_bytes (p ++ x ++ q) (length p) (length p) (length x)
    = Some (p ++ x ++ q).
Proof.
  induction x as [|x0 x' IH]; intros p q; [reflexivity |].
  cbn [length swap_bytes app].
  rewrite nth_error_exact, set_nth_exact, set_nth_exact.
  replace (p ++ x0 :: x' ++ q) with ((p ++ [x0]) ++ x' ++ q)
    by (app_norm; reflexivity).
  etransitivity; [| apply (IH (p ++ [x0]) q)].
  f_equal; lengths; lia.
Qed.

(** X18. On raw bytes, the [Swap] macro with a [size] of at least one,
    given two blocks of [size] bytes of the object that lie apart from
    each other, exchanges the two blocks byte for byte and leaves every
    other byte as it was, whichever of the two pointers comes first; and
    given the same block twice it leaves the object as it was. *)
Theorem Swap_exchanges_two_blocks (p x m y q : list Byte.byte) (size : Z) :
  0 < size ->
  Z.of_nat (length x) = size -> Z.of_nat (length y) = size ->
  Swap (Store := byte_store) (p ++ x ++ m ++ y ++ q)
    (Z.of_nat (length p)) (Z.of_nat (length p + length x + length m)) size
  = Some (p ++ y ++ m ++ x ++ q) /\
  Swap (Store := byte_store) (p ++ x ++ m ++ y ++ q)
    (Z.of_nat (length p + length x + length m)) (Z.of_nat (length p)) size
  = Some (p ++ y ++ m ++ x ++ q) /\
  Swap (Store := byte_store) (p ++ x ++ m ++ y ++ q)
    (Z.of_nat (length p)) (Z.of_nat (length p)) size
  = Some (p ++ x ++ m ++ y ++ q).
Proof.
  intros Hs Hx Hy.
  assert (Hlen : length y = length x) by lia.
  destruct (swap_bytes_blocks x y p m q Hlen) as [S1 S2].
  pose proof (swap_bytes_self x p (m ++ y ++ q)) as S3.
  cbn [Swap byte_store]. unfold byte_Swap.
  replace (0 <? size) with true by (symmetry; apply Z.ltb_lt; lia).
  replace (0 <=? Z.of_nat (length p)) with true
    by (symmetry; apply Z.leb_le; lia).
  replace (0 <=? Z.of_nat (length p + length x + length m)) with true
    by (symmetry; apply Z.leb_le; lia).
  replace (Z.of_nat (length p) + size
           <=? Z.of_nat (length (p ++ x ++ m ++ y ++ q))) with true
    by (symmetry; apply Z.leb_le; lengths; lia).
  replace (Z.of_nat (length p + length x + length m) + size
           <=? Z.of_nat (length (p ++ x ++ m ++ y ++ q))) with true
    by (symmetry; apply Z.leb_le; lengths; lia).
  cbn [andb]. rewrite !Nat2Z.id, <- Hx, Nat2Z.id.
  split; [exact S1 |]. split; [exact S2 | exact S3].
Qed.

Lemma Swap_exchanges_two_blocks_witness :
  Swap (Store := byte_store)
    ([Byte.x01; Byte.x02] ++ [Byte.x11; Byte.x12; Byte.x13] ++ [Byte.x04]
       ++ [Byte.x21; Byte.x22; Byte.x23] ++ [Byte.x05])
    (Z.of_nat (length [Byte.x01; Byte.x02]))
    (Z.of_nat (length [Byte.x01; Byte.x02]
               + length [Byte.x11; Byte.x12; Byte.x13]
               + length [Byte.x04])) 3
  = Some ([Byte.x01; Byte.x02] ++ [Byte.x21; Byte.x22; Byte.x23] ++ [Byte.x04]
            ++ [Byte.x11; Byte.x12; Byte.x13] ++ [Byte.x05]) /\
  Swap (Store := byte_store)
    ([Byte.x01; Byte.x02] ++ [Byte.x11; Byte.x12; Byte.x13] ++ [Byte.x04]
       ++ [Byte.x21; Byte.x22; Byte.x23] ++ [Byte.x05])
    (Z.of_nat (length [Byte.x01; Byte.x02]
               + length [Byte.x11; Byte.x12; Byte.x13]
               + length [Byte.x04]))
    (Z.of_nat (length [Byte.x01; Byte.x02])) 3
  = Some ([Byte.x01; Byte.x02] ++ [Byte.x21; Byte.x22; Byte.x23] ++ [Byte.x04]
            ++ [Byte.x11; Byte.x12; Byte.x13] ++ [Byte.x05]) /\
  Swap (Store := byte_store)
    ([Byte.x01; Byte.x02] ++ [Byte.x11; Byte.x12; Byte.x13] ++ [Byte.x04]
       ++ [Byte.x21; Byte.x22; Byte.x23] ++ [Byte.x05])
    (Z.of_nat (length [Byte.x01; Byte.x02]))
    (Z.of_nat (length [Byte.x01; Byte.x02])) 3
  = Some ([Byte.x01; Byte.x02] ++ [Byte.x11; Byte.x12; Byte.x13] ++ [Byte.x04]
            ++ [Byte.x21; Byte.x22; Byte.x23] ++ [Byte.x05]).
Proof.
  apply (Swap_exchanges_two_blocks [Byte.x01; Byte.x02]
           [Byte.x11; Byte.x12; Byte.x13] [Byte.x04]
           [Byte.x21; Byte.x22; Byte.x23] [Byte.x05] 3).
  - lia.
  - reflexivity.
  - reflexivity.
Defined.

(** X19. The block merge of [new_WikiSort], with no cache. For a
    comparator with total-order semantics, let [A] and [B] be two sorted
    runs next to each other, [B] not empty, and let the two internal
    buffers lie elsewhere in the array: the first with items that go
    strictly up, at least one for each block of [block_size] items of
    [A]; the second either of no item or of [block_size] items at least.
    Then the block merge, given fuel for twice the length of the two runs,
    puts the stable sorted merge of the two runs in their place, leaves
    the first buffer exactly as it was and the second with the same items
    in some order, and leaves every other item of the array as it was. *)
Theorem block_merge_merges_a_pair {T : Type} (size : Z)
    (compare : Comparison T) (base : list T) (r b1 b2 : Z) (nR n1 n2 : nat)
    (bs : nat) (a b B1 B2 : list T) (A B buffer1 buffer2 : Range)
    (fuel : nat) :
  total_order compare ->
  windows_ok size base r b1 b2 nR n1 n2 ->
  (1 <= bs)%nat ->
  length (a ++ b) = nR -> length B1 = n1 -> length B2 = n2 ->
  (n2 <> 0 -> bs <= n2)%nat ->
  (length a / bs <= n1)%nat ->
  b <> [] ->
  sorted_list compare a -> sorted_list compare b ->
  strictly_sorted compare B1 ->
  start A = r -> end_ A = r + Z.of_nat (length a) ->
  start B = end_ A -> end_ B = r + Z.of_nat nR ->
  start buffer1 = b1 ->
  start buffer2 = b2 -> Range_length buffer2 = Z.of_nat n2 ->
  (2 * nR <= fuel)%nat ->
  exists merged B2',
    block_merge (ST := list_store size) fuel
      (three_windows base r b1 b2 (a ++ b) B1 B2) size compare [] 0
      (Z.of_nat bs) buffer1 buffer2 A B
    = Done (three_windows base r b1 b2 merged B1 B2', []) /\
    merged = merge compare a b /\
    sorted_list compare merged /\
    Permutation (a ++ b) merged /\
    (forall v, filter (equal_to compare v) merged
               = filter (equal_to compare v) a
                 ++ filter (equal_to compare v) b) /\
    Permutation B2 B2'.
Proof.
  intros Horder Hok Hbs HR H1 H2 Hn2 Hn1 Hb Hsa Hsb HsB1 HsA HeA HsB HeB
         Hb1 Hb2 Hl2 Hf.
  destruct (block_merge_spec size compare Horder base r b1 b2 nR n1 n2 Hok
              bs buffer2 Hbs Hb2 Hl2 Hn2 a b B1 B2 A B buffer1 fuel)
    as (B2' & Hperm & Hrun); auto.
  exists (merge compare a b), B2'.
  split; [exact Hrun |]. split; [reflexivity |].
  split; [now apply merge_sorted |].
  split; [apply merge_perm |].
  split; [| exact Hperm].
  intros v. now apply merge_stable.
Qed.

Example runs_for_block_merge :
  sorted_list Z.sub [1; 3; 5; 7; 9] /\ sorted_list Z.sub [2; 3; 4; 8; 10; 11] /\
  strictly_sorted Z.sub [20; 30].
Proof.
  repeat split; unfold sorted_list, strictly_sorted;
    repeat (constructor; [| repeat constructor; lia]); constructor.
Qed.

Lemma block_merge_merges_a_pair_witness :
  exists merged B2',
    block_merge (ST := list_store 8) 22
      (three_windows (repeat 0 16) 5 0 2
         ([1; 3; 5; 7; 9] ++ [2; 3; 4; 8; 10; 11]) [20; 30] [41; 40; 42])
      8 Z.sub [] 0 (Z.of_nat 2) (Range_new 0 2) (Range_new 2 5)
      (Range_new 5 10) (Range_new 10 16)
    = Done (three_windows (repeat 0 16) 5 0 2 merged [20; 30] B2', []) /\
    merged = merge Z.sub [1; 3; 5; 7; 9] [2; 3; 4; 8; 10; 11] /\
    sorted_list Z.sub merged /\
    Permutation ([1; 3; 5; 7; 9] ++ [2; 3; 4; 8; 10; 11]) merged /\
    (forall v, filter (equal_to Z.sub v) merged
               = filter (equal_to Z.sub v) [1; 3; 5; 7; 9]
                 ++ filter (equal_to Z.sub v) [2; 3; 4; 8; 10; 11]) /\
    Permutation [41; 40; 42] B2'.
Proof.
  apply (block_merge_merges_a_pair 8 Z.sub (repeat 0 16) 5 0 2 11 2 3 2
           [1; 3; 5; 7; 9] [2; 3; 4; 8; 10; 11] [20; 30] [41; 40; 42]
           (Range_new 5 10) (Range_new 10 16) (Range_new 0 2)
           (Range_new 2 5) 22).
  - exact Z_sub_total_order.
  - unfold windows_ok, fits. cbn [length repeat Z.of_nat].
    rewrite SIZE_MAX1_eq. lia.
  - lia.
  - reflexivity.
  - reflexivity.
  - reflexivity.
  - cbn. lia.
  - cbn. lia.
  - discriminate.
  - exact (proj1 runs_for_block_merge).
  - exact (proj1 (proj2 runs_for_block_merge)).
  - exact (proj2 (proj2 runs_for_block_merge)).
  - reflexivity.
  - reflexivity.
  - reflexivity.
  - reflexivity.
  - reflexivity.
  - reflexivity.
  - reflexivity.
  - cbn. lia.
Defined.





(** X21. The making of an internal buffer at the start of a run, in
    [new_WikiSort] with no cache. For a comparator with total-order
    semantics and a sorted run [A] of the array that is not empty: the
    count of the values of [A] that differ, up to [find] of them, returns
    a place [last] in [A] and a [count] of at least one, which is [find]
    at most unless it is one. When it is two at least, the pull to the
    left of [count] values from [last] to the start of [A] replaces the
    run by a buffer of [count] items that go strictly up, followed by the
    other items of the run, still sorted; merging the buffer with these
    gives the run as it was, and the rest of the array is as it was. *)
Theorem left_pull_gathers_distinct_values {T : Type} (size : Z)
    (compare : Comparison T) (array : list T) (A : Range) (find : Z)
    (fuel : nat) :
  total_order compare ->
  fits size array ->
  0 <= start A -> start A < end_ A -> end_ A <= Z.of_nat (length array) ->
  sorted_list compare (slice array (start A) (end_ A)) ->
  find < SIZE_MAX1 ->
  (2 * length array <= fuel)%nat ->
  exists last count buffer rest,
    count_A (ST := list_store size) fuel array size compare A find
      (start A) 1
    = Done (last, count) /\
    1 <= count /\ (count <= find \/ count = 1) /\
    Z.of_nat (length buffer) = count /\
    strictly_sorted compare buffer /\ sorted_list compare rest /\
    merge compare buffer rest = slice array (start A) (end_ A) /\
    forall p : Pull,
      pull_from p = last -> pull_to p = start A -> pull_count p = count ->
      2 <= count ->
      pull_out (ST := list_store size) fuel array size compare [] 0 p
      = Done (splice array (start A) (buffer ++ rest), [],
              set_pull_from p (start A + count - 1)).
Proof.
  intros Horder Hfit H0 Hne He Hsorted Hfind Hf.
  destruct (count_A_run size compare Horder array A find fuel)
    as (segs & x & tail & Eslice & Hgrouped & Hcount & Hcap & _); auto;
    try lia.
  exists (start A + Z.of_nat (length (flat segs))),
         (1 + Z.of_nat (length segs)),
         (map fst segs ++ [x]), (flat_map snd segs ++ tail).
  rewrite Eslice in Hsorted.
  split; [exact Hcount |].
  split; [lia |].
  split; [destruct Hcap as [Hcap | ->]; [left; lia | right; reflexivity] |].
  split; [rewrite length_app, length_map; cbn [length]; lia |].
  split; [now apply (pulled_left_strict compare segs x tail) |].
  split; [apply (pulled_left_sorted compare segs x tail []); exact Hsorted |].
  split; [rewrite Eslice; now apply pulled_left_merge |].
  intros p Hfrom Hto Hpc Htwo.
  rewrite (pull_out_left size compare Horder array p A segs x tail fuel);
    auto; try lia.
  - rewrite Hpc. reflexivity.
  - intros ->. cbn [length] in Htwo. lia.
Qed.

Example run_for_left_pull :
  sorted_list Z.sub (slice [9; 1; 1; 2; 4; 4; 4; 7; 8; 0] 1 9).
Proof.
  unfold sorted_list. cbn.
  repeat (constructor; [| repeat constructor; lia]); constructor.
Qed.

Lemma left_pull_gathers_distinct_values_witness :
  exists last count buffer rest,
    count_A (ST := list_store 8) 20 [9; 1; 1; 2; 4; 4; 4; 7; 8; 0] 8 Z.sub
      (Range_new 1 9) 3 (start (Range_new 1 9)) 1
    = Done (last, count) /\
    1 <= count /\ (count <= 3 \/ count = 1) /\
    Z.of_nat (length buffer) = count /\
    strictly_sorted Z.sub buffer /\ sorted_list Z.sub rest /\
    merge Z.sub buffer rest
    = slice [9; 1; 1; 2; 4; 4; 4; 7; 8; 0] (start (Range_new 1 9))
        (end_ (Range_new 1 9)) /\
    forall p : Pull,
      pull_from p = last -> pull_to p = start (Range_new 1 9) ->
      pull_count p = count ->
      2 <= count ->
      pull_out (ST := list_store 8) 20 [9; 1; 1; 2; 4; 4; 4; 7; 8; 0] 8
        Z.sub [] 0 p
      = Done (splice [9; 1; 1; 2; 4; 4; 4; 7; 8; 0] (start (Range_new 1 9))
                (buffer ++ rest), [],
              set_pull_from p (start (Range_new 1 9) + count - 1)).
Proof.
  apply (left_pull_gathers_distinct_values 8 Z.sub
           [9; 1; 1; 2; 4; 4; 4; 7; 8; 0] (Range_new 1 9) 3 20).
  - exact Z_sub_total_order.
  - split; [lia | vm_compute; reflexivity].
  - cbn. lia.
  - cbn. lia.
  - cbn. lia.
  - exact run_for_left_pull.
  - vm_compute. reflexivity.
  - cbn. lia.
Defined.

(** X22. The making of an internal buffer at the end of a run, in
    [new_WikiSort] with no cache. For a comparator with total-order
    semantics and a sorted run [B] of the array that is not empty: the
    count of the values of [B] that differ, from its end and up to [find]
    of them, returns a place [last] in [B] and a [count] of at least one,
    which is [find] at most unless it is one. The pull to the right of
    [count] values from [last] to the end of [B] replaces the run by the
    other items of the run, still sorted, followed by a buffer of [count]
    items that go strictly up; merging these items with the buffer gives
    the run as it was, and the rest of the array is as it was. *)
Theorem right_pull_gathers_distinct_values {T : Type} (size : Z)
    (compare : Comparison T) (array : list T) (B : Range) (find : Z)
    (fuel : nat) :
  total_order compare ->
  fits size array ->
  0 <= start B -> start B < end_ B -> end_ B <= Z.of_nat (length array) ->
  sorted_list compare (slice array (start B) (end_ B)) ->
  find < SIZE_MAX1 ->
  (2 * length array <= fuel)%nat ->
  exists last count rest buffer,
    count_B (ST := list_store size) fuel array size compare B find
      (end_ B -% 1) 1
    = Done (last, count) /\
    1 <= count /\ (count <= find \/ count = 1) /\
    Z.of_nat (length buffer) = count /\
    strictly_sorted compare buffer /\ sorted_list compare rest /\
    merge compare rest buffer = slice array (start B) (end_ B) /\
    forall p : Pull,
      pull_from p = last -> pull_to p = end_ B -> pull_count p = count ->
      pull_out (ST := list_store size) fuel array size compare [] 0 p
      = Done (splice array (start B) (rest ++ buffer), [],
              set_pull_from p (end_ B - count)).
Proof.
  intros Horder Hfit H0 Hne He Hsorted Hfind Hf.
  destruct (count_B_run size compare Horder array B find fuel)
    as (front & y & segs & Eslice & Hgrouped & Hcount & Hcap & _); auto;
    try lia.
  exists (start B + Z.of_nat (length front)),
         (1 + Z.of_nat (length segs)),
         (front ++ flat_map fst segs), (y :: map snd segs).
  rewrite Eslice in Hsorted.
  split; [exact Hcount |].
  split; [lia |].
  split; [destruct Hcap as [Hcap | ->]; [left; lia | right; reflexivity] |].
  split; [cbn [length]; rewrite length_map; lia |].
  split; [now apply (pulled_right_strict compare front y segs) |].
  split.
  { replace (front ++ y :: flat_right segs)
      with ((front ++ [y]) ++ flat_right segs) in Hsorted
      by (rewrite <- app_assoc; reflexivity).
    apply (pulled_right_sorted compare segs (front ++ [y])) in Hsorted.
    rewrite <- app_assoc in Hsorted.
    now apply (sorted_list_remove compare front [y]) in Hsorted. }
  split; [rewrite Eslice; now apply pulled_right_merge |].
  intros p Hfrom Hto Hpc.
  rewrite (pull_out_right size compare Horder array p B front y segs fuel);
    auto; try lia.
  rewrite Hpc. reflexivity.
Qed.

Example run_for_right_pull :
  sorted_list Z.sub (slice [9; 1; 1; 2; 4; 4; 4; 7; 8; 0] 1 9).
Proof.
  unfold sorted_list. cbn.
  repeat (constructor; [| repeat constructor; lia]); constructor.
Qed.

Lemma right_pull_gathers_distinct_values_witness :
  exists last count rest buffer,
    count_B (ST := list_store 8) 20 [9; 1; 1; 2; 4; 4; 4; 7; 8; 0] 8 Z.sub
      (Range_new 1 9) 3 (end_ (Range_new 1 9) -% 1) 1
    = Done (last, count) /\
    1 <= count /\ (count <= 3 \/ count = 1) /\
    Z.of_nat (length buffer) = count /\
    strictly_sorted Z.sub buffer /\ sorted_list Z.sub rest /\
    merge Z.sub rest buffer
    = slice [9; 1; 1; 2; 4; 4; 4; 7; 8; 0] (start (Range_new 1 9))
        (end_ (Range_new 1 9)) /\
    forall p : Pull,
      pull_from p = last -> pull_to p = end_ (Range_new 1 9) ->
      pull_count p = count ->
      pull_out (ST := list_store 8) 20 [9; 1; 1; 2; 4; 4; 4; 7; 8; 0] 8
        Z.sub [] 0 p
      = Done (splice [9; 1; 1; 2; 4; 4; 4; 7; 8; 0] (start (Range_new 1 9))
                (rest ++ buffer), [],
              set_pull_from p (end_ (Range_new 1 9) - count)).
Proof.
  apply (right_pull_gathers_distinct_values 8 Z.sub
           [9; 1; 1; 2; 4; 4; 4; 7; 8; 0] (Range_new 1 9) 3 20).
  - exact Z_sub_total_order.
  - split; [lia | vm_compute; reflexivity].
  - cbn. lia.
  - cbn. lia.
  - cbn. lia.
  - exact run_for_right_pull.
  - vm_compute. reflexivity.
  - cbn. lia.
Defined.

(** X23. The way back of an internal buffer that was pulled to the left,
    in [new_WikiSort] with no cache. For a comparator with total-order
    semantics, let the range of the pull start with the buffer, sorted,
    followed by sorted items up to the end of the range. Then the
    redistribution, given fuel for the length of the range, replaces the
    range by the stable sorted merge of the buffer with the items after
    it (an item of the buffer going before the items that compare equal
    to it) and leaves the rest of the array as it was. *)
Theorem redistribute_merges_left_buffer {T : Type} (size : Z)
    (compare : Comparison T) (pre X m post : list T) (p : Pull)
    (fuel : nat) :
  total_order compare ->
  fits size (pre ++ X ++ m ++ post) ->
  sorted_list compare X -> sorted_list compare m ->
  pull_from p > pull_to p ->
  pull_range p
  = Range_new (Z.of_nat (length pre))
      (Z.of_nat (length pre + length X + length m)) ->
  pull_count p = Z.of_nat (length X) ->
  2 * Z.of_nat (length X) < SIZE_MAX1 ->
  (length X + length m <= fuel)%nat ->
  exists merged,
    redistribute (ST := list_store size) fuel (pre ++ X ++ m ++ post) size
      compare [] 0 p
    = Done (pre ++ merged ++ post, []) /\
    merged = merge compare X m /\
    sorted_list compare merged /\
    Permutation (X ++ m) merged /\
    (forall v, filter (equal_to compare v) merged
               = filter (equal_to compare v) X
                 ++ filter (equal_to compare v) m).
Proof.
  intros Horder Hfit HsX Hsm Hdir Hrange Hcount Hu Hf.
  exists (merge compare X m).
  split.
  - unfold redistribute.
    replace (pull_from p >? pull_to p) with true
      by (symmetry; rewrite Z.gtb_ltb; apply Z.ltb_lt; lia).
    rewrite Hrange, Hcount. cbn [start end_].
    pose proof Hfit as [Hs Hbound]. lengths.
    assert (Hlin : Z.of_nat (length pre + (length X + (length m
                     + length post))) < SIZE_MAX1) by nia.
    apply (redistribute_right_spec size compare Horder post p X pre m);
      auto; rewrite ?Hrange; cbn [start end_]; unwrap; lia.
  - split; [reflexivity |].
    split; [now apply merge_sorted |].
    split; [apply merge_perm |].
    intros v. now apply merge_stable.
Qed.

Example runs_for_left_buffer :
  sorted_list Z.sub [2; 5; 8] /\ sorted_list Z.sub [1; 2; 2; 5; 6; 9].
Proof.
  split; unfold sorted_list;
    repeat (constructor; [| repeat constructor; lia]); constructor.
Qed.

Lemma redistribute_merges_left_buffer_witness :
  exists merged,
    redistribute (ST := list_store 8) 9
      ([0] ++ [2; 5; 8] ++ [1; 2; 2; 5; 6; 9] ++ [7]) 8 Z.sub [] 0
      {| pull_from := 3; pull_to := 1; pull_count := 3;
         pull_range := Range_new 1 10 |}
    = Done ([0] ++ merged ++ [7], []) /\
    merged = merge Z.sub [2; 5; 8] [1; 2; 2; 5; 6; 9] /\
    sorted_list Z.sub merged /\
    Permutation ([2; 5; 8] ++ [1; 2; 2; 5; 6; 9]) merged /\
    (forall v, filter (equal_to Z.sub v) merged
               = filter (equal_to Z.sub v) [2; 5; 8]
                 ++ filter (equal_to Z.sub v) [1; 2; 2; 5; 6; 9]).
Proof.
  apply (redistribute_merges_left_buffer 8 Z.sub [0] [2; 5; 8]
           [1; 2; 2; 5; 6; 9] [7]
           {| pull_from := 3; pull_to := 1; pull_count := 3;
              pull_range := Range_new 1 10 |} 9).
  - exact Z_sub_total_order.
  - split; [lia | vm_compute; reflexivity].
  - exact (proj1 runs_for_left_buffer).
  - exact (proj2 runs_for_left_buffer).
  - cbn. lia.
  - reflexivity.
  - reflexivity.
  - vm_compute. reflexivity.
  - cbn. lia.
Defined.

(** X24. The way back of an internal buffer that was pulled to the right,
    in [new_WikiSort] with no cache. For a comparator with total-order
    semantics, let the range of the pull end with the buffer, sorted,
    and hold sorted items from its start up to the buffer. Then the
    redistribution, given fuel for the length of the range, replaces the
    range by the stable sorted merge of these items with the buffer (an
    item of the buffer going after the items that compare equal to it)
    and leaves the rest of the array as it was. *)
Theorem redistribute_merges_right_buffer {T : Type} (size : Z)
    (compare : Comparison T) (pre m Y post : list T) (p : Pull)
    (fuel : nat) :
  total_order compare ->
  fits size (pre ++ m ++ Y ++ post) ->
  sorted_list compare m -> sorted_list compare Y ->
  pull_from p < pull_to p ->
  pull_range p
  = Range_new (Z.of_nat (length pre))
      (Z.of_nat (length pre + length m + length Y)) ->
  pull_count p = Z.of_nat (length Y) ->
  2 * Z.of_nat (length Y) < SIZE_MAX1 ->
  (length Y + length m <= fuel)%nat ->
  exists merged,
    redistribute (ST := list_store size) fuel (pre ++ m ++ Y ++ post) size
      compare [] 0 p
    = Done (pre ++ merged ++ post, []) /\
    merged = merge compare m Y /\
    sorted_list compare merged /\
    Permutation (m ++ Y) merged /\
    (forall v, filter (equal_to compare v) merged
               = filter (equal_to compare v) m
                 ++ filter (equal_to compare v) Y).
Proof.
  intros Horder Hfit Hsm HsY Hdir Hrange Hcount Hu Hf.
  exists (merge compare m Y).
  split.
  - unfold redistribute.
    replace (pull_from p >? pull_to p) with false
      by (symmetry; rewrite Z.gtb_ltb; apply Z.ltb_ge; lia).
    replace (pull_from p <? pull_to p) with true
      by (symmetry; apply Z.ltb_lt; lia).
    rewrite Hrange, Hcount. cbn [start end_].
    pose proof Hfit as [Hs Hbound]. lengths.
    assert (Hlin : Z.of_nat (length pre + (length m + (length Y
                     + length post))) < SIZE_MAX1) by nia.
    apply (redistribute_left_spec size compare Horder pre p Y m post);
      auto; rewrite ?Hrange; cbn [start end_]; unwrap; lia.
  - split; [reflexivity |].
    split; [now apply merge_sorted |].
    split; [apply merge_perm |].
    intros v. now apply merge_stable.
Qed.

Example runs_for_right_buffer :
  sorted_list Z.sub [1; 2; 2; 5; 6; 9] /\ sorted_list Z.sub [2; 5; 8].
Proof.
  split; unfold sorted_list;
    repeat (constructor; [| repeat constructor; lia]); constructor.
Qed.

Lemma redistribute_merges_right_buffer_witness :
  exists merged,
    redistribute (ST := list_store 8) 9
      ([0] ++ [1; 2; 2; 5; 6; 9] ++ [2; 5; 8] ++ [7]) 8 Z.sub [] 0
      {| pull_from := 7; pull_to := 10; pull_count := 3;
         pull_range := Range_new 1 10 |}
    = Done ([0] ++ merged ++ [7], []) /\
    merged = merge Z.sub [1; 2; 2; 5; 6; 9] [2; 5; 8] /\
    sorted_list Z.sub merged /\
    Permutation ([1; 2; 2; 5; 6; 9] ++ [2; 5; 8]) merged /\
    (forall v, filter (equal_to Z.sub v) merged
               = filter (equal_to Z.sub v) [1; 2; 2; 5; 6; 9]
                 ++ filter (equal_to Z.sub v) [2; 5; 8]).
Proof.
  apply (redistribute_merges_right_buffer 8 Z.sub [0] [1; 2; 2; 5; 6; 9]
           [2; 5; 8] [7]
           {| pull_from := 7; pull_to := 10; pull_count := 3;
              pull_range := Range_new 1 10 |} 9).
  - exact Z_sub_total_order.
  - split; [lia | vm_compute; reflexivity].
  - exact (proj1 runs_for_right_buffer).
  - exact (proj2 runs_for_right_buffer).
  - cbn. lia.
  - reflexivity.
  - reflexivity.
  - vm_compute. reflexivity.
  - cbn. lia.
Defined.

(** * From the groups of the first level to the sorted array *)

Section FirstLevel.
Context (N D W M : Z).
Hypothesis HN : N < SIZE_MAX1.
Hypothesis HW : 0 < W.
Hypothesis HD : D = M * W.

(* the ranges of a level, from the range [j] on *)
Lemma emitted_level :
  forall (n : nat) (j : Z) (me : WikiIterator) (fuel : nat) (rs : list Range),
    handed_out N D W j me -> 0 <= j -> j + Z.of_nat n = M ->
    emitted fuel me = Some rs ->
    forall k, j <= k < M ->
      In (Range_new (k * (N * W) / D) ((k + 1) * (N * W) / D)) rs.
Proof.
  induction n as [|n IH]; intros j me fuel rs Hme Hj HjM Hem k Hk; [lia |].
  destruct (WikiIterator_finished_spec N D W M j me Hme HW HD ltac:(lia))
    as (Hfin & _ & _).
  assert (Hnot : WikiIterator_finished me = false).
  { destruct (WikiIterator_finished me); [| reflexivity].
    pose proof (proj1 Hfin eq_refl). lia. }
  destruct fuel as [|fuel]; cbn [emitted] in Hem; rewrite Hnot in Hem;
    [discriminate |].
  destruct (WikiIterator_nextRange_spec N D W M j me Hme HN HW HD ltac:(lia))
    as (Hme1 & HsA & HeA & _).
  destruct (WikiIterator_nextRange me) as [A me1] eqn:E1.
  cbn [fst snd] in *.
  destruct (emitted fuel me1) as [rs1|] eqn:E2; [| discriminate].
  injection Hem as <-.
  pose proof (handed_out_decimal N D W j me Hme) as Ed0.
  pose proof (handed_out_decimal N D W (j + 1) me1 Hme1) as Ed1.
  destruct (Z.eq_dec k j) as [-> | Hne].
  - left. rewrite <- Ed0, <- Ed1.
    destruct A as [sA eA]. cbn [start end_] in *. now subst.
  - right. apply (IH (j + 1) me1 fuel rs1); auto; lia.
Qed.
End FirstLevel.

Section GroupsIterator.
Context {T : Type} (size : Z) (compare : Comparison T).
Context (N D W M : Z).
Hypothesis HN : N < SIZE_MAX1.
Hypothesis HW : 0 < W.
Hypothesis HD : D = M * W.
#[local] Hint Extern 0 (Store (list _) _) =>
  exact (list_store size) : typeclass_instances.

(* the iterator that the sort of the groups leaves *)
Lemma sort_groups_iterator :
  forall (n : nat) (j : Z) (me : WikiIterator) (fuel : nat)
         (array array' : list T) (it' : WikiIterator),
    handed_out N D W j me -> 0 <= j -> j + Z.of_nat n = M ->
    sort_groups fuel array size compare me = Done (array', it') ->
    handed_out N D W M it'.
Proof.
  induction n as [|n IH]; intros j me fuel array array' it' Hme Hj HjM Hrun.
  - assert (EjM : j = M) by lia.
    destruct (WikiIterator_finished_spec N D W M j me Hme HW HD ltac:(lia))
      as (Hfin & _ & _).
    destruct fuel; cbn [sort_groups] in Hrun;
      rewrite (proj2 Hfin EjM) in Hrun; injection Hrun as _ <-;
      now rewrite <- EjM.
  - destruct (WikiIterator_finished_spec N D W M j me Hme HW HD ltac:(lia))
      as (Hfin & _ & _).
    assert (Hnot : WikiIterator_finished me = false).
    { destruct (WikiIterator_finished me); [| reflexivity].
      pose proof (proj1 Hfin eq_refl). lia. }
    destruct fuel as [|fuel]; cbn [sort_groups] in Hrun;
      rewrite Hnot in Hrun; [discriminate |].
    destruct (WikiIterator_nextRange_spec N D W M j me Hme HN HW HD
                ltac:(lia)) as (Hme1 & _).
    destruct (WikiIterator_nextRange me) as [A me1] eqn:E1.
    cbn [fst snd] in *.
    destruct (run_network _ _ _ _ _ _) as [[array1 order1] | |];
      cbn [bind] in Hrun; try discriminate.
    apply (IH (j + 1) me1 fuel array1 array' it'); auto; lia.
Qed.
End GroupsIterator.

Section Levels.
Context {T : Type} (size : Z) (compare : Comparison T).
Hypothesis Horder : total_order compare.
Context (array0 : list T) (N D d : Z).
Hypothesis HNlen : N = Z.of_nat (length array0).
Hypothesis Hfit0 : fits size array0.
Hypothesis Hd : 1 <= d.
Hypothesis HD : D = 2 ^ d.
#[local] Hint Extern 0 (Store (list _) _) =>
  exact (list_store size) : typeclass_instances.

(* every run of the level [w] holds the stable sort of the items that
   were there at the start *)
#[local] Abbreviation level_sorted w arr :=
  (length arr = length array0 /\
   forall k, 0 <= k < 2 ^ (d - w) ->
     slice arr (k * (N * 2 ^ w) / D) ((k + 1) * (N * 2 ^ w) / D)
     = stable_sort compare
         (slice array0 (k * (N * 2 ^ w) / D) ((k + 1) * (N * 2 ^ w) / D))).

(* one level: the runs are merged two by two *)
Lemma level_step (w : Z) (it : WikiIterator) (arr : list T) (fuel : nat) :
  0 <= w <= d - 1 ->
  at_level N D (2 ^ w) it ->
  level_sorted w arr ->
  (3 * length array0 <= fuel)%nat ->
  exists arr1 it',
    merge_in_place fuel arr size compare [] 0 it = Done (arr1, [], it') /\
    handed_out N D (2 ^ w) (2 ^ (d - w)) it' /\
    length arr1 = length array0 /\
    forall i, 0 <= i < 2 ^ (d - w - 1) ->
      slice arr1 ((2 * i) * (N * 2 ^ w) / D)
        ((2 * i + 2) * (N * 2 ^ w) / D)
      = stable_sort compare
          (slice array0 ((2 * i) * (N * 2 ^ w) / D)
             ((2 * i + 2) * (N * 2 ^ w) / D)).
Proof.
  intros Hw Hat [Hlen Hinv] Hfuel.
  set (W := 2 ^ w) in *. set (M := 2 ^ (d - w)) in *.
  set (H := 2 ^ (d - w - 1)) in *.
  assert (HW : 0 < W) by (apply Z.pow_pos_nonneg; lia).
  assert (HH : 0 < H) by (apply Z.pow_pos_nonneg; lia).
  assert (HM : M = 2 * H).
  { subst M H. rewrite <- Z.pow_succ_r by lia. f_equal. lia. }
  assert (HDM : D = M * W).
  { subst M W. rewrite <- Z.pow_add_r by lia. rewrite HD. f_equal. lia. }
  pose proof Hfit0 as [Hs0 Hb0].
  assert (HN : N < SIZE_MAX1) by nia.
  assert (Hfit : fits size arr) by (apply (fits_length size array0); auto).
  pose proof (WikiIterator_begin_spec N D W it Hat) as Hbeg.
  pose proof (at_level_step N D W M HW HDM it Hat) as Hstep.
  destruct (pairs_from_level N D W M HN HW HDM (Z.to_nat H) 0
              (WikiIterator_begin it) (Z.to_nat H) Hbeg ltac:(lia)
              ltac:(lia) ltac:(lia))
    as (l & it' & Ep & Hit' & Hside & Hll & Hin & Hall).
  change (decimal (WikiIterator_begin it)) with 0 in Hside.
  change (decimal_step (WikiIterator_begin it)) with (decimal_step it)
    in Hin.
  rewrite Z2Nat.id in Hin, Hall by lia.
  assert (HNarr : N <= Z.of_nat (length arr)) by lia.
  pose proof (level_bounds size arr l 0 N Hfit Hside ltac:(lia) HNarr)
    as Hbounds.
  destruct (merge_in_place_spec size compare Horder arr l 0 N Hfit Hside
              ltac:(lia) HNarr (decimal_step it) it it' (Z.to_nat H)
              eq_refl ltac:(lia) Ep) with (fuel := fuel)
    as (arr1 & Erun & Hl1 & Hmerged).
  - apply Forall_forall. intros [A B] HAB. cbn [fst snd].
    destruct (Hin A B HAB) as (i & Hi & HsA & HeA & HsB & HeB & _).
    rewrite HsB, HsA, HeA, HeB.
    replace (0 + 2 * i + 1) with (2 * i + 1) by lia.
    replace (0 + 2 * i + 2) with (2 * i + 1 + 1) by lia.
    replace (0 + 2 * i) with (2 * i) by lia.
    rewrite (Hinv (2 * i)), (Hinv (2 * i + 1)) by lia.
    split; now apply stable_sort_sorted.
  - intros A B HAB.
    destruct (Hin A B HAB) as (i & _ & _ & _ & _ & _ & HlA & HlB).
    now split.
  - intros ->. cbn [length] in Hll. lia.
  - assert (HHN : H <= N) by (destruct Hat as (_ & _ & ? & _); nia).
    rewrite Hll. lia.
  - exists arr1, it'.
    split; [exact Erun |]. split; [exact Hit' |].
    split; [lia |].
    intros i Hi.
    specialize (Hall i Hi).
    replace (0 + 2 * i + 1) with (2 * i + 1) in Hall by lia.
    replace (0 + 2 * i + 2) with (2 * i + 2) in Hall by lia.
    replace (0 + 2 * i) with (2 * i) in Hall by lia.
    pose proof (Hbounds _ _ Hall) as (H0 & H1 & _ & H3 & H4 & _).
    cbn [start end_] in H0, H1, H3, H4.
    pose proof (Hmerged _ _ Hall) as Em. cbn [start end_] in Em.
    rewrite Em.
    pose proof (Hinv (2 * i) ltac:(lia)) as E1.
    pose proof (Hinv (2 * i + 1) ltac:(lia)) as E2.
    replace (2 * i + 1 + 1) with (2 * i + 2) in E2 by lia.
    rewrite E1, E2.
    rewrite <- (stable_sort_app compare Horder).
    rewrite <- slice_split by lia. reflexivity.
Qed.

(* all the levels from [w] on: the array ends up as the stable sort *)
Lemma merge_levels_spec :
  forall (k : nat) (w : Z) (it : WikiIterator) (arr : list T) (fuel : nat),
    0 <= w -> w + Z.of_nat k = d - 1 ->
    at_level N D (2 ^ w) it ->
    level_sorted w arr ->
    (3 * length array0 + k + 1 <= fuel)%nat ->
    merge_levels fuel arr N size compare [] 0 it
    = Done (stable_sort compare array0).
Proof.
  induction k as [| k IH]; intros w it arr fuel Hw Hk Hat Hinv Hfuel;
    (destruct fuel as [| fuel']; [lia |]).
  all: assert (HW : 0 < 2 ^ w) by (apply Z.pow_pos_nonneg; lia).
  all: assert (HDM : D = 2 ^ (d - w) * 2 ^ w)
    by (rewrite <- Z.pow_add_r by lia; rewrite HD; f_equal; lia).
  all: pose proof (at_level_step N D (2 ^ w) (2 ^ (d - w)) HW HDM it Hat)
    as Hstep.
  all: pose proof Hfit0 as [Hs0 Hb0].
  all: assert (HN : N < SIZE_MAX1) by nia.
  all: destruct (level_step w it arr (S fuel') ltac:(lia) Hat Hinv
                   ltac:(lia)) as (arr1 & it' & Erun & Hit' & Hl1 & Hm).
  all: cbn [merge_levels].
  all: replace (WikiIterator_length it <? 0) with false
    by (symmetry; apply Z.ltb_ge; unfold WikiIterator_length; lia).
  all: rewrite Erun; cbn [bind].
  all: assert (H2W : 2 * 2 ^ w <= D)
    by (rewrite HD, <- Z.pow_succ_r by lia; apply Z.pow_le_mono_r; lia).
  all: destruct (WikiIterator_nextLevel_spec N D (2 ^ w) it' (proj1 Hit')
                   HN HW H2W) as (Hat' & Hmore & _ & _).
  all: destruct (WikiIterator_nextLevel it') as [more it2];
    cbn [fst snd] in Hat', Hmore.
  - assert (E2W : D = 2 ^ w * 2).
    { rewrite HD, Z.mul_comm, <- Z.pow_succ_r by lia. f_equal. lia. }
    destruct more; [destruct Hmore as [Hmore _]; specialize (Hmore eq_refl);
                    lia |].
    f_equal.
    assert (H1 : 0 <= 0 < 2 ^ (d - w - 1))
      by (split; [lia | apply Z.pow_pos_nonneg; lia]).
    pose proof (Hm 0 H1) as E.
    replace (2 * 0 * (N * 2 ^ w) / D) with 0 in E by reflexivity.
    replace ((2 * 0 + 2) * (N * 2 ^ w) / D) with N in E.
    2:{ rewrite E2W.
        replace ((2 * 0 + 2) * (N * 2 ^ w)) with (N * (2 ^ w * 2)) by ring.
        symmetry. apply Z.div_mul. lia. }
    rewrite <- (slice_all arr1), <- (slice_all array0).
    rewrite Hl1, <- HNlen. exact E.
  - destruct more.
    2:{ destruct Hmore as [_ Hmore].
        assert (2 * 2 ^ w < D).
        { rewrite HD, <- Z.pow_succ_r by lia. apply Z.pow_lt_mono_r; lia. }
        specialize (Hmore ltac:(assumption)). discriminate. }
    apply (IH (w + 1)); try lia.
    + replace (2 ^ (w + 1)) with (2 * 2 ^ w)
        by (symmetry; apply Z.pow_succ_r; lia).
      exact Hat'.
    + split; [exact Hl1 |].
      intros k0 Hk0.
      replace (d - (w + 1)) with (d - w - 1) in Hk0 by lia.
      pose proof (Hm k0 Hk0) as E.
      replace (2 ^ (w + 1)) with (2 * 2 ^ w)
        by (symmetry; apply Z.pow_succ_r; lia).
      replace (k0 * (N * (2 * 2 ^ w))) with (2 * k0 * (N * 2 ^ w)) by ring.
      replace ((k0 + 1) * (N * (2 * 2 ^ w)))
        with ((2 * k0 + 2) * (N * 2 ^ w)) by ring.
      exact E.
Qed.
End Levels.

Section Whole.
Context {T : Type} (size : Z) (compare : Comparison T).
Hypothesis Horder : total_order compare.
#[local] Hint Extern 0 (Store (list _) _) =>
  exact (list_store size) : typeclass_instances.

(* an array of eight items or more: the groups, then the levels *)
Lemma new_WikiSort_levels (array : list T) (fuel : nat) :
  fits size array -> (8 <= length array)%nat ->
  (4 * length array <= fuel)%nat ->
  new_WikiSort fuel array (Z.of_nat (length array)) size compare
  = Done (stable_sort compare array).
Proof.
  intros Hfit Hlen Hfuel.
  set (N := Z.of_nat (length array)) in *.
  assert (HN : N < SIZE_MAX1) by (destruct Hfit as [Hs0 Hb]; nia).
  assert (HN8 : 8 <= N) by (unfold N; lia).
  assert (Hlog : 3 <= Z.log2 N).
  { change 3 with (Z.log2 8) at 1. apply Z.log2_le_mono. lia. }
  assert (HlogN : Z.log2 N < N) by (apply Z.log2_lt_lin; lia).
  set (d := Z.log2 N - 2) in *.
  assert (Hd : 1 <= d) by (unfold d; lia).
  set (D := 2 ^ d) in *.
  assert (HD0 : 0 < D) by (apply Z.pow_pos_nonneg; lia).
  destruct (first_level_groups N ltac:(lia))
    as (it0 & rs & Hnew & Hrs & Hcons & Hlens & Hcount).
  destruct (WikiIterator_new_spec N ltac:(lia)) as (it1 & Hnew1 & Hat0 & _).
  rewrite Hnew in Hnew1. injection Hnew1 as <-.
  fold d in Hat0. fold D in Hat0.
  pose proof (WikiIterator_begin_spec N D 1 it0 Hat0) as Hout.
  destruct (sort_groups_spec size compare Horder rs (Z.to_nat N) fuel array
              (WikiIterator_begin it0) 0 N Hrs Hcons ltac:(lia)
              ltac:(unfold N; lia) Hlens Hfit ltac:(unfold N in *; lia))
    as (array' & it' & Hrun & Hlen' & Hall & _).
  assert (HDN : D <= N) by (destruct Hat0 as (_ & _ & H & _); lia).
  pose proof (sort_groups_iterator size compare N D 1 D HN ltac:(lia)
                ltac:(lia) (Z.to_nat D) 0 (WikiIterator_begin it0) fuel
                array array' it' Hout ltac:(lia) ltac:(lia) Hrun) as Hit'.
  pose proof (emitted_level N D 1 D HN ltac:(lia) ltac:(lia) (Z.to_nat D) 0
                (WikiIterator_begin it0) (Z.to_nat N) rs Hout ltac:(lia)
                ltac:(lia) Hrs) as Hin.
  unfold new_WikiSort.
  replace (N <? 4) with false by (symmetry; apply Z.ltb_ge; lia).
  rewrite Hnew. cbn [bind]. rewrite Hrun. cbn [bind].
  replace (N <? 8) with false by (symmetry; apply Z.ltb_ge; lia).
  apply (merge_levels_spec size compare Horder array N D d eq_refl Hfit Hd
           eq_refl (Z.to_nat (d - 1)) 0 it' array' fuel); try lia.
  - exact (proj1 Hit').
  - split; [exact Hlen' |].
    intros k Hk. rewrite Z.sub_0_r in Hk. fold D in Hk.
    rewrite Forall_forall in Hall.
    exact (Hall _ (Hin k Hk)).
Qed.
End Whole.

(** * A level of merging, and all of them *)

(** X25. One level of the merge sort of [new_WikiSort] with no cache, the
    branch [merge_in_place]. For a comparator with total-order semantics,
    let the iterator be at a level of runs of at least four items, let
    [l] be the pairs of ranges [(A, B)] that it hands out from its
    beginning until it is finished, side by side from the first item of
    the array to the last, and let each range hold a sorted run of
    [WikiIterator_length] items or one more. Then the level, given fuel
    for the pairs and twice the items, returns with the iterator
    finished and the cache untouched, keeps the length of the array, and
    leaves in the place of each pair the stable sorted merge of its two
    runs (an item of A going before the items of B that compare equal to
    it): the internal buffers that it pulled out are back in place. *)
Theorem merge_in_place_merges_each_pair {T : Type} (size : Z)
    (compare : Comparison T) (array : list T) (l : list (Range * Range))
    (it it' : WikiIterator) (fuel0 fuel : nat) :
  total_order compare ->
  fits size array ->
  4 <= WikiIterator_length it ->
  pairs_from fuel0 (WikiIterator_begin it) = Some (l, it') ->
  l <> [] ->
  side_by_side 0 l (Z.of_nat (length array)) ->
  (forall A B, In (A, B) l ->
     sorted_list compare (slice array (start A) (end_ A)) /\
     sorted_list compare (slice array (start B) (end_ B)) /\
     WikiIterator_length it <= end_ A - start A
       <= WikiIterator_length it + 1 /\
     WikiIterator_length it <= end_ B - start B
       <= WikiIterator_length it + 1) ->
  (length l + 2 * length array <= fuel)%nat ->
  exists array',
    merge_in_place (ST := list_store size) fuel array size compare [] 0 it
    = Done (array', [], it') /\
    WikiIterator_finished it' = true /\
    length array' = length array /\
    forall A B, In (A, B) l ->
      slice array' (start A) (end_ B)
      = merge compare (slice array (start A) (end_ A))
          (slice array (start B) (end_ B)).
Proof.
  intros Horder Hfit HL4 Hpairs Hl Hside Hruns Hfuel.
  destruct (merge_in_place_spec size compare Horder array l 0
              (Z.of_nat (length array)) Hfit Hside ltac:(lia) ltac:(lia)
              (WikiIterator_length it) it it' fuel0 eq_refl HL4 Hpairs)
    with (fuel := fuel) as (array' & Hrun & Hlen & Hmerged); auto.
  - apply Forall_forall. intros [A B] HAB. cbn [fst snd].
    destruct (Hruns A B HAB) as (HA & HB & _). now split.
  - intros A B HAB. destruct (Hruns A B HAB) as (_ & _ & HA & HB).
    now split.
  - exists array'. split; [exact Hrun |].
    split; [| split; [exact Hlen | exact Hmerged]].
    clear - Hpairs. revert l it' Hpairs.
    generalize (WikiIterator_begin it) as me.
    induction fuel0 as [|n IH]; intros me l it' H; cbn [pairs_from] in H.
    + destruct (WikiIterator_finished me) eqn:E; [| discriminate].
      now injection H as _ <-.
    + destruct (WikiIterator_finished me) eqn:E.
      * now injection H as _ <-.
      * destruct (WikiIterator_nextRange me) as [A me1].
        destruct (WikiIterator_nextRange me1) as [B me2].
        destruct (pairs_from n me2) as [[l1 me']|] eqn:E2; [| discriminate].
        injection H as _ <-. exact (IH _ _ _ E2).
Qed.

Example runs_of_a_level :
  forall A B,
    In (A, B) [(Range_new 0 4, Range_new 4 9);
               (Range_new 9 13, Range_new 13 18)] ->
    sorted_list Z.sub
      (slice [2; 4; 6; 8; 1; 3; 4; 5; 9; 0; 2; 2; 7; 1; 1; 3; 6; 8]
         (start A) (end_ A)) /\
    sorted_list Z.sub
      (slice [2; 4; 6; 8; 1; 3; 4; 5; 9; 0; 2; 2; 7; 1; 1; 3; 6; 8]
         (start B) (end_ B)) /\
    4 <= end_ A - start A <= 4 + 1 /\
    4 <= end_ B - start B <= 4 + 1.
Proof.
  intros A B [E | [E | []]]; injection E as <- <-;
    (split; [| split; [| cbn; lia]]); unfold sorted_list, slice;
    cbn -[Z.sub Z.le];
    repeat (constructor; [| repeat constructor; lia]); constructor.
Qed.

Lemma merge_in_place_merges_each_pair_witness :
  exists array',
    merge_in_place (ST := list_store 8) 38
      [2; 4; 6; 8; 1; 3; 4; 5; 9; 0; 2; 2; 7; 1; 1; 3; 6; 8] 8 Z.sub [] 0
      {| size := 18; power_of_two := 16; numerator := 0; decimal := 0;
         denominator := 4; decimal_step := 4; numerator_step := 2 |}
    = Done (array', [],
            {| size := 18; power_of_two := 16; numerator := 0;
               decimal := 18; denominator := 4; decimal_step := 4;
               numerator_step := 2 |}) /\
    WikiIterator_finished
      {| size := 18; power_of_two := 16; numerator := 0; decimal := 18;
         denominator := 4; decimal_step := 4; numerator_step := 2 |}
    = true /\
    length array'
    = length [2; 4; 6; 8; 1; 3; 4; 5; 9; 0; 2; 2; 7; 1; 1; 3; 6; 8] /\
    forall A B,
      In (A, B) [(Range_new 0 4, Range_new 4 9);
                 (Range_new 9 13, Range_new 13 18)] ->
      slice array' (start A) (end_ B)
      = merge Z.sub
          (slice [2; 4; 6; 8; 1; 3; 4; 5; 9; 0; 2; 2; 7; 1; 1; 3; 6; 8]
             (start A) (end_ A))
          (slice [2; 4; 6; 8; 1; 3; 4; 5; 9; 0; 2; 2; 7; 1; 1; 3; 6; 8]
             (start B) (end_ B)).
Proof.
  apply (merge_in_place_merges_each_pair 8 Z.sub
           [2; 4; 6; 8; 1; 3; 4; 5; 9; 0; 2; 2; 7; 1; 1; 3; 6; 8]
           [(Range_new 0 4, Range_new 4 9);
            (Range_new 9 13, Range_new 13 18)]
           {| size := 18; power_of_two := 16; numerator := 0; decimal := 0;
              denominator := 4; decimal_step := 4; numerator_step := 2 |}
           {| size := 18; power_of_two := 16; numerator := 0;
              decimal := 18; denominator := 4; decimal_step := 4;
              numerator_step := 2 |} 2 38).
  - exact Z_sub_total_order.
  - split; [lia | vm_compute; reflexivity].
  - cbn. lia.
  - vm_compute. reflexivity.
  - discriminate.
  - vm_compute. repeat split.
  - exact runs_of_a_level.
  - simpl. lia.
Defined.

(** X26. [new_WikiSort] on eight items or more, with no cache: the
    groups of four to eight items sorted by the networks, then the
    levels of merging in place, each doubling the runs. For a comparator
    with total-order semantics and fuel for four times the items, it
    returns the stable sort of the array: the result is sorted, it is
    made of the items of the array, and the items that compare equal to
    any given one keep the order they had. *)
Theorem new_WikiSort_sorts_stably {T : Type} (size : Z)
    (compare : Comparison T) (array : list T) (fuel : nat) :
  total_order compare ->
  fits size array -> (8 <= length array)%nat ->
  (4 * length array <= fuel)%nat ->
  exists sorted,
    new_WikiSort (ST := list_store size) fuel array
      (Z.of_nat (length array)) size compare = Done sorted /\
    sorted_list compare sorted /\ Permutation array sorted /\
    (forall v, filter (equal_to compare v) sorted
               = filter (equal_to compare v) array).
Proof.
  intros Horder Hfit Hlen Hfuel.
  exists (stable_sort compare array).
  split; [now apply new_WikiSort_levels |].
  split; [now apply stable_sort_sorted |].
  split; [apply stable_sort_perm |].
  intros v. now apply stable_sort_stable.
Qed.

Lemma new_WikiSort_sorts_stably_witness :
  exists sorted,
    new_WikiSort (ST := list_store 8) 80
      [52; 17; 93; 11; 58; 34; 70; 15; 36; 99; 4; 71; 50; 12; 38; 7; 95;
       31; 76; 19]
      (Z.of_nat
         (length [52; 17; 93; 11; 58; 34; 70; 15; 36; 99; 4; 71; 50; 12;
                  38; 7; 95; 31; 76; 19]))
      8 (fun x y => x / 10 - y / 10)
    = Done sorted /\
    sorted_list (fun x y => x / 10 - y / 10) sorted /\
    Permutation
      [52; 17; 93; 11; 58; 34; 70; 15; 36; 99; 4; 71; 50; 12; 38; 7; 95;
       31; 76; 19] sorted /\
    (forall v, filter (equal_to (fun x y => x / 10 - y / 10) v) sorted
               = filter (equal_to (fun x y => x / 10 - y / 10) v)
                   [52; 17; 93; 11; 58; 34; 70; 15; 36; 99; 4; 71; 50; 12;
                    38; 7; 95; 31; 76; 19]).
Proof.
  apply (new_WikiSort_sorts_stably 8 (fun x y => x / 10 - y / 10)
           [52; 17; 93; 11; 58; 34; 70; 15; 36; 99; 4; 71; 50; 12; 38; 7;
            95; 31; 76; 19] 80).
  - constructor; intros; lia.
  - split; [lia | vm_compute; reflexivity].
  - simpl. lia.
  - simpl. lia.
Defined.

(** * The block size of a level *)

(** X27. The block size that [new_WikiSort] takes for a level,
    [sqrt] of the run length computed in double and cut to [size_t].
    For every [size_t] value the conversions are defined and the result
    is the integer square root or one more; when it is one more, the
    value is at least the product of the root and its successor, so it
    lies close below a square. Below 2^52 the result is the integer
    square root itself. *)
Theorem sqrt_size_t_near_root (x : Z) :
  0 <= x < SIZE_MAX1 ->
  exists b,
    sqrt_size_t x = Some b /\
    Z.sqrt x <= b <= Z.sqrt x + 1 /\
    (b - 1) * b <= x /\
    (x < 2 ^ 52 -> b = Z.sqrt x).
Proof.
  intros Hx. rewrite SIZE_MAX1_eq in Hx.
  destruct (sqrt_size_t_spec x ltac:(lia)) as (b & Hb & Hlo & Hhi).
  exists b. split; [exact Hb |].
  pose proof (Z.sqrt_nonneg x) as Hn0.
  pose proof (Z.sqrt_spec x ltac:(lia)) as Hn. cbv zeta in Hn.
  set (n := Z.sqrt x) in *.
  assert (Hb0 : 0 <= b).
  { destruct (Z_lt_le_dec b 0) as [Hneg |]; [| lia]. nia. }
  split; [split |].
  - destruct (Z_lt_le_dec b n) as [Hlt |]; [| lia]. nia.
  - destruct (Z_lt_le_dec (n + 1) b) as [Hlt |]; [| lia]. nia.
  - split; [exact Hlo |].
    intros Hsmall. rewrite sqrt_size_t_small in Hb by lia.
    now injection Hb as <-.
Qed.

Lemma sqrt_size_t_near_root_witness :
  exists b,
    sqrt_size_t (2 ^ 52 + 2 ^ 27) = Some b /\
    Z.sqrt (2 ^ 52 + 2 ^ 27) <= b <= Z.sqrt (2 ^ 52 + 2 ^ 27) + 1 /\
    (b - 1) * b <= 2 ^ 52 + 2 ^ 27 /\
    (2 ^ 52 + 2 ^ 27 < 2 ^ 52 -> b = Z.sqrt (2 ^ 52 + 2 ^ 27)).
Proof.
  apply (sqrt_size_t_near_root (2 ^ 52 + 2 ^ 27)).
  rewrite SIZE_MAX1_eq. lia.
Defined.
